(* ===== verification/_CoqProject ===== *)
-Q . S2P
Prelude.v
GoStrings.v
Strconv.v
Randstring.v
RaftLog.v
RaftDebug.v
Persister.v
RaftCore.v
RaftLocal.v
RaftCluster.v
RaftElection.v
RaftTotal.v
RaftMatching.v
RaftDurable.v
RaftHistory.v
RaftVotes.v
RaftSteps.v
RaftCommit.v
RaftChosen.v
RaftCommitted.v
RaftService.v
RaftRuns.v
RaftAgree.v
RaftElect.v
RaftReplicate.v
RaftSafety.v
MRCoordinator.v
MRTable.v
MRJob.v
MRWorker.v
MRGroup.v
MRPipeline.v
MRApps.v
MRTiming.v
MRCluster.v
MRSafety.v
Programs.v
Bitset.v
PorcHeap.v
PorcModel.v
PorcSpec.v
PorcChecker.v
PorcSearch.v
PorcSim.v
PorcRun.v
PorcPartial.v
PorcOps.v
PorcParallel.v
PorcVisual.v
PorcPage.v
PorcLocal.v
KvModel.v
PorcSafety.v
Labgob.v
Labrpc.v
LabrpcSafety.v
RaftTester.v
TesterSafety.v
RaftTested.v
TesterAgree.v
TesterMesh.v
Services.v
KvRaft.v
ShardCtrler.v
ShardKV.v
ServiceTester.v
CtrlerTester.v
ServiceSafety.v
ServiceServers.v
ServiceTheorems.v
ShardClient.v
ShardTester.v
ShardTesterSafety.v
