(* ===== verification/Prelude.v ===== *)
(** * Verification of the 6.824 lab set

    The repository holds the labs of a distributed-systems course in Go: a
    MapReduce implementation (src/src/mr, src/src/mrapps, src/src/main), a Raft
    implementation with its test harness (src/src/raft), the simulated network
    the peers talk over (src/src/labrpc, src/src/labgob), the services on top of
    Raft with their harnesses (src/src/kvraft, src/src/shardctrler,
    src/src/shardkv), and the linearizability checker with the key-value model
    that the tests of the services use (src/src/porcupine, src/src/models).  The
    handlers of the services are empty in this repository; the shard clients and
    all the harnesses are complete.

    ** How the parts work together

    A test creates a [Network] and a set of Raft peers and connects them
    (raft/config.go).  A peer calls others through the network; a call may be
    lost, delayed, reordered, or fail because its server was deleted.  Peers
    persist their state and send what is committed to the tester's appliers,
    which compare the servers' copies.  A server of a service holds a peer; its
    harness starts and stops servers, links and partitions them, and gives clients
    their own ends.  A client of the sharded store asks the controllers for a
    configuration and tries the servers of the key's group.  A MapReduce
    coordinator hands tasks to workers, which leave files for each other.
    Histories of operations on a key-value service are given to the checker
    together with [KvModel], and what it returns can be drawn.

    ** Conventions

    Code that can panic or block returns an [outcome] (below): [Done], [Blocked],
    or [Panicked]; a [log.Fatal], an [os.Exit] or a failed test is [Panicked] as
    well.  Code that runs under a lock is a function on the state; code that gives
    the lock up is one function per critical section, and a scheduler (a list of
    labels, events or acts) puts the sections of all goroutines in order.  Random
    numbers, random names and clocks are arguments.  [int] values are unbounded
    integers where nothing in the code brings them near 2^63; the words of bit sets
    are kept at 64 bits, and the request and byte counters of the network at 32 and
    64.  What the code takes from other packages is a class with the laws it relies
    on, and an instance that satisfies them: [RaftCodec], [KvCodec], [SnapCodec] and
    [Gob] for encoders, [KeySort], [TimeSort] and [PartialSort] for package sort.
    What the harnesses use of a service is the class [Replicated] with
    [ReplicatedLaws].

    ** Files

    Shared
    - GoStrings.v: the order on strings, sort.Strings and strings.Join.
    - Strconv.v: reading numbers from texts.
    - Randstring.v: [randstring] of the harnesses.

    Raft (src/src/raft)
    - RaftLog.v: log.go.  Persister.v: persister.go and the state codec.
    - RaftDebug.v: util.go and the texts of logs.
    - RaftCore.v: raft.go, vote.go, entry.go, leaderElection.go; the peer's state
      is [Raft], one definition per method.
    - RaftCluster.v: peers, calls in flight and deliveries; [exec] executes one
      label, [reach] are the reachable clusters.
    - RaftLocal.v, RaftTotal.v, RaftService.v, RaftCommit.v: what the methods of
      one peer do on every branch, and that they return.
    - RaftElection.v, RaftMatching.v, RaftDurable.v: invariants of clusters.
    - RaftHistory.v, RaftVotes.v, RaftSteps.v: the logs of past leaders, who voted
      with which log and who acknowledged what, as ghost state of a run.
    - RaftChosen.v, RaftCommitted.v, RaftAgree.v: entries a majority acknowledged,
      what commit indices stand for, and the theorems on agreement.
    - RaftElect.v, RaftReplicate.v: that a majority can elect a leader, and commit.
    - RaftRuns.v: concrete runs.  RaftSafety.v: the other theorems.
    - RaftTester.v: config.go.  TesterSafety.v: appliers, links and restarts.
      TesterAgree.v: [one] and [wait].  TesterMesh.v: [make_config].
      RaftTested.v: the cluster of RaftCluster.v under the tester's appliers.

    MapReduce (src/src/mr, src/src/mrapps, src/src/main)
    - MRCoordinator.v: coordinator.go, and the system of coordinator and workers.
    - MRWorker.v: worker.go and mrsequential.go.  MRApps.v: the applications.
    - MRTable.v, MRJob.v: invariants of the coordinator.
    - MRGroup.v, MRPipeline.v: grouping, and what map and reduce tasks write.
    - MRCluster.v: coordinator, the loop of the workers, and the files.
    - MRSafety.v: the theorems.
    - MRTiming.v: the applications mtiming and rtiming.
    - Programs.v: the programs of src/src/main and the coordinator's socket.

    Network (src/src/labrpc, src/src/labgob)
    - Labrpc.v: labrpc.go.  LabrpcSafety.v: the theorems.
    - Labgob.v: labgob.go, and its theorems.

    Linearizability checker (src/src/porcupine, src/src/models)
    - Bitset.v: bitset.go.  PorcHeap.v: the linked list of checker.go.
    - PorcModel.v: model.go, the conversions, and what linearizable means.
    - PorcChecker.v: [checkSingle].  PorcParallel.v: [checkParallel] and porcupine.go.
    - PorcSpec.v, PorcSearch.v, PorcSim.v, PorcRun.v: from the specification over
      a structurally recursive search to the loop with its explicit stack.
    - PorcPartial.v: the partial linearizations the loop records.
    - PorcVisual.v: the data of visualization.go.  PorcPage.v: its JSON text, and
      the page.
    - PorcOps.v: histories of operations.  PorcLocal.v: merging orders.
    - KvModel.v: models/kv.go and the whole store.  PorcSafety.v: the theorems.

    Services (src/src/kvraft, src/src/shardctrler, src/src/shardkv)
    - Services.v: what a harness needs of a service.  KvRaft.v, ShardCtrler.v,
      ShardKV.v: the servers and messages.
    - ServiceTester.v: kvraft/config.go, for any replicated service.
      CtrlerTester.v: shardctrler/config.go, which repeats it.
    - ServiceSafety.v, ServiceServers.v: links, servers and clients of a test.
      ServiceTheorems.v: the theorems.
    - ShardClient.v: the clients of shardctrler and shardkv, and their theorems.
    - ShardTester.v: shardkv/config.go.  ShardTesterSafety.v: the theorems.

    ** What is proved

    Raft. In runs in which no InstallSnapShot request is handled, with crashes
    and any loss and reordering: one leader per term, final votes, terms that
    never decrease. In runs without snapshots: log matching, append-only
    leaders, deliveries in index order, and that no handler panics. In all
    runs: what is in the persister is what is in memory, so a restart recovers
    term, vote and log. Each handler is compared with its rule. In runs without
    snapshots in which no answer to AppendEntries reaches its sender as leader
    of another term ([prompt]): a leader's log has everything that was
    committed in its term or an earlier one, what a peer has committed stays in
    its log, and no two peers deliver different commands at an index. From
    every cluster such a run reaches, any majority of two or more peers can go
    on without the others: it can elect a leader, and commit and deliver a new
    command ([majority_commits]), a sleeping delivery goroutine being woken by
    the handler that raised the commit index; a peer alone never leads. Three
    runs show where the implementation leaves Raft: InstallSnapShot overwrites
    votes, replies of an earlier term are counted, and a compacted log is
    indexed below its start. The tester's appliers accept exactly the agreeing,
    ordered deliveries, and so those of every cluster with prompt answers; its
    end names differ exactly if the random bytes they are made from do; its
    connections match the network's ends, its restarts recover the peer, a new
    test is fully meshed, and [one] ends, and returns an index only after a
    connected peer accepted the command there and enough servers applied it.

    MapReduce. Map tasks done in any order and number, and reduce tasks that
    are given every map output once, write the lines of the sequential program,
    for every application whose Reduce does not depend on the order of its
    values and whose pairs survive the encoding. In [timely] histories, in
    which no result comes after its task was queued again and each result is
    processed before the next is reported, the coordinator gives every reduce
    task every map output once, never blocks, and can always finish; a whole
    job of coordinator, workers that may die, and files, then leaves the output
    of the sequential program. Three other histories show it losing output,
    blocking, and counting output twice. When the program mrcoordinator returns
    in a timely history, its output files have the lines that the program
    mrsequential writes. The number a task of mtiming or rtiming reports is
    that of the live workers whose files are in the directory, whatever other
    workers do before and after it is read. The flags of diskvd are read back
    from their texts.

    Network. A handler runs at most once; a positive reply is the handler's,
    and one server was registered under the name the end was connected to when
    it got the request, ran the handler, and was still registered when the
    reply was taken; calls wait for handlers only. The check of transmitted
    types ends on recursive types and reports each lower-case field once;
    otherwise encoding and decoding are those of gob.

    Checker. [checkSingle] terminates and decides linearizability;
    [checkParallel], on at least one part, can always return and returns the
    right answer under every schedule; checking [KvModel] key by key decides
    linearizability of the whole store. The partial linearizations it reports
    are partial linearizations, so that computing the data of the picture never
    panics, and the page holds a text from which this data is read back,
    unchanged when its descriptions are valid UTF-8, and which does not end the
    page's script; errors in writing it are reported. An empty history makes
    the checker wait forever.

    Services. Once all servers are started the links of a test are those of an
    abstract relation on which the harness operates; with an odd number of
    servers a partition isolates the leader in the minority; shutting a server
    down and starting it again recovers its peer; a client's ends follow its
    last connect or disconnect; new tests are fully linked, except that a
    sharded test and its clients can only be made with groups as large as the
    number of controllers. A [Get] of the sharded client returns only what a
    server of the key's group answered, returns once somebody answers, and
    never panics.

    ** Fuel

    [checkLoop] takes the number of turns as fuel; [checkSingle_decides] gives a
    number that is enough for every larger one too. The loop that counts the nodes
    of the checker's list has the size of the heap as fuel, which no list without
    repetition exceeds. [reduceLoop] has the length of its slice, and [findXIndex]
    and [findLastLogFrom] the index they start from: each turn uses up one
    element. [checkType] has one more than the number of types, as no path of
    calls marks a type twice. The loops of [one] have a number of looks at the
    servers; [one_terminates] gives a number that is enough. [wait] looks 30
    times, as in the code. [read_items] has the length of its text. The loops of
    the shard clients have a number of rounds; [Get_returns] gives one that is
    enough once servers answer.

    ** What is not modelled

    Printing (the debugging calls of the Raft methods print nothing, as [Debug] is
    off), the constant of HTML and JavaScript in porcupine/visualization.go around
    the data, sleeping times, RPC over sockets beyond its possible results, the
    sources of random numbers and bytes, which are arguments, and the texts of
    labgob's warnings. The packages that some programs of src/src/main import
    (diskv, lockservice, pbservice, viewservice) are not in the repository: the
    model of such a program ends at the call into them. *)

From stdpp Require Import base list numbers gmap strings.
From Stdlib Require Import Lia.

Open Scope Z_scope.

(** ** The outcome of a piece of Go code

    A function body either returns ([Done]), waits forever on a channel, a
    condition or a message that is not there ([Blocked]), or raises a run-time
    panic such as an index out of range or a nil dereference ([Panicked]). *)

Inductive outcome (A : Type) : Type :=
  | Done (a : A)
  | Blocked
  | Panicked.

Arguments Done {A} a.
Arguments Blocked {A}.
Arguments Panicked {A}.

#[export] Instance outcome_ret : MRet outcome := λ A a, Done a.

#[export] Instance outcome_bind : MBind outcome := λ A B f m,
  match m with
  | Done a => f a
  | Blocked => Blocked
  | Panicked => Panicked
  end.

Definition of_option {A} (o : option A) : outcome A :=
  match o with Some a => Done a | None => Panicked end.

(** [wp m Q]: [m] returns, and its result satisfies [Q] (total correctness). *)
Definition wp {A} (m : outcome A) (Q : A → Prop) : Prop :=
  match m with Done a => Q a | _ => False end.

Section outcome_laws.
Context {A B : Type}.

Lemma bind_Done (f : A → outcome B) (m : outcome A) (b : B) :
    m ≫= f = Done b ↔ ∃ a, m = Done a ∧ f a = Done b.
Proof. destruct m; cbn; naive_solver. Qed.

Lemma of_option_Done (o : option A) (a : A) :
    of_option o = Done a ↔ o = Some a.
Proof. destruct o; cbn; naive_solver. Qed.

Lemma wp_bind (f : A → outcome B) (m : outcome A) (Q : B → Prop) :
    wp m (λ a, wp (f a) Q) → wp (m ≫= f) Q.
Proof. by destruct m. Qed.

Lemma wp_mono (m : outcome A) (P Q : A → Prop) :
    wp m P → (∀ a, P a → Q a) → wp m Q.
Proof. destruct m; cbn; naive_solver. Qed.

Lemma wp_Done (m : outcome A) (Q : A → Prop) :
    wp m Q ↔ ∃ a, m = Done a ∧ Q a.
Proof. destruct m; cbn; naive_solver. Qed.

Lemma wp_post (m : outcome A) (Q : A → Prop) a :
    wp m Q → m = Done a → Q a.
Proof. by intros H ->. Qed.
End outcome_laws.

(** ** Slices

    Go indices are [int]; a negative or too large index panics. *)

Section slices.
Context {A : Type}.

Definition zlookup (xs : list A) (i : Z) : outcome A :=
    if i <? 0 then Panicked else of_option (xs !! Z.to_nat i).

  (** [xs[i] = x] *)
Definition zupdate (xs : list A) (i : Z) (x : A) : outcome (list A) :=
    if (i <? 0) || (Z.of_nat (length xs) <=? i) then Panicked
    else Done (<[Z.to_nat i := x]> xs).

  (** [xs[k:]] *)
Definition slice_from (xs : list A) (k : Z) : outcome (list A) :=
    if (k <? 0) || (Z.of_nat (length xs) <? k) then Panicked
    else Done (drop (Z.to_nat k) xs).

  (** [xs[:k]] for [k] within the length *)
Definition slice_to (xs : list A) (k : Z) : outcome (list A) :=
    if (k <? 0) || (Z.of_nat (length xs) <? k) then Panicked
    else Done (take (Z.to_nat k) xs).

  (** [copy(dst, src)]: overwrites the first [min(len dst, len src)] cells. *)
Definition copy_into (dst src : list A) : list A :=
    take (length dst) src ++ drop (length src) dst.

Lemma zlookup_Done xs i x :
    zlookup xs i = Done x ↔ 0 <= i ∧ xs !! Z.to_nat i = Some x.
Proof.
    unfold zlookup. destruct (Z.ltb_spec i 0); [naive_solver lia|].
    rewrite of_option_Done. naive_solver lia.
  Qed.

Lemma zlookup_total xs i :
    0 <= i < Z.of_nat (length xs) → ∃ x, zlookup xs i = Done x.
Proof.
    intros Hi. destruct (lookup_lt_is_Some_2 xs (Z.to_nat i)) as [x Hx]; [lia|].
    exists x. apply zlookup_Done. split; [lia|done].
  Qed.

Lemma zupdate_Done xs i x ys :
    zupdate xs i x = Done ys ↔
    0 <= i < Z.of_nat (length xs) ∧ ys = <[Z.to_nat i := x]> xs.
Proof.
    unfold zupdate.
    destruct (Z.ltb_spec i 0), (Z.leb_spec (Z.of_nat (length xs)) i); cbn;
      naive_solver lia.
  Qed.

Lemma slice_from_Done xs k ys :
    slice_from xs k = Done ys ↔
    0 <= k <= Z.of_nat (length xs) ∧ ys = drop (Z.to_nat k) xs.
Proof.
    unfold slice_from.
    destruct (Z.ltb_spec k 0), (Z.ltb_spec (Z.of_nat (length xs)) k); cbn;
      naive_solver lia.
  Qed.

Lemma slice_to_Done xs k ys :
    slice_to xs k = Done ys ↔
    0 <= k <= Z.of_nat (length xs) ∧ ys = take (Z.to_nat k) xs.
Proof.
    unfold slice_to.
    destruct (Z.ltb_spec k 0), (Z.ltb_spec (Z.of_nat (length xs)) k); cbn;
      naive_solver lia.
  Qed.

Lemma copy_into_same (dst src : list A) :
    length dst = length src → copy_into dst src = src.
Proof.
    intros H. unfold copy_into. rewrite H, take_ge by lia.
    rewrite drop_ge by lia. apply app_nil_r.
  Qed.
End slices.

(** ** Lists *)

(** Updating one element changes a count by that element. *)
Lemma length_filter_insert {A} (P : A → Prop) `{!∀ x, Decision (P x)} (l : list A) i x y :
  l !! i = Some y →
  (length (filter P (<[i := x]> l)) + (if decide (P y) then 1 else 0) =
   length (filter P l) + (if decide (P x) then 1 else 0))%nat.
Proof.
  revert i. induction l as [|z l IH]; intros [|i] Hi; try done; cbn in Hi.
  - injection Hi as ->. change (<[0%nat := x]> (y :: l)) with (x :: l). rewrite !filter_cons.
    repeat case_decide; cbn; lia.
  - specialize (IH _ Hi). change (<[S i := x]> (z :: l)) with (z :: <[i := x]> l).
    rewrite !filter_cons. repeat case_decide; cbn; lia.
Qed.

Lemma filter_none {A} (P : A → Prop) `{!∀ x, Decision (P x)} (l : list A) :
  (∀ x, x ∈ l → ¬ P x) → filter P l = [].
Proof.
  induction l as [|z l IH]; intros Hl; [done|]. rewrite filter_cons_False.
  - apply IH. intros x Hx. apply Hl. by right.
  - apply Hl. by left.
Qed.

Lemma filter_ext_in {A} (P Q : A → Prop) `{!∀ x, Decision (P x), !∀ x, Decision (Q x)} (l : list A) :
  (∀ x, x ∈ l → P x ↔ Q x) → filter P l = filter Q l.
Proof.
  induction l as [|z l IH]; intros Hl; [done|]. rewrite !filter_cons.
  assert (P z ↔ Q z) as Hz by (apply Hl; by left).
  rewrite IH by (intros x Hx; apply Hl; by right). repeat case_decide; tauto.
Qed.

Lemma forallb_false_iff {A} (f : A → bool) (l : list A) :
  forallb f l = false ↔ ∃ x, In x l ∧ f x = false.
Proof.
  induction l as [|y l IH]; cbn; [split; [done|by intros (x & [] & _)]|].
  rewrite andb_false_iff, IH. naive_solver.
Qed.

Lemma lookup_cons_S {A} (x : A) (l : list A) i : (x :: l) !! S i = l !! i.
Proof. done. Qed.

Lemma filter_all {A} (P : A → Prop) `{!∀ x, Decision (P x)} (l : list A) :
  (∀ x, x ∈ l → P x) → filter P l = l.
Proof.
  induction l as [|z l IH]; intros Hl; [done|]. rewrite filter_cons_True.
  - f_equal. apply IH. intros x Hx. apply Hl. by right.
  - apply Hl. by left.
Qed.

(** ** Automation *)

(** Turns every equation of the form [(x ← m; k) = Done y] in the context into
    the equations of its parts. *)
Ltac go_step :=
  match goal with
  | H : _ ≫= _ = Done _ |- _ =>
      apply bind_Done in H; destruct H as (? & ? & H); cbn beta in H
  | H : mbind _ _ = Done _ |- _ =>
      apply bind_Done in H; destruct H as (? & ? & H); cbn beta in H
  | H : mret _ = Done _ |- _ => unfold mret, outcome_ret in H
  | H : Done _ = Done _ |- _ => injection H as H; subst
  | H : Panicked = Done _ |- _ => discriminate H
  | H : Blocked = Done _ |- _ => discriminate H
  | H : of_option _ = Done _ |- _ => apply of_option_Done in H
  end.

(** Splits on the conditionals and matches in a hypothesis about an outcome. *)
Ltac go_case :=
  match goal with
  | H : (if ?b then _ else _) = Done _ |- _ => destruct b eqn:?
  | H : (match ?x with _ => _ end) = Done _ |- _ => destruct x eqn:?
  end.

Ltac go_inv := repeat first [progress cbn beta iota in * | go_step | go_case].

(** Boolean tests on integers, as propositions. *)
Ltac zbool :=
  repeat match goal with
  | H : (_ <? _) = true |- _ => apply Z.ltb_lt in H
  | H : (_ <? _) = false |- _ => apply Z.ltb_ge in H
  | H : (_ <=? _) = true |- _ => apply Z.leb_le in H
  | H : (_ <=? _) = false |- _ => apply Z.leb_gt in H
  | H : (_ =? _) = true |- _ => apply Z.eqb_eq in H
  | H : (_ =? _) = false |- _ => apply Z.eqb_neq in H
  | H : (_ && _) = true |- _ => apply andb_true_iff in H; destruct H
  | H : (_ || _) = false |- _ => apply orb_false_iff in H; destruct H
  | H : (_ && _) = false |- _ => apply andb_false_iff in H
  | H : (_ || _) = true |- _ => apply orb_true_iff in H
  | H : negb _ = true |- _ => apply negb_true_iff in H
  | H : negb _ = false |- _ => apply negb_false_iff in H
  end.

(** ** Code that never waits *)

Definition unblocked {A} (m : outcome A) : Prop := m ≠ Blocked.

Lemma unblocked_bind {A B} (f : A → outcome B) (m : outcome A) :
  unblocked m → (∀ a, unblocked (f a)) → unblocked (m ≫= f).
Proof. intros Hm Hf. destruct m; [apply Hf|done|done]. Qed.

Lemma unblocked_Done {A} (a : A) : unblocked (Done a).
Proof. done. Qed.

Lemma unblocked_Panicked {A} : unblocked (@Panicked A).
Proof. done. Qed.

Lemma unblocked_option {A} (o : option A) : unblocked (of_option o).
Proof. by destruct o. Qed.

Lemma unblocked_zlookup {A} (xs : list A) i : unblocked (zlookup xs i).
Proof. unfold zlookup. destruct (i <? 0); [done|apply unblocked_option]. Qed.

Lemma unblocked_slice {A} (xs : list A) i : unblocked (slice_from xs i).
Proof. unfold slice_from. by destruct (_ || _). Qed.

Create HintDb unblocked discriminated.
#[export] Hint Resolve unblocked_Done unblocked_Panicked unblocked_option unblocked_zlookup
  unblocked_slice : unblocked.

(** Follows the binds, conditionals and matches of a body. *)
Ltac unblocked :=
  repeat match goal with
  | |- unblocked (mbind _ _) => apply unblocked_bind; [|intros ?]
  | |- unblocked (mret _) => apply unblocked_Done
  | |- unblocked (if ?b then _ else _) => destruct b
  | |- unblocked (match ?x with _ => _ end) => destruct x
  | |- unblocked (let _ := _ in _) => cbv zeta
  | |- unblocked _ => solve [eauto with unblocked nocore]
  end.

Create HintDb go discriminated.
#[export] Hint Resolve wp_bind : go.
