(* ===== verification/GoStrings.v ===== *)
(** * Strings (Go's order on strings, sort.Strings and strings.Join)

    Go compares strings byte by byte; [str_lt] is that order, and [sort_strings]
    the sorted list, which does not depend on the order of its input
    ([sort_strings_perm]). *)

From stdpp Require Import base list numbers strings sorting.
From Stdlib Require Import Lia Ascii.
From S2P Require Import Prelude.

(** Go compares strings byte by byte. *)
Fixpoint str_lt (a b : string) : bool :=
  match a, b with
  | _, EmptyString => false
  | EmptyString, String _ _ => true
  | String x a', String y b' =>
      (nat_of_ascii x <? nat_of_ascii y)%nat ||
      ((nat_of_ascii x =? nat_of_ascii y)%nat && str_lt a' b')
  end.

(** ** [str_lt] is a strict total order *)

Lemma str_lt_irrefl a : str_lt a a = false.
Proof.
  induction a as [|x a IH]; [done|]. cbn [str_lt]. rewrite Nat.ltb_irrefl, Nat.eqb_refl. done.
Qed.

Lemma nat_of_ascii_inj x y : nat_of_ascii x = nat_of_ascii y → x = y.
Proof. intros E. rewrite <- (ascii_nat_embedding x), <- (ascii_nat_embedding y). by rewrite E. Qed.

Lemma str_lt_total a b : str_lt a b = false → str_lt b a = false → a = b.
Proof.
  revert b. induction a as [|x a IH]; intros [|y b]; cbn [str_lt]; try done.
  intros [H1 H2]%orb_false_iff [H3 H4]%orb_false_iff.
  apply Nat.ltb_ge in H1, H3. assert (nat_of_ascii x = nat_of_ascii y) as E by lia.
  rewrite E, Nat.eqb_refl in *. cbn in *. f_equal; [by apply nat_of_ascii_inj|by apply IH].
Qed.

Lemma str_lt_trans a b c : str_lt a b = true → str_lt b c = true → str_lt a c = true.
Proof.
  revert b c. induction a as [|x a IH]; intros [|y b] [|z c]; cbn [str_lt]; try done.
  rewrite !orb_true_iff, !andb_true_iff, !Nat.ltb_lt, !Nat.eqb_eq.
  intros [?|[? H1]] [?|[? H2]]; try (left; lia). right. split; [lia|by eapply IH].
Qed.

(** ** Sorting *)

Definition str_le (a b : string) : Prop := str_lt b a = false.

#[export] Instance str_le_dec a b : Decision (str_le a b).
Proof. unfold str_le. apply _. Defined.

#[export] Instance str_le_total : Total str_le.
Proof.
  intros a b. unfold str_le. destruct (str_lt b a) eqn:E; [right|by left].
  destruct (str_lt a b) eqn:E'; [|done]. pose proof (str_lt_trans _ _ _ E E') as H.
  by rewrite str_lt_irrefl in H.
Qed.

#[export] Instance str_le_trans : Transitive str_le.
Proof.
  intros a b c. unfold str_le. intros H1 H2. destruct (str_lt c a) eqn:E; [|done].
  destruct (str_lt a b) eqn:E'.
  - by rewrite (str_lt_trans _ _ _ E E') in H2.
  - by rewrite (str_lt_total _ _ E' H1) in E; rewrite E in H2.
Qed.

#[export] Instance str_le_antisymm : AntiSymm (=) str_le.
Proof. intros a b H1 H2. by apply str_lt_total. Qed.

(** [sort.Strings]: equal strings are indistinguishable, so every sorting
    algorithm gives this result. *)
Definition sort_strings (vs : list string) : list string := merge_sort str_le vs.

Lemma sort_strings_perm vs vs' : vs ≡ₚ vs' → sort_strings vs = sort_strings vs'.
Proof.
  intros H. apply (StronglySorted_unique str_le).
  - apply (StronglySorted_merge_sort _).
  - apply (StronglySorted_merge_sort _).
  - unfold sort_strings. by rewrite !merge_sort_Permutation.
Qed.

(** [strings.Join] *)
Fixpoint Join (vs : list string) (sep : string) : string :=
  match vs with
  | [] => ""
  | [v] => v
  | v :: vs' => v +:+ sep +:+ Join vs' sep
  end.
