(* ===== verification/Strconv.v ===== *)
(** * Numbers in texts (Go's strconv, and the verb %d of fmt.Sscanf)

    The programs of src/src/main read numbers from their arguments, and the timing
    applications of src/src/mrapps find process ids in file names.  [ParseInt] is
    [strconv.ParseInt(s, 10, 64)], with the value it returns next to an error,
    because the programs use the value without looking at the error.  Texts are
    ASCII.  The main lemmas say that a printed number is read back
    ([ParseInt_pretty], [scan_int_pretty]) and that a number is always within the
    range of an [int64] ([ParseInt_range]). *)

From stdpp Require Import base list numbers strings pretty.
From Stdlib Require Import Lia Ascii.
From S2P Require Import Prelude.

Inductive NumError : Type := ErrSyntax | ErrRange.

Definition maxUint64 : Z := 2 ^ 64 - 1.
Definition minInt64 : Z := - 2 ^ 63.
Definition maxInt64 : Z := 2 ^ 63 - 1.

Definition digit (c : ascii) : option Z :=
  let n := Z.of_nat (nat_of_ascii c) in
  if (48 <=? n) && (n <=? 57) then Some (n - 48) else None.

(** The loop of [ParseUint] in base 10, with the value [n] so far; [n >= cutoff]
    says that ten times [n] overflows. *)
Fixpoint ParseUint_from (n : Z) (s : string) : Z * option NumError :=
  match s with
  | EmptyString => (n, None)
  | String c s' =>
      match digit c with
      | None => (0, Some ErrSyntax)
      | Some d =>
          if maxUint64 / 10 + 1 <=? n then (maxUint64, Some ErrRange)
          else if maxUint64 <? 10 * n + d then (maxUint64, Some ErrRange)
          else ParseUint_from (10 * n + d) s'
      end
  end.

Definition ParseUint (s : string) : Z * option NumError :=
  match s with
  | EmptyString => (0, Some ErrSyntax)
  | _ => ParseUint_from 0 s
  end.

(** The sign in front of a number. *)
Definition take_sign (s : string) : bool * string :=
  match s with
  | String c s' =>
      if bool_decide (c = "-"%char) then (true, s')
      else if bool_decide (c = "+"%char) then (false, s') else (false, s)
  | EmptyString => (false, s)
  end.

Definition ParseInt (s : string) : Z * option NumError :=
  let '(neg, s) := take_sign s in
  match ParseUint s with
  | (_, Some ErrSyntax) => (0, Some ErrSyntax)
  | (un, _) =>
      if negb neg && (2 ^ 63 <=? un) then (maxInt64, Some ErrRange)
      else if neg && (2 ^ 63 <? un) then (minInt64, Some ErrRange)
      else (if neg then - un else un, None)
  end.

(** [int] has 64 bits. *)
Definition Atoi (s : string) : Z * option NumError := ParseInt s.

Definition ParseBool (s : string) : bool * option NumError :=
  if bool_decide (s ∈ ["1"; "t"; "T"; "TRUE"; "true"; "True"]) then (true, None)
  else if bool_decide (s ∈ ["0"; "f"; "F"; "FALSE"; "false"; "False"]) then (false, None)
  else (false, Some ErrSyntax).

(** ** The verb %d *)

(** White space but not the end of a line is skipped. *)
Fixpoint SkipSpace (s : string) : option string :=
  match s with
  | EmptyString => Some s
  | String c s' =>
      if bool_decide (nat_of_ascii c = 10%nat) then None
      else if bool_decide (nat_of_ascii c ∈ [9; 11; 12; 13; 32]%nat) then SkipSpace s'
      else Some s
  end.

Fixpoint take_digits (s : string) : string :=
  match s with
  | String c s' => match digit c with Some _ => String c (take_digits s') | None => EmptyString end
  | EmptyString => EmptyString
  end.

(** What follows the digits is not looked at. *)
Definition scan_int (s : string) : option Z :=
  s ← SkipSpace s;
  let '(neg, s) := take_sign s in
  match ParseInt ((if neg then "-" else "") +:+ take_digits s) with
  | (x, None) => Some x
  | _ => None
  end.

(** [fmt.Sscanf(name, prefix+"%d", &x)] reads one operand, for a [prefix] without
    white space and per cent signs. *)
Fixpoint Sscanf (prefix name : string) : option Z :=
  match prefix, name with
  | EmptyString, _ => scan_int name
  | String p prefix', String c name' => if bool_decide (p = c) then Sscanf prefix' name' else None
  | String _ _, EmptyString => None
  end.

(** ** Reading back what was printed *)

Fixpoint all_digits (s : string) : bool :=
  match s with
  | EmptyString => true
  | String c s' => match digit c with Some _ => all_digits s' | None => false end
  end.

Lemma digit_range c d : digit c = Some d → 0 <= d <= 9.
Proof. unfold digit. destruct (_ && _) eqn:E; [|done]. intros [= <-]. zbool. lia. Qed.

Lemma digit_pretty x : (x < 10)%N → digit (pretty_N_char x) = Some (Z.of_N x).
Proof.
  intros H. assert (x ∈ [0;1;2;3;4;5;6;7;8;9])%N as Hin by (rewrite !list_elem_of_In; cbn; lia).
  repeat (apply elem_of_cons in Hin as [->|Hin]; [reflexivity|]). by apply not_elem_of_nil in Hin.
Qed.

(** Induction along the digits that [pretty] prints, the last one first. *)
Lemma pretty_go_ind (P : N → string → string → Prop) :
  (∀ s, P 0%N s s) →
  (∀ x s r, (0 < x)%N → P (x `div` 10)%N (String (pretty_N_char (x `mod` 10)) s) r → P x s r) →
  ∀ x s, P x s (pretty_N_go x s).
Proof.
  intros H0 HS x. induction (N.lt_wf_0 x) as [x _ IH]; intros s.
  assert (x = 0 ∨ 0 < x)%N as [->|Hx] by lia; [rewrite pretty_N_go_0; apply H0|].
  rewrite pretty_N_go_step by done. apply HS; [done|]. apply IH. by apply N.div_lt.
Qed.

Lemma all_digits_pretty (x : N) : all_digits (pretty x) = true ∧ pretty x ≠ "".
Proof.
  unfold pretty, pretty_N. case_decide; [done|].
  assert (all_digits "" = true) as H0 by done. revert H0.
  assert ("" ≠ "" ∨ x ≠ 0)%N as H1 by (by right). revert H1.
  apply (pretty_go_ind (λ x s r, (s ≠ "" ∨ x ≠ 0)%N → all_digits s = true → all_digits r = true ∧ r ≠ "")).
  - intros s [?|?] Hs; done.
  - intros y s r Hy IH _ Hs. apply IH; [by left|]. cbn. by rewrite digit_pretty by (by apply N.mod_lt).
Qed.

Lemma ParseUint_from_pretty (x : N) s :
  Z.of_N x <= maxUint64 → ParseUint_from 0 (pretty_N_go x s) = ParseUint_from (Z.of_N x) s.
Proof.
  apply (pretty_go_ind (λ x s r, Z.of_N x <= maxUint64 → ParseUint_from 0 r = ParseUint_from (Z.of_N x) s)); clear x s.
  { done. }
  intros x s r Hx IH Hmax. pose proof (N.div_mod x 10 ltac:(done)) as E%(f_equal Z.of_N).
  pose proof (N.mod_lt x 10 ltac:(done)) as Hm. cbn [ParseUint_from] in IH. rewrite digit_pretty in IH by done.
  rewrite N2Z.inj_add, N2Z.inj_mul in E. change (Z.of_N 10) with 10 in E.
  pose proof (N2Z.is_nonneg (x `div` 10)) as Hq. pose proof (N2Z.is_nonneg (x `mod` 10)) as Hr. clear Hm.
  revert IH E Hq Hr. generalize (Z.of_N (x `div` 10)) (Z.of_N (x `mod` 10)). intros q m IH E Hq Hr.
  rewrite E in *. rewrite IH by (unfold maxUint64 in *; lia). unfold maxUint64 in *.
  destruct (Z.leb_spec ((2 ^ 64 - 1) / 10 + 1) q) as [H|_].
  { change ((2 ^ 64 - 1) / 10 + 1) with 1844674407370955162 in H. lia. }
  destruct (Z.ltb_spec (2 ^ 64 - 1) (10 * q + m)); [lia|done].
Qed.

Lemma ParseUint_pretty (x : N) : Z.of_N x <= maxUint64 → ParseUint (pretty x) = (Z.of_N x, None).
Proof.
  intros H. destruct (all_digits_pretty x) as [_ Hne]. unfold ParseUint. destruct (pretty x) eqn:E; [done|].
  rewrite <- E. unfold pretty, pretty_N. case_decide as Hx; [by subst|]. by rewrite ParseUint_from_pretty.
Qed.

Lemma take_sign_digits s : all_digits s = true → take_sign s = (false, s).
Proof.
  destruct s as [|c s]; [done|]. cbn. intros H. do 2 (case_bool_decide; [subst; done|]). done.
Qed.

(** A printed [int64] is read back. *)
Lemma ParseInt_pretty (x : Z) : minInt64 <= x <= maxInt64 → ParseInt (pretty x) = (x, None).
Proof.
  unfold minInt64, maxInt64. intros H. unfold ParseInt. destruct x as [|p|p]; [done| |].
  - change (pretty (Z.pos p)) with (pretty (N.pos p)). destruct (all_digits_pretty (N.pos p)) as [Hd _].
    rewrite take_sign_digits by done. rewrite ParseUint_pretty by (unfold maxUint64; lia). cbn -[Z.leb Z.ltb Z.pow].
    destruct (Z.leb_spec (2 ^ 63) (Z.pos p)); [lia|done].
  - change (pretty (Z.neg p)) with (String "-" (pretty (N.pos p))). cbn [take_sign]. rewrite bool_decide_true by done.
    rewrite ParseUint_pretty by (unfold maxUint64; lia). cbn -[Z.leb Z.ltb Z.pow].
    destruct (Z.ltb_spec (2 ^ 63) (Z.pos p)); [lia|done].
Qed.

Lemma ParseUint_nonneg s : 0 <= (ParseUint s).1.
Proof.
  assert (∀ n, 0 <= n → 0 <= (ParseUint_from n s).1) as H.
  { induction s as [|c s IH]; intros n Hn; cbn [ParseUint_from]; [done|]. destruct (digit c) as [d|] eqn:E; [|done].
    apply digit_range in E. repeat case_match; cbn; try done. apply IH. lia. }
  destruct s; [done|]. by apply H.
Qed.

(** Whatever the text, the number fits. *)
Lemma ParseInt_range s : minInt64 <= (ParseInt s).1 <= maxInt64.
Proof.
  unfold ParseInt, minInt64, maxInt64. destruct (take_sign s) as [neg s'].
  pose proof (ParseUint_nonneg s') as H. destruct (ParseUint s') as [un [[]|]]; cbn [fst] in *; cbn [fst]; try lia.
  all: destruct neg; cbn [negb andb];
    destruct (Z.leb_spec (2 ^ 63) un), (Z.ltb_spec (2 ^ 63) un); cbn [fst]; lia.
Qed.

Lemma take_digits_all s : all_digits s = true → take_digits s = s.
Proof. induction s as [|c s IH]; cbn; [done|]. destruct (digit c); [|done]. intros H. by rewrite IH. Qed.

Lemma SkipSpace_digits s : all_digits s = true → SkipSpace s = Some s.
Proof.
  destruct s as [|c s]; [done|]. cbn. unfold digit. destruct (_ && _) eqn:E; [|done]. intros _. zbool.
  rewrite bool_decide_false by lia. rewrite bool_decide_false; [done|]. rewrite list_elem_of_In. cbn. lia.
Qed.

Lemma scan_int_pretty (x : Z) : 0 <= x <= maxInt64 → scan_int (pretty x) = Some x.
Proof.
  intros H. assert (all_digits (pretty x) = true) as Hd.
  { destruct x as [|p|p]; [done| |lia]. apply (all_digits_pretty (N.pos p)). }
  unfold scan_int. rewrite SkipSpace_digits by done. cbn [mbind option_bind]. rewrite take_sign_digits by done.
  rewrite take_digits_all by done. change ("" +:+ pretty x) with (pretty x).
  rewrite ParseInt_pretty; [done|]. unfold minInt64. lia.
Qed.

Lemma Sscanf_prefix prefix rest : Sscanf prefix (prefix +:+ rest) = scan_int rest.
Proof.
  induction prefix as [|c prefix IH]; [done|]. change (String c prefix +:+ rest) with (String c (prefix +:+ rest)).
  cbn [Sscanf]. by rewrite bool_decide_true.
Qed.
