(* ===== verification/Randstring.v ===== *)
(** * Random names (randstring of the test harnesses)

    [randstring] of raft/config.go, which kvraft, shardctrler and shardkv repeat:
    [n] characters of the URL base64 encoding of [2 n] random bytes.  The harnesses
    name every end point with [randstring(20)] and rely on the names being
    different: they are, exactly when the random bytes they are made from are. *)

From stdpp Require Import base list numbers sets strings.
From Stdlib Require Import Lia Ascii.
From S2P Require Import Prelude.

(** ** encoding/base64, URLEncoding *)

Definition encodeURL : string := "ABCDEFGHIJKLMNOPQRSTUVWXYZabcdefghijklmnopqrstuvwxyz0123456789-_".

Definition padChar : ascii := "=".

(** [enc.encode[val>>k&0x3F]] *)
Definition sextet (val k : Z) : ascii :=
  default padChar (String.get (Z.to_nat (Z.land (Z.shiftr val k) 63)) encodeURL).

Definition quantum (b0 b1 b2 : Z) : Z := Z.lor (Z.shiftl b0 16) (Z.lor (Z.shiftl b1 8) b2).

Fixpoint EncodeToString (b : list Z) : list ascii :=
  match b with
  | b0 :: b1 :: b2 :: rest =>
      let val := quantum b0 b1 b2 in
      sextet val 18 :: sextet val 12 :: sextet val 6 :: sextet val 0 :: EncodeToString rest
  | [b0; b1] => let val := quantum b0 b1 0 in [sextet val 18; sextet val 12; sextet val 6; padChar]
  | [b0] => let val := quantum b0 0 0 in [sextet val 18; sextet val 12; padChar; padChar]
  | [] => []
  end.

(** [b] is what [crand.Read] left in the slice of [2*n] bytes. *)
Definition randstring (n : Z) (b : list Z) : outcome string :=
  if 2 * n <? 0 then Panicked
  else s ← slice_to (EncodeToString b) n; mret (String.string_of_list_ascii s).

Definition is_byte (x : Z) : Prop := 0 <= x < 256.

(** ** Six bits each *)

Lemma sextet_div val k : 0 <= k → sextet val k = default padChar (String.get (Z.to_nat (val / 2 ^ k mod 64)) encodeURL).
Proof. intros Hk. unfold sextet. rewrite Z.shiftr_div_pow2 by done. change 63 with (Z.ones 6). by rewrite Z.land_ones. Qed.

Lemma encodeURL_inj : ∀ i j : nat, (i < 64)%nat → (j < 64)%nat →
  default padChar (String.get i encodeURL) = default padChar (String.get j encodeURL) → i = j.
Proof.
  assert (forallb (λ i, forallb (λ j, implb (bool_decide (default padChar (String.get i encodeURL) =
    default padChar (String.get j encodeURL))) (Nat.eqb i j)) (seq 0 64)) (seq 0 64) = true) as H by (vm_compute; reflexivity).
  intros i j Hi Hj E. rewrite forallb_forall in H. specialize (H i). rewrite forallb_forall in H.
  assert (∀ k, (k < 64)%nat → In k (seq 0 64)) as Hin by (intros k Hk; apply in_seq; lia).
  specialize (H (Hin i Hi) j (Hin j Hj)). rewrite bool_decide_eq_true_2 in H by done. by apply Nat.eqb_eq.
Qed.

Lemma sextet_inj v v' k : 0 <= k → sextet v k = sextet v' k → v / 2 ^ k mod 64 = v' / 2 ^ k mod 64.
Proof.
  intros Hk E. rewrite !sextet_div in E by done.
  pose proof (Z.mod_pos_bound (v / 2 ^ k) 64 ltac:(done)). pose proof (Z.mod_pos_bound (v' / 2 ^ k) 64 ltac:(done)).
  apply encodeURL_inj in E; lia.
Qed.

Lemma lor_shift a b k : 0 <= k → 0 <= b < 2 ^ k → Z.lor (Z.shiftl a k) b = a * 2 ^ k + b.
Proof.
  intros Hk Hb. rewrite <- Z.shiftl_mul_pow2 by done. symmetry. apply Z.add_nocarry_lor. apply Z.bits_inj_iff'. intros i Hi.
  rewrite Z.land_spec, Z.bits_0. destruct (Z.lt_ge_cases i k).
  - by rewrite Z.shiftl_spec_low.
  - rewrite <- (Z.mod_small b (2 ^ k)), Z.mod_pow2_bits_high by lia. apply andb_false_r.
Qed.

Lemma quantum_sum b0 b1 b2 : is_byte b1 → is_byte b2 → quantum b0 b1 b2 = b0 * 65536 + b1 * 256 + b2.
Proof. unfold is_byte, quantum. intros H1 H2. rewrite (lor_shift b1 b2 8), (lor_shift b0 _ 16); lia. Qed.

(** Four characters give three bytes back. *)
Lemma quantum_inj b0 b1 b2 c0 c1 c2 :
  is_byte b0 → is_byte b1 → is_byte b2 → is_byte c0 → is_byte c1 → is_byte c2 →
  (∀ k, k ∈ [18; 12; 6; 0] → sextet (quantum b0 b1 b2) k = sextet (quantum c0 c1 c2) k) →
  b0 = c0 ∧ b1 = c1 ∧ b2 = c2.
Proof.
  intros Hb0 Hb1 Hb2 Hc0 Hc1 Hc2 E. rewrite !quantum_sum in E by done. unfold is_byte in *.
  set (v := b0 * 65536 + b1 * 256 + b2) in *. set (w := c0 * 65536 + c1 * 256 + c2) in *.
  assert (v = w) as Hvw; [|subst v w; lia].
  assert (∀ x, 0 <= x < 2 ^ 24 → x = (x / 2 ^ 18 mod 64) * 2 ^ 18 + (x / 2 ^ 12 mod 64) * 2 ^ 12 +
    (x / 2 ^ 6 mod 64) * 2 ^ 6 + x / 2 ^ 0 mod 64) as Hx.
  { intros x Hx. change (2 ^ 18) with 262144. change (2 ^ 12) with 4096. change (2 ^ 6) with 64. change (2 ^ 0) with 1.
    change (2 ^ 24) with 16777216 in Hx. Z.div_mod_to_equations. lia. }
  rewrite (Hx v), (Hx w) by (subst v w; lia).
  rewrite !(sextet_inj v w) by (done || apply E; set_solver). done.
Qed.

(** ** Names *)

Lemma EncodeToString_prefix (m : nat) b c :
  Forall is_byte b → Forall is_byte c → (3 * m <= length b)%nat → (3 * m <= length c)%nat →
  (take (4 * m) (EncodeToString b) = take (4 * m) (EncodeToString c) ↔ take (3 * m) b = take (3 * m) c).
Proof.
  revert b c. induction m as [|m IH]; intros b c Hb Hc Lb Lc; [done|].
  destruct b as [|b0 [|b1 [|b2 b]]]; [cbn in Lb; lia..|]. destruct c as [|c0 [|c1 [|c2 c]]]; [cbn in Lc; lia..|].
  apply Forall_cons in Hb as [? [? [? Hb]%Forall_cons]%Forall_cons].
  apply Forall_cons in Hc as [? [? [? Hc]%Forall_cons]%Forall_cons].
  replace (4 * S m)%nat with (S (S (S (S (4 * m))))) by lia. replace (3 * S m)%nat with (S (S (S (3 * m)))) by lia.
  cbn [EncodeToString take]. specialize (IH b c Hb Hc ltac:(cbn in Lb; lia) ltac:(cbn in Lc; lia)). split.
  - intros E. injection E as E1 E2 E3 E4 E5. apply IH in E5 as ->.
    destruct (quantum_inj b0 b1 b2 c0 c1 c2) as (-> & -> & ->); try done.
    intros k. rewrite !elem_of_cons, elem_of_nil. by intros [->|[->|[->|[->|[]]]]].
  - intros [= -> -> -> E]. apply IH in E as ->. done.
Qed.

Lemma EncodeToString_length b : (4 * length b <= 3 * length (EncodeToString b))%nat.
Proof.
  revert b. fix IH 1. intros [|b0 [|b1 [|b2 b]]]; cbn; [lia..|]. specialize (IH b). cbn. lia.
Qed.

Lemma string_of_list_inj s t : String.string_of_list_ascii s = String.string_of_list_ascii t → s = t.
Proof. intros E%(f_equal String.list_ascii_of_string). by rewrite !String.list_ascii_of_string_of_list_ascii in E. Qed.

(** A name has the length asked for, and two names of [4 m] characters are equal
    exactly when the first [3 m] random bytes are. *)
Lemma randstring_names (m : nat) b c :
  let n := 4 * Z.of_nat m in
  Forall is_byte b → Forall is_byte c → Z.of_nat (length b) = 2 * n → Z.of_nat (length c) = 2 * n →
  ∃ s t, randstring n b = Done s ∧ randstring n c = Done t ∧ Z.of_nat (String.length s) = n ∧
    (s = t ↔ take (3 * m) b = take (3 * m) c).
Proof.
  intros n Hb Hc Lb Lc. unfold randstring. destruct (Z.ltb_spec (2 * n) 0); [lia|].
  pose proof (EncodeToString_length b). pose proof (EncodeToString_length c).
  assert (∀ x, (4 * length x <= 3 * length (EncodeToString x))%nat → Z.of_nat (length x) = 2 * n →
    slice_to (EncodeToString x) n = Done (take (4 * m) (EncodeToString x))) as Hsl.
  { intros x Hx Lx. apply slice_to_Done. split; [lia|f_equal; lia]. }
  rewrite (Hsl b), (Hsl c) by done. cbn [mbind outcome_bind]. do 2 eexists. split; [done|]. split; [done|]. split.
  - assert (∀ l, String.length (String.string_of_list_ascii l) = length l) as -> by (induction l; cbn; congruence).
    rewrite length_take. lia.
  - rewrite <- EncodeToString_prefix by (done || lia). split; [apply string_of_list_inj|by intros ->].
Qed.

(** The names of a test, [randstring(20)] each, are different if the first 15 bytes
    of the blocks they are made from are. *)
Lemma randstrings_distinct bs :
  Forall (λ b, Forall is_byte b ∧ length b = 40%nat) bs → NoDup (take 15 <$> bs) →
  ∃ names, mapM (randstring 20) bs = Done names ∧ length names = length bs ∧ NoDup names.
Proof.
  intros Hbs Hnd. assert (∀ b c, b ∈ bs → c ∈ bs → ∃ s t, randstring 20 b = Done s ∧ randstring 20 c = Done t ∧
    (s = t ↔ take 15 b = take 15 c)) as Hn.
  { intros b c Hb Hc. rewrite Forall_forall in Hbs. destruct (Hbs b Hb) as [? Lb], (Hbs c Hc) as [? Lc].
    destruct (randstring_names 5 b c) as (s & t & ? & ? & _ & ?); [done|done|by rewrite Lb|by rewrite Lc|eauto]. }
  clear Hbs. induction bs as [|b bs IH]; [exists []; split_and!; [done|done|constructor]|].
  apply NoDup_cons in Hnd as [Hb Hnd]. destruct IH as (names & Hm & Hl & Hd); [done|intros; apply Hn; by right|].
  destruct (Hn b b) as (s & _ & Hs & _); [by left..|]. exists (s :: names). cbn. rewrite Hs. cbn. rewrite Hm.
  split_and!; [done|by rewrite Hl|]. apply NoDup_cons. split; [|done]. intros Hin. apply Hb.
  assert (∃ c, c ∈ bs ∧ randstring 20 c = Done s) as (c & Hc & Hcs).
  { clear - Hm Hin. revert names Hm Hin. induction bs as [|x bs IH]; intros names Hm Hin; cbn in Hm; go_inv; [by apply not_elem_of_nil in Hin|].
    apply elem_of_cons in Hin as [->|Hin]; [exists x; split; [by left|done]|].
    edestruct IH as (c & ? & ?); [done|done|]. exists c. split; [by right|done]. }
  destruct (Hn b c) as (s1 & t1 & E1 & E2 & Hiff); [by left|by right|]. apply list_elem_of_fmap. exists c.
  split; [apply Hiff; congruence|done].
Qed.
