(* ===== verification/RaftLog.v ===== *)
(** * The Raft log (src/src/raft/log.go)

    Entries, the log with its base index [Index0], and the index arithmetic
    every handler goes through.  The well-formedness invariant [log_ok] says
    that the slot of an entry and its [Index] field agree; under it every
    accessor used within its range returns. *)

From stdpp Require Import base list numbers gmap strings.
From Stdlib Require Import Lia.
From S2P Require Import Prelude.

(** A command is a Go [interface{}]; the programs that use Raft here submit
    integers and strings, and a snapshot leaves a [nil] command behind. *)
Inductive Iface : Type :=
  | INil
  | IInt (n : Z)
  | IStr (s : string).

#[export] Instance Iface_eq_dec : EqDecision Iface.
Proof. solve_decision. Defined.

#[export] Instance Iface_countable : Countable Iface.
Proof.
  refine (inj_countable'
    (λ c, match c with INil => inl () | IInt n => inr (inl n) | IStr s => inr (inr s) end)
    (λ c, match c with inl _ => INil | inr (inl n) => IInt n | inr (inr s) => IStr s end) _).
  by intros [].
Defined.

Record Entry : Type := mkEntry {
  Command : Iface;
  Term : Z;
  Index : Z;
}.

#[export] Instance Entry_eq_dec : EqDecision Entry.
Proof. solve_decision. Defined.

#[export] Instance Entry_countable : Countable Entry.
Proof.
  refine (inj_countable' (λ e, (Command e, Term e, Index e))
                         (λ t, mkEntry t.1.1 t.1.2 t.2) _).
  by intros [].
Defined.

(** The zero value of the struct, with which [make] fills a slice. *)
Definition zeroEntry : Entry := mkEntry INil 0 0.

Record Log : Type := mkLog {
  Entries : list Entry;
  Index0 : Z;
}.

#[export] Instance Log_eq_dec : EqDecision Log.
Proof. solve_decision. Defined.

#[export] Instance Log_countable : Countable Log.
Proof.
  refine (inj_countable' (λ l, (Entries l, Index0 l)) (λ p, mkLog p.1 p.2) _).
  by intros [].
Defined.

Definition makeEmptyLog : Log := mkLog [] 0.

Definition at_ (l : Log) (idx : Z) : outcome Entry :=
  zlookup (Entries l) (idx - Index0 l).

Definition append (l : Log) (entries : list Entry) : Log :=
  mkLog (Entries l ++ entries) (Index0 l).

Definition truncate (l : Log) (idx : Z) : outcome Log :=
  es ← slice_to (Entries l) (idx - Index0 l);
  mret (mkLog es (Index0 l)).

Definition Tail (l : Log) (idx : Z) : outcome (list Entry) :=
  slice_from (Entries l) (idx - Index0 l).

Definition Len (l : Log) : Z := Z.of_nat (length (Entries l)) + Index0 l.

Definition LastLog (l : Log) : outcome Entry := at_ l (Len l - 1).

(** ** Well-formed logs *)

Definition lastIndex (l : Log) : Z := Len l - 1.

(** The entry in slot [i] carries index [Index0 + i], and there is at least
    one entry (the dummy entry of [Make], or the one a snapshot ends at). *)
Definition log_ok (l : Log) : Prop :=
  Entries l ≠ [] ∧
  ∀ (i : nat) e, Entries l !! i = Some e → Index e = Index0 l + Z.of_nat i.

Lemma log_ok_len l : log_ok l → (0 < length (Entries l))%nat.
Proof. intros [H _]. destruct (Entries l); [done|cbn; lia]. Qed.

Lemma log_ok_range l : log_ok l → Index0 l <= lastIndex l.
Proof. intros H%log_ok_len. unfold lastIndex, Len. lia. Qed.

Lemma at_Done l idx e :
  at_ l idx = Done e ↔
  Index0 l <= idx ∧ Entries l !! Z.to_nat (idx - Index0 l) = Some e.
Proof.
  unfold at_. rewrite zlookup_Done.
  split; intros [??]; (split; [lia|done]).
Qed.

Lemma at_total l idx :
  log_ok l → Index0 l <= idx <= lastIndex l →
  ∃ e, at_ l idx = Done e ∧ Index e = idx.
Proof.
  intros [_ Hok] Hidx. unfold lastIndex, Len in Hidx.
  destruct (zlookup_total (Entries l) (idx - Index0 l)) as [e He]; [lia|].
  exists e. split; [done|]. apply zlookup_Done in He as [??].
  rewrite (Hok _ _ H0). lia.
Qed.

Lemma at_index l idx e : log_ok l → at_ l idx = Done e → Index e = idx.
Proof. intros [_ Hok] [? H]%at_Done. rewrite (Hok _ _ H). lia. Qed.

Lemma at_range l idx e : at_ l idx = Done e → Index0 l <= idx <= lastIndex l.
Proof.
  intros [? H]%at_Done. apply lookup_lt_Some in H. unfold lastIndex, Len. lia.
Qed.

Lemma LastLog_total l :
  log_ok l →
  ∃ e, LastLog l = Done e ∧ Index e = lastIndex l ∧ last (Entries l) = Some e.
Proof.
  intros Hok. pose proof (log_ok_len _ Hok).
  destruct (at_total l (lastIndex l) Hok) as (e & He & Hi).
  { pose proof (log_ok_range _ Hok). lia. }
  exists e. split_and!; [done|done|].
  rewrite last_lookup. apply at_Done in He as [_ He]. rewrite <- He.
  f_equal. unfold lastIndex, Len. lia.
Qed.

Lemma LastLog_Done l e :
  log_ok l → LastLog l = Done e → Index e = lastIndex l ∧ last (Entries l) = Some e.
Proof.
  intros Hok H. destruct (LastLog_total _ Hok) as (e' & H' & ?). congruence.
Qed.

Lemma Tail_Done l idx :
  log_ok l → Index0 l <= idx <= lastIndex l + 1 →
  Tail l idx = Done (drop (Z.to_nat (idx - Index0 l)) (Entries l)).
Proof. intros Hok Hidx. apply slice_from_Done. unfold lastIndex, Len in *. split; [lia|done]. Qed.

Lemma truncate_Done l idx l' :
  truncate l idx = Done l' ↔
  Index0 l <= idx <= Len l ∧
  l' = mkLog (take (Z.to_nat (idx - Index0 l)) (Entries l)) (Index0 l).
Proof.
  unfold truncate, Len. split.
  - intros H. go_inv. apply slice_to_Done in H0 as [? ->]. split; [lia|done].
  - intros [? ->]. apply bind_Done. eexists. split; [apply slice_to_Done; split; [lia|done]|done].
Qed.

Lemma truncate_ok l idx l' :
  log_ok l → Index0 l < idx → truncate l idx = Done l' → log_ok l'.
Proof.
  intros Hok Hlt [? ->]%truncate_Done. pose proof (log_ok_len _ Hok).
  destruct Hok as [Hne Hok]. split; cbn.
  - intros Hnil%(f_equal length). rewrite length_take in Hnil. cbn in Hnil. lia.
  - intros i e Hi. apply lookup_take_Some in Hi as [Hi ?]. by apply Hok.
Qed.

(** Appending entries that continue the numbering keeps the log well formed. *)
Definition consecutive (from : Z) (es : list Entry) : Prop :=
  ∀ (i : nat) e, es !! i = Some e → Index e = from + Z.of_nat i.

Lemma append_ok l es :
  log_ok l → consecutive (lastIndex l + 1) es → log_ok (append l es).
Proof.
  intros [Hne Hok] Hes. split; cbn.
  - destruct (Entries l); done.
  - intros i e [Hi|[Hge Hi]]%lookup_app_Some; [by apply Hok|].
    rewrite (Hes _ _ Hi). unfold lastIndex, Len. lia.
Qed.

Lemma append_lastIndex l es :
  lastIndex (append l es) = lastIndex l + Z.of_nat (length es).
Proof. unfold lastIndex, Len. cbn. rewrite length_app. lia. Qed.

Lemma consecutive_cons from e es :
  consecutive from (e :: es) ↔ Index e = from ∧ consecutive (from + 1) es.
Proof.
  unfold consecutive. split.
  - intros H. split; [pose proof (H 0%nat e eq_refl); lia|].
    intros i e' Hi. rewrite (H (S i) e' Hi). lia.
  - intros [He H] [|i] e' Hi; cbn in Hi; [injection Hi as <-; lia|].
    rewrite (H i e' Hi). lia.
Qed.

Lemma consecutive_drop l (k : nat) :
  log_ok l → consecutive (Index0 l + Z.of_nat k) (drop k (Entries l)).
Proof.
  intros [_ Hok] i e Hi. rewrite lookup_drop in Hi. rewrite (Hok _ _ Hi). lia.
Qed.

Lemma drop_ok l (k : nat) :
  log_ok l → (k < length (Entries l))%nat →
  log_ok (mkLog (drop k (Entries l)) (Index0 l + Z.of_nat k)).
Proof.
  intros Hok Hk. split; cbn.
  - intros Hnil%(f_equal length). rewrite length_drop in Hnil. cbn in Hnil. lia.
  - by apply consecutive_drop.
Qed.

#[export] Hint Resolve log_ok_len log_ok_range append_ok truncate_ok : go.
