(* ===== verification/RaftDebug.v ===== *)
(** * Debugging output of Raft (src/src/raft: util.go, and the texts of log.go)

    What the debugging calls print, with the formatting of their arguments as a
    parameter, and the texts of entries and logs.  With [Debug] off nothing is
    written, so the rest of the model leaves the calls out; the text of a log shows
    the terms of its entries, which can be read back from it. *)

From stdpp Require Import base list numbers strings pretty.
From Stdlib Require Import Lia Ascii.
From S2P Require Import Prelude GoStrings Strconv RaftLog.

(** ** util.go *)

Definition Debug : bool := false.

(** [opened] is whether log.txt could be opened or created; [log.Fatalf] ends the
    program. *)
Definition init (opened : bool) : outcome unit := if opened then mret () else Panicked.

Section printing.
Context {A : Type} (Printf : string → list A → string).

(** The named results [n] and [err] are never assigned. *)
Definition DPrintf (format : string) (a : list A) (out : list string) : Z * option string * list string :=
  (0, None, if Debug then out ++ [Printf (format +:+ String "010" "") a] else out).

Definition DPrintVerbose (format : string) (a : list A) (out : list string) : Z * option string * list string :=
  (0, None, if Debug then out ++ [Printf (format +:+ String "010" "") a] else out).

Lemma debugging_is_silent format a out : DPrintf format a out = (0, None, out) ∧ DPrintVerbose format a out = (0, None, out).
Proof. done. Qed.

End printing.

(** ** log.go *)

Definition Entry_String (e : Entry) : string := pretty (Term e).

Fixpoint spaces (n : nat) : string := match n with O => "" | S n => String " " (spaces n) end.

(** The verb [%4d]. *)
Definition pad4 (x : Z) : string := spaces (4 - String.length (pretty x)) +:+ pretty x.

Definition Log_String (l : Log) : string := Join (map (λ e, pad4 (Term e)) (Entries l)) "|".

(** ** Reading a log's text *)

Definition bar : ascii := "|".

(** The text up to the first bar, and what follows it. *)
Fixpoint cut (s : string) : string * option string :=
  match s with
  | EmptyString => ("", None)
  | String c s' => if bool_decide (c = bar) then ("", Some s') else let '(a, r) := cut s' in (String c a, r)
  end.

(** Reads [n] columns. *)
Fixpoint columns (n : nat) (s : string) : list (option Z) :=
  match n with
  | O => []
  | S n => scan_int (cut s).1 :: match (cut s).2 with Some r => columns n r | None => [] end
  end.

Fixpoint barless (s : string) : Prop :=
  match s with EmptyString => True | String c s' => c ≠ bar ∧ barless s' end.

Lemma barless_app s t : barless s → barless t → barless (s +:+ t).
Proof.
  induction s as [|c s IH]; [done|]. intros [? ?] ?. change (String c s +:+ t) with (String c (s +:+ t)).
  split; [done|by apply IH].
Qed.

Lemma barless_digits s : all_digits s = true → barless s.
Proof.
  induction s as [|c s IH]; [done|]. cbn. destruct (digit c) as [d|] eqn:E; [|done]. intros H. split; [|by apply IH].
  intros ->. done.
Qed.

Lemma cut_barless s : barless s → cut s = (s, None).
Proof. induction s as [|c s IH]; [done|]. intros [Hc Hs]. cbn. rewrite bool_decide_false, IH by done. done. Qed.

Lemma cut_bar s t : barless s → cut (s +:+ "|" +:+ t) = (s, Some t).
Proof.
  induction s as [|c s IH]; [done|]. intros [Hc Hs]. change (String c s +:+ ?r) with (String c (s +:+ r)).
  cbn [cut]. rewrite bool_decide_false, IH by done. done.
Qed.

Lemma pretty_digits (x : Z) : 0 <= x → all_digits (pretty x) = true.
Proof. intros Hx. destruct x as [|p|p]; [done| |lia]. apply (all_digits_pretty (N.pos p)). Qed.

Lemma pad4_barless x : 0 <= x → barless (pad4 x).
Proof.
  intros Hx. apply barless_app; [|by apply barless_digits, pretty_digits].
  generalize (4 - String.length (pretty x))%nat as n. induction n; [done|]. by split.
Qed.

Lemma scan_pad4 x : 0 <= x <= maxInt64 → scan_int (pad4 x) = Some x.
Proof.
  intros Hx. rewrite <- (scan_int_pretty x Hx). unfold pad4. generalize (4 - String.length (pretty x))%nat as n.
  induction n as [|n IH]; [done|]. exact IH.
Qed.

(** The terms of a log are in its text, in their order. *)
Lemma Log_String_reads l :
  Forall (λ e, 0 <= Term e <= maxInt64) (Entries l) →
  columns (length (Entries l)) (Log_String l) = Some ∘ Term <$> Entries l.
Proof.
  unfold Log_String. induction (Entries l) as [|e es IH]; intros H; [done|].
  apply Forall_cons in H as [He Hes]. pose proof (pad4_barless (Term e) ltac:(lia)) as Hb.
  destruct es as [|e' es]; cbn [columns length fmap list_fmap].
  - cbn [map Join]. rewrite cut_barless by done. cbn [fst snd]. by rewrite scan_pad4.
  - change (Join (map (λ e, pad4 (Term e)) (e :: e' :: es)) "|")
      with (pad4 (Term e) +:+ "|" +:+ Join (map (λ e, pad4 (Term e)) (e' :: es)) "|").
    rewrite cut_bar by done. cbn [fst snd]. rewrite scan_pad4 by done. f_equal. by apply IH.
Qed.

Example Log_String_example :
  Log_String (mkLog [mkEntry INil 0 0; mkEntry INil 7 1; mkEntry INil 12 2] 0) = "   0|   7|  12".
Proof. vm_compute. reflexivity. Qed.
