(* ===== verification/Persister.v ===== *)
(** * Stable storage (src/src/raft/persister.go) and the state codec

    The persister keeps two byte slices: the encoded Raft state and the
    service's snapshot.  What Raft needs from the encoder (labgob over
    encoding/gob) is stated as a class: decoding what was encoded gives the
    same term, vote and log back, and an encoding is never empty.  The instance
    at the end shows that the class can be implemented. *)

From stdpp Require Import base list numbers gmap strings countable.
From Stdlib Require Import Lia.
From Stdlib Require Init.Byte.
From S2P Require Import Prelude RaftLog.

Abbreviation bytes := (list Byte.byte).

Record Persister : Type := mkPersister {
  raftstate : bytes;
  snapshot : bytes;
}.

Definition MakePersister : Persister := mkPersister [] [].

(** [clone] allocates a slice of the same length and copies into it. *)
Definition clone (orig : bytes) : bytes :=
  copy_into (replicate (length orig) Byte.x00) orig.

Definition Copy (ps : Persister) : Persister :=
  mkPersister (raftstate ps) (snapshot ps).

Definition SaveRaftState (ps : Persister) (state : bytes) : Persister :=
  mkPersister (clone state) (snapshot ps).

Definition ReadRaftState (ps : Persister) : bytes := clone (raftstate ps).

Definition RaftStateSize (ps : Persister) : Z := Z.of_nat (length (raftstate ps)).

Definition SaveStateAndSnapshot (ps : Persister) (state snap : bytes) : Persister :=
  mkPersister (clone state) (clone snap).

Definition ReadSnapshot (ps : Persister) : bytes := clone (snapshot ps).

Definition SnapshotSize (ps : Persister) : Z := Z.of_nat (length (snapshot ps)).

Lemma clone_id (b : bytes) : clone b = b.
Proof. apply copy_into_same. by rewrite length_replicate. Qed.

(** ** The encoder's contract *)

(** [encode_state] is the sequence of [Encode] calls of [persistData] on a
    fresh encoder, [decode_state] the sequence of [Decode] calls of
    [readPersist]; [None] is a non-nil error from one of them. *)
Class RaftCodec : Type := {
  encode_state : Z → Z → Log → bytes;
  decode_state : bytes → option (Z * Z * Log);
}.

Class RaftCodecLaws (C : RaftCodec) : Prop := {
  decode_encode_state : ∀ t v l, decode_state (encode_state t v l) = Some (t, v, l);
  encode_state_nonempty : ∀ t v l, encode_state t v l ≠ [];
}.

(** ** An implementation of the contract: the bits of a numbering *)

Fixpoint pos_bytes (p : positive) : bytes :=
  match p with
  | xH => [Byte.x01]
  | xO q => Byte.x00 :: pos_bytes q
  | xI q => Byte.x01 :: pos_bytes q
  end.

Fixpoint bytes_pos (bs : bytes) : option positive :=
  match bs with
  | [] => None
  | [_] => Some xH
  | Byte.x00 :: bs' => xO <$> bytes_pos bs'
  | _ :: bs' => xI <$> bytes_pos bs'
  end.

Lemma pos_bytes_cons p : ∃ b bs, pos_bytes p = b :: bs.
Proof. destruct p; cbn; eauto. Qed.

Lemma bytes_pos_bytes p : bytes_pos (pos_bytes p) = Some p.
Proof.
  induction p as [p IH|p IH|]; [| |done];
    destruct (pos_bytes_cons p) as (b & bs & E);
    cbn [pos_bytes]; rewrite E in *; cbn -[bytes_pos] in *;
    change (bytes_pos (?x :: b :: bs)) with
      (match x with Byte.x00 => xO <$> bytes_pos (b :: bs) | _ => xI <$> bytes_pos (b :: bs) end);
    by rewrite IH.
Qed.

#[export] Instance bit_codec : RaftCodec := {|
  encode_state t v l := pos_bytes (encode (t, v, l));
  decode_state bs := bytes_pos bs ≫= decode;
|}.

#[export] Instance bit_codec_laws : RaftCodecLaws bit_codec.
Proof.
  split; cbn.
  - intros. rewrite bytes_pos_bytes. apply decode_encode.
  - intros t v l. by destruct (pos_bytes_cons (encode (t, v, l))) as (b & bs & ->).
Qed.
