(* ===== verification/RaftCore.v ===== *)
(** * One Raft peer (src/src/raft: raft.go, vote.go, entry.go, leaderElection.go)

    The peer's state as a record, and one definition per method.  A method that
    runs under [rf.mu] is a function on the record; a method that gives the lock
    up in the middle (an RPC call, a channel send) is one function per critical
    section.  RPC calls and goroutines a method starts are returned as values
    ([Spawn], [Election]); RaftCluster.v schedules them.

    Times are integers in milliseconds, supplied with the random number the
    method draws by a [Clock] argument.  Terms and indices are unbounded
    integers: they only ever grow by one per election or per command. *)

From stdpp Require Import base list numbers gmap strings.
From Stdlib Require Import Lia.
From S2P Require Import Prelude RaftLog Persister.

Inductive RaftState : Type := Follower | Candidate | Leader.

#[export] Instance RaftState_eq_dec : EqDecision RaftState.
Proof. solve_decision. Defined.

Record ApplyMsg : Type := mkApplyMsg {
  CommandValid : bool;
  amCommand : Iface;
  CommandIndex : Z;
  SnapshotValid : bool;
  amSnapshot : bytes;
  SnapshotTerm : Z;
  SnapshotIndex : Z;
}.

(** [peers] is represented by its length, [applyCond] by whether [LoopCommit]
    is waiting on it. *)
Record Raft : Type := mkRaft {
  me : Z;
  npeers : Z;
  dead : Z;
  LeaderID : Z;
  LastIndex : Z;
  LastTerm : Z;
  state : RaftState;
  currentTerm : Z;
  votedFor : Z;
  commitIndex : Z;
  lastApplied : Z;
  nextIndex : list Z;
  matchIndex : list Z;
  log : Log;
  electionTime : Z;
  heartBeat : Z;
  applyWaiting : bool;
  persister : Persister;
}.

Definition set_dead (x : Z) (rf : Raft) : Raft :=
  mkRaft (me rf) (npeers rf) x (LeaderID rf) (LastIndex rf) (LastTerm rf)
    (state rf) (currentTerm rf) (votedFor rf) (commitIndex rf)
    (lastApplied rf) (nextIndex rf) (matchIndex rf) (log rf)
    (electionTime rf) (heartBeat rf) (applyWaiting rf) (persister rf).

Definition set_LeaderID (x : Z) (rf : Raft) : Raft :=
  mkRaft (me rf) (npeers rf) (dead rf) x (LastIndex rf) (LastTerm rf)
    (state rf) (currentTerm rf) (votedFor rf) (commitIndex rf)
    (lastApplied rf) (nextIndex rf) (matchIndex rf) (log rf)
    (electionTime rf) (heartBeat rf) (applyWaiting rf) (persister rf).

Definition set_LastIndex (x : Z) (rf : Raft) : Raft :=
  mkRaft (me rf) (npeers rf) (dead rf) (LeaderID rf) x (LastTerm rf)
    (state rf) (currentTerm rf) (votedFor rf) (commitIndex rf)
    (lastApplied rf) (nextIndex rf) (matchIndex rf) (log rf)
    (electionTime rf) (heartBeat rf) (applyWaiting rf) (persister rf).

Definition set_LastTerm (x : Z) (rf : Raft) : Raft :=
  mkRaft (me rf) (npeers rf) (dead rf) (LeaderID rf) (LastIndex rf) x
    (state rf) (currentTerm rf) (votedFor rf) (commitIndex rf)
    (lastApplied rf) (nextIndex rf) (matchIndex rf) (log rf)
    (electionTime rf) (heartBeat rf) (applyWaiting rf) (persister rf).

Definition set_state (x : RaftState) (rf : Raft) : Raft :=
  mkRaft (me rf) (npeers rf) (dead rf) (LeaderID rf) (LastIndex rf)
    (LastTerm rf) x (currentTerm rf) (votedFor rf) (commitIndex rf)
    (lastApplied rf) (nextIndex rf) (matchIndex rf) (log rf)
    (electionTime rf) (heartBeat rf) (applyWaiting rf) (persister rf).

Definition set_currentTerm (x : Z) (rf : Raft) : Raft :=
  mkRaft (me rf) (npeers rf) (dead rf) (LeaderID rf) (LastIndex rf)
    (LastTerm rf) (state rf) x (votedFor rf) (commitIndex rf)
    (lastApplied rf) (nextIndex rf) (matchIndex rf) (log rf)
    (electionTime rf) (heartBeat rf) (applyWaiting rf) (persister rf).

Definition set_votedFor (x : Z) (rf : Raft) : Raft :=
  mkRaft (me rf) (npeers rf) (dead rf) (LeaderID rf) (LastIndex rf)
    (LastTerm rf) (state rf) (currentTerm rf) x (commitIndex rf)
    (lastApplied rf) (nextIndex rf) (matchIndex rf) (log rf)
    (electionTime rf) (heartBeat rf) (applyWaiting rf) (persister rf).

Definition set_commitIndex (x : Z) (rf : Raft) : Raft :=
  mkRaft (me rf) (npeers rf) (dead rf) (LeaderID rf) (LastIndex rf)
    (LastTerm rf) (state rf) (currentTerm rf) (votedFor rf) x
    (lastApplied rf) (nextIndex rf) (matchIndex rf) (log rf)
    (electionTime rf) (heartBeat rf) (applyWaiting rf) (persister rf).

Definition set_lastApplied (x : Z) (rf : Raft) : Raft :=
  mkRaft (me rf) (npeers rf) (dead rf) (LeaderID rf) (LastIndex rf)
    (LastTerm rf) (state rf) (currentTerm rf) (votedFor rf)
    (commitIndex rf) x (nextIndex rf) (matchIndex rf) (log rf)
    (electionTime rf) (heartBeat rf) (applyWaiting rf) (persister rf).

Definition set_nextIndex (x : list Z) (rf : Raft) : Raft :=
  mkRaft (me rf) (npeers rf) (dead rf) (LeaderID rf) (LastIndex rf)
    (LastTerm rf) (state rf) (currentTerm rf) (votedFor rf)
    (commitIndex rf) (lastApplied rf) x (matchIndex rf) (log rf)
    (electionTime rf) (heartBeat rf) (applyWaiting rf) (persister rf).

Definition set_matchIndex (x : list Z) (rf : Raft) : Raft :=
  mkRaft (me rf) (npeers rf) (dead rf) (LeaderID rf) (LastIndex rf)
    (LastTerm rf) (state rf) (currentTerm rf) (votedFor rf)
    (commitIndex rf) (lastApplied rf) (nextIndex rf) x (log rf)
    (electionTime rf) (heartBeat rf) (applyWaiting rf) (persister rf).

Definition set_log (x : Log) (rf : Raft) : Raft :=
  mkRaft (me rf) (npeers rf) (dead rf) (LeaderID rf) (LastIndex rf)
    (LastTerm rf) (state rf) (currentTerm rf) (votedFor rf)
    (commitIndex rf) (lastApplied rf) (nextIndex rf) (matchIndex rf) x
    (electionTime rf) (heartBeat rf) (applyWaiting rf) (persister rf).

Definition set_electionTime (x : Z) (rf : Raft) : Raft :=
  mkRaft (me rf) (npeers rf) (dead rf) (LeaderID rf) (LastIndex rf)
    (LastTerm rf) (state rf) (currentTerm rf) (votedFor rf)
    (commitIndex rf) (lastApplied rf) (nextIndex rf) (matchIndex rf)
    (log rf) x (heartBeat rf) (applyWaiting rf) (persister rf).

Definition set_heartBeat (x : Z) (rf : Raft) : Raft :=
  mkRaft (me rf) (npeers rf) (dead rf) (LeaderID rf) (LastIndex rf)
    (LastTerm rf) (state rf) (currentTerm rf) (votedFor rf)
    (commitIndex rf) (lastApplied rf) (nextIndex rf) (matchIndex rf)
    (log rf) (electionTime rf) x (applyWaiting rf) (persister rf).

Definition set_applyWaiting (x : bool) (rf : Raft) : Raft :=
  mkRaft (me rf) (npeers rf) (dead rf) (LeaderID rf) (LastIndex rf)
    (LastTerm rf) (state rf) (currentTerm rf) (votedFor rf)
    (commitIndex rf) (lastApplied rf) (nextIndex rf) (matchIndex rf)
    (log rf) (electionTime rf) (heartBeat rf) x (persister rf).

Definition set_persister (x : Persister) (rf : Raft) : Raft :=
  mkRaft (me rf) (npeers rf) (dead rf) (LeaderID rf) (LastIndex rf)
    (LastTerm rf) (state rf) (currentTerm rf) (votedFor rf)
    (commitIndex rf) (lastApplied rf) (nextIndex rf) (matchIndex rf)
    (log rf) (electionTime rf) (heartBeat rf) (applyWaiting rf) x.

Record Clock : Type := mkClock {
  now : Z;
  rnd : Z;
}.

Record RequestVoteArgs : Type := mkVoteArgs {
  vaTerm : Z;
  CandidateId : Z;
  LastLogIndex : Z;
  LastLogTerm : Z;
}.

Record RequestVoteReply : Type := mkVoteReply {
  vrTerm : Z;
  VoteGranted : bool;
}.

Record AppendEntriesArgs : Type := mkAppendArgs {
  aaTerm : Z;
  LeaderId : Z;
  PrevLogIndex : Z;
  PrevLogTerm : Z;
  aaEntries : list Entry;
  LeaderCommit : Z;
}.

Record AppendEntriesReply : Type := mkAppendReply {
  arTerm : Z;
  Success : bool;
  Conflict : bool;
  XTerm : Z;
  XIndex : Z;
  XLen : Z;
}.

Record SnapShotArgs : Type := mkSnapArgs {
  saTerm : Z;
  saLeaderID : Z;
  LastIncludedIndex : Z;
  LastIncludedTerm : Z;
  SnapShot : bytes;
  Offset : Z;
  saDone : bool;
}.

Record SnapShotReply : Type := mkSnapReply {
  srTerm : Z;
}.

(** The goroutines [appendEntries] starts. *)
Inductive Spawn : Type :=
  | GoLeaderSendEntries (peer : Z) (args : AppendEntriesArgs)
  | GoSendSnapshot (peer : Z).

(** The variables the goroutines of one election share: the candidate, the
    arguments they all send, the two counters and the [sync.Once]. *)
Record Election : Type := mkElection {
  elArgs : RequestVoteArgs;
  votecount : Z;
  servercount : Z;
  becomeLeader : bool;
}.

(** The indices a [for peer := range rf.peers] loop visits. *)
Definition peerIds (rf : Raft) : list Z := seqZ 0 (npeers rf).

Definition max (a b : Z) : Z := if b <? a then a else b.

Definition min (a b : Z) : Z := if b <? a then b else a.

Section raft.
Context {codec : RaftCodec}.

(** ** raft.go: persistence *)

Definition GetState (rf : Raft) : Z * bool :=
  (currentTerm rf, bool_decide (state rf = Leader)).

Definition persistData (rf : Raft) : bytes :=
  encode_state (currentTerm rf) (votedFor rf) (log rf).

Definition persist (rf : Raft) : Raft :=
  set_persister (SaveRaftState (persister rf) (persistData rf)) rf.

Definition readPersist (data : bytes) (rf : Raft) : outcome Raft :=
  match data with
  | [] => mret rf
  | _ =>
      '(t, v, logs) ← of_option (decode_state data);
      mret (set_commitIndex (Index0 logs) (set_lastApplied (Index0 logs)
        (set_log logs (set_votedFor v (set_currentTerm t rf)))))
  end.

(** ** vote.go *)

Definition resetElectionTimer (c : Clock) (rf : Raft) : Raft :=
  set_electionTime (now c + (150 + rnd c)) rf.

Definition setNewTerm (term : Z) (rf : Raft) : Raft :=
  if (currentTerm rf <? term) || (currentTerm rf =? 0) then
    persist (set_votedFor (-1) (set_currentTerm term (set_state Follower rf)))
  else rf.

Definition RequestVote (c : Clock) (args : RequestVoteArgs) (rf : Raft)
    : outcome (Raft * RequestVoteReply) :=
  if vaTerm args <? currentTerm rf then
    mret (rf, mkVoteReply (currentTerm rf) false)
  else
    let rf := if currentTerm rf <? vaTerm args then setNewTerm (vaTerm args) rf else rf in
    lastLog ← LastLog (log rf);
    let valid := (Term lastLog <? LastLogTerm args) ||
                 ((LastLogTerm args =? Term lastLog) && (Index lastLog <=? LastLogIndex args)) in
    if ((votedFor rf =? -1) || (votedFor rf =? CandidateId args)) && valid then
      let rf := resetElectionTimer c (persist (set_votedFor (CandidateId args) rf)) in
      mret (rf, mkVoteReply (currentTerm rf) true)
    else mret (rf, mkVoteReply (currentTerm rf) false).

(** ** entry.go: the sending side *)

(** One iteration of the loop of [appendEntries] for a peer other than [me];
    [lastLog] is the entry read before the loop. *)
Definition appendEntriesTo (HeartBeat : bool) (lastLog : Entry) (rf : Raft) (peer : Z)
    : outcome (list Spawn) :=
  next ← zlookup (nextIndex rf) peer;
  if (next <=? Index lastLog) || HeartBeat then
    let nextIndex := if next <=? 0 then 1 else next in
    let nextIndex := if Index lastLog + 1 <? nextIndex then Index lastLog else nextIndex in
    if Index0 (log rf) <? nextIndex then
      prevLog ← at_ (log rf) (nextIndex - 1);
      if Index lastLog - nextIndex + 1 <? 0 then Panicked
      else
        tail ← Tail (log rf) nextIndex;
        let entries := copy_into
          (replicate (Z.to_nat (Index lastLog - nextIndex + 1)) zeroEntry) tail in
        mret [GoLeaderSendEntries peer
          (mkAppendArgs (currentTerm rf) (me rf) (Index prevLog) (Term prevLog)
             entries (commitIndex rf))]
    else mret [GoSendSnapshot peer]
  else mret [].

Fixpoint appendEntriesLoop (HeartBeat : bool) (c : Clock) (lastLog : Entry)
    (peers : list Z) (rf : Raft) : outcome (Raft * list Spawn) :=
  match peers with
  | [] => mret (rf, [])
  | peer :: peers' =>
      if peer =? me rf then
        appendEntriesLoop HeartBeat c lastLog peers' (resetElectionTimer c rf)
      else
        out ← appendEntriesTo HeartBeat lastLog rf peer;
        '(rf', outs) ← appendEntriesLoop HeartBeat c lastLog peers' rf;
        mret (rf', out ++ outs)
  end.

Definition appendEntries (HeartBeat : bool) (c : Clock) (rf : Raft)
    : outcome (Raft * list Spawn) :=
  lastLog ← LastLog (log rf);
  appendEntriesLoop HeartBeat c lastLog (peerIds rf) rf.

(** First critical section of [SendSnapshot]: the arguments. *)
Definition SendSnapshot_args (rf : Raft) : SnapShotArgs :=
  mkSnapArgs (currentTerm rf) (LeaderID rf) (LastIndex rf) (LastTerm rf)
    (snapshot (persister rf)) 0 true.

(** Second critical section of [SendSnapshot]: the reply. *)
Definition SendSnapshot_reply (peer : Z) (reply : SnapShotReply) (rf : Raft)
    : outcome Raft :=
  if currentTerm rf <? srTerm reply then mret (setNewTerm (srTerm reply) rf)
  else if bool_decide (state rf = Leader) then
    ni ← zupdate (nextIndex rf) peer (LastIndex rf + 1);
    mi ← zupdate (matchIndex rf) peer (LastIndex rf);
    mret (set_matchIndex mi (set_nextIndex ni rf))
  else mret rf.

(** ** entry.go: committing *)

Definition SendMsg (rf : Raft) : Raft := set_applyWaiting false rf.

(** The loop over [serverId]; [true] when it reaches its [break]. *)
Fixpoint CommitCount (rf : Raft) (n : Z) (ids : list Z) (counter : Z) : outcome bool :=
  match ids with
  | [] => mret false
  | serverId :: ids' =>
      counter ←
        (if serverId =? me rf then mret counter
         else
           m ← zlookup (matchIndex rf) serverId;
           mret (if n <=? m then counter + 1 else counter));
      if npeers rf / 2 <? counter then mret true
      else CommitCount rf n ids' counter
  end.

Fixpoint CommitLoop (ns : list Z) (rf : Raft) : outcome Raft :=
  match ns with
  | [] => mret rf
  | n :: ns' =>
      e ← at_ (log rf) n;
      if negb (Term e =? currentTerm rf) then CommitLoop ns' rf
      else
        b ← CommitCount rf n (peerIds rf) 1;
        CommitLoop ns' (if b : bool then SendMsg (set_commitIndex n rf) else rf)
  end.

Definition Commit (rf : Raft) : outcome Raft :=
  if negb (bool_decide (state rf = Leader)) then mret rf
  else
    lastLog ← LastLog (log rf);
    CommitLoop (seqZ (commitIndex rf + 1) (Index lastLog - commitIndex rf)) rf.

(** The loop of [findLastLogInTerm], at [i = Z.of_nat n]. *)
Fixpoint findLastLogFrom (l : Log) (x : Z) (n : nat) : outcome Z :=
  match n with
  | O => mret (-1)
  | S n' =>
      e ← at_ l (Z.of_nat n);
      if Term e =? x then mret (Z.of_nat n)
      else if Term e <? x then mret (-1)
      else findLastLogFrom l x n'
  end.

Definition findLastLogInTerm (x : Z) (rf : Raft) : outcome Z :=
  lastLog ← LastLog (log rf);
  findLastLogFrom (log rf) x (Z.to_nat (Index lastLog)).

(** What [leaderSendEntries] does with a reply that arrived. *)
Definition leaderSendEntries (peer : Z) (args : AppendEntriesArgs)
    (reply : AppendEntriesReply) (rf : Raft) : outcome Raft :=
  if currentTerm rf <? arTerm reply then mret (setNewTerm (arTerm reply) rf)
  else if bool_decide (state rf = Leader) then
    rf ←
      (if Success reply then
         let match_ := PrevLogIndex args + Z.of_nat (length (aaEntries args)) in
         let next := match_ + 1 in
         ni ← zlookup (nextIndex rf) peer;
         nis ← zupdate (nextIndex rf) peer (max ni next);
         mi ← zlookup (matchIndex rf) peer;
         mis ← zupdate (matchIndex rf) peer (max mi match_);
         mret (set_matchIndex mis (set_nextIndex nis rf))
       else if Conflict reply then
         if XTerm reply =? -1 then
           nis ← zupdate (nextIndex rf) peer (XLen reply);
           mret (set_nextIndex nis rf)
         else
           lastLogInXTerm ← findLastLogInTerm (XTerm reply) rf;
           nis ← zupdate (nextIndex rf) peer
                   (if 0 <? lastLogInXTerm then lastLogInXTerm else XIndex reply);
           mret (set_nextIndex nis rf)
       else mret rf);
    Commit rf
  else mret rf.

(** ** entry.go: the receiving side *)

(** The loop that looks for the first index of the conflicting term, at
    [xIndex = Z.of_nat n]; 0 is the reply field's initial value. *)
Fixpoint findXIndex (l : Log) (xTerm : Z) (n : nat) : outcome Z :=
  match n with
  | O => mret 0
  | S n' =>
      e ← at_ l (Z.of_nat n - 1);
      if negb (Term e =? xTerm) then mret (Z.of_nat n)
      else findXIndex l xTerm n'
  end.

(** The loop over [args.Entries[idx:]]. *)
Fixpoint AppendLoop (entries : list Entry) (rf : Raft) : outcome Raft :=
  match entries with
  | [] => mret rf
  | entry :: entries' =>
      lastLog ← LastLog (log rf);
      rf ←
        (if Index entry <=? Index lastLog then
           e ← at_ (log rf) (Index entry);
           if negb (Term e =? Term entry) then
             l ← truncate (log rf) (Index entry);
             mret (persist (set_log l rf))
           else mret rf
         else mret rf);
      lastLog ← LastLog (log rf);
      if Index lastLog <? Index entry then
        mret (persist (set_log (append (log rf) entries) rf))
      else AppendLoop entries' rf
  end.

Definition AppendEntries (c : Clock) (args : AppendEntriesArgs) (rf : Raft)
    : outcome (Raft * AppendEntriesReply) :=
  let term := currentTerm rf in
  if aaTerm args <? currentTerm rf then
    mret (rf, mkAppendReply term false false 0 0 0)
  else
    let rf := if currentTerm rf <? aaTerm args then setNewTerm (aaTerm args) rf else rf in
    if PrevLogIndex args <? Index0 (log rf) then
      mret (rf, mkAppendReply term false false 0 0 0)
    else
      let rf := if bool_decide (state rf = Candidate)
                then persist (set_state Follower rf) else rf in
      let rf := set_LeaderID (LeaderId args) (resetElectionTimer c rf) in
      lastLog ← LastLog (log rf);
      if Index lastLog <? PrevLogIndex args then
        mret (rf, mkAppendReply term false true (-1) (-1) (Len (log rf)))
      else
        e ← at_ (log rf) (PrevLogIndex args);
        if negb (Term e =? PrevLogTerm args) then
          x ← findXIndex (log rf) (Term e) (Z.to_nat (PrevLogIndex args));
          mret (rf, mkAppendReply term false true (Term e) x (Len (log rf)))
        else
          rf ← AppendLoop (aaEntries args) rf;
          rf ← (if commitIndex rf <? LeaderCommit args then
                  lastLog ← LastLog (log rf);
                  mret (SendMsg (set_commitIndex (min (LeaderCommit args) (Index lastLog)) rf))
                else mret rf);
          mret (rf, mkAppendReply term true false 0 0 0).

(** [InstallSnapShot] up to the send on [applyCh], which happens with the lock
    released; the message is the third result. *)
Definition InstallSnapShot (args : SnapShotArgs) (rf : Raft)
    : Raft * SnapShotReply * option ApplyMsg :=
  let reply := mkSnapReply (currentTerm rf) in
  if saTerm args <? currentTerm rf then (rf, reply, None)
  else
    let rf := if currentTerm rf <? saTerm args then setNewTerm (saTerm args) rf else rf in
    let rf := persist (set_votedFor (saLeaderID args) (set_state Follower rf)) in
    if LastIncludedIndex args <=? Index0 (log rf) then (rf, reply, None)
    else (rf, reply,
          Some (mkApplyMsg false INil 0 true (SnapShot args)
                  (LastIncludedTerm args) (LastIncludedIndex args))).

(** ** leaderElection.go and the reply side of vote.go *)

Definition leaderElection (c : Clock) (rf : Raft) : outcome (Raft * Election) :=
  let rf := set_currentTerm (currentTerm rf + 1) rf in
  let rf := set_votedFor (me rf) (set_state Candidate rf) in
  let rf := resetElectionTimer c (persist rf) in
  lastLog ← LastLog (log rf);
  mret (rf, mkElection
    (mkVoteArgs (currentTerm rf) (me rf) (Index lastLog) (Term lastLog)) 1 1 false).

(** The loop that resets [nextIndex] and [matchIndex]. *)
Fixpoint resetPeers (next : Z) (ids : list Z) (rf : Raft) : outcome Raft :=
  match ids with
  | [] => mret rf
  | index :: ids' =>
      nis ← zupdate (nextIndex rf) index next;
      mis ← zupdate (matchIndex rf) index 0;
      resetPeers next ids' (set_matchIndex mis (set_nextIndex nis rf))
  end.

(** What the body of [becomeLeader.Do] does. *)
Definition winElection (c : Clock) (rf : Raft) : outcome (Raft * list Spawn) :=
  let rf := persist (set_state Leader rf) in
  lastLog ← LastLog (log rf);
  rf ← resetPeers (Index lastLog + 1) (peerIds rf) rf;
  appendEntries true c rf.

(** What [candidateRequest] does with a reply that arrived. *)
Definition candidateRequest (c : Clock) (el : Election) (reply : RequestVoteReply)
    (rf : Raft) : outcome (Raft * Election * list Spawn) :=
  let el := mkElection (elArgs el) (votecount el) (servercount el + 1) (becomeLeader el) in
  if negb (VoteGranted reply) && (currentTerm rf <? vrTerm reply) then
    mret (setNewTerm (vrTerm reply) rf, el, [])
  else if VoteGranted reply then
    let el := mkElection (elArgs el) (votecount el + 1) (servercount el) (becomeLeader el) in
    if (npeers rf <? 2 * votecount el) && (currentTerm rf =? vaTerm (elArgs el)) &&
       bool_decide (state rf = Candidate) then
      if becomeLeader el then mret (rf, el, [])
      else
        '(rf, out) ← winElection c rf;
        mret (rf, mkElection (elArgs el) (votecount el) (servercount el) true, out)
    else mret (rf, el, [])
  else mret (rf, el, []).

(** ** raft.go: the service's interface *)

(** The loop that copies the entries from [index] on. *)
Fixpoint copyEntries (l : Log) (idxs : list Z) : outcome (list Entry) :=
  match idxs with
  | [] => mret []
  | i :: idxs' => e ← at_ l i; es ← copyEntries l idxs'; mret (e :: es)
  end.

Definition Snapshot (index : Z) (snap : bytes) (rf : Raft) : outcome Raft :=
  lastLog ← LastLog (log rf);
  if (Index lastLog <=? index) || (index <? Index0 (log rf)) then mret rf
  else if commitIndex rf <? index then mret rf
  else
    e ← at_ (log rf) index;
    let rf := set_LastTerm (Term e) (set_LastIndex index rf) in
    tmpLog ← copyEntries (log rf) (seqZ index (Index lastLog - index + 1));
    let rf := persist (set_log (mkLog tmpLog index) rf) in
    mret (set_persister (SaveStateAndSnapshot (persister rf) (persistData rf) snap) rf).

Definition CondInstallSnapshot (lastIncludedTerm lastIncludedIndex : Z) (snap : bytes)
    (rf : Raft) : outcome (Raft * bool) :=
  if lastIncludedIndex <=? commitIndex rf then mret (rf, false)
  else
    lastLog ← LastLog (log rf);
    keep ← (if lastIncludedIndex <=? Index lastLog then
              e ← at_ (log rf) lastIncludedIndex;
              mret (Term e =? lastIncludedTerm)
            else mret false);
    tmpLog ← (if keep : bool then Tail (log rf) lastIncludedIndex
              else mret [mkEntry INil lastIncludedTerm lastIncludedIndex]);
    let rf := set_log (mkLog tmpLog lastIncludedIndex) rf in
    let rf := set_persister (mkPersister (raftstate (persister rf)) snap) rf in
    let rf := set_commitIndex lastIncludedIndex (set_lastApplied lastIncludedIndex rf) in
    mret (set_persister (SaveStateAndSnapshot (persister rf) (persistData rf) snap) rf, true).

Definition Start (c : Clock) (command : Iface) (rf : Raft)
    : outcome (Raft * (Z * Z * bool) * list Spawn) :=
  if negb (bool_decide (state rf = Leader)) then
    mret (rf, (-1, currentTerm rf, false), [])
  else
    lastLog ← LastLog (log rf);
    let entry := mkEntry command (currentTerm rf) (Index lastLog + 1) in
    let rf := persist (set_log (append (log rf) [entry]) rf) in
    '(rf, out) ← appendEntries false c rf;
    mret (rf, (Index entry, Term entry, true), out).

Definition Kill (rf : Raft) : Raft := set_dead 1 rf.

Definition killed (rf : Raft) : bool := dead rf =? 1.

(** One iteration of [ticker] after its sleep: [c1] is the clock of the
    heartbeat round, [c2] that of the timeout test and of the election. *)
Definition ticker (c1 c2 : Clock) (rf : Raft)
    : outcome (Raft * list Spawn * option Election) :=
  if killed rf then Blocked
  else
  '(rf, out) ← (if bool_decide (state rf = Leader) then appendEntries true c1 rf
                else mret (rf, []));
  if electionTime rf <? now c2 then
    '(rf, el) ← leaderElection c2 rf;
    mret (rf, out, Some el)
  else mret (rf, out, None).

Definition Make (n me : Z) (ps : Persister) (c : Clock) : outcome Raft :=
  let log := append makeEmptyLog [mkEntry (IInt (-1)) 0 0] in
  let zeros := replicate (Z.to_nat n) 0 in
  let rf := mkRaft me n 0 0 0 0 Follower 0 (-1) 0 0 zeros zeros log 0 0 false ps in
  let rf := set_heartBeat 50 (resetElectionTimer c rf) in
  readPersist (ReadRaftState ps) rf.

(** [CommitInfo] formats the commands from [Index0] to [lastApplied]; it is
    evaluated by [LoopCommit] whatever the value of [Debug]. *)
Definition CommitInfo (rf : Raft) : outcome (list Iface) :=
  lastLog ← LastLog (log rf);
  es ← copyEntries (log rf)
         (seqZ (Index0 (log rf))
            (min (Index lastLog) (lastApplied rf) - Index0 (log rf) + 1));
  mret (map Command es).

(** One iteration of [LoopCommit] up to the channel send or the wait.  A goroutine
    that is in [applyCond.Wait] goes on only after a [Broadcast] ([SendMsg]). *)
Definition LoopCommit (rf : Raft) : outcome (Raft * option ApplyMsg) :=
  if killed rf || applyWaiting rf then Blocked
  else
    more ← (if lastApplied rf <? commitIndex rf then
              lastLog ← LastLog (log rf);
              mret (lastApplied rf <? Index lastLog)
            else mret false);
    if more : bool then
      let rf := set_lastApplied (lastApplied rf + 1) rf in
      e ← at_ (log rf) (lastApplied rf);
      _ ← CommitInfo rf;
      mret (rf, Some (mkApplyMsg true (Command e) (lastApplied rf) false [] 0 0))
    else mret (set_applyWaiting true rf, None).

End raft.
