(* ===== verification/RaftLocal.v ===== *)
(** * What one peer's methods guarantee, for every input

    [stable] is the durability invariant: the bytes in the persister decode to
    the term, the vote and the log held in memory.  [quiet] says that a method
    neither casts a vote nor makes the peer a leader.  Every method keeps
    [stable], and every method but the three that take part in an election
    (and [InstallSnapShot]) is [quiet]. *)

From stdpp Require Import base list numbers gmap strings.
From Stdlib Require Import Lia.
From S2P Require Import Prelude RaftLog Persister RaftCore.

(** The log of a peer that never persisted anything. *)
Definition initLog : Log := append makeEmptyLog [mkEntry (IInt (-1)) 0 0].

Definition quiet (rf rf' : Raft) : Prop :=
  me rf' = me rf ∧ npeers rf' = npeers rf ∧
  ((currentTerm rf < currentTerm rf' ∧ state rf' ≠ Leader) ∨
   (currentTerm rf' = currentTerm rf ∧ votedFor rf' = votedFor rf ∧
    (state rf' = Leader → state rf = Leader))).

#[export] Instance quiet_preorder : PreOrder quiet.
Proof.
  split; unfold quiet.
  - intros rf. tauto.
  - intros x y z (?&?&[[??]|(?&?&?)]) (?&?&[[??]|(?&?&?)]); split_and!; try congruence.
    + left. split; [lia|done].
    + left. split; [lia|auto].
    + left. split; [lia|done].
    + right. split_and!; [lia|congruence|auto].
Qed.

Section local.
Context `{laws : !RaftCodecLaws codec}.

Definition stable (rf : Raft) : Prop :=
  match raftstate (persister rf) with
  | [] => currentTerm rf = 0 ∧ votedFor rf = -1 ∧ log rf = initLog
  | d => decode_state d = Some (currentTerm rf, votedFor rf, log rf)
  end.

Definition tame (rf rf' : Raft) : Prop :=
  quiet rf rf' ∧ (stable rf → stable rf').

#[export] Instance tame_preorder : PreOrder tame.
Proof.
  split; unfold tame.
  - intros rf. split; [reflexivity|done].
  - intros x y z [] []. split; [etransitivity; eauto|auto].
Qed.

Lemma persist_stable rf : stable (persist rf).
Proof.
  unfold stable, persist. cbn. rewrite clone_id.
  pose proof (encode_state_nonempty (currentTerm rf) (votedFor rf) (log rf)).
  pose proof (decode_encode_state (currentTerm rf) (votedFor rf) (log rf)).
  unfold persistData. by destruct (encode_state _ _ _).
Qed.

Lemma saved_stable rf snap :
  stable (set_persister (SaveStateAndSnapshot (persister rf) (persistData rf) snap) rf).
Proof. apply (persist_stable rf). Qed.

(** A method whose last effect on the persistent fields is a [persist]. *)
Lemma tame_persist rf rf' : quiet rf rf' → tame rf (persist rf').
Proof. intros H. split; [exact H|intros _; apply persist_stable]. Qed.

Lemma tame_fields rf rf' :
  me rf' = me rf → npeers rf' = npeers rf → currentTerm rf' = currentTerm rf →
  votedFor rf' = votedFor rf → state rf' = state rf → log rf' = log rf →
  persister rf' = persister rf → tame rf rf'.
Proof.
  intros Hm Hn Ht Hv Hs Hl Hp. split.
  - unfold quiet. rewrite Hs. tauto.
  - unfold stable. by rewrite Hp, Ht, Hv, Hl.
Qed.

Lemma quiet_fields rf rf' :
  me rf' = me rf → npeers rf' = npeers rf → currentTerm rf' = currentTerm rf →
  votedFor rf' = votedFor rf → (state rf' = Leader → state rf = Leader) → quiet rf rf'.
Proof. unfold quiet. auto 10. Qed.

Ltac tame_now := apply tame_fields; reflexivity.

Lemma setNewTerm_tame t rf : currentTerm rf < t → tame rf (setNewTerm t rf).
Proof.
  intros Ht. unfold setNewTerm. destruct (Z.ltb_spec (currentTerm rf) t); [cbn|lia].
  apply tame_persist. unfold quiet; cbn. auto.
Qed.

Lemma setNewTerm_log t rf : log (setNewTerm t rf) = log rf.
Proof. unfold setNewTerm. by destruct (_ || _). Qed.

Lemma setNewTerm_term t rf : currentTerm rf < t → currentTerm (setNewTerm t rf) = t.
Proof. intros Ht. unfold setNewTerm. destruct (Z.ltb_spec (currentTerm rf) t); [done|lia]. Qed.

(** The step-down test at the top of the three RPC handlers. *)
Definition adopt (t : Z) (rf : Raft) : Raft :=
  if currentTerm rf <? t then setNewTerm t rf else rf.

Lemma adopt_tame t rf : tame rf (adopt t rf).
Proof.
  unfold adopt. destruct (Z.ltb_spec (currentTerm rf) t); [by apply setNewTerm_tame|reflexivity].
Qed.

Lemma adopt_term t rf : currentTerm rf <= t → currentTerm (adopt t rf) = t.
Proof.
  intros. unfold adopt. destruct (Z.ltb_spec (currentTerm rf) t); [by apply setNewTerm_term|lia].
Qed.

Lemma adopt_log t rf : log (adopt t rf) = log rf.
Proof. unfold adopt. destruct (_ <? _); [apply setNewTerm_log|done]. Qed.

Lemma appendEntriesLoop_frame hb c last ids rf rf' out :
  appendEntriesLoop hb c last ids rf = Done (rf', out) →
  rf' = rf ∨ rf' = resetElectionTimer c rf.
Proof.
  revert rf rf' out. induction ids as [|i ids IH]; intros rf rf' out H; cbn in H.
  - go_inv. auto.
  - destruct (i =? me rf).
    + apply IH in H as [->| ->]; auto.
    + go_inv. eauto.
Qed.

Lemma appendEntries_frame hb c rf rf' out :
  appendEntries hb c rf = Done (rf', out) → rf' = rf ∨ rf' = resetElectionTimer c rf.
Proof. unfold appendEntries. intros H. go_inv. by eapply appendEntriesLoop_frame. Qed.

Lemma appendEntries_tame hb c rf rf' out :
  appendEntries hb c rf = Done (rf', out) → tame rf rf' ∧ log rf' = log rf.
Proof.
  intros [->| ->]%appendEntries_frame; (split; [|done]); [reflexivity|tame_now].
Qed.

Lemma SendSnapshot_reply_tame peer reply rf rf' :
  SendSnapshot_reply peer reply rf = Done rf' → tame rf rf' ∧ log rf' = log rf.
Proof.
  unfold SendSnapshot_reply. intros H. go_inv; zbool.
  - split; [by apply setNewTerm_tame|apply setNewTerm_log].
  - split; [tame_now|done].
  - split; [reflexivity|done].
Qed.

Lemma CommitLoop_frame ns rf rf' :
  CommitLoop ns rf = Done rf' → rf' = rf ∨ ∃ n, n ∈ ns ∧ rf' = SendMsg (set_commitIndex n rf).
Proof.
  revert rf. induction ns as [|n ns IH]; intros rf H; cbn in H; go_inv; [auto| |].
  - apply IH in H as [->|(m&?&->)]; [auto|right; exists m; set_solver].
  - apply IH in H as [->|(m&?&->)]; destruct x0.
    + right. exists n. set_solver.
    + auto.
    + right. exists m. split; [set_solver|done].
    + right. exists m. set_solver.
Qed.

Lemma Commit_tame rf rf' : Commit rf = Done rf' → tame rf rf' ∧ log rf' = log rf.
Proof.
  unfold Commit. intros H. go_inv; [split; [reflexivity|done]|].
  apply CommitLoop_frame in H as [->|(n&_&->)]; (split; [|done]); [reflexivity|tame_now].
Qed.

Lemma leaderSendEntries_tame peer args reply rf rf' :
  leaderSendEntries peer args reply rf = Done rf' → tame rf rf' ∧ log rf' = log rf.
Proof.
  unfold leaderSendEntries. intros H.
  destruct (Z.ltb_spec (currentTerm rf) (arTerm reply)); [go_inv|].
  { split; [by apply setNewTerm_tame|apply setNewTerm_log]. }
  destruct (bool_decide _); [|go_inv; split; [reflexivity|done]].
  apply bind_Done in H as (rf1 & H1 & [Ht Hl]%Commit_tame). rewrite Hl.
  enough (tame rf rf1 ∧ log rf1 = log rf) as [].
  { split; [by transitivity rf1|done]. }
  go_inv; (split; [first [reflexivity|tame_now]|done]).
Qed.

Lemma AppendLoop_tame es rf rf' : AppendLoop es rf = Done rf' → tame rf rf'.
Proof.
  revert rf. induction es as [|e es IH]; intros rf H; cbn in H; [go_inv; reflexivity|].
  apply bind_Done in H as (lastl & _ & H). apply bind_Done in H as (rf1 & H1 & H).
  transitivity rf1.
  - clear H. go_inv; try reflexivity. apply tame_persist. by apply quiet_fields.
  - clear H1. go_inv; [apply tame_persist; by apply quiet_fields|by apply IH].
Qed.

Lemma AppendEntries_tame c args rf rf' reply :
  AppendEntries c args rf = Done (rf', reply) → tame rf rf'.
Proof.
  unfold AppendEntries. fold (adopt (aaTerm args) rf). intros H.
  destruct (aaTerm args <? currentTerm rf); [go_inv; reflexivity|].
  transitivity (adopt (aaTerm args) rf); [apply adopt_tame|].
  destruct (_ <? Index0 _); [go_inv; reflexivity|].
  set (rf1 := adopt _ _) in *.
  set (rf2 := if bool_decide _ then _ else rf1) in *.
  transitivity rf2.
  { subst rf2. destruct (bool_decide _); [|reflexivity].
    apply tame_persist. by apply quiet_fields. }
  transitivity (set_LeaderID (LeaderId args) (resetElectionTimer c rf2)); [tame_now|].
  go_inv; try reflexivity.
  all: etransitivity; [by eapply AppendLoop_tame|first [reflexivity|tame_now]].
Qed.

(** ** The three methods of an election, and [InstallSnapShot] *)

Lemma leaderElection_spec c rf rf' el :
  leaderElection c rf = Done (rf', el) →
  me rf' = me rf ∧ npeers rf' = npeers rf ∧ stable rf' ∧ log rf' = log rf ∧
  currentTerm rf' = currentTerm rf + 1 ∧ votedFor rf' = me rf ∧ state rf' = Candidate ∧
  vaTerm (elArgs el) = currentTerm rf + 1 ∧ CandidateId (elArgs el) = me rf ∧
  votecount el = 1 ∧ becomeLeader el = false.
Proof.
  unfold leaderElection. intros H. go_inv. cbn. split_and!; try done.
  apply (persist_stable
    (set_votedFor (me rf) (set_state Candidate (set_currentTerm (currentTerm rf + 1) rf)))).
Qed.

(** A granted vote is a vote in the candidate's term, cast by a peer that had
    not voted for anybody else in that term. *)
Lemma RequestVote_granted c args rf rf' reply :
  RequestVote c args rf = Done (rf', reply) → VoteGranted reply = true →
  me rf' = me rf ∧ npeers rf' = npeers rf ∧ (stable rf → stable rf') ∧ log rf' = log rf ∧
  currentTerm rf' = vaTerm args ∧ votedFor rf' = CandidateId args ∧
  (currentTerm rf < vaTerm args ∧ state rf' ≠ Leader ∨
   currentTerm rf = vaTerm args ∧ state rf' = state rf ∧
     (votedFor rf = -1 ∨ votedFor rf = CandidateId args)).
Proof.
  unfold RequestVote. fold (adopt (vaTerm args) rf). intros H Hg.
  destruct (Z.ltb_spec (vaTerm args) (currentTerm rf)) as [|Hle]; [by go_inv|].
  pose proof (adopt_tame (vaTerm args) rf) as [(Hme & Hn & Hq) _].
  pose proof (adopt_term _ _ Hle) as Ht. pose proof (adopt_log (vaTerm args) rf) as Hl.
  set (rf1 := adopt _ _) in *. go_inv; [|done]. cbn. split_and!; try done.
  - intros _. apply (persist_stable (set_votedFor (CandidateId args) rf1)).
  - destruct Hq as [[??]|(?&?&?)]; [left; split; [lia|done]|].
    right. zbool. assert (rf1 = rf) as ->.
    { subst rf1. unfold adopt. destruct (Z.ltb_spec (currentTerm rf) (vaTerm args)); [lia|done]. }
    split_and!; [lia|done|]. destruct H3; zbool; auto.
Qed.

Lemma RequestVote_refused c args rf rf' reply :
  RequestVote c args rf = Done (rf', reply) → VoteGranted reply = false →
  tame rf rf' ∧ log rf' = log rf.
Proof.
  unfold RequestVote. fold (adopt (vaTerm args) rf). intros H Hg.
  destruct (vaTerm args <? currentTerm rf); [go_inv; split; [reflexivity|done]|].
  go_inv; [done|]. split; [apply adopt_tame|apply adopt_log].
Qed.

Lemma resetPeers_frame next ids rf rf' :
  resetPeers next ids rf = Done rf' →
  ∃ ni mi, rf' = set_matchIndex mi (set_nextIndex ni rf).
Proof.
  revert rf. induction ids as [|i ids IH]; intros rf H; cbn in H; go_inv.
  - exists (nextIndex rf'), (matchIndex rf'). by destruct rf'.
  - apply IH in H as (ni & mi & ->). eauto.
Qed.

Lemma winElection_spec c rf rf' out :
  winElection c rf = Done (rf', out) →
  me rf' = me rf ∧ npeers rf' = npeers rf ∧ stable rf' ∧ log rf' = log rf ∧
  currentTerm rf' = currentTerm rf ∧ votedFor rf' = votedFor rf ∧ state rf' = Leader.
Proof.
  unfold winElection. intros H. go_inv.
  apply resetPeers_frame in H1 as (ni & mi & ->).
  pose proof (persist_stable (set_state Leader rf)) as Hst.
  apply appendEntries_frame in H as [->| ->]; cbn; split_and!; done.
Qed.

Lemma InstallSnapShot_spec args rf rf' reply msg :
  InstallSnapShot args rf = (rf', reply, msg) →
  me rf' = me rf ∧ npeers rf' = npeers rf ∧ (stable rf → stable rf') ∧ log rf' = log rf ∧
  currentTerm rf <= currentTerm rf'.
Proof.
  unfold InstallSnapShot. fold (adopt (saTerm args) rf). intros H.
  destruct (Z.ltb_spec (saTerm args) (currentTerm rf)) as [|Hle].
  { injection H as <- <- <-. split_and!; done. }
  pose proof (adopt_tame (saTerm args) rf) as [(Hme & Hn & _) _].
  pose proof (adopt_term _ _ Hle). pose proof (adopt_log (saTerm args) rf).
  destruct (_ <=? _); injection H as <- <- <-; cbn; (split_and!; [done|done| |done|lia]);
    intros _; apply persist_stable.
Qed.

(** ** The service's interface *)

Lemma Snapshot_tame index snap rf rf' : Snapshot index snap rf = Done rf' → tame rf rf'.
Proof.
  unfold Snapshot. intros H. go_inv; try reflexivity.
  split; [by apply quiet_fields|intros _; apply saved_stable].
Qed.

Lemma CondInstallSnapshot_tame t i snap rf rf' b :
  CondInstallSnapshot t i snap rf = Done (rf', b) → tame rf rf'.
Proof.
  unfold CondInstallSnapshot. intros H. destruct (_ <=? _); [go_inv; reflexivity|].
  apply bind_Done in H as (? & _ & H). apply bind_Done in H as (? & _ & H).
  apply bind_Done in H as (? & _ & H). go_inv.
  split; [by apply quiet_fields|intros _; apply saved_stable].
Qed.

Lemma Start_tame c cmd rf rf' res out :
  Start c cmd rf = Done (rf', res, out) → tame rf rf'.
Proof.
  unfold Start. intros H. go_inv; [reflexivity|].
  apply appendEntries_tame in H1 as [H1 _].
  etransitivity; [|exact H1]. apply tame_persist. by apply quiet_fields.
Qed.

Lemma LoopCommit_tame rf rf' msg :
  LoopCommit rf = Done (rf', msg) → tame rf rf' ∧ log rf' = log rf.
Proof. unfold LoopCommit. intros H. go_inv; (split; [tame_now|done]). Qed.

(** What a crash keeps: the peer that [Make] builds from a [stable] peer's
    persister has the same term, vote and log, is a follower, and starts
    applying again from the snapshot point. *)
Lemma Make_recovers n c rf :
  stable rf →
  ∃ rf', Make n (me rf) (persister rf) c = Done rf' ∧
    me rf' = me rf ∧ npeers rf' = n ∧ persister rf' = persister rf ∧
    currentTerm rf' = currentTerm rf ∧ votedFor rf' = votedFor rf ∧ log rf' = log rf ∧
    state rf' = Follower ∧ commitIndex rf' = Index0 (log rf) ∧
    lastApplied rf' = Index0 (log rf) ∧
    length (nextIndex rf') = Z.to_nat n ∧ length (matchIndex rf') = Z.to_nat n.
Proof.
  unfold stable, Make, ReadRaftState. intros Hst. rewrite clone_id.
  destruct (raftstate (persister rf)) as [|b bs] eqn:E; cbn [readPersist].
  - destruct Hst as (-> & -> & ->). eexists. split; [done|]. cbn.
    rewrite !length_replicate. done.
  - rewrite Hst. eexists. split; [done|]. cbn. rewrite !length_replicate. done.
Qed.

End local.
