(* ===== verification/RaftCluster.v ===== *)
(** * A cluster of peers

    The peers, the RPC calls and goroutines that are under way between them,
    and one step per critical section.  A call is executed by its receiver at
    most once and its reply reaches the caller at most once; either may be
    lost, which is a step that never happens.  A crashed peer is restarted by
    [Make] from its persister, and the goroutines of its earlier incarnation no
    longer act on it (the tester gives every incarnation its own endpoints and
    its own persister). *)

From stdpp Require Import base list numbers gmap strings.
From Stdlib Require Import Lia.
From S2P Require Import Prelude RaftLog Persister RaftCore.

Inductive CallStatus (R : Type) : Type :=
  | Sent
  | Replied (r : R)
  | Finished (r : R).

Arguments Sent {R}.
Arguments Replied {R} r.
Arguments Finished {R} r.

(** The shared variables of the goroutines of one [leaderElection]. *)
Record Campaign : Type := mkCampaign {
  cpElection : Election;
  cpIncarnation : nat;
}.

(** A [candidateRequest] goroutine of campaign [vcCampaign]. *)
Record VoteCall : Type := mkVoteCall {
  vcCampaign : nat;
  vcTo : Z;
  vcStatus : CallStatus RequestVoteReply;
}.

(** A [leaderSendEntries] goroutine. *)
Record EntryCall : Type := mkEntryCall {
  ecFrom : Z;
  ecIncarnation : nat;
  ecTo : Z;
  ecArgs : AppendEntriesArgs;
  ecStatus : CallStatus AppendEntriesReply;
}.

(** A [SendSnapshot] goroutine; it has no arguments until its first critical
    section has run. *)
Record SnapCall : Type := mkSnapCall {
  scFrom : Z;
  scIncarnation : nat;
  scTo : Z;
  scArgs : option SnapShotArgs;
  scStatus : CallStatus SnapShotReply;
}.

(** [applied] is everything sent on the apply channels, with its sender. *)
Record Cluster : Type := mkCluster {
  size : Z;
  servers : gmap Z Raft;
  incarnations : gmap Z nat;
  campaigns : list Campaign;
  voteCalls : list VoteCall;
  entryCalls : list EntryCall;
  snapCalls : list SnapCall;
  applied : list (Z * ApplyMsg);
}.

Definition cpArgs (cp : Campaign) : RequestVoteArgs := elArgs (cpElection cp).

Definition cpOwner (cp : Campaign) : Z := CandidateId (cpArgs cp).

Definition cpTerm (cp : Campaign) : Z := vaTerm (cpArgs cp).

Definition cpWon (cp : Campaign) : bool := becomeLeader (cpElection cp).

Definition incarnation (g : Cluster) (s : Z) : nat := default 0%nat (incarnations g !! s).

(** ** Updates *)

Definition put (s : Z) (rf : Raft) (g : Cluster) : Cluster :=
  mkCluster (size g) (<[s := rf]> (servers g)) (incarnations g) (campaigns g)
    (voteCalls g) (entryCalls g) (snapCalls g) (applied g).

Definition set_campaigns (cs : list Campaign) (g : Cluster) : Cluster :=
  mkCluster (size g) (servers g) (incarnations g) cs
    (voteCalls g) (entryCalls g) (snapCalls g) (applied g).

Definition set_voteCalls (vs : list VoteCall) (g : Cluster) : Cluster :=
  mkCluster (size g) (servers g) (incarnations g) (campaigns g)
    vs (entryCalls g) (snapCalls g) (applied g).

Definition set_entryCalls (es : list EntryCall) (g : Cluster) : Cluster :=
  mkCluster (size g) (servers g) (incarnations g) (campaigns g)
    (voteCalls g) es (snapCalls g) (applied g).

Definition set_snapCalls (ss : list SnapCall) (g : Cluster) : Cluster :=
  mkCluster (size g) (servers g) (incarnations g) (campaigns g)
    (voteCalls g) (entryCalls g) ss (applied g).

Definition deliver (s : Z) (m : option ApplyMsg) (g : Cluster) : Cluster :=
  match m with
  | None => g
  | Some m =>
      mkCluster (size g) (servers g) (incarnations g) (campaigns g)
        (voteCalls g) (entryCalls g) (snapCalls g) (applied g ++ [(s, m)])
  end.

Definition bump (s : Z) (g : Cluster) : Cluster :=
  mkCluster (size g) (servers g) (<[s := S (incarnation g s)]> (incarnations g))
    (campaigns g) (voteCalls g) (entryCalls g) (snapCalls g) (applied g).

(** The goroutines a critical section of peer [s] started. *)
Definition spawned_entries (s : Z) (inc : nat) (out : list Spawn) : list EntryCall :=
  omap (λ sp, match sp with
              | GoLeaderSendEntries p a => Some (mkEntryCall s inc p a Sent)
              | GoSendSnapshot _ => None
              end) out.

Definition spawned_snaps (s : Z) (inc : nat) (out : list Spawn) : list SnapCall :=
  omap (λ sp, match sp with
              | GoLeaderSendEntries _ _ => None
              | GoSendSnapshot p => Some (mkSnapCall s inc p None Sent)
              end) out.

Definition spawn (s : Z) (out : list Spawn) (g : Cluster) : Cluster :=
  set_snapCalls (snapCalls g ++ spawned_snaps s (incarnation g s) out)
    (set_entryCalls (entryCalls g ++ spawned_entries s (incarnation g s) out) g).

(** The loop at the end of [leaderElection]: one goroutine per other peer. *)
Definition campaignCalls (k : nat) (s n : Z) : list VoteCall :=
  (λ id, mkVoteCall k id Sent) <$> filter (λ id, id ≠ s) (seqZ 0 n).

Definition campaign (s : Z) (el : Election) (g : Cluster) : Cluster :=
  set_voteCalls (voteCalls g ++ campaignCalls (length (campaigns g)) s (size g))
    (set_campaigns (campaigns g ++ [mkCampaign el (incarnation g s)]) g).

Definition get {A} (o : option A) : outcome A :=
  match o with Some a => Done a | None => Blocked end.

Lemma get_Done {A} (o : option A) a : get o = Done a ↔ o = Some a.
Proof. destruct o; cbn; naive_solver. Qed.

Definition guard_ (b : bool) : outcome unit := if b then Done () else Blocked.

(** ** Steps *)

Inductive Label : Type :=
  | LTick (s : Z) (c1 c2 : Clock)
  | LStart (s : Z) (c : Clock) (cmd : Iface)
  | LVoteReq (i : nat) (c : Clock)
  | LVoteReply (i : nat) (c : Clock)
  | LEntryReq (i : nat) (c : Clock)
  | LEntryReply (i : nat)
  | LSnapSend (i : nat)
  | LSnapReq (i : nat)
  | LSnapReply (i : nat)
  | LApply (s : Z)
  | LSnapshot (s index : Z) (snap : bytes)
  | LCondInstall (s term index : Z) (snap : bytes)
  | LRestart (s : Z) (c : Clock).

Section exec.
Context {codec : RaftCodec}.

Definition exec_tick (s : Z) (c1 c2 : Clock) (g : Cluster) : outcome Cluster :=
  rf ← get (servers g !! s);
  '(rf', out, oel) ← ticker c1 c2 rf;
  let g := spawn s out (put s rf' g) in
  mret (match oel with None => g | Some el => campaign s el g end).

Definition exec_start (s : Z) (c : Clock) (cmd : Iface) (g : Cluster) : outcome Cluster :=
  rf ← get (servers g !! s);
  '(rf', _, out) ← Start c cmd rf;
  mret (spawn s out (put s rf' g)).

Definition exec_vote_req (i : nat) (c : Clock) (g : Cluster) : outcome Cluster :=
  call ← get (voteCalls g !! i);
  match vcStatus call with
  | Sent =>
      cp ← get (campaigns g !! vcCampaign call);
      rf ← get (servers g !! vcTo call);
      '(rf', reply) ← RequestVote c (cpArgs cp) rf;
      mret (set_voteCalls
        (<[i := mkVoteCall (vcCampaign call) (vcTo call) (Replied reply)]> (voteCalls g))
        (put (vcTo call) rf' g))
  | _ => Blocked
  end.

Definition exec_vote_reply (i : nat) (c : Clock) (g : Cluster) : outcome Cluster :=
  call ← get (voteCalls g !! i);
  match vcStatus call with
  | Replied reply =>
      cp ← get (campaigns g !! vcCampaign call);
      rf ← get (servers g !! cpOwner cp);
      _ ← guard_ (bool_decide (cpIncarnation cp = incarnation g (cpOwner cp)));
      '(rf', el', out) ← candidateRequest c (cpElection cp) reply rf;
      mret (spawn (cpOwner cp) out
        (set_voteCalls
          (<[i := mkVoteCall (vcCampaign call) (vcTo call) (Finished reply)]> (voteCalls g))
          (set_campaigns
            (<[vcCampaign call := mkCampaign el' (cpIncarnation cp)]> (campaigns g))
            (put (cpOwner cp) rf' g))))
  | _ => Blocked
  end.

Definition exec_entry_req (i : nat) (c : Clock) (g : Cluster) : outcome Cluster :=
  call ← get (entryCalls g !! i);
  match ecStatus call with
  | Sent =>
      rf ← get (servers g !! ecTo call);
      '(rf', reply) ← AppendEntries c (ecArgs call) rf;
      mret (set_entryCalls
        (<[i := mkEntryCall (ecFrom call) (ecIncarnation call) (ecTo call) (ecArgs call)
                  (Replied reply)]> (entryCalls g))
        (put (ecTo call) rf' g))
  | _ => Blocked
  end.

Definition exec_entry_reply (i : nat) (g : Cluster) : outcome Cluster :=
  call ← get (entryCalls g !! i);
  match ecStatus call with
  | Replied reply =>
      rf ← get (servers g !! ecFrom call);
      _ ← guard_ (bool_decide (ecIncarnation call = incarnation g (ecFrom call)));
      rf' ← leaderSendEntries (ecTo call) (ecArgs call) reply rf;
      mret (set_entryCalls
        (<[i := mkEntryCall (ecFrom call) (ecIncarnation call) (ecTo call) (ecArgs call)
                  (Finished reply)]> (entryCalls g))
        (put (ecFrom call) rf' g))
  | _ => Blocked
  end.

Definition exec_snap_send (i : nat) (g : Cluster) : outcome Cluster :=
  call ← get (snapCalls g !! i);
  match scArgs call with
  | None =>
      rf ← get (servers g !! scFrom call);
      _ ← guard_ (bool_decide (scIncarnation call = incarnation g (scFrom call)));
      mret (set_snapCalls
        (<[i := mkSnapCall (scFrom call) (scIncarnation call) (scTo call)
                  (Some (SendSnapshot_args rf)) Sent]> (snapCalls g)) g)
  | Some _ => Blocked
  end.

Definition exec_snap_req (i : nat) (g : Cluster) : outcome Cluster :=
  call ← get (snapCalls g !! i);
  match scArgs call, scStatus call with
  | Some args, Sent =>
      rf ← get (servers g !! scTo call);
      let '(rf', reply, msg) := InstallSnapShot args rf in
      mret (deliver (scTo call) msg (set_snapCalls
        (<[i := mkSnapCall (scFrom call) (scIncarnation call) (scTo call) (Some args)
                  (Replied reply)]> (snapCalls g))
        (put (scTo call) rf' g)))
  | _, _ => Blocked
  end.

Definition exec_snap_reply (i : nat) (g : Cluster) : outcome Cluster :=
  call ← get (snapCalls g !! i);
  match scStatus call with
  | Replied reply =>
      rf ← get (servers g !! scFrom call);
      _ ← guard_ (bool_decide (scIncarnation call = incarnation g (scFrom call)));
      rf' ← SendSnapshot_reply (scTo call) reply rf;
      mret (set_snapCalls
        (<[i := mkSnapCall (scFrom call) (scIncarnation call) (scTo call) (scArgs call)
                  (Finished reply)]> (snapCalls g))
        (put (scFrom call) rf' g))
  | _ => Blocked
  end.

Definition exec_apply (s : Z) (g : Cluster) : outcome Cluster :=
  rf ← get (servers g !! s);
  '(rf', msg) ← LoopCommit rf;
  mret (deliver s msg (put s rf' g)).

Definition exec_snapshot (s index : Z) (snap : bytes) (g : Cluster) : outcome Cluster :=
  rf ← get (servers g !! s);
  rf' ← Snapshot index snap rf;
  mret (put s rf' g).

Definition exec_cond_install (s term index : Z) (snap : bytes) (g : Cluster)
    : outcome Cluster :=
  rf ← get (servers g !! s);
  '(rf', _) ← CondInstallSnapshot term index snap rf;
  mret (put s rf' g).

Definition exec_restart (s : Z) (c : Clock) (g : Cluster) : outcome Cluster :=
  rf ← get (servers g !! s);
  rf' ← Make (size g) s (Copy (persister rf)) c;
  mret (bump s (put s rf' g)).

Definition exec (l : Label) (g : Cluster) : outcome Cluster :=
  match l with
  | LTick s c1 c2 => exec_tick s c1 c2 g
  | LStart s c cmd => exec_start s c cmd g
  | LVoteReq i c => exec_vote_req i c g
  | LVoteReply i c => exec_vote_reply i c g
  | LEntryReq i c => exec_entry_req i c g
  | LEntryReply i => exec_entry_reply i g
  | LSnapSend i => exec_snap_send i g
  | LSnapReq i => exec_snap_req i g
  | LSnapReply i => exec_snap_reply i g
  | LApply s => exec_apply s g
  | LSnapshot s index snap => exec_snapshot s index snap g
  | LCondInstall s t index snap => exec_cond_install s t index snap g
  | LRestart s c => exec_restart s c g
  end.

(** The servers of a fresh cluster, [Make]d in order with empty persisters. *)
Fixpoint makeServers (n : Z) (c : Clock) (ids : list Z) : outcome (gmap Z Raft) :=
  match ids with
  | [] => mret ∅
  | i :: ids' =>
      rf ← Make n i MakePersister c;
      m ← makeServers n c ids';
      mret (<[i := rf]> m)
  end.

Definition initCluster (n : Z) (c : Clock) : outcome Cluster :=
  m ← makeServers n c (seqZ 0 n);
  mret (mkCluster n m ∅ [] [] [] [] []).

Fixpoint run (ls : list Label) (g : Cluster) : outcome Cluster :=
  match ls with
  | [] => mret g
  | l :: ls' => g' ← exec l g; run ls' g'
  end.

(** [reach allowed n g]: [g] can be reached in a cluster of [n] peers by steps
    whose labels satisfy [allowed]. *)
Inductive reach (allowed : Label → Prop) (n : Z) : Cluster → Prop :=
  | reach_init c g : initCluster n c = Done g → reach allowed n g
  | reach_step l g g' :
      reach allowed n g → allowed l → exec l g = Done g' → reach allowed n g'.

Lemma reach_mono (P Q : Label → Prop) n g :
  (∀ l, P l → Q l) → reach P n g → reach Q n g.
Proof. intros HPQ. induction 1; [by eapply reach_init|eapply reach_step; eauto]. Qed.

Lemma reach_run (allowed : Label → Prop) n ls g g' :
  reach allowed n g → Forall allowed ls → run ls g = Done g' → reach allowed n g'.
Proof.
  revert g. induction ls as [|l ls IH]; intros g Hg Hls H; cbn in H; go_inv; [done|].
  inversion Hls; subst. eapply IH; [|done|exact H]. by eapply reach_step.
Qed.

(** Rule induction with the invariant available before the step. *)
Lemma reach_invariant (allowed : Label → Prop) n (I : Cluster → Prop) :
  (∀ c g, initCluster n c = Done g → I g) →
  (∀ l g g', allowed l → I g → exec l g = Done g' → I g') →
  ∀ g, reach allowed n g → I g.
Proof. intros Hi Hs. induction 1; eauto. Qed.

End exec.

(** Opens an equation [exec_... g = Done g']. *)
Ltac exec_inv :=
  repeat first
    [ progress go_inv
    | match goal with H : get _ = Done _ |- _ => apply get_Done in H end ].
