(* ===== verification/RaftElection.v ===== *)
(** * Election safety

    At most one peer becomes leader in a term.  The record of the campaigns and
    of the vote calls with their replies is the history the argument needs: a
    vote once cast stays visible in it.  The proof covers every step of the
    cluster but the execution of [InstallSnapShot], which overwrites the vote. *)

From stdpp Require Import base list numbers gmap strings.
From Stdlib Require Import Lia.
From S2P Require Import Prelude RaftLog Persister RaftCore RaftLocal RaftCluster.

(** ** The history of votes *)

Definition granted (st : CallStatus RequestVoteReply) : bool :=
  match st with
  | Sent => false
  | Replied r | Finished r => VoteGranted r
  end.

(** The reply was counted by the candidate. *)
Definition counted (k : nat) (call : VoteCall) : bool :=
  bool_decide (vcCampaign call = k) &&
  match vcStatus call with Finished r => VoteGranted r | _ => false end.

(** Peer [s] voted for [c] in term [t]: by campaigning, or by granting. *)
Inductive voted (cs : list Campaign) (vs : list VoteCall) (s t c : Z) : Prop :=
  | voted_self k cp :
      cs !! k = Some cp → cpOwner cp = c → cpTerm cp = t → s = c → voted cs vs s t c
  | voted_call i call cp :
      vs !! i = Some call → granted (vcStatus call) = true → vcTo call = s →
      cs !! vcCampaign call = Some cp → cpOwner cp = c → cpTerm cp = t → voted cs vs s t c.

(** Everyone who voted in campaign [k], as far as its candidate has counted. *)
Definition voters (k : nat) (owner : Z) (vs : list VoteCall) : list Z :=
  owner :: (vcTo <$> filter (λ call, counted k call = true) vs).

(** What a peer's state says about a vote of term [t] for [c]. *)
Definition ballot (rf : Raft) (t c : Z) : Prop :=
  t < currentTerm rf ∨ t = currentTerm rf ∧ votedFor rf = c.

Definition ballot_le (rf rf' : Raft) : Prop :=
  ∀ t c, 0 <= c → ballot rf t c → ballot rf' t c.

(** Every vote of the history is recorded by the voter or older than its
    term, and nobody voted twice in a term. *)
Record ballots (sv : gmap Z Raft) (cs : list Campaign) (vs : list VoteCall) : Prop := {
  bs_voted s t c : voted cs vs s t c → 0 <= c ∧ ∃ rf, sv !! s = Some rf ∧ ballot rf t c;
  bs_unique s t c c' : voted cs vs s t c → voted cs vs s t c' → c = c';
}.

(** The book-keeping of the candidates: one campaign per candidate and term,
    one call per other peer, and counters that count the granted replies. *)
Record campaigns_ok (n : Z) (cs : list Campaign) (vs : list VoteCall) : Prop := {
  co_campaign k k' cp cp' : cs !! k = Some cp → cs !! k' = Some cp' →
    cpOwner cp = cpOwner cp' → cpTerm cp = cpTerm cp' → k = k';
  co_call i call : vs !! i = Some call →
    ∃ cp, cs !! vcCampaign call = Some cp ∧ vcTo call ≠ cpOwner cp ∧ 0 <= vcTo call < n;
  co_call_once i j call call' : vs !! i = Some call → vs !! j = Some call' →
    vcCampaign call = vcCampaign call' → vcTo call = vcTo call' → i = j;
  co_count k cp : cs !! k = Some cp →
    votecount (cpElection cp) = Z.of_nat (length (voters k (cpOwner cp) vs));
  co_won k cp : cs !! k = Some cp → cpWon cp = true → n < 2 * votecount (cpElection cp);
}.

(** A leader has won a campaign of its term. *)
Definition leaders_ok (sv : gmap Z Raft) (cs : list Campaign) : Prop :=
  ∀ s rf, sv !! s = Some rf → state rf = Leader →
    ∃ k cp, cs !! k = Some cp ∧ cpOwner cp = s ∧ cpTerm cp = currentTerm rf ∧ cpWon cp = true.

(** ** Quorums *)

Lemma quorums_meet (n : Z) (l1 l2 : list Z) :
  0 <= n → NoDup l1 → NoDup l2 →
  (∀ x, x ∈ l1 → 0 <= x < n) → (∀ x, x ∈ l2 → 0 <= x < n) →
  n < 2 * Z.of_nat (length l1) → n < 2 * Z.of_nat (length l2) →
  ∃ x, x ∈ l1 ∧ x ∈ l2.
Proof.
  intros Hn H1 H2 R1 R2 L1 L2.
  destruct (decide (Exists (λ x, x ∈ l2) l1)) as [E|E].
  { apply Exists_exists in E. naive_solver. }
  exfalso. assert (NoDup (l1 ++ l2)) as Hnd.
  { apply NoDup_app. split_and!; [done| |done].
    intros x Hx Hx'. apply E, Exists_exists. eauto. }
  assert (length (l1 ++ l2) <= length (seqZ 0 n))%nat as Hlen.
  { apply submseteq_length, NoDup_submseteq; [done|].
    intros x. rewrite elem_of_app, elem_of_seqZ. intros [?%R1|?%R2]; lia. }
  rewrite length_app, length_seqZ in Hlen. lia.
Qed.

Lemma counted_true k call :
  counted k call = true → vcCampaign call = k ∧ granted (vcStatus call) = true.
Proof.
  unfold counted. intros [H%bool_decide_eq_true ?]%andb_true_iff.
  split; [done|]. by destruct (vcStatus call).
Qed.

Lemma voters_elem k o vs s :
  s ∈ voters k o vs ↔
  s = o ∨ ∃ i call, vs !! i = Some call ∧ counted k call = true ∧ vcTo call = s.
Proof.
  unfold voters. rewrite elem_of_cons, list_elem_of_fmap.
  setoid_rewrite list_elem_of_filter. setoid_rewrite list_elem_of_lookup. naive_solver.
Qed.

Lemma voters_voted n cs vs k cp s :
  campaigns_ok n cs vs → cs !! k = Some cp → s ∈ voters k (cpOwner cp) vs →
  voted cs vs s (cpTerm cp) (cpOwner cp).
Proof.
  intros Hok Hk [->|(i & call & Hi & [<- Hg]%counted_true & <-)]%voters_elem.
  - by eapply voted_self.
  - by apply (voted_call _ _ _ _ _ i call cp).
Qed.

Lemma voters_nodup n cs vs k cp :
  campaigns_ok n cs vs → cs !! k = Some cp → NoDup (voters k (cpOwner cp) vs).
Proof.
  intros Hok Hk. unfold voters. apply NoDup_cons. split.
  - intros (call & E & [[Hc _]%counted_true [i Hi]%list_elem_of_lookup]%list_elem_of_filter)
      %list_elem_of_fmap.
    destruct (co_call _ _ _ Hok _ _ Hi) as (cp' & Hcp' & Hne & _). congruence.
  - apply NoDup_fmap_2_strong.
    + intros x y [[Hx _]%counted_true [i Hxi]%list_elem_of_lookup]%list_elem_of_filter
        [[Hy _]%counted_true [j Hyj]%list_elem_of_lookup]%list_elem_of_filter E.
      assert (i = j) as -> by (eapply co_call_once; eauto; congruence). congruence.
    + apply NoDup_filter, NoDup_alt. intros i j call Hi Hj. by eapply co_call_once.
Qed.

(** ** Casting votes *)

Lemma ballots_voted_ballot sv cs vs s rf t c :
  ballots sv cs vs → sv !! s = Some rf → voted cs vs s t c → 0 <= c ∧ ballot rf t c.
Proof.
  intros [H _] Hs Hv. destruct (H _ _ _ Hv) as (? & rf0 & ? & ?).
  by assert (rf0 = rf) as -> by congruence.
Qed.

Lemma ballots_keep sv cs vs s rf rf' cs' vs' :
  ballots sv cs vs → sv !! s = Some rf → ballot_le rf rf' →
  (∀ s t c, voted cs' vs' s t c → voted cs vs s t c) →
  ballots (<[s := rf']> sv) cs' vs'.
Proof.
  intros Hb Hs Hle Hsub. split.
  - intros s' t c Hv%Hsub. destruct (bs_voted _ _ _ Hb _ _ _ Hv) as (Hc & rf0 & Hrf0 & Hbal).
    split; [done|]. destruct (decide (s = s')) as [<-|Hne].
    + exists rf'. rewrite lookup_insert_eq. split; [done|].
      apply Hle; [done|]. by assert (rf = rf0) as -> by congruence.
    + exists rf0. by rewrite lookup_insert_ne.
  - intros s' t c c' Hv%Hsub Hv'%Hsub. by eapply (bs_unique _ _ _ Hb).
Qed.

(** One vote is cast: by [s], for [c], in the term [s] is then in. *)
Lemma ballots_cast sv cs vs s rf rf' c cs' vs' :
  ballots sv cs vs → sv !! s = Some rf → ballot_le rf rf' → 0 <= c → votedFor rf' = c →
  (∀ s' t' c', voted cs' vs' s' t' c' →
     voted cs vs s' t' c' ∨ (s' = s ∧ t' = currentTerm rf' ∧ c' = c)) →
  ballots (<[s := rf']> sv) cs' vs'.
Proof.
  intros Hb Hs Hle Hc Hvf Hnew.
  pose proof (ballots_keep _ _ _ _ _ _ cs vs Hb Hs Hle (λ _ _ _ H, H)) as Hb'.
  assert (∀ c', voted cs vs s (currentTerm rf') c' → c' = c) as Hone.
  { intros c' Hv. eapply ballots_voted_ballot in Hv as [_ Hv];
      [|exact Hb'|apply lookup_insert_eq]. unfold ballot in Hv. lia. }
  split.
  - intros s' t c' [Hv|(-> & -> & ->)]%Hnew; [by apply (bs_voted _ _ _ Hb')|].
    split; [done|]. exists rf'. rewrite lookup_insert_eq. split; [done|]. by right.
  - intros s' t c1 c2 [Hv|(-> & -> & ->)]%Hnew [Hv'|(E1 & E2 & ->)]%Hnew; subst; auto.
    + by eapply (bs_unique _ _ _ Hb).
    + symmetry. auto.
Qed.

(** ** Starting a campaign *)

Lemma campaign_voted cs vs calls cp s t c :
  (∀ i call, vs !! i = Some call → is_Some (cs !! vcCampaign call)) →
  (∀ call, call ∈ calls → vcStatus call = Sent) →
  voted (cs ++ [cp]) (vs ++ calls) s t c →
  voted cs vs s t c ∨ (s = cpOwner cp ∧ t = cpTerm cp ∧ c = cpOwner cp).
Proof.
  intros Hcs Hcalls [k cp' Hk <- <- ->|i call cp' Hi Hg <- Hcp <- <-].
  - apply lookup_snoc_Some in Hk as [[_ Hk]|[_ <-]]; [left; by eapply voted_self|by right].
  - apply lookup_app_Some in Hi as [Hi|[_ Hi]].
    + left. destruct (Hcs _ _ Hi) as [cp2 Hcp2].
      rewrite lookup_app_l in Hcp by (eapply lookup_lt_Some; exact Hcp2).
      by apply (voted_call _ _ _ _ _ i call cp').
    + apply list_elem_of_lookup_2 in Hi. by rewrite (Hcalls _ Hi) in Hg.
Qed.

Lemma campaignCalls_spec k s n call :
  call ∈ campaignCalls k s n ↔
  vcCampaign call = k ∧ vcStatus call = Sent ∧ vcTo call ≠ s ∧ 0 <= vcTo call < n.
Proof.
  unfold campaignCalls. rewrite list_elem_of_fmap. setoid_rewrite list_elem_of_filter.
  setoid_rewrite elem_of_seqZ. split.
  - intros (id & -> & ? & ?). cbn. split_and!; try done; lia.
  - destruct call as [k' id st]; cbn. intros (-> & -> & ? & ?).
    exists id. split_and!; try done; lia.
Qed.

Lemma campaignCalls_once k s n i j call call' :
  campaignCalls k s n !! i = Some call → campaignCalls k s n !! j = Some call' →
  vcTo call = vcTo call' → i = j.
Proof.
  unfold campaignCalls. rewrite !list_lookup_fmap_Some.
  intros (x & -> & Hx) (y & -> & Hy) E. cbn in E. subst.
  eapply (NoDup_lookup (filter _ _)); [|exact Hx|exact Hy].
  apply NoDup_filter, NoDup_seqZ.
Qed.

Lemma campaign_voters k s n k' o vs :
  voters k' o (vs ++ campaignCalls k s n) = voters k' o vs.
Proof.
  unfold voters. f_equal. rewrite filter_app, fmap_app.
  rewrite (filter_none _ (campaignCalls k s n)), fmap_nil, app_nil_r; [done|].
  intros call (_ & Hst & _)%campaignCalls_spec.
  unfold counted. rewrite Hst, andb_false_r. done.
Qed.

Lemma campaigns_ok_calls n cs vs i call :
  campaigns_ok n cs vs → vs !! i = Some call → is_Some (cs !! vcCampaign call).
Proof. intros Hok Hi. destruct (co_call _ _ _ Hok _ _ Hi) as (cp & -> & _). eauto. Qed.

Lemma campaigns_ok_new n cs vs cp :
  campaigns_ok n cs vs → votecount (cpElection cp) = 1 → cpWon cp = false →
  (∀ k cp', cs !! k = Some cp' → cpOwner cp' = cpOwner cp → cpTerm cp' < cpTerm cp) →
  campaigns_ok n (cs ++ [cp]) (vs ++ campaignCalls (length cs) (cpOwner cp) n).
Proof.
  intros Hok Hc Hw Hold. pose proof (λ i call, campaigns_ok_calls n cs vs i call Hok) as Hcs.
  split.
  - intros k k' cp1 cp2 [[_ Hk]|[-> <-]]%lookup_snoc_Some [[_ Hk']|[-> <-]]%lookup_snoc_Some
      Ho Ht; [by eapply (co_campaign _ _ _ Hok)| | |done].
    + specialize (Hold _ _ Hk Ho). lia.
    + specialize (Hold _ _ Hk' (eq_sym Ho)). lia.
  - intros i call [Hi|[_ Hi]]%lookup_app_Some.
    + destruct (co_call _ _ _ Hok _ _ Hi) as (cp' & Hcp & ?). exists cp'. split; [|done].
      rewrite lookup_app_l; [done|by eapply lookup_lt_Some].
    + apply list_elem_of_lookup_2, campaignCalls_spec in Hi as (-> & _ & ? & ?).
      exists cp. rewrite lookup_app_r, Nat.sub_diag by lia. done.
  - intros i j c1 c2 [Hi|[Hge Hi]]%lookup_app_Some [Hj|[Hge' Hj]]%lookup_app_Some Hk Hto.
    + by eapply (co_call_once _ _ _ Hok).
    + apply list_elem_of_lookup_2, campaignCalls_spec in Hj as (E & _).
      apply Hcs, lookup_lt_is_Some in Hi. lia.
    + apply list_elem_of_lookup_2, campaignCalls_spec in Hi as (E & _).
      apply Hcs, lookup_lt_is_Some in Hj. lia.
    + pose proof (campaignCalls_once _ _ _ _ _ _ _ Hi Hj Hto). lia.
  - intros k cp' Hk. rewrite campaign_voters.
    apply lookup_snoc_Some in Hk as [[_ Hk]|[-> <-]]; [by apply (co_count _ _ _ Hok)|].
    unfold voters. rewrite Hc, filter_none; [done|].
    intros call [i Hi]%list_elem_of_lookup [E _]%counted_true.
    apply Hcs, lookup_lt_is_Some in Hi. lia.
  - intros k cp' [[_ Hk]|[-> <-]]%lookup_snoc_Some; [by eapply (co_won _ _ _ Hok)|congruence].
Qed.

(** ** Recording a reply *)

Lemma replied_voted cs (vs : list VoteCall) (i : nat) call cp st s t c :
  vs !! i = Some call → cs !! vcCampaign call = Some cp →
  voted cs (<[i := mkVoteCall (vcCampaign call) (vcTo call) st]> vs) s t c →
  voted cs vs s t c ∨
  (granted st = true ∧ s = vcTo call ∧ t = cpTerm cp ∧ c = cpOwner cp).
Proof.
  intros Hi Hcp [k cp' Hk Ho Ht E|j call' cp' Hj Hg Hto Hcp' Ho Ht].
  - left. by apply (voted_self _ _ _ _ _ k cp').
  - apply list_lookup_insert_Some in Hj as [(-> & <- & _)|[_ Hj]]; cbn in *.
    + right. split_and!; congruence.
    + left. by apply (voted_call _ _ _ _ _ j call' cp').
Qed.

Lemma insert_call_inv (vs : list VoteCall) (i j : nat) call st call' :
  vs !! i = Some call →
  <[i := mkVoteCall (vcCampaign call) (vcTo call) st]> vs !! j = Some call' →
  ∃ call0, vs !! j = Some call0 ∧ vcCampaign call0 = vcCampaign call' ∧
    vcTo call0 = vcTo call'.
Proof.
  intros Hi [(-> & <- & _)|[_ Hj]]%list_lookup_insert_Some; eauto.
Qed.

Lemma voters_insert k o (vs : list VoteCall) (i : nat) call st :
  vs !! i = Some call → counted k call = false →
  length (voters k o (<[i := mkVoteCall (vcCampaign call) (vcTo call) st]> vs)) =
  (length (voters k o vs) +
   if counted k (mkVoteCall (vcCampaign call) (vcTo call) st) then 1 else 0)%nat.
Proof.
  intros Hi Hf. unfold voters. cbn [length]. rewrite !length_fmap.
  pose proof (length_filter_insert (λ call, counted k call = true) vs i
    (mkVoteCall (vcCampaign call) (vcTo call) st) call Hi) as E.
  destruct (decide (counted k call = true)); [congruence|].
  destruct (counted k (mkVoteCall _ _ _)) eqn:E'; case_decide; try congruence; lia.
Qed.

(** The reply of call [i] is recorded as [st], and the candidate's counters
    become [el']. *)
Lemma campaigns_ok_reply n cs vs i call cp st cp' :
  campaigns_ok n cs vs → vs !! i = Some call → cs !! vcCampaign call = Some cp →
  (∀ k, counted k call = false) → cpArgs cp' = cpArgs cp →
  votecount (cpElection cp') = votecount (cpElection cp) +
    (if counted (vcCampaign call) (mkVoteCall (vcCampaign call) (vcTo call) st) then 1 else 0) →
  (cpWon cp' = true → cpWon cp = true ∨ n < 2 * votecount (cpElection cp')) →
  campaigns_ok n (<[vcCampaign call := cp']> cs)
    (<[i := mkVoteCall (vcCampaign call) (vcTo call) st]> vs).
Proof.
  intros Hok Hi Hcp Hun Hargs Hcnt Hwon.
  assert (∀ k c, <[vcCampaign call := cp']> cs !! k = Some c →
    ∃ c0, cs !! k = Some c0 ∧ cpOwner c0 = cpOwner c ∧ cpTerm c0 = cpTerm c) as Hold.
  { intros k c [(<- & <- & _)|[_ Hk]]%list_lookup_insert_Some; [|eauto].
    exists cp. unfold cpOwner, cpTerm. by rewrite Hargs. }
  split.
  - intros k k' c1 c2 (c1' & ? & ? & ?)%Hold (c2' & ? & ? & ?)%Hold Ho Ht.
    eapply (co_campaign _ _ _ Hok); [eassumption|eassumption|congruence|congruence].
  - intros j c1 Hj. destruct (insert_call_inv _ _ _ _ _ _ Hi Hj) as (c0 & Hj0 & <- & <-).
    destruct (co_call _ _ _ Hok _ _ Hj0) as (cp0 & Hcp0 & Hne & Hr).
    destruct (decide (vcCampaign call = vcCampaign c0)) as [E|E].
    + exists cp'. rewrite E, list_lookup_insert_eq by (by eapply lookup_lt_Some).
      assert (cp0 = cp) as -> by congruence. unfold cpOwner in *. rewrite Hargs. done.
    + exists cp0. rewrite list_lookup_insert_ne by done. done.
  - intros j1 j2 c1 c2 Hj1 Hj2 Ek Et.
    destruct (insert_call_inv _ _ _ _ _ _ Hi Hj1) as (c1' & ? & ? & ?).
    destruct (insert_call_inv _ _ _ _ _ _ Hi Hj2) as (c2' & ? & ? & ?).
    eapply (co_call_once _ _ _ Hok); [eassumption|eassumption|congruence|congruence].
  - intros k c Hk. rewrite (voters_insert _ _ _ _ _ _ Hi (Hun k)).
    apply list_lookup_insert_Some in Hk as [(<- & <- & _)|[Hne Hk]].
    + unfold cpOwner. rewrite Hargs, Hcnt, (co_count _ _ _ Hok _ _ Hcp).
      unfold cpOwner. destruct (counted _ _); lia.
    + rewrite (co_count _ _ _ Hok _ _ Hk). unfold counted. cbn [vcCampaign].
      rewrite bool_decide_false by done. cbn [andb]. lia.
  - intros k c [(<- & <- & _)|[_ Hk]]%list_lookup_insert_Some Hw;
      [|by eapply (co_won _ _ _ Hok)].
    destruct (Hwon Hw) as [Hw'|]; [|done].
    pose proof (co_won _ _ _ Hok _ _ Hcp Hw'). destruct (counted _ _); lia.
Qed.

(** ** The invariant of a cluster *)

Section election.
Context `{laws : !RaftCodecLaws codec}.

Definition servers_ok (n : Z) (sv : gmap Z Raft) : Prop :=
  ∀ s rf, sv !! s = Some rf → me rf = s ∧ npeers rf = n ∧ 0 <= s < n ∧ stable rf.

Record election_inv (g : Cluster) : Prop := {
  ei_servers : servers_ok (size g) (servers g);
  ei_ballots : ballots (servers g) (campaigns g) (voteCalls g);
  ei_campaigns : campaigns_ok (size g) (campaigns g) (voteCalls g);
  ei_leaders : leaders_ok (servers g) (campaigns g);
}.

(** Two campaigns of one term that both won are the same campaign. *)
Lemma one_winner g k k' cp cp' :
  election_inv g → campaigns g !! k = Some cp → campaigns g !! k' = Some cp' →
  cpWon cp = true → cpWon cp' = true → cpTerm cp = cpTerm cp' → k = k'.
Proof.
  intros [Hs Hb Hc _] Hk Hk' Hw Hw' Ht.
  assert (∀ j c, campaigns g !! j = Some c →
    ∀ x, x ∈ voters j (cpOwner c) (voteCalls g) → 0 <= x < size g) as Hr.
  { intros j c Hj x Hx. pose proof (voters_voted _ _ _ _ _ _ Hc Hj Hx) as Hv.
    destruct (bs_voted _ _ _ Hb _ _ _ Hv) as (_ & rf & Hrf & _).
    by apply Hs in Hrf as (_ & _ & ? & _). }
  destruct (quorums_meet (size g) (voters k (cpOwner cp) (voteCalls g))
              (voters k' (cpOwner cp') (voteCalls g))) as (x & Hx & Hx').
  - pose proof (Hr k cp Hk (cpOwner cp) (list_elem_of_here _ _)). lia.
  - by eapply voters_nodup.
  - by eapply voters_nodup.
  - by apply Hr.
  - by apply Hr.
  - rewrite <- (co_count _ _ _ Hc _ _ Hk). by eapply co_won.
  - rewrite <- (co_count _ _ _ Hc _ _ Hk'). by eapply co_won.
  - eapply (co_campaign _ _ _ Hc); [exact Hk|exact Hk'| |done].
    apply (voters_voted _ _ _ _ _ _ Hc Hk) in Hx. apply (voters_voted _ _ _ _ _ _ Hc Hk') in Hx'.
    rewrite Ht in Hx. by eapply bs_unique.
Qed.

Lemma election_inv_ext g g' :
  size g' = size g → servers g' = servers g → campaigns g' = campaigns g →
  voteCalls g' = voteCalls g → election_inv g → election_inv g'.
Proof. intros E1 E2 E3 E4 [H1 H2 H3 H4]. split; by rewrite ?E1, ?E2, ?E3, ?E4. Qed.

Lemma servers_ok_insert n sv s rf rf' :
  servers_ok n sv → sv !! s = Some rf → me rf' = me rf → npeers rf' = npeers rf →
  (stable rf → stable rf') → servers_ok n (<[s := rf']> sv).
Proof.
  intros Hs Hrf Hme Hn Hst s' r [[<- <-]|[_ ?]]%lookup_insert_Some; [|by apply Hs].
  destruct (Hs _ _ Hrf) as (?&?&?&?). split_and!; first [congruence|lia|auto].
Qed.

Lemma leaders_ok_insert sv cs cs' s rf rf' :
  leaders_ok sv cs → sv !! s = Some rf →
  (∀ k cp, cs !! k = Some cp → ∃ cp', cs' !! k = Some cp' ∧ cpOwner cp' = cpOwner cp ∧
     cpTerm cp' = cpTerm cp ∧ (cpWon cp = true → cpWon cp' = true)) →
  (state rf' = Leader →
     (state rf = Leader ∧ currentTerm rf' = currentTerm rf) ∨
     ∃ k cp, cs' !! k = Some cp ∧ cpOwner cp = s ∧ cpTerm cp = currentTerm rf' ∧
       cpWon cp = true) →
  leaders_ok (<[s := rf']> sv) cs'.
Proof.
  intros Hl Hrf Hcs Hnew.
  assert (∀ s r, sv !! s = Some r → state r = Leader → ∃ k cp, cs' !! k = Some cp ∧
    cpOwner cp = s ∧ cpTerm cp = currentTerm r ∧ cpWon cp = true) as Hold.
  { intros s' r Hr Hst. destruct (Hl _ _ Hr Hst) as (k & cp & Hk & ? & ? & ?).
    destruct (Hcs _ _ Hk) as (cp' & ? & ? & ? & ?). exists k, cp'. split_and!; auto; congruence. }
  intros s' r [[<- <-]|[_ ?]]%lookup_insert_Some Hst; [|by apply Hold].
  destruct (Hnew Hst) as [[? Ht]|?]; [|done]. rewrite Ht. by apply Hold.
Qed.

Lemma quiet_ballot_le rf rf' : quiet rf rf' → ballot_le rf rf'.
Proof.
  intros (_ & _ & [[? _]|(E1 & E2 & _)]) t c _; unfold ballot; [lia|]. by rewrite E1, E2.
Qed.

Lemma same_campaign (cs : list Campaign) k cp :
  cs !! k = Some cp → ∃ cp', cs !! k = Some cp' ∧ cpOwner cp' = cpOwner cp ∧
    cpTerm cp' = cpTerm cp ∧ (cpWon cp = true → cpWon cp' = true).
Proof. eauto 10. Qed.

(** A step of one peer that is [tame] keeps the invariant. *)
Lemma put_tame s rf rf' g :
  election_inv g → servers g !! s = Some rf → tame rf rf' → election_inv (put s rf' g).
Proof.
  intros [Hs Hb Hc Hl] Hrf [Hq Hst]. split; cbn.
  - destruct Hq as (?&?&_). by eapply servers_ok_insert.
  - eapply ballots_keep; [done|done|by apply quiet_ballot_le|done].
  - done.
  - eapply leaders_ok_insert; [done|done|apply same_campaign|].
    destruct Hq as (_ & _ & [[_ ?]|(?&_&?)]); [done|auto].
Qed.

Lemma new_campaign c s rf rf' el inc g :
  election_inv g → servers g !! s = Some rf → leaderElection c rf = Done (rf', el) →
  election_inv (set_voteCalls (voteCalls g ++ campaignCalls (length (campaigns g)) s (size g))
    (set_campaigns (campaigns g ++ [mkCampaign el inc]) (put s rf' g))).
Proof.
  intros [Hs Hb Hc Hl] Hrf Hel. destruct (Hs _ _ Hrf) as (Hme & Hn & Hr & _).
  apply leaderElection_spec in Hel
    as (Hme' & Hn' & Hst & _ & Ht & Hv & Hcand & Hat & Hac & Hcnt & Hb0).
  rewrite Hme in Hac, Hv.
  assert (cpOwner (mkCampaign el inc) = s ∧ cpTerm (mkCampaign el inc) = currentTerm rf')
    as [Ho Hterm] by (split; unfold cpOwner, cpTerm, cpArgs; cbn; lia).
  split; cbn.
  - by eapply servers_ok_insert.
  - apply (ballots_cast _ _ _ _ _ _ s _ _ Hb Hrf); [|lia|done|].
    + intros t d _. unfold ballot. lia.
    + intros s' t' c' Hvt. eapply campaign_voted in Hvt.
      * by rewrite Ho, Hterm in Hvt.
      * intros i call. by apply (campaigns_ok_calls (size g)).
      * by intros call (_ & ? & _)%campaignCalls_spec.
  - rewrite <- Ho. apply campaigns_ok_new; [done|done|done|].
    intros k cp' Hk Ho'. rewrite Ho in Ho'. rewrite Hterm.
    destruct (ballots_voted_ballot _ _ _ s rf (cpTerm cp') s Hb Hrf) as [_ Hbal];
      [by eapply voted_self|]. unfold ballot in Hbal. lia.
  - eapply leaders_ok_insert; [done|done| |congruence].
    intros k cp Hk. exists cp. rewrite lookup_app_l; [done|by eapply lookup_lt_Some].
Qed.

(** The receiver's side of a vote call. *)
Lemma vote_request c i call cp rf rf' reply g :
  election_inv g → voteCalls g !! i = Some call → vcStatus call = Sent →
  campaigns g !! vcCampaign call = Some cp → servers g !! vcTo call = Some rf →
  RequestVote c (cpArgs cp) rf = Done (rf', reply) →
  election_inv (set_voteCalls
    (<[i := mkVoteCall (vcCampaign call) (vcTo call) (Replied reply)]> (voteCalls g))
    (put (vcTo call) rf' g)).
Proof.
  intros [Hs Hb Hc Hl] Hi Hst Hcp Hrf Hreq.
  assert (campaigns_ok (size g) (campaigns g)
    (<[i := mkVoteCall (vcCampaign call) (vcTo call) (Replied reply)]> (voteCalls g))) as Hc'.
  { rewrite <- (list_insert_id (campaigns g) (vcCampaign call) cp) by done.
    apply (campaigns_ok_reply _ _ _ _ _ cp); try done; [|unfold counted; cbn|auto].
    - intros k. unfold counted. by rewrite Hst, andb_false_r.
    - rewrite andb_false_r. lia. }
  pose proof (λ s t d, replied_voted (campaigns g) (voteCalls g) i call cp
    (Replied reply) s t d Hi Hcp) as Hnew. cbn in Hnew.
  destruct (VoteGranted reply) eqn:Eg.
  - apply (RequestVote_granted _ _ _ _ _ Hreq) in Eg
      as (Hme & Hn & Hstab & _ & Ht & Hv & Hcase).
    assert (0 <= cpOwner cp) as Hpos.
    { destruct (bs_voted _ _ _ Hb (cpOwner cp) (cpTerm cp) (cpOwner cp)); [|done].
      by eapply voted_self. }
    assert (currentTerm rf' = cpTerm cp) as Ht' by done.
    split; cbn; [by eapply servers_ok_insert| |done|].
    + apply (ballots_cast _ _ _ _ _ _ (cpOwner cp) _ _ Hb Hrf); [|done|done|].
      * intros t d Hd. unfold ballot. rewrite Ht', Hv. unfold cpTerm in *. lia.
      * intros s' t' c' [?|(_ & ?)]%Hnew; [by left|right]. by rewrite Ht'.
    + eapply leaders_ok_insert; [done|done|apply same_campaign|].
      intros Hlead. left. destruct Hcase as [[_ ?]|(? & ? & _)]; [done|].
      split; congruence.
  - apply (RequestVote_refused _ _ _ _ _ Hreq) in Eg as [Htame _].
    pose proof (put_tame _ _ _ _ (Build_election_inv _ Hs Hb Hc Hl) Hrf Htame) as [H1 _ _ H4].
    split; cbn; [done| |done|done]. eapply ballots_keep; [done|done| |].
    + destruct Htame as [Hq _]. by apply quiet_ballot_le.
    + intros s t d [?|[? _]]%Hnew; done.
Qed.

Lemma candidateRequest_spec c el reply rf rf' el' out :
  candidateRequest c el reply rf = Done (rf', el', out) →
  (stable rf → stable rf') ∧ me rf' = me rf ∧ npeers rf' = npeers rf ∧ log rf' = log rf ∧
  ballot_le rf rf' ∧ currentTerm rf <= currentTerm rf' ∧ elArgs el' = elArgs el ∧
  votecount el' = votecount el + (if VoteGranted reply then 1 else 0) ∧
  (becomeLeader el' = true → becomeLeader el = true ∨ npeers rf < 2 * votecount el') ∧
  (becomeLeader el = true → becomeLeader el' = true) ∧
  (state rf' = Leader → state rf = Leader ∧ currentTerm rf' = currentTerm rf ∨
     currentTerm rf' = vaTerm (elArgs el) ∧ becomeLeader el = false ∧ becomeLeader el' = true) ∧
  (becomeLeader el = false → becomeLeader el' = true →
     state rf' = Leader ∧ currentTerm rf' = vaTerm (elArgs el)).
Proof.
  unfold candidateRequest. intros H.
  destruct (negb (VoteGranted reply) && (currentTerm rf <? vrTerm reply)) eqn:E.
  { zbool. go_inv. destruct (setNewTerm_tame (vrTerm reply) rf) as [Hq Hst]; [done|].
    pose proof (setNewTerm_log (vrTerm reply) rf) as Hlog.
    pose proof (quiet_ballot_le _ _ Hq). destruct Hq as (?&?&Hc). rewrite H0. cbn.
    rewrite setNewTerm_term in Hc |- * by done.
    split_and!; auto; [lia|lia| |congruence]. destruct Hc as [[_ ?]|(?&_&?)]; [done|lia]. }
  destruct (VoteGranted reply) eqn:Eg; cbn in H;
    go_inv; cbn; try (split_and!; auto; first [lia|congruence|by intros ???]).
  zbool. apply winElection_spec in H0 as (?&?&?&?&Ht&Hv&Hl).
  split_and!; auto; [|lia|intros _; right; split; [lia|done]|intros _ _; split; [done|lia]].
  intros t d _. unfold ballot. by rewrite Ht, Hv.
Qed.

(** The candidate's side of a vote call. *)
Lemma vote_reply c i call cp rf rf' el' reply out inc g :
  election_inv g → voteCalls g !! i = Some call → vcStatus call = Replied reply →
  campaigns g !! vcCampaign call = Some cp → servers g !! cpOwner cp = Some rf →
  candidateRequest c (cpElection cp) reply rf = Done (rf', el', out) →
  election_inv (set_voteCalls
    (<[i := mkVoteCall (vcCampaign call) (vcTo call) (Finished reply)]> (voteCalls g))
    (set_campaigns (<[vcCampaign call := mkCampaign el' inc]> (campaigns g))
      (put (cpOwner cp) rf' g))).
Proof.
  intros [Hs Hb Hc Hl] Hi Hst Hcp Hrf Hreq. destruct (Hs _ _ Hrf) as (_ & Hn & _ & _).
  apply candidateRequest_spec in Hreq
    as (Hstab & Hme & Hn' & _ & Hle & _ & Hargs & Hcnt & Hwon & Hmono & Hlead & _).
  pose proof (lookup_lt_Some _ _ _ Hcp) as Hlt.
  assert (∀ k cp0, campaigns g !! k = Some cp0 →
    ∃ cp', <[vcCampaign call := mkCampaign el' inc]> (campaigns g) !! k = Some cp' ∧
      cpOwner cp' = cpOwner cp0 ∧ cpTerm cp' = cpTerm cp0 ∧
      (cpWon cp0 = true → cpWon cp' = true)) as Hcs.
  { intros k cp0 Hk. destruct (decide (vcCampaign call = k)) as [<-|Hne].
    - exists (mkCampaign el' inc). rewrite list_lookup_insert_eq by done.
      assert (cp0 = cp) as -> by congruence. unfold cpOwner, cpTerm, cpArgs, cpWon. cbn.
      rewrite Hargs. auto.
    - exists cp0. rewrite list_lookup_insert_ne by done. auto. }
  split; cbn.
  - by eapply servers_ok_insert.
  - eapply ballots_keep; [done|done|done|]. intros s t d Hv.
    assert (voted (campaigns g)
      (<[i := mkVoteCall (vcCampaign call) (vcTo call) (Finished reply)]> (voteCalls g)) s t d)
      as Hv'.
    { destruct Hv as [k cp1 Hk Ho Ht E|j call1 cp1 Hj Hg Hto Hk Ho Ht];
        apply list_lookup_insert_Some in Hk as [(Ek & <- & _)|[_ Hk]];
        unfold cpOwner, cpTerm, cpArgs in *; cbn in *; rewrite ?Hargs in *.
      - by apply (voted_self _ _ _ _ _ k cp); [subst k|..].
      - by apply (voted_self _ _ _ _ _ k cp1).
      - apply (voted_call _ _ _ _ _ j call1 cp); auto. by rewrite <- Ek.
      - by apply (voted_call _ _ _ _ _ j call1 cp1). }
    eapply replied_voted in Hv' as [?|(Hg & -> & -> & ->)]; [done| |done|done].
    apply (voted_call _ _ _ _ _ i call cp); auto. by rewrite Hst.
  - apply (campaigns_ok_reply _ _ _ _ _ cp); try done.
    + intros k. unfold counted. by rewrite Hst, andb_false_r.
    + unfold counted. cbn. by rewrite bool_decide_true.
    + unfold cpWon. cbn. rewrite <- Hn. exact Hwon.
  - eapply leaders_ok_insert; [done|done|done|]. intros [?|(Ht & _ & Hw)]%Hlead; [by left|right].
    exists (vcCampaign call), (mkCampaign el' inc). rewrite list_lookup_insert_eq by done.
    unfold cpOwner, cpTerm, cpArgs, cpWon. cbn. by rewrite Hargs.
Qed.

(** ** All steps *)

Definition no_install (l : Label) : Prop :=
  match l with LSnapReq _ => False | _ => True end.

Lemma election_inv_init n c g : initCluster n c = Done g → election_inv g.
Proof.
  unfold initCluster. intros H. go_inv.
  assert (∀ ids m, (∀ i, i ∈ ids → 0 <= i < n) → makeServers n c ids = Done m →
    ∀ s rf, m !! s = Some rf →
      me rf = s ∧ npeers rf = n ∧ 0 <= s < n ∧ stable rf ∧ state rf = Follower) as Hm.
  { induction ids as [|i ids IH]; intros m Hids Hmk s rf Hs; cbn in Hmk; go_inv; [done|].
    apply lookup_insert_Some in Hs as [[<- <-]|[_ Hs]].
    - unfold Make, ReadRaftState in H. cbn in H. go_inv. cbn.
      split_and!; try done; apply Hids; by left.
    - eapply IH; [|eassumption|eassumption]. intros j Hj. apply Hids. by right. }
  specialize (Hm (seqZ 0 n) x). split; cbn.
  - intros s rf Hs. eapply Hm in Hs as (?&?&?&?&?); [done| |done].
    intros i Hi%elem_of_seqZ. lia.
  - split; [intros s t d Hv|intros s t d d' Hv]; exfalso;
      destruct Hv as [k cp Hk|i call cp Hk]; by rewrite lookup_nil in Hk.
  - split; done.
  - intros s rf Hs Hl. eapply Hm in Hs as (?&?&?&?&?); [congruence| |done].
    intros i Hi%elem_of_seqZ. lia.
Qed.

(** Steps that change one peer by a [tame] method. *)
Lemma ticker_inv c1 c2 rf rf' out oel :
  ticker c1 c2 rf = Done (rf', out, oel) →
  ∃ rf1, tame rf rf1 ∧ log rf1 = log rf ∧
    match oel with
    | None => rf' = rf1
    | Some el => leaderElection c2 rf1 = Done (rf', el)
    end.
Proof.
  unfold ticker. intros H. destruct (killed rf); [done|].
  apply bind_Done in H as ([rf1 out1] & H1 & H). exists rf1.
  assert (tame rf rf1 ∧ log rf1 = log rf) as [].
  { clear H. go_inv; [by eapply appendEntries_tame|]. split; [reflexivity|done]. }
  split_and!; [done|done|]. go_inv; done.
Qed.

Lemma restart_tame c s rf rf' n :
  me rf = s → npeers rf = n → stable rf →
  Make n s (Copy (persister rf)) c = Done rf' → tame rf rf' ∧ log rf' = log rf.
Proof.
  intros <- Hn Hst H.
  assert (Copy (persister rf) = persister rf) as E by (by destruct (persister rf)).
  rewrite E in H. destruct (Make_recovers n c rf Hst)
    as (rf1 & H1 & Hme & Hn' & Hp & Ht & Hv & Hl & Hf & _).
  assert (rf1 = rf') as -> by congruence. split; [|done]. split.
  - apply quiet_fields; congruence.
  - unfold stable. by rewrite Hp, Ht, Hv, Hl.
Qed.

Lemma exec_election_inv l g g' :
  no_install l → election_inv g → exec l g = Done g' → election_inv g'.
Proof.
  intros Hl Hi H. destruct l; cbn in H, Hl; try done.
  - unfold exec_tick in H. exec_inv. apply ticker_inv in H1 as (rf1 & Ht & _ & Hel).
    pose proof (put_tame _ _ _ _ Hi H0 Ht) as Hi1.
    destruct o as [el|]; [|subst; by eapply election_inv_ext; [..|exact Hi1]].
    pose proof (new_campaign c2 s rf1 r el (incarnation g s) (put s rf1 g) Hi1
      (lookup_insert_eq _ _ _) Hel) as Hi2.
    eapply election_inv_ext; [..|exact Hi2]; try done. cbn. by rewrite insert_insert_eq.
  - unfold exec_start in H. exec_inv. apply Start_tame in H1.
    eapply election_inv_ext; [..|by eapply put_tame]; done.
  - unfold exec_vote_req in H. exec_inv. by eapply vote_request.
  - unfold exec_vote_reply in H. exec_inv.
    eapply election_inv_ext; [..|by eapply (vote_reply _ i x)]; done.
  - unfold exec_entry_req in H. exec_inv. apply AppendEntries_tame in H2.
    eapply election_inv_ext; [..|by eapply put_tame]; done.
  - unfold exec_entry_reply in H. exec_inv. apply leaderSendEntries_tame in H3 as [H3 _].
    eapply election_inv_ext; [..|by eapply put_tame]; done.
  - unfold exec_snap_send in H. exec_inv. eapply election_inv_ext; [..|exact Hi]; done.
  - unfold exec_snap_reply in H. exec_inv. apply SendSnapshot_reply_tame in H3 as [H3 _].
    eapply election_inv_ext; [..|by eapply put_tame]; done.
  - unfold exec_apply in H. exec_inv. apply LoopCommit_tame in H1 as [H1 _].
    destruct o; (eapply election_inv_ext; [..|by eapply put_tame]; done).
  - unfold exec_snapshot in H. exec_inv. apply Snapshot_tame in H1. by eapply put_tame.
  - unfold exec_cond_install in H. exec_inv. apply CondInstallSnapshot_tame in H1.
    by eapply put_tame.
  - unfold exec_restart in H. exec_inv.
    destruct (ei_servers _ Hi _ _ H0) as (? & ? & _ & ?).
    eapply restart_tame in H1 as [H1 _]; [|done..].
    eapply election_inv_ext; [..|by eapply put_tame]; done.
Qed.

Lemma reach_election_inv n g : reach no_install n g → election_inv g.
Proof. apply reach_invariant; [apply election_inv_init|apply exec_election_inv]. Qed.
End election.
