(* ===== verification/RaftTotal.v ===== *)
(** * The methods return: no index ever goes out of range

    Under [peer_ok] (a well-formed log and arrays of the right length) the
    methods of a peer return, keep [peer_ok], and do what their reference
    definition says: what [appendEntries] sends ([spawn_ok]), what the log is
    after [AppendEntries] ([merge]). *)

From stdpp Require Import base list numbers gmap strings.
From Stdlib Require Import Lia.
From S2P Require Import Prelude RaftLog Persister RaftCore RaftLocal.

Record peer_ok (rf : Raft) : Prop := {
  po_log : log_ok (log rf);
  po_me : 0 <= me rf < npeers rf;
  po_next : Z.of_nat (length (nextIndex rf)) = npeers rf;
  po_match : Z.of_nat (length (matchIndex rf)) = npeers rf;
  po_commit : Index0 (log rf) <= commitIndex rf;
  po_applied : Index0 (log rf) <= lastApplied rf;
}.

(** ** Rules for the primitive operations *)

Lemma wp_zlookup {A} (xs : list A) i (Q : A → Prop) :
  0 <= i < Z.of_nat (length xs) → (∀ x, Q x) → wp (zlookup xs i) Q.
Proof. intros Hi HQ. destruct (zlookup_total xs i Hi) as [x ->]. apply HQ. Qed.

Lemma wp_zupdate {A} (xs : list A) i x (Q : list A → Prop) :
  0 <= i < Z.of_nat (length xs) →
  (∀ ys, length ys = length xs → Q ys) → wp (zupdate xs i x) Q.
Proof.
  intros Hi HQ. rewrite (proj2 (zupdate_Done xs i x _)) by (split; [exact Hi|reflexivity]).
  apply HQ, length_insert.
Qed.

Lemma wp_at l idx (Q : Entry → Prop) :
  log_ok l → Index0 l <= idx <= lastIndex l →
  (∀ e, Entries l !! Z.to_nat (idx - Index0 l) = Some e → Index e = idx → Q e) →
  wp (at_ l idx) Q.
Proof.
  intros Hok Hi HQ. destruct (at_total l idx Hok Hi) as (e & He & Hx). rewrite He.
  apply HQ; [|done]. by apply at_Done in He as [_ ?].
Qed.

Lemma wp_LastLog l (Q : Entry → Prop) :
  log_ok l →
  (∀ e, Index e = lastIndex l → last (Entries l) = Some e → Q e) → wp (LastLog l) Q.
Proof. intros Hok HQ. destruct (LastLog_total l Hok) as (e & -> & ? & ?). by apply HQ. Qed.

Lemma wp_ret {A} (a : A) (Q : A → Prop) : Q a → wp (mret a) Q.
Proof. done. Qed.

(** ** What is sent *)

Definition spawn_ok (rf : Raft) (sp : Spawn) : Prop :=
  match sp with
  | GoLeaderSendEntries p a =>
      p ≠ me rf ∧ 0 <= p < npeers rf ∧ aaTerm a = currentTerm rf ∧ LeaderId a = me rf ∧
      LeaderCommit a = commitIndex rf ∧
      ∃ (k : nat) e, Entries (log rf) !! k = Some e ∧
        PrevLogIndex a = Index0 (log rf) + Z.of_nat k ∧ PrevLogTerm a = Term e ∧
        aaEntries a = drop (S k) (Entries (log rf))
  | GoSendSnapshot p => p ≠ me rf ∧ 0 <= p < npeers rf
  end.

Lemma appendEntriesTo_total hb lastLog rf p :
  peer_ok rf → Index lastLog = lastIndex (log rf) → 0 <= p < npeers rf → p ≠ me rf →
  wp (appendEntriesTo hb lastLog rf p) (λ out, Forall (spawn_ok rf) out).
Proof.
  intros Hok Hlast Hp Hne. pose proof (po_log _ Hok) as Hlog.
  pose proof (log_ok_range _ Hlog). unfold appendEntriesTo.
  apply wp_bind, wp_zlookup; [rewrite (po_next _ Hok); done|]. intros next.
  destruct (_ || hb); [|by apply wp_ret].
  set (n1 := if next <=? 0 then 1 else next).
  set (n2 := if Index lastLog + 1 <? n1 then Index lastLog else n1).
  assert (n2 <= lastIndex (log rf) + 1) as Hn2.
  { subst n2. destruct (Z.ltb_spec (Index lastLog + 1) n1); lia. }
  destruct (Z.ltb_spec (Index0 (log rf)) n2); [|apply wp_ret, Forall_singleton; done].
  apply wp_bind, wp_at; [done|lia|]. intros prev Hprev Hpi.
  destruct (Z.ltb_spec (Index lastLog - n2 + 1) 0); [lia|].
  rewrite (Tail_Done _ _ Hlog) by lia. apply wp_ret, Forall_singleton. cbn.
  split_and!; try done; try lia.
  exists (Z.to_nat (n2 - 1 - Index0 (log rf))), prev. split_and!; [done|lia|done|].
  rewrite copy_into_same.
  - f_equal. lia.
  - rewrite length_replicate, length_drop. unfold lastIndex, Len in *. lia.
Qed.

Lemma appendEntriesLoop_total hb c lastLog ids rf :
  peer_ok rf → Index lastLog = lastIndex (log rf) → (∀ p, p ∈ ids → 0 <= p < npeers rf) →
  wp (appendEntriesLoop hb c lastLog ids rf) (λ '(rf', out),
    (rf' = rf ∨ rf' = resetElectionTimer c rf) ∧ Forall (spawn_ok rf) out).
Proof.
  revert rf. induction ids as [|p ids IH]; intros rf Hok Hlast Hids; cbn.
  { split; [by left|constructor]. }
  assert (∀ q, q ∈ ids → 0 <= q < npeers rf) as Hids' by (intros q Hq; apply Hids; by right).
  destruct (Z.eqb_spec p (me rf)) as [->|Hne].
  - assert (peer_ok (resetElectionTimer c rf)) as Hok' by (by destruct Hok).
    apply (wp_mono _ _ _ (IH _ Hok' Hlast Hids')).
    intros [rf' out] [[->| ->] Hout]; (split; [by right|exact Hout]).
  - apply wp_bind. eapply wp_mono; [apply appendEntriesTo_total; auto; apply Hids; by left|].
    intros out Hout. apply wp_bind. apply (wp_mono _ _ _ (IH _ Hok Hlast Hids')).
    intros [rf' outs] [Hrf' Houts]. split; [done|by apply Forall_app].
Qed.

Lemma appendEntries_total hb c rf :
  peer_ok rf →
  wp (appendEntries hb c rf) (λ '(rf', out),
    (rf' = rf ∨ rf' = resetElectionTimer c rf) ∧ Forall (spawn_ok rf) out).
Proof.
  intros Hok. unfold appendEntries. apply wp_bind, wp_LastLog; [apply Hok|].
  intros e He _. apply appendEntriesLoop_total; [done..|].
  intros p. unfold peerIds. rewrite elem_of_seqZ. lia.
Qed.

Lemma reset_peer_ok c rf : peer_ok rf → peer_ok (resetElectionTimer c rf).
Proof. by intros []. Qed.

(** ** What the receiver's log becomes *)

(** The reference for [AppendLoop]: [own] is the receiver's log and [k] the
    slot of the first new entry.  The log is kept up to the first entry whose
    term differs, and continued with what was sent. *)
Fixpoint merge (own : list Entry) (k : nat) (es : list Entry) : list Entry :=
  match es with
  | [] => own
  | e :: es' =>
      match own !! k with
      | Some e' => if Term e' =? Term e then merge own (S k) es' else take k own ++ es
      | None => own ++ es
      end
  end.

Lemma merge_cases own k es :
  (k <= length own)%nat →
  merge own k es = own ∧ (k + length es <= length own)%nat ∧
    (∀ i e, es !! i = Some e → ∃ e', own !! (k + i)%nat = Some e' ∧ Term e' = Term e) ∨
  ∃ j, (j < length es)%nat ∧ (k + j <= length own)%nat ∧
    merge own k es = take (k + j) own ++ drop j es ∧
    (∀ i e, (i < j)%nat → es !! i = Some e →
       ∃ e', own !! (k + i)%nat = Some e' ∧ Term e' = Term e).
Proof.
  revert k. induction es as [|e es IH]; intros k Hk; cbn [merge].
  { left. split_and!; [done|cbn; lia|done]. }
  destruct (own !! k) as [e'|] eqn:E.
  2:{ right. exists 0%nat. apply lookup_ge_None in E.
      split_and!; [cbn; lia|lia| |lia]. rewrite Nat.add_0_r, take_ge by lia. done. }
  destruct (Z.eqb_spec (Term e') (Term e)) as [Ht|Ht].
  2:{ right. exists 0%nat. rewrite Nat.add_0_r. split_and!; [cbn; lia|done|done|lia]. }
  assert (S k <= length own)%nat as Hk' by (apply lookup_lt_Some in E; lia).
  assert (∀ (i : nat) (x : Entry), (e :: es) !! i = Some x →
    i = 0%nat ∧ x = e ∨ ∃ i', i = S i' ∧ es !! i' = Some x) as Hcons.
  { intros [|i] x Hx; [left; cbn in Hx; naive_solver|right; eauto]. }
  destruct (IH (S k) Hk') as [(-> & Hl & Hm)|(j & Hj & Hl & -> & Hm)].
  - left. cbn [length]. split_and!; [done|lia|].
    intros i x [[-> ->]|(i' & -> & Hx)]%Hcons; [exists e'; by rewrite Nat.add_0_r|].
    rewrite <- Nat.add_succ_comm. by apply Hm.
  - right. exists (S j). cbn [length]. rewrite <- Nat.add_succ_comm.
    split_and!; [lia|lia|done|].
    intros i x Hi [[-> ->]|(i' & -> & Hx)]%Hcons; [exists e'; by rewrite Nat.add_0_r|].
    rewrite <- Nat.add_succ_comm. apply Hm; [lia|done].
Qed.

Section total.
Context `{laws : !RaftCodecLaws codec}.

Lemma take_ok l (k : nat) :
  log_ok l → (0 < k)%nat → log_ok (mkLog (take k (Entries l)) (Index0 l)).
Proof.
  intros [Hne Hok] Hk. split; cbn.
  - destruct (Entries l), k; [done|done|lia|done].
  - intros i e [Hi _]%lookup_take_Some. by apply Hok.
Qed.

(** [AppendLoop] computes [merge]. *)
Lemma AppendLoop_merge es rf (k : nat) :
  log_ok (log rf) → (0 < k <= length (Entries (log rf)))%nat →
  consecutive (Index0 (log rf) + Z.of_nat k) es →
  ∃ rf', AppendLoop es rf = Done rf' ∧
    log rf' = mkLog (merge (Entries (log rf)) k es) (Index0 (log rf)) ∧
    log_ok (log rf') ∧
    ∃ p, rf' = set_persister p (set_log (log rf') rf).
Proof.
  revert rf k. induction es as [|e es IH]; intros rf k Hok Hk Hes; cbn [merge].
  { exists rf. split_and!; [done|by destruct (log rf)|done|]. exists (persister rf).
    by destruct rf. }
  apply consecutive_cons in Hes as [He Hes]. cbn [AppendLoop].
  destruct (LastLog_total _ Hok) as (last1 & Hl1 & Hi1 & _). rewrite Hl1. cbn -[at_ truncate LastLog].
  unfold lastIndex, Len in Hi1.
  destruct (Z.leb_spec (Index e) (Index last1)) as [Hle|Hgt].
  - destruct (lookup_lt_is_Some_2 (Entries (log rf)) k) as [e' He']; [lia|]. rewrite He'.
    rewrite (proj2 (at_Done (log rf) (Index e) e')); cbn -[at_ truncate LastLog].
    2:{ split; [lia|]. rewrite <- He'. f_equal. lia. }
    destruct (Z.eqb_spec (Term e') (Term e)) as [Ht|Ht]; cbn -[at_ truncate LastLog].
    + rewrite Hl1. cbn. destruct (Z.ltb_spec (Index last1) (Index e)); [lia|].
      apply (IH rf (S k)); [done|lia|]. replace (_ + Z.of_nat (S k)) with
        (Index0 (log rf) + Z.of_nat k + 1) by lia. done.
    + set (l1 := mkLog (take k (Entries (log rf))) (Index0 (log rf))).
      assert (truncate (log rf) (Index e) = Done l1) as ->.
      { apply truncate_Done. unfold Len. split; [lia|]. subst l1. do 2 f_equal. lia. }
      assert (log_ok l1) as Hok1 by (apply take_ok; [done|lia]). cbn -[LastLog].
      destruct (LastLog_total _ Hok1) as (last2 & Hl2 & Hi2 & _).
      rewrite Hl2. cbn.
      unfold lastIndex, Len in Hi2. subst l1. cbn in Hi2. rewrite length_take in Hi2.
      destruct (Z.ltb_spec (Index last2) (Index e)); [|lia].
      eexists. split_and!; [reflexivity|done| |eexists; reflexivity].
      cbn. apply (append_ok _ (e :: es) Hok1). apply consecutive_cons.
      unfold lastIndex, Len. cbn. rewrite length_take. split; [lia|].
      replace (Z.of_nat _ + _ - 1 + 1 + 1) with (Index0 (log rf) + Z.of_nat k + 1) by lia. done.
  - rewrite (proj2 (lookup_ge_None (Entries (log rf)) k)) by lia.
    cbn -[at_ truncate LastLog]. rewrite Hl1. cbn.
    destruct (Z.ltb_spec (Index last1) (Index e)); [|lia].
    eexists. split_and!; [reflexivity|done| |eexists; reflexivity].
    cbn. apply (append_ok _ (e :: es) Hok). apply consecutive_cons.
    unfold lastIndex, Len. split; [lia|].
    replace (Z.of_nat _ + _ - 1 + 1 + 1) with (Index0 (log rf) + Z.of_nat k + 1) by lia. done.
Qed.

(** The search for the start of the conflicting term's run. *)
Lemma findXIndex_total l x (n : nat) :
  log_ok l → Index0 l = 0 → Z.of_nat n <= lastIndex l + 1 →
  wp (findXIndex l x n) (λ r, 0 <= r <= Z.of_nat n ∧
    (∀ (i : nat) e, r <= Z.of_nat i < Z.of_nat n → Entries l !! i = Some e → Term e = x) ∧
    (0 < r → ∃ e, Entries l !! Z.to_nat (r - 1) = Some e ∧ Term e ≠ x)).
Proof.
  intros Hok H0. induction n as [|n IH]; intros Hn; cbn -[Z.of_nat].
  { split_and!; lia. }
  apply wp_bind, wp_at; [done|lia|]. intros e He _.
  replace (Z.to_nat (Z.of_nat (S n) - 1 - Index0 l)) with n in He by lia.
  destruct (Z.eqb_spec (Term e) x) as [Ht|Ht]; cbn -[Z.of_nat].
  - eapply wp_mono; [apply IH; lia|]. intros r (Hr & Hall & Hfirst). split_and!; [lia|lia| |done].
    intros i e' Hi He'. destruct (decide (i = n)) as [->|]; [congruence|].
    apply (Hall i); [lia|done].
  - split_and!; [lia|lia|intros i e' ?; lia|]. intros _. exists e.
    replace (Z.to_nat (Z.of_nat (S n) - 1)) with n by lia. done.
Qed.

Definition args_ok (args : AppendEntriesArgs) : Prop :=
  consecutive (PrevLogIndex args + 1) (aaEntries args).

(** The receiver has, at [PrevLogIndex], an entry of term [PrevLogTerm]. *)
Definition matches_prev (l : Log) (args : AppendEntriesArgs) : Prop :=
  Index0 l <= PrevLogIndex args ∧
  ∃ e, Entries l !! Z.to_nat (PrevLogIndex args - Index0 l) = Some e ∧
    Term e = PrevLogTerm args.

Definition merged (l : Log) (args : AppendEntriesArgs) : Log :=
  mkLog (merge (Entries l) (Z.to_nat (PrevLogIndex args + 1 - Index0 l)) (aaEntries args))
        (Index0 l).

Lemma adopt_peer_ok t rf : peer_ok rf → peer_ok (adopt t rf).
Proof.
  intros []. unfold adopt, setNewTerm.
  destruct (_ <? _); [|by constructor]. by destruct (_ || _).
Qed.

(** The last part of [AppendEntries]: the commit index of the leader. *)
Lemma leader_commit_total lc rf :
  peer_ok rf →
  wp (if commitIndex rf <? lc then
        lastLog ← LastLog (log rf);
        mret (SendMsg (set_commitIndex (min lc (Index lastLog)) rf))
      else mret rf)
    (λ rf', peer_ok rf' ∧ log rf' = log rf ∧ currentTerm rf' = currentTerm rf).
Proof.
  intros Hok. pose proof (log_ok_range _ (po_log _ Hok)). destruct (Z.ltb_spec (commitIndex rf) lc); [|done].
  apply wp_bind, wp_LastLog; [apply Hok|]. intros l Hl _. cbn. split_and!; [|done|done].
  destruct Hok. split; cbn; try done. unfold min. destruct (_ <? _); lia.
Qed.

Lemma AppendEntries_total c args rf :
  peer_ok rf → Index0 (log rf) = 0 → args_ok args →
  wp (AppendEntries c args rf) (λ '(rf', reply),
    peer_ok rf' ∧ arTerm reply = currentTerm rf ∧
    if Success reply
    then currentTerm rf <= aaTerm args ∧ currentTerm rf' = aaTerm args ∧
         matches_prev (log rf) args ∧ log rf' = merged (log rf) args
    else log rf' = log rf ∧
         ¬ (currentTerm rf <= aaTerm args ∧ matches_prev (log rf) args)).
Proof.
  intros Hok H0 Hargs. unfold AppendEntries. fold (adopt (aaTerm args) rf).
  destruct (Z.ltb_spec (aaTerm args) (currentTerm rf)) as [|Hterm].
  { cbn. split_and!; [done|done|done|lia]. }
  pose proof (adopt_peer_ok (aaTerm args) rf Hok) as Hok1.
  pose proof (adopt_log (aaTerm args) rf) as Hlog1.
  set (rf1 := adopt _ _) in *.
  destruct (Z.ltb_spec (PrevLogIndex args) (Index0 (log rf1))) as [|Hprev].
  { cbn. split_and!; [done|done|done|]. rewrite Hlog1 in *. intros [_ [? _]]. lia. }
  set (rf2 := set_LeaderID _ _).
  assert (peer_ok rf2 ∧ log rf2 = log rf ∧ currentTerm rf2 = aaTerm args)
    as (Hok2 & Hlog2 & Ht2).
  { pose proof (adopt_term _ _ Hterm). subst rf2.
    destruct (bool_decide _); cbn; (split_and!; [by destruct Hok1|done|done]). }
  clearbody rf2. pose proof (po_log _ Hok2) as Hl2.
  apply wp_bind, wp_LastLog; [done|]. intros lst Hlst _.
  destruct (Z.ltb_spec (Index lst) (PrevLogIndex args)) as [Hlt|Hge].
  { cbn. split_and!; [done|done|done|]. intros [_ (_ & e & He & _)].
    apply lookup_lt_Some in He. rewrite Hlst, Hlog2 in Hlt. unfold lastIndex, Len in Hlt.
    rewrite Hlog1 in Hprev. lia. }
  rewrite Hlog1 in Hprev. rewrite Hlst in Hge. rewrite Hlog2 in *.
  apply wp_bind, wp_at; [done|lia|]. intros e He _.
  destruct (Z.eqb_spec (Term e) (PrevLogTerm args)) as [Ht|Ht]; cbn -[AppendLoop].
  2:{ apply wp_bind. eapply wp_mono; [apply findXIndex_total; [done|done|lia]|].
      intros r _. cbn. split_and!; [done|done|done|].
      intros [_ (_ & e' & He' & ?)]. congruence. }
  set (k := Z.to_nat (PrevLogIndex args + 1 - Index0 (log rf))).
  destruct (AppendLoop_merge (aaEntries args) rf2 k) as (rf3 & -> & Hm & Hl3 & p & Hrf3).
  { by rewrite Hlog2. }
  { rewrite Hlog2. unfold k, lastIndex, Len in *. lia. }
  { rewrite Hlog2. unfold args_ok in Hargs.
    replace (_ + Z.of_nat k) with (PrevLogIndex args + 1) by (unfold k; lia). done. }
  rewrite Hlog2 in Hm.
  assert (peer_ok rf3) as Hok3.
  { rewrite Hrf3. destruct Hok2. split; cbn; try done; rewrite Hm; cbn; by rewrite <- Hlog2. }
  cbn -[Z.ltb LastLog]. apply wp_bind. eapply wp_mono; [by apply leader_commit_total|].
  intros rf4 (? & Hl4 & Ht4). cbn. split_and!; [done|done|lia|by rewrite Ht4, Hrf3| |by rewrite Hl4].
  split; [lia|]. by exists e.
Qed.

(** ** Elections *)

Lemma RequestVote_total c args rf :
  peer_ok rf → wp (RequestVote c args rf) (λ '(rf', _), peer_ok rf' ∧ log rf' = log rf).
Proof.
  intros Hok. unfold RequestVote. fold (adopt (vaTerm args) rf).
  destruct (_ <? _); [done|]. pose proof (adopt_peer_ok (vaTerm args) rf Hok) as Hok1.
  pose proof (adopt_log (vaTerm args) rf) as Hl. set (rf1 := adopt _ _) in *.
  apply wp_bind, wp_LastLog; [apply Hok1|]. intros e _ _.
  destruct (_ && _); cbn; (split; [by destruct Hok1|done]).
Qed.

Lemma leaderElection_total c rf :
  peer_ok rf → wp (leaderElection c rf) (λ '(rf', _), peer_ok rf' ∧ log rf' = log rf).
Proof.
  intros Hok. unfold leaderElection. apply wp_bind, wp_LastLog; [apply Hok|].
  intros e _ _. cbn. split; [by destruct Hok|done].
Qed.

Lemma resetPeers_total next ids rf :
  peer_ok rf → (∀ i, i ∈ ids → 0 <= i < npeers rf) →
  wp (resetPeers next ids rf) (λ rf', peer_ok rf' ∧ log rf' = log rf).
Proof.
  revert rf. induction ids as [|i ids IH]; intros rf Hok Hids; cbn; [done|].
  assert (0 <= i < npeers rf) as Hi by (apply Hids; by left).
  apply wp_bind, wp_zupdate; [by rewrite (po_next _ Hok)|]. intros nis Hn.
  apply wp_bind, wp_zupdate; [by rewrite (po_match _ Hok)|]. intros mis Hm.
  apply (IH (set_matchIndex mis (set_nextIndex nis rf))).
  - destruct Hok. split; cbn; try done; lia.
  - intros j Hj. apply Hids. by right.
Qed.

Lemma winElection_total c rf :
  peer_ok rf →
  wp (winElection c rf) (λ '(rf', out), peer_ok rf' ∧ log rf' = log rf ∧
    Forall (spawn_ok rf') out).
Proof.
  intros Hok. unfold winElection. apply wp_bind, wp_LastLog; [apply Hok|]. intros e _ _.
  apply wp_bind. eapply wp_mono.
  { apply resetPeers_total; [by destruct Hok|]. intros i. unfold peerIds.
    rewrite elem_of_seqZ. cbn. lia. }
  cbn. intros rf1 (Hok1 & Hl). eapply wp_mono; [by apply appendEntries_total|].
  intros [rf2 out] [Hrf2 Hout]. destruct Hrf2 as [->| ->]; [done|].
  split_and!; [by apply reset_peer_ok|done|exact Hout].
Qed.

Lemma setNewTerm_peer_ok t rf : peer_ok rf → peer_ok (setNewTerm t rf).
Proof. intros []. unfold setNewTerm. by destruct (_ || _). Qed.

Lemma candidateRequest_total c el reply rf :
  peer_ok rf →
  wp (candidateRequest c el reply rf) (λ '(rf', el', out), peer_ok rf' ∧ log rf' = log rf ∧
    (out = [] ∨ Forall (spawn_ok rf') out ∧ becomeLeader el = false ∧
       becomeLeader el' = true)).
Proof.
  intros Hok. unfold candidateRequest. cbn.
  destruct (negb (VoteGranted reply) && _).
  { cbn. split_and!; [by apply setNewTerm_peer_ok|apply setNewTerm_log|by left]. }
  destruct (VoteGranted reply); [|cbn; auto].
  destruct (_ && _) eqn:E; [|cbn; auto]. zbool. destruct (becomeLeader el) eqn:Eb; [cbn; auto|].
  apply wp_bind. eapply wp_mono; [by apply winElection_total|].
  intros [rf' out] (Hok' & Hl & Hout). cbn. auto 10.
Qed.

(** ** Committing *)

Lemma CommitCount_total rf n ids cnt :
  peer_ok rf → (∀ i, i ∈ ids → 0 <= i < npeers rf) →
  wp (CommitCount rf n ids cnt) (λ _, True).
Proof.
  intros Hok. revert cnt. induction ids as [|i ids IH]; intros cnt Hids; cbn; [done|].
  assert (∀ j, j ∈ ids → 0 <= j < npeers rf) by (intros j Hj; apply Hids; by right).
  apply wp_bind. destruct (i =? me rf).
  - cbn. destruct (_ <? _); [done|by apply IH].
  - apply wp_bind, wp_zlookup; [rewrite (po_match _ Hok); apply Hids; by left|].
    intros m. cbn. destruct (_ <? _); [done|by apply IH].
Qed.

Lemma CommitLoop_total ns rf :
  peer_ok rf → (∀ n, n ∈ ns → Index0 (log rf) <= n <= lastIndex (log rf)) →
  wp (CommitLoop ns rf) (λ rf', peer_ok rf' ∧ log rf' = log rf).
Proof.
  revert rf. induction ns as [|n ns IH]; intros rf Hok Hns; cbn; [done|].
  assert (Index0 (log rf) <= n <= lastIndex (log rf)) as Hn by (apply Hns; by left).
  assert (∀ m, m ∈ ns → Index0 (log rf) <= m <= lastIndex (log rf)) as Hns'
    by (intros m Hm; apply Hns; by right).
  apply wp_bind, wp_at; [apply Hok|done|]. intros e _ _.
  destruct (negb _); [by apply IH|].
  apply wp_bind. eapply wp_mono; [apply CommitCount_total; [done|]|].
  { intros i. unfold peerIds. rewrite elem_of_seqZ. lia. }
  intros [] _; [|by apply IH].
  apply (IH (SendMsg (set_commitIndex n rf))); [|done].
  destruct Hok. split; cbn; try done; lia.
Qed.

Lemma Commit_total rf :
  peer_ok rf → wp (Commit rf) (λ rf', peer_ok rf' ∧ log rf' = log rf).
Proof.
  intros Hok. unfold Commit. destruct (negb _); [done|].
  apply wp_bind, wp_LastLog; [apply Hok|]. intros e He _. apply CommitLoop_total; [done|].
  intros n. rewrite elem_of_seqZ. pose proof (po_commit _ Hok). lia.
Qed.

Lemma findLastLogFrom_total l x (n : nat) :
  log_ok l → Index0 l = 0 → Z.of_nat n <= lastIndex l →
  wp (findLastLogFrom l x n) (λ _, True).
Proof.
  intros Hok H0. induction n as [|n IH]; intros Hn; cbn -[Z.of_nat]; [done|].
  apply wp_bind, wp_at; [done|lia|]. intros e _ _.
  destruct (_ =? _); [done|]. destruct (_ <? _); [done|]. apply IH. lia.
Qed.

Lemma leaderSendEntries_total peer args reply rf :
  peer_ok rf → Index0 (log rf) = 0 → 0 <= peer < npeers rf →
  wp (leaderSendEntries peer args reply rf) (λ rf', peer_ok rf' ∧ log rf' = log rf).
Proof.
  intros Hok H0 Hp. unfold leaderSendEntries. destruct (_ <? _).
  { cbn. split; [by apply setNewTerm_peer_ok|apply setNewTerm_log]. }
  destruct (bool_decide _); [|done]. apply wp_bind.
  assert (∀ nis mis, length nis = length (nextIndex rf) → length mis = length (matchIndex rf) →
    peer_ok (set_matchIndex mis (set_nextIndex nis rf))) as Hset.
  { intros nis mis ? ?. destruct Hok. split; cbn; try done; lia. }
  pose proof (po_next _ Hok) as Hn. pose proof (po_match _ Hok) as Hm.
  assert (∀ rf1, peer_ok rf1 ∧ log rf1 = log rf →
    wp (Commit rf1) (λ rf', peer_ok rf' ∧ log rf' = log rf)) as Hcommit.
  { intros rf1 [Hok1 <-]. by apply Commit_total. }
  destruct (Success reply).
  { apply wp_bind, wp_zlookup; [lia|]. intros ni. apply wp_bind, wp_zupdate; [lia|].
    intros nis Hnis. apply wp_bind, wp_zlookup; [lia|]. intros mi.
    apply wp_bind, wp_zupdate; [lia|]. intros mis Hmis. apply Hcommit. auto. }
  destruct (Conflict reply); [|by apply Hcommit].
  assert (∀ x, wp (zupdate (nextIndex rf) peer x)
    (λ nis, peer_ok (set_nextIndex nis rf) ∧ log (set_nextIndex nis rf) = log rf)) as Hnis.
  { intros x. apply wp_zupdate; [lia|]. intros nis Hnis. split; [|done].
    by apply (Hset nis (matchIndex rf)). }
  destruct (_ =? -1).
  - apply wp_bind. eapply wp_mono; [apply Hnis|]. intros nis ?. by apply Hcommit.
  - apply wp_bind. unfold findLastLogInTerm. apply wp_bind, wp_LastLog; [apply Hok|].
    intros e He _. eapply wp_mono.
    { apply findLastLogFrom_total; [apply Hok|done|].
      pose proof (log_ok_range _ (po_log _ Hok)). lia. }
    intros r _. apply wp_bind. eapply wp_mono; [apply Hnis|]. intros nis ?. by apply Hcommit.
Qed.

(** ** The service's interface *)

Lemma copyEntries_total l (ks : nat) from :
  log_ok l → Index0 l <= from → from + Z.of_nat ks <= lastIndex l + 1 →
  copyEntries l (seqZ from (Z.of_nat ks)) =
  Done (take ks (drop (Z.to_nat (from - Index0 l)) (Entries l))).
Proof.
  intros Hok. revert from. induction ks as [|ks IH]; intros from Hf Hl.
  { by rewrite take_0. }
  rewrite seqZ_cons by lia. cbn [copyEntries].
  destruct (at_total l from Hok) as (e & He & _); [lia|]. rewrite He. cbn -[seqZ].
  replace (Z.pred (Z.of_nat (S ks))) with (Z.of_nat ks) by lia.
  replace (Z.succ from) with (from + 1) by lia. rewrite IH by lia. cbn.
  apply at_Done in He as [_ He]. apply drop_S in He. rewrite He. cbn. repeat f_equal. lia.
Qed.

Lemma Start_total c cmd rf :
  peer_ok rf → wp (Start c cmd rf) (λ '(rf', res, out),
    peer_ok rf' ∧
    if bool_decide (state rf = Leader) then
      log rf' = append (log rf) [mkEntry cmd (currentTerm rf) (lastIndex (log rf) + 1)] ∧
      res = (lastIndex (log rf) + 1, currentTerm rf, true) ∧
      currentTerm rf' = currentTerm rf ∧ Forall (spawn_ok rf') out
    else rf' = rf ∧ res = (-1, currentTerm rf, false) ∧ out = []).
Proof.
  intros Hok. unfold Start. destruct (bool_decide _); cbn; [|done].
  apply wp_bind, wp_LastLog; [apply Hok|]. intros e He _. rewrite He.
  set (entry := mkEntry cmd _ _). set (rf1 := persist _).
  assert (peer_ok rf1) as Hok1.
  { pose proof (po_log _ Hok). destruct Hok. split; cbn; try done.
    apply append_ok; [done|]. apply consecutive_cons. split; [done|]. by intros i x. }
  apply wp_bind. eapply wp_mono; [by apply appendEntries_total|].
  intros [rf2 out] [Hrf2 Hout]. cbn. destruct Hrf2 as [->| ->]; [done|].
  split_and!; [by apply reset_peer_ok|done|done|done|exact Hout].
Qed.

(** [LoopCommit] runs only when it is not waiting. *)
Lemma LoopCommit_awake rf r : LoopCommit rf = Done r → killed rf = false ∧ applyWaiting rf = false.
Proof. unfold LoopCommit. by destruct (killed rf), (applyWaiting rf). Qed.

(** [LoopCommit] applies the next entry, or waits when there is none. *)
Lemma LoopCommit_total rf :
  peer_ok rf → killed rf = false → applyWaiting rf = false →
  wp (LoopCommit rf) (λ '(rf', msg), peer_ok rf' ∧ log rf' = log rf ∧
    match msg with
    | Some m => lastApplied rf < commitIndex rf ∧ lastApplied rf' = lastApplied rf + 1 ∧
        ∃ e, at_ (log rf) (lastApplied rf + 1) = Done e ∧
          m = mkApplyMsg true (Command e) (lastApplied rf + 1) false [] 0 0
    | None => rf' = set_applyWaiting true rf ∧
        ¬ (lastApplied rf < commitIndex rf ∧ lastApplied rf < lastIndex (log rf))
    end).
Proof.
  intros Hok Hk Hw. unfold LoopCommit. rewrite Hk, Hw. cbn [orb]. pose proof (po_log _ Hok) as Hlog.
  pose proof (po_applied _ Hok).
  destruct (Z.ltb_spec (lastApplied rf) (commitIndex rf)); cbn -[LastLog CommitInfo].
  2:{ split_and!; [by destruct Hok|done|done|lia]. }
  destruct (LastLog_total _ Hlog) as (lst & -> & Hlst & _). cbn -[LastLog CommitInfo].
  destruct (Z.ltb_spec (lastApplied rf) (Index lst)).
  2:{ cbn. split_and!; [by destruct Hok|done|done|lia]. }
  destruct (at_total (log rf) (lastApplied rf + 1) Hlog) as (e & He & _); [lia|].
  cbn -[at_ CommitInfo]. rewrite He. cbn -[CommitInfo]. unfold CommitInfo. cbn -[LastLog seqZ].
  destruct (LastLog_total _ Hlog) as (lst' & -> & Hlst' & _). cbn -[seqZ].
  set (m := min _ _). assert (Index0 (log rf) <= m <= lastIndex (log rf)) as Hm.
  { subst m. unfold min. destruct (Z.ltb_spec (lastApplied rf + 1) (Index lst')); lia. }
  replace (m - Index0 (log rf) + 1) with (Z.of_nat (Z.to_nat (m - Index0 (log rf) + 1))) by lia.
  rewrite copyEntries_total by (done || lia). cbn.
  split_and!; [|done|done|done|by exists e]. destruct Hok. split; cbn; try done; lia.
Qed.

Lemma ticker_total c1 c2 rf :
  peer_ok rf → killed rf = false →
  wp (ticker c1 c2 rf) (λ '(rf', out, oel), peer_ok rf' ∧ log rf' = log rf ∧
    (out = [] ∨ state rf = Leader ∧ Forall (spawn_ok rf) out)).
Proof.
  intros Hok Hk. unfold ticker. rewrite Hk. apply wp_bind.
  assert (∀ rf1 out, peer_ok rf1 → log rf1 = log rf →
    (out = [] ∨ state rf = Leader ∧ Forall (spawn_ok rf) out) →
    wp (if electionTime rf1 <? now c2 then
          '(rf, el) ← leaderElection c2 rf1; mret (rf, out, Some el)
        else mret (rf1, out, None))
      (λ '(rf', out, oel), peer_ok rf' ∧ log rf' = log rf ∧
        (out = [] ∨ state rf = Leader ∧ Forall (spawn_ok rf) out))) as Hrest.
  { intros rf1 out Hok1 Hl1 Hout. destruct (_ <? _); [|done].
    apply wp_bind. eapply wp_mono; [by apply leaderElection_total|].
    intros [rf2 el] [Hok2 Hl2]. cbn. split_and!; [done|congruence|done]. }
  case_bool_decide as Hst.
  - eapply wp_mono; [by apply appendEntries_total|]. intros [rf1 out] [Hrf1 Hout].
    apply Hrest; [| |by right]; destruct Hrf1 as [->| ->]; try done. by apply reset_peer_ok.
  - cbn -[leaderElection]. apply Hrest; [done|done|by left].
Qed.
End total.
