(* ===== verification/RaftMatching.v ===== *)
(** * Log matching, and that no peer ever panics

    For runs without snapshots.  The history variable [G] gives, for every
    term, the log of that term's leader; it only ever grows.  Every log in the
    cluster, at every entry, is a prefix of the log of the leader that created
    that entry ([coherent]), and every AppendEntries call in flight carries a
    slice of its leader's log. *)

From stdpp Require Import base list numbers gmap strings.
From Stdlib Require Import Lia.
From S2P Require Import Prelude RaftLog Persister RaftCore RaftLocal RaftCluster.
From S2P Require Import RaftElection RaftTotal.

(** Steps other than the snapshot machinery. *)
Definition plain (l : Label) : Prop :=
  match l with
  | LSnapSend _ | LSnapReq _ | LSnapReply _ | LSnapshot _ _ _ | LCondInstall _ _ _ _ => False
  | _ => True
  end.

Lemma plain_no_install l : plain l → no_install l.
Proof. by destruct l. Qed.

Abbreviation history := (Z → list Entry).

Definition coherent (G : history) (es : list Entry) : Prop :=
  ∀ i e, es !! i = Some e → take (S i) es = take (S i) (G (Term e)).

Definition grows (G G' : history) : Prop := ∀ t, G t `prefix_of` G' t.

Lemma take_grows (G G' : history) t n es :
  grows G G' → (n <= length es)%nat → take n es = take n (G t) → take n es = take n (G' t).
Proof.
  intros Hg Hn E. destruct (Hg t) as [k Hk]. rewrite Hk, take_app_le; [done|].
  apply (f_equal length) in E. rewrite !length_take in E. lia.
Qed.

Lemma coherent_grows G G' es : grows G G' → coherent G es → coherent G' es.
Proof.
  intros Hg Hc i e Hi. eapply take_grows; [done| |by apply Hc].
  apply lookup_lt_Some in Hi. lia.
Qed.

Lemma coherent_take G es n : coherent G es → coherent G (take n es).
Proof.
  intros Hc i e [Hi Hlt]%lookup_take_Some. rewrite take_take, Nat.min_l by lia. by apply Hc.
Qed.

(** Two coherent logs that agree on the term at one index agree up to it. *)
Lemma coherent_agree G es es' i e e' :
  coherent G es → coherent G es' → es !! i = Some e → es' !! i = Some e' →
  Term e = Term e' → take (S i) es = take (S i) es'.
Proof. intros H H' Hi Hi' Ht. rewrite (H _ _ Hi), (H' _ _ Hi'). by rewrite Ht. Qed.

(** The log after [AppendEntries]: the receiver's own log, or a prefix of the
    log of the leader that sent it. *)
Lemma merge_coherent G t own (p : nat) e es :
  coherent G own → coherent G (G t) →
  own !! p = Some e → (∃ e', G t !! p = Some e' ∧ Term e' = Term e) →
  es `prefix_of` drop (S p) (G t) →
  merge own (S p) es = own ∨ ∃ n, merge own (S p) es = take n (G t).
Proof.
  intros Hown Hgt Hp (e' & Hp' & Ht) [rest Hes].
  pose proof (lookup_lt_Some _ _ _ Hp) as Hlt.
  destruct (merge_cases own (S p) es) as [[? _]|(j & Hj & Hl & Hm & Hall)]; [lia|by left|].
  right. exists (S p + length es)%nat. rewrite Hm.
  assert (take (S p + j) own = take (S p + j) (G t)) as ->.
  { destruct j as [|j].
    - rewrite Nat.add_0_r. by eapply coherent_agree.
    - destruct (lookup_lt_is_Some_2 es j) as [x Hx]; [lia|].
      destruct (Hall j x) as (x' & Hx' & Htx); [lia|done|].
      assert (G t !! (S p + j)%nat = Some x) as Hgx.
      { rewrite <- lookup_drop, Hes. by apply lookup_app_l_Some. }
      rewrite <- Nat.add_succ_comm. replace (S (S p) + j)%nat with (S (S p + j)) by lia.
      by eapply coherent_agree. }
  assert (drop j es = take (length es - j) (drop (S p + j) (G t))) as ->.
  { rewrite <- drop_drop, Hes, drop_app_le by lia.
    rewrite take_app_le, take_ge; rewrite ?length_drop; lia || done. }
  rewrite take_take_drop. f_equal. lia.
Qed.

Section matching.
Context `{laws : !RaftCodecLaws codec}.

Definition won_by (g : Cluster) (t s : Z) : Prop :=
  ∃ k cp, campaigns g !! k = Some cp ∧ cpWon cp = true ∧ cpTerm cp = t ∧ cpOwner cp = s.

(** What an AppendEntries call carries. *)
Definition call_ok (g : Cluster) (G : history) (call : EntryCall) : Prop :=
  let a := ecArgs call in
  won_by g (aaTerm a) (ecFrom call) ∧ ecFrom call ≠ ecTo call ∧ 0 <= ecTo call < size g ∧
  0 <= PrevLogIndex a ∧ args_ok a ∧
  (∃ e, G (aaTerm a) !! Z.to_nat (PrevLogIndex a) = Some e ∧ Term e = PrevLogTerm a) ∧
  aaEntries a `prefix_of` drop (S (Z.to_nat (PrevLogIndex a))) (G (aaTerm a)).

Record peer_log (G : history) (rf : Raft) : Prop := {
  pl_ok : peer_ok rf;
  pl_index0 : Index0 (log rf) = 0;
  pl_term : 0 <= currentTerm rf;
  pl_coherent : coherent G (Entries (log rf));
  pl_leader : state rf = Leader → Entries (log rf) = G (currentTerm rf);
}.

Record log_inv (G : history) (g : Cluster) : Prop := {
  lv_election : election_inv g;
  lv_peers s rf : servers g !! s = Some rf → peer_log G rf;
  lv_history t : coherent G (G t);
  lv_known t : G t ≠ [] → t = 0 ∨ ∃ s, won_by g t s;
  lv_pos k cp : campaigns g !! k = Some cp → 0 < cpTerm cp;
  lv_calls i call : entryCalls g !! i = Some call → call_ok g G call;
}.

(** ** Framing *)

Definition won_le (g g' : Cluster) : Prop := ∀ t s, won_by g t s → won_by g' t s.

Lemma call_ok_mono g g' G G' call :
  size g' = size g → won_le g g' → grows G G' → call_ok g G call → call_ok g' G' call.
Proof.
  intros Hsz Hw Hg (H1 & H2 & H3 & H4 & H5 & (e & He & Ht) & Hes). unfold call_ok.
  rewrite Hsz. split_and!; auto; try apply H3.
  - exists e. split; [|done]. destruct (Hg (aaTerm (ecArgs call))) as [k ->].
    by apply lookup_app_l_Some.
  - etransitivity; [exact Hes|]. destruct (Hg (aaTerm (ecArgs call))) as [k ->].
    destruct (decide (S (Z.to_nat (PrevLogIndex (ecArgs call))) <=
                      length (G (aaTerm (ecArgs call))))%nat).
    + rewrite drop_app_le by done. by eexists.
    + rewrite (drop_ge (G _)) by lia. apply prefix_nil.
Qed.

Lemma peer_log_grows G G' rf :
  grows G G' → (state rf = Leader → G' (currentTerm rf) = G (currentTerm rf)) →
  peer_log G rf → peer_log G' rf.
Proof.
  intros Hg Hl [H1 H2 H3 H4 H5]. split; [done|done|done|by eapply coherent_grows|].
  intros Hs. rewrite Hl by done. auto.
Qed.

(** A peer took a step that keeps its log and does not make it a leader. *)
Lemma peer_log_same G rf rf' :
  peer_log G rf → peer_ok rf' → log rf' = log rf → currentTerm rf <= currentTerm rf' →
  (state rf' = Leader → state rf = Leader ∧ currentTerm rf' = currentTerm rf) →
  peer_log G rf'.
Proof.
  intros [H1 H2 H3 H4 H5] Hok Hl Ht Hs. split; rewrite ?Hl; try done; [lia|].
  intros [Hs' ->]%Hs. auto.
Qed.

Lemma quiet_terms rf rf' :
  quiet rf rf' → currentTerm rf <= currentTerm rf' ∧
  (state rf' = Leader → state rf = Leader ∧ currentTerm rf' = currentTerm rf).
Proof. intros (_ & _ & [[??]|(?&?&?)]); split; first [lia|done|auto]. Qed.

Lemma log_inv_frame G G' g g' :
  log_inv G g → election_inv g' → size g' = size g → won_le g g' → grows G G' →
  (∀ s rf, servers g' !! s = Some rf → peer_log G' rf) →
  (∀ t, coherent G' (G' t)) → (∀ t, G' t ≠ [] → t = 0 ∨ ∃ s, won_by g' t s) →
  (∀ k cp, campaigns g' !! k = Some cp → 0 < cpTerm cp) →
  (∀ i call, entryCalls g' !! i = Some call →
     (∃ j call0, entryCalls g !! j = Some call0 ∧ ecFrom call = ecFrom call0 ∧
        ecTo call = ecTo call0 ∧ ecArgs call = ecArgs call0) ∨ call_ok g' G' call) →
  log_inv G' g'.
Proof.
  intros [H1 H2 H3 H4 H5 H6] He Hsz Hw Hg Hp Hh Hk Hpos Hc. split; try done.
  intros i call [(j & call0 & Hj & E1 & E2 & E3)|?]%Hc; [|done].
  apply H6 in Hj. eapply call_ok_mono in Hj; [|done|done|done].
  unfold call_ok in *. by rewrite E1, E2, E3.
Qed.

(** The common case: one peer moves, keeps its log, and the calls that are new
    carry slices of the log of a leader. *)
Lemma log_inv_put G g g' s rf rf' :
  log_inv G g → election_inv g' → size g' = size g → won_le g g' →
  servers g !! s = Some rf → servers g' = <[s := rf']> (servers g) →
  peer_log G rf' → (∀ k cp, campaigns g' !! k = Some cp → 0 < cpTerm cp) →
  (∀ i call, entryCalls g' !! i = Some call →
     (∃ j call0, entryCalls g !! j = Some call0 ∧ ecFrom call = ecFrom call0 ∧
        ecTo call = ecTo call0 ∧ ecArgs call = ecArgs call0) ∨ call_ok g' G call) →
  log_inv G g'.
Proof.
  intros Hi He Hsz Hw Hrf Hsv Hpl Hpos Hc. apply (log_inv_frame G G g); try done.
  - by intros t.
  - intros s' r Hs'. rewrite Hsv in Hs'.
    apply lookup_insert_Some in Hs' as [[<- <-]|[_ ?]]; [done|]. by eapply lv_peers.
  - apply (lv_history _ _ Hi).
  - intros t Ht. destruct (lv_known _ _ Hi t Ht) as [|[s' ?]]; [by left|right; eauto].
Qed.

Lemma spawned_ok G g s inc rf out call :
  Forall (spawn_ok rf) out → won_by g (currentTerm rf) s → me rf = s → npeers rf = size g →
  log_ok (log rf) → Index0 (log rf) = 0 → Entries (log rf) = G (currentTerm rf) →
  call ∈ spawned_entries s inc out → call_ok g G call.
Proof.
  intros Hout Hw Hme Hn Hok H0 HG (sp & Hsp & Hcall)%list_elem_of_omap.
  rewrite Forall_forall in Hout. specialize (Hout _ Hsp).
  destruct sp as [p a|p]; [|done]. injection Hcall as <-. unfold call_ok. cbn.
  destruct Hout as (Hne & Hp & Ht & Hl & _ & k & e & Hk & Hprev & Hpt & Hes).
  rewrite H0 in Hprev. rewrite Ht, <- HG, Hprev.
  replace (Z.to_nat (0 + Z.of_nat k)) with k by lia.
  split_and!; try done; try lia.
  - unfold args_ok. rewrite Hprev, Hes.
    replace (0 + Z.of_nat k + 1) with (Index0 (log rf) + Z.of_nat (S k)) by lia.
    by apply consecutive_drop.
  - by exists e.
  - by rewrite Hes.
Qed.

Lemma old_calls (g : Cluster) i call :
  entryCalls g !! i = Some call →
  ∃ j call0, entryCalls g !! j = Some call0 ∧ ecFrom call = ecFrom call0 ∧
    ecTo call = ecTo call0 ∧ ecArgs call = ecArgs call0.
Proof. eauto 10. Qed.

(** The leader of a term is the winner of that term's election. *)
Lemma leader_won g s rf :
  election_inv g → servers g !! s = Some rf → state rf = Leader →
  won_by g (currentTerm rf) s.
Proof.
  intros Hi Hrf Hs. destruct (ei_leaders _ Hi _ _ Hrf Hs) as (k & cp & ? & ? & ? & ?).
  by exists k, cp.
Qed.

Lemma won_unique g t s s' : election_inv g → won_by g t s → won_by g t s' → s = s'.
Proof.
  intros Hi (k & cp & Hk & Hw & Ht & <-) (k' & cp' & Hk' & Hw' & Ht' & <-).
  assert (k = k') as <- by (eapply one_winner; eauto; congruence). congruence.
Qed.

(** ** The steps *)

Lemma won_le_campaigns g g' : campaigns g' = campaigns g → won_le g g'.
Proof. intros E t s (k & cp & Hk & ?). exists k, cp. by rewrite E. Qed.

Lemma app_calls (g : Cluster) es i call :
  (entryCalls g ++ es) !! i = Some call →
  (∃ j call0, entryCalls g !! j = Some call0 ∧ ecFrom call = ecFrom call0 ∧
     ecTo call = ecTo call0 ∧ ecArgs call = ecArgs call0) ∨ call ∈ es.
Proof.
  intros [H|[_ H]]%lookup_app_Some; [left; by eapply old_calls|right].
  by eapply list_elem_of_lookup_2.
Qed.

Lemma update_calls (g : Cluster) i call st j call' :
  entryCalls g !! i = Some call →
  <[i := mkEntryCall (ecFrom call) (ecIncarnation call) (ecTo call) (ecArgs call) st]>
    (entryCalls g) !! j = Some call' →
  ∃ j0 call0, entryCalls g !! j0 = Some call0 ∧ ecFrom call' = ecFrom call0 ∧
    ecTo call' = ecTo call0 ∧ ecArgs call' = ecArgs call0.
Proof.
  intros Hi [(_ & <- & _)|[_ Hj]]%list_lookup_insert_Some; [by exists i, call|by eapply old_calls].
Qed.

Lemma exec_tick_log G s c1 c2 g g' :
  log_inv G g → exec_tick s c1 c2 g = Done g' → election_inv g' → log_inv G g'.
Proof.
  intros Hi H He'. unfold exec_tick in H. exec_inv.
  set (g' := match o with Some el => campaign s el _ | None => _ end) in *.
  destruct (ei_servers _ (lv_election _ _ Hi) _ _ H0) as (Hme & Hn & _ & _).
  destruct (lv_peers _ _ Hi _ _ H0) as [Hok H00 Hpos Hco Hld].
  assert (killed x = false) as Hk.
  { unfold ticker in H1. by destruct (killed x). }
  pose proof (wp_post _ _ _ (ticker_total c1 c2 x Hok Hk) H1) as (Hok' & Hlog & Hout).
  apply ticker_inv in H1 as (rf1 & [Hq _] & Hl1 & Hel).
  apply quiet_terms in Hq as [Ht1 Hs1].
  assert (currentTerm x <= currentTerm r ∧
    (state r = Leader → state x = Leader ∧ currentTerm r = currentTerm x)) as [Ht Hs].
  { destruct o as [el|]; [|by subst].
    apply leaderElection_spec in Hel as (_&_&_&_&->&_&->&_). split; [lia|done]. }
  assert (won_le g g' ∧ ∀ k cp, campaigns g' !! k = Some cp → 0 < cpTerm cp) as [Hw Hposs].
  { subst g'. destruct o as [el|].
    - apply leaderElection_spec in Hel as (_&_&_&_&_&_&_&Hv&_). split.
      + intros t s' (k & cp & Hk' & ?). exists k, cp. split; [|done]. cbn.
        by apply lookup_app_l_Some.
      + intros k cp [[_ Hk']|[-> <-]]%lookup_snoc_Some; [by eapply lv_pos|].
        unfold cpTerm, cpArgs. cbn. lia.
    - split; [by apply won_le_campaigns|apply (lv_pos _ _ Hi)]. }
  eapply (log_inv_put G g g' s x r); try done.
  - subst g'. by destruct o.
  - subst g'. by destruct o.
  - by apply (peer_log_same G x).
  - intros i call Hc. assert ((entryCalls g ++ spawned_entries s (incarnation g s) l)
      !! i = Some call) as Hc' by (subst g'; by destruct o).
    apply app_calls in Hc' as [?|Hin]; [by left|right].
    destruct Hout as [->|[Hst Hout]]; [by apply not_elem_of_nil in Hin|].
    assert (size g' = size g) as Hsz by (subst g'; by destruct o).
    eapply spawned_ok; try done; try apply Hok; [|by rewrite Hsz|by apply Hld].
    apply Hw, leader_won; [apply Hi|done|done].
Qed.

(** Recording a longer log for term [t]. *)
Definition extend (t : Z) (es : list Entry) (G : history) : history :=
  λ t', if decide (t' = t) then es else G t'.

Lemma extend_grows t es G : G t `prefix_of` es → grows G (extend t es G).
Proof. intros H t'. unfold extend. case_decide; by subst. Qed.

Lemma extend_eq t es G : extend t es G t = es.
Proof. unfold extend. by case_decide. Qed.

Lemma extend_ne t t' es G : t' ≠ t → extend t es G t' = G t'.
Proof. unfold extend. by case_decide. Qed.

Lemma log_inv_extend G g g' t s rf es out inc :
  log_inv G g → election_inv g' → size g' = size g → won_le g g' → G t `prefix_of` es →
  coherent (extend t es G) es →
  (∀ s' rf', servers g' !! s' = Some rf' → s' = s ∧ peer_log (extend t es G) rf' ∨
     s' ≠ s ∧ servers g !! s' = Some rf') →
  (∀ k cp, campaigns g' !! k = Some cp → 0 < cpTerm cp) →
  won_by g' t s → Forall (spawn_ok rf) out → me rf = s → npeers rf = size g →
  log_ok (log rf) → Index0 (log rf) = 0 → currentTerm rf = t → Entries (log rf) = es →
  entryCalls g' = entryCalls g ++ spawned_entries s inc out →
  log_inv (extend t es G) g'.
Proof.
  intros Hi He' Hsz Hw Hpre Hco Hsv Hpos Hwon Hout Hme Hn Hok H0 Ht Hes Hcalls.
  pose proof (extend_grows _ _ _ Hpre) as Hg.
  apply (log_inv_frame G _ g); try done.
  - intros s' rf' Hrf'. destruct (Hsv _ _ Hrf') as [[_ ?]|[Hne Hold]]; [done|].
    apply (peer_log_grows G); [done| |by eapply lv_peers].
    intros Hl. apply extend_ne. intros E.
    apply (leader_won g' s' rf' He' Hrf') in Hl. rewrite E in Hl.
    apply Hne. by eapply won_unique.
  - intros t'. destruct (decide (t' = t)) as [->|]; [by rewrite extend_eq|].
    rewrite extend_ne by done. eapply coherent_grows; [done|apply (lv_history _ _ Hi)].
  - intros t'. destruct (decide (t' = t)) as [->|]; [eauto|].
    rewrite extend_ne by done. intros Ht'. destruct (lv_known _ _ Hi t' Ht') as [|[s' ?]]; eauto.
  - intros i call. rewrite Hcalls. intros [?|Hin]%app_calls; [by left|right].
    eapply (spawned_ok _ _ s inc rf); try done; rewrite ?Ht, ?Hsz, ?extend_eq; done.
Qed.

(** Only the logs of terms with a leader in office grow. *)
Definition led (G G' : history) (g : Cluster) : Prop :=
  ∀ t, G' t = G t ∨ ∃ s rf, servers g !! s = Some rf ∧ state rf = Leader ∧ currentTerm rf = t.

Lemma led_refl G g : led G G g.
Proof. by left. Qed.

Lemma led_extend t es G g s rf :
  servers g !! s = Some rf → state rf = Leader → currentTerm rf = t → led G (extend t es G) g.
Proof.
  intros Hs Hl Ht t'. destruct (decide (t' = t)) as [->|]; [right; eauto|left]. by apply extend_ne.
Qed.

Lemma Start_state c cmd rf rf' res out : Start c cmd rf = Done (rf', res, out) → state rf' = state rf.
Proof.
  unfold Start. intros H. go_inv; [done|].
  match goal with H : appendEntries _ _ _ = _ |- _ => by apply appendEntries_frame in H as [->| ->] end.
Qed.

Lemma exec_start_log G s c cmd g g' :
  log_inv G g → exec_start s c cmd g = Done g' → election_inv g' →
  ∃ G', grows G G' ∧ led G G' g' ∧ log_inv G' g'.
Proof.
  intros Hi H He'. unfold exec_start in H. exec_inv.
  destruct (ei_servers _ (lv_election _ _ Hi) _ _ H0) as (Hme & Hn & _ & _).
  destruct (lv_peers _ _ Hi _ _ H0) as [Hok H00 Hpos Hco Hld].
  pose proof (wp_post _ _ _ (Start_total c cmd x Hok) H1) as [Hok' Hcase].
  pose proof (Start_state _ _ _ _ _ _ H1) as Hsr.
  apply Start_tame in H1 as [Hq _]. case_bool_decide as Hst.
  2:{ destruct Hcase as (-> & _ & ->). exists G. split; [by intros t|]. split; [apply led_refl|].
      eapply (log_inv_put G g _ s x x); try done.
      - by apply won_le_campaigns.
      - apply (lv_pos _ _ Hi).
      - cbn. rewrite app_nil_r. intros i call Hc. left. by eapply old_calls. }
  destruct Hcase as (Hlog & _ & Htr & Hout). destruct Hq as (Hmr & Hnr & _).
  set (es := Entries (log r)). set (t := currentTerm x) in *.
  assert (es = G t ++ [mkEntry cmd t (lastIndex (log x) + 1)]) as Hes.
  { subst es. rewrite Hlog. cbn. by rewrite Hld. }
  assert (G t `prefix_of` es) as Hpre by (rewrite Hes; by eexists).
  assert (coherent (extend t es G) es) as Hcoh.
  { intros i e' Hi'. rewrite Hes in Hi'. apply lookup_snoc_Some in Hi' as [[Hlt Hi']|[_ <-]].
    - eapply (take_grows G); [by apply extend_grows|rewrite Hes, length_app; lia|].
      rewrite Hes, take_app_le by lia. by apply (lv_history _ _ Hi).
    - cbn. by rewrite extend_eq. }
  exists (extend t es G). split; [by apply extend_grows|].
  split; [eapply (led_extend _ _ _ _ s r); [apply lookup_insert_eq|congruence|done]|].
  eapply (log_inv_extend G g _ t s r es l); try done; try congruence.
  - by apply won_le_campaigns.
  - cbn. intros s' rf' [[<- <-]|[Hne ?]]%lookup_insert_Some; [left|by right].
    split; [done|]. split; try done.
    + rewrite Hlog. cbn. done.
    + by rewrite Htr.
    + intros _. by rewrite Htr, extend_eq.
  - apply (lv_pos _ _ Hi).
  - apply (won_le_campaigns g); [done|]. by apply leader_won; [apply Hi|..].
  - apply Hok'.
  - by rewrite Hlog.
Qed.

Lemma exec_vote_req_log G i c g g' :
  log_inv G g → exec_vote_req i c g = Done g' → election_inv g' → log_inv G g'.
Proof.
  intros Hi H He'. unfold exec_vote_req in H. exec_inv.
  destruct (lv_peers _ _ Hi _ _ H2) as [Hok H00 Hpos Hco Hld].
  pose proof (wp_post _ _ _ (RequestVote_total c (cpArgs x0) x1 Hok) H3) as [Hok' Hlog].
  eapply (log_inv_put G g _ (vcTo x) x1 r); try done.
  - by apply won_le_campaigns.
  - destruct (VoteGranted r0) eqn:Eg.
    + apply (RequestVote_granted _ _ _ _ _ H3) in Eg as (_&_&_&_&Ht&_&Hc).
      apply (peer_log_same G x1); [by split|done|done| |]; destruct Hc as [[??]|(?&?&_)];
        first [lia|done|intros; split; congruence].
    + apply (RequestVote_refused _ _ _ _ _ H3) in Eg as [[Hq _] _].
      apply quiet_terms in Hq as [??]. apply (peer_log_same G x1); done.
  - apply (lv_pos _ _ Hi).
  - intros j call Hj. left. by eapply old_calls.
Qed.

(** A campaign that is only now won is the first of its term to be won, so there is
    no leader's log of that term yet. *)
Lemma fresh_term G g g' k cp0 cp :
  log_inv G g → election_inv g' → campaigns g !! k = Some cp0 → cpWon cp0 = false →
  campaigns g' = <[k := cp]> (campaigns g) → cpWon cp = true → 0 < cpTerm cp → G (cpTerm cp) = [].
Proof.
  intros Hi He' Hk0 Hw0 Ecs Hw Hpos. destruct (decide (G (cpTerm cp) = [])) as [|Hne]; [done|exfalso].
  assert (campaigns g' !! k = Some cp) as Hk.
  { rewrite Ecs, list_lookup_insert_eq; [done|]. by eapply lookup_lt_Some. }
  destruct (lv_known _ _ Hi _ Hne) as [Ht|(s & k' & cp' & Hk' & Hwon & Ht & Ho)]; [lia|].
  destruct (decide (k = k')) as [<-|Hne']; [congruence|].
  apply Hne'. eapply (one_winner g' _ _ _ cp' He' Hk); [|done|done|congruence].
  by rewrite Ecs, list_lookup_insert_ne.
Qed.

(** An answer changes what a campaign has won, not what it is. *)
Lemma campaign_reply g g' k0 cp0 e :
  campaigns g !! k0 = Some cp0 → campaigns g' = <[k0 := mkCampaign e (cpIncarnation cp0)]> (campaigns g) →
  elArgs e = elArgs (cpElection cp0) → (becomeLeader (cpElection cp0) = true → becomeLeader e = true) →
  (∀ k cp, campaigns g' !! k = Some cp → ∃ cp1, campaigns g !! k = Some cp1 ∧ cpTerm cp = cpTerm cp1) ∧ won_le g g'.
Proof.
  intros H0 Ecs Hargs Hmono. pose proof (lookup_lt_Some _ _ _ H0) as Hlt. split.
  - intros k cp. rewrite Ecs. intros [(<- & <- & _)|[_ Hk]]%list_lookup_insert_Some; [|eauto].
    exists cp0. unfold cpTerm, cpArgs. cbn. by rewrite Hargs.
  - intros t s (k & cp & Hk & Hwon & Ht & Ho). destruct (decide (k0 = k)) as [<-|Hne].
    + assert (cp = cp0) as -> by congruence. exists k0, (mkCampaign e (cpIncarnation cp0)).
      rewrite Ecs, list_lookup_insert_eq by done. unfold cpWon, cpTerm, cpOwner, cpArgs in *.
      cbn. rewrite Hargs. auto.
    + exists k, cp. by rewrite Ecs, list_lookup_insert_ne.
Qed.

Lemma exec_vote_reply_log G i c g g' :
  log_inv G g → exec_vote_reply i c g = Done g' → election_inv g' →
  ∃ G', grows G G' ∧ led G G' g' ∧ log_inv G' g'.
Proof.
  intros Hi H He'. unfold exec_vote_reply in H. exec_inv.
  destruct (ei_servers _ (lv_election _ _ Hi) _ _ H2) as (Hme & Hn & _ & _).
  pose proof (lv_peers _ _ Hi _ _ H2) as Hpl. destruct Hpl as [Hok H00 Hpos Hco Hld] eqn:E; clear E.
  pose proof (wp_post _ _ _ (candidateRequest_total c (cpElection x0) r x1 Hok) H4)
    as (Hok' & Hlog & Hout).
  apply candidateRequest_spec in H4 as (_ & Hmr & Hnr & _ & _ & Hterm & Hargs & _ & _ & Hmono & Hlead & Hwin).
  set (g' := spawn _ _ _) in *.
  assert (Hlt := lookup_lt_Some _ _ _ H1).
  destruct (campaign_reply g g' (vcCampaign x) x0 e H1 eq_refl Hargs Hmono) as [Hcs Hw].
  assert (∀ k cp, campaigns g' !! k = Some cp → 0 < cpTerm cp) as Hpos'.
  { intros k cp (cp0 & Hk & ->)%Hcs. by eapply lv_pos. }
  destruct (becomeLeader (cpElection x0)) eqn:Eb; [|destruct (becomeLeader e) eqn:Eb'].
  1,3: exists G; split; [by intros t|]; split; [apply led_refl|]; eapply (log_inv_put G g g' (cpOwner x0) x1 r0); try done;
    [apply (peer_log_same G x1); try done; intros [?|(_&?&?)]%Hlead; done || congruence|];
    intros j call Hj; destruct Hout as [->|(_&?&?)]; [|congruence..];
    left; eapply old_calls; cbn in Hj; by rewrite app_nil_r in Hj.
  destruct (Hwin eq_refl eq_refl) as [Hst Htr]. set (t := vaTerm (elArgs (cpElection x0))) in *.
  assert (cpTerm (mkCampaign e (cpIncarnation x0)) = t) as Ht0.
  { unfold cpTerm, cpArgs. cbn. by rewrite Hargs. }
  assert (campaigns g' !! vcCampaign x = Some (mkCampaign e (cpIncarnation x0))) as Hk0.
  { cbn. by rewrite list_lookup_insert_eq. }
  assert (G t = []) as Hnil.
  { rewrite <- Ht0. by eapply (fresh_term G g g'); [..|apply (Hpos' _ _ Hk0)]. }
  exists (extend t (Entries (log x1)) G).
  split; [apply extend_grows; rewrite Hnil; apply prefix_nil|].
  split; [eapply (led_extend _ _ _ _ (cpOwner x0) r0); [apply lookup_insert_eq|done|done]|].
  eapply (log_inv_extend G g g' t (cpOwner x0) r0 _ l); try done.
  - rewrite Hnil. apply prefix_nil.
  - eapply coherent_grows; [apply extend_grows; rewrite Hnil; apply prefix_nil|done].
  - cbn. intros s' rf' [[<- <-]|[Hne ?]]%lookup_insert_Some; [left|by right].
    split; [done|]. split; rewrite ?Hlog; try done; [lia| |].
    + eapply coherent_grows; [apply extend_grows; rewrite Hnil; apply prefix_nil|done].
    + intros _. by rewrite Htr, extend_eq.
  - exists (vcCampaign x), (mkCampaign e (cpIncarnation x0)). split_and!; try done.
    unfold cpOwner, cpArgs. cbn. by rewrite Hargs.
  - destruct Hout as [->|[? _]]; [constructor|done].
  - congruence.
  - congruence.
  - apply Hok'.
  - by rewrite Hlog.
  - by rewrite Hlog.
Qed.

Lemma exec_entry_req_log G i c g g' :
  log_inv G g → exec_entry_req i c g = Done g' → election_inv g' → log_inv G g'.
Proof.
  intros Hi H He'. unfold exec_entry_req in H. exec_inv.
  destruct (lv_peers _ _ Hi _ _ H1) as [Hok H00 Hpos Hco Hld].
  destruct (lv_calls _ _ Hi _ _ H0) as (Hwon & Hne & _ & Hp & Hargs & (e & He & Hte) & Hes).
  pose proof (wp_post _ _ _ (AppendEntries_total c (ecArgs x) x0 Hok H00 Hargs) H2)
    as (Hok' & Hrt & Hres).
  pose proof (AppendEntries_tame _ _ _ _ _ H2) as [Hq _]. apply quiet_terms in Hq as [Ht Hs].
  set (g' := set_entryCalls _ _) in *.
  assert (won_le g g') as Hw by (by apply won_le_campaigns).
  assert (peer_log G r) as Hpl.
  { destruct (Success a); [|destruct Hres as [? _]; by apply (peer_log_same G x0)].
    destruct Hres as (Hle & Hta & (_ & e0 & He0 & Hte0) & Hlog). rewrite H00, Z.sub_0_r in He0.
    assert (Entries (log r) = Entries (log x0) ∨
            ∃ n, Entries (log r) = take n (G (aaTerm (ecArgs x)))) as Hcase.
    { rewrite Hlog. cbn. rewrite H00.
      replace (Z.to_nat (PrevLogIndex (ecArgs x) + 1 - 0))
        with (S (Z.to_nat (PrevLogIndex (ecArgs x)))) by lia.
      eapply merge_coherent; [done|apply (lv_history _ _ Hi)|done| |done].
      exists e. split; [done|congruence]. }
    split; [done|by rewrite Hlog|lia| |].
    - destruct Hcase as [->|[n ->]]; [done|]. apply coherent_take, (lv_history _ _ Hi).
    - intros Hlead. exfalso. apply Hne. destruct (Hs Hlead) as [Hlead0 Heq].
      eapply won_unique; [apply (lv_election _ _ Hi)|exact Hwon|].
      rewrite <- Hta, Heq. by apply (leader_won g _ x0 (lv_election _ _ Hi)). }
  eapply (log_inv_put G g g' (ecTo x) x0 r); try done.
  - apply (lv_pos _ _ Hi).
  - intros j call Hj. left. by apply (update_calls g i x (Replied a) j call H0).
Qed.

Lemma exec_entry_reply_log G i g g' :
  log_inv G g → exec_entry_reply i g = Done g' → election_inv g' → log_inv G g'.
Proof.
  intros Hi H He'. unfold exec_entry_reply in H. exec_inv.
  pose proof (leaderSendEntries_tame _ _ _ _ _ H3) as [[Hq _] Hlog].
  destruct (ei_servers _ (lv_election _ _ Hi) _ _ H1) as (_ & Hn & _ & _).
  destruct (lv_peers _ _ Hi _ _ H1) as [Hok H00 Hpos Hco Hld].
  destruct (lv_calls _ _ Hi _ _ H0) as (_ & _ & Hr & _). rewrite <- Hn in Hr.
  pose proof (wp_post _ _ _ (leaderSendEntries_total _ _ _ _ Hok H00 Hr) H3) as [Hok' _].
  apply quiet_terms in Hq as [Ht Hs].
  eapply (log_inv_put G g _ (ecFrom x) x0 x2); try done.
  - by apply won_le_campaigns.
  - apply (peer_log_same G x0); done.
  - apply (lv_pos _ _ Hi).
  - intros j call Hj. left. by apply (update_calls g i x (Finished r) j call H0).
Qed.

Lemma exec_apply_log G s g g' :
  log_inv G g → exec_apply s g = Done g' → election_inv g' → log_inv G g'.
Proof.
  intros Hi H He'. unfold exec_apply in H. exec_inv.
  destruct (lv_peers _ _ Hi _ _ H0) as [Hok H00 Hpos Hco Hld].
  destruct (LoopCommit_awake _ _ H1) as [Hk Hwt].
  pose proof (wp_post _ _ _ (LoopCommit_total x Hok Hk Hwt) H1) as (Hok' & Hlog & _).
  apply LoopCommit_tame in H1 as [[Hq _] _]. apply quiet_terms in Hq as [Ht Hs].
  eapply (log_inv_put G g _ s x r); try done; try by destruct o.
  - apply won_le_campaigns. by destruct o.
  - apply (peer_log_same G x); done.
  - destruct o; apply (lv_pos _ _ Hi).
  - intros j call Hj. left. apply (old_calls g j). by destruct o.
Qed.

Lemma exec_restart_log G s c g g' :
  log_inv G g → exec_restart s c g = Done g' → election_inv g' → log_inv G g'.
Proof.
  intros Hi H He'. unfold exec_restart in H. exec_inv.
  destruct (ei_servers _ (lv_election _ _ Hi) _ _ H0) as (Hme & Hn & Hr & Hst).
  destruct (lv_peers _ _ Hi _ _ H0) as [Hok H00 Hpos Hco Hld].
  destruct (Make_recovers (size g) c x Hst)
    as (rf' & Hmk & E1 & E2 & _ & E3 & _ & E4 & E5 & E6 & E7 & E8 & E9).
  rewrite Hme in Hmk. replace (Copy (persister x)) with (persister x) in H1
    by (by destruct (persister x)).
  assert (rf' = x0) as -> by congruence.
  eapply (log_inv_put G g _ s x x0); try done.
  - by apply won_le_campaigns.
  - apply (peer_log_same G x); [done| |done|lia|congruence].
    destruct Hok. split; rewrite ?E1, ?E2, ?E4; try lia. done.
  - apply (lv_pos _ _ Hi).
  - intros j call Hj. left. by apply (old_calls g j).
Qed.

Lemma exec_log_inv G l g g' :
  plain l → log_inv G g → exec l g = Done g' → ∃ G', grows G G' ∧ led G G' g' ∧ log_inv G' g'.
Proof.
  intros Hl Hi H. assert (grows G G) as Hrefl by (by intros t). pose proof (led_refl G g') as Hled.
  assert (election_inv g') as He'.
  { eapply exec_election_inv; [by apply plain_no_install|apply Hi|done]. }
  destruct l; cbn in H, Hl; try done.
  - exists G; split; [done|]; split; [done|]; by eapply exec_tick_log.
  - by eapply exec_start_log.
  - exists G; split; [done|]; split; [done|]; by eapply exec_vote_req_log.
  - by eapply exec_vote_reply_log.
  - exists G; split; [done|]; split; [done|]; by eapply exec_entry_req_log.
  - exists G; split; [done|]; split; [done|]; by eapply exec_entry_reply_log.
  - exists G; split; [done|]; split; [done|]; by eapply exec_apply_log.
  - exists G; split; [done|]; split; [done|]; by eapply exec_restart_log.
Qed.

Lemma makeServers_fresh n c ids m :
  (∀ i, i ∈ ids → 0 <= i < n) → makeServers n c ids = Done m →
  ∀ s rf, m !! s = Some rf → peer_ok rf ∧ log rf = initLog ∧ currentTerm rf = 0 ∧
    state rf = Follower.
Proof.
  revert m. induction ids as [|i ids IH]; intros m Hids Hmk s rf Hs; cbn in Hmk; go_inv; [done|].
  apply lookup_insert_Some in Hs as [[<- <-]|[_ Hs]].
  - assert (0 <= i < n) as Hi by (apply Hids; by left).
    unfold Make, ReadRaftState in H. cbn in H. go_inv. cbn.
    split_and!; try done. split; cbn; rewrite ?length_replicate; try lia.
    split; cbn; [done|]. intros [|j] e Hj; cbn in Hj; [by injection Hj as <-|done].
  - eapply IH; [|eassumption|eassumption]. intros j Hj. apply Hids. by right.
Qed.

(** Before the first election: every log is the one [Make] starts with. *)
Definition initHistory : history := λ t, if decide (t = 0) then Entries initLog else [].

Lemma log_inv_init n c g : initCluster n c = Done g → log_inv initHistory g.
Proof.
  intros H. assert (coherent initHistory (Entries initLog)) as Hc.
  { intros [|i] e Hi; cbn in Hi; [by injection Hi as <-|done]. }
  pose proof (election_inv_init _ _ _ H) as He. unfold initCluster in H. go_inv.
  split; cbn; try done.
  - intros s rf Hs. eapply makeServers_fresh in Hs as (? & Hl & Ht & Hf); [| |eassumption].
    + split; rewrite ?Hl, ?Ht, ?Hf; done.
    + intros i Hi%elem_of_seqZ. lia.
  - intros t. unfold initHistory at 2. case_decide; [done|]. intros i e Hi. by rewrite lookup_nil in Hi.
  - intros t. unfold initHistory. case_decide; [by left|done].
Qed.

Lemma reach_log_inv n g : reach plain n g → ∃ G, log_inv G g.
Proof.
  apply (reach_invariant plain n (λ g, ∃ G, log_inv G g)); [eauto using log_inv_init|].
  intros l g1 g2 Hl [G Hi] H. destruct (exec_log_inv G l g1 g2 Hl Hi H) as (G' & _ & _ & ?). eauto.
Qed.

(** ** No step panics *)

Definition safe {A} (m : outcome A) : Prop := m ≠ Panicked.

Lemma safe_wp {A} (m : outcome A) Q : wp m Q → safe m.
Proof. unfold safe. by destruct m. Qed.

Lemma safe_bind {A B} (m : outcome A) (f : A → outcome B) :
  safe m → (∀ a, m = Done a → safe (f a)) → safe (m ≫= f).
Proof. unfold safe. destruct m; cbn; auto. Qed.

Lemma safe_get {A} (o : option A) : safe (get o).
Proof. by destruct o. Qed.

Lemma safe_guard b : safe (guard_ b).
Proof. by destruct b. Qed.

Lemma killed_cases rf : killed rf = true ∨ killed rf = false.
Proof. destruct (killed rf); auto. Qed.

Lemma exec_safe G l g : plain l → log_inv G g → safe (exec l g).
Proof.
  intros Hl Hi. destruct l; cbn in Hl |- *; try done;
    (apply safe_bind; [apply safe_get|]; intros x Hx; apply get_Done in Hx).
  - apply safe_bind; [|by intros [[??]?] _].
    destruct (killed_cases x) as [E|E]; [unfold ticker; by rewrite E|].
    eapply safe_wp, ticker_total; [by eapply lv_peers|done].
  - apply safe_bind; [|by intros [[??]?] _]. eapply safe_wp, Start_total. by eapply lv_peers.
  - destruct (vcStatus x); try done.
    apply safe_bind; [apply safe_get|]; intros cp _.
    apply safe_bind; [apply safe_get|]; intros rf Hrf%get_Done.
    apply safe_bind; [|by intros [??] _]. eapply safe_wp, RequestVote_total. by eapply lv_peers.
  - destruct (vcStatus x); try done.
    apply safe_bind; [apply safe_get|]; intros cp _.
    apply safe_bind; [apply safe_get|]; intros rf Hrf%get_Done.
    apply safe_bind; [apply safe_guard|]; intros _ _.
    apply safe_bind; [|by intros [[??]?] _].
    eapply safe_wp, candidateRequest_total. by eapply lv_peers.
  - destruct (ecStatus x); try done.
    apply safe_bind; [apply safe_get|]; intros rf Hrf%get_Done.
    apply safe_bind; [|by intros [??] _].
    destruct (lv_peers _ _ Hi _ _ Hrf). destruct (lv_calls _ _ Hi _ _ Hx) as (_&_&_&_&?&_).
    by eapply safe_wp, AppendEntries_total.
  - destruct (ecStatus x); try done.
    apply safe_bind; [apply safe_get|]; intros rf Hrf%get_Done.
    apply safe_bind; [apply safe_guard|]; intros _ _.
    apply safe_bind; [|by intros ? _].
    destruct (lv_peers _ _ Hi _ _ Hrf). destruct (lv_calls _ _ Hi _ _ Hx) as (_&_&?&_).
    destruct (ei_servers _ (lv_election _ _ Hi) _ _ Hrf) as (_ & Hn & _).
    eapply safe_wp, leaderSendEntries_total; [done|done|by rewrite Hn].
  - apply safe_bind; [|by intros [??] _].
    destruct (killed x || applyWaiting x) eqn:E; [unfold LoopCommit; by rewrite E|].
    apply orb_false_iff in E as [??]. eapply safe_wp, LoopCommit_total; [by eapply lv_peers|done..].
  - apply safe_bind; [|by intros ? _].
    destruct (ei_servers _ (lv_election _ _ Hi) _ _ Hx) as (Hme & _ & _ & Hst).
    replace (Copy (persister x)) with (persister x) by (by destruct (persister x)).
    destruct (Make_recovers (size g) c x Hst) as (rf' & Hmk & _). rewrite Hme in Hmk.
    by rewrite Hmk.
Qed.
End matching.
