(* ===== verification/RaftDurable.v ===== *)
(** * Durability and monotonicity, for every step of a cluster

    Whatever the steps, snapshots and crashes included, one step changes one
    peer, by one of its methods; that peer's persister again decodes to its
    term, vote and log, and its term has not decreased. *)

From stdpp Require Import base list numbers gmap strings.
From Stdlib Require Import Lia.
From S2P Require Import Prelude RaftLog Persister RaftCore RaftLocal RaftCluster RaftElection.

Section durable.
Context `{laws : !RaftCodecLaws codec}.

Definition advances (rf rf' : Raft) : Prop :=
  me rf' = me rf ∧ npeers rf' = npeers rf ∧ (stable rf → stable rf') ∧
  currentTerm rf <= currentTerm rf'.

#[export] Instance advances_preorder : PreOrder advances.
Proof.
  split; unfold advances.
  - intros rf. split_and!; done.
  - intros x y z (?&?&?&?) (?&?&?&?). split_and!; [congruence|congruence|auto|lia].
Qed.

Lemma tame_advances rf rf' : tame rf rf' → advances rf rf' ∧ ballot_le rf rf'.
Proof.
  intros [Hq Hst]. split; [|by apply quiet_ballot_le].
  destruct Hq as (?&?&[[??]|(?&?)]); split_and!; (done || lia).
Qed.

Lemma RequestVote_advances c args rf rf' reply :
  RequestVote c args rf = Done (rf', reply) → 0 <= CandidateId args →
  advances rf rf' ∧ ballot_le rf rf'.
Proof.
  intros H Hc. destruct (VoteGranted reply) eqn:Hg.
  - apply RequestVote_granted in H as (?&?&?&?&?&?&Hv); [|done]. unfold advances.
    split; [split_and!; (done || lia)|].
    intros t d Hd [Hlt|[-> E]]; destruct Hv as [[? _]|(?&_&[?|?])];
      first [left; lia|right; split; [lia|congruence]|lia].
  - apply RequestVote_refused in H as [? _]; [|done]. by apply tame_advances.
Qed.

Lemma leaderElection_advances c rf rf' el :
  leaderElection c rf = Done (rf', el) → advances rf rf' ∧ ballot_le rf rf'.
Proof.
  intros (?&?&?&?&?&?&_)%leaderElection_spec. unfold advances.
  split; [split_and!; (done || lia)|]. intros t d _ [?|[-> _]]; left; lia.
Qed.

(** ** One step, one peer *)

Record durable (g : Cluster) : Prop := {
  du_peers s rf : servers g !! s = Some rf → me rf = s ∧ npeers rf = size g ∧ stable rf;
  du_campaigns k cp : campaigns g !! k = Some cp → is_Some (servers g !! cpOwner cp);
  du_range s : is_Some (servers g !! s) → 0 <= s < size g;
}.

Definition moves (l : Label) (g g' : Cluster) : Prop :=
  size g' = size g ∧
  (∀ k cp, campaigns g' !! k = Some cp → is_Some (servers g !! cpOwner cp)) ∧
  ∃ s rf rf', servers g !! s = Some rf ∧ servers g' = <[s := rf']> (servers g) ∧
    advances rf rf' ∧ (no_install l → ballot_le rf rf').

Lemma moves_tame l g g' s rf rf' :
  durable g → servers g !! s = Some rf → tame rf rf' → size g' = size g →
  campaigns g' = campaigns g → servers g' = <[s := rf']> (servers g) → moves l g g'.
Proof.
  intros Hd Hs [Ha Hb]%tame_advances Hsz Hc Hsv. split; [done|]. rewrite Hc.
  split; [apply Hd|]. by exists s, rf, rf'.
Qed.

Lemma moves_durable l g g' : durable g → moves l g g' → durable g'.
Proof.
  intros [Hp Hc Hr] (Hsz & Hcs & s & rf & rf' & Hs & Hsv & (?&?&?&?) & _).
  destruct (Hp _ _ Hs) as (?&?&?).
  assert (∀ x, is_Some (servers g' !! x) ↔ is_Some (servers g !! x)) as Hdom.
  { intros x. rewrite Hsv, lookup_insert_is_Some'. split; [intros [<-|?]; [by eexists|done]|auto]. }
  split.
  - intros s' rf1. rewrite Hsv, Hsz. intros [[<- <-]|[_ ?]]%lookup_insert_Some; [|auto].
    split_and!; [congruence|congruence|auto].
  - intros k cp Hk. apply Hdom. eauto.
  - intros x Hx. rewrite Hsz. by apply Hr, Hdom.
Qed.

Lemma exec_tick_moves s c1 c2 g g' :
  durable g → exec_tick s c1 c2 g = Done g' → moves (LTick s c1 c2) g g'.
Proof.
  intros Hd H. unfold exec_tick in H. exec_inv.
  apply ticker_inv in H1 as (rf1 & [Ha Hb]%tame_advances & _ & Hel).
  destruct (du_peers _ Hd _ _ H0) as (Hme & _). destruct o as [el|].
  - pose proof (leaderElection_advances _ _ _ _ Hel) as [Ha' Hb'].
    apply leaderElection_spec in Hel as (_&_&_&_&_&_&_&_&Hid&_).
    split; [done|]. split.
    + intros k cp [[_ Hk]|[-> <-]]%lookup_snoc_Some; [by apply (du_campaigns _ Hd k)|].
      unfold cpOwner, cpArgs. cbn. rewrite Hid. destruct Ha as (-> & _). rewrite Hme. by eexists.
    + exists s, x, r. split_and!; try done; [by etransitivity|].
      intros _ t d ? ?. by apply Hb', Hb.
  - rewrite Hel. split; [done|]. split; [apply Hd|]. by exists s, x, rf1.
Qed.

Lemma exec_vote_reply_moves i c g g' :
  durable g → exec_vote_reply i c g = Done g' → moves (LVoteReply i c) g g'.
Proof.
  intros Hd H. unfold exec_vote_reply in H. exec_inv.
  apply candidateRequest_spec in H4 as (?&?&?&_&?&?&Hargs&_).
  split; [done|]. split; [|by exists (cpOwner x0), x1, r0].
  intros k cp [(_ & <- & _)|[_ Hk]]%list_lookup_insert_Some; [|by apply (du_campaigns _ Hd k)].
  unfold cpOwner, cpArgs in *. cbn. rewrite Hargs. by eexists.
Qed.

Lemma exec_moves l g g' : durable g → exec l g = Done g' → moves l g g'.
Proof.
  intros Hd H. destruct l; cbn in H.
  - by apply exec_tick_moves.
  - unfold exec_start in H. exec_inv. apply Start_tame in H1. by eapply moves_tame.
  - unfold exec_vote_req in H. exec_inv.
    assert (0 <= cpOwner x0) by (apply (du_range _ Hd), (du_campaigns _ Hd _ _ H1)).
    apply RequestVote_advances in H3 as [Ha Hb]; [|done].
    split; [done|]. split; [apply Hd|]. by exists (vcTo x), x1, r.
  - by apply exec_vote_reply_moves.
  - unfold exec_entry_req in H. exec_inv. apply AppendEntries_tame in H2. by eapply moves_tame.
  - unfold exec_entry_reply in H. exec_inv. apply leaderSendEntries_tame in H3 as [H3 _].
    by eapply moves_tame.
  - unfold exec_snap_send in H. exec_inv. eapply moves_tame; try done. cbn.
    symmetry. by apply insert_id.
  - unfold exec_snap_req in H. exec_inv.
    match goal with E : InstallSnapShot _ _ = _ |- _ =>
      apply InstallSnapShot_spec in E as (?&?&?&_&?) end.
    split; [by destruct o|]. split; [destruct o; apply Hd|].
    exists (scTo x), x0, r. split_and!; (done || by destruct o).
  - unfold exec_snap_reply in H. exec_inv. apply SendSnapshot_reply_tame in H3 as [H3 _].
    by eapply moves_tame.
  - unfold exec_apply in H. exec_inv. apply LoopCommit_tame in H1 as [H1 _].
    by destruct o; eapply moves_tame.
  - unfold exec_snapshot in H. exec_inv. apply Snapshot_tame in H1. by eapply moves_tame.
  - unfold exec_cond_install in H. exec_inv. apply CondInstallSnapshot_tame in H1.
    by eapply moves_tame.
  - unfold exec_restart in H. exec_inv. destruct (du_peers _ Hd _ _ H0) as (?&?&?).
    eapply restart_tame in H1 as [H1 _]; [|done..]. by eapply moves_tame.
Qed.

Lemma durable_init n c g : initCluster n c = Done g → durable g.
Proof.
  intros H. pose proof (election_inv_init _ _ _ H) as Hi.
  assert (campaigns g = []) as E by (unfold initCluster in H; by go_inv).
  split.
  - intros s rf Hs. by destruct (ei_servers _ Hi _ _ Hs) as (?&?&_&?).
  - rewrite E. intros k cp Hk. by rewrite lookup_nil in Hk.
  - intros s [rf Hs]. by destruct (ei_servers _ Hi _ _ Hs) as (_&_&?&_).
Qed.

Lemma reach_durable allowed n g : reach allowed n g → durable g.
Proof.
  apply reach_invariant; [apply durable_init|].
  intros l g1 g2 _ Hd H. eapply moves_durable; [done|by apply exec_moves].
Qed.

(** ** Runs *)

Lemma run_peer ls g g' s rf :
  durable g → run ls g = Done g' → servers g !! s = Some rf →
  ∃ rf', servers g' !! s = Some rf' ∧ advances rf rf' ∧
    (Forall no_install ls → ballot_le rf rf').
Proof.
  revert g rf. induction ls as [|l ls IH]; intros g rf Hd H Hs; cbn in H; go_inv.
  { exists rf. split_and!; [done|reflexivity|by intros _ t d]. }
  pose proof (exec_moves _ _ _ Hd H0) as Hm. pose proof (moves_durable _ _ _ Hd Hm) as Hd'.
  destruct Hm as (_ & _ & s0 & r0 & r0' & Hs0 & Hsv & Ha & Hb).
  assert (∃ rf1, servers x !! s = Some rf1 ∧ advances rf rf1 ∧ (no_install l → ballot_le rf rf1))
    as (rf1 & Hs1 & Ha1 & Hb1).
  { rewrite Hsv. destruct (decide (s0 = s)) as [<-|].
    - rewrite lookup_insert_eq. assert (r0 = rf) as -> by congruence. eauto.
    - rewrite lookup_insert_ne by done. exists rf. split_and!; [done|reflexivity|by intros _ t d]. }
  destruct (IH x rf1 Hd' H Hs1) as (rf' & ? & ? & Hb2). exists rf'.
  split_and!; [done|by transitivity rf1|].
  intros [??]%Forall_cons t d ? ?. apply Hb2; auto. by apply Hb1.
Qed.

End durable.
