(* ===== verification/RaftHistory.v ===== *)
(** * What was voted and acknowledged

    For runs without snapshots.  Besides the logs [G] of the leaders
    (RaftMatching.v) a second history variable [V] keeps the log a peer had when
    it voted in a term.  A peer that acknowledged the log of a leader up to an
    index still has it when it votes in a later term, unless a leader elected in
    between did not have it ([lost]).  This needs no majority, so that it is an
    invariant step by step; RaftAgree.v combines it with majorities. *)

From stdpp Require Import base list numbers gmap strings.
From Stdlib Require Import Lia.
From S2P Require Import Prelude RaftLog Persister RaftCore RaftLocal RaftCluster.
From S2P Require Import RaftElection RaftTotal RaftMatching.

(** ** Merging keeps what both logs have *)

Lemma take_prefix {A} (l : list A) n : take n l `prefix_of` l.
Proof. exists (drop n l). by rewrite take_drop. Qed.

Lemma prefix_take {A} (b l : list A) n : b `prefix_of` l → (length b <= n)%nat → b `prefix_of` take n l.
Proof. intros [k ->] Hn. rewrite take_app_ge by done. by eexists. Qed.

Lemma prefix_take_eq {A} (b l : list A) : b `prefix_of` l ↔ take (length b) l = b.
Proof.
  split; [intros [k ->]; by rewrite take_app_length|]. intros <-. apply take_prefix.
Qed.

Lemma prefix_lookup_eq {A} (b l : list A) i : b `prefix_of` l → (i < length b)%nat → l !! i = b !! i.
Proof. intros [k ->] Hi. by rewrite lookup_app_l. Qed.

Lemma prefix_take_le {A} (l : list A) n m : (n <= m)%nat → take n l `prefix_of` take m l.
Proof. intros Hn. replace (take n l) with (take n (take m l)); [apply take_prefix|]. by rewrite take_take, Nat.min_l. Qed.

(** [merge] up to the first conflict, with the conflict. *)
Lemma merge_conflict own k es :
  (k <= length own)%nat →
  merge own k es = own ∨
  ∃ j e, es !! j = Some e ∧ (k + j <= length own)%nat ∧ merge own k es = take (k + j) own ++ drop j es ∧
    (∀ e', own !! (k + j)%nat = Some e' → Term e' ≠ Term e).
Proof.
  revert k. induction es as [|e es IH]; intros k Hk; cbn [merge]; [by left|].
  destruct (own !! k) as [e'|] eqn:E.
  2:{ right. exists 0%nat, e. apply lookup_ge_None in E. rewrite Nat.add_0_r, take_ge by lia.
      split_and!; [done|lia|done|]. intros e'. rewrite lookup_ge_None_2; done. }
  destruct (Z.eqb_spec (Term e') (Term e)) as [Ht|Ht].
  2:{ right. exists 0%nat, e. rewrite Nat.add_0_r. split_and!; [done|lia|done|]. congruence. }
  apply lookup_lt_Some in E.
  destruct (IH (S k) ltac:(lia)) as [->|(j & x & Hj & Hl & -> & Hc)]; [by left|].
  right. exists (S j), x. rewrite <- Nat.add_succ_comm. split_and!; done.
Qed.

Lemma merge_keeps own k es L B :
  (k <= length own)%nat → es `prefix_of` drop k L → B `prefix_of` own → B `prefix_of` L →
  B `prefix_of` merge own k es.
Proof.
  intros Hk Hes Ho HL. destruct (merge_conflict own k es Hk) as [->|(j & e & Hj & Hl & -> & Hc)]; [done|].
  destruct (decide (length B <= k + j)%nat) as [Hb|Hb].
  { by apply prefix_app_r, prefix_take. }
  destruct (lookup_lt_is_Some_2 B (k + j)%nat) as [b Hb']; [lia|]. exfalso.
  apply (Hc b); [eapply prefix_lookup_Some; eassumption|].
  assert (L !! (k + j)%nat = Some e) as HLe.
  { rewrite <- lookup_drop. eapply prefix_lookup_Some; eassumption. }
  assert (L !! (k + j)%nat = Some b) by (eapply prefix_lookup_Some; eassumption). congruence.
Qed.

(** After a successful AppendEntries the receiver has everything that was sent. *)
Lemma merge_has G t own (p : nat) e es :
  coherent G own → coherent G (G t) →
  own !! p = Some e → (∃ e', G t !! p = Some e' ∧ Term e' = Term e) →
  es `prefix_of` drop (S p) (G t) →
  take (S (p + length es)) (G t) `prefix_of` merge own (S p) es.
Proof.
  intros Hown Hgt Hp (e' & Hp' & Ht) Hes. pose proof (lookup_lt_Some _ _ _ Hp) as Hlt.
  assert (take (S p) own = take (S p) (G t)) as E by (by eapply coherent_agree).
  destruct (merge_cases own (S p) es) as [(-> & Hl & Hm)|(j & Hj & Hl & -> & Hm)]; [lia| |].
  - destruct (decide (es = [])) as [->|Hne].
    { cbn. rewrite Nat.add_0_r, <- E. apply take_prefix. }
    destruct (lookup_lt_is_Some_2 es (length es - 1)) as [x Hx]; [destruct es; cbn; lia || done|].
    destruct (Hm _ _ Hx) as (x' & Hx' & Htx). pose proof (lookup_lt_Some _ _ _ Hx).
    assert (G t !! (S p + (length es - 1))%nat = Some x) as Hgx.
    { rewrite <- lookup_drop. eapply prefix_lookup_Some; eassumption. }
    replace (S (p + length es)) with (S (S p + (length es - 1))) by lia.
    rewrite <- (coherent_agree G own (G t) _ x' x); try done. apply take_prefix.
  - assert (take (S p + j) own = take (S p + j) (G t)) as ->.
    { destruct j as [|j]; [by rewrite Nat.add_0_r|].
      destruct (lookup_lt_is_Some_2 es j) as [x Hx]; [lia|].
      destruct (Hm j x) as (x' & Hx' & Htx); [lia|done|].
      assert (G t !! (S p + j)%nat = Some x) as Hgx.
      { rewrite <- lookup_drop. eapply prefix_lookup_Some; eassumption. }
      replace (S p + S j)%nat with (S (S p + j)) by lia. by eapply coherent_agree. }
    destruct Hes as [rest Hes].
    assert (drop j es = take (length es - j) (drop (S p + j) (G t))) as ->.
    { rewrite <- drop_drop, Hes, drop_app_le by lia. rewrite take_app_le, take_ge; rewrite ?length_drop; lia || done. }
    rewrite take_take_drop. by replace (S p + j + (length es - j))%nat with (S (p + length es)) by lia.
Qed.

(** ** Votes and acknowledgements *)

Abbreviation records := (gmap (Z * Z) (list Entry)).

Definition voted_in (g : Cluster) : Z → Z → Z → Prop := voted (campaigns g) (voteCalls g).

(** More than half of [n] peers. *)
Definition quorum (n : Z) (q : list Z) : Prop :=
  NoDup q ∧ (∀ s, s ∈ q → 0 <= s < n) ∧ n < 2 * Z.of_nat (length q).

Lemma quorum_meet n q q' : 0 <= n → quorum n q → quorum n q' → ∃ s, s ∈ q ∧ s ∈ q'.
Proof. intros Hn (?&?&?) (?&?&?). by apply (quorums_meet n). Qed.

(** The end of log [l] is what the arguments of a vote request say. *)
Definition describes (l : list Entry) (a : RequestVoteArgs) : Prop :=
  ∃ e, last l = Some e ∧ Term e = LastLogTerm a ∧ LastLogIndex a = Z.of_nat (length l) - 1.

(** ... or not newer than that. *)
Definition upto (l : list Entry) (a : RequestVoteArgs) : Prop :=
  ∃ e, last l = Some e ∧
    (Term e < LastLogTerm a ∨ Term e = LastLogTerm a ∧ Z.of_nat (length l) - 1 <= LastLogIndex a).

Lemma describes_upto l a : describes l a → upto l a.
Proof. intros (e & ? & ? & ?). exists e. split; [done|]. right. split; [done|lia]. Qed.

Definition acknowledged (st : CallStatus AppendEntriesReply) : bool :=
  match st with
  | Sent => false
  | Replied r | Finished r => Success r
  end.

(** Peer [s] has, in term [t], stored the log of that term's leader up to [m]:
    as the leader, or as it answered to a call. *)
Inductive acked (G : history) (g : Cluster) (s t : Z) (m : nat) : Prop :=
  | acked_self : won_by g t s → (m < length (G t))%nat → acked G g s t m
  | acked_call i call :
      entryCalls g !! i = Some call → acknowledged (ecStatus call) = true →
      ecTo call = s → aaTerm (ecArgs call) = t →
      Z.of_nat m <= PrevLogIndex (ecArgs call) + Z.of_nat (length (aaEntries (ecArgs call))) →
      acked G g s t m.

(** A leader of a term after [t], up to [u], was elected without [B]. *)
Definition lost (g : Cluster) (V : records) (t : Z) (B : list Entry) (u : Z) : Prop :=
  ∃ t' c l, t < t' <= u ∧ won_by g t' c ∧ V !! (c, t') = Some l ∧ ¬ B `prefix_of` l.

Lemma lost_mono g g' V V' t B u u' :
  won_le g g' → V ⊆ V' → u <= u' → lost g V t B u → lost g' V' t B u'.
Proof.
  intros Hw HV Hu (t' & c & l & Ht & Hwon & Hl & Hn). exists t', c, l.
  split_and!; [lia|lia|by apply Hw|by eapply lookup_weaken|done].
Qed.

Section history.
Context `{laws : !RaftCodecLaws codec}.

Lemma call_extent g G call :
  call_ok g G call →
  (Z.to_nat (PrevLogIndex (ecArgs call)) + length (aaEntries (ecArgs call)) <
   length (G (aaTerm (ecArgs call))))%nat.
Proof.
  intros (_ & _ & _ & _ & _ & (e & He & _) & Hes). apply lookup_lt_Some in He.
  apply prefix_length in Hes. rewrite length_drop in Hes. lia.
Qed.

Lemma acked_length G g s t m : log_inv G g → acked G g s t m → (m < length (G t))%nat.
Proof.
  intros Hi [|i call Hc _ _ <- Hm]; [done|]. pose proof (lv_calls _ _ Hi _ _ Hc) as Hok.
  pose proof (call_extent _ _ _ Hok). destruct Hok as (_&_&_&?&_). lia.
Qed.

Lemma acked_below G g s t m m' : (m' <= m)%nat → acked G g s t m → acked G g s t m'.
Proof.
  intros Hm [? ?|i call ? ? ? ? ?]; [by apply acked_self; [|lia]|].
  apply (acked_call _ _ _ _ _ i call); try done. lia.
Qed.

Definition calls_le (g g' : Cluster) : Prop :=
  ∀ i call, entryCalls g !! i = Some call → ∃ call', entryCalls g' !! i = Some call' ∧
    ecTo call' = ecTo call ∧ ecArgs call' = ecArgs call ∧
    (acknowledged (ecStatus call) = true → acknowledged (ecStatus call') = true).

Lemma acked_mono G G' g g' s t m :
  grows G G' → won_le g g' → calls_le g g' → acked G g s t m → acked G' g' s t m.
Proof.
  intros Hg Hw Hc [Hwon Hm|i call Hi Ha <- <- Hm].
  - apply acked_self; [by apply Hw|]. pose proof (prefix_length _ _ (Hg t)). lia.
  - destruct (Hc _ _ Hi) as (call' & Hi' & Eto & Eargs & Ha').
    apply (acked_call _ _ _ _ _ i call'); rewrite ?Eargs; auto.
Qed.

Lemma grows_take (G G' : history) t m :
  grows G G' → (m < length (G t))%nat → take (S m) (G' t) = take (S m) (G t).
Proof. intros Hg Hm. destruct (Hg t) as [k ->]. rewrite take_app_le by lia. done. Qed.

(** ** The records of the votes *)

Record votes_rec (G : history) (V : records) (g : Cluster) : Prop := {
  vr_recorded s t l : V !! (s, t) = Some l → coherent G l ∧ ∃ c, voted_in g s t c;
  vr_campaign k cp : campaigns g !! k = Some cp →
    ∃ l, V !! (cpOwner cp, cpTerm cp) = Some l ∧ describes l (cpArgs cp) ∧
      ∀ e, e ∈ l → Term e < cpTerm cp;
  vr_open s t c : voted_in g s t c → G t = [] → is_Some (V !! (s, t));
  vr_upto s l k cp : campaigns g !! k = Some cp → V !! (s, cpTerm cp) = Some l →
    voted_in g s (cpTerm cp) (cpOwner cp) → upto l (cpArgs cp);
  vr_candidate s rf : servers g !! s = Some rf → state rf = Candidate →
    V !! (s, currentTerm rf) = Some (Entries (log rf));
  vr_won t c : won_by g t c → ∃ l q, V !! (c, t) = Some l ∧ l `prefix_of` G t ∧
    quorum (size g) q ∧ ∀ s, s ∈ q → voted_in g s t c ∧ is_Some (V !! (s, t));
}.

(** Nobody has a record of a term it has not reached. *)
Lemma recorded_term G V g s t l rf :
  election_inv g → votes_rec G V g → V !! (s, t) = Some l → servers g !! s = Some rf →
  t <= currentTerm rf.
Proof.
  intros He Hv Hl Hs. destruct (vr_recorded _ _ _ Hv _ _ _ Hl) as (_ & c & Hvt).
  apply (ballots_voted_ballot _ _ _ _ rf _ _ (ei_ballots _ He) Hs) in Hvt as [_ Hb].
  unfold ballot in Hb. lia.
Qed.

(** A term that was won has a leader's log. *)
Lemma won_nonempty G V g t c : votes_rec G V g → won_by g t c → G t ≠ [].
Proof.
  intros Hv Hw. destruct (vr_won _ _ _ Hv _ _ Hw) as (l & _ & Hl & Hp & _).
  destruct Hw as (k & cp & Hk & _ & <- & <-).
  destruct (vr_campaign _ _ _ Hv _ _ Hk) as (l' & Hl' & (e & He & _) & _).
  assert (l = l') as -> by congruence. intros E. rewrite E in Hp. apply prefix_nil_inv in Hp. by subst.
Qed.

Lemma votes_rec_frame G G' V g g' :
  votes_rec G V g → grows G G' → size g' = size g → campaigns g' = campaigns g →
  (∀ s t c, voted_in g' s t c ↔ voted_in g s t c) →
  (∀ s rf', servers g' !! s = Some rf' → state rf' = Candidate → ∃ rf, servers g !! s = Some rf ∧
     state rf = Candidate ∧ currentTerm rf' = currentTerm rf ∧ log rf' = log rf) →
  votes_rec G' V g'.
Proof.
  intros [H1 H2 H3 H4 H5 H6] Hg Hsz Hcs Hv Hc. split.
  - intros s t l (? & c & ?)%H1. split; [by eapply coherent_grows|]. exists c. by apply Hv.
  - rewrite Hcs. done.
  - intros s t c Hvt%Hv E. apply (H3 _ _ c Hvt). apply prefix_nil_inv. rewrite <- E. apply Hg.
  - rewrite Hcs. intros s l k cp Hk Hl Hvt%Hv. eauto.
  - intros s rf' Hs' Hst. destruct (Hc _ _ Hs' Hst) as (rf & Hs & ? & -> & ->). by apply H5.
  - intros t c (k & cp & Hk & Hw). rewrite Hcs in Hk. rewrite Hsz.
    destruct (H6 t c) as (l & q & Hl & Hp & Hq & Hs); [by exists k, cp|]. exists l, q.
    split_and!; [done| |done|]. { etransitivity; [exact Hp|apply Hg]. }
    intros s Hsq. destruct (Hs s Hsq). split; [by apply Hv|done].
Qed.

(** ** Acknowledged entries are kept *)

Record acks_rec (G : history) (V : records) (g : Cluster) : Prop := {
  ak_past s t m t' l : acked G g s t m → V !! (s, t') = Some l → t < t' →
    take (S m) (G t) `prefix_of` l ∨ lost g V t (take (S m) (G t)) (t' - 1);
  ak_now s t m : acked G g s t m → ∃ rf, servers g !! s = Some rf ∧ t <= currentTerm rf ∧
    (take (S m) (G t) `prefix_of` Entries (log rf) ∨ lost g V t (take (S m) (G t)) (currentTerm rf));
}.

(** A step keeps them if every new acknowledgement is of what the peer has in its
    term, every new record is of the log of a peer before the step, in a term
    that is new to it or has no leader, and logs keep what the leaders they heard of have. *)
Lemma acks_step G G' V V' g g' :
  log_inv G g → log_inv G' g' → votes_rec G V g → votes_rec G' V' g' → acks_rec G V g →
  grows G G' → won_le g g' → V ⊆ V' →
  (∀ s t m, acked G' g' s t m → acked G g s t m ∨
     ∃ rf', servers g' !! s = Some rf' ∧ currentTerm rf' = t ∧
       take (S m) (G' t) `prefix_of` Entries (log rf')) →
  (∀ s t l, V' !! (s, t) = Some l → V !! (s, t) = Some l ∨
     ∃ rf, servers g !! s = Some rf ∧ l = Entries (log rf) ∧
       (currentTerm rf < t ∨ currentTerm rf = t ∧ G t = [])) →
  (∀ s rf, servers g !! s = Some rf → ∃ rf', servers g' !! s = Some rf' ∧
     currentTerm rf <= currentTerm rf' ∧
     ∀ t B, t <= currentTerm rf → B `prefix_of` G t → B `prefix_of` Entries (log rf) →
       B `prefix_of` Entries (log rf') ∨ lost g' V' t B (currentTerm rf')) →
  acks_rec G' V' g'.
Proof.
  intros Hi Hi' Hv Hv' [Hpast Hnow] Hg Hw HV Hack Hrec Hlog. split.
  - intros s t m t' l Ha Hl Ht.
    destruct (Hack _ _ _ Ha) as [Ha0|(rf' & Hs' & Ht' & _)].
    2:{ pose proof (recorded_term _ _ _ _ _ _ _ (lv_election _ _ Hi') Hv' Hl Hs'). lia. }
    rewrite (grows_take G G') by (done || by eapply acked_length).
    destruct (Hrec _ _ _ Hl) as [Hl0|(rf & Hs & -> & Hle)].
    + destruct (Hpast _ _ _ _ _ Ha0 Hl0 Ht) as [?|Hlost]; [by left|right].
      by eapply lost_mono; [..|exact Hlost].
    + destruct (Hnow _ _ _ Ha0) as (rf0 & Hs0 & _ & Hc). assert (rf0 = rf) as -> by congruence.
      destruct Hc as [?|(t1 & c & l & Ht1 & Hwon & Hl1 & Hn)]; [by left|right].
      assert (t1 < t').
      { destruct Hle as [|[<- Hnil]]; [lia|]. destruct (decide (t1 = currentTerm rf)) as [->|]; [|lia].
        by destruct (won_nonempty G V g (currentTerm rf) c). }
      exists t1, c, l. split_and!; [lia|lia|by apply Hw|by eapply lookup_weaken|done].
  - intros s t m Ha. destruct (Hack _ _ _ Ha) as [Ha0|(rf' & Hs' & Ht' & Hp)].
    2:{ exists rf'. split_and!; [done|lia|by left]. }
    pose proof (acked_length _ _ _ _ _ Hi Ha0) as Hm. rewrite (grows_take G G') by done.
    destruct (Hnow _ _ _ Ha0) as (rf & Hs & Ht & Hc).
    destruct (Hlog _ _ Hs) as (rf' & Hs' & Hle & Hkeep). exists rf'. split_and!; [done|lia|].
    destruct Hc as [Hp|Hlost].
    + apply Hkeep; [done|apply take_prefix|done].
    + right. by eapply lost_mono; [..|exact Hlost].
Qed.

(** Where an acknowledgement comes from: it is older than the step, or of a leader
    in office for what it has, or was just given. *)
Lemma acked_inv G G' g g' s t m :
  log_inv G g → log_inv G' g' → led G G' g' → won_le g g' →
  (∀ i call', entryCalls g' !! i = Some call' → acknowledged (ecStatus call') = true →
     (∃ j call, entryCalls g !! j = Some call ∧ ecTo call = ecTo call' ∧ ecArgs call = ecArgs call' ∧
        acknowledged (ecStatus call) = true) ∨
     ∃ rf', servers g' !! ecTo call' = Some rf' ∧ currentTerm rf' = aaTerm (ecArgs call') ∧
       take (S (Z.to_nat (PrevLogIndex (ecArgs call')) + length (aaEntries (ecArgs call'))))
         (G' (aaTerm (ecArgs call'))) `prefix_of` Entries (log rf')) →
  acked G' g' s t m → acked G g s t m ∨
    ∃ rf', servers g' !! s = Some rf' ∧ currentTerm rf' = t ∧
      take (S m) (G' t) `prefix_of` Entries (log rf').
Proof.
  intros Hi Hi' Hled Hw Hcalls [Hwon Hm|i call' Hc Ha <- <- Hm].
  - destruct (Hled t) as [E|(s' & rf' & Hs' & Hl & Ht)].
    + left. rewrite E in Hm. apply acked_self; [|done].
      destruct (lv_known _ _ Hi t) as [->|[s' Hs']]; [intros E0; rewrite E0 in Hm; cbn in Hm; lia| |].
      * destruct Hwon as (k & cp & Hk & _ & Ht & _). pose proof (lv_pos _ _ Hi' _ _ Hk). lia.
      * assert (s = s') as ->; [|done]. eapply won_unique; [apply Hi'|done|by apply Hw].
    + right. assert (s = s') as ->.
      { eapply won_unique; [apply Hi'|done|]. rewrite <- Ht. by apply leader_won; [apply Hi'|..]. }
      exists rf'. split_and!; [done|done|].
      rewrite (pl_leader _ _ (lv_peers _ _ Hi' _ _ Hs') Hl), Ht. apply take_prefix.
  - destruct (lv_calls _ _ Hi' _ _ Hc) as (_&_&_&?&_).
    destruct (Hcalls _ _ Hc Ha) as [(j & call & Hj & <- & Ea & Ha0)|(rf' & ? & ? & Hp)].
    + left. rewrite <- Ea in *. by apply (acked_call _ _ _ _ _ j call).
    + right. exists rf'. split_and!; [done|done|]. etransitivity; [|exact Hp].
      apply prefix_take_le. lia.
Qed.

(** The steps that change no log. *)
Lemma acks_same_logs G G' V g g' :
  log_inv G g → log_inv G' g' → votes_rec G V g → votes_rec G' V g' → acks_rec G V g →
  grows G G' → won_le g g' →
  (∀ s t m, acked G' g' s t m → acked G g s t m ∨
     ∃ rf', servers g' !! s = Some rf' ∧ currentTerm rf' = t ∧
       take (S m) (G' t) `prefix_of` Entries (log rf')) →
  (∀ s rf, servers g !! s = Some rf → ∃ rf', servers g' !! s = Some rf' ∧
     currentTerm rf <= currentTerm rf' ∧ Entries (log rf) `prefix_of` Entries (log rf')) →
  acks_rec G' V g'.
Proof.
  intros Hi Hi' Hv Hv' Ha Hg Hw Hack Hlog. apply (acks_step G G' V V g); try done.
  - by left.
  - intros s rf Hs. destruct (Hlog _ _ Hs) as (rf' & ? & ? & Hp). exists rf'. split_and!; [done..|].
    intros t B _ _ HB. left. by transitivity (Entries (log rf)).
Qed.

(** ** Winners stay winners *)

Lemma exec_won_le l g g' : exec l g = Done g' → won_le g g'.
Proof.
  intros H. destruct l; cbn in H.
  - unfold exec_tick in H. exec_inv. destruct o; [|by apply won_le_campaigns].
    intros t s' (k & cp & Hk & ?). exists k, cp. split; [|done]. by apply lookup_app_l_Some.
  - unfold exec_start in H. exec_inv. by apply won_le_campaigns.
  - unfold exec_vote_req in H. exec_inv. by apply won_le_campaigns.
  - unfold exec_vote_reply in H. exec_inv.
    apply candidateRequest_spec in H4 as (_&_&_&_&_&_&Hargs&_&_&Hmono&_).
    pose proof (lookup_lt_Some _ _ _ H1).
    intros t s (k & cp & Hk & Hwon & Ht & Ho).
    destruct (decide (vcCampaign x = k)) as [<-|Hne].
    + assert (cp = x0) as -> by congruence.
      exists (vcCampaign x), (mkCampaign e (cpIncarnation x0)). cbn.
      rewrite list_lookup_insert_eq by done. unfold cpWon, cpTerm, cpOwner, cpArgs in *.
      cbn. rewrite Hargs. auto.
    + exists k, cp. cbn. by rewrite list_lookup_insert_ne.
  - unfold exec_entry_req in H. exec_inv. by apply won_le_campaigns.
  - unfold exec_entry_reply in H. exec_inv. by apply won_le_campaigns.
  - unfold exec_snap_send in H. exec_inv. by apply won_le_campaigns.
  - unfold exec_snap_req in H. exec_inv. apply won_le_campaigns. by destruct o.
  - unfold exec_snap_reply in H. exec_inv. by apply won_le_campaigns.
  - unfold exec_apply in H. exec_inv. apply won_le_campaigns. by destruct o.
  - unfold exec_snapshot in H. exec_inv. by apply won_le_campaigns.
  - unfold exec_cond_install in H. exec_inv. by apply won_le_campaigns.
  - unfold exec_restart in H. exec_inv. by apply won_le_campaigns.
Qed.

Lemma run_won_le ls g g' : run ls g = Done g' → won_le g g'.
Proof.
  revert g. induction ls as [|l ls IH]; intros g H; cbn in H; go_inv; [by intros t s|].
  intros t s Hw. apply (IH _ H). by apply (exec_won_le l g).
Qed.
End history.
