(* ===== verification/RaftVotes.v ===== *)
(** * The records of the votes, step by step

    Every step keeps [votes_rec] (RaftHistory.v).  A record is made when a peer
    campaigns, and when it grants a vote in a term nobody has won yet. *)

From stdpp Require Import base list numbers gmap strings.
From Stdlib Require Import Lia.
From S2P Require Import Prelude RaftLog Persister RaftCore RaftLocal RaftCluster.
From S2P Require Import RaftElection RaftTotal RaftMatching RaftHistory.

Section votes.
Context `{laws : !RaftCodecLaws codec}.

(** ** Candidates *)

(** A method that makes nobody a candidate, and leaves a candidate its log. *)
Definition calm (rf rf' : Raft) : Prop :=
  state rf' = Candidate →
  state rf = Candidate ∧ currentTerm rf' = currentTerm rf ∧ log rf' = log rf.

Lemma calm_same rf rf' :
  state rf' = state rf → currentTerm rf' = currentTerm rf → log rf' = log rf → calm rf rf'.
Proof. intros E1 E2 E3 H. rewrite <- E1. done. Qed.

Lemma setNewTerm_calm t rf : currentTerm rf < t → calm rf (setNewTerm t rf).
Proof.
  intros Ht. unfold setNewTerm, calm. destruct (Z.ltb_spec (currentTerm rf) t); [done|lia].
Qed.

Lemma adopt_calm t rf : calm rf (adopt t rf).
Proof.
  unfold adopt. destruct (Z.ltb_spec (currentTerm rf) t); [by apply setNewTerm_calm|by apply calm_same].
Qed.

Lemma ticker_frame c1 c2 rf rf' out oel :
  ticker c1 c2 rf = Done (rf', out, oel) →
  ∃ rf1, (rf1 = rf ∨ rf1 = resetElectionTimer c1 rf) ∧
    match oel with
    | None => rf' = rf1
    | Some el => leaderElection c2 rf1 = Done (rf', el)
    end.
Proof.
  unfold ticker. intros H. destruct (killed rf); [done|].
  apply bind_Done in H as ([rf1 out1] & H1 & H). exists rf1. split.
  - clear H. go_inv; [by eapply appendEntries_frame|by left].
  - clear H1. go_inv; done.
Qed.

Lemma Start_calm c cmd rf rf' res out : Start c cmd rf = Done (rf', res, out) → calm rf rf'.
Proof.
  intros H. pose proof (Start_state _ _ _ _ _ _ H) as Hs. unfold Start in H. go_inv; [by apply calm_same|].
  intros Hc. apply negb_false_iff, bool_decide_eq_true in Heqb. congruence.
Qed.

Lemma RequestVote_calm c args rf rf' reply : RequestVote c args rf = Done (rf', reply) → calm rf rf'.
Proof.
  unfold RequestVote. fold (adopt (vaTerm args) rf). intros H.
  destruct (vaTerm args <? currentTerm rf); [go_inv; by apply calm_same|].
  pose proof (adopt_calm (vaTerm args) rf). go_inv; done.
Qed.

Lemma candidateRequest_calm c el reply rf rf' el' out :
  candidateRequest c el reply rf = Done (rf', el', out) → calm rf rf'.
Proof.
  unfold candidateRequest. intros H. destruct (negb _ && _) eqn:E.
  { go_inv. zbool. by apply setNewTerm_calm. }
  go_inv; try by apply calm_same.
  match goal with H : winElection _ _ = _ |- _ => apply winElection_spec in H as (_&_&_&_&_&_&?) end.
  intros ?. congruence.
Qed.

Lemma AppendLoop_frame es rf rf' :
  AppendLoop es rf = Done rf' → ∃ p l, rf' = set_persister p (set_log l rf).
Proof.
  revert rf. induction es as [|e es IH]; intros rf H; cbn in H.
  { go_inv. exists (persister rf'), (log rf'). by destruct rf'. }
  apply bind_Done in H as (lastl & _ & H). apply bind_Done in H as (rf1 & H1 & H).
  assert (∃ p l, rf1 = set_persister p (set_log l rf)) as (p & l & ->).
  { clear H. go_inv; [by do 2 eexists| |]; exists (persister rf1), (log rf1); by destruct rf1. }
  clear H1. go_inv; [by do 2 eexists|]. apply IH in H as (p' & l' & ->). by do 2 eexists.
Qed.

Lemma AppendEntries_calm c args rf rf' reply :
  AppendEntries c args rf = Done (rf', reply) → calm rf rf'.
Proof.
  unfold AppendEntries. fold (adopt (aaTerm args) rf). intros H.
  destruct (aaTerm args <? currentTerm rf); [go_inv; by apply calm_same|].
  pose proof (adopt_calm (aaTerm args) rf). set (rf1 := adopt _ _) in *.
  destruct (_ <? Index0 _); [by go_inv|].
  set (rf2 := if bool_decide _ then _ else rf1) in *.
  assert (state rf2 ≠ Candidate) as Hs by (subst rf2; by case_bool_decide).
  intros Hc. exfalso. apply Hs. clearbody rf2. rewrite <- Hc.
  go_inv; try done; cbn;
    match goal with H : AppendLoop _ _ = _ |- _ => by apply AppendLoop_frame in H as (?&?&->) end.
Qed.

Lemma Commit_state rf rf' :
  Commit rf = Done rf' → state rf' = state rf ∧ currentTerm rf' = currentTerm rf ∧ log rf' = log rf.
Proof. unfold Commit. intros H. go_inv; [done|]. by apply CommitLoop_frame in H as [->|(?&_&->)]. Qed.

Lemma leaderSendEntries_calm peer args reply rf rf' :
  leaderSendEntries peer args reply rf = Done rf' → calm rf rf'.
Proof.
  intros H. pose proof (leaderSendEntries_tame _ _ _ _ _ H) as [_ Hlog]. unfold leaderSendEntries in H.
  destruct (_ <? _) eqn:E; [go_inv; zbool; by apply setNewTerm_calm|].
  case_bool_decide as Hl; [|go_inv; by apply calm_same]. intros Hc. exfalso.
  apply bind_Done in H as (rf1 & H1 & H).
  assert (state rf1 = Leader) as Hl1 by (clear H; by go_inv). apply Commit_state in H as [? _]. congruence.
Qed.

Lemma LoopCommit_calm rf rf' msg : LoopCommit rf = Done (rf', msg) → calm rf rf'.
Proof. unfold LoopCommit. intros H. go_inv; by apply calm_same. Qed.

(** A step in which one peer moves calmly, and no vote is cast or won. *)
Lemma votes_rec_calm G G' V g g' s rf rf' :
  votes_rec G V g → grows G G' → size g' = size g → campaigns g' = campaigns g →
  voteCalls g' = voteCalls g → servers g !! s = Some rf → servers g' = <[s := rf']> (servers g) →
  calm rf rf' → votes_rec G' V g'.
Proof.
  intros Hv Hg Hsz Hc Hvc Hs Hsv Hcalm. apply (votes_rec_frame G G' V g); try done.
  - intros. unfold voted_in. by rewrite Hc, Hvc.
  - rewrite Hsv. intros s' r [[<- <-]|[_ ?]]%lookup_insert_Some Hst; [|eauto].
    destruct (Hcalm Hst) as (?&?&?). eauto.
Qed.

(** ** A campaign starts *)

Lemma leaderElection_describes c rf rf' el :
  log_ok (log rf) → Index0 (log rf) = 0 → leaderElection c rf = Done (rf', el) →
  describes (Entries (log rf)) (elArgs el).
Proof.
  intros Hok H0 H. unfold leaderElection in H. go_inv. cbn in *.
  destruct (LastLog_Done _ _ Hok H1) as [Hi Hl]. exists x. cbn. split_and!; [done|done|].
  unfold lastIndex, Len in Hi. lia.
Qed.

Lemma voted_snoc cs vs cp calls s t c :
  voted cs vs s t c → voted (cs ++ [cp]) (vs ++ calls) s t c.
Proof.
  intros [k cp' Hk ? ? ?|i call cp' Hi ? ? Hcp ? ?].
  - apply (voted_self _ _ _ _ _ k cp'); try done. by apply lookup_app_l_Some.
  - apply (voted_call _ _ _ _ _ i call cp'); try done; by apply lookup_app_l_Some.
Qed.

Lemma voted_campaign cs vs s t c :
  voted cs vs s t c → ∃ k cp, cs !! k = Some cp ∧ cpOwner cp = c ∧ cpTerm cp = t.
Proof. intros [k cp Hk ? ? _|i call cp _ _ _ Hcp ? ?]; eauto 10. Qed.

(** Nobody has voted for [s] in a term [s] has not reached. *)
Lemma unreached g s rf x t :
  election_inv g → servers g !! s = Some rf → voted_in g x t s → t <= currentTerm rf.
Proof.
  intros He Hs (k & cp & Hk & Ho & Ht)%voted_campaign.
  assert (voted_in g s t s) as Hv by (by eapply voted_self).
  apply (ballots_voted_ballot _ _ _ _ rf _ _ (ei_ballots _ He) Hs) in Hv as [_ Hb].
  unfold ballot in Hb. lia.
Qed.

(** A campaign adds the vote of its owner for itself. *)
Lemma campaign_votes g g' s cp x u d :
  election_inv g → cpOwner cp = s → campaigns g' = campaigns g ++ [cp] →
  voteCalls g' = voteCalls g ++ campaignCalls (length (campaigns g)) s (size g) →
  voted_in g' x u d ↔ voted_in g x u d ∨ x = s ∧ u = cpTerm cp ∧ d = s.
Proof.
  intros He <- Hcs Hvs. unfold voted_in. rewrite Hcs, Hvs. split.
  - intros Hvt. eapply campaign_voted; [| |exact Hvt].
    + intros i call. eapply campaigns_ok_calls, He.
    + by intros call (_ & ? & _)%campaignCalls_spec.
  - intros [?|(-> & -> & ->)]; [by apply voted_snoc|].
    apply (voted_self _ _ _ _ _ (length (campaigns g)) cp); try done. by apply list_lookup_middle.
Qed.

Lemma votes_rec_campaign G V g g' c s rf rf' el inc :
  election_inv g → votes_rec G V g → servers g !! s = Some rf → leaderElection c rf = Done (rf', el) →
  describes (Entries (log rf)) (elArgs el) → coherent G (Entries (log rf)) →
  (∀ e, e ∈ Entries (log rf) → Term e <= currentTerm rf) →
  size g' = size g → servers g' = <[s := rf']> (servers g) →
  campaigns g' = campaigns g ++ [mkCampaign el inc] →
  voteCalls g' = voteCalls g ++ campaignCalls (length (campaigns g)) s (size g) →
  V !! (s, currentTerm rf') = None ∧
  votes_rec G (<[(s, currentTerm rf') := Entries (log rf)]> V) g'.
Proof.
  intros He Hv Hs Hel Hd Hco Hte Hsz Hsv Hcs Hvs. destruct (ei_servers _ He _ _ Hs) as (Hme & _).
  apply leaderElection_spec in Hel as (_ & _ & _ & Hlog & Ht & _ & Hcand & Hat & Hac & _ & Hw).
  set (t' := currentTerm rf') in *. set (cp := mkCampaign el inc) in *.
  assert (cpOwner cp = s ∧ cpTerm cp = t') as [Ho Hterm].
  { unfold cp, cpOwner, cpTerm, cpArgs. cbn. split; [congruence|lia]. }
  assert (V !! (s, t') = None) as Hfresh.
  { apply eq_None_not_Some. intros [l Hl].
    pose proof (recorded_term _ _ _ _ _ _ _ He Hv Hl Hs). lia. }
  split; [done|]. set (V' := <[_ := _]> V).
  assert (V ⊆ V') as HV by (by apply insert_subseteq).
  assert (V' !! (s, t') = Some (Entries (log rf))) as Hnew by apply lookup_insert_eq.
  assert (∀ x u d, voted_in g' x u d ↔ voted_in g x u d ∨ x = s ∧ u = t' ∧ d = s) as Hvoted.
  { intros x u d. rewrite <- Hterm. by apply campaign_votes. }
  assert (∀ u x, voted_in g x u s → u ≠ t') as Hold.
  { intros u x Hvt. pose proof (unreached _ _ _ _ _ He Hs Hvt). lia. }
  assert (∀ k cp1, campaigns g' !! k = Some cp1 → campaigns g !! k = Some cp1 ∨ cp1 = cp) as Hcamp.
  { intros k cp1. rewrite Hcs. intros [[_ ?]|[_ <-]]%lookup_snoc_Some; auto. }
  split.
  - intros x u l [[[= -> ->] <-]|[_ Hl]]%lookup_insert_Some.
    + split; [done|]. exists x. apply Hvoted. auto.
    + destruct (vr_recorded _ _ _ Hv _ _ _ Hl) as (? & d & ?). split; [done|]. exists d.
      apply Hvoted. auto.
  - intros k cp1 [Hk| ->]%Hcamp.
    + destruct (vr_campaign _ _ _ Hv _ _ Hk) as (l & Hl & ?). exists l.
      split; [by eapply lookup_weaken|done].
    + exists (Entries (log rf)). rewrite Ho, Hterm. split_and!; [done|done|].
      intros e Hin%Hte. lia.
  - intros x u d [Hvt|(-> & -> & ->)]%Hvoted Hnil; [|by eexists].
    destruct (vr_open _ _ _ Hv _ _ _ Hvt Hnil) as [l Hl]. exists l. by eapply lookup_weaken.
  - intros x l k cp1 [Hk| ->]%Hcamp Hl [Hvt|(-> & Ex & Eo)]%Hvoted.
    + apply lookup_insert_Some in Hl as [[[= <- Eu] _]|[_ Hl]]; [|by eapply vr_upto].
      apply (ballots_voted_ballot _ _ _ _ rf _ _ (ei_ballots _ He) Hs) in Hvt as [_ Hb].
      unfold ballot in Hb. lia.
    + exfalso. apply (Hold (cpTerm cp1) s); [|done]. rewrite <- Eo. by eapply voted_self.
    + exfalso. rewrite Ho, Hterm in Hvt. by apply (Hold _ _ Hvt).
    + rewrite Hterm, Hnew in Hl. injection Hl as <-. by apply describes_upto.
  - rewrite Hsv. intros x r [[<- <-]|[_ Hx]]%lookup_insert_Some Hst; [by rewrite Hlog|].
    eapply lookup_weaken; [|done]. by apply (vr_candidate _ _ _ Hv).
  - intros u d (k & cp1 & Hk & Hwon & Hu & Hd'). rewrite Hsz.
    apply Hcamp in Hk as [Hk| ->]; [|unfold cpWon in Hwon; cbn in Hwon; congruence].
    destruct (vr_won _ _ _ Hv u d) as (l & q & Hl & Hp & Hq & Hs'); [by exists k, cp1|].
    exists l, q. split_and!; [by eapply lookup_weaken|done|done|]. intros x Hx.
    destruct (Hs' x Hx) as [? [l' ?]]. split; [apply Hvoted; auto|]. exists l'. by eapply lookup_weaken.
Qed.

(** ** A vote is granted *)

Lemma RequestVote_upto c args rf rf' reply :
  log_ok (log rf) → Index0 (log rf) = 0 → RequestVote c args rf = Done (rf', reply) →
  VoteGranted reply = true → upto (Entries (log rf)) args.
Proof.
  intros Hok H0 H Hg. unfold RequestVote in H. fold (adopt (vaTerm args) rf) in H.
  destruct (vaTerm args <? currentTerm rf); [by go_inv|].
  pose proof (adopt_log (vaTerm args) rf) as Hl. set (rf1 := adopt _ _) in *. go_inv; [|done].
  rewrite Hl in *. match goal with H : LastLog _ = Done ?x |- _ =>
    destruct (LastLog_Done _ _ Hok H) as [Hi Hlast]; exists x end. split; [done|].
  unfold lastIndex, Len in Hi. zbool. destruct H2 as [?|?]; zbool; [by left|right]. split; [done|lia].
Qed.

Lemma voted_reply cs (vs : list VoteCall) (i : nat) call cp st s t c :
  vs !! i = Some call → vcStatus call = Sent → cs !! vcCampaign call = Some cp →
  voted cs (<[i := mkVoteCall (vcCampaign call) (vcTo call) st]> vs) s t c ↔
  voted cs vs s t c ∨ granted st = true ∧ s = vcTo call ∧ t = cpTerm cp ∧ c = cpOwner cp.
Proof.
  intros Hi Hst Hcp. split; [by apply replied_voted|]. pose proof (lookup_lt_Some _ _ _ Hi).
  intros [[k cp' ? ? ? ?|j call' cp' Hj Hg ? ? ? ?]|(? & -> & -> & ->)].
  - by apply (voted_self _ _ _ _ _ k cp').
  - apply (voted_call _ _ _ _ _ j call' cp'); try done.
    rewrite list_lookup_insert_ne; [done|]. intros <-. assert (call = call') as <- by congruence.
    by rewrite Hst in Hg.
  - apply (voted_call _ _ _ _ _ i (mkVoteCall (vcCampaign call) (vcTo call) st) cp); try done.
    by apply list_lookup_insert_eq.
Qed.

(** The records a step may add: of the log of a peer, in a term that is new to it or
    that nobody has won. *)
Definition records_new (G : history) (V V' : records) (g : Cluster) : Prop :=
  V ⊆ V' ∧ ∀ s t l, V' !! (s, t) = Some l → V !! (s, t) = Some l ∨
    ∃ rf, servers g !! s = Some rf ∧ l = Entries (log rf) ∧
      (currentTerm rf < t ∨ currentTerm rf = t ∧ G t = []).

Lemma records_new_refl G V g : records_new G V V g.
Proof. split; [done|by left]. Qed.

Lemma records_new_insert G V g s t rf :
  V !! (s, t) = None → servers g !! s = Some rf →
  (currentTerm rf < t ∨ currentTerm rf = t ∧ G t = []) →
  records_new G V (<[(s, t) := Entries (log rf)]> V) g.
Proof.
  intros Hn Hs Ht. split; [by apply insert_subseteq|].
  intros x u l [[[= <- <-] <-]|[_ ?]]%lookup_insert_Some; [right; eauto|by left].
Qed.

(** One more vote, of [s] in term [t] for the owner of [cp]. *)
Lemma votes_rec_vote G V V' g g' s rf rf' k cp :
  election_inv g → election_inv g' → votes_rec G V g → servers g !! s = Some rf →
  campaigns g !! k = Some cp → upto (Entries (log rf)) (cpArgs cp) → coherent G (Entries (log rf)) →
  size g' = size g → campaigns g' = campaigns g → servers g' = <[s := rf']> (servers g) → calm rf rf' →
  (∀ x u d, voted_in g' x u d ↔ voted_in g x u d ∨ x = s ∧ u = cpTerm cp ∧ d = cpOwner cp) →
  V ⊆ V' →
  (∀ x u l, V' !! (x, u) = Some l → V !! (x, u) = Some l ∨
     V !! (x, u) = None ∧ x = s ∧ u = cpTerm cp ∧ G u = [] ∧ l = Entries (log rf)) →
  (G (cpTerm cp) = [] → is_Some (V' !! (s, cpTerm cp))) →
  votes_rec G V' g'.
Proof.
  intros He He' Hv Hs Hk Hup Hco Hsz Hcs Hsv Hcalm Hvoted HV Hrec Hopen. split; rewrite ?Hcs.
  - intros x u l [Hl|(_ & -> & -> & _ & ->)]%Hrec.
    + destruct (vr_recorded _ _ _ Hv _ _ _ Hl) as (? & d & ?). split; [done|]. exists d. apply Hvoted. auto.
    + split; [done|]. exists (cpOwner cp). apply Hvoted. auto.
  - intros k1 cp1 Hk1. destruct (vr_campaign _ _ _ Hv _ _ Hk1) as (l & Hl & ?). exists l.
    split; [by eapply lookup_weaken|done].
  - intros x u d [Hvt|(-> & -> & ->)]%Hvoted Hnil; [|by apply Hopen].
    destruct (vr_open _ _ _ Hv _ _ _ Hvt Hnil) as [l Hl]. exists l. by eapply lookup_weaken.
  - intros x l k1 cp1 Hk1 Hl Hvt. apply Hrec in Hl as [Hl|(Hnone & -> & Eu & Hnil & ->)];
      apply Hvoted in Hvt as Hvt0; destruct Hvt0 as [Hvt0|(Ex & Eu' & Eo)].
    + by eapply vr_upto.
    + subst x. destruct (vr_recorded _ _ _ Hv _ _ _ Hl) as (_ & d & Hd). eapply vr_upto; [done..|].
      assert (d = cpOwner cp1) as ->; [|done].
      eapply (bs_unique _ _ _ (ei_ballots _ He')); [|exact Hvt]. apply Hvoted. auto.
    + destruct (vr_open _ _ _ Hv _ _ _ Hvt0 Hnil) as [l Hl]. congruence.
    + assert (k1 = k) as -> by (by eapply (co_campaign _ _ _ (ei_campaigns _ He))). congruence.
  - rewrite Hsv. intros x r [[<- <-]|[_ Hx]]%lookup_insert_Some Hst; (eapply lookup_weaken; [|done]).
    + destruct (Hcalm Hst) as (? & -> & ->). by apply (vr_candidate _ _ _ Hv).
    + by apply (vr_candidate _ _ _ Hv).
  - intros u d (k1 & cp1 & Hk1 & Hwon). rewrite Hcs in Hk1. rewrite Hsz.
    destruct (vr_won _ _ _ Hv u d) as (l & q & Hl & Hp & Hq & Hs'); [by exists k1, cp1|].
    exists l, q. split_and!; [by eapply lookup_weaken|done|done|]. intros x Hx.
    destruct (Hs' x Hx) as [? [l' ?]]. split; [apply Hvoted; auto|]. exists l'. by eapply lookup_weaken.
Qed.

(** ** A vote is counted *)

Definition ballot_of (call : VoteCall) : nat * Z * bool :=
  (vcCampaign call, vcTo call, granted (vcStatus call)).

(** What was voted depends only on the arguments of the campaigns and the ballots. *)
Lemma voted_ext cs cs' vs vs' s t c :
  cpArgs <$> cs' = cpArgs <$> cs → ballot_of <$> vs' = ballot_of <$> vs →
  voted cs vs s t c → voted cs' vs' s t c.
Proof.
  intros Ec Ev.
  assert (∀ k cp, cs !! k = Some cp → ∃ cp', cs' !! k = Some cp' ∧ cpOwner cp' = cpOwner cp ∧ cpTerm cp' = cpTerm cp)
    as Hc.
  { intros k cp Hk. assert ((cpArgs <$> cs') !! k = Some (cpArgs cp)) as (cp' & E & Hk')%list_lookup_fmap_Some.
    { by rewrite Ec, list_lookup_fmap, Hk. }
    exists cp'. unfold cpOwner, cpTerm. by rewrite E. }
  intros [k cp Hk ? ? ?|i call cp Hi Hg ? Hcp ? ?].
  - destruct (Hc _ _ Hk) as (cp' & ? & ? & ?). apply (voted_self _ _ _ _ _ k cp'); congruence.
  - destruct (Hc _ _ Hcp) as (cp' & ? & ? & ?).
    assert ((ballot_of <$> vs') !! i = Some (ballot_of call)) as (call' & E & Hi')%list_lookup_fmap_Some.
    { by rewrite Ev, list_lookup_fmap, Hi. }
    unfold ballot_of in E. injection E as E1 E2 E3. apply (voted_call _ _ _ _ _ i call' cp'); congruence.
Qed.

Lemma voted_finish (cs : list Campaign) (vs : list VoteCall) (i : nat) call cp cp' reply s t c :
  vs !! i = Some call → vcStatus call = Replied reply →
  cs !! vcCampaign call = Some cp → cpArgs cp' = cpArgs cp →
  voted (<[vcCampaign call := cp']> cs)
    (<[i := mkVoteCall (vcCampaign call) (vcTo call) (Finished reply)]> vs) s t c ↔ voted cs vs s t c.
Proof.
  intros Hi Hst Hcp Hargs.
  assert (cpArgs <$> <[vcCampaign call := cp']> cs = cpArgs <$> cs) as Ec.
  { rewrite list_fmap_insert, Hargs. apply list_insert_id. by rewrite list_lookup_fmap, Hcp. }
  assert (ballot_of <$> <[i := mkVoteCall (vcCampaign call) (vcTo call) (Finished reply)]> vs =
          ballot_of <$> vs) as Ev.
  { rewrite list_fmap_insert. apply list_insert_id. rewrite list_lookup_fmap, Hi. cbn.
    unfold ballot_of. by rewrite Hst. }
  split; by apply voted_ext.
Qed.

Lemma won_quorum g k cp :
  election_inv g → campaigns g !! k = Some cp → cpWon cp = true →
  quorum (size g) (voters k (cpOwner cp) (voteCalls g)) ∧
  ∀ s, s ∈ voters k (cpOwner cp) (voteCalls g) → voted_in g s (cpTerm cp) (cpOwner cp).
Proof.
  intros He Hk Hw. pose proof (ei_campaigns _ He) as Hc.
  assert (∀ s, s ∈ voters k (cpOwner cp) (voteCalls g) → voted_in g s (cpTerm cp) (cpOwner cp)) as Hv.
  { intros s. by apply (voters_voted (size g)). }
  split; [|done]. split_and!.
  - by eapply voters_nodup.
  - intros s Hs%Hv. destruct (bs_voted _ _ _ (ei_ballots _ He) _ _ _ Hs) as (_ & rf & Hrf & _).
    by destruct (ei_servers _ He _ _ Hrf) as (_ & _ & ? & _).
  - rewrite <- (co_count _ _ _ Hc _ _ Hk). by eapply co_won.
Qed.

Lemma votes_rec_count G G' V g g' s rf rf' k cp cp' :
  election_inv g' → votes_rec G V g → grows G G' → servers g !! s = Some rf →
  size g' = size g → servers g' = <[s := rf']> (servers g) → calm rf rf' →
  campaigns g !! k = Some cp → campaigns g' = <[k := cp']> (campaigns g) → cpArgs cp' = cpArgs cp →
  (∀ x u d, voted_in g' x u d ↔ voted_in g x u d) →
  (cpWon cp' = true → cpWon cp = true ∨ G (cpTerm cp) = [] ∧
     ∃ l, V !! (cpOwner cp, cpTerm cp) = Some l ∧ l `prefix_of` G' (cpTerm cp)) →
  votes_rec G' V g'.
Proof.
  intros He' Hv Hg Hs Hsz Hsv Hcalm Hk Hcs Hargs Hvoted Hwin. pose proof (lookup_lt_Some _ _ _ Hk) as Hlt.
  assert (∀ j cp1, campaigns g' !! j = Some cp1 → ∃ cp0, campaigns g !! j = Some cp0 ∧ cpArgs cp1 = cpArgs cp0)
    as Hold.
  { rewrite Hcs. intros j cp1 [(<- & <- & _)|[_ ?]]%list_lookup_insert_Some; eauto. }
  split.
  - intros x u l (? & d & ?)%(vr_recorded _ _ _ Hv). split; [by eapply coherent_grows|].
    exists d. by apply Hvoted.
  - intros j cp1 (cp0 & Hj & E)%Hold. unfold cpOwner, cpTerm. rewrite E. by apply (vr_campaign _ _ _ Hv j).
  - intros x u d Hvt%Hvoted E. apply (vr_open _ _ _ Hv _ _ d Hvt). apply prefix_nil_inv. rewrite <- E. apply Hg.
  - intros x l j cp1 (cp0 & Hj & E)%Hold. unfold cpOwner, cpTerm. rewrite E. intros Hl Hvt%Hvoted.
    by apply (vr_upto _ _ _ Hv x l j cp0).
  - rewrite Hsv. intros x r [[<- <-]|[_ ?]]%lookup_insert_Some Hst; [|by apply (vr_candidate _ _ _ Hv)].
    destruct (Hcalm Hst) as (? & -> & ->). by apply (vr_candidate _ _ _ Hv).
  - intros u d (j & cp1 & Hj & Hw & <- & <-). rewrite Hsz.
    assert (won_by g (cpTerm cp1) (cpOwner cp1) ∨ j = k ∧ cp1 = cp' ∧ G (cpTerm cp) = [] ∧
      ∃ l, V !! (cpOwner cp, cpTerm cp) = Some l ∧ l `prefix_of` G' (cpTerm cp)) as [Hold'|Hnew].
    { pose proof Hj as Hj'. rewrite Hcs in Hj'. apply list_lookup_insert_Some in Hj' as [(<- & <- & _)|[_ Hj']].
      - destruct (Hwin Hw) as [?|?]; [left|by right]. exists k, cp. unfold cpTerm, cpOwner. by rewrite Hargs.
      - left. by exists j, cp1. }
    + destruct (vr_won _ _ _ Hv _ _ Hold') as (l & q & ? & ? & ? & Hq). exists l, q.
      split_and!; [done|etransitivity; [done|apply Hg]|done|].
      intros x Hx. destruct (Hq x Hx). split; [by apply Hvoted|done].
    + destruct Hnew as (-> & -> & Hnil & l & Hl & Hp).
      destruct (won_quorum g' k cp' He' Hj Hw) as [Hq Hqv]. rewrite Hsz in Hq.
      assert (cpOwner cp' = cpOwner cp ∧ cpTerm cp' = cpTerm cp) as [Eo Et]
        by (unfold cpOwner, cpTerm; by rewrite Hargs).
      exists l, (voters k (cpOwner cp') (voteCalls g')). rewrite Eo, Et in *.
      split_and!; [done|done|done|]. intros x Hx%Hqv. split; [done|].
      apply Hvoted in Hx. by apply (vr_open _ _ _ Hv _ _ _ Hx).
Qed.
End votes.
