(* ===== verification/RaftSteps.v ===== *)
(** * Votes and acknowledgements along a run

    [hist_inv] collects what RaftMatching.v and RaftHistory.v say about the
    history variables, and every step without snapshots keeps it. *)

From stdpp Require Import base list numbers gmap strings.
From Stdlib Require Import Lia.
From S2P Require Import Prelude RaftLog Persister RaftCore RaftLocal RaftCluster.
From S2P Require Import RaftElection RaftTotal RaftMatching RaftHistory RaftVotes.

Section steps.
Context `{laws : !RaftCodecLaws codec}.

Record hist_inv (G : history) (V : records) (g : Cluster) : Prop := {
  hv_log : log_inv G g;
  hv_votes : votes_rec G V g;
  hv_acks : acks_rec G V g;
  hv_history t e : e ∈ G t → Term e <= t;
  hv_terms s rf e : servers g !! s = Some rf → e ∈ Entries (log rf) → Term e <= currentTerm rf;
}.

(** ** The calls *)

(** The acknowledgements of [g'] are those of [g], or were just given. *)
Definition acks_from (G' : history) (g g' : Cluster) : Prop :=
  ∀ i call', entryCalls g' !! i = Some call' → acknowledged (ecStatus call') = true →
    (∃ j call, entryCalls g !! j = Some call ∧ ecTo call = ecTo call' ∧ ecArgs call = ecArgs call' ∧
       acknowledged (ecStatus call) = true) ∨
    ∃ rf', servers g' !! ecTo call' = Some rf' ∧ currentTerm rf' = aaTerm (ecArgs call') ∧
      take (S (Z.to_nat (PrevLogIndex (ecArgs call')) + length (aaEntries (ecArgs call'))))
        (G' (aaTerm (ecArgs call'))) `prefix_of` Entries (log rf').

Lemma acks_from_same G' g g' : entryCalls g' = entryCalls g → acks_from G' g g'.
Proof. intros E i call' Hi Ha. rewrite E in Hi. eauto 10. Qed.

Lemma acks_from_spawn G' g g' s inc out :
  entryCalls g' = entryCalls g ++ spawned_entries s inc out → acks_from G' g g'.
Proof.
  intros E i call' Hi Ha. rewrite E in Hi. apply lookup_app_Some in Hi as [Hi|[_ Hi]]; [eauto 10|].
  apply list_elem_of_lookup_2, list_elem_of_omap in Hi as ([] & _ & [= <-]). done.
Qed.

(** Call [i] is answered or its answer is taken in. *)
Lemma acks_from_update G' g g' i call st :
  entryCalls g !! i = Some call →
  entryCalls g' = <[i := mkEntryCall (ecFrom call) (ecIncarnation call) (ecTo call) (ecArgs call) st]>
    (entryCalls g) →
  (acknowledged st = true → acknowledged (ecStatus call) = true ∨
     ∃ rf', servers g' !! ecTo call = Some rf' ∧ currentTerm rf' = aaTerm (ecArgs call) ∧
       take (S (Z.to_nat (PrevLogIndex (ecArgs call)) + length (aaEntries (ecArgs call))))
         (G' (aaTerm (ecArgs call))) `prefix_of` Entries (log rf')) →
  acks_from G' g g'.
Proof.
  intros Hi E Hst j call' Hj Ha. rewrite E in Hj.
  apply list_lookup_insert_Some in Hj as [(_ & <- & _)|[_ ?]]; [|eauto 10].
  destruct (Hst Ha) as [?|?]; [left; by exists i, call|by right].
Qed.

Lemma calls_le_app g g' es : entryCalls g' = entryCalls g ++ es → calls_le g g'.
Proof. intros E i call Hi. exists call. rewrite E. split; [by apply lookup_app_l_Some|done]. Qed.

Lemma calls_le_same g g' : entryCalls g' = entryCalls g → calls_le g g'.
Proof. intros E. apply (calls_le_app _ _ []). by rewrite app_nil_r. Qed.

Lemma calls_le_update g g' i call st :
  entryCalls g !! i = Some call →
  entryCalls g' = <[i := mkEntryCall (ecFrom call) (ecIncarnation call) (ecTo call) (ecArgs call) st]>
    (entryCalls g) →
  (acknowledged (ecStatus call) = true → acknowledged st = true) → calls_le g g'.
Proof.
  intros Hi E Hst j call' Hj. rewrite E. destruct (decide (i = j)) as [<-|].
  - assert (call' = call) as -> by congruence. eexists.
    split; [apply list_lookup_insert_eq; by eapply lookup_lt_Some|done].
  - exists call'. by rewrite list_lookup_insert_ne.
Qed.

Lemma exec_calls_le l g g' : plain l → exec l g = Done g' → calls_le g g'.
Proof.
  intros Hl H. destruct l; cbn in H, Hl; try done.
  - unfold exec_tick in H. exec_inv. destruct o; by eapply calls_le_app.
  - unfold exec_start in H. exec_inv. by eapply calls_le_app.
  - unfold exec_vote_req in H. exec_inv. by apply calls_le_same.
  - unfold exec_vote_reply in H. exec_inv. by eapply calls_le_app.
  - unfold exec_entry_req in H. exec_inv. eapply (calls_le_update _ _ i); [done..|].
    by rewrite Heqc0.
  - unfold exec_entry_reply in H. exec_inv. eapply (calls_le_update _ _ i); [done..|].
    by rewrite Heqc.
  - unfold exec_apply in H. exec_inv. apply calls_le_same. by destruct o.
  - unfold exec_restart in H. exec_inv. by apply calls_le_same.
Qed.

(** ** Assembling a step *)

Lemma hist_inv_step G G' V V' g g' s rf rf' :
  hist_inv G V g → log_inv G' g' → votes_rec G' V' g' → grows G G' → led G G' g' → won_le g g' →
  records_new G V V' g → acks_from G' g g' →
  servers g !! s = Some rf → servers g' = <[s := rf']> (servers g) →
  currentTerm rf <= currentTerm rf' →
  (∀ e, e ∈ Entries (log rf') → Term e <= currentTerm rf') →
  (∀ t B, t <= currentTerm rf → B `prefix_of` G t → B `prefix_of` Entries (log rf) →
     B `prefix_of` Entries (log rf') ∨ lost g' V' t B (currentTerm rf')) →
  hist_inv G' V' g'.
Proof.
  intros [Hl Hv Ha Hh Hte] Hl' Hv' Hg Hled Hw [HV Hrec] Hacks Hs Hsv Ht Hte' Hkeep.
  assert (∀ x r e, servers g' !! x = Some r → e ∈ Entries (log r) → Term e <= currentTerm r) as Hterms.
  { rewrite Hsv. intros x r e [[<- <-]|[_ ?]]%lookup_insert_Some; [apply Hte'|by eapply Hte]. }
  split; [done|done| | |done].
  - apply (acks_step G G' V V' g g'); try done.
    + intros x t m. by apply acked_inv.
    + intros x r Hx. rewrite Hsv. destruct (decide (s = x)) as [<-|Hne].
      * exists rf'. rewrite lookup_insert_eq. assert (r = rf) as -> by congruence. done.
      * exists r. rewrite lookup_insert_ne by done. split_and!; [done|lia|by left].
  - intros t e Hin. destruct (Hled t) as [E|(x & r & Hx & Hst & <-)]; [rewrite E in Hin; by apply Hh|].
    rewrite <- (pl_leader _ _ (lv_peers _ _ Hl' _ _ Hx) Hst) in Hin. by eapply Hterms.
Qed.

(** The peer that moves keeps its log. *)
Lemma hist_inv_same_log G V V' g g' s rf rf' :
  hist_inv G V g → log_inv G g' → votes_rec G V' g' → won_le g g' →
  records_new G V V' g → acks_from G g g' →
  servers g !! s = Some rf → servers g' = <[s := rf']> (servers g) →
  currentTerm rf <= currentTerm rf' → log rf' = log rf → hist_inv G V' g'.
Proof.
  intros Hi Hl' Hv' Hw Hrec Hacks Hs Hsv Ht Hlog.
  apply (hist_inv_step G G V V' g g' s rf rf'); try done; rewrite ?Hlog.
  - by intros t.
  - apply led_refl.
  - intros e Hin%(hv_terms _ _ _ Hi _ _ _ Hs). lia.
  - intros t B _ _ HB. by left.
Qed.

(** ** The steps *)

Definition steps_to (G : history) (V : records) (g' : Cluster) : Prop :=
  ∃ G' V', grows G G' ∧ V ⊆ V' ∧ hist_inv G' V' g'.

Lemma steps_to_same G V V' g' : V ⊆ V' → hist_inv G V' g' → steps_to G V g'.
Proof. intros HV Hi. exists G, V'. split_and!; [by intros t|done|done]. Qed.

(** No record is made, and the peer keeps its log. *)
Lemma hist_inv_calm G V g g' s rf rf' :
  hist_inv G V g → log_inv G g' → won_le g g' → acks_from G g g' →
  size g' = size g → campaigns g' = campaigns g → voteCalls g' = voteCalls g →
  servers g !! s = Some rf → servers g' = <[s := rf']> (servers g) →
  currentTerm rf <= currentTerm rf' → log rf' = log rf → calm rf rf' → steps_to G V g'.
Proof.
  intros Hi Hl' Hw Ha Hsz Hcs Hvs Hs Hsv Ht Hlog Hc. apply (steps_to_same _ _ V); [done|].
  apply (hist_inv_same_log G V V g g' s rf rf'); try done; [|apply records_new_refl].
  by apply (votes_rec_calm G G V g g' s rf rf'); [apply Hi|intros t|..].
Qed.

Lemma exec_tick_hist G V s c1 c2 g g' :
  hist_inv G V g → exec_tick s c1 c2 g = Done g' → election_inv g' → won_le g g' → steps_to G V g'.
Proof.
  intros Hi H He' Hw. pose proof (exec_tick_log _ _ _ _ _ _ (hv_log _ _ _ Hi) H He') as Hl'.
  unfold exec_tick in H. exec_inv. apply ticker_frame in H1 as (rf1 & Hf & Hel).
  assert (currentTerm rf1 = currentTerm x ∧ log rf1 = log x ∧ state rf1 = state x ∧ me rf1 = me x)
    as (Et & El & Es & Em) by (by destruct Hf as [->| ->]).
  destruct o as [el|].
  2:{ subst r. eapply (hist_inv_calm G V g _ s x rf1); try done; [by eapply acks_from_spawn|lia|].
      by apply calm_same. }
  destruct (lv_peers _ _ (hv_log _ _ _ Hi) _ _ H0) as [Hok H00 Hpos Hco Hld].
  pose proof (leaderElection_describes _ _ _ _ ltac:(rewrite El; apply Hok) ltac:(by rewrite El) Hel) as Hd.
  pose proof (leaderElection_spec _ _ _ _ Hel) as (_ & _ & _ & Hlog & Ht & _).
  assert (election_inv (put s rf1 g)) as He1.
  { eapply put_tame; [apply Hi|done|]. destruct Hf as [->| ->]; [reflexivity|by apply tame_fields]. }
  assert (votes_rec G V (put s rf1 g)) as Hv1.
  { eapply (votes_rec_calm G G V g _ s x rf1); try done; [apply Hi|by intros t|by apply calm_same]. }
  destruct (votes_rec_campaign G V (put s rf1 g)
    (campaign s el (spawn s l (put s r g))) c2 s rf1 r el (incarnation g s)) as [Hfresh Hv'];
    rewrite ?El, ?Et; try done.
  - apply lookup_insert_eq.
  - by rewrite <- El.
  - intros e. by apply (hv_terms _ _ _ Hi s).
  - cbn. by rewrite insert_insert_eq.
  - rewrite El in Hv'. eapply steps_to_same; [by apply insert_subseteq|].
    eapply (hist_inv_same_log G V _ g _ s x r); try done; [|by eapply acks_from_spawn|lia|congruence].
    apply records_new_insert; [done|done|left; lia].
Qed.

Lemma exec_start_hist G V s c cmd g g' :
  hist_inv G V g → exec_start s c cmd g = Done g' → election_inv g' → won_le g g' → steps_to G V g'.
Proof.
  intros Hi H He' Hw.
  destruct (exec_start_log _ _ _ _ _ _ (hv_log _ _ _ Hi) H He') as (G' & Hg & Hled & Hl').
  unfold exec_start in H. exec_inv. exists G', V. split_and!; [done|done|].
  destruct (lv_peers _ _ (hv_log _ _ _ Hi) _ _ H0) as [Hok _ _ _ _].
  pose proof (wp_post _ _ _ (Start_total c cmd x Hok) H1) as [_ Hcase].
  pose proof (Start_calm _ _ _ _ _ _ H1) as Hcalm. pose proof (λ e, hv_terms _ _ _ Hi s x e H0) as Hte.
  assert (currentTerm r = currentTerm x ∧ Entries (log x) `prefix_of` Entries (log r) ∧
    ∀ e, e ∈ Entries (log r) → Term e <= currentTerm x) as (Ht & Hp & Hte').
  { case_bool_decide; [|destruct Hcase as (-> & _); by split_and!].
    destruct Hcase as (-> & _ & ? & _). cbn. split_and!; [done|by eexists|].
    intros e [?| ->%list_elem_of_singleton]%elem_of_app; [by apply Hte|]. cbn. lia. }
  eapply (hist_inv_step G G' V V g _ s x r); try done; [|apply records_new_refl|by eapply acks_from_spawn|lia|..].
  - eapply (votes_rec_calm G G' V g _ s x r); try done. apply Hi.
  - intros e He. rewrite Ht. by apply Hte'.
  - intros t B _ _ HB. left. by transitivity (Entries (log x)).
Qed.

Lemma exec_vote_req_hist G V i c g g' :
  hist_inv G V g → exec_vote_req i c g = Done g' → election_inv g' → won_le g g' → steps_to G V g'.
Proof.
  intros Hi H He' Hw. pose proof (exec_vote_req_log _ _ _ _ _ (hv_log _ _ _ Hi) H He') as Hl'.
  unfold exec_vote_req in H. exec_inv.
  destruct (lv_peers _ _ (hv_log _ _ _ Hi) _ _ H2) as [Hok H00 _ Hco _].
  pose proof (wp_post _ _ _ (RequestVote_total c (cpArgs x0) x1 Hok) H3) as [_ Hlog].
  pose proof (RequestVote_calm _ _ _ _ _ H3) as Hcalm.
  set (g' := set_voteCalls _ _) in *. set (t := cpTerm x0) in *. set (s := vcTo x) in *.
  assert (∀ y u d, voted_in g' y u d ↔ voted_in g y u d ∨
    VoteGranted r0 = true ∧ y = s ∧ u = t ∧ d = cpOwner x0) as Hvoted.
  { intros y u d. by apply (voted_reply (campaigns g) (voteCalls g) i x x0). }
  destruct (VoteGranted r0) eqn:Eg.
  2:{ apply (RequestVote_refused _ _ _ _ _ H3) in Eg as [[Hq _] _]. apply quiet_terms in Hq as [Ht _].
      apply (steps_to_same _ _ V); [done|].
      eapply (hist_inv_same_log G V V g g' s x1 r); try done;
        [|apply records_new_refl|by apply acks_from_same].
      eapply (votes_rec_frame G G V g g'); try done; [apply Hi|by intros u|naive_solver|].
      cbn. intros y rf' [[<- <-]|[_ ?]]%lookup_insert_Some Hst; [destruct (Hcalm Hst) as (?&?&?)|]; eauto. }
  pose proof (RequestVote_upto _ _ _ _ _ ltac:(apply Hok) H00 H3 Eg) as Hup.
  apply (RequestVote_granted _ _ _ _ _ H3) in Eg as (_ & _ & _ & _ & Ht & _ & Hle).
  assert (∃ V', V ⊆ V' ∧ (∀ y u l, V' !! (y, u) = Some l → V !! (y, u) = Some l ∨
      V !! (y, u) = None ∧ y = s ∧ u = t ∧ G u = [] ∧ l = Entries (log x1)) ∧
    (G t = [] → is_Some (V' !! (s, t)))) as (V' & HV & Hrec & Hopen).
  { destruct (decide (G t = [])) as [Hnil|]; [|exists V; split_and!; [done|by left|done]].
    destruct (V !! (s, t)) as [l|] eqn:E; [exists V; split_and!; [done|by left|by eexists]|].
    exists (<[(s, t) := Entries (log x1)]> V). split_and!.
    - by apply insert_subseteq.
    - intros y u l [[[= <- <-] <-]|[_ ?]]%lookup_insert_Some; [by right|by left].
    - intros _. rewrite lookup_insert_eq. by eexists. }
  apply (steps_to_same _ _ V'); [done|].
  eapply (hist_inv_same_log G V V' g g' s x1 r); try done.
  - eapply (votes_rec_vote G V V' g g' s x1 r); try done; [apply Hi|apply Hi|]. naive_solver.
  - split; [done|]. intros y u l Hl. destruct (Hrec y u l Hl) as [?|(_ & -> & -> & Hnil & ->)]; [by left|right].
    exists x1. split_and!; [done|done|]. destruct Hle as [[? _]|(? & _)]; [by left|by right].
  - by apply acks_from_same.
  - destruct Hle as [[? _]|(? & _)]; unfold cpTerm in *; lia.
Qed.

Lemma candidateRequest_won c el reply rf rf' el' out :
  candidateRequest c el reply rf = Done (rf', el', out) → becomeLeader el = false →
  becomeLeader el' = true → state rf = Candidate ∧ currentTerm rf = vaTerm (elArgs el).
Proof.
  unfold candidateRequest. intros H Hf Hw. go_inv; cbn in Hw; try congruence.
  zbool. case_bool_decide; [|done]. split; [done|]. cbn in *. lia.
Qed.

Lemma exec_vote_reply_hist G V i c g g' :
  hist_inv G V g → exec_vote_reply i c g = Done g' → election_inv g' → won_le g g' → steps_to G V g'.
Proof.
  intros Hi H He' Hw.
  destruct (exec_vote_reply_log _ _ _ _ _ (hv_log _ _ _ Hi) H He') as (G' & Hg & Hled & Hl').
  unfold exec_vote_reply in H. exec_inv. exists G', V. split_and!; [done|done|].
  pose proof (candidateRequest_calm _ _ _ _ _ _ _ H4) as Hcalm.
  pose proof (candidateRequest_won _ _ _ _ _ _ _ H4) as Hwon.
  pose proof (candidateRequest_spec _ _ _ _ _ _ _ H4)
    as (_ & _ & _ & Hlog & _ & Ht & Hargs & _ & _ & _ & _ & Hlead).
  set (g' := spawn _ _ _) in *. set (cp' := mkCampaign e (cpIncarnation x0)) in *.
  assert (cpArgs cp' = cpArgs x0) as Ha by done.
  assert (servers g' !! cpOwner x0 = Some r0) as Hs' by apply lookup_insert_eq.
  eapply (hist_inv_step G G' V V g g' (cpOwner x0) x1 r0); try done;
    [|apply records_new_refl|by eapply acks_from_spawn|..].
  - apply (votes_rec_count G G' V g g' (cpOwner x0) x1 r0 (vcCampaign x) x0 cp'); try done; [apply Hi| |].
    { intros y u d. by apply (voted_finish (campaigns g) (voteCalls g) i x x0 cp'). }
    intros Hc. destruct (cpWon x0) eqn:E0; [by left|right].
    destruct (Hwon E0 Hc) as [Hst Htx]. destruct (Hlead E0 Hc) as [Hl Htr]. split.
    + pose proof (lv_pos _ _ (hv_log _ _ _ Hi) _ _ H1) as Hpos. unfold cpTerm in *. rewrite <- Ha in *.
      apply (fresh_term G g g' (vcCampaign x) x0 cp'); try done. apply Hi.
    + exists (Entries (log x1)). split.
      * rewrite <- (vr_candidate _ _ _ (hv_votes _ _ _ Hi) _ _ H2 Hst), Htx. done.
      * rewrite <- Hlog, (pl_leader _ _ (lv_peers _ _ Hl' _ _ Hs') Hl), Htr. done.
  - intros y Hin. rewrite Hlog in Hin. pose proof (hv_terms _ _ _ Hi _ _ _ H2 Hin). lia.
  - intros t B _ _ HB. left. by rewrite Hlog.
Qed.

Lemma exec_entry_reply_hist G V i g g' :
  hist_inv G V g → exec_entry_reply i g = Done g' → election_inv g' → won_le g g' → steps_to G V g'.
Proof.
  intros Hi H He' Hw. pose proof (exec_entry_reply_log _ _ _ _ (hv_log _ _ _ Hi) H He') as Hl'.
  unfold exec_entry_reply in H. exec_inv. pose proof (leaderSendEntries_calm _ _ _ _ _ H3) as Hc.
  pose proof (leaderSendEntries_tame _ _ _ _ _ H3) as [[Hq _] Hlog]. apply quiet_terms in Hq as [Ht _].
  eapply (hist_inv_calm G V g _ (ecFrom x) x0); try done.
  eapply (acks_from_update G _ _ i); [done..|]. rewrite Heqc. by left.
Qed.

Lemma exec_apply_hist G V s g g' :
  hist_inv G V g → exec_apply s g = Done g' → election_inv g' → won_le g g' → steps_to G V g'.
Proof.
  intros Hi H He' Hw. pose proof (exec_apply_log _ _ _ _ (hv_log _ _ _ Hi) H He') as Hl'.
  unfold exec_apply in H. exec_inv. pose proof (LoopCommit_calm _ _ _ H1) as Hc.
  apply LoopCommit_tame in H1 as [[Hq _] Hlog]. apply quiet_terms in Hq as [Ht _].
  eapply (hist_inv_calm G V g _ s x r); try done; try by destruct o. apply acks_from_same. by destruct o.
Qed.

Lemma exec_restart_hist G V s c g g' :
  hist_inv G V g → exec_restart s c g = Done g' → election_inv g' → won_le g g' → steps_to G V g'.
Proof.
  intros Hi H He' Hw. pose proof (exec_restart_log _ _ _ _ _ (hv_log _ _ _ Hi) H He') as Hl'.
  unfold exec_restart in H. exec_inv.
  destruct (ei_servers _ (lv_election _ _ (hv_log _ _ _ Hi)) _ _ H0) as (Hme & _ & _ & Hst).
  replace (Copy (persister x)) with (persister x) in H1 by (by destruct (persister x)).
  destruct (Make_recovers (size g) c x Hst) as (rf' & Hmk & _ & _ & _ & Ht & _ & Hlog & Hf & _).
  rewrite Hme in Hmk. assert (rf' = x0) as -> by congruence.
  eapply (hist_inv_calm G V g _ s x x0); try done; [by apply acks_from_same|lia|].
  intros ?. congruence.
Qed.

Lemma merge_elem own k es e : (k <= length own)%nat → e ∈ merge own k es → e ∈ own ∨ e ∈ es.
Proof.
  intros Hk. destruct (merge_conflict own k es Hk) as [->|(j & x & _ & _ & -> & _)]; [by left|].
  intros [Hin|Hin]%elem_of_app; [left|right].
  - eapply elem_of_prefix; [exact Hin|apply take_prefix].
  - rewrite <- (take_drop j es). apply elem_of_app. by right.
Qed.

(** What a successful AppendEntries of call [call] makes of the receiver's log. *)
Lemma append_effect G V g g' call rf rf' :
  hist_inv G V g → call_ok g G call → peer_log G rf → won_le g g' →
  (∀ e, e ∈ Entries (log rf) → Term e <= currentTerm rf) →
  currentTerm rf <= aaTerm (ecArgs call) → currentTerm rf' = aaTerm (ecArgs call) →
  matches_prev (log rf) (ecArgs call) → log rf' = merged (log rf) (ecArgs call) →
  (∀ e, e ∈ Entries (log rf') → Term e <= currentTerm rf') ∧
  take (S (Z.to_nat (PrevLogIndex (ecArgs call)) + length (aaEntries (ecArgs call))))
    (G (aaTerm (ecArgs call))) `prefix_of` Entries (log rf') ∧
  ∀ t B, t <= currentTerm rf → B `prefix_of` G t → B `prefix_of` Entries (log rf) →
    B `prefix_of` Entries (log rf') ∨ lost g' V t B (currentTerm rf').
Proof.
  intros Hi (Hwon & _ & _ & Hpos & _ & (e & He & Hte) & Hes) [_ H00 _ Hco _] Hw Hown Hle Ht (_ & e0 & He0 & Hte0) Hlog.
  rewrite H00, Z.sub_0_r in He0. rewrite Hlog, Ht. cbn. rewrite H00.
  set (a := ecArgs call) in *. set (p := Z.to_nat (PrevLogIndex a)) in *.
  replace (Z.to_nat (PrevLogIndex a + 1 - 0)) with (S p) by lia.
  pose proof (lookup_lt_Some _ _ _ He0) as Hp. split_and!.
  - intros y [Hy|Hy]%merge_elem; [apply Hown in Hy; lia| |lia].
    apply (hv_history _ _ _ Hi). eapply elem_of_prefix in Hes; [|exact Hy].
    rewrite <- (take_drop (S p)). apply elem_of_app. by right.
  - eapply merge_has; [done|apply (lv_history _ _ (hv_log _ _ _ Hi))|done| |done].
    exists e. split; [done|congruence].
  - intros t B HtB HBG HB. destruct (decide (t = aaTerm a)) as [->|].
    { left. by eapply merge_keeps. }
    destruct (vr_won _ _ _ (hv_votes _ _ _ Hi) _ _ Hwon) as (l & _ & Hl & Hpre & _).
    destruct (decide (B `prefix_of` l)) as [Hbl|Hbl].
    + left. eapply merge_keeps; [done|done|done|by etransitivity].
    + right. exists (aaTerm a), (ecFrom call), l. split_and!; [lia|lia|by apply Hw|done|done].
Qed.

Lemma exec_entry_req_hist G V i c g g' :
  hist_inv G V g → exec_entry_req i c g = Done g' → election_inv g' → won_le g g' → steps_to G V g'.
Proof.
  intros Hi H He' Hw. pose proof (exec_entry_req_log _ _ _ _ _ (hv_log _ _ _ Hi) H He') as Hl'.
  unfold exec_entry_req in H. exec_inv. pose proof (lv_peers _ _ (hv_log _ _ _ Hi) _ _ H1) as Hpl.
  pose proof (lv_calls _ _ (hv_log _ _ _ Hi) _ _ H0) as Hcall. pose proof Hcall as (_ & _ & _ & _ & Hargs & _).
  pose proof (wp_post _ _ _ (AppendEntries_total c (ecArgs x) x0 (pl_ok _ _ Hpl) (pl_index0 _ _ Hpl) Hargs) H2)
    as (_ & _ & Hres).
  pose proof (AppendEntries_calm _ _ _ _ _ H2) as Hcalm.
  pose proof (AppendEntries_tame _ _ _ _ _ H2) as [Hq _]. apply quiet_terms in Hq as [Ht _].
  set (g' := set_entryCalls _ _) in *. destruct (Success a) eqn:Es.
  2:{ destruct Hres as [Hlog _]. eapply (hist_inv_calm G V g g' (ecTo x) x0 r); try done.
      eapply (acks_from_update G g g' i); [done..|]. cbn. congruence. }
  destruct Hres as (Hle & Hta & Hm & Hlog).
  destruct (append_effect G V g g' x x0 r) as (Hte & Hhas & Hkeep); try done.
  { intros e. by apply (hv_terms _ _ _ Hi (ecTo x)). }
  apply (steps_to_same _ _ V); [done|].
  eapply (hist_inv_step G G V V g g' (ecTo x) x0 r); try done.
  - by apply (votes_rec_calm G G V g g' (ecTo x) x0 r); [apply Hi|intros t|..].
  - by intros t.
  - apply led_refl.
  - apply records_new_refl.
  - eapply (acks_from_update G g g' i); [done..|]. intros _. right. exists r.
    split_and!; [apply lookup_insert_eq|done|done].
Qed.

Lemma exec_hist_inv l G V g g' :
  plain l → hist_inv G V g → exec l g = Done g' →
  won_le g g' ∧ calls_le g g' ∧ ∃ G' V', grows G G' ∧ V ⊆ V' ∧ hist_inv G' V' g'.
Proof.
  intros Hl Hi H. pose proof (exec_won_le _ _ _ H) as Hw. split; [done|].
  split; [by eapply exec_calls_le|].
  assert (election_inv g') as He'.
  { eapply exec_election_inv; [by apply plain_no_install|apply (hv_log _ _ _ Hi)|done]. }
  change (steps_to G V g'). destruct l; cbn in H, Hl; try done;
    eauto using exec_tick_hist, exec_start_hist, exec_vote_req_hist, exec_vote_reply_hist, exec_entry_req_hist,
      exec_entry_reply_hist, exec_apply_hist, exec_restart_hist.
Qed.

Lemma hist_inv_init n c g : initCluster n c = Done g → hist_inv initHistory ∅ g.
Proof.
  intros H. pose proof (log_inv_init _ _ _ H) as Hl. unfold initCluster in H. go_inv.
  assert (∀ s rf, x !! s = Some rf → log rf = initLog ∧ currentTerm rf = 0 ∧ state rf = Follower) as Hfresh.
  { intros s rf Hs. eapply makeServers_fresh in Hs as (_ & ? & ? & ?); [done| |done]. intros i Hi%elem_of_seqZ. lia. }
  assert (∀ s t d, ¬ voted [] [] s t d) as Hnone.
  { intros s t d [k cp Hk|i call cp Hk]; by rewrite lookup_nil in Hk. }
  assert (∀ g' t s, campaigns g' = [] → ¬ won_by g' t s) as Hwon.
  { intros g' t s E (k & cp & Hk & _). by rewrite E, lookup_nil in Hk. }
  split; [done| | |..].
  - split; cbn; try done.
    + by intros s t d Hv%Hnone.
    + intros s rf (_ & _ & ?)%Hfresh ?. congruence.
    + intros t d Hw. by apply Hwon in Hw.
  - split.
    + intros s t m t' l _ Hl'. by rewrite lookup_empty in Hl'.
    + intros s t m [Hw|i call Hc]; [by apply Hwon in Hw|]. cbn in Hc. by rewrite lookup_nil in Hc.
  - intros t e. unfold initHistory. case_decide; [|by intros ?%not_elem_of_nil]. subst.
    cbn. by intros ->%list_elem_of_singleton.
  - cbn. intros s rf e (-> & -> & _)%Hfresh. cbn. by intros ->%list_elem_of_singleton.
Qed.
End steps.
