(* ===== verification/RaftCommit.v ===== *)
(** * Committing and applying

    [Commit] is compared with its specification: the largest index above the
    commit index whose entry is of the current term and is stored, as far as
    [matchIndex] says, on a majority.  What the peers deliver to their services
    is in index order, without gaps. *)

From stdpp Require Import base list numbers gmap strings.
From Stdlib Require Import Lia.
From S2P Require Import Prelude RaftLog Persister RaftCore RaftLocal RaftCluster.
From S2P Require Import RaftElection RaftTotal RaftMatching.

Section commit.
Context {codec : RaftCodec}.

(** Peer [i] is known to store index [n]. *)
Definition stores (rf : Raft) (n i : Z) : Prop :=
  i ≠ me rf ∧ ∃ m, zlookup (matchIndex rf) i = Done m ∧ n <= m.

#[export] Instance stores_dec rf n i : Decision (stores rf n i).
Proof.
  destruct (zlookup (matchIndex rf) i) as [m| |] eqn:E.
  1: destruct (decide (i ≠ me rf ∧ n <= m)).
  1: left. 2-4: right. all: unfold stores; rewrite E; naive_solver.
Defined.

Definition copies (rf : Raft) (n : Z) (ids : list Z) : Z :=
  Z.of_nat (length (filter (stores rf n) ids)).

(** The leader itself and the peers that store [n] are more than half. *)
Definition replicated (rf : Raft) (n : Z) : Prop :=
  npeers rf / 2 < 1 + copies rf n (peerIds rf).

Definition committable (rf : Raft) (n : Z) : Prop :=
  (∃ e, at_ (log rf) n = Done e ∧ Term e = currentTerm rf) ∧ replicated rf n.

Lemma copies_nonneg rf n ids : 0 <= copies rf n ids.
Proof. unfold copies. lia. Qed.

Lemma copies_cons rf n i ids :
  copies rf n (i :: ids) = (if decide (stores rf n i) then 1 else 0) + copies rf n ids.
Proof. unfold copies. rewrite filter_cons. case_decide; cbn; lia. Qed.

(** [CommitCount] answers whether the majority is reached, [break] or not. *)
Lemma CommitCount_spec rf n ids cnt :
  peer_ok rf → (∀ i, i ∈ ids → 0 <= i < npeers rf) →
  ∃ b : bool, CommitCount rf n ids cnt = Done b ∧
    (b = true ↔ ids ≠ [] ∧ npeers rf / 2 < cnt + copies rf n ids).
Proof.
  intros Hok. revert cnt. induction ids as [|i ids IH]; intros cnt Hids.
  { exists false. split; [done|]. naive_solver. }
  assert (∃ cnt', cnt' = cnt + (if decide (stores rf n i) then 1 else 0) ∧
    CommitCount rf n (i :: ids) cnt =
    if npeers rf / 2 <? cnt' then Done true else CommitCount rf n ids cnt') as (cnt' & Hc & ->).
  { exists (cnt + (if decide (stores rf n i) then 1 else 0)). split; [done|]. cbn.
    destruct (Z.eqb_spec i (me rf)) as [->|Hne].
    - rewrite decide_False by (by intros [? _]). cbn. by rewrite Z.add_0_r.
    - destruct (zlookup_total (matchIndex rf) i) as [m Hm].
      { rewrite (po_match _ Hok). apply Hids. by left. }
      rewrite Hm. cbn. destruct (Z.leb_spec n m).
      + rewrite decide_True by (split; eauto). done.
      + rewrite decide_False, Z.add_0_r; [done|]. intros (_ & m' & Hm' & ?).
        assert (m = m') as <- by congruence. lia. }
  rewrite copies_cons. pose proof (copies_nonneg rf n ids).
  destruct (Z.ltb_spec (npeers rf / 2) cnt') as [Hlt|Hge].
  - exists true. split; [done|]. split; [|done]. intros _. split; [done|lia].
  - destruct (IH cnt') as (b & Hb & Hiff); [intros j Hj; apply Hids; by right|].
    exists b. split; [done|]. rewrite Hiff. split.
    + intros [_ ?]. split; [done|lia].
    + intros [_ ?]. split; [|lia]. intros ->. unfold copies in *. cbn in *. lia.
Qed.

(** The effect of the loop over the indices [ns]: the last committable one. *)
Definition last_committable (rf : Raft) (ns : list Z) (rf' : Raft) : Prop :=
  (rf' = rf ∧ ∀ n, n ∈ ns → ¬ committable rf n) ∨
  ∃ pre n post, ns = pre ++ n :: post ∧ committable rf n ∧
    (∀ m, m ∈ post → ¬ committable rf m) ∧ rf' = SendMsg (set_commitIndex n rf).

Lemma committable_commitIndex rf n m :
  committable (SendMsg (set_commitIndex n rf)) m ↔ committable rf m.
Proof. done. Qed.

Lemma last_committable_cons rf n ns rf' b :
  (b = true ↔ committable rf n) →
  last_committable (if b : bool then SendMsg (set_commitIndex n rf) else rf) ns rf' →
  last_committable rf (n :: ns) rf'.
Proof.
  intros Hb [[-> Hn]|(pre & m & post & -> & Hm & Hpost & ->)]; destruct b.
  - right. exists [], n, ns. split_and!; [done|by apply Hb|by apply Hn|done].
  - left. split; [done|]. intros m [->|?]%elem_of_cons; [|by apply Hn].
    intros H%Hb. done.
  - right. exists (n :: pre), m, post. split_and!; done.
  - right. exists (n :: pre), m, post. split_and!; done.
Qed.

Lemma CommitLoop_spec ns rf :
  peer_ok rf → (∀ n, n ∈ ns → Index0 (log rf) <= n <= lastIndex (log rf)) →
  ∃ rf', CommitLoop ns rf = Done rf' ∧ last_committable rf ns rf'.
Proof.
  revert rf. induction ns as [|n ns IH]; intros rf Hok Hns.
  { exists rf. split; [done|]. left. split; [done|]. by intros n Hn%not_elem_of_nil. }
  destruct (at_total (log rf) n) as (e & He & _); [apply Hok|apply Hns; by left|].
  assert (∀ m, m ∈ ns → Index0 (log rf) <= m <= lastIndex (log rf)) as Hns'
    by (intros m Hm; apply Hns; by right).
  cbn. rewrite He. cbn. destruct (Z.eqb_spec (Term e) (currentTerm rf)) as [Ht|Ht]; cbn.
  - destruct (CommitCount_spec rf n (peerIds rf) 1 Hok) as (b & Hb & Hiff).
    { intros i. unfold peerIds. rewrite elem_of_seqZ. lia. }
    rewrite Hb. cbn.
    destruct (IH (if b then SendMsg (set_commitIndex n rf) else rf)) as (rf' & Hrf' & Hl).
    { destruct Hok, b; split; try done. cbn. apply (Hns n). by left. }
    { by destruct b. }
    exists rf'. split; [done|]. eapply last_committable_cons; [|exact Hl].
    rewrite Hiff. unfold committable, replicated. split; [intros [_ ?]; eauto|].
    intros [_ ?]. split; [|done]. unfold peerIds. pose proof (po_me _ Hok).
    rewrite seqZ_cons by lia. done.
  - destruct (IH rf Hok Hns') as (rf' & Hrf' & Hl). exists rf'. split; [done|].
    apply (last_committable_cons _ _ _ _ false); [|done]. split; [done|].
    intros [(e' & He' & ?) _]. assert (e = e') as <- by congruence. done.
Qed.

Lemma Commit_last rf :
  peer_ok rf → state rf = Leader →
  ∃ rf', Commit rf = Done rf' ∧
    last_committable rf (seqZ (commitIndex rf + 1) (lastIndex (log rf) - commitIndex rf)) rf'.
Proof.
  intros Hok Hs. unfold Commit. rewrite bool_decide_eq_true_2 by done. cbn.
  destruct (LastLog_total (log rf)) as (e & -> & Hi & _); [apply Hok|]. cbn. rewrite Hi.
  apply CommitLoop_spec; [done|]. intros n. rewrite elem_of_seqZ.
  pose proof (po_commit _ Hok). lia.
Qed.

(** C37. [Commit] moves the leader's commit index to the last index behind it that
    holds an entry of the current term and is stored by a majority, and leaves it
    where it was if there is none. *)
Lemma Commit_spec rf :
  peer_ok rf → state rf = Leader →
  ∃ rf', Commit rf = Done rf' ∧
    last_committable rf (seqZ (commitIndex rf + 1) (lastIndex (log rf) - commitIndex rf)) rf'.
Proof. apply Commit_last. Qed.

(** ** Only [LoopCommit] moves [lastApplied] (restarts and snapshots apart) *)

(** What the other methods leave alone. *)
Definition kept (rf : Raft) : Z * Z := (dead rf, lastApplied rf).

Lemma setNewTerm_applied t rf : kept (setNewTerm t rf) = kept rf.
Proof. unfold setNewTerm. by destruct (_ || _). Qed.

Lemma adopt_applied t rf : kept (adopt t rf) = kept rf.
Proof. unfold adopt. destruct (_ <? _); [apply setNewTerm_applied|done]. Qed.

Lemma appendEntries_applied hb c rf rf' out :
  appendEntries hb c rf = Done (rf', out) → kept rf' = kept rf.
Proof. by intros [->| ->]%appendEntries_frame. Qed.

Lemma ticker_applied c1 c2 rf rf' out oel :
  ticker c1 c2 rf = Done (rf', out, oel) → kept rf' = kept rf.
Proof.
  unfold ticker. intros H. destruct (killed rf); [done|].
  apply bind_Done in H as ([rf1 out1] & H1 & H). transitivity (kept rf1).
  - clear H1. unfold leaderElection in H. by go_inv.
  - clear H. go_inv; [by eapply appendEntries_applied|done].
Qed.

Lemma Start_applied c cmd rf rf' res out :
  Start c cmd rf = Done (rf', res, out) → kept rf' = kept rf.
Proof. unfold Start. intros H. go_inv; [done|]. by apply appendEntries_applied in H1. Qed.

Lemma RequestVote_applied c args rf rf' reply :
  RequestVote c args rf = Done (rf', reply) → kept rf' = kept rf.
Proof.
  unfold RequestVote. fold (adopt (vaTerm args) rf). intros H. go_inv; [done|..]; apply adopt_applied.
Qed.

Lemma candidateRequest_applied c el reply rf rf' el' out :
  candidateRequest c el reply rf = Done (rf', el', out) → kept rf' = kept rf.
Proof.
  unfold candidateRequest. intros H. go_inv; try done; [apply setNewTerm_applied|].
  unfold winElection in *. go_inv.
  match goal with H : resetPeers _ _ _ = _ |- _ => apply resetPeers_frame in H as (?&?&->) end.
  by match goal with H : appendEntries _ _ _ = _ |- _ => apply appendEntries_applied in H end.
Qed.

Lemma AppendLoop_applied es rf rf' : AppendLoop es rf = Done rf' → kept rf' = kept rf.
Proof.
  revert rf. induction es as [|e es IH]; intros rf H; cbn in H; [by go_inv|].
  apply bind_Done in H as (lastl & _ & H). apply bind_Done in H as (rf1 & H1 & H).
  transitivity (kept rf1).
  - clear H1. go_inv; [done|by apply IH].
  - clear H. by go_inv.
Qed.

Lemma AppendEntries_applied c args rf rf' reply :
  AppendEntries c args rf = Done (rf', reply) → kept rf' = kept rf.
Proof.
  unfold AppendEntries. fold (adopt (aaTerm args) rf). intros H.
  destruct (aaTerm args <? currentTerm rf); [by go_inv|].
  rewrite <- (adopt_applied (aaTerm args) rf). set (rf1 := adopt _ _) in *.
  destruct (_ <? Index0 _); [by go_inv|].
  set (rf2 := if bool_decide _ then _ else rf1) in *.
  assert (kept rf2 = kept rf1) as <- by (subst rf2; by destruct (bool_decide _)).
  go_inv; try done;
    match goal with H : AppendLoop _ _ = _ |- _ => by apply AppendLoop_applied in H end.
Qed.

Lemma leaderSendEntries_applied peer args reply rf rf' :
  leaderSendEntries peer args reply rf = Done rf' → kept rf' = kept rf.
Proof.
  unfold leaderSendEntries. intros H. destruct (_ <? _); [go_inv; apply setNewTerm_applied|].
  destruct (bool_decide _); [|by go_inv]. apply bind_Done in H as (rf1 & H1 & H).
  transitivity (kept rf1).
  - clear H1. unfold Commit in H. go_inv; [done|]. by apply CommitLoop_frame in H as [->|(?&_&->)].
  - clear H. by go_inv.
Qed.

Lemma Make_alive n me ps c rf : Make n me ps c = Done rf → dead rf = 0.
Proof. unfold Make, readPersist. intros H. go_inv; done. Qed.

Lemma LoopCommit_applied rf rf' msg :
  LoopCommit rf = Done (rf', msg) → dead rf' = dead rf ∧
  match msg with
  | Some m => lastApplied rf' = lastApplied rf + 1 ∧ CommandIndex m = lastApplied rf + 1
  | None => lastApplied rf' = lastApplied rf
  end.
Proof. unfold LoopCommit. intros H. go_inv; done. Qed.

(** The deliveries of one step: at most one, of the index behind [lastApplied];
    no step kills a peer. *)
Lemma exec_applied l g g' :
  plain l → exec l g = Done g' →
  ∃ s rf rf', servers g !! s = Some rf ∧ servers g' = <[s := rf']> (servers g) ∧ (dead rf = 0 → dead rf' = 0) ∧
    (applied g' = applied g ∧ (lastApplied rf' = lastApplied rf ∨
       ∃ c, l = LRestart s c ∧ Make (size g) s (Copy (persister rf)) c = Done rf') ∨
     ∃ m, applied g' = applied g ++ [(s, m)] ∧ CommandValid m = true ∧
       lastApplied rf' = lastApplied rf + 1 ∧ CommandIndex m = lastApplied rf + 1).
Proof.
  intros Hp H.
  assert (∀ s rf rf', servers g !! s = Some rf → servers g' = <[s := rf']> (servers g) → applied g' = applied g →
    kept rf' = kept rf → ∃ s rf rf', servers g !! s = Some rf ∧ servers g' = <[s := rf']> (servers g) ∧
      (dead rf = 0 → dead rf' = 0) ∧
      (applied g' = applied g ∧ (lastApplied rf' = lastApplied rf ∨
         ∃ c, l = LRestart s c ∧ Make (size g) s (Copy (persister rf)) c = Done rf') ∨
       ∃ m, applied g' = applied g ++ [(s, m)] ∧ CommandValid m = true ∧
         lastApplied rf' = lastApplied rf + 1 ∧ CommandIndex m = lastApplied rf + 1)) as Hkeep.
  { intros s rf rf' Hs Hsv Ha [= Hd Hl]. exists s, rf, rf'. split_and!; [done|done|congruence|auto]. }
  destruct l; cbn in H, Hp; try done.
  - unfold exec_tick in H. exec_inv. apply ticker_applied in H1. by apply (Hkeep s x r); destruct o.
  - unfold exec_start in H. exec_inv. apply Start_applied in H1. by apply (Hkeep s x r).
  - unfold exec_vote_req in H. exec_inv. apply RequestVote_applied in H3. by apply (Hkeep (vcTo x) x1 r).
  - unfold exec_vote_reply in H. exec_inv. apply candidateRequest_applied in H4. by apply (Hkeep (cpOwner x0) x1 r0).
  - unfold exec_entry_req in H. exec_inv. apply AppendEntries_applied in H2. by apply (Hkeep (ecTo x) x0 r).
  - unfold exec_entry_reply in H. exec_inv. apply leaderSendEntries_applied in H3. by apply (Hkeep (ecFrom x) x0 x2).
  - unfold exec_apply in H. exec_inv. destruct (LoopCommit_applied _ _ _ H1) as [Hd Ha]. exists s, x, r.
    split_and!; [done|by destruct o|congruence|]. destruct o as [m|]; [right; exists m|left; auto]. destruct Ha as [? ?].
    split_and!; try done. unfold LoopCommit in H1. go_inv; done.
  - unfold exec_restart in H. exec_inv. exists s, x, x0. split_and!; [done..|intros _; by eapply Make_alive|].
    left. split; [done|right; eauto].
Qed.

End commit.
