(* ===== verification/RaftChosen.v ===== *)
(** * Chosen entries

    An entry is [chosen] when it is of the term of the leader that replicated it
    and a majority has acknowledged it.  It is in the log of every later leader
    (leader completeness): the majority that elected that leader has a peer in
    common with the majority that acknowledged the entry. *)

From stdpp Require Import base list numbers gmap strings.
From Stdlib Require Import Lia.
From S2P Require Import Prelude RaftLog Persister RaftCore RaftLocal RaftCluster.
From S2P Require Import RaftElection RaftTotal RaftMatching RaftHistory RaftVotes RaftSteps.

Section chosen.
Context `{laws : !RaftCodecLaws codec}.

Definition chosen (G : history) (g : Cluster) (t : Z) (n : nat) : Prop :=
  (∃ e, G t !! n = Some e ∧ Term e = t) ∧
  ∃ q, quorum (size g) q ∧ ∀ s, s ∈ q → acked G g s t n.

Lemma chosen_mono G G' g g' t n :
  size g' = size g → grows G G' → won_le g g' → calls_le g g' → chosen G g t n → chosen G' g' t n.
Proof.
  intros Hsz Hg Hw Hc [(e & He & Hte) (q & Hq & Ha)]. split.
  - exists e. split; [|done]. by eapply prefix_lookup_Some.
  - exists q. rewrite Hsz. split; [done|]. intros s Hs. by eapply acked_mono; [..|apply Ha].
Qed.

Lemma coherent_last (G : history) l e :
  coherent G l → last l = Some e → l = take (length l) (G (Term e)).
Proof.
  intros Hc Hl. rewrite last_lookup in Hl. pose proof (lookup_lt_Some _ _ _ Hl).
  specialize (Hc _ _ Hl). replace (S (Nat.pred (length l))) with (length l) in Hc by lia.
  by rewrite take_ge in Hc by lia.
Qed.

Lemma last_elem (G : history) l e : coherent G l → last l = Some e → e ∈ G (Term e).
Proof.
  intros Hc Hl. assert (e ∈ l) as Hin.
  { rewrite last_lookup in Hl. by eapply list_elem_of_lookup_2. }
  rewrite (coherent_last G l e Hc Hl) in Hin. eapply elem_of_prefix; [exact Hin|apply take_prefix].
Qed.

(** A log that is not older than one that has a chosen entry has it too, if all
    leaders of the terms between have it. *)
Lemma upto_keeps G V g t n l l' a u :
  hist_inv G V g → (∃ e, G t !! n = Some e ∧ Term e = t) → 0 <= t →
  coherent G l → coherent G l' → describes l a → upto l' a → (∀ e, e ∈ l → Term e < u) →
  (∀ t1 c, won_by g t1 c → t < t1 < u → take (S n) (G t) `prefix_of` G t1) →
  take (S n) (G t) `prefix_of` l' → take (S n) (G t) `prefix_of` l.
Proof.
  intros Hi (e & He & Hte) Hpos Hc Hc' (e1 & Hl1 & Ht1 & Hi1) (e2 & Hl2 & Hup) Hu Hbetween Hp.
  assert (l' = take (length l') (G (Term e2))) as E2 by (by apply coherent_last).
  assert (l = take (length l) (G (Term e1))) as E1 by (by apply coherent_last).
  destruct Hup as [Hlt|[Heq Hlen]].
  2:{ etransitivity; [exact Hp|]. rewrite E2, E1, Heq, Ht1. apply prefix_take_le. lia. }
  assert (take (S n) (G t) !! n = Some e) as Hn by (rewrite lookup_take_lt; [done|lia]).
  assert (t <= Term e2) as Hle.
  { rewrite <- Hte. apply (hv_history _ _ _ Hi). eapply elem_of_prefix; [|rewrite E2 in Hp; etransitivity; [exact Hp|apply take_prefix]].
    by eapply list_elem_of_lookup_2. }
  pose proof (last_elem G l e1 Hc Hl1) as Hin1.
  destruct (lv_known _ _ (hv_log _ _ _ Hi) (Term e1)) as [?|[c Hw]].
  { intros Hnil. rewrite Hnil in Hin1. by apply not_elem_of_nil in Hin1. }
  { lia. }
  assert (Term e1 < u) as Hlt1.
  { apply Hu. rewrite last_lookup in Hl1. by eapply list_elem_of_lookup_2. }
  pose proof (Hbetween _ _ Hw ltac:(lia)) as Hb. rewrite E1. apply prefix_take; [done|].
  destruct (decide (length (take (S n) (G t)) <= length l)%nat) as [|Hshort]; [done|exfalso].
  rewrite last_lookup in Hl1. pose proof (lookup_lt_Some _ _ _ Hl1).
  assert (G (Term e1) !! Nat.pred (length l) = Some e1) as Hg1.
  { by assert (take (length l) (G (Term e1)) !! Nat.pred (length l) = Some e1) as [? _]%lookup_take_Some
      by (by rewrite <- E1). }
  rewrite (prefix_lookup_eq _ _ _ Hb) in Hg1 by lia.
  apply lookup_take_Some in Hg1 as [Hg1 _]. apply list_elem_of_lookup_2, (hv_history _ _ _ Hi) in Hg1. lia.
Qed.

Lemma chosen_term G V g t n : hist_inv G V g → chosen G g t n → 0 <= t.
Proof.
  intros Hi [(e & He & _) _]. destruct (lv_known _ _ (hv_log _ _ _ Hi) t) as [->|[c (k & cp & Hk & _ & <- & _)]].
  - intros E. by rewrite E, lookup_nil in He.
  - done.
  - pose proof (lv_pos _ _ (hv_log _ _ _ Hi) _ _ Hk). lia.
Qed.

Lemma won_size g t c : election_inv g → won_by g t c → 0 <= size g.
Proof.
  intros He (k & cp & Hk & _).
  destruct (bs_voted _ _ _ (ei_ballots _ He) (cpOwner cp) (cpTerm cp) (cpOwner cp)) as (_ & rf & Hrf & _).
  { by eapply voted_self. }
  destruct (ei_servers _ He _ _ Hrf) as (_ & _ & ? & _). lia.
Qed.

(** Leader completeness: a chosen entry is in the log with which any later leader
    was elected. *)
Lemma chosen_elected G V g t n t' c :
  hist_inv G V g → chosen G g t n → won_by g t' c → t < t' →
  ∃ l, V !! (c, t') = Some l ∧ take (S n) (G t) `prefix_of` l.
Proof.
  intros Hi Hch. pose proof (chosen_term _ _ _ _ _ Hi Hch) as Hpos.
  destruct Hch as [Hn (q & Hq & Hacks)]. pose proof (hv_votes _ _ _ Hi) as Hv. revert c.
  induction t' as [t' IH] using (well_founded_induction (Z.lt_wf 0)). intros c Hw Ht.
  destruct (vr_won _ _ _ Hv _ _ Hw) as (l & q' & Hl & _ & Hq' & Hqv). exists l. split; [done|].
  pose proof (won_size _ _ _ (lv_election _ _ (hv_log _ _ _ Hi)) Hw) as Hsz.
  destruct (quorum_meet _ _ _ Hsz Hq Hq') as (s & Hs & Hs').
  destruct (Hqv _ Hs') as [Hvt [l' Hl']]. destruct Hw as (k & cp & Hk & _ & <- & <-).
  destruct (vr_campaign _ _ _ Hv _ _ Hk) as (l1 & Hl1 & Hd & Hu). assert (l1 = l) as -> by congruence.
  eapply (upto_keeps G V g t n l l'); try done.
  - by eapply vr_recorded.
  - by eapply vr_recorded.
  - by eapply vr_upto.
  - intros t1 c1 Hw1 Ht1. destruct (IH t1 ltac:(lia) c1 Hw1 ltac:(lia)) as (l2 & Hl2 & Hp2).
    destruct (vr_won _ _ _ Hv _ _ Hw1) as (l3 & _ & Hl3 & Hp3 & _). assert (l3 = l2) as -> by congruence.
    by etransitivity.
  - destruct (ak_past _ _ _ (hv_acks _ _ _ Hi) _ _ _ _ _ (Hacks _ Hs) Hl' Ht) as [?|Hlost]; [done|exfalso].
    destruct Hlost as (t1 & c1 & l2 & Ht1 & Hw1 & Hl2 & Hno).
    destruct (IH t1 ltac:(lia) c1 Hw1 ltac:(lia)) as (l3 & Hl3 & Hp3). congruence.
Qed.

Lemma chosen_leader G V g t n t' c :
  hist_inv G V g → chosen G g t n → won_by g t' c → t <= t' → take (S n) (G t) `prefix_of` G t'.
Proof.
  intros Hi Hch Hw Ht. destruct (decide (t = t')) as [->|]; [apply take_prefix|].
  destruct (chosen_elected G V g t n t' c) as (l & Hl & Hp); try done; [lia|].
  destruct (vr_won _ _ _ (hv_votes _ _ _ Hi) _ _ Hw) as (l' & _ & Hl' & Hp' & _).
  assert (l' = l) as -> by congruence. by etransitivity.
Qed.
End chosen.
