(* ===== verification/RaftCommitted.v ===== *)
(** * What is committed

    What a peer has below its commit index are chosen entries, and so is what
    AppendEntries calls and the apply channels carry.  Every step of a run without
    snapshots keeps this, if the answer to an AppendEntries call does not reach its
    sender as the leader of another term ([prompt]): [leaderSendEntries] does not
    compare terms, and RaftSafety.v has a run in which that goes wrong. *)

From stdpp Require Import base list numbers gmap strings.
From Stdlib Require Import Lia.
From S2P Require Import Prelude RaftLog Persister RaftCore RaftLocal RaftCluster.
From S2P Require Import RaftElection RaftTotal RaftMatching RaftHistory RaftVotes RaftSteps.
From S2P Require Import RaftChosen RaftCommit.

(** ** The restriction on answers *)

Definition prompt (l : Label) (g : Cluster) : bool :=
  match l with
  | LSnapSend _ | LSnapReq _ | LSnapReply _ | LSnapshot _ _ _ | LCondInstall _ _ _ _ => false
  | LEntryReply i =>
      match entryCalls g !! i with
      | Some call =>
          match servers g !! ecFrom call with
          | Some rf => negb (bool_decide (state rf = Leader)) || (currentTerm rf =? aaTerm (ecArgs call))
          | None => true
          end
      | None => true
      end
  | _ => true
  end.

Lemma prompt_plain l g : prompt l g = true → plain l.
Proof. by destruct l. Qed.

Section agree.
Context `{laws : !RaftCodecLaws codec}.

Definition exec_prompt (l : Label) (g : Cluster) : outcome Cluster :=
  _ ← guard_ (prompt l g); exec l g.

Fixpoint run_prompt (ls : list Label) (g : Cluster) : outcome Cluster :=
  match ls with
  | [] => mret g
  | l :: ls' => g' ← exec_prompt l g; run_prompt ls' g'
  end.

Definition prompt_reach (n : Z) (g : Cluster) : Prop :=
  ∃ c g0 ls, initCluster n c = Done g0 ∧ run_prompt ls g0 = Done g.

Lemma exec_prompt_Done l g g' :
  exec_prompt l g = Done g' ↔ prompt l g = true ∧ exec l g = Done g'.
Proof. unfold exec_prompt. destruct (prompt l g); cbn; naive_solver. Qed.

(** ** What is committed *)

(** The log [es] of a peer in term [u] has chosen entries up to [k]. *)
Definition committed (G : history) (g : Cluster) (u : Z) (es : list Entry) (k : Z) : Prop :=
  k <= 0 ∨ ∃ t n, chosen G g t n ∧ t <= u ∧ (Z.to_nat k <= n)%nat ∧
    take (S (Z.to_nat k)) (G t) `prefix_of` es.

Definition call_committed (G : history) (g : Cluster) (a : AppendEntriesArgs) : Prop :=
  LeaderCommit a <= PrevLogIndex a + Z.of_nat (length (aaEntries a)) ∧
  committed G g (aaTerm a) (G (aaTerm a)) (LeaderCommit a).

Definition delivery_ok (G : history) (g : Cluster) (m : ApplyMsg) : Prop :=
  ∃ t n e, chosen G g t n ∧ 0 <= CommandIndex m ∧ (Z.to_nat (CommandIndex m) <= n)%nat ∧
    G t !! Z.to_nat (CommandIndex m) = Some e ∧
    m = mkApplyMsg true (Command e) (CommandIndex m) false [] 0 0.

(** What a leader [s] believes of the others. *)
Definition matches (G : history) (g : Cluster) (s : Z) (rf : Raft) : Prop :=
  state rf = Leader → ∀ i m, i ≠ s → zlookup (matchIndex rf) i = Done m → 0 < m →
    acked G g i (currentTerm rf) (Z.to_nat m).

Record commits_rec (G : history) (g : Cluster) : Prop := {
  cr_match s rf : servers g !! s = Some rf → matches G g s rf;
  cr_commit s rf : servers g !! s = Some rf →
    committed G g (currentTerm rf) (Entries (log rf)) (commitIndex rf);
  cr_calls i call : entryCalls g !! i = Some call → call_committed G g (ecArgs call);
  cr_applied s m : (s, m) ∈ applied g → delivery_ok G g m;
}.

(** [g'] and [G'] only add to what was elected, stored and acknowledged. *)
Record later (G G' : history) (g g' : Cluster) : Prop := {
  la_size : size g' = size g;
  la_grows : grows G G';
  la_won : won_le g g';
  la_calls : calls_le g g';
}.

Lemma later_refl G g : later G G g g.
Proof.
  split; [done|by intros t|by intros t s|]. intros i call Hi. exists call. done.
Qed.

Lemma later_chosen G G' g g' t n : later G G' g g' → chosen G g t n → chosen G' g' t n.
Proof. intros []. by apply chosen_mono. Qed.

Lemma committed_later G G' g g' u u' es es' k :
  later G G' g g' → u <= u' →
  (∀ t B, t <= u → B `prefix_of` G t → (∃ n, chosen G g t n ∧ (length B <= S n)%nat) →
     B `prefix_of` es → B `prefix_of` es') →
  committed G g u es k → committed G' g' u' es' k.
Proof.
  intros Hl Hu Hes [?|(t & n & Hch & Ht & Hk & Hp)]; [by left|right].
  exists t, n. split_and!; [by eapply later_chosen|lia|done|].
  destruct Hch as [(e & He & Hte) Hq]. apply lookup_lt_Some in He as Hlen.
  rewrite (grows_take G G') by (apply Hl || lia).
  apply (Hes t); [done|apply take_prefix| |done]. exists n. split; [|rewrite length_take; lia].
  split; eauto.
Qed.

Lemma committed_same G G' g g' u u' es es' k :
  later G G' g g' → u <= u' → es `prefix_of` es' → committed G g u es k → committed G' g' u' es' k.
Proof. intros Hl Hu Hes. apply committed_later; [done|done|]. intros. by etransitivity. Qed.

Lemma committed_bound G g u es k : committed G g u es k → k <= 0 ∨ k < Z.of_nat (length es).
Proof.
  intros [?|(t & n & [(e & He & _) _] & _ & Hk & Hp)]; [by left|right].
  apply lookup_lt_Some in He. apply prefix_length in Hp. rewrite length_take in Hp. lia.
Qed.

Lemma matches_later G G' g g' s rf : later G G' g g' → matches G g s rf → matches G' g' s rf.
Proof. intros [] Hm Hl i m Hi Hz Hpos. eapply acked_mono; [done..|by apply Hm]. Qed.

(** One peer moves; the calls that are new carry what is committed. *)
Lemma commits_step G G' g g' s rf rf' :
  commits_rec G g → later G G' g g' →
  servers g !! s = Some rf → servers g' = <[s := rf']> (servers g) →
  matches G' g' s rf' → committed G' g' (currentTerm rf') (Entries (log rf')) (commitIndex rf') →
  (∀ i call, entryCalls g' !! i = Some call →
     (∃ j call0, entryCalls g !! j = Some call0 ∧ ecArgs call = ecArgs call0) ∨
     call_committed G' g' (ecArgs call)) →
  (∀ x m, (x, m) ∈ applied g' → (x, m) ∈ applied g ∨ delivery_ok G' g' m) →
  commits_rec G' g'.
Proof.
  intros [H1 H2 H3 H4] Hl Hs Hsv Hm Hc Hcalls Happ. split.
  - rewrite Hsv. intros x r [[<- <-]|[_ ?]]%lookup_insert_Some; [done|].
    eapply matches_later; [done|by apply H1].
  - rewrite Hsv. intros x r [[<- <-]|[_ ?]]%lookup_insert_Some; [done|].
    eapply (committed_same G G' g g'); [done|done|done|by eapply H2].
  - intros i call [(j & call0 & Hj & ->)|?]%Hcalls; [|done]. destruct (H3 _ _ Hj) as [? Hcm].
    split; [done|]. eapply (committed_same G G' g g'); [done|done|apply Hl|done].
  - intros x m [Hx|?]%Happ; [|done]. destruct (H4 _ _ Hx) as (t & n & e & ? & ? & ? & ? & ?).
    exists t, n, e. split_and!; try done; [by eapply later_chosen|].
    eapply prefix_lookup_Some; [done|apply Hl].
Qed.

(** ** Steps that do not commit *)

(** The peer's commit index stays, and a leader that stays keeps its beliefs. *)
Definition still (rf rf' : Raft) : Prop :=
  commitIndex rf' = commitIndex rf ∧
  (state rf' = Leader → state rf = Leader ∧ currentTerm rf' = currentTerm rf ∧
     matchIndex rf' = matchIndex rf).

Lemma still_same rf rf' :
  commitIndex rf' = commitIndex rf → state rf' = state rf → currentTerm rf' = currentTerm rf →
  matchIndex rf' = matchIndex rf → still rf rf'.
Proof. intros E1 E2 E3 E4. split; [done|]. intros ?. split_and!; congruence. Qed.

Lemma setNewTerm_still t rf : currentTerm rf < t → still rf (setNewTerm t rf).
Proof.
  intros Ht. unfold setNewTerm, still. destruct (Z.ltb_spec (currentTerm rf) t); [done|lia].
Qed.

Lemma adopt_still t rf : still rf (adopt t rf).
Proof.
  unfold adopt. destruct (Z.ltb_spec (currentTerm rf) t); [by apply setNewTerm_still|by apply still_same].
Qed.

Lemma still_matches G G' g g' s rf rf' :
  later G G' g g' → still rf rf' → matches G g s rf → matches G' g' s rf'.
Proof.
  intros Hl [_ Hst] Hm Hlead i m Hi Hz Hpos. destruct (Hst Hlead) as (? & Ht & E). rewrite Ht.
  rewrite E in Hz. destruct Hl. eapply acked_mono; [done..|by apply Hm].
Qed.

Lemma leaderElection_still c rf rf' el : leaderElection c rf = Done (rf', el) → still rf rf'.
Proof. unfold leaderElection. intros H. go_inv. by split. Qed.

Lemma ticker_still c1 c2 rf rf' out oel : ticker c1 c2 rf = Done (rf', out, oel) → still rf rf'.
Proof.
  intros (rf1 & Hf & Hel)%ticker_frame.
  assert (still rf rf1) as [E1 E2] by (destruct Hf as [->| ->]; by apply still_same).
  destruct oel as [el|]; [|by subst]. apply leaderElection_still in Hel as [E3 E4].
  split; [congruence|]. intros (Hl & -> & ->)%E4. by apply E2.
Qed.

Lemma Start_still c cmd rf rf' res out : Start c cmd rf = Done (rf', res, out) → still rf rf'.
Proof.
  unfold Start. intros H. go_inv; [by apply still_same|].
  match goal with H : appendEntries _ _ _ = _ |- _ =>
    apply appendEntries_frame in H as [->| ->]; by apply still_same end.
Qed.

Lemma RequestVote_still c args rf rf' reply : RequestVote c args rf = Done (rf', reply) → still rf rf'.
Proof.
  unfold RequestVote. fold (adopt (vaTerm args) rf). intros H.
  destruct (vaTerm args <? currentTerm rf); [go_inv; by apply still_same|].
  pose proof (adopt_still (vaTerm args) rf). go_inv; done.
Qed.

Lemma LoopCommit_still rf rf' msg : LoopCommit rf = Done (rf', msg) → still rf rf'.
Proof. unfold LoopCommit. intros H. go_inv; by apply still_same. Qed.

(** ** A new leader *)

Lemma resetPeers_zero next ids rf rf' i m :
  resetPeers next ids rf = Done rf' → zlookup (matchIndex rf') i = Done m →
  i ∈ ids ∨ zlookup (matchIndex rf) i = Done 0 → m = 0.
Proof.
  revert rf. induction ids as [|j ids IH]; intros rf H Hm Hin; cbn in H; go_inv.
  { destruct Hin as [?%not_elem_of_nil|?]; [done|congruence]. }
  apply (IH _ H Hm). cbn. apply zupdate_Done in H1 as [Hj ->]. apply or_comm in Hin.
  destruct (decide (i = j)) as [->|Hne].
  - right. apply zlookup_Done. split; [lia|]. apply list_lookup_insert_eq. lia.
  - rewrite elem_of_cons in Hin. destruct Hin as [Hz|[?|?]]; [|done|by left]. right.
    apply zlookup_Done in Hz as [? Hz]. apply zlookup_Done. split; [done|].
    by rewrite list_lookup_insert_ne by lia.
Qed.

Lemma winElection_zero c rf rf' out i m :
  peer_ok rf → winElection c rf = Done (rf', out) → zlookup (matchIndex rf') i = Done m → m = 0.
Proof.
  intros Hok H Hm. pose proof (wp_post _ _ _ (winElection_total c rf Hok) H) as [Hok' _].
  pose proof (winElection_spec _ _ _ _ H) as (_ & Hn & _). unfold winElection in H. go_inv.
  assert (0 <= i < npeers rf) as Hi.
  { apply zlookup_Done in Hm as [? Hm%lookup_lt_Some]. rewrite <- Hn, <- (po_match _ Hok'). lia. }
  assert (matchIndex rf' = matchIndex x0) as E by (by apply appendEntries_frame in H as [->| ->]).
  rewrite E in Hm. eapply resetPeers_zero; [done|done|left]. apply elem_of_seqZ. cbn. lia.
Qed.

(** Nothing changes for a peer that does not win, and a winner believes nothing. *)
Lemma candidateRequest_still c el reply rf rf' el' out :
  peer_ok rf → candidateRequest c el reply rf = Done (rf', el', out) →
  commitIndex rf' = commitIndex rf ∧
  (still rf rf' ∨ ∀ i m, zlookup (matchIndex rf') i = Done m → m = 0).
Proof.
  intros Hok. unfold candidateRequest. intros H. destruct (negb _ && _) eqn:E.
  { go_inv. zbool. pose proof (setNewTerm_still (vrTerm reply) rf H0) as Hs. split; [apply Hs|by left]. }
  go_inv; try (split; [done|left; by apply still_same]).
  match goal with H : winElection _ _ = _ |- _ => rename H into Hwin end. split.
  - unfold winElection in Hwin. go_inv.
    match goal with H : resetPeers _ _ _ = _ |- _ => apply resetPeers_frame in H as (ni & mi & ->) end.
    match goal with H : appendEntries _ _ _ = _ |- _ => by apply appendEntries_frame in H as [->| ->] end.
  - right. intros i m. by eapply winElection_zero.
Qed.

(** The calls a leader sends carry its own commit index. *)
Lemma spawned_committed G g s inc rf out call :
  Forall (spawn_ok rf) out → log_ok (log rf) → Index0 (log rf) = 0 →
  Entries (log rf) `prefix_of` G (currentTerm rf) →
  committed G g (currentTerm rf) (Entries (log rf)) (commitIndex rf) →
  call ∈ spawned_entries s inc out → call_committed G g (ecArgs call).
Proof.
  intros Hout Hok H0 HG Hc (sp & Hsp & Hcall)%list_elem_of_omap.
  rewrite Forall_forall in Hout. specialize (Hout _ Hsp). destruct sp as [p a|p]; [|done]. injection Hcall as <-.
  destruct Hout as (_ & _ & Ht & _ & Hlc & k & e & Hk & Hprev & _ & Hes). unfold call_committed. cbn.
  apply lookup_lt_Some in Hk. rewrite Hlc, Ht. split.
  - rewrite Hprev, Hes, length_drop, H0. apply committed_bound in Hc. lia.
  - eapply (committed_same G G g g); [apply later_refl|done|exact HG|done].
Qed.

Lemma calls_old (g : Cluster) g' : entryCalls g' = entryCalls g → ∀ i call, entryCalls g' !! i = Some call →
  ∃ j call0, entryCalls g !! j = Some call0 ∧ ecArgs call = ecArgs call0.
Proof. intros E i call Hi. rewrite E in Hi. eauto. Qed.

(** A peer moves without committing, sends calls if it leads, and delivers nothing. *)
Lemma commits_still G G' V' g g' s rf rf' inc out :
  commits_rec G g → later G G' g g' → hist_inv G' V' g' →
  servers g !! s = Some rf → servers g' = <[s := rf']> (servers g) →
  matches G' g' s rf' → commitIndex rf' = commitIndex rf → currentTerm rf <= currentTerm rf' →
  Entries (log rf) `prefix_of` Entries (log rf') →
  entryCalls g' = entryCalls g ++ spawned_entries s inc out →
  (out = [] ∨ ∃ rf1, Forall (spawn_ok rf1) out ∧ log_ok (log rf1) ∧ Index0 (log rf1) = 0 ∧
     Entries (log rf1) `prefix_of` G' (currentTerm rf1) ∧ currentTerm rf <= currentTerm rf1 ∧
     Entries (log rf) `prefix_of` Entries (log rf1) ∧ commitIndex rf1 = commitIndex rf) →
  applied g' = applied g → commits_rec G' g'.
Proof.
  intros Hc Hl Hi' Hs Hsv Hm Hci Ht Hp Hcalls Hout Happ. pose proof (cr_commit _ _ Hc _ _ Hs) as Hcm.
  apply (commits_step G G' g g' s rf rf'); try done.
  - rewrite Hci. by eapply (committed_same G G' g g').
  - intros i call. rewrite Hcalls. intros [Hi|[_ Hi]]%lookup_app_Some; [left; eauto|right].
    destruct Hout as [->|(rf1 & Hsp & Hok & H0 & HG & Ht1 & Hp1 & Hc1)]; [done|].
    eapply (spawned_committed G' g' s inc rf1); try done; [|by eapply list_elem_of_lookup_2].
    rewrite Hc1. by eapply (committed_same G G' g g').
  - rewrite Happ. by left.
Qed.

(** ** The steps *)

Lemma exec_size l g g' : exec l g = Done g' → size g' = size g.
Proof.
  intros H. destruct l; cbn in H;
    unfold exec_tick, exec_start, exec_vote_req, exec_vote_reply, exec_entry_req, exec_entry_reply,
      exec_snap_send, exec_snap_req, exec_snap_reply, exec_apply, exec_snapshot, exec_cond_install,
      exec_restart in H; exec_inv; try done; by destruct o.
Qed.

Lemma spawned_nil s inc : spawned_entries s inc [] = [].
Proof. done. Qed.

Lemma exec_tick_commits G G' V V' s c1 c2 g g' :
  hist_inv G V g → hist_inv G' V' g' → commits_rec G g → later G G' g g' →
  exec_tick s c1 c2 g = Done g' → commits_rec G' g'.
Proof.
  intros Hi Hi' Hc Hl H. unfold exec_tick in H. exec_inv.
  destruct (lv_peers _ _ (hv_log _ _ _ Hi) _ _ H0) as [Hok H00 Hpos Hco Hld].
  assert (killed x = false) as Hk by (unfold ticker in H1; by destruct (killed x)).
  pose proof (wp_post _ _ _ (ticker_total c1 c2 x Hok Hk) H1) as (_ & Hlog & Hout).
  pose proof (ticker_still _ _ _ _ _ _ H1) as Hst.
  assert (currentTerm x <= currentTerm r) as Ht.
  { apply ticker_inv in H1 as (rf1 & [Hq _] & _ & Hel). apply quiet_terms in Hq as [? _].
    destruct o; [|by subst]. apply leaderElection_spec in Hel as (_&_&_&_&?&_). lia. }
  eapply (commits_still G G' V' g _ s x r (incarnation g s) l); try done; try by destruct o.
  - eapply (still_matches G G' g); [done|done|by apply (cr_match _ _ Hc)].
  - apply Hst.
  - by rewrite Hlog.
  - destruct Hout as [->|[Hlead Hout]]; [by left|right]. exists x. split_and!; try done; [apply Hok|].
    rewrite Hld by done. apply Hl.
Qed.

(** A leader's log, in the terms of the history. *)
Lemma leader_prefix G V g s rf :
  hist_inv G V g → servers g !! s = Some rf → state rf = Leader →
  log_ok (log rf) ∧ Index0 (log rf) = 0 ∧ Entries (log rf) `prefix_of` G (currentTerm rf).
Proof.
  intros Hi Hs Hl. destruct (lv_peers _ _ (hv_log _ _ _ Hi) _ _ Hs) as [Hok H0 _ _ Hld].
  split_and!; [apply Hok|done|]. by rewrite Hld.
Qed.

Lemma exec_start_commits G G' V V' s c cmd g g' :
  hist_inv G V g → hist_inv G' V' g' → commits_rec G g → later G G' g g' →
  exec_start s c cmd g = Done g' → commits_rec G' g'.
Proof.
  intros Hi Hi' Hc Hl H. unfold exec_start in H. exec_inv.
  destruct (lv_peers _ _ (hv_log _ _ _ Hi) _ _ H0) as [Hok _ _ _ _].
  pose proof (wp_post _ _ _ (Start_total c cmd x Hok) H1) as [_ Hcase].
  pose proof (Start_still _ _ _ _ _ _ H1) as Hst. pose proof (Start_state _ _ _ _ _ _ H1) as Hs.
  assert (currentTerm r = currentTerm x ∧ Entries (log x) `prefix_of` Entries (log r) ∧
    (l = [] ∨ state r = Leader ∧ Forall (spawn_ok r) l)) as (Ht & Hp & Hout).
  { case_bool_decide as Hlead; [|by destruct Hcase as (-> & _ & ->); auto].
    destruct Hcase as (-> & _ & ? & ?). split_and!; [done|by eexists|right; split; [congruence|done]]. }
  eapply (commits_still G G' V' g _ s x r (incarnation g s) l); try done; [|apply Hst|lia|].
  - eapply (still_matches G G' g); [done|done|by apply (cr_match _ _ Hc)].
  - destruct Hout as [?|[Hlead Hout]]; [by left|right]. exists r.
    destruct (leader_prefix G' V' _ s r Hi') as (?&?&?); [apply lookup_insert_eq|done|].
    split_and!; try done; [lia|apply Hst].
Qed.

Lemma exec_vote_req_commits G G' V V' i c g g' :
  hist_inv G V g → hist_inv G' V' g' → commits_rec G g → later G G' g g' →
  exec_vote_req i c g = Done g' → commits_rec G' g'.
Proof.
  intros Hi Hi' Hc Hl H. unfold exec_vote_req in H. exec_inv.
  destruct (lv_peers _ _ (hv_log _ _ _ Hi) _ _ H2) as [Hok _ _ _ _].
  pose proof (wp_post _ _ _ (RequestVote_total c (cpArgs x0) x1 Hok) H3) as [_ Hlog].
  pose proof (RequestVote_still _ _ _ _ _ H3) as Hst.
  assert (currentTerm x1 <= currentTerm r) as Ht.
  { destruct (VoteGranted r0) eqn:Eg.
    - apply (RequestVote_granted _ _ _ _ _ H3) in Eg as (_&_&_&_&?&_&[[??]|(?&_)]); lia.
    - apply (RequestVote_refused _ _ _ _ _ H3) in Eg as [[Hq _] _]. by apply quiet_terms in Hq as [? _]. }
  eapply (commits_still G G' V' g _ (vcTo x) x1 r 0%nat []); try done.
  - eapply (still_matches G G' g); [done|done|by apply (cr_match _ _ Hc)].
  - apply Hst.
  - by rewrite Hlog.
  - by rewrite spawned_nil, app_nil_r.
  - by left.
Qed.

Lemma exec_vote_reply_commits G G' V V' i c g g' :
  hist_inv G V g → hist_inv G' V' g' → commits_rec G g → later G G' g g' →
  exec_vote_reply i c g = Done g' → commits_rec G' g'.
Proof.
  intros Hi Hi' Hc Hl H. unfold exec_vote_reply in H. exec_inv.
  destruct (lv_peers _ _ (hv_log _ _ _ Hi) _ _ H2) as [Hok _ _ _ _].
  pose proof (wp_post _ _ _ (candidateRequest_total c (cpElection x0) r x1 Hok) H4) as (_ & Hlog & Hout).
  destruct (candidateRequest_still _ _ _ _ _ _ _ Hok H4) as [Hci Hst].
  apply candidateRequest_spec in H4 as (_&_&_&_&_&Ht&_&_&_&_&_&Hlead).
  eapply (commits_still G G' V' g _ (cpOwner x0) x1 r0 (incarnation g (cpOwner x0)) l); try done.
  - destruct Hst as [Hst|Hz]; [|intros _ j m _ Hj Hpos; rewrite (Hz _ _ Hj) in Hpos; lia].
    eapply (still_matches G G' g); [done|done|by apply (cr_match _ _ Hc)].
  - by rewrite Hlog.
  - destruct Hout as [?|(Hout & Hf & Hw)]; [by left|right]. destruct (Hlead Hf Hw) as [Hst' _]. exists r0.
    destruct (leader_prefix G' V' _ (cpOwner x0) r0 Hi') as (?&?&?); [apply lookup_insert_eq|done|].
    split_and!; try done. by rewrite Hlog.
Qed.

Lemma exec_apply_commits G G' V V' s g g' :
  hist_inv G V g → hist_inv G' V' g' → commits_rec G g → later G G' g g' →
  exec_apply s g = Done g' → commits_rec G' g'.
Proof.
  intros Hi Hi' Hc Hl H. unfold exec_apply in H. exec_inv.
  destruct (lv_peers _ _ (hv_log _ _ _ Hi) _ _ H0) as [Hok H00 _ _ _].
  destruct (LoopCommit_awake _ _ H1) as [Hk Hwt].
  pose proof (wp_post _ _ _ (LoopCommit_total x Hok Hk Hwt) H1) as (_ & Hlog & Hmsg).
  pose proof (LoopCommit_still _ _ _ H1) as Hst.
  apply LoopCommit_tame in H1 as [[Hq _] _]. apply quiet_terms in Hq as [Ht _].
  pose proof (cr_commit _ _ Hc _ _ H0) as Hcm.
  eapply (commits_step G G' g _ s x r); try done; try by destruct o.
  - eapply (still_matches G G' g); [done|done|by apply (cr_match _ _ Hc)].
  - destruct Hst as [-> _]. rewrite Hlog. by eapply (committed_same G G' g).
  - intros i call Hcall. left. destruct o; eauto.
  - intros y m' Hin. destruct o as [m|]; [|by left]. cbn in Hin.
    apply elem_of_app in Hin as [?|[= -> ->]%list_elem_of_singleton]; [by left|right].
    destruct Hmsg as (Hlt & _ & e & [_ He]%at_Done & ->). rewrite H00, Z.sub_0_r in He.
    pose proof (po_applied _ Hok) as Hpos. rewrite H00 in Hpos.
    destruct Hcm as [?|(t & n & Hch & _ & Hn & Hp)]; [lia|]. exists t, n, e. cbn.
    split_and!; [by eapply later_chosen|lia|lia| |done].
    eapply prefix_lookup_Some; [|apply Hl]. apply (lookup_take_Some _ (S (Z.to_nat (commitIndex x)))).
    rewrite <- He. symmetry. apply prefix_lookup_eq; [done|]. destruct Hch as [(e' & Hn'%lookup_lt_Some & _) _].
    rewrite length_take. lia.
Qed.

Lemma exec_restart_commits G G' V V' s c g g' :
  hist_inv G V g → hist_inv G' V' g' → commits_rec G g → later G G' g g' →
  exec_restart s c g = Done g' → commits_rec G' g'.
Proof.
  intros Hi Hi' Hc Hl H. unfold exec_restart in H. exec_inv.
  destruct (ei_servers _ (lv_election _ _ (hv_log _ _ _ Hi)) _ _ H0) as (Hme & _ & _ & Hst).
  destruct (lv_peers _ _ (hv_log _ _ _ Hi) _ _ H0) as [_ H00 _ _ _].
  replace (Copy (persister x)) with (persister x) in H1 by (by destruct (persister x)).
  destruct (Make_recovers (size g) c x Hst) as (rf' & Hmk & _ & _ & _ & _ & _ & _ & Hf & Hci & _).
  rewrite Hme in Hmk. assert (rf' = x0) as -> by congruence.
  eapply (commits_step G G' g _ s x x0); try done; [|left; lia|by left; eauto|by left].
  intros ?. congruence.
Qed.

(** ** A follower commits *)

Lemma AppendEntries_commit c args rf rf' reply :
  AppendEntries c args rf = Done (rf', reply) →
  matchIndex rf' = matchIndex rf ∧
  (commitIndex rf' = commitIndex rf ∨ commitIndex rf < LeaderCommit args ∧ Success reply = true ∧
     ∃ e, LastLog (log rf') = Done e ∧ commitIndex rf' = min (LeaderCommit args) (Index e)).
Proof.
  unfold AppendEntries. fold (adopt (aaTerm args) rf). intros H.
  destruct (aaTerm args <? currentTerm rf); [go_inv; auto|].
  assert (commitIndex (adopt (aaTerm args) rf) = commitIndex rf ∧
          matchIndex (adopt (aaTerm args) rf) = matchIndex rf) as [<- <-].
  { unfold adopt, setNewTerm. by destruct (currentTerm rf <? aaTerm args). }
  set (rf1 := adopt _ _) in *. destruct (_ <? Index0 _); [go_inv; auto|].
  set (rf2 := if bool_decide _ then _ else rf1) in *.
  assert (commitIndex rf2 = commitIndex rf1 ∧ matchIndex rf2 = matchIndex rf1) as [<- <-]
    by (subst rf2; by case_bool_decide). clearbody rf2.
  go_inv; cbn; auto;
    match goal with H : AppendLoop _ _ = Done ?r |- _ => apply AppendLoop_frame in H as (p & l & ->) end; cbn in *;
    (split; [done|]); [zbool; right; split_and!; eauto|by left].
Qed.

(** What a receiver has committed stays in its log, and what it learns is committed
    is in it. *)
Lemma append_commits G G' V g g' call rf rf' :
  hist_inv G V g → later G G' g g' → call_ok g G call → call_committed G g (ecArgs call) →
  peer_log G rf → committed G g (currentTerm rf) (Entries (log rf)) (commitIndex rf) →
  (∀ e, e ∈ Entries (log rf) → Term e <= currentTerm rf) →
  currentTerm rf <= aaTerm (ecArgs call) → currentTerm rf' = aaTerm (ecArgs call) →
  matches_prev (log rf) (ecArgs call) → log rf' = merged (log rf) (ecArgs call) → log_ok (log rf') →
  (commitIndex rf' = commitIndex rf ∨
     ∃ e, LastLog (log rf') = Done e ∧ commitIndex rf' = min (LeaderCommit (ecArgs call)) (Index e)) →
  committed G' g' (currentTerm rf') (Entries (log rf')) (commitIndex rf').
Proof.
  intros Hi Hl Hcall [Hlc Hcc] Hpl Hcm Hown Hle Ht Hm Hlog Hok' Hci.
  destruct (append_effect G V g g call rf rf') as (_ & Hhas & Hkeep); try done; [by intros t s|].
  destruct Hci as [->|(e & He & ->)].
  - eapply (committed_later G G' g g' (currentTerm rf)); [done|lia| |exact Hcm].
    intros t B HtB HBG (n & Hch & HBn) HB. destruct (Hkeep t B HtB HBG HB) as [?|Hlost]; [done|exfalso].
    destruct Hlost as (t1 & c & l & Ht1 & Hw & Hl1 & Hno).
    destruct (chosen_elected G V g t n t1 c) as (l' & Hl' & Hp'); try done; [lia|].
    assert (l' = l) as -> by congruence. apply Hno. transitivity (take (S n) (G t)); [by apply prefix_take|done].
  - apply LastLog_Done in He as [Hidx _]; [|done]. pose proof (call_extent _ _ _ Hcall) as Hext.
    destruct Hcall as (_ & _ & _ & Hpos & _). pose proof (prefix_length _ _ Hhas) as Hlen.
    rewrite length_take in Hlen.
    assert (min (LeaderCommit (ecArgs call)) (Index e) = LeaderCommit (ecArgs call)) as ->.
    { assert (Index0 (log rf') = 0) as H0 by (rewrite Hlog; apply Hpl).
      unfold lastIndex, Len in Hidx. unfold min. destruct (Z.ltb_spec (Index e) (LeaderCommit (ecArgs call))); lia. }
    destruct Hcc as [?|(t & n & Hch & Htt & Hn & Hp)]; [by left|right]. exists t, n.
    split_and!; [by eapply later_chosen|lia|done|]. destruct Hch as [(e' & He' & _) _].
    apply lookup_lt_Some in He'. rewrite (grows_take G G') by (apply Hl || lia).
    etransitivity; [|exact Hhas]. apply prefix_take; [done|]. rewrite length_take. lia.
Qed.

Lemma exec_entry_req_commits G G' V V' i c g g' :
  hist_inv G V g → hist_inv G' V' g' → commits_rec G g → later G G' g g' →
  exec_entry_req i c g = Done g' → commits_rec G' g'.
Proof.
  intros Hi Hi' Hc Hl H. unfold exec_entry_req in H. exec_inv.
  pose proof (lv_peers _ _ (hv_log _ _ _ Hi) _ _ H1) as Hpl.
  pose proof (lv_calls _ _ (hv_log _ _ _ Hi) _ _ H0) as Hcall. pose proof Hcall as (Hwon & Hne & _ & Hpos & Hargs & _).
  pose proof (wp_post _ _ _ (AppendEntries_total c (ecArgs x) x0 (pl_ok _ _ Hpl) (pl_index0 _ _ Hpl) Hargs) H2)
    as (Hok' & _ & Hres).
  destruct (AppendEntries_commit _ _ _ _ _ H2) as [Hmi Hci].
  pose proof (AppendEntries_tame _ _ _ _ _ H2) as [Hq _]. apply quiet_terms in Hq as [Ht Hs].
  pose proof (cr_commit _ _ Hc _ _ H1) as Hcm. destruct (cr_calls _ _ Hc _ _ H0) as [Hlc Hcc].
  set (g' := set_entryCalls _ _) in *.
  eapply (commits_step G G' g g' (ecTo x) x0 r); try done.
  - intros Hlead j m Hj Hz Hm. destruct (Hs Hlead) as [Hlead0 Heq]. rewrite Hmi in Hz. rewrite Heq.
    destruct Hl. eapply acked_mono; [done..|]. by eapply (cr_match _ _ Hc).
  - destruct (Success a) eqn:Es.
    2:{ destruct Hres as [-> _]. destruct Hci as [->|(_ & ? & _)]; [|done]. by eapply (committed_same G G' g). }
    destruct Hres as (Hle & Hta & Hm & Hlog). eapply (append_commits G G' V g g' x x0 r); try done.
    + intros e. by apply (hv_terms _ _ _ Hi (ecTo x)).
    + apply Hok'.
    + destruct Hci as [?|(_ & _ & ?)]; auto.
  - intros j call' [(_ & <- & _)|[_ ?]]%list_lookup_insert_Some; left; eauto.
  - by left.
Qed.

(** ** A leader commits *)

(** What the reply changes before [Commit] is called. *)
Lemma leaderSendEntries_split peer args reply rf rf' :
  leaderSendEntries peer args reply rf = Done rf' →
  rf' = setNewTerm (arTerm reply) rf ∧ currentTerm rf < arTerm reply ∨
  rf' = rf ∧ state rf ≠ Leader ∨
  state rf = Leader ∧ ∃ nis mis, Commit (set_matchIndex mis (set_nextIndex nis rf)) = Done rf' ∧
    length nis = length (nextIndex rf) ∧
    (mis = matchIndex rf ∨ Success reply = true ∧ ∃ m, zlookup (matchIndex rf) peer = Done m ∧
       zupdate (matchIndex rf) peer
         (max m (PrevLogIndex args + Z.of_nat (length (aaEntries args)))) = Done mis).
Proof.
  unfold leaderSendEntries. intros H.
  destruct (Z.ltb_spec (currentTerm rf) (arTerm reply)); [go_inv; auto|right].
  case_bool_decide as Hl; [right|go_inv; auto]. split; [done|].
  apply bind_Done in H as (rf1 & H1 & H).
  assert (∃ nis mis, rf1 = set_matchIndex mis (set_nextIndex nis rf) ∧ length nis = length (nextIndex rf) ∧
    (mis = matchIndex rf ∨ Success reply = true ∧ ∃ m, zlookup (matchIndex rf) peer = Done m ∧
       zupdate (matchIndex rf) peer
         (max m (PrevLogIndex args + Z.of_nat (length (aaEntries args)))) = Done mis)) as (nis & mis & -> & Hn & Hm).
  { clear H. go_inv; try match goal with H : zupdate (nextIndex _) _ _ = Done ?x |- _ =>
      assert (length x = length (nextIndex rf)) by (apply zupdate_Done in H as [_ ->]; apply length_insert) end.
    - do 2 eexists. split_and!; [reflexivity|done|]. right. eauto.
    - eexists x, (matchIndex rf). split_and!; [by destruct rf|done|by left].
    - eexists x0, (matchIndex rf). split_and!; [by destruct rf|done|by left].
    - exists (nextIndex rf1), (matchIndex rf1). split_and!; [by destruct rf1|done|by left]. }
  eauto 10.
Qed.

(** The peers a leader counts are a majority, and all of them have the entry. *)
Lemma committable_chosen G V g s rf n :
  hist_inv G V g → won_by g (currentTerm rf) s → me rf = s → npeers rf = size g →
  log_ok (log rf) → Index0 (log rf) = 0 → Entries (log rf) = G (currentTerm rf) → 0 <= s < size g →
  (∀ i m, i ≠ s → zlookup (matchIndex rf) i = Done m → 0 < m →
     acked G g i (currentTerm rf) (Z.to_nat m)) →
  committable rf n → 0 < n → chosen G g (currentTerm rf) (Z.to_nat n).
Proof.
  intros Hi Hw Hme Hn Hok H0 HG Hs Hm [(e & [_ He]%at_Done & Hte) Hr] Hpos.
  rewrite H0, Z.sub_0_r, HG in He. split; [by exists e|].
  exists (s :: filter (stores rf n) (peerIds rf)). unfold replicated, copies in Hr. split.
  - split_and!.
    + apply NoDup_cons. split; [|apply NoDup_filter, NoDup_seqZ].
      intros [[? _] _]%list_elem_of_filter. congruence.
    + intros i [->|[_ Hin%elem_of_seqZ]%list_elem_of_filter]%elem_of_cons; lia.
    + cbn [length]. rewrite Hn in Hr. pose proof (Z.div_mod (size g) 2 ltac:(done)).
      pose proof (Z.mod_pos_bound (size g) 2 ltac:(done)). lia.
  - intros i [->|[(Hne & m & Hz & Hle) _]%list_elem_of_filter]%elem_of_cons.
    + apply acked_self; [done|]. by eapply lookup_lt_Some.
    + eapply (acked_below _ _ _ _ (Z.to_nat m)); [lia|]. apply Hm; [congruence|done|lia].
Qed.

Lemma Commit_commits G V g s rf rf' :
  hist_inv G V g → won_by g (currentTerm rf) s → me rf = s → npeers rf = size g → 0 <= s < size g →
  peer_ok rf → Index0 (log rf) = 0 → state rf = Leader → Entries (log rf) = G (currentTerm rf) →
  matches G g s rf → committed G g (currentTerm rf) (Entries (log rf)) (commitIndex rf) →
  Commit rf = Done rf' →
  matches G g s rf' ∧ committed G g (currentTerm rf') (Entries (log rf')) (commitIndex rf').
Proof.
  intros Hi Hw Hme Hn Hs Hok H0 Hl HG Hm Hcm H.
  destruct (Commit_last rf Hok Hl) as (r & Hr & Hlast). assert (r = rf') as -> by congruence.
  destruct Hlast as [[-> _]|(pre & n & post & Hns & Hcom & _ & ->)]; [done|]. split; [exact Hm|].
  assert (n ∈ seqZ (commitIndex rf + 1) (lastIndex (log rf) - commitIndex rf)) as Hin%elem_of_seqZ.
  { rewrite Hns. apply elem_of_app. right. by left. }
  pose proof (po_commit _ Hok) as Hpc. rewrite H0 in Hpc. right. exists (currentTerm rf), (Z.to_nat n).
  split_and!; [|done|done|]; cbn.
  - apply (committable_chosen G V g s rf n); try done; [apply Hok|by apply Hm|lia].
  - rewrite HG. apply take_prefix.
Qed.

(** The beliefs after a reply in the leader's own term. *)
Lemma reply_matches G g i call reply rf mis :
  entryCalls g !! i = Some call → ecStatus call = Finished reply → 0 <= PrevLogIndex (ecArgs call) →
  state rf = Leader → currentTerm rf = aaTerm (ecArgs call) → matches G g (ecFrom call) rf →
  (mis = matchIndex rf ∨ Success reply = true ∧ ∃ m, zlookup (matchIndex rf) (ecTo call) = Done m ∧
     zupdate (matchIndex rf) (ecTo call)
       (max m (PrevLogIndex (ecArgs call) + Z.of_nat (length (aaEntries (ecArgs call))))) = Done mis) →
  ∀ j m, j ≠ ecFrom call → zlookup mis j = Done m → 0 < m → acked G g j (currentTerm rf) (Z.to_nat m).
Proof.
  intros Hi Hst Hpos Hl Ht Hm [->|(Hs & m0 & Hm0 & [Hr ->]%zupdate_Done)] j m Hj Hz Hp; [by apply Hm|].
  apply zlookup_Done in Hz as [Hj0 Hz].
  apply list_lookup_insert_Some in Hz as [(E & <- & _)|[_ Hz]]; [|by apply Hm; [..|apply zlookup_Done|]].
  assert (j = ecTo call) as -> by lia. unfold max in *.
  destruct (Z.ltb_spec (PrevLogIndex (ecArgs call) + Z.of_nat (length (aaEntries (ecArgs call)))) m0); [by apply Hm|].
  rewrite Ht. apply (acked_call _ _ _ _ _ i call); try done; [by rewrite Hst|lia].
Qed.

Lemma exec_entry_reply_commits G G' V V' i g g' :
  hist_inv G V g → hist_inv G' V' g' → commits_rec G g → later G G' g g' → prompt (LEntryReply i) g = true →
  exec_entry_reply i g = Done g' → commits_rec G' g'.
Proof.
  intros Hi Hi' Hc Hl Hpr H. unfold exec_entry_reply in H. exec_inv. cbn in Hpr. rewrite H0, H1 in Hpr.
  set (g' := set_entryCalls _ _) in *.
  destruct (lv_peers _ _ (hv_log _ _ _ Hi) _ _ H1) as [Hok H00 _ _ Hld].
  destruct (ei_servers _ (lv_election _ _ (hv_log _ _ _ Hi)) _ _ H1) as (Hme & Hn & Hr & _).
  pose proof (cr_commit _ _ Hc _ _ H1) as Hcm. pose proof (cr_match _ _ Hc _ _ H1) as Hm.
  pose proof (leaderSendEntries_tame _ _ _ _ _ H3) as [[Hq _] Hlog]. apply quiet_terms in Hq as [Ht _].
  assert (∀ rf', matches G' g' (ecFrom x) rf' → committed G' g' (currentTerm rf') (Entries (log rf')) (commitIndex rf') →
    x2 = rf' → commits_rec G' g') as Hdone.
  { intros rf' ? ? <-. eapply (commits_step G G' g g' (ecFrom x) x0 x2); try done; [|by left].
    intros j call' [(_ & <- & _)|[_ ?]]%list_lookup_insert_Some; left; eauto. }
  apply leaderSendEntries_split in H3 as [[-> Hlt]|[[-> Hnl]|(Hlead & nis & mis & HC & Hnis & Hmis)]].
  - eapply Hdone; [| |reflexivity].
    + eapply (still_matches G G' g); [done|by apply setNewTerm_still|done].
    + rewrite (proj1 (setNewTerm_still _ _ Hlt)), Hlog. by eapply (committed_same G G' g).
  - eapply Hdone; [by intros ?| |reflexivity]. by eapply (committed_same G G' g).
  - rewrite bool_decide_eq_true_2 in Hpr by done. apply Z.eqb_eq in Hpr.
    destruct (lv_calls _ _ (hv_log _ _ _ Hi) _ _ H0) as (_ & _ & _ & Hpos & _).
    assert (∀ j m, j ≠ ecFrom x → zlookup mis j = Done m → 0 < m →
      acked G' g' j (currentTerm x0) (Z.to_nat m)) as Hm'.
    { eapply (reply_matches G' g' i (mkEntryCall (ecFrom x) (ecIncarnation x) (ecTo x) (ecArgs x) (Finished r)) r x0 mis);
        try done; [|by eapply matches_later].
      apply list_lookup_insert_eq. by eapply lookup_lt_Some. }
    set (rf1 := set_matchIndex mis (set_nextIndex nis x0)) in *.
    assert (peer_ok rf1) as Hok1.
    { destruct Hok. split; cbn; try done; [lia|]. destruct Hmis as [->|(_ & ? & _ & [_ ->]%zupdate_Done)];
        by rewrite ?length_insert. }
    destruct (Commit_state _ _ HC) as (Es & Et & El).
    destruct (Commit_commits G' V' g' (ecFrom x) rf1 x2) as [??]; try done; [..|by eapply Hdone].
    + apply (la_won _ _ _ _ Hl), (leader_won g (ecFrom x) x0); [apply (hv_log _ _ _ Hi)|done|done].
    + rewrite <- Et, <- El. apply (lv_peers _ _ (hv_log _ _ _ Hi') (ecFrom x)); [apply lookup_insert_eq|by rewrite Es].
    + by intros _.
    + by eapply (committed_same G G' g).
Qed.
End agree.
