(* ===== verification/RaftService.v ===== *)
(** * What the methods of a peer compute

    The functional behaviour of the RPC handlers and of the service's interface
    on every branch, for a peer whose state is well formed ([peer_ok]). *)

From stdpp Require Import base list numbers gmap strings.
From Stdlib Require Import Lia.
From S2P Require Import Prelude RaftLog Persister RaftCore RaftLocal RaftTotal RaftCommit.

(** Section 5.4.1 of the Raft paper: the candidate's log is at least as up to
    date as one that ends with [e]. *)
Definition up_to_date (args : RequestVoteArgs) (e : Entry) : Prop :=
  Term e < LastLogTerm args ∨ Term e = LastLogTerm args ∧ Index e <= LastLogIndex args.

Section service.
Context `{laws : !RaftCodecLaws codec}.

Lemma at_drop l (k : nat) i :
  log_ok l → Index0 l + Z.of_nat k <= i →
  at_ (mkLog (drop k (Entries l)) (Index0 l + Z.of_nat k)) i = at_ l i.
Proof.
  intros Hok Hi. unfold at_, zlookup. cbn.
  destruct (Z.ltb_spec (i - (Index0 l + Z.of_nat k)) 0), (Z.ltb_spec (i - Index0 l) 0); try lia.
  f_equal. rewrite lookup_drop. f_equal. lia.
Qed.

(** A vote is granted exactly when the candidate's term is current, the peer
    has not voted for another candidate in it and the candidate's log is up to
    date; a granted vote is recorded. *)
Lemma RequestVote_rule c args rf :
  peer_ok rf →
  ∃ rf' reply e, RequestVote c args rf = Done (rf', reply) ∧
    last (Entries (log rf)) = Some e ∧
    (VoteGranted reply = true ↔
       (currentTerm rf < vaTerm args ∨
        currentTerm rf = vaTerm args ∧ (votedFor rf = -1 ∨ votedFor rf = CandidateId args)) ∧
       up_to_date args e) ∧
    (VoteGranted reply = true → votedFor rf' = CandidateId args ∧ currentTerm rf' = vaTerm args) ∧
    vrTerm reply = currentTerm rf' ∧ currentTerm rf' = Z.max (currentTerm rf) (vaTerm args).
Proof.
  intros Hok. destruct (LastLog_total (log rf) (po_log _ Hok)) as (e & Hl & _ & Hlast).
  unfold RequestVote. fold (adopt (vaTerm args) rf).
  destruct (Z.ltb_spec (vaTerm args) (currentTerm rf)) as [Hlt|Hge].
  { do 3 eexists. split; [done|]. split; [done|]. cbn. unfold up_to_date. split_and!; [|done|done|lia].
    split; [done|]. intros [[?|[? _]] _]; lia. }
  rewrite adopt_log, Hl. cbn.
  assert (votedFor (adopt (vaTerm args) rf) =
    if currentTerm rf <? vaTerm args then -1 else votedFor rf) as Hv.
  { unfold adopt, setNewTerm. by destruct (currentTerm rf <? vaTerm args) eqn:?. }
  pose proof (adopt_term _ _ Hge) as Ht.
  set (valid := _ || (_ && _)). set (free := _ || _).
  assert (valid = true ↔ up_to_date args e) as Hvalid.
  { subst valid. unfold up_to_date.
    rewrite orb_true_iff, andb_true_iff, Z.ltb_lt, Z.eqb_eq, Z.leb_le. intuition lia. }
  assert (free = true ↔ currentTerm rf < vaTerm args ∨
    currentTerm rf = vaTerm args ∧ (votedFor rf = -1 ∨ votedFor rf = CandidateId args)) as Hfree.
  { subst free. rewrite orb_true_iff, !Z.eqb_eq, Hv.
    destruct (Z.ltb_spec (currentTerm rf) (vaTerm args)); intuition lia. }
  destruct (free && valid) eqn:E.
  - do 3 eexists. split; [done|]. split; [done|]. cbn. apply andb_true_iff in E as [??].
    split_and!; [|done|done|lia]. by rewrite <- Hfree, <- Hvalid.
  - do 3 eexists. split; [done|]. split; [done|]. cbn. apply andb_false_iff in E.
    split_and!; [|done|done|lia]. rewrite <- Hfree, <- Hvalid. split; [done|].
    intros [??]. destruct E; congruence.
Qed.

(** [Snapshot] at an index the peer has applied drops what precedes it and
    nothing else; outside the range it does nothing. *)
Lemma Snapshot_total index snap rf :
  peer_ok rf →
  if decide (Index0 (log rf) <= index < lastIndex (log rf) ∧ index <= commitIndex rf) then
    ∃ rf', Snapshot index snap rf = Done rf' ∧
      Index0 (log rf') = index ∧ lastIndex (log rf') = lastIndex (log rf) ∧ log_ok (log rf') ∧
      (∀ i, index <= i → at_ (log rf') i = at_ (log rf) i) ∧
      LastIndex rf' = index ∧ (∃ e, at_ (log rf) index = Done e ∧ LastTerm rf' = Term e) ∧
      ReadSnapshot (persister rf') = snap ∧ stable rf'
  else Snapshot index snap rf = Done rf.
Proof.
  intros Hok. pose proof (po_log _ Hok) as Hlog. unfold Snapshot.
  destruct (LastLog_total _ Hlog) as (e & -> & He & _). cbn. rewrite He.
  destruct (Z.leb_spec (lastIndex (log rf)) index); cbn; [by rewrite decide_False by lia|].
  destruct (Z.ltb_spec index (Index0 (log rf))); cbn; [by rewrite decide_False by lia|].
  destruct (Z.ltb_spec (commitIndex rf) index); cbn; [by rewrite decide_False by lia|].
  rewrite decide_True by lia.
  destruct (at_total (log rf) index Hlog) as (e' & He' & _); [lia|]. rewrite He'. cbn.
  replace (lastIndex (log rf) - index + 1)
    with (Z.of_nat (Z.to_nat (lastIndex (log rf) - index + 1))) by lia.
  rewrite copyEntries_total by (done || lia). cbn.
  set (k := Z.to_nat (index - Index0 (log rf))).
  assert (index = Index0 (log rf) + Z.of_nat k) as Hk by lia.
  rewrite take_ge by (rewrite length_drop; unfold lastIndex, Len in *; lia).
  eexists. split; [done|]. cbn. split_and!; try done.
  - unfold lastIndex, Len in *. cbn. rewrite length_drop. lia.
  - pose proof (drop_ok (log rf) k Hlog) as Hd. rewrite <- Hk in Hd. apply Hd.
    unfold lastIndex, Len in *. lia.
  - intros i Hi. pose proof (at_drop (log rf) k i Hlog) as Hd. rewrite <- Hk in Hd. by apply Hd.
  - eauto.
  - transitivity (clone (clone snap)); [done|by rewrite !clone_id].
  - apply (saved_stable (set_log _ (set_LastTerm _ (set_LastIndex _ rf)))).
Qed.

(** [CondInstallSnapshot] refuses what is already committed; otherwise the log
    starts at the snapshot, and keeps what follows it exactly when the entry at
    the snapshot's index is of the snapshot's term. *)
Lemma CondInstallSnapshot_total t idx snap rf :
  peer_ok rf →
  if decide (idx <= commitIndex rf) then CondInstallSnapshot t idx snap rf = Done (rf, false)
  else ∃ rf', CondInstallSnapshot t idx snap rf = Done (rf', true) ∧
    commitIndex rf' = idx ∧ lastApplied rf' = idx ∧ Index0 (log rf') = idx ∧ log_ok (log rf') ∧
    ReadSnapshot (persister rf') = snap ∧ stable rf' ∧
    ((∃ e, at_ (log rf) idx = Done e ∧ Term e = t) ∧
       (∀ i, idx <= i → at_ (log rf') i = at_ (log rf) i) ∨
     (¬ ∃ e, at_ (log rf) idx = Done e ∧ Term e = t) ∧
       Entries (log rf') = [mkEntry INil t idx]).
Proof.
  intros Hok. pose proof (po_log _ Hok) as Hlog. pose proof (po_commit _ Hok).
  unfold CondInstallSnapshot. destruct (Z.leb_spec idx (commitIndex rf)).
  { by rewrite decide_True by lia. }
  rewrite decide_False by lia. destruct (LastLog_total _ Hlog) as (el & -> & Hel & _). cbn.
  rewrite Hel. set (keep := (if _ <=? _ then _ else _) : outcome bool).
  assert (∃ b : bool, keep = Done b ∧ (b = true ↔ ∃ e, at_ (log rf) idx = Done e ∧ Term e = t))
    as (b & -> & Hb).
  { subst keep. destruct (Z.leb_spec idx (lastIndex (log rf))).
    - destruct (at_total (log rf) idx Hlog) as (e & He & _); [lia|]. rewrite He. cbn.
      eexists. split; [done|]. rewrite Z.eqb_eq. naive_solver.
    - exists false. split; [done|]. split; [done|]. intros (e & He%at_range & _). lia. }
  cbn. destruct b.
  - destruct (proj1 Hb eq_refl) as (e & He & Ht). pose proof (at_range _ _ _ He).
    rewrite Tail_Done by (done || lia). cbn. eexists. split; [done|]. cbn.
    set (k := Z.to_nat (idx - Index0 (log rf))).
    assert (idx = Index0 (log rf) + Z.of_nat k) as Hk by lia.
    split_and!; try done.
    + pose proof (drop_ok (log rf) k Hlog) as Hd. rewrite <- Hk in Hd. apply Hd.
      unfold lastIndex, Len in *. lia.
    + transitivity (clone (clone snap)); [done|by rewrite !clone_id].
    + exact (persist_stable (set_log (mkLog (drop k (Entries (log rf))) idx) rf)).
    + left. split; [eauto|]. intros i Hi.
      pose proof (at_drop (log rf) k i Hlog) as Hd. rewrite <- Hk in Hd. by apply Hd.
  - eexists. split; [done|]. cbn. split_and!; try done.
    + split; [done|]. intros [|i] e Hi; [injection Hi as <-; cbn; lia|done].
    + transitivity (clone (clone snap)); [done|by rewrite !clone_id].
    + exact (persist_stable (set_log (mkLog [mkEntry INil t idx] idx) rf)).
    + right. split; [|done]. rewrite <- Hb. done.
Qed.

(** C36. At a well-formed peer whose log has not been compacted, for arguments whose
    entries follow each other without a gap, an AppendEntries call returns, and
    succeeds exactly when its term is current and the receiver has the entry before
    the new ones; it then merges the entries into the log, and otherwise leaves the
    log alone.  On a compacted log it can panic; see [compacted_log_panics]. *)
Lemma AppendEntries_rule c args rf :
  peer_ok rf → Index0 (log rf) = 0 → args_ok args →
  ∃ rf' reply, AppendEntries c args rf = Done (rf', reply) ∧ peer_ok rf' ∧
    arTerm reply = currentTerm rf ∧
    (Success reply = true ↔ currentTerm rf <= aaTerm args ∧ matches_prev (log rf) args) ∧
    log rf' = (if Success reply then merged (log rf) args else log rf).
Proof.
  intros Hok H0 Hargs. pose proof (AppendEntries_total c args rf Hok H0 Hargs) as H.
  destruct (AppendEntries c args rf) as [[rf' reply]| |]; [|done..].
  destruct H as (Hok' & Ht & Hres). exists rf', reply. split_and!; try done;
    destruct (Success reply); destruct Hres as [Hr1 Hr2]; try done.
  - by destruct Hr2 as (_ & ? & _).
  - by destruct Hr2 as (_ & _ & ?).
Qed.

(** The hint of a conflicting reply: the log is too short, or the run of
    entries of the conflicting term starts at [XIndex]. *)
Lemma AppendEntries_hint c args rf rf' reply :
  peer_ok rf → Index0 (log rf) = 0 → AppendEntries c args rf = Done (rf', reply) →
  Conflict reply = true →
  XLen reply = lastIndex (log rf) + 1 ∧
  (XTerm reply = -1 ∧ lastIndex (log rf) < PrevLogIndex args ∨
   ∃ e, at_ (log rf) (PrevLogIndex args) = Done e ∧ Term e ≠ PrevLogTerm args ∧
     XTerm reply = Term e ∧ 0 <= XIndex reply <= PrevLogIndex args ∧
     (∀ i e', XIndex reply <= i < PrevLogIndex args → at_ (log rf) i = Done e' →
        Term e' = XTerm reply) ∧
     (0 < XIndex reply →
        ∃ e', at_ (log rf) (XIndex reply - 1) = Done e' ∧ Term e' ≠ XTerm reply)).
Proof.
  intros Hok H0 H Hc. unfold AppendEntries in H. fold (adopt (aaTerm args) rf) in H.
  destruct (aaTerm args <? currentTerm rf); [by go_inv|].
  pose proof (adopt_peer_ok (aaTerm args) rf Hok) as Hok1.
  pose proof (adopt_log (aaTerm args) rf) as Hl. set (rf1 := adopt _ _) in *.
  destruct (Z.ltb_spec (PrevLogIndex args) (Index0 (log rf1))); [by go_inv|].
  set (rf2 := if bool_decide _ then _ else rf1) in *.
  assert (log rf2 = log rf) as E by (subst rf2; by destruct (bool_decide _)).
  cbn in H. rewrite !E in H. rewrite Hl, H0 in *. pose proof (po_log _ Hok) as Hlog.
  destruct (LastLog_total (log rf) Hlog) as (el & Hel & Hil & _). rewrite Hel in H. cbn in H.
  rewrite Hil in H. destruct (Z.ltb_spec (lastIndex (log rf)) (PrevLogIndex args)).
  { go_inv. cbn. split; [unfold lastIndex; lia|]. by left. }
  destruct (at_total (log rf) (PrevLogIndex args) Hlog) as (e & He & _); [lia|].
  rewrite He in H. cbn in H. destruct (Z.eqb_spec (Term e) (PrevLogTerm args)); cbn in H.
  { go_inv; done. }
  pose proof (findXIndex_total (log rf) (Term e) (Z.to_nat (PrevLogIndex args)) Hlog H0) as Hx.
  destruct (findXIndex _ _ _) as [x| |]; cbn in H; [|done..]. injection H as <- <-. cbn.
  destruct Hx as (Hx1 & Hx2 & Hx3); [lia|]. split; [unfold lastIndex; lia|]. right.
  exists e. split_and!; try done; [lia|lia|..].
  - intros i e' Hi [_ He']%at_Done. rewrite H0, Z.sub_0_r in He'. apply (Hx2 (Z.to_nat i)); [lia|done].
  - intros Hpos. destruct (Hx3 Hpos) as (e' & He' & ?). exists e'. split; [|done].
    apply at_Done. rewrite H0, Z.sub_0_r. split; [lia|done].
Qed.

End service.
