(* ===== verification/RaftRuns.v ===== *)
(** * Concrete runs of a cluster

    Building blocks for runs written out step by step, evaluated with the
    codec of Persister.v. *)

From stdpp Require Import base list numbers gmap strings.
From Stdlib Require Import Lia.
From Stdlib Require Init.Byte.
From S2P Require Import Prelude RaftLog Persister RaftCore RaftCluster.

Definition at_time (t : Z) : Clock := mkClock t 0.

(** Peer [s] times out after [t] and collects the votes of [calls]. *)
Definition elect (s t : Z) (calls : list nat) : list Label :=
  LTick s (at_time t) (at_time (t + 1000)) ::
  mjoin ((λ i, [LVoteReq i (at_time (t + 1000)); LVoteReply i (at_time (t + 1000))]) <$> calls).

(** An AppendEntries call is handled and answered. *)
Definition exchange (i : nat) (t : Z) : list Label := [LEntryReq i (at_time t); LEntryReply i].

Definition heartbeat (s t : Z) : Label := LTick s (at_time t) (at_time t).

Definition nobody : Cluster := mkCluster 0 ∅ ∅ [] [] [] [] [].

Definition fresh (n : Z) : Cluster :=
  match initCluster n (at_time 0) with Done g => g | _ => nobody end.

Definition after (n : Z) (ls : list Label) : Cluster :=
  match run ls (fresh n) with Done g => g | _ => nobody end.

Definition completes (n : Z) (ls : list Label) : bool :=
  match initCluster n (at_time 0), run ls (fresh n) with Done _, Done _ => true | _, _ => false end.

Lemma completes_run n ls : completes n ls = true → run ls (fresh n) = Done (after n ls).
Proof. unfold completes, after. by destruct (initCluster _ _), (run _ _). Qed.

Lemma completes_reach (allowed : Label → Prop) n ls :
  Forall allowed ls → completes n ls = true → reach allowed n (after n ls).
Proof.
  intros Hls Hc. eapply reach_run; [|exact Hls|by apply completes_run].
  apply (reach_init _ _ (at_time 0)). unfold completes, fresh in *.
  by destruct (initCluster _ _).
Qed.

(** Peer [s] at the end of a run. *)
Definition peer_after (n : Z) (ls : list Label) (s : Z) : Raft :=
  match servers (after n ls) !! s with
  | Some rf => rf
  | None => mkRaft 0 0 0 0 0 0 Follower 0 0 0 0 [] [] makeEmptyLog 0 0 false MakePersister
  end.

Definition delivered (n : Z) (ls : list Label) : list (Z * Z * Iface) :=
  (λ p, (p.1, CommandIndex p.2, amCommand p.2)) <$> applied (after n ls).

(** Peer 0 is elected in a cluster of three. *)
Definition election_run : list Label := elect 0 0 [0%nat].

(** ... and commits one command on peers 0 and 1; both deliver it. *)
Definition commit_tail : list Label :=
  [LStart 0 (at_time 1000) (IInt 7)] ++ exchange 2 1000 ++
  [LApply 0; heartbeat 0 1000; LEntryReq 4 (at_time 1000); LApply 1].

Definition commit_run : list Label := election_run ++ commit_tail.

(** Five peers.  Peer 0 leads term 1 and appends two entries on peer 1, whose
    reply is delayed.  Peer 2 leads term 2 and replaces peer 0's log.  Peer 0
    leads term 3, takes the delayed reply for an acknowledgement of its new
    entries, and commits index 2 with two copies out of five.  Peer 2 leads term
    4 and commits another entry at index 2. *)
Definition stale_reply_run : list Label :=
  elect 0 0 [0; 1]%nat ++
  [LStart 0 (at_time 1000) (IInt 10); LStart 0 (at_time 1000) (IInt 11);
   LEntryReq 8 (at_time 1000)] ++
  elect 2 1000 [6; 7]%nat ++
  [LStart 2 (at_time 2000) (IInt 20); LEntryReq 16 (at_time 2000)] ++
  elect 0 3000 [10; 11]%nat ++
  [LStart 0 (at_time 4000) (IInt 30); LEntryReply 8] ++
  exchange 26 4000 ++ [heartbeat 0 4000] ++ exchange 30 4000 ++ [LApply 0; LApply 0] ++
  [LEntryReq 21 (at_time 4000)] ++ elect 2 5000 [13; 15]%nat ++
  [LStart 2 (at_time 6000) (IInt 40)] ++ exchange 37 6000 ++ exchange 39 6000 ++
  [heartbeat 2 6000] ++ exchange 41 6000 ++ exchange 43 6000 ++ [LApply 2; LApply 2].

(** Three peers.  Peer 1 leads term 1; peer 0 stores and snapshots its
    entries, then wins term 2 with the vote of peer 2 and sends peer 2 its
    snapshot, naming peer 1 as the leader.  Peer 2 records that name as its vote
    and grants it to peer 1, a candidate of the same term 2. *)
Definition snapshot_vote_run : list Label :=
  elect 1 0 [0%nat] ++ [LStart 1 (at_time 1000) (IInt 10); LStart 1 (at_time 1000) (IInt 11)] ++
  exchange 4 1000 ++
  [heartbeat 1 1000; LEntryReq 6 (at_time 1000); LApply 0; LApply 0; LSnapshot 0 1 [Byte.x01]] ++
  elect 0 2000 [3%nat] ++ exchange 9 3000 ++
  [heartbeat 0 3000; LSnapSend 0; LSnapReq 0; LRestart 1 (at_time 3000)] ++
  elect 1 4000 [5%nat].

(** Three peers.  Peer 0 leads term 1, commits index 1, appends an entry nobody
    else gets and snapshots at 1.  Peer 1 leads term 2, appends its own entry,
    restarts and leads term 3; call 10 is its first heartbeat to peer 0. *)
Definition compacted_run : list Label :=
  elect 0 0 [0%nat] ++ [LStart 0 (at_time 1000) (IInt 10)] ++ exchange 2 1000 ++
  [LApply 0; LStart 0 (at_time 1000) (IInt 11); LSnapshot 0 1 [Byte.x01]] ++
  elect 1 2000 [3%nat] ++ [LStart 1 (at_time 3000) (IInt 20); LRestart 1 (at_time 3000)] ++
  elect 1 4000 [5%nat].

(** Three peers.  After [commit_run] peer 1 leads term 2, brings the log of peer 2
    up to date, commits a second command with it, and all deliver. *)
Definition takeover_tail : list Label :=
  elect 1 2000 [3%nat] ++ [LStart 1 (at_time 3000) (IInt 8)] ++ exchange 9 3000 ++
  [heartbeat 1 3000] ++ exchange 11 3000 ++ [LApply 1; heartbeat 1 3000; LEntryReq 13 (at_time 3000);
   LApply 2; LApply 2; LRestart 1 (at_time 3000)].

Definition takeover_run : list Label := commit_run ++ takeover_tail.
