(* ===== verification/RaftAgree.v ===== *)
(** * Agreement

    Leader completeness and state machine safety, for runs without snapshots in
    which no answer to an AppendEntries call reaches its sender as the leader of
    another term. *)

From stdpp Require Import base list numbers gmap strings.
From Stdlib Require Import Lia.
From S2P Require Import Prelude RaftLog Persister RaftCore RaftLocal RaftCluster.
From S2P Require Import RaftElection RaftTotal RaftMatching RaftHistory RaftVotes RaftSteps.
From S2P Require Import RaftDurable RaftChosen RaftCommit RaftCommitted RaftRuns.

Section agreement.
Context `{laws : !RaftCodecLaws codec}.

(** ** Runs *)

Record agree_inv (G : history) (V : records) (g : Cluster) : Prop := {
  ag_hist : hist_inv G V g;
  ag_commits : commits_rec G g;
}.

Lemma exec_agree_inv l G V g g' :
  agree_inv G V g → exec_prompt l g = Done g' → ∃ G' V', later G G' g g' ∧ agree_inv G' V' g'.
Proof.
  intros [Hi Hc] [Hp H]%exec_prompt_Done.
  destruct (exec_hist_inv l G V g g') as (Hw & Hcalls & G' & V' & Hg & _ & Hi'); [by eapply prompt_plain|done..|].
  assert (later G G' g g') as Hl by (split; [by eapply exec_size|done..]).
  exists G', V'. split; [done|]. split; [done|]. destruct l; cbn in H; try done.
  - exact (exec_tick_commits _ _ _ _ _ _ _ _ _ Hi Hi' Hc Hl H).
  - exact (exec_start_commits _ _ _ _ _ _ _ _ _ Hi Hi' Hc Hl H).
  - exact (exec_vote_req_commits _ _ _ _ _ _ _ _ Hi Hi' Hc Hl H).
  - exact (exec_vote_reply_commits _ _ _ _ _ _ _ _ Hi Hi' Hc Hl H).
  - exact (exec_entry_req_commits _ _ _ _ _ _ _ _ Hi Hi' Hc Hl H).
  - exact (exec_entry_reply_commits _ _ _ _ _ _ _ Hi Hi' Hc Hl Hp H).
  - exact (exec_apply_commits _ _ _ _ _ _ _ Hi Hi' Hc Hl H).
  - exact (exec_restart_commits _ _ _ _ _ _ _ _ Hi Hi' Hc Hl H).
Qed.

Lemma agree_inv_init n c g : initCluster n c = Done g → agree_inv initHistory ∅ g.
Proof.
  intros H. split; [by eapply hist_inv_init|]. unfold initCluster in H. go_inv. split; cbn; try done.
  - intros s rf Hs Hl. eapply makeServers_fresh in Hs as (_ & _ & _ & ?); [congruence| |done].
    intros i Hi%elem_of_seqZ. lia.
  - intros s rf Hs. left.
    assert (∀ ids m, makeServers n c ids = Done m → ∀ s rf, m !! s = Some rf → commitIndex rf = 0) as Hm.
    { induction ids as [|i ids IH]; intros m Hmk s' r Hr; cbn in Hmk; go_inv; [done|].
      apply lookup_insert_Some in Hr as [[_ <-]|[_ Hr]]; [|by eapply IH].
      unfold Make, ReadRaftState in H. cbn in H. by go_inv. }
    by rewrite (Hm _ _ H0 _ _ Hs).
  - by intros s m ?%not_elem_of_nil.
Qed.

Lemma later_trans G1 G2 G3 g1 g2 g3 : later G1 G2 g1 g2 → later G2 G3 g2 g3 → later G1 G3 g1 g3.
Proof.
  intros [H1 H2 H3 H4] [H5 H6 H7 H8]. split; [congruence|by intros t; transitivity (G2 t)|by intros t s ?; auto|].
  intros i call (call1 & ? & ? & ? & ?)%H4. edestruct H8 as (call2 & ? & ? & ? & ?); [done|].
  exists call2. split_and!; [done|congruence|congruence|auto].
Qed.

Lemma run_agree_inv ls G V g g' :
  agree_inv G V g → run_prompt ls g = Done g' → ∃ G' V', later G G' g g' ∧ agree_inv G' V' g'.
Proof.
  revert G V g. induction ls as [|l ls IH]; intros G V g Hi H; cbn in H; go_inv.
  { exists G, V. split; [apply later_refl|done]. }
  destruct (exec_agree_inv _ _ _ _ _ Hi H0) as (G1 & V1 & Hl1 & Hi1).
  destruct (IH _ _ _ Hi1 H) as (G2 & V2 & Hl2 & Hi2). exists G2, V2. split; [by eapply later_trans|done].
Qed.

Lemma run_prompt_run ls g g' : run_prompt ls g = Done g' → run ls g = Done g' ∧ Forall plain ls.
Proof.
  revert g. induction ls as [|l ls IH]; intros g H; cbn in H |- *; go_inv; [auto|].
  apply exec_prompt_Done in H0 as [Hp ->]. destruct (IH _ H). split; [done|].
  constructor; [by eapply prompt_plain|done].
Qed.

Lemma prompt_reach_plain n g : prompt_reach n g → reach plain n g.
Proof.
  intros (c & g0 & ls & H0 & [H Hp]%run_prompt_run). eapply reach_run; [by eapply reach_init|done|done].
Qed.

Lemma reach_agree_inv n g : prompt_reach n g → ∃ G V, agree_inv G V g.
Proof.
  intros (c & g0 & ls & H0 & H). apply agree_inv_init in H0.
  destruct (run_agree_inv _ _ _ _ _ H0 H) as (G & V & _ & ?). eauto.
Qed.

(** Two chosen entries are on one log. *)
Lemma chosen_agree G V g t n t' n' i :
  hist_inv G V g → chosen G g t n → chosen G g t' n' → (i <= n)%nat → (i <= n')%nat → G t !! i = G t' !! i.
Proof.
  intros Hi. assert (∀ t t' n n', chosen G g t n → chosen G g t' n' → t < t' → (i <= n)%nat → G t !! i = G t' !! i)
    as Hlt.
  { clear t t' n n'. intros t t' n n' Hch Hch' Ht Hn. pose proof (chosen_term _ _ _ _ _ Hi Hch).
    destruct Hch' as [(e' & He' & _) _]. destruct (lv_known _ _ (hv_log _ _ _ Hi) t') as [?|[c Hw]].
    - intros E. by rewrite E, lookup_nil in He'.
    - lia.
    - pose proof (chosen_leader G V g t n t' c Hi Hch Hw ltac:(lia)) as Hp.
      destruct Hch as [(e & He & _) _]. apply lookup_lt_Some in He.
      rewrite (prefix_lookup_eq _ _ i Hp) by (rewrite length_take; lia). rewrite lookup_take_lt; [done|lia]. }
  intros Hch Hch' Hn Hn'. destruct (Ztrichotomy t t') as [?|[->|?]]; [|done|].
  - by apply (Hlt t t' n n').
  - symmetry. apply (Hlt t' t n' n); [done|done|lia|done].
Qed.

(** ** What is committed stays *)

(** One peer moves, and keeps its log if it did not handle AppendEntries. *)
Lemma exec_one_peer l g g' :
  plain l → election_inv g → exec l g = Done g' →
  ∃ s rf rf', servers g !! s = Some rf ∧ servers g' = <[s := rf']> (servers g) ∧
    currentTerm rf <= currentTerm rf' ∧
    (Entries (log rf) `prefix_of` Entries (log rf') ∨
     ∃ i call c reply, entryCalls g !! i = Some call ∧ ecTo call = s ∧
       AppendEntries c (ecArgs call) rf = Done (rf', reply)).
Proof.
  intros Hp He H.
  assert (∀ s rf rf', servers g !! s = Some rf → servers g' = <[s := rf']> (servers g) →
    currentTerm rf <= currentTerm rf' → log rf' = log rf → ∃ s rf rf', servers g !! s = Some rf ∧
    servers g' = <[s := rf']> (servers g) ∧ currentTerm rf <= currentTerm rf' ∧
    (Entries (log rf) `prefix_of` Entries (log rf') ∨
     ∃ i call c reply, entryCalls g !! i = Some call ∧ ecTo call = s ∧
       AppendEntries c (ecArgs call) rf = Done (rf', reply))) as Hsame.
  { intros s rf rf' ? ? ? E. exists s, rf, rf'. rewrite E. split_and!; auto. }
  destruct l; cbn in H, Hp; try done.
  - unfold exec_tick in H. exec_inv. apply ticker_inv in H1 as (rf1 & [[Ht _]%quiet_terms _] & Hl & Hel).
    destruct o as [el|]; [|subst r; by apply (Hsame s x rf1)].
    apply leaderElection_spec in Hel as (_&_&_&?&?&_). apply (Hsame s x r); try done; [lia|congruence].
  - unfold exec_start in H. exec_inv. pose proof (Start_tame _ _ _ _ _ _ H1) as [[Ht _]%quiet_terms _].
    exists s, x, r. split_and!; [done..|left]. unfold Start in H1. go_inv; [done|].
    match goal with H : appendEntries _ _ _ = _ |- _ => apply appendEntries_frame in H as [->| ->] end; by eexists.
  - unfold exec_vote_req in H. exec_inv. destruct (VoteGranted r0) eqn:Eg.
    + apply (RequestVote_granted _ _ _ _ _ H3) in Eg as (_&_&_&?&?&_&[[??]|(?&_)]);
        (apply (Hsame (vcTo x) x1 r); try done; lia).
    + apply (RequestVote_refused _ _ _ _ _ H3) in Eg as [[[? _]%quiet_terms _] ?]. by apply (Hsame (vcTo x) x1 r).
  - unfold exec_vote_reply in H. exec_inv. apply candidateRequest_spec in H4 as (_&_&_&?&_&?&_).
    by apply (Hsame (cpOwner x0) x1 r0).
  - unfold exec_entry_req in H. exec_inv. pose proof (AppendEntries_tame _ _ _ _ _ H2) as [[? _]%quiet_terms _].
    exists (ecTo x), x0, r. split_and!; [done..|right]. eauto 10.
  - unfold exec_entry_reply in H. exec_inv. apply leaderSendEntries_tame in H3 as [[[? _]%quiet_terms _] ?].
    by apply (Hsame (ecFrom x) x0 x2).
  - unfold exec_apply in H. exec_inv. apply LoopCommit_tame in H1 as [[[? _]%quiet_terms _] ?].
    apply (Hsame s x r); try done; by destruct o.
  - unfold exec_restart in H. exec_inv. destruct (ei_servers _ He _ _ H0) as (?&?&_&?).
    eapply restart_tame in H1 as [[[? _]%quiet_terms _] ?]; [|done..]. by apply (Hsame s x x0).
Qed.

(** A peer never loses a chosen part of its log. *)
Lemma exec_keeps l G V g g' s rf t n B :
  plain l → hist_inv G V g → exec l g = Done g' → servers g !! s = Some rf →
  chosen G g t n → (length B <= S n)%nat → t <= currentTerm rf → B `prefix_of` G t →
  B `prefix_of` Entries (log rf) →
  ∃ rf', servers g' !! s = Some rf' ∧ currentTerm rf <= currentTerm rf' ∧ B `prefix_of` Entries (log rf').
Proof.
  intros Hp Hi H Hs Hch HB Ht HBG Hpre.
  destruct (exec_one_peer l g g' Hp (lv_election _ _ (hv_log _ _ _ Hi)) H) as (s0 & r & r' & Hs0 & Hsv & Hle & Hlog).
  rewrite Hsv. destruct (decide (s0 = s)) as [->|Hne].
  2:{ exists rf. rewrite lookup_insert_ne by done. done. }
  exists r'. rewrite lookup_insert_eq. assert (r = rf) as -> by congruence. split_and!; [done..|].
  destruct Hlog as [Hl|(i & call & c & reply & Hi0 & <- & Ha)]; [by etransitivity|].
  pose proof (lv_peers _ _ (hv_log _ _ _ Hi) _ _ Hs) as Hpl.
  pose proof (lv_calls _ _ (hv_log _ _ _ Hi) _ _ Hi0) as Hcall. pose proof Hcall as (_ & _ & _ & _ & Hargs & _).
  pose proof (wp_post _ _ _ (AppendEntries_total c (ecArgs call) rf (pl_ok _ _ Hpl) (pl_index0 _ _ Hpl) Hargs) Ha)
    as (_ & _ & Hres).
  destruct (Success reply); [|by destruct Hres as [-> _]]. destruct Hres as (Hle' & Hta & Hm & Hlog).
  destruct (append_effect G V g g call rf r') as (_ & _ & Hkeep); try done; [by intros ? ?| |].
  { intros e. by apply (hv_terms _ _ _ Hi (ecTo call)). }
  destruct (Hkeep t B Ht HBG Hpre) as [?|(t1 & d & l1 & Ht1 & Hw & Hl1 & Hno)]; [done|exfalso].
  destruct (chosen_elected G V g t n t1 d) as (l2 & Hl2 & Hp2); try done; [lia|].
  assert (l2 = l1) as -> by congruence. apply Hno. transitivity (take (S n) (G t)); [by apply prefix_take|done].
Qed.

Lemma run_keeps ls G V g g' s rf t n B :
  agree_inv G V g → run_prompt ls g = Done g' → servers g !! s = Some rf →
  chosen G g t n → (length B <= S n)%nat → t <= currentTerm rf → B `prefix_of` G t →
  B `prefix_of` Entries (log rf) →
  ∃ rf', servers g' !! s = Some rf' ∧ B `prefix_of` Entries (log rf').
Proof.
  revert G V g rf. induction ls as [|l ls IH]; intros G V g rf Hi H Hs Hch HB Ht HBG Hpre; cbn in H; go_inv; [eauto|].
  destruct (exec_agree_inv _ _ _ _ _ Hi H0) as (G1 & V1 & Hl1 & Hi1).
  apply exec_prompt_Done in H0 as [Hp H0]. 
  destruct (exec_keeps l G V g x s rf t n B) as (rf1 & Hs1 & Hle & Hpre1); try done;
    [by eapply prompt_plain|apply Hi|].
  eapply (IH G1 V1 x rf1); try done; [by eapply later_chosen|lia|]. etransitivity; [exact HBG|apply Hl1].
Qed.

(** ** The theorems *)

(** The committed part of a log, entry by entry. *)
Lemma committed_at G G' V' g g' rf rf' i :
  later G G' g g' → hist_inv G' V' g' → committed G g (currentTerm rf) (Entries (log rf)) (commitIndex rf) →
  Index0 (log rf) = 0 → Index0 (log rf') = 0 → 0 < i <= commitIndex rf →
  (∀ t n B, chosen G g t n → (length B <= S n)%nat → t <= currentTerm rf → B `prefix_of` G t →
     B `prefix_of` Entries (log rf) → B `prefix_of` Entries (log rf')) →
  at_ (log rf') i = at_ (log rf) i.
Proof.
  intros Hl Hi' [?|(t & n & Hch & Ht & Hn & Hp)] H0 H0' Hr Hkeep; [lia|].
  pose proof Hch as [(e & He & _) _]. apply lookup_lt_Some in He.
  assert (take (S (Z.to_nat (commitIndex rf))) (G t) `prefix_of` Entries (log rf')) as Hp'.
  { apply (Hkeep t n); try done; [|apply take_prefix]. rewrite length_take. lia. }
  unfold at_, zlookup. rewrite H0, H0', Z.sub_0_r. destruct (Z.ltb_spec i 0); [lia|]. f_equal.
  rewrite (prefix_lookup_eq _ _ (Z.to_nat i) Hp), (prefix_lookup_eq _ _ (Z.to_nat i) Hp'); [done|..];
    rewrite length_take; lia.
Qed.

Lemma deliveries_agree n g s s' m m' :
  prompt_reach n g → (s, m) ∈ applied g → (s', m') ∈ applied g →
  CommandIndex m = CommandIndex m' → m = m'.
Proof.
  intros (G & V & Hi & Hc)%reach_agree_inv Hm Hm' E.
  destruct (cr_applied _ _ Hc _ _ Hm) as (t & k & e & Hch & _ & Hk & He & ->).
  destruct (cr_applied _ _ Hc _ _ Hm') as (t' & k' & e' & Hch' & _ & Hk' & He' & ->).
  cbn in E. rewrite E in *. f_equal. pose proof (chosen_agree G V g t k t' k' _ Hi Hch Hch' Hk Hk'). congruence.
Qed.

(** C1. State machine safety: no two peers, and no peer twice, deliver different
    commands at one index, over a whole run with crashes, lost and reordered
    messages, if no answer to AppendEntries reaches its sender as the leader of
    another term. *)
Theorem state_machine_safety n g s s' m m' :
  prompt_reach n g → (s, m) ∈ applied g → (s', m') ∈ applied g →
  CommandIndex m = CommandIndex m' → m = m'.
Proof. apply deliveries_agree. Qed.

(** C2. Leader completeness: what a peer has committed in some term is in the log of
    every leader of that or a later term. *)
Theorem leader_completeness n g ls g' s rf s' rf' i :
  prompt_reach n g → run_prompt ls g = Done g' →
  servers g !! s = Some rf → servers g' !! s' = Some rf' → state rf' = Leader →
  currentTerm rf <= currentTerm rf' → 0 < i <= commitIndex rf → at_ (log rf') i = at_ (log rf) i.
Proof.
  intros (G & V & Hi)%reach_agree_inv H Hs Hs' Hlead Ht Hr.
  destruct (run_agree_inv _ _ _ _ _ Hi H) as (G' & V' & Hl & Hi'). destruct Hi as [Hi Hc], Hi' as [Hi' _].
  destruct (lv_peers _ _ (hv_log _ _ _ Hi') _ _ Hs') as [_ H0' _ _ Hld].
  eapply (committed_at G G' V' g g'); try done; [by apply (cr_commit _ _ Hc s)| |].
  { apply (lv_peers _ _ (hv_log _ _ _ Hi) _ _ Hs). }
  intros t k B Hch HB HtB HBG _. rewrite Hld by done.
  eapply later_chosen in Hch; [|done]. transitivity (take (S k) (G' t)).
  - apply prefix_take; [|done]. etransitivity; [exact HBG|apply Hl].
  - eapply (chosen_leader G' V' g' t k); try done; [|lia]. apply leader_won; [apply (hv_log _ _ _ Hi')|done|done].
Qed.

(** C7. What is committed stays: an entry below the commit index of a peer is in its
    log for ever, crashes and restarts included. *)
Theorem committed_is_permanent n g ls g' s rf :
  prompt_reach n g → run_prompt ls g = Done g' → servers g !! s = Some rf →
  commitIndex rf <= lastIndex (log rf) ∧
  ∃ rf', servers g' !! s = Some rf' ∧ ∀ i, 0 < i <= commitIndex rf → at_ (log rf') i = at_ (log rf) i.
Proof.
  intros Hr H Hs. pose proof (reach_durable _ _ _ (prompt_reach_plain _ _ Hr)) as Hd.
  apply reach_agree_inv in Hr as (G & V & Hi). pose proof (cr_commit _ _ (ag_commits _ _ _ Hi) _ _ Hs) as Hcm.
  destruct (lv_peers _ _ (hv_log _ _ _ (ag_hist _ _ _ Hi)) _ _ Hs) as [Hok H0 _ _ _]. split.
  { pose proof (log_ok_len _ (po_log _ Hok)). apply committed_bound in Hcm. unfold lastIndex, Len. lia. }
  destruct (run_agree_inv _ _ _ _ _ Hi H) as (G' & V' & Hl & [Hi' _]).
  destruct (run_peer ls g g' s rf Hd (proj1 (run_prompt_run _ _ _ H)) Hs) as (rf' & Hs' & _). exists rf'. split; [done|].
  intros i Hr. eapply (committed_at G G' V' g g'); try done; [apply (lv_peers _ _ (hv_log _ _ _ Hi') _ _ Hs')|].
  intros t k B Hch HB HtB HBG Hpre.
  destruct (run_keeps ls G V g g' s rf t k B) as (rf2 & Hs2 & ?); try done. by assert (rf2 = rf') as <- by congruence.
Qed.
End agreement.

(** ** A run with a change of leaders *)

Lemma takeover_reach : prompt_reach 3 (after 3 takeover_run).
Proof. exists (at_time 0), (fresh 3), takeover_run. split; vm_compute; reflexivity. Qed.

Lemma commit_reach : prompt_reach 3 (after 3 commit_run).
Proof. exists (at_time 0), (fresh 3), commit_run. split; vm_compute; reflexivity. Qed.

Lemma state_machine_safety_witness :
  ∃ m m', (0, m) ∈ applied (after 3 takeover_run) ∧ (2, m') ∈ applied (after 3 takeover_run) ∧
    amCommand m = IInt 7 ∧ m = m'.
Proof.
  assert (applied (after 3 takeover_run) =
    [(0, mkApplyMsg true (IInt 7) 1 false [] 0 0); (1, mkApplyMsg true (IInt 7) 1 false [] 0 0);
     (1, mkApplyMsg true (IInt 8) 2 false [] 0 0); (2, mkApplyMsg true (IInt 7) 1 false [] 0 0);
     (2, mkApplyMsg true (IInt 8) 2 false [] 0 0)]) as E by (vm_compute; reflexivity).
  assert ((0, mkApplyMsg true (IInt 7) 1 false [] 0 0) ∈ applied (after 3 takeover_run)) as H0
    by (rewrite E; constructor).
  assert ((2, mkApplyMsg true (IInt 7) 1 false [] 0 0) ∈ applied (after 3 takeover_run)) as H2
    by (rewrite E; do 4 constructor).
  do 2 eexists. split; [exact H0|]. split; [exact H2|]. split; [reflexivity|].
  exact (state_machine_safety 3 _ 0 2 _ _ takeover_reach H0 H2 eq_refl).
Defined.

Lemma leader_completeness_witness :
  commitIndex (peer_after 3 commit_run 0) = 1 ∧
  at_ (log (peer_after 3 (commit_run ++ take 4 takeover_tail) 1)) 1 = at_ (log (peer_after 3 commit_run 0)) 1.
Proof.
  split; [vm_compute; reflexivity|].
  apply (leader_completeness 3 (after 3 commit_run) (take 4 takeover_tail)
    (after 3 (commit_run ++ take 4 takeover_tail)) 0 (peer_after 3 commit_run 0) 1).
  - exact commit_reach.
  - vm_compute. reflexivity.
  - vm_compute. reflexivity.
  - vm_compute. reflexivity.
  - vm_compute. reflexivity.
  - vm_compute. discriminate.
  - vm_compute. split; [reflexivity|discriminate].
Defined.

Lemma committed_is_permanent_witness :
  ∃ rf', servers (after 3 takeover_run) !! 1 = Some rf' ∧
    at_ (log rf') 1 = at_ (log (peer_after 3 commit_run 1)) 1.
Proof.
  destruct (committed_is_permanent 3 (after 3 commit_run) takeover_tail (after 3 takeover_run) 1
    (peer_after 3 commit_run 1)) as [_ (rf' & Hs & Hk)].
  - exact commit_reach.
  - vm_compute. reflexivity.
  - vm_compute. reflexivity.
  - exists rf'. split; [exact Hs|]. apply Hk. vm_compute. split; [reflexivity|discriminate].
Defined.
