(* ===== verification/RaftElect.v ===== *)
(** * A majority can elect a leader

    Liveness of elections, for runs without snapshots: whatever has happened, and
    whatever calls are still in flight, the peers of any majority can elect one of
    them, by steps of their own and with messages among themselves only.  [moves q]
    relates two clusters by such steps.  The member of the majority with the newest
    log campaigns until its term is new to all of them, and collects their votes;
    each vote is one round of two steps ([vote_round]). *)

From stdpp Require Import base list numbers gmap strings.
From Stdlib Require Import Lia.
From S2P Require Import Prelude RaftLog Persister RaftCore RaftLocal RaftCluster.
From S2P Require Import RaftElection RaftTotal RaftMatching RaftHistory RaftVotes RaftSteps.
From S2P Require Import RaftDurable RaftChosen RaftCommit RaftCommitted RaftRuns RaftAgree.

Section elect.
Context `{laws : !RaftCodecLaws codec}.

(** ** Steps of a group of peers *)

(** Only peers of [q] change. *)
Definition moves (q : list Z) (g g' : Cluster) : Prop :=
  ∃ ls, run_prompt ls g = Done g' ∧ ∀ x, x ∉ q → servers g' !! x = servers g !! x.

Lemma run_prompt_app ls ls' g : run_prompt (ls ++ ls') g = run_prompt ls g ≫= run_prompt ls'.
Proof.
  revert g. induction ls as [|l ls IH]; intros g; cbn; [done|].
  destruct (exec_prompt l g); cbn; [apply IH|done|done].
Qed.

#[export] Instance moves_preorder q : PreOrder (moves q).
Proof.
  split.
  - intros g. exists []. done.
  - intros g1 g2 g3 (l1 & H1 & Hx1) (l2 & H2 & Hx2). exists (l1 ++ l2).
    rewrite run_prompt_app, H1. split; [exact H2|]. intros x Hx. by rewrite Hx2, Hx1.
Qed.

Lemma moves_step q l g g' :
  exec_prompt l g = Done g' → (∀ x, x ∉ q → servers g' !! x = servers g !! x) → moves q g g'.
Proof. intros H Hx. exists [l]. cbn. by rewrite H. Qed.

Lemma moves_put q l g g' s rf :
  exec_prompt l g = Done g' → servers g' = <[s := rf]> (servers g) → s ∈ q → moves q g g'.
Proof.
  intros H E Hs. eapply moves_step; [done|]. intros x Hx. rewrite E. apply lookup_insert_ne. by intros ->.
Qed.

Lemma moves_others q g g' x : moves q g g' → x ∉ q → servers g' !! x = servers g !! x.
Proof. intros (_ & _ & H). apply H. Qed.

Lemma moves_reach n q g g' : prompt_reach n g → moves q g g' → prompt_reach n g'.
Proof.
  intros (c & g0 & ls & H0 & H) (ls' & H' & _). exists c, g0, (ls ++ ls').
  split; [done|]. by rewrite run_prompt_app, H.
Qed.

(** ** What every reachable cluster offers *)

Record peer_ready (n s : Z) (rf : Raft) : Prop := {
  pr_ok : peer_ok rf;
  pr_index0 : Index0 (log rf) = 0;
  pr_me : me rf = s;
  pr_peers : npeers rf = n;
  pr_alive : killed rf = false;
}.

Lemma makeServers_alive n c ids m s rf : makeServers n c ids = Done m → m !! s = Some rf → dead rf = 0.
Proof.
  revert m. induction ids as [|i ids IH]; intros m H Hs; cbn in H; go_inv; [done|].
  apply lookup_insert_Some in Hs as [[_ <-]|[_ Hs]]; [done|by eapply IH].
Qed.

Lemma makeServers_all n c ids m s : makeServers n c ids = Done m → s ∈ ids → is_Some (m !! s).
Proof.
  revert m. induction ids as [|i ids IH]; intros m H Hs; cbn in H; go_inv; [by apply not_elem_of_nil in Hs|].
  apply elem_of_cons in Hs as [->|Hs]; [by rewrite lookup_insert_eq|].
  destruct (decide (s = i)) as [->|]; [by rewrite lookup_insert_eq|]. rewrite lookup_insert_ne by done. by eapply IH.
Qed.

(** Nobody is dead, and everybody is there. *)
Lemma reach_alive n g :
  reach plain n g → size g = n ∧ (∀ s rf, servers g !! s = Some rf → dead rf = 0) ∧
    (∀ s, 0 <= s < n → is_Some (servers g !! s)).
Proof.
  revert g. apply reach_invariant.
  - intros c g H. unfold initCluster in H. go_inv. cbn. split_and!; [done| |].
    + intros s rf. by eapply makeServers_alive.
    + intros s Hs. eapply makeServers_all; [done|]. apply elem_of_seqZ. lia.
  - intros l g g' Hp (Hsz & Hd & Ha) H. rewrite (exec_size _ _ _ H).
    destruct (exec_applied l g g' Hp H) as (s & rf & rf' & Hs & -> & Halive & _). split_and!; [done| |].
    + intros s0 r [[<- <-]|[_ Hs0]]%lookup_insert_Some; [by apply Halive, (Hd s)|by apply (Hd s0)].
    + intros s0 Hs0. apply lookup_insert_is_Some. destruct (decide (s = s0)); auto.
Qed.

Lemma reach_ready n g s :
  prompt_reach n g → 0 <= s < n → ∃ rf, servers g !! s = Some rf ∧ peer_ready n s rf.
Proof.
  intros Hr%prompt_reach_plain Hs. destruct (reach_alive n g Hr) as (Hsz & Hd & Ha).
  destruct (Ha s Hs) as [rf Hrf]. destruct (reach_log_inv _ _ Hr) as [G Hi].
  destruct (ei_servers _ (lv_election _ _ Hi) _ _ Hrf) as (? & ? & _).
  destruct (lv_peers _ _ Hi _ _ Hrf) as [? ? _ _ _]. exists rf. split; [done|]. split; try done; [congruence|].
  unfold killed. by rewrite (Hd _ _ Hrf).
Qed.

(** ** A campaign *)

(** The campaign [k] of [s] in term [T] has [v] votes and is not decided. *)
Record candidate (g : Cluster) (s T : Z) (k : nat) (v : Z) (rf : Raft) (cp : Campaign) : Prop := {
  ca_peer : servers g !! s = Some rf;
  ca_state : state rf = Candidate;
  ca_term : currentTerm rf = T;
  ca_campaign : campaigns g !! k = Some cp;
  ca_owner : cpOwner cp = s;
  ca_cpTerm : cpTerm cp = T;
  ca_votes : votecount (cpElection cp) = v;
  ca_open : cpWon cp = false;
  ca_incarnation : cpIncarnation cp = incarnation g s;
  ca_log : describes (Entries (log rf)) (cpArgs cp);
}.

(** A late enough clock. *)
Definition late_clock (rf : Raft) : Clock := at_time (Z.max (electionTime rf) 150 + 1).

Lemma ticker_elects rf :
  peer_ok rf → killed rf = false →
  ∃ rf' out el, ticker (at_time 0) (late_clock rf) rf = Done (rf', out, Some el).
Proof.
  intros Hok Hk. pose proof (ticker_total (at_time 0) (late_clock rf) rf Hok Hk) as Ht.
  destruct (ticker _ _ rf) as [[[rf' out] [el|]]| |] eqn:E; try done; [by eauto|]. exfalso. clear Ht.
  unfold ticker in E. rewrite Hk in E. apply bind_Done in E as ([rf1 out1] & H1 & E).
  assert (electionTime rf1 <= Z.max (electionTime rf) 150) as Ht.
  { clear E. destruct (bool_decide _); [|go_inv; lia]. apply appendEntries_frame in H1 as [->| ->]; cbn; lia. }
  destruct (Z.ltb_spec (electionTime rf1) (now (late_clock rf))) as [|Hge]; [by go_inv|]. cbn in Hge. lia.
Qed.

(** Peer [s] starts a campaign. *)
Lemma campaign_round n g s rf :
  prompt_reach n g → servers g !! s = Some rf → 0 <= s < n →
  ∃ g' rf' cp, moves [s] g g' ∧ servers g' = <[s := rf']> (servers g) ∧ log rf' = log rf ∧
    candidate g' s (currentTerm rf + 1) (length (campaigns g)) 1 rf' cp ∧
    ∀ p, 0 <= p < n → p ≠ s → ∃ i, voteCalls g' !! i = Some (mkVoteCall (length (campaigns g)) p Sent).
Proof.
  intros Hr Hs Hn. destruct (reach_ready n g s Hr Hn) as (rf0 & Hs0 & Hrd). assert (rf0 = rf) as -> by congruence.
  destruct Hrd as [Hok H0 Hme Hnp Hk].
  destruct (ticker_elects rf Hok Hk) as (rf' & out & el & Ht).
  destruct (ticker_frame _ _ _ _ _ _ Ht) as (rf1 & Hrf1 & Hel).
  pose proof (leaderElection_spec _ _ _ _ Hel) as (_ & _ & _ & Hlog & Hterm & _ & Hst & Hva & Hca & Hvc & Hbl).
  assert (log rf1 = log rf ∧ currentTerm rf1 = currentTerm rf ∧ me rf1 = me rf) as (El & Et & Em) by (by destruct Hrf1 as [->| ->]).
  pose proof (leaderElection_describes _ _ _ _ (ltac:(rewrite El; apply Hok) : log_ok (log rf1)) (ltac:(by rewrite El)) Hel) as Hd.
  set (g' := campaign s el (spawn s out (put s rf' g))). exists g', rf', (mkCampaign el (incarnation g s)).
  assert (exec_prompt (LTick s (at_time 0) (late_clock rf)) g = Done g') as Hx.
  { apply exec_prompt_Done. split; [done|]. cbn. unfold exec_tick. rewrite Hs. cbn. by rewrite Ht. }
  split; [eapply moves_put; [exact Hx|done|by left]|]. split; [done|]. split; [congruence|].
  destruct (reach_alive n g (prompt_reach_plain _ _ Hr)) as (Hsz & _). split.
  - split; cbn; try done; try lia.
    + apply lookup_insert_eq.
    + by rewrite lookup_app_r, Nat.sub_diag by done.
    + unfold cpOwner, cpArgs. cbn. congruence.
    + unfold cpTerm, cpArgs. cbn. lia.
    + rewrite Hlog, El. rewrite El in Hd. exact Hd.
  - intros p Hp Hne.
    assert (mkVoteCall (length (campaigns g)) p Sent ∈ voteCalls g') as [i Hi]%list_elem_of_lookup; [|by exists i].
    cbn. apply elem_of_app. right. apply campaignCalls_spec. cbn. rewrite Hsz. done.
Qed.

(** ** A vote *)

Lemma RequestVote_grants c args rf :
  peer_ok rf → Index0 (log rf) = 0 → currentTerm rf < vaTerm args → upto (Entries (log rf)) args →
  ∃ rf', RequestVote c args rf = Done (rf', mkVoteReply (vaTerm args) true) ∧ log rf' = log rf ∧
    currentTerm rf' = vaTerm args.
Proof.
  intros Hok H0 Ht (e & He & Hup). destruct (LastLog_total (log rf) (po_log _ Hok)) as (e' & Hl & Hi & Hlast).
  assert (e' = e) as -> by congruence. unfold RequestVote. fold (adopt (vaTerm args) rf).
  destruct (Z.ltb_spec (vaTerm args) (currentTerm rf)); [lia|]. rewrite adopt_log, Hl. cbn [mbind outcome_bind].
  assert (votedFor (adopt (vaTerm args) rf) = -1) as ->.
  { unfold adopt, setNewTerm. by destruct (Z.ltb_spec (currentTerm rf) (vaTerm args)); [|lia]. }
  assert ((Term e <? LastLogTerm args) || ((LastLogTerm args =? Term e) && (Index e <=? LastLogIndex args)) = true) as ->.
  { rewrite orb_true_iff, andb_true_iff, Z.ltb_lt, Z.eqb_eq, Z.leb_le, Hi. unfold lastIndex, Len. lia. }
  cbn. eexists. rewrite adopt_term by lia. split; [done|]. cbn. split; [apply adopt_log|]. apply adopt_term. lia.
Qed.

Lemma candidateRequest_counts c el t rf :
  peer_ok rf → state rf = Candidate → currentTerm rf = vaTerm (elArgs el) → becomeLeader el = false →
  ∃ rf' el' out, candidateRequest c el (mkVoteReply t true) rf = Done (rf', el', out) ∧ log rf' = log rf ∧
    currentTerm rf' = currentTerm rf ∧ elArgs el' = elArgs el ∧ votecount el' = votecount el + 1 ∧
    (state rf' = Leader ∨ 2 * (votecount el + 1) <= npeers rf ∧ rf' = rf ∧ becomeLeader el' = false).
Proof.
  intros Hok Hs Ht Hb. unfold candidateRequest. cbn [VoteGranted negb andb elArgs votecount becomeLeader].
  rewrite Ht, Z.eqb_refl, (bool_decide_eq_true_2 (state rf = Candidate)), Hb by done.
  destruct (Z.ltb_spec (npeers rf) (2 * (votecount el + 1))) as [|Hle]; cbn [andb].
  - pose proof (winElection_total c rf Hok) as Hw. destruct (winElection c rf) as [[rf' out]| |] eqn:E; try done.
    apply winElection_spec in E as (_ & _ & _ & ? & ? & _ & ?). cbn. do 3 eexists. split; [done|]. cbn.
    split_and!; [done|congruence|done|done|by left].
  - do 3 eexists. split; [done|]. cbn. split_and!; try done. right. auto.
Qed.

(** Peer [p], whose term is older and whose log is not newer, votes for [s]. *)
Lemma vote_round n g s T k v rf cp i p rp :
  prompt_reach n g → candidate g s T k v rf cp → voteCalls g !! i = Some (mkVoteCall k p Sent) →
  p ≠ s → 0 <= p < n → 0 <= s < n → servers g !! p = Some rp → currentTerm rp < T →
  upto (Entries (log rp)) (cpArgs cp) →
  ∃ g' rf' rp', moves [s; p] g g' ∧ servers g' = <[s := rf']> (<[p := rp']> (servers g)) ∧
    log rf' = log rf ∧ currentTerm rf' = T ∧ currentTerm rp' = T ∧
    (∀ j, j ≠ i → voteCalls g' !! j = voteCalls g !! j) ∧
    (state rf' = Leader ∨ 2 * (v + 1) <= n ∧ ∃ cp', candidate g' s T k (v + 1) rf' cp' ∧ cpArgs cp' = cpArgs cp).
Proof.
  intros Hr [Hs Hst Ht Hk Ho Hct Hv Hopen Hinc Hd] Hi Hne Hp Hsn Hrp Htp Hup.
  destruct (reach_ready n g p Hr Hp) as (rp0 & Hrp0 & [Hokp H0p _ _ _]). assert (rp0 = rp) as -> by congruence.
  destruct (reach_ready n g s Hr Hsn) as (rf0 & Hs0 & [Hoks _ _ Hnp _]). assert (rf0 = rf) as -> by congruence.
  destruct (RequestVote_grants (at_time 0) (cpArgs cp) rp) as (rp' & Hvote & _ & Hterm); [done|done|by fold (cpTerm cp); lia|done|].
  destruct (candidateRequest_counts (at_time 0) (cpElection cp) (cpTerm cp) rf) as (rf' & el' & out & Hcr & Hlog & Ht' & Ha & Hvc & Hres);
    [done|done|fold (cpArgs cp); fold (cpTerm cp); lia|done|].
  set (g1 := set_voteCalls (<[i := mkVoteCall k p (Replied (mkVoteReply (cpTerm cp) true))]> (voteCalls g)) (put p rp' g)).
  assert (exec_prompt (LVoteReq i (at_time 0)) g = Done g1) as H1.
  { apply exec_prompt_Done. split; [done|]. cbn. unfold exec_vote_req. rewrite Hi. cbn. rewrite Hk. cbn. rewrite Hrp. cbn.
    by rewrite Hvote. }
  set (g2 := spawn s out (set_voteCalls (<[i := mkVoteCall k p (Finished (mkVoteReply (cpTerm cp) true))]> (voteCalls g1))
    (set_campaigns (<[k := mkCampaign el' (cpIncarnation cp)]> (campaigns g)) (put s rf' g1)))).
  assert (exec_prompt (LVoteReply i (at_time 0)) g1 = Done g2) as H2.
  { apply exec_prompt_Done. split; [done|]. cbn -[candidateRequest]. unfold exec_vote_reply. cbn -[candidateRequest].
    rewrite list_lookup_insert_eq by (by eapply lookup_lt_Some). cbn -[candidateRequest]. rewrite Hk. cbn -[candidateRequest].
    rewrite Ho, lookup_insert_ne, Hs by done. cbn -[candidateRequest]. rewrite bool_decide_true by done.
    cbn -[candidateRequest]. by rewrite Hcr. }
  exists g2, rf', rp'. split; [|split; [done|]].
  { etransitivity; [eapply moves_put; [exact H1|done|by right; left]|]. eapply moves_put; [exact H2|done|by left]. }
  split; [done|]. split; [lia|]. split; [fold (cpTerm cp) in Hterm; lia|]. split.
  { intros j Hj. cbn. by rewrite !list_lookup_insert_ne by done. }
  destruct Hres as [?|(Hle & -> & Hb)]; [by left|right]. split; [lia|].
  exists (mkCampaign el' (cpIncarnation cp)). split; [|unfold cpArgs; done].
  split; cbn; try done; try lia; unfold cpOwner, cpTerm, cpArgs in *; cbn; rewrite ?Ha; try done; try lia.
  - apply lookup_insert_eq.
  - apply list_lookup_insert_eq. by eapply lookup_lt_Some.
Qed.

Lemma moves_mono q q' g g' : (∀ x, x ∈ q → x ∈ q') → moves q g g' → moves q' g g'.
Proof. intros Hq (ls & H & Hx). exists ls. split; [done|]. intros x Hn. apply Hx. intros ?%Hq. done. Qed.

(** ** All votes *)

(** Peers whose vote [s] can still get. *)
Definition willing (n : Z) (g : Cluster) (s T : Z) (k : nat) (a : RequestVoteArgs) (p : Z) : Prop :=
  0 <= p < n ∧ p ≠ s ∧ (∃ i, voteCalls g !! i = Some (mkVoteCall k p Sent)) ∧
  ∃ rp, servers g !! p = Some rp ∧ currentTerm rp < T ∧ upto (Entries (log rp)) a.

Lemma vote_rounds n s T k r g v rf cp :
  prompt_reach n g → 0 <= s < n → candidate g s T k v rf cp → NoDup r →
  (∀ p, p ∈ r → willing n g s T k (cpArgs cp) p) →
  2 * v <= n → n < 2 * (v + Z.of_nat (length r)) →
  ∃ g' rf', moves (s :: r) g g' ∧ servers g' !! s = Some rf' ∧ state rf' = Leader ∧ currentTerm rf' = T ∧
    log rf' = log rf ∧ ∀ p rp, p ∈ r → servers g' !! p = Some rp → currentTerm rp <= T.
Proof.
  intros Hr Hs. revert g v rf cp Hr. induction r as [|p r IH]; intros g v rf cp Hr Hc Hnd Hw Hv Hm; [cbn in Hm; lia|].
  apply NoDup_cons in Hnd as [Hp Hnd].
  destruct (Hw p) as (Hpn & Hne & [i Hi] & rp & Hrp & Ht & Hup); [by left|].
  destruct (vote_round n g s T k v rf cp i p rp) as (g1 & rf1 & rp1 & Hmv & Hsv & Hlog & Ht1 & Htp & Hcalls & Hres); [done..|].
  assert (∀ q, q ∈ r → q ≠ p ∧ q ≠ s) as Hq.
  { intros q Hin. split; [by intros ->|]. apply (Hw q). by right. }
  assert (servers g1 !! s = Some rf1) as Hs1 by (rewrite Hsv; apply lookup_insert_eq).
  assert (servers g1 !! p = Some rp1) as Hp1 by (rewrite Hsv, lookup_insert_ne by done; apply lookup_insert_eq).
  assert (∀ q, q ∈ r → servers g1 !! q = servers g !! q) as Hold.
  { intros q [??]%Hq. by rewrite Hsv, !lookup_insert_ne by done. }
  assert (moves (s :: p :: r) g g1) as Hmv1.
  { eapply moves_mono; [|exact Hmv]. intros x. rewrite !elem_of_cons. rewrite elem_of_nil. tauto. }
  destruct Hres as [Hlead|(Hle & cp1 & Hc1 & Ea)].
  - exists g1, rf1. split_and!; try done. intros q rq [->|Hin]%elem_of_cons Hrq; [congruence || (assert (rq = rp1) as -> by congruence; lia)|].
    rewrite Hold in Hrq by done. destruct (Hw q) as (_ & _ & _ & rq' & ? & ? & _); [by right|]. assert (rq' = rq) as -> by congruence. lia.
  - destruct (IH g1 (v + 1) rf1 cp1) as (g2 & rf2 & Hmv2 & Hs2 & Hl2 & Ht2 & Hlog2 & Hterms);
      [by eapply moves_reach|done|done| |lia|cbn in Hm; lia|].
    { intros q Hin. destruct (Hq q Hin) as [Hqp Hqs]. destruct (Hw q) as (? & ? & [j Hj] & Hrq); [by right|].
      split_and!; [lia|lia|done| |by rewrite Hold, Ea]. exists j. rewrite Hcalls; [done|].
      intros ->. rewrite Hj in Hi. injection Hi as ->. done. }
    assert (moves (s :: p :: r) g1 g2) as Hmv2'.
    { eapply moves_mono; [|exact Hmv2]. intros x. rewrite !elem_of_cons. tauto. }
    exists g2, rf2. split_and!; try done; [by etransitivity|congruence|].
    intros q rq [->|Hin]%elem_of_cons Hrq; [|by eapply Hterms]. destruct Hmv2 as (ls & _ & Hx).
    rewrite Hx in Hrq by (rewrite elem_of_cons; naive_solver). assert (rq = rp1) as -> by congruence. lia.
Qed.

(** ** Raising the term *)

Lemma raise_term n s T0 (m : nat) g rf :
  prompt_reach n g → 0 <= s < n → servers g !! s = Some rf → T0 - currentTerm rf <= Z.of_nat m →
  ∃ g' rf' cp k, moves [s] g g' ∧ T0 < currentTerm rf' ∧ log rf' = log rf ∧
    candidate g' s (currentTerm rf') k 1 rf' cp ∧
    ∀ p, 0 <= p < n → p ≠ s → ∃ i, voteCalls g' !! i = Some (mkVoteCall k p Sent).
Proof.
  intros Hr Hs. revert g rf Hr. induction m as [|m IH]; intros g rf Hr Hrf Hm.
  all: destruct (campaign_round n g s rf Hr Hrf Hs) as (g1 & rf1 & cp & Hmv & Hsv & Hlog & Hc & Hcalls);
    pose proof (ca_term _ _ _ _ _ _ _ Hc) as Ht.
  - exists g1, rf1, cp, (length (campaigns g)). rewrite Ht. split_and!; try done. lia.
  - destruct (IH g1 rf1) as (g2 & rf2 & cp2 & k & Hmv2 & ? & ? & ? & ?);
      [by eapply moves_reach|apply Hc|lia|].
    exists g2, rf2, cp2, k. split_and!; try done; [by etransitivity|congruence].
Qed.

(** ** The newest log of a group *)

(** What the election restriction compares: the last term, then the length. *)
Definition rank (l : list Entry) : Z * Z := (from_option Term 0 (last l), Z.of_nat (length l)).

Definition rank_le (a b : Z * Z) : Prop := a.1 < b.1 ∨ a.1 = b.1 ∧ a.2 <= b.2.

Lemma newest {A} (f : A → Z * Z) (q : list A) : q ≠ [] → ∃ s, s ∈ q ∧ ∀ p, p ∈ q → rank_le (f p) (f s).
Proof.
  induction q as [|x q IH]; [done|]. intros _. destruct q as [|y q].
  { exists x. split; [by left|]. intros p ->%list_elem_of_singleton. right. lia. }
  destruct IH as (s & Hs & Hmax); [done|].
  destruct (decide ((f x).1 < (f s).1 ∨ (f x).1 = (f s).1 ∧ (f x).2 <= (f s).2)) as [Hle|Hgt].
  - exists s. split; [by right|]. intros p [->|Hp]%elem_of_cons; [done|by apply Hmax].
  - exists x. split; [by left|]. intros p [->|Hp]%elem_of_cons; [right; lia|].
    specialize (Hmax p Hp). unfold rank_le in *. lia.
Qed.

Lemma newest_upto l l' a : l ≠ [] → describes l' a → rank_le (rank l) (rank l') → upto l a.
Proof.
  intros Hne (e' & He' & Ht & Hi) Hle. destruct (last l) as [e|] eqn:He; [|by apply last_None in He].
  exists e. split; [done|]. unfold rank_le, rank in Hle. rewrite He, He' in Hle. cbn in Hle. lia.
Qed.

(** ** The election *)

Definition logOf (g : Cluster) (p : Z) : list Entry := from_option (Entries ∘ log) [] (servers g !! p).

Definition termOf (g : Cluster) (p : Z) : Z := from_option currentTerm 0 (servers g !! p).

Lemma highest {A} (f : A → Z) (q : list A) : ∃ T, ∀ p, p ∈ q → f p <= T.
Proof.
  induction q as [|x q [T HT]]; [exists 0; by intros p ?%not_elem_of_nil|].
  exists (Z.max T (f x)). intros p [->|?%HT]%elem_of_cons; lia.
Qed.

Lemma quorum_nonempty n q : 0 <= n → quorum n q → q ≠ [].
Proof. intros Hn (_ & _ & Hm) ->. cbn in Hm. lia. Qed.

(** The rest of a list without duplicates. *)
Lemma pick_out (q : list Z) s : NoDup q → s ∈ q → ∃ r, q ≡ₚ s :: r ∧ NoDup r ∧ s ∉ r.
Proof.
  intros Hnd (r & Hr)%elem_of_Permutation. exists r. split; [done|]. rewrite Hr in Hnd.
  by apply NoDup_cons in Hnd as [??].
Qed.

(** The members of a majority can make one of them leader of a term above any
    [T0] and above all of theirs. *)
Lemma elect_majority n g q T0 :
  prompt_reach n g → 2 <= n → quorum n q →
  ∃ g' s rf, moves q g g' ∧ s ∈ q ∧ servers g' !! s = Some rf ∧ state rf = Leader ∧ T0 < currentTerm rf ∧
    Entries (log rf) = logOf g s ∧ ∀ p, p ∈ q → termOf g' p <= currentTerm rf.
Proof.
  intros Hr Hn Hq. pose proof Hq as (Hnd & Hin & Hm).
  destruct (newest (rank ∘ logOf g) q) as (s & Hs & Hmax); [by eapply quorum_nonempty; [|done]; lia|].
  destruct (highest (termOf g) q) as [T1 HT1]. destruct (pick_out q s Hnd Hs) as (r & Hqr & Hndr & Hsr).
  assert (∀ p, p ∈ q ↔ p = s ∨ p ∈ r) as Hel by (intros p; by rewrite Hqr, elem_of_cons).
  destruct (reach_ready n g s Hr (Hin s Hs)) as (rf0 & Hrf0 & _).
  destruct (raise_term n s (Z.max T0 T1) (Z.to_nat (Z.max T0 T1 - currentTerm rf0)) g rf0)
    as (g1 & rf1 & cp & k & Hmv1 & HT & Hlog1 & Hc & Hcalls); [done|by apply Hin|done|lia|].
  destruct (vote_rounds n s (currentTerm rf1) k r g1 1 rf1 cp) as (g2 & rf2 & Hmv2 & Hs2 & Hl2 & Ht2 & Hlog2 & Hterms);
    [by eapply moves_reach|by apply Hin|done|done| |lia|rewrite Hqr in Hm; cbn in Hm; lia|].
  { intros p Hp. assert (p ∈ q) as Hpq by (apply Hel; auto). assert (p ≠ s) as Hne by (by intros ->).
    destruct (reach_ready n g p Hr (Hin p Hpq)) as (rp & Hrp & Hrd).
    split_and!; [by apply Hin|by apply Hin|done|by apply Hcalls; [apply Hin|]|]. exists rp. destruct Hmv1 as (_ & _ & Hx).
    rewrite Hx by (by rewrite list_elem_of_singleton). split; [done|]. specialize (HT1 p Hpq). specialize (Hmax p Hpq).
    unfold termOf, logOf in HT1, Hmax. cbn in Hmax. unfold logOf in Hmax. rewrite Hrp in HT1, Hmax. rewrite Hrf0 in Hmax.
    cbn in HT1, Hmax. split; [lia|]. eapply newest_upto; [apply (po_log _ (pr_ok _ _ _ Hrd))|apply Hc|]. by rewrite Hlog1. }
  exists g2, s, rf2. rewrite Ht2. split_and!; try done; [|lia| |].
  - etransitivity; [eapply moves_mono; [|exact Hmv1]|eapply moves_mono; [|exact Hmv2]].
    + intros x ->%list_elem_of_singleton. done.
    + intros x. rewrite Hel, elem_of_cons. done.
  - unfold logOf. rewrite Hrf0, Hlog2, Hlog1. done.
  - intros p [->|Hp]%Hel; unfold termOf; [rewrite Hs2; cbn; lia|].
    destruct (reach_ready n g2 p) as (rp & Hrp & _);
      [eapply moves_reach; [|exact Hmv2]; by eapply moves_reach|apply Hin, Hel; auto|].
    rewrite Hrp. by apply (Hterms p).
Qed.

(** ** A peer alone *)

(** [becomeLeader] is tried when an answer arrives, so the only peer of a cluster
    of one, which has its own vote and asks nobody, stays a candidate. *)
Definition unanswered (g : Cluster) : Prop :=
  size g = 1 ∧ dom (servers g) ⊆ {[0]} ∧ voteCalls g = [] ∧ ∀ k cp, campaigns g !! k = Some cp → cpWon cp = false.

Lemma unanswered_put g g' s rf rf' :
  unanswered g → servers g !! s = Some rf → servers g' = <[s := rf']> (servers g) → size g' = size g →
  voteCalls g' = voteCalls g → campaigns g' = campaigns g → unanswered g'.
Proof.
  intros (H1 & H2 & H3 & H4) Hs Hsv Hsz Hv Hc. unfold unanswered. rewrite Hsz, Hv, Hc, Hsv.
  apply elem_of_dom_2 in Hs. split_and!; try done. set_solver.
Qed.

Lemma exec_unanswered l g g' : plain l → unanswered g → exec l g = Done g' → unanswered g'.
Proof.
  intros Hp Hu H. pose proof Hu as (Hsz & Hd & Hv & Hc). destruct l; cbn in H; try done.
  - unfold exec_tick in H. exec_inv. pose proof H0 as Hs%elem_of_dom_2. assert (s = 0) as -> by set_solver.
    assert (unanswered (spawn 0 l (put 0 r g))) as Hu' by (by eapply unanswered_put). destruct o as [el|]; [|done].
    destruct Hu' as (? & ? & Hv' & Hc'). destruct (ticker_frame _ _ _ _ _ _ H1) as (rf1 & _ & Hel).
    apply leaderElection_spec in Hel as (_ & _ & _ & _ & _ & _ & _ & _ & _ & _ & Hb). split_and!; try done.
    + cbn in *. rewrite Hv, Hsz. done.
    + intros k cp. cbn. intros [?|[_ Hk]]%lookup_app_Some; [by eapply Hc|].
      apply list_lookup_singleton_Some in Hk as [_ <-]. done.
  - unfold exec_start in H. exec_inv. by eapply unanswered_put.
  - unfold exec_vote_req in H. exec_inv. by rewrite Hv in H0.
  - unfold exec_vote_reply in H. exec_inv. by rewrite Hv in H0.
  - unfold exec_entry_req in H. exec_inv. by eapply unanswered_put.
  - unfold exec_entry_reply in H. exec_inv. by eapply unanswered_put.
  - unfold exec_apply in H. exec_inv. by eapply unanswered_put; destruct o.
  - unfold exec_restart in H. exec_inv. by eapply unanswered_put.
Qed.

Lemma alone_never_leads g s rf : reach plain 1 g → servers g !! s = Some rf → state rf ≠ Leader.
Proof.
  intros Hr Hs Hl. destruct (reach_log_inv _ _ Hr) as [G Hi].
  destruct (leader_won _ _ _ (lv_election _ _ Hi) Hs Hl) as (k & cp & Hk & Hw & _).
  assert (unanswered g) as (_ & _ & _ & Hc); [|by rewrite (Hc _ _ Hk) in Hw]. clear - laws Hr. revert g Hr.
  apply reach_invariant; [|intros; by eapply exec_unanswered].
  intros c g H. unfold initCluster in H. go_inv. change (seqZ 0 1) with [0] in H0. cbn in H0. go_inv.
  split_and!; done.
Qed.

End elect.
