(* ===== verification/RaftReplicate.v ===== *)
(** * A majority can commit

    Liveness of replication, for runs without snapshots and with [prompt] answers:
    the leader a majority elected (RaftElect.v) finds, for each other member, the
    point up to which the logs agree, and sends it the rest; it then commits and
    delivers the command it was given.  [probe] is the index a heartbeat asks
    about; a refusal lowers it ([entry_round]). *)

From stdpp Require Import base list numbers gmap strings.
From Stdlib Require Import Lia.
From S2P Require Import Prelude RaftLog Persister RaftCore RaftLocal RaftCluster.
From S2P Require Import RaftElection RaftTotal RaftMatching RaftHistory RaftVotes RaftSteps.
From S2P Require Import RaftDurable RaftChosen RaftCommit RaftCommitted RaftService RaftRuns RaftAgree.
From S2P Require Import RaftElect.

Section replicate.
Context `{laws : !RaftCodecLaws codec}.

(** ** Delivery keeps up with the commit index *)

(** Whoever moves the commit index wakes [LoopCommit]. *)
Definition roused (rf rf' : Raft) : Prop :=
  applyWaiting rf' = applyWaiting rf ∧ commitIndex rf' = commitIndex rf ∨ applyWaiting rf' = false.

Lemma setNewTerm_waiting t rf : applyWaiting (setNewTerm t rf) = applyWaiting rf.
Proof. unfold setNewTerm. by destruct (_ || _). Qed.

Lemma adopt_waiting t rf : applyWaiting (adopt t rf) = applyWaiting rf.
Proof. unfold adopt. destruct (_ <? _); [apply setNewTerm_waiting|done]. Qed.

Lemma appendEntries_waiting hb c rf rf' out :
  appendEntries hb c rf = Done (rf', out) → applyWaiting rf' = applyWaiting rf.
Proof. by intros [->| ->]%appendEntries_frame. Qed.

Lemma ticker_waiting c1 c2 rf rf' out oel :
  ticker c1 c2 rf = Done (rf', out, oel) → applyWaiting rf' = applyWaiting rf.
Proof.
  intros (rf1 & Hf & Hel)%ticker_frame. transitivity (applyWaiting rf1); [|by destruct Hf as [->| ->]].
  destruct oel as [el|]; [|by subst]. unfold leaderElection in Hel. by go_inv.
Qed.

Lemma Start_waiting c cmd rf rf' res out :
  Start c cmd rf = Done (rf', res, out) → applyWaiting rf' = applyWaiting rf.
Proof.
  unfold Start. intros H. go_inv; [done|].
  match goal with H : appendEntries _ _ _ = _ |- _ => by apply appendEntries_waiting in H end.
Qed.

Lemma RequestVote_waiting c args rf rf' reply :
  RequestVote c args rf = Done (rf', reply) → applyWaiting rf' = applyWaiting rf.
Proof.
  unfold RequestVote. fold (adopt (vaTerm args) rf). intros H. destruct (vaTerm args <? currentTerm rf); [by go_inv|].
  rewrite <- (adopt_waiting (vaTerm args) rf). by go_inv.
Qed.

Lemma candidateRequest_waiting c el reply rf rf' el' out :
  candidateRequest c el reply rf = Done (rf', el', out) → applyWaiting rf' = applyWaiting rf.
Proof.
  unfold candidateRequest. intros H. go_inv; try done; [apply setNewTerm_waiting|].
  match goal with H : winElection _ _ = _ |- _ => rename H into Hwin end. unfold winElection in Hwin. go_inv.
  match goal with H : resetPeers _ _ _ = _ |- _ => apply resetPeers_frame in H as (ni & mi & ->) end.
  match goal with H : appendEntries _ _ _ = _ |- _ => by apply appendEntries_waiting in H end.
Qed.

Lemma AppendEntries_rouses c args rf rf' reply : AppendEntries c args rf = Done (rf', reply) → roused rf rf'.
Proof.
  unfold AppendEntries. fold (adopt (aaTerm args) rf). intros H.
  destruct (aaTerm args <? currentTerm rf); [go_inv; by left|].
  assert (roused rf (adopt (aaTerm args) rf)) as Ha.
  { left. split; [apply adopt_waiting|apply adopt_still]. }
  set (rf1 := adopt _ _) in *. destruct (_ <? Index0 _); [by go_inv|].
  set (rf2 := if bool_decide _ then _ else rf1) in *.
  assert (roused rf rf2) as Hb by (subst rf2; by destruct (bool_decide _)). clearbody rf2.
  go_inv; try done; match goal with H : AppendLoop _ _ = Done ?r |- _ => apply AppendLoop_frame in H as (p & l & ->) end;
    [by right|done].
Qed.

Lemma leaderSendEntries_rouses peer args reply rf rf' :
  leaderSendEntries peer args reply rf = Done rf' → roused rf rf'.
Proof.
  intros [[-> Hlt]|[[-> _]|(_ & nis & mis & HC & _)]]%leaderSendEntries_split; [|by left|].
  - left. split; [apply setNewTerm_waiting|by apply setNewTerm_still].
  - unfold Commit in HC. go_inv; [by left|]. by apply CommitLoop_frame in HC as [->|(?&_&->)]; [left|right].
Qed.

(** No more is delivered than is committed, and [LoopCommit] waits only when all of
    it is delivered. *)
Definition paced (rf : Raft) : Prop :=
  lastApplied rf <= commitIndex rf ∧ (applyWaiting rf = true → commitIndex rf <= lastApplied rf).

Definition behind (g : Cluster) : Prop := ∀ s rf, servers g !! s = Some rf → paced rf.

Lemma behind_set g g' s rf' :
  behind g → servers g' = <[s := rf']> (servers g) → paced rf' → behind g'.
Proof. intros Hb Hsv Hp x r. rewrite Hsv. intros [[<- <-]|[_ Hx]]%lookup_insert_Some; [done|by apply (Hb x)]. Qed.

Lemma behind_put g g' s rf rf' :
  behind g → servers g !! s = Some rf → servers g' = <[s := rf']> (servers g) →
  kept rf' = kept rf → commitIndex rf <= commitIndex rf' → roused rf rf' → behind g'.
Proof.
  intros Hb Hs Hsv [= _ Hl] Hc Hro. eapply behind_set; [done..|]. destruct (Hb _ _ Hs) as [H1 H2]. split; [lia|].
  destruct Hro as [[-> ->]| ->]; [|done]. intros ?%H2. lia.
Qed.

Lemma Commit_up rf rf' : peer_ok rf → Commit rf = Done rf' → commitIndex rf <= commitIndex rf'.
Proof.
  intros Hok H. destruct (decide (state rf = Leader)) as [Hl|Hl].
  2:{ unfold Commit in H. rewrite bool_decide_false in H by done. cbn in H. by injection H as ->. }
  destruct (Commit_last rf Hok Hl) as (r & Hr & Hlast). assert (r = rf') as -> by congruence.
  destruct Hlast as [[-> _]|(pre & n & post & Hns & _ & _ & ->)]; [done|]. cbn.
  assert (n ∈ seqZ (commitIndex rf + 1) (lastIndex (log rf) - commitIndex rf)) as Hin%elem_of_seqZ; [|lia].
  rewrite Hns. apply elem_of_app. right. by left.
Qed.

Lemma leaderSendEntries_up peer args reply rf rf' :
  peer_ok rf → leaderSendEntries peer args reply rf = Done rf' → commitIndex rf <= commitIndex rf'.
Proof.
  intros Hok [[-> Hlt]|[[-> _]|(_ & nis & mis & HC & Hnis & Hmis)]]%leaderSendEntries_split; [|done|].
  - by rewrite (proj1 (setNewTerm_still _ _ Hlt)).
  - apply Commit_up in HC; [done|]. destruct Hok. split; cbn; try done; [lia|].
    destruct Hmis as [->|(_ & ? & _ & [_ ->]%zupdate_Done)]; by rewrite ?length_insert.
Qed.

Lemma entry_req_up G V g g' i c call rf rf' reply :
  hist_inv G V g → commits_rec G g → exec (LEntryReq i c) g = Done g' →
  entryCalls g !! i = Some call → servers g !! ecTo call = Some rf → servers g' !! ecTo call = Some rf' →
  AppendEntries c (ecArgs call) rf = Done (rf', reply) → commitIndex rf <= commitIndex rf'.
Proof.
  intros Hi Hc H Hcall Hs Hs' Ha.
  destruct (AppendEntries_commit _ _ _ _ _ Ha) as [_ [->|(Hlt & _ & e & He & ->)]]; [done|].
  destruct (lv_peers _ _ (hv_log _ _ _ Hi) _ _ Hs) as [Hok H0 _ _ _].
  destruct (lv_calls _ _ (hv_log _ _ _ Hi) _ _ Hcall) as (_ & _ & _ & _ & Hargs & _).
  pose proof (wp_post _ _ _ (AppendEntries_total c (ecArgs call) rf Hok H0 Hargs) Ha) as (Hok' & _ & Hres).
  assert (Index0 (log rf') = 0) as H0'.
  { destruct (Success reply); [destruct Hres as (_ & _ & _ & ->)|destruct Hres as [-> _]]; done. }
  apply LastLog_Done in He as [Hidx _]; [|apply Hok']. pose proof (log_ok_range _ (po_log _ Hok')) as Hrange.
  assert (commitIndex rf <= lastIndex (log rf')) as Hle; [|unfold min; destruct (Z.ltb_spec (Index e) (LeaderCommit (ecArgs call))); lia].
  destruct (cr_commit _ _ Hc _ _ Hs) as [?|(t & n & Hch & Ht & Hn & Hp)]; [lia|].
  pose proof Hch as [(e' & He' & _) _]. apply lookup_lt_Some in He'.
  destruct (exec_keeps (LEntryReq i c) G V g g' (ecTo call) rf t n (take (S (Z.to_nat (commitIndex rf))) (G t)))
    as (r & Hr & _ & Hpre%prefix_length); try done; [rewrite length_take; lia|apply take_prefix|].
  assert (r = rf') as -> by congruence. rewrite length_take in Hpre. unfold lastIndex, Len. lia.
Qed.

Lemma LoopCommit_paced rf rf' msg :
  peer_ok rf → commitIndex rf <= lastIndex (log rf) → LoopCommit rf = Done (rf', msg) → paced rf → paced rf'.
Proof.
  intros Hok Hle H [Hp _]. destruct (LoopCommit_awake _ _ H) as [Hk Hw].
  pose proof (wp_post _ _ _ (LoopCommit_total rf Hok Hk Hw) H) as (_ & _ & Hm).
  pose proof (proj1 (LoopCommit_still _ _ _ H)) as Hc. destruct msg as [m|].
  - destruct Hm as (? & Hla & _). split; [lia|]. unfold LoopCommit in H. rewrite Hk, Hw in H. go_inv; cbn in *; congruence.
  - destruct Hm as [-> Hno]. split; cbn; [done|]. intros _. lia.
Qed.

Lemma commit_in_log G g s rf :
  log_inv G g → commits_rec G g → servers g !! s = Some rf → commitIndex rf <= lastIndex (log rf).
Proof.
  intros Hi Hc Hs. pose proof (cr_commit _ _ Hc _ _ Hs) as Hb%committed_bound.
  destruct (lv_peers _ _ Hi _ _ Hs) as [Hok H0 _ _ _]. pose proof (log_ok_len _ (po_log _ Hok)). unfold lastIndex, Len. lia.
Qed.

Lemma exec_behind l G V g g' :
  hist_inv G V g → commits_rec G g → plain l → exec l g = Done g' → behind g → behind g'.
Proof.
  intros Hi Hc Hp H Hb.
  assert (∀ s rf, servers g !! s = Some rf → peer_ok rf) as Hok by (intros s rf Hs; apply (lv_peers _ _ (hv_log _ _ _ Hi) _ _ Hs)).
  assert (∀ (rf rf' : Raft), applyWaiting rf' = applyWaiting rf → commitIndex rf' = commitIndex rf → roused rf rf') as Hsame by (by left).
  destruct l; try done; pose proof H as Hx; cbn in H.
  - unfold exec_tick in H. exec_inv. pose proof (proj1 (ticker_still _ _ _ _ _ _ H1)) as E.
    eapply (behind_put g _ s x r); [done|done|by destruct o|by eapply ticker_applied|lia|].
    apply Hsame; [by eapply ticker_waiting|done].
  - unfold exec_start in H. exec_inv. pose proof (proj1 (Start_still _ _ _ _ _ _ H1)) as E.
    eapply (behind_put g _ s x r); [done|done|done|by eapply Start_applied|lia|]. apply Hsame; [by eapply Start_waiting|done].
  - unfold exec_vote_req in H. exec_inv. pose proof (proj1 (RequestVote_still _ _ _ _ _ H3)) as E.
    eapply (behind_put g _ (vcTo x) x1 r); [done|done|done|by eapply RequestVote_applied|lia|].
    apply Hsame; [by eapply RequestVote_waiting|done].
  - unfold exec_vote_reply in H. exec_inv. pose proof (proj1 (candidateRequest_still _ _ _ _ _ _ _ (Hok _ _ H2) H4)) as E.
    eapply (behind_put g _ (cpOwner x0) x1 r0); [done|done|done|by eapply candidateRequest_applied|lia|].
    apply Hsame; [by eapply candidateRequest_waiting|done].
  - unfold exec_entry_req in H. exec_inv.
    eapply (behind_put g _ (ecTo x) x0 r); [done|done|done|by eapply AppendEntries_applied| |by eapply AppendEntries_rouses].
    eapply (entry_req_up G V g _ i c x x0 r a); try done. cbn. apply lookup_insert_eq.
  - unfold exec_entry_reply in H. exec_inv.
    eapply (behind_put g _ (ecFrom x) x0 x2); [done|done|done|by eapply leaderSendEntries_applied| |by eapply leaderSendEntries_rouses].
    eapply leaderSendEntries_up; [by eapply Hok|done].
  - unfold exec_apply in H. exec_inv. eapply (behind_set g _ s r); [done|by destruct o|].
    eapply LoopCommit_paced; [by eapply Hok|by eapply (commit_in_log G g s); [apply Hi|..]|done|by apply (Hb s)].
  - unfold exec_restart in H. exec_inv. eapply (behind_set g _ s x0); [done|done|].
    unfold Make, readPersist in H1. go_inv; by split.
Qed.

(** Rule induction over prompt runs, with the invariants of RaftAgree.v at hand. *)
Lemma prompt_invariant n (I : Cluster → Prop) :
  (∀ c g, initCluster n c = Done g → I g) →
  (∀ l G V g g', agree_inv G V g → plain l → exec l g = Done g' → I g → I g') →
  ∀ g, prompt_reach n g → I g.
Proof.
  intros Hinit Hstep g (c & g0 & ls & H0 & H). pose proof (agree_inv_init _ _ _ H0) as Hi. apply Hinit in H0.
  remember initHistory as G. remember (∅ : records) as V. clear HeqG HeqV. revert G V g0 Hi H0 H.
  induction ls as [|l ls IH]; intros G V g0 Hi H0 H; cbn in H; go_inv; [done|].
  destruct (exec_agree_inv _ _ _ _ _ Hi H1) as (G1 & V1 & _ & Hi1). apply exec_prompt_Done in H1 as [Hp H1].
  eapply (IH G1 V1 x); [done| |done]. apply (Hstep l G V g0 x); [done|by eapply prompt_plain|done|done].
Qed.

Lemma reach_behind n g : prompt_reach n g → behind g.
Proof.
  revert g. apply prompt_invariant; [|intros l G V g g' [??] ???; by eapply exec_behind].
  intros c g H. unfold initCluster in H. go_inv. intros s rf. cbn. revert x H0. generalize (seqZ 0 n) as ids.
  induction ids as [|i ids IH]; intros m Hm; cbn in Hm; go_inv; [done|].
  intros [[_ <-]|[_ ?]]%lookup_insert_Some; [|by eapply IH]. unfold Make, readPersist in H; go_inv; by split.
Qed.

(** ** All logs start alike *)

Definition rooted (g : Cluster) : Prop :=
  ∀ s rf, servers g !! s = Some rf → Entries (log rf) !! 0%nat = Some (mkEntry (IInt (-1)) 0 0).

Lemma merge_root own k es : (0 < k <= length own)%nat → merge own k es !! 0%nat = own !! 0%nat.
Proof.
  intros Hk. destruct (merge_cases own k es) as [[-> _]|(j & Hj & Hl & -> & _)]; [lia|done|].
  rewrite lookup_app_l; [apply lookup_take_lt; lia|rewrite length_take; lia].
Qed.

Lemma reach_rooted n g : prompt_reach n g → rooted g.
Proof.
  revert g. apply prompt_invariant.
  - intros c g H. unfold initCluster in H. go_inv. intros s rf Hs. cbn in Hs.
    apply (makeServers_fresh n c (seqZ 0 n)) with (s := s) (rf := rf) in H0 as (_ & -> & _); [done| |done].
    intros i Hi%elem_of_seqZ. lia.
  - intros l G V g g' [Hi _] Hp H Hroot s rf. pose proof (hv_log _ _ _ Hi) as Hlv.
    destruct (exec_one_peer l g g' Hp (lv_election _ _ Hlv) H) as (s0 & r & r' & Hs0 & -> & _ & Hlog).
    intros [[<- <-]|[_ Hs]]%lookup_insert_Some; [|by apply (Hroot s)]. pose proof (Hroot _ _ Hs0) as H0.
    destruct Hlog as [Hl|(i & call & c & reply & Hcall & _ & Ha)]; [by eapply prefix_lookup_Some|].
    destruct (lv_peers _ _ Hlv _ _ Hs0) as [Hok Hi0 _ _ _]. destruct (lv_calls _ _ Hlv _ _ Hcall) as (_ & _ & _ & Hpos & Hargs & _).
    pose proof (wp_post _ _ _ (AppendEntries_total c (ecArgs call) r Hok Hi0 Hargs) Ha) as (_ & _ & Hres).
    destruct (Success reply); [|by destruct Hres as [-> _]]. destruct Hres as (_ & _ & (_ & e & He & _) & ->). cbn.
    apply lookup_lt_Some in He. rewrite Hi0 in *. rewrite merge_root; [done|lia].
Qed.

(** ** What a heartbeat asks *)

Definition nextOf (rf : Raft) (p : Z) : Z :=
  match zlookup (nextIndex rf) p with Done x => x | _ => 0 end.

(** [PrevLogIndex] of the next heartbeat to [p]. *)
Definition probe (rf : Raft) (p : Z) : Z :=
  let next := if nextOf rf p <=? 0 then 1 else nextOf rf p in
  (if lastIndex (log rf) + 1 <? next then lastIndex (log rf) else next) - 1.

Lemma probe_range rf p : 1 <= lastIndex (log rf) → 0 <= probe rf p <= lastIndex (log rf).
Proof.
  intros H. unfold probe. destruct (Z.leb_spec (nextOf rf p) 0).
  - destruct (Z.ltb_spec (lastIndex (log rf) + 1) 1); lia.
  - destruct (Z.ltb_spec (lastIndex (log rf) + 1) (nextOf rf p)); lia.
Qed.

Lemma probe_below rf p k : 0 < k <= lastIndex (log rf) → nextOf rf p <= k → probe rf p < k.
Proof.
  intros Hk Hn. unfold probe. destruct (Z.leb_spec (nextOf rf p) 0).
  - destruct (Z.ltb_spec (lastIndex (log rf) + 1) 1); lia.
  - destruct (Z.ltb_spec (lastIndex (log rf) + 1) (nextOf rf p)); lia.
Qed.

Lemma appendEntriesTo_sends lastLog rf p :
  peer_ok rf → Index0 (log rf) = 0 → 1 <= lastIndex (log rf) → Index lastLog = lastIndex (log rf) →
  0 <= p < npeers rf → p ≠ me rf →
  ∃ a, appendEntriesTo true lastLog rf p = Done [GoLeaderSendEntries p a] ∧
    PrevLogIndex a = probe rf p ∧ spawn_ok rf (GoLeaderSendEntries p a).
Proof.
  intros Hok H0 H1 Hlast Hp Hne. pose proof (appendEntriesTo_total true lastLog rf p Hok Hlast Hp Hne) as Ht.
  pose proof (probe_range rf p H1) as Hr. pose proof (po_log _ Hok) as Hlog.
  assert (∃ a, appendEntriesTo true lastLog rf p = Done [GoLeaderSendEntries p a] ∧ PrevLogIndex a = probe rf p)
    as (a & Ha & Hprev).
  2:{ exists a. split; [done|]. split; [done|]. rewrite Ha in Ht. by apply (Forall_singleton (spawn_ok rf)). }
  clear Ht. unfold appendEntriesTo, probe, nextOf in *. destruct (zlookup_total (nextIndex rf) p) as [next Hnext].
  { by rewrite (po_next _ Hok). }
  rewrite Hnext in *. cbn [mbind outcome_bind]. rewrite orb_true_r, Hlast, H0.
  set (n2 := if _ <? (if _ : bool then _ else _) then _ else _) in *.
  destruct (Z.ltb_spec 0 n2); [|lia]. destruct (at_total (log rf) (n2 - 1) Hlog) as (e & He & Hi); [lia|].
  rewrite He. cbn [mbind outcome_bind]. destruct (Z.ltb_spec (lastIndex (log rf) - n2 + 1) 0); [lia|].
  rewrite (Tail_Done _ _ Hlog) by lia. cbn. eexists. split; [done|]. exact Hi.
Qed.

Lemma appendEntriesLoop_sends hb c lastLog ids rf rf' out p o sp :
  appendEntriesLoop hb c lastLog ids rf = Done (rf', out) → p ∈ ids → p ≠ me rf →
  appendEntriesTo hb lastLog rf p = Done o → sp ∈ o → sp ∈ out.
Proof.
  revert rf out. induction ids as [|x ids IH]; intros rf out H Hp Hne Ho Hsp; [by apply not_elem_of_nil in Hp|].
  cbn in H. apply elem_of_cons in Hp. destruct (Z.eqb_spec x (me rf)) as [->|Hx].
  - destruct Hp as [->|Hp]; [done|]. by apply (IH _ _ H).
  - go_inv. apply elem_of_app. destruct Hp as [->|Hp]; [left; congruence|right]. by eapply IH.
Qed.

(** A clock before the next election. *)
Definition early_clock (rf : Raft) : Clock := at_time (Z.min (electionTime rf) 150).

Lemma heartbeat_sends rf p :
  peer_ok rf → Index0 (log rf) = 0 → 1 <= lastIndex (log rf) → killed rf = false → state rf = Leader →
  0 <= p < npeers rf → p ≠ me rf →
  ∃ rf' out a, ticker (at_time 0) (early_clock rf) rf = Done (rf', out, None) ∧
    (rf' = rf ∨ rf' = resetElectionTimer (at_time 0) rf) ∧ GoLeaderSendEntries p a ∈ out ∧
    PrevLogIndex a = probe rf p ∧ spawn_ok rf (GoLeaderSendEntries p a).
Proof.
  intros Hok H0 H1 Hk Hl Hp Hne. unfold ticker. rewrite Hk, bool_decide_eq_true_2 by done.
  destruct (LastLog_total (log rf) (po_log _ Hok)) as (e & He & Hi & _).
  destruct (appendEntriesTo_sends e rf p) as (a & Ha & Hprev & Hsp); [done..|].
  pose proof (appendEntries_total true (at_time 0) rf Hok) as Ht.
  destruct (appendEntries true (at_time 0) rf) as [[rf' out]| |] eqn:E; try done. destruct Ht as [Hrf' _].
  exists rf', out, a. cbn [mbind outcome_bind]. split; [|split; [done|split; [|by split]]].
  - change (now (early_clock rf)) with (Z.min (electionTime rf) 150).
    replace (electionTime rf' <? Z.min (electionTime rf) 150) with false; [done|].
    symmetry. apply Z.ltb_ge. destruct Hrf' as [->| ->]; cbn; lia.
  - unfold appendEntries in E. rewrite He in E. cbn in E.
    eapply (appendEntriesLoop_sends _ _ _ _ _ _ _ p); [exact E|by apply elem_of_seqZ; lia|done|exact Ha|by left].
Qed.

(** ** What the leader does with the answer *)

(** Everything that can be committed is. *)
Definition settled (rf : Raft) : Prop := ∀ N, committable rf N → N <= commitIndex rf.

Lemma seqZ_before a m pre n post N : seqZ a m = pre ++ n :: post → N ∈ pre → N < n.
Proof.
  intros E [i Hi]%list_elem_of_lookup. pose proof (lookup_lt_Some _ _ _ Hi) as Hlt.
  assert (seqZ a m !! i = Some N) as [? _]%lookup_seqZ by (rewrite E; by apply lookup_app_l_Some).
  assert (seqZ a m !! length pre = Some n) as [? _]%lookup_seqZ by (rewrite E; by apply list_lookup_middle). lia.
Qed.

Lemma Commit_settles rf rf' :
  peer_ok rf → state rf = Leader → Commit rf = Done rf' →
  settled rf' ∧ (rf' = rf ∨ ∃ c, rf' = SendMsg (set_commitIndex c rf)).
Proof.
  intros Hok Hl H. pose proof (Commit_up _ _ Hok H) as Hup.
  destruct (Commit_last rf Hok Hl) as (r & Hr & Hlast). assert (r = rf') as -> by congruence.
  assert (∀ N, committable rf N → commitIndex rf < N → N ∈ seqZ (commitIndex rf + 1) (lastIndex (log rf) - commitIndex rf)) as Hin.
  { intros N [(e & He%at_range & _) _] Hlt. apply elem_of_seqZ. lia. }
  destruct Hlast as [[-> Hno]|(pre & n & post & Hns & Hn & Hpost & ->)].
  - split; [|by left]. intros N HN. destruct (Z.le_gt_cases N (commitIndex rf)); [done|].
    exfalso. eapply Hno; [|exact HN]. apply Hin; [done|lia].
  - split; [|by right; eauto]. intros N HN%committable_commitIndex. cbn in *.
    destruct (Z.le_gt_cases N (commitIndex rf)) as [|Hgt]; [lia|]. specialize (Hin N HN ltac:(lia)). rewrite Hns in Hin.
    apply elem_of_app in Hin as [Hpre|[->|Hp]%elem_of_cons]; [|lia|by apply Hpost in HN].
    pose proof (seqZ_before _ _ _ _ _ _ Hns Hpre). lia.
Qed.

(** The fields the replies do not touch. *)
Definition same_leader (rf rf' : Raft) : Prop :=
  state rf' = Leader ∧ currentTerm rf' = currentTerm rf ∧ log rf' = log rf ∧ me rf' = me rf ∧ npeers rf' = npeers rf ∧
  lastApplied rf' = lastApplied rf ∧ commitIndex rf <= commitIndex rf'.

Lemma nextOf_updated rf p x nis : zupdate (nextIndex rf) p x = Done nis → nextOf (set_nextIndex nis rf) p = x.
Proof.
  intros [? ->]%zupdate_Done. unfold nextOf. cbn.
  assert (zlookup (<[Z.to_nat p := x]> (nextIndex rf)) p = Done x) as ->; [|done].
  apply zlookup_Done. split; [lia|]. apply list_lookup_insert_eq. lia.
Qed.

Lemma stores_max rf mis p m v :
  zlookup (matchIndex rf) p = Done m → zupdate (matchIndex rf) p (max m v) = Done mis →
  (p ≠ me rf → ∀ N, N <= v → stores (set_matchIndex mis rf) N p) ∧
  ∀ N i, stores rf N i → stores (set_matchIndex mis rf) N i.
Proof.
  intros [_ Hm]%zlookup_Done [Hr ->]%zupdate_Done.
  assert (zlookup (<[Z.to_nat p := max m v]> (matchIndex rf)) p = Done (max m v)) as Hnew.
  { apply zlookup_Done. split; [lia|]. apply list_lookup_insert_eq. lia. }
  assert (m <= max m v ∧ v <= max m v) as [Hml Hvl] by (unfold max; destruct (Z.ltb_spec v m); lia). split.
  - intros Hne N HN. split; [done|]. exists (max m v). split; [exact Hnew|lia].
  - intros N i (Hi & m' & [Hi0 Hm']%zlookup_Done & HN). split; [done|]. cbn. destruct (decide (i = p)) as [->|].
    + exists (max m v). split; [exact Hnew|]. assert (m' = m) as -> by congruence. lia.
    + exists m'. split; [|done]. apply zlookup_Done. split; [done|]. rewrite list_lookup_insert_ne; [done|lia].
Qed.

(** The bookkeeping of [leaderSendEntries] before it calls [Commit]. *)
Definition recorded (peer : Z) (args : AppendEntriesArgs) (reply : AppendEntriesReply) (rf rf1 : Raft) : Prop :=
  if Success reply then peer ≠ me rf → ∀ N, N <= PrevLogIndex args + Z.of_nat (length (aaEntries args)) → stores rf1 N peer
  else Conflict reply = true →
    (XTerm reply = -1 → nextOf rf1 peer = XLen reply) ∧
    (XTerm reply ≠ -1 → ∃ r, findLastLogInTerm (XTerm reply) rf = Done r ∧
       nextOf rf1 peer = if 0 <? r then r else XIndex reply).

Lemma leader_records peer args reply rf rf' :
  peer_ok rf → state rf = Leader → arTerm reply <= currentTerm rf →
  leaderSendEntries peer args reply rf = Done rf' →
  ∃ nis mis, let rf1 := set_matchIndex mis (set_nextIndex nis rf) in
    peer_ok rf1 ∧ Commit rf1 = Done rf' ∧ recorded peer args reply rf rf1 ∧
    ∀ N i, stores rf N i → stores rf1 N i.
Proof.
  intros Hok Hl Ht H. unfold leaderSendEntries in H. destruct (Z.ltb_spec (currentTerm rf) (arTerm reply)); [lia|].
  rewrite bool_decide_eq_true_2 in H by done. apply bind_Done in H as (rf1 & H1 & HC).
  assert (∀ nis mis, length nis = length (nextIndex rf) → length mis = length (matchIndex rf) →
    peer_ok (set_matchIndex mis (set_nextIndex nis rf))) as Hset.
  { intros nis mis ? ?. destruct Hok. split; cbn; try done; lia. }
  assert (∀ nis p x, zupdate (nextIndex rf) p x = Done nis → length nis = length (nextIndex rf)) as Hlen.
  { intros nis p x [_ ->]%zupdate_Done. apply length_insert. }
  unfold recorded. destruct (Success reply).
  { exists (nextIndex rf1), (matchIndex rf1). go_inv. cbn zeta. set (rf1 := set_nextIndex x0 rf).
    destruct (stores_max rf1 x2 peer x1 (PrevLogIndex args + Z.of_nat (length (aaEntries args)))) as [Hn Hold]; [done..|].
    split_and!; [apply (Hset x0 x2); [by eapply Hlen|]|done|done|done]. by apply zupdate_Done in H4 as [_ ->]; apply length_insert. }
  assert (∀ nis, rf1 = set_nextIndex nis rf → set_matchIndex (matchIndex rf) (set_nextIndex nis rf) = rf1) as Hsame
    by (by intros nis ->).
  destruct (Conflict reply).
  2:{ exists (nextIndex rf1), (matchIndex rf). go_inv. rewrite (Hsame (nextIndex rf1)) by (by destruct rf1).
      split_and!; [done|done|done|done]. }
  destruct (Z.eqb_spec (XTerm reply) (-1)) as [Hx|Hx]; go_inv.
  - exists x, (matchIndex rf). rewrite (Hsame x) by done. cbn zeta. split_and!; [by apply (Hset x (matchIndex rf)); [eapply Hlen|]|done| |done].
    intros _. split; [|done]. intros _. by apply nextOf_updated.
  - exists x0, (matchIndex rf). rewrite (Hsame x0) by done. cbn zeta. split_and!; [by apply (Hset x0 (matchIndex rf)); [eapply Hlen|]|done| |done].
    intros _. split; [done|]. intros _. exists x. split; [done|]. by apply nextOf_updated.
Qed.

Lemma leader_reply peer args reply rf :
  peer_ok rf → Index0 (log rf) = 0 → 0 <= peer < npeers rf → state rf = Leader → arTerm reply <= currentTerm rf →
  ∃ rf', leaderSendEntries peer args reply rf = Done rf' ∧ same_leader rf rf' ∧ settled rf' ∧
    recorded peer args reply rf rf' ∧ ∀ N i, stores rf N i → stores rf' N i.
Proof.
  intros Hok H0 Hp Hl Ht. pose proof (leaderSendEntries_total peer args reply rf Hok H0 Hp) as Hw.
  destruct (leaderSendEntries peer args reply rf) as [rf'| |] eqn:E; try done. clear Hw. exists rf'. split; [done|].
  apply leader_records in E as (nis & mis & Hok1 & HC & Hrec & Hst); [|done..]. set (rf1 := set_matchIndex _ _) in *.
  pose proof (Commit_up rf1 rf' Hok1 HC) as Hup.
  destruct (Commit_settles rf1 rf' Hok1 Hl HC) as [Hset [->|[c ->]]]; (split; [by split_and!|done]).
Qed.

(** ** What a refusal tells *)

Lemma findLastLogFrom_found l x (n : nat) r :
  Index0 l = 0 → findLastLogFrom l x n = Done r →
  r = -1 ∨ 0 < r ∧ ∃ e, Entries l !! Z.to_nat r = Some e ∧ Term e = x.
Proof.
  intros H0. induction n as [|n IH]; cbn -[Z.of_nat]; intros H; go_inv; zbool; auto.
  right. apply at_Done in H1 as [_ He]. rewrite H0, Z.sub_0_r in He. split; [lia|]. by exists x0.
Qed.

(** A receiver that is not ahead takes the term over, and a refusal is a conflict. *)
Lemma AppendEntries_answers c args rf rf' reply :
  peer_ok rf → Index0 (log rf) = 0 → 0 <= PrevLogIndex args → currentTerm rf <= aaTerm args →
  AppendEntries c args rf = Done (rf', reply) →
  currentTerm rf' = aaTerm args ∧ (Success reply = false → Conflict reply = true).
Proof.
  intros Hok H0 Hprev Ht H. unfold AppendEntries in H. fold (adopt (aaTerm args) rf) in H.
  destruct (Z.ltb_spec (aaTerm args) (currentTerm rf)); [lia|]. pose proof (adopt_term _ _ Ht) as Ha.
  pose proof (adopt_log (aaTerm args) rf) as Hl. set (rf1 := adopt _ _) in *.
  destruct (Z.ltb_spec (PrevLogIndex args) (Index0 (log rf1))); [rewrite Hl in *; lia|].
  set (rf2 := if bool_decide _ then _ else rf1) in *.
  assert (currentTerm rf2 = aaTerm args) as Ht2 by (subst rf2; by destruct (bool_decide _)). clearbody rf2.
  go_inv; try (by split); match goal with H : AppendLoop _ _ = Done ?r |- _ => apply AppendLoop_frame in H as (q & l & ->) end; by split.
Qed.

Lemma history_nonneg G g es e : log_inv G g → coherent G es → e ∈ es → 0 <= Term e.
Proof.
  intros Hi Hc [i Hi0]%list_elem_of_lookup. pose proof (Hc _ _ Hi0) as E.
  destruct (lv_known _ _ Hi (Term e)) as [->|(s & k & cp & Hk & _ & <- & _)]; [|done|].
  - intros E0. rewrite E0, take_nil in E. apply lookup_lt_Some in Hi0. apply (f_equal length) in E.
    rewrite length_take in E. cbn [length] in E. lia.
  - apply (lv_pos _ _ Hi) in Hk. lia.
Qed.

(** The leader asks about an earlier index next. *)
Lemma conflict_lowers G g c args (rf rf' rp rp' : Raft) reply p :
  log_inv G g → peer_log G rf → peer_log G rp → Entries (log rf) !! 0%nat = Entries (log rp) !! 0%nat →
  (∃ e, Entries (log rf) !! Z.to_nat (PrevLogIndex args) = Some e ∧ Term e = PrevLogTerm args) →
  0 <= PrevLogIndex args → AppendEntries c args rp = Done (rp', reply) →
  Success reply = false → Conflict reply = true → recorded p args reply rf rf' → log rf' = log rf →
  probe rf' p < PrevLogIndex args.
Proof.
  intros Hi Hrf Hrp Hroot (e & He & Hte) Hpos Ha Hs Hc Hrec Hlog.
  pose proof (pl_index0 _ _ Hrf) as H0. pose proof (pl_index0 _ _ Hrp) as H0p.
  destruct (AppendEntries_hint _ _ _ _ _ (pl_ok _ _ Hrp) H0p Ha Hc) as [Hlen Hcase].
  unfold recorded in Hrec. rewrite Hs in Hrec. destruct (Hrec Hc) as [Hshort Hterm].
  assert (PrevLogIndex args <= lastIndex (log rf)) as Hle.
  { apply lookup_lt_Some in He. unfold lastIndex, Len. lia. }
  assert (∀ k, nextOf rf' p <= k → 0 < k <= PrevLogIndex args → probe rf' p < PrevLogIndex args) as Hprobe.
  { intros k Hk Hr. enough (probe rf' p < k) by lia. apply probe_below; [rewrite Hlog; lia|done]. }
  destruct Hcase as [[Hx Hlt]|(ep & [_ Hep]%at_Done & Hne & Hx & Hxi & _)].
  { pose proof (log_ok_range _ (po_log _ (pl_ok _ _ Hrp))). apply (Hprobe (lastIndex (log rp) + 1)); [|lia].
    rewrite Hshort by done. lia. }
  rewrite H0p, Z.sub_0_r in Hep.
  assert (0 < PrevLogIndex args) as Hpos'.
  { destruct (decide (PrevLogIndex args = 0)) as [E|]; [|lia]. rewrite E in He, Hep. change (Z.to_nat 0) with 0%nat in He, Hep. congruence. }
  pose proof (history_nonneg _ _ _ ep Hi (pl_coherent _ _ Hrp) ltac:(by eapply list_elem_of_lookup_2)) as Hnn.
  destruct Hterm as (r & Hr & Hnext); [lia|]. unfold findLastLogInTerm in Hr. go_inv.
  apply findLastLogFrom_found in Hr as [->|(Hr & er & Her & Hter)]; [by apply (Hprobe (PrevLogIndex args)); cbn in *; lia| |done].
  apply (Hprobe (PrevLogIndex args)); [|lia]. rewrite Hnext. destruct (Z.ltb_spec 0 r); [|lia].
  destruct (Z.le_gt_cases r (PrevLogIndex args)) as [|Hgt]; [lia|exfalso]. apply Hne.
  pose proof (pl_coherent _ _ Hrf _ _ Her) as E1. pose proof (pl_coherent _ _ Hrp _ _ Hep) as E2.
  rewrite Hter, Hx in E1. apply (f_equal (lookup (Z.to_nat (PrevLogIndex args)))) in E1, E2.
  rewrite !lookup_take_lt in E1, E2 by lia. congruence.
Qed.

(** ** What an acceptance brings *)

Lemma AppendEntries_learns c args rf rf' reply :
  AppendEntries c args rf = Done (rf', reply) → Success reply = true → log_ok (log rf') →
  Z.min (LeaderCommit args) (lastIndex (log rf')) <= commitIndex rf'.
Proof.
  unfold AppendEntries. fold (adopt (aaTerm args) rf). intros H Hs Hok.
  destruct (aaTerm args <? currentTerm rf); [by go_inv|]. set (rf1 := adopt _ _) in *.
  destruct (_ <? Index0 _); [by go_inv|]. set (rf2 := if bool_decide _ then _ else rf1) in *. clearbody rf2.
  go_inv; try done; cbn in *; zbool; [|lia].
  match goal with H : LastLog _ = Done ?x |- _ => apply LastLog_Done in H as [Hi _]; [|done]; rewrite <- Hi end.
  unfold min. destruct (Z.ltb_spec (Index x2) (LeaderCommit args)); lia.
Qed.

(** The receiver has the log of the leader, and learns what it has committed. *)
Lemma append_brings G V g i c call rf rp rp' reply M e :
  hist_inv G V g → entryCalls g !! i = Some call → servers g !! ecFrom call = Some rf → servers g !! ecTo call = Some rp →
  state rf = Leader → currentTerm rf = aaTerm (ecArgs call) →
  AppendEntries c (ecArgs call) rp = Done (rp', reply) → Success reply = true →
  M <= PrevLogIndex (ecArgs call) + Z.of_nat (length (aaEntries (ecArgs call))) → at_ (log rf) M = Done e →
  at_ (log rp') M = Done e ∧ Z.min (LeaderCommit (ecArgs call)) M <= commitIndex rp'.
Proof.
  intros Hi Hcall Hs Hp Hl Ht Ha Hsucc HM [HM0 He]%at_Done. pose proof (hv_log _ _ _ Hi) as Hlv.
  pose proof (lv_peers _ _ Hlv _ _ Hs) as Hpl. pose proof (lv_peers _ _ Hlv _ _ Hp) as Hplp.
  pose proof (lv_calls _ _ Hlv _ _ Hcall) as Hok. pose proof Hok as (_ & _ & _ & Hpos & Hargs & _).
  pose proof (pl_index0 _ _ Hpl) as H0. pose proof (pl_index0 _ _ Hplp) as H0p.
  pose proof (wp_post _ _ _ (AppendEntries_total c (ecArgs call) rp (pl_ok _ _ Hplp) H0p Hargs) Ha) as (Hok' & _ & Hres).
  rewrite Hsucc in Hres. destruct Hres as (Hle & Hta & Hm & Hlog).
  destruct (append_effect G V g g call rp rp') as (_ & Hhas & _); try done; [by intros ? ?| |].
  { intros x. by apply (hv_terms _ _ _ Hi (ecTo call)). }
  rewrite <- Ht, <- (pl_leader _ _ Hpl Hl) in Hhas. rewrite H0, Z.sub_0_r in He. rewrite H0 in HM0.
  assert (Entries (log rp') !! Z.to_nat M = Some e) as He'.
  { eapply prefix_lookup_Some; [|exact Hhas]. apply lookup_take_Some. split; [done|lia]. }
  assert (Index0 (log rp') = 0) as H0' by (by rewrite Hlog). split.
  - apply at_Done. rewrite H0', Z.sub_0_r. done.
  - pose proof (AppendEntries_learns _ _ _ _ _ Ha Hsucc (po_log _ Hok')). apply lookup_lt_Some in He'.
    unfold lastIndex, Len in *. lia.
Qed.

(** ** One exchange *)

(** Peer [s] leads in term [T], its log ends with [e] at index [N], and it has
    committed up to [C]. *)
Record leading (g : Cluster) (s T N : Z) (e : Entry) (C : Z) (rf : Raft) : Prop := {
  ld_peer : servers g !! s = Some rf;
  ld_state : state rf = Leader;
  ld_term : currentTerm rf = T;
  ld_last : lastIndex (log rf) = N;
  ld_pos : 1 <= N;
  ld_entry : at_ (log rf) N = Done e;
  ld_commit : C <= commitIndex rf;
}.

Lemma leading_same g g' s T N e C rf rf' :
  leading g s T N e C rf → servers g' !! s = Some rf' → same_leader rf rf' → leading g' s T N e C rf'.
Proof.
  intros [] Hs (? & ? & Hlog & _ & _ & _ & ?). split; rewrite ?Hlog; try done; [congruence|lia].
Qed.

Lemma heartbeat_step n g s T N e C rf p :
  prompt_reach n g → leading g s T N e C rf → 0 <= s < n → 0 <= p < n → p ≠ s →
  ∃ g' rf' i a, moves [s] g g' ∧ servers g' = <[s := rf']> (servers g) ∧
    (rf' = rf ∨ rf' = resetElectionTimer (at_time 0) rf) ∧
    entryCalls g' !! i = Some (mkEntryCall s (incarnation g' s) p a Sent) ∧
    PrevLogIndex a = probe rf p ∧ spawn_ok rf' (GoLeaderSendEntries p a).
Proof.
  intros Hr [Hs Hl Ht Hlast Hpos _ _] Hsn Hp Hne.
  destruct (reach_ready n g s Hr Hsn) as (rf0 & Hs0 & [Hok H0 Hme Hnp Hk]). assert (rf0 = rf) as -> by congruence.
  destruct (heartbeat_sends rf p) as (rf' & out & a & Htick & Hrf' & Hin & Hprev & Hsp); [done..|lia|done|done|lia|congruence|].
  set (g' := spawn s out (put s rf' g)).
  assert (exec_prompt (LTick s (at_time 0) (early_clock rf)) g = Done g') as Hx.
  { apply exec_prompt_Done. split; [done|]. cbn -[ticker]. unfold exec_tick. rewrite Hs. cbn -[ticker]. by rewrite Htick. }
  assert (mkEntryCall s (incarnation g s) p a Sent ∈ entryCalls g') as [i Hi]%list_elem_of_lookup.
  { cbn. apply elem_of_app. right. apply list_elem_of_omap. eexists. split; [exact Hin|done]. }
  exists g', rf', i, a. split; [eapply moves_put; [exact Hx|done|by left]|]. do 4 (split; [done|]).
  by destruct Hrf' as [->| ->].
Qed.

(** The call reaches [p], and the answer [s]. *)
Lemma exchange_step n g s rf p rp i a :
  prompt_reach n g → servers g !! s = Some rf → state rf = Leader → 0 <= s < n → 0 <= p < n → p ≠ s →
  entryCalls g !! i = Some (mkEntryCall s (incarnation g s) p a Sent) → aaTerm a = currentTerm rf →
  servers g !! p = Some rp → currentTerm rp <= currentTerm rf →
  ∃ g' rf' rp' reply, moves [s; p] g g' ∧ servers g' = <[s := rf']> (<[p := rp']> (servers g)) ∧
    AppendEntries (at_time 0) a rp = Done (rp', reply) ∧
    same_leader rf rf' ∧ settled rf' ∧ recorded p a reply rf rf' ∧ (∀ M j, stores rf M j → stores rf' M j).
Proof.
  intros Hr Hs Hl Hsn Hp Hne Hi Ha Hrp Htp.
  destruct (reach_log_inv n g (prompt_reach_plain _ _ Hr)) as [G HG].
  destruct (lv_calls _ _ HG _ _ Hi) as (_ & _ & _ & _ & Hargs & _). cbn in Hargs.
  destruct (reach_ready n g s Hr Hsn) as (rf0 & Hs0 & [Hok H0 Hme Hnp Hk]). assert (rf0 = rf) as -> by congruence.
  destruct (reach_ready n g p Hr Hp) as (rp0 & Hp0 & [Hokp H0p _ _ _]). assert (rp0 = rp) as -> by congruence.
  pose proof (AppendEntries_total (at_time 0) a rp Hokp H0p Hargs) as Hw.
  destruct (AppendEntries (at_time 0) a rp) as [[rp' reply]| |] eqn:E; try done. destruct Hw as (_ & Hart & _).
  destruct (leader_reply p a reply rf) as (rf' & Hreply & Hsame & Hset & Hrec & Hst); [done|done|lia|done|lia|].
  set (g1 := set_entryCalls (<[i := mkEntryCall s (incarnation g s) p a (Replied reply)]> (entryCalls g)) (put p rp' g)).
  assert (exec_prompt (LEntryReq i (at_time 0)) g = Done g1) as H1.
  { apply exec_prompt_Done. split; [done|]. cbn -[AppendEntries]. unfold exec_entry_req. rewrite Hi. cbn -[AppendEntries].
    rewrite Hrp. cbn -[AppendEntries]. by rewrite E. }
  set (g2 := set_entryCalls (<[i := mkEntryCall s (incarnation g s) p a (Finished reply)]> (entryCalls g1)) (put s rf' g1)).
  assert (entryCalls g1 !! i = Some (mkEntryCall s (incarnation g s) p a (Replied reply))) as Hi1
    by (apply list_lookup_insert_eq; by eapply lookup_lt_Some).
  assert (servers g1 !! s = Some rf) as Hs1 by (cbn; by rewrite lookup_insert_ne).
  assert (exec_prompt (LEntryReply i) g1 = Done g2) as H2.
  { apply exec_prompt_Done. cbn -[leaderSendEntries g1]. unfold exec_entry_reply. rewrite Hi1. cbn -[leaderSendEntries g1].
    rewrite Hs1. split; [rewrite Ha, Z.eqb_refl; apply orb_true_r|]. cbn -[leaderSendEntries g1].
    rewrite bool_decide_true by done. cbn -[leaderSendEntries g1]. by rewrite Hreply. }
  exists g2, rf', rp', reply. split; [|done].
  etransitivity; [eapply moves_put; [exact H1|done|by right; left]|]. eapply moves_put; [exact H2|done|by left].
Qed.

Definition appliedOf (g : Cluster) (p : Z) : Z := from_option lastApplied 0 (servers g !! p).

(** Peer [p] has the entry [e] at [N] and has committed up to [C]. *)
Definition updated (g : Cluster) (p N : Z) (e : Entry) (C : Z) : Prop :=
  ∃ rp, servers g !! p = Some rp ∧ at_ (log rp) N = Done e ∧ C <= commitIndex rp.

(** What exchanges of the leader [s] with [p] do. *)
Record round (s p T N : Z) (e : Entry) (C : Z) (g : Cluster) (rf : Raft) (g' : Cluster) (rf' : Raft) : Prop := {
  ro_moves : moves [s; p] g g';
  ro_leading : leading g' s T N e C rf';
  ro_settled : settled rf';
  ro_stores M j : stores rf M j → stores rf' M j;
  ro_applied x : appliedOf g' x = appliedOf g x;
  ro_term : termOf g' p = T;
}.

Lemma round_trans s p T N e C g0 rf0 g1 rf1 g2 rf2 :
  round s p T N e C g0 rf0 g1 rf1 → round s p T N e C g1 rf1 g2 rf2 → round s p T N e C g0 rf0 g2 rf2.
Proof.
  intros [H1 _ _ H2 H3 _] [H4 ? ? H5 H6 ?]. split; try done; [by etransitivity|by auto|]. intros x. by rewrite H6.
Qed.

(** An acceptance brings [p] up to date, and a refusal lowers the probe. *)
Lemma exchange_outcome n g s T N e C rf p rp i a rf' rp' reply :
  prompt_reach n g → leading g s T N e C rf → C <= N → 0 <= s < n → p ≠ s →
  entryCalls g !! i = Some (mkEntryCall s (incarnation g s) p a Sent) → spawn_ok rf (GoLeaderSendEntries p a) →
  servers g !! p = Some rp → currentTerm rp <= T → AppendEntries (at_time 0) a rp = Done (rp', reply) →
  recorded p a reply rf rf' → log rf' = log rf →
  currentTerm rp' = T ∧
  (stores rf' N p ∧ at_ (log rp') N = Done e ∧ C <= commitIndex rp' ∨ probe rf' p < PrevLogIndex a).
Proof.
  intros Hr [Hs Hl Ht Hlast Hpos He HCc] HC Hsn Hne Hi (Hpme & _ & Hat & _ & Hlc & k & ek & Hek & Hk & Hte & Hes) Hrp Htp Ha Hrec Hlog.
  destruct (reach_agree_inv n g Hr) as (G & V & [Hv _]). pose proof (hv_log _ _ _ Hv) as HG.
  pose proof (lv_peers _ _ HG _ _ Hs) as Hpl. pose proof (lv_peers _ _ HG _ _ Hrp) as Hplp.
  rewrite (pl_index0 _ _ Hpl) in Hk. apply lookup_lt_Some in Hek as Hklt.
  destruct (AppendEntries_answers (at_time 0) a rp rp' reply) as [Hta Hconf]; [apply Hplp|apply Hplp|lia|lia|done|].
  split; [congruence|]. destruct (Success reply) eqn:Es; [left|right].
  - assert (N <= PrevLogIndex a + Z.of_nat (length (aaEntries a))) as HN.
    { rewrite <- Hlast, Hes, length_drop. unfold lastIndex, Len. rewrite (pl_index0 _ _ Hpl). lia. }
    destruct (append_brings G V g i (at_time 0) (mkEntryCall s (incarnation g s) p a Sent) rf rp rp' reply N e) as [Hat' Hmin];
      try done; cbn in *.
    unfold recorded in Hrec. rewrite Es in Hrec. split_and!; [by apply Hrec|done|lia].
  - pose proof (reach_rooted n g Hr) as Hroot.
    eapply (conflict_lowers G g (at_time 0) a rf rf' rp rp' reply p); try done; [| |lia|by apply Hconf].
    + rewrite (Hroot _ _ Hs), (Hroot _ _ Hrp). done.
    + exists ek. rewrite Hk, Z.add_0_l, Nat2Z.id. done.
Qed.

(** A heartbeat to [p] and its answer: [p] has the leader's log, or the leader asks
    about an earlier index next time. *)
Lemma entry_round n g s T N e C rf p :
  prompt_reach n g → leading g s T N e C rf → C <= N → 0 <= s < n → 0 <= p < n → p ≠ s → termOf g p <= T →
  ∃ g' rf', round s p T N e C g rf g' rf' ∧ (stores rf' N p ∧ updated g' p N e C ∨ probe rf' p < probe rf p).
Proof.
  intros Hr Hld HC Hsn Hp Hne Htp. destruct (reach_ready n g p Hr Hp) as (rp & Hrp & _).
  destruct (heartbeat_step n g s T N e C rf p) as (g1 & rf1 & i & a & Hmv1 & Hsv1 & Hrf1 & Hi & Hprev & Hsp); [done..|].
  assert (prompt_reach n g1) as Hr1 by (by eapply moves_reach).
  assert (servers g1 !! s = Some rf1) as Hs1 by (rewrite Hsv1; apply lookup_insert_eq).
  assert (servers g1 !! p = Some rp) as Hp1 by (rewrite Hsv1; by rewrite lookup_insert_ne).
  assert (same_leader rf rf1 ∧ ∀ M j, stores rf M j → stores rf1 M j) as [Hsame1 Est]
    by (pose proof (ld_state _ _ _ _ _ _ _ Hld); by destruct Hrf1 as [->| ->]).
  pose proof (leading_same _ _ _ _ _ _ _ _ _ Hld Hs1 Hsame1) as Hld1.
  unfold termOf in Htp. rewrite Hrp in Htp. cbn in Htp.
  destruct (exchange_step n g1 s rf1 p rp i a) as (g2 & rf2 & rp2 & reply & Hmv2 & Hsv2 & Hae & Hsame & Hset & Hrec & Hst);
    [done|done|apply Hld1|done|done|done|done|apply Hsp|done|by rewrite (ld_term _ _ _ _ _ _ _ Hld1)|].
  assert (servers g2 !! p = Some rp2) as Hp2 by (rewrite Hsv2, lookup_insert_ne by done; apply lookup_insert_eq).
  assert (servers g2 !! s = Some rf2) as Hs2 by (rewrite Hsv2; apply lookup_insert_eq).
  destruct (exchange_outcome n g1 s T N e C rf1 p rp i a rf2 rp2 reply) as [Htp2 Hout]; try done; [apply Hsame|].
  exists g2, rf2. rewrite <- Hprev. split; [split|destruct Hout as [(? & ? & ?)|?]; [left|by right]]; try done.
  - etransitivity; [eapply moves_mono; [|exact Hmv1]|exact Hmv2]. intros x ->%list_elem_of_singleton. by left.
  - by eapply leading_same.
  - by intros M j ?%Est%Hst.
  - intros x. destruct Hsame as (_ & _ & _ & _ & _ & Ea2 & _), Hsame1 as (_ & _ & _ & _ & _ & Ea1 & _).
    apply AppendEntries_applied in Hae as [= _ Eap]. pose proof (ld_peer _ _ _ _ _ _ _ Hld) as Hs0. unfold appliedOf.
    destruct (decide (x = s)) as [->|]; [rewrite Hs2, Hs0; cbn; congruence|].
    destruct (decide (x = p)) as [->|]; [rewrite Hp2, Hrp; done|]. by rewrite Hsv2, Hsv1, !lookup_insert_ne by done.
  - unfold termOf. by rewrite Hp2.
  - split; [done|]. exists rp2. done.
Qed.

(** Repeated, this ends with [p] up to date. *)
Lemma catch_up n s T N e C p (k : nat) g rf :
  prompt_reach n g → leading g s T N e C rf → C <= N → 0 <= s < n → 0 <= p < n → p ≠ s → termOf g p <= T →
  probe rf p <= Z.of_nat k →
  ∃ g' rf', round s p T N e C g rf g' rf' ∧ stores rf' N p ∧ updated g' p N e C.
Proof.
  intros Hr Hld HC Hsn Hp Hne. revert g rf Hr Hld. induction k as [|k IH]; intros g rf Hr Hld Ht Hk;
    (destruct (entry_round n g s T N e C rf p) as (g1 & rf1 & Hro & [Hdone|Hlow]); [done..|by exists g1, rf1|]);
    destruct (ro_leading _ _ _ _ _ _ _ _ _ _ Hro) as [_ _ _ Hlast Hpos _ _].
  - pose proof (probe_range rf1 p ltac:(lia)). lia.
  - destruct (IH g1 rf1) as (g2 & rf2 & Hro2 & Hdone);
      [by eapply moves_reach; [|eapply ro_moves]|apply Hro|by rewrite (ro_term _ _ _ _ _ _ _ _ _ _ Hro)|lia|].
    exists g2, rf2. split; [by eapply round_trans|done].
Qed.

(** ... and then everybody of a group. *)
Lemma catch_all n s T N e C r g rf :
  prompt_reach n g → leading g s T N e C rf → C <= N → 0 <= s < n → NoDup r → s ∉ r →
  (∀ p, p ∈ r → 0 <= p < n ∧ termOf g p <= T) →
  ∃ g' rf', moves (s :: r) g g' ∧ leading g' s T N e C rf' ∧ (settled rf ∨ r ≠ [] → settled rf') ∧
    (∀ M j, stores rf M j → stores rf' M j) ∧ (∀ x, appliedOf g' x = appliedOf g x) ∧
    ∀ p, p ∈ r → termOf g' p <= T ∧ stores rf' N p ∧ updated g' p N e C.
Proof.
  intros Hr Hld HC Hsn. revert g rf Hr Hld. induction r as [|p r IH]; intros g rf Hr Hld Hnd Hsr Hin.
  { exists g, rf. split; [reflexivity|]. split_and!; try done; [by intros [?|?]|by intros p ?%not_elem_of_nil]. }
  apply NoDup_cons in Hnd as [Hpr Hnd]. apply not_elem_of_cons in Hsr as [Hps Hsr].
  destruct (Hin p) as [Hp Htp]; [by left|].
  destruct (catch_up n s T N e C p (Z.to_nat (probe rf p)) g rf) as (g1 & rf1 & [Hmv Hld1 Hset Hst Happ Ht1] & Hsp & Hup);
    [done..|congruence|done|lia|].
  assert (∀ x, x ∈ r → servers g1 !! x = servers g !! x) as Hold.
  { intros x Hx. eapply moves_others; [exact Hmv|]. rewrite !elem_of_cons, elem_of_nil. intros [->|[->|[]]]; done. }
  destruct (IH g1 rf1) as (g2 & rf2 & Hmv2 & Hld2 & Hset2 & Hst2 & Happ2 & Hall); [by eapply moves_reach|done|done|done| |].
  { intros x Hx. destruct (Hin x) as [??]; [by right|]. split; [done|]. unfold termOf. by rewrite Hold. }
  exists g2, rf2. split_and!; try done; [|intros _; apply Hset2; by left|by intros M j ?%Hst%Hst2|intros x; by rewrite Happ2|].
  - etransitivity; [eapply moves_mono; [|exact Hmv]|eapply moves_mono; [|exact Hmv2]];
      intros x; rewrite !elem_of_cons, ?elem_of_nil; tauto.
  - intros x [->|Hx]%elem_of_cons; [|by apply Hall].
    assert (servers g2 !! p = servers g1 !! p) as E by (eapply moves_others; [exact Hmv2|]; rewrite elem_of_cons; intros [->|?]; done).
    unfold termOf, updated in *. rewrite E. split_and!; [lia|by apply Hst2|done].
Qed.

(** ** A new command *)

Lemma start_step n g s rf cmd :
  prompt_reach n g → 0 <= s < n → servers g !! s = Some rf → state rf = Leader →
  let N := lastIndex (log rf) + 1 in
  ∃ g' rf', moves [s] g g' ∧ servers g' = <[s := rf']> (servers g) ∧
    leading g' s (currentTerm rf) N (mkEntry cmd (currentTerm rf) N) 0 rf' ∧ lastApplied rf' = lastApplied rf.
Proof.
  intros Hr Hsn Hs Hl N. destruct (reach_ready n g s Hr Hsn) as (rf0 & Hs0 & [Hok H0 _ _ _]). assert (rf0 = rf) as -> by congruence.
  pose proof (Start_total (at_time 0) cmd rf Hok) as Hw. rewrite bool_decide_eq_true_2 in Hw by done.
  destruct (Start (at_time 0) cmd rf) as [[[rf' res] out]| |] eqn:E; try done. destruct Hw as (Hok' & Hlog & _ & Ht & _).
  exists (spawn s out (put s rf' g)), rf'. pose proof (Start_applied _ _ _ _ _ _ E) as [= _ Ha].
  pose proof (Start_still _ _ _ _ _ _ E) as [Hc _]. pose proof (log_ok_range _ (po_log _ Hok)) as Hrange.
  assert (lastIndex (log rf') = N) as HN by (rewrite Hlog, append_lastIndex; done). split; [|split; [done|split; [|done]]].
  - eapply (moves_put _ (LStart s (at_time 0) cmd)); [|done|by left]. apply exec_prompt_Done. split; [done|].
    cbn -[Start]. unfold exec_start. rewrite Hs. cbn -[Start]. by rewrite E.
  - split; try done; [apply lookup_insert_eq|by rewrite (Start_state _ _ _ _ _ _ E)|lia| |].
    + apply at_Done. rewrite Hlog. cbn. rewrite H0. split; [lia|]. apply list_lookup_middle.
      subst N. unfold lastIndex, Len. rewrite H0. lia.
    + rewrite Hc. pose proof (po_commit _ Hok). lia.
Qed.

(** Nobody of an earlier or the same term has committed more than the leader has. *)
Lemma commit_le_leader n g s rf p rp :
  prompt_reach n g → servers g !! s = Some rf → state rf = Leader → servers g !! p = Some rp →
  currentTerm rp <= currentTerm rf → commitIndex rp <= lastIndex (log rf).
Proof.
  intros Hr Hs Hl Hp Ht. destruct (reach_agree_inv n g Hr) as (G & V & [Hi Hc]). pose proof (hv_log _ _ _ Hi) as Hlv.
  destruct (lv_peers _ _ Hlv _ _ Hs) as [Hok H0 _ _ Hld]. pose proof (log_ok_range _ (po_log _ Hok)).
  destruct (cr_commit _ _ Hc _ _ Hp) as [?|(t & k & Hch & Htt & Hk & _)]; [lia|].
  pose proof (leader_won _ _ _ (lv_election _ _ Hlv) Hs Hl) as Hw.
  pose proof (chosen_leader G V g t k _ _ Hi Hch Hw ltac:(lia)) as Hp'%prefix_length.
  destruct Hch as [(e & He%lookup_lt_Some & _) _]. rewrite length_take, <- Hld in Hp' by done. unfold lastIndex, Len. lia.
Qed.

(** A majority that has the last entry of the leader's term makes it committed. *)
Lemma stored_commits n g s T N e C rf r :
  prompt_reach n g → leading g s T N e C rf → 0 <= s < n → Term e = T → settled rf →
  quorum n (s :: r) → (∀ p, p ∈ r → stores rf N p) → N <= commitIndex rf.
Proof.
  intros Hr [Hs Hl Ht Hlast Hpos He _] Hsn Hte Hset (Hnd & Hin & Hm) Hst.
  destruct (reach_ready n g s Hr Hsn) as (rf0 & Hs0 & [_ _ _ Hnp _]). assert (rf0 = rf) as -> by congruence.
  apply Hset. split; [exists e; split; [done|congruence]|]. unfold replicated, copies. rewrite Hnp.
  assert (length r <= length (filter (stores rf N) (peerIds rf)))%nat as Hlen.
  { apply submseteq_length, NoDup_submseteq; [by apply NoDup_cons in Hnd as [_ ?]|]. intros p Hp.
    apply list_elem_of_filter. split; [by apply Hst|]. unfold peerIds. rewrite Hnp. apply elem_of_seqZ.
    destruct (Hin p); [by right|]. lia. }
  cbn [length] in Hm. apply Z.div_lt_upper_bound; lia.
Qed.

(** ** Delivery *)

Definition message (cmd : Iface) (N : Z) : ApplyMsg := mkApplyMsg true cmd N false [] 0 0.

Lemma deliver_up n s N e (k : nat) g rf :
  prompt_reach n g → 0 <= s < n → servers g !! s = Some rf → at_ (log rf) N = Done e → N <= commitIndex rf →
  N - lastApplied rf = Z.of_nat (S k) →
  ∃ g' l, moves [s] g g' ∧ applied g' = applied g ++ l ∧ (s, message (Command e) N) ∈ l.
Proof.
  intros Hr Hsn. revert g rf Hr. induction k as [|k IH]; intros g rf Hr Hs He HN Hk.
  all: destruct (reach_ready n g s Hr Hsn) as (rf0 & Hs0 & [Hok H0 _ _ Hkill]); assert (rf0 = rf) as -> by congruence;
    destruct (reach_behind n g Hr _ _ Hs) as [_ Hwait];
    assert (applyWaiting rf = false) as Haw by (destruct (applyWaiting rf); [specialize (Hwait eq_refl); lia|done]);
    pose proof (at_range _ _ _ He) as Hrange; pose proof (LoopCommit_total rf Hok Hkill Haw) as Hw;
    destruct (LoopCommit rf) as [[rf' [m|]]| |] eqn:E; try done; destruct Hw as (Hok' & Hlog & Hw);
    [|by destruct Hw as [_ []]; lia]; destruct Hw as (_ & Hla & em & Hem & Hm);
    assert (moves [s] g (deliver s (Some m) (put s rf' g))) as Hmv
      by (eapply (moves_put _ (LApply s)); [|done|by left]; apply exec_prompt_Done; split; [done|];
          cbn -[LoopCommit]; unfold exec_apply; rewrite Hs; cbn -[LoopCommit]; by rewrite E).
  - exists (deliver s (Some m) (put s rf' g)), [(s, m)]. split; [done|]. split; [done|].
    replace (lastApplied rf + 1) with N in * by lia. assert (em = e) as -> by congruence. rewrite Hm. by left.
  - pose proof (LoopCommit_still _ _ _ E) as [Hc _].
    destruct (IH (deliver s (Some m) (put s rf' g)) rf') as (g2 & l & Hmv2 & Happ & Hin);
      [by eapply moves_reach|apply lookup_insert_eq|by rewrite Hlog|lia|lia|].
    exists g2, ((s, m) :: l). split; [by etransitivity|]. split; [|by right]. rewrite Happ. cbn. by rewrite <- app_assoc.
Qed.

Lemma deliver_all n N e r g :
  prompt_reach n g → NoDup r → (∀ p, p ∈ r → 0 <= p < n ∧ updated g p N e N ∧ appliedOf g p < N) →
  ∃ g' l, moves r g g' ∧ applied g' = applied g ++ l ∧ ∀ p, p ∈ r → (p, message (Command e) N) ∈ l.
Proof.
  revert g. induction r as [|p r IH]; intros g Hr Hnd Hin.
  { exists g, []. split; [reflexivity|]. rewrite app_nil_r. split; [done|]. by intros p ?%not_elem_of_nil. }
  apply NoDup_cons in Hnd as [Hpr Hnd]. destruct (Hin p) as (Hp & (rp & Hrp & He & Hc) & Ha); [by left|].
  unfold appliedOf in Ha. rewrite Hrp in Ha. cbn in Ha.
  destruct (deliver_up n p N e (Z.to_nat (N - lastApplied rp - 1)) g rp) as (g1 & l1 & Hmv1 & Happ1 & Hm); [done..|lia|].
  destruct (IH g1) as (g2 & l2 & Hmv2 & Happ2 & Hall); [by eapply moves_reach|done| |].
  { intros x Hx. assert (x ≠ p) as Hne by (by intros ->). unfold updated, appliedOf.
    rewrite (moves_others [p] g g1 x Hmv1) by (by rewrite list_elem_of_singleton). apply Hin. by right. }
  exists g2, (l1 ++ l2). split; [|split].
  - etransitivity; [eapply moves_mono; [|exact Hmv1]|eapply moves_mono; [|exact Hmv2]].
    + intros x ->%list_elem_of_singleton. by left.
    + intros x Hx. by right.
  - by rewrite Happ2, Happ1, <- app_assoc.
  - intros x [->|Hx]%elem_of_cons; apply elem_of_app; [by left|right; by apply Hall].
Qed.

Lemma moves_applied q g g' : moves q g g' → ∃ l, applied g' = applied g ++ l.
Proof.
  intros (ls & H & _). revert g H. induction ls as [|l ls IH]; intros g H; cbn in H; go_inv; [exists []; by rewrite app_nil_r|].
  destruct (IH _ H) as [l2 ->]. apply exec_prompt_Done in H0 as [Hp H0].
  destruct (exec_applied _ _ _ (prompt_plain _ _ Hp) H0) as (? & ? & ? & _ & _ & _ & [[-> _]|(m & -> & _)]); [eauto|].
  rewrite <- app_assoc. eauto.
Qed.

(** ** A command is committed *)

(** The leader [s] of the majority [s :: r] has just taken the command. *)
Lemma replicate_all n s T N e r g rf :
  prompt_reach n g → leading g s T N e 0 rf → Term e = T → quorum n (s :: r) → r ≠ [] →
  (∀ p, p ∈ r → termOf g p <= T) →
  ∃ g', moves (s :: r) g g' ∧ (∀ x, appliedOf g' x = appliedOf g x) ∧ ∀ p, p ∈ s :: r → updated g' p N e N.
Proof.
  intros Hr Hld Hte Hq Hne Ht. pose proof Hq as (Hnd & Hin & _). apply NoDup_cons in Hnd as [Hsr Hnd].
  pose proof (Hin s ltac:(by left)) as Hsn. pose proof (ld_pos _ _ _ _ _ _ _ Hld) as Hpos.
  destruct (catch_all n s T N e 0 r g rf) as (g1 & rf1 & Hmv1 & Hld1 & Hset & _ & Happ1 & Hall1); [done|done|lia|done..| |].
  { intros p Hp. split; [apply Hin; by right|by apply Ht]. }
  assert (prompt_reach n g1) as Hr1 by (by eapply moves_reach).
  assert (leading g1 s T N e N rf1) as HldN.
  { pose proof Hld1 as []. split; try done.
    apply (stored_commits n g1 s T N e 0 rf1 r); try done; [by apply Hset; right|]. intros p Hp. by apply Hall1. }
  destruct (catch_all n s T N e N r g1 rf1) as (g2 & rf2 & Hmv2 & Hld2 & _ & _ & Happ2 & Hall2); [done|done|lia|done..| |].
  { intros p Hp. split; [apply Hin; by right|by apply Hall1]. }
  exists g2. split; [by etransitivity|]. split; [intros x; by rewrite Happ2|].
  intros p [->|Hp]%elem_of_cons; [|by apply Hall2]. destruct Hld2. exists rf2. done.
Qed.

(** C3. A majority is enough: whatever has happened before, and whatever calls are
    still under way, the members of any majority of at least two peers can elect
    one of themselves and commit a new command, which all of them deliver at one
    index; nobody else takes a step.  A delivery goroutine that sleeps is woken by
    the handler that raises the commit index, and only by it. *)
Theorem majority_commits n g q cmd :
  prompt_reach n g → 2 <= n → quorum n q →
  ∃ g' N l, moves q g g' ∧ applied g' = applied g ++ l ∧
    ∀ p, p ∈ q → (p, mkApplyMsg true cmd N false [] 0 0) ∈ l.
Proof.
  intros Hr Hn Hq. pose proof Hq as (Hnd & Hin & Hm).
  destruct (elect_majority n g q 0) as (g1 & s & rf & Hmv1 & Hs & Hrf & Hl & _ & _ & Hterms); [done..|].
  destruct (pick_out q s Hnd Hs) as (r & Hqr & Hndr & Hsr).
  assert (∀ x, x ∈ s :: r ↔ x ∈ q) as Hel by (intros x; by rewrite Hqr).
  assert (prompt_reach n g1) as Hr1 by (by eapply moves_reach).
  destruct (start_step n g1 s rf cmd) as (g2 & rf2 & Hmv2 & Hsv2 & Hld & Ha2); [done|by apply Hin|done|done|].
  set (N := lastIndex (log rf) + 1) in *. set (T := currentTerm rf) in *.
  destruct (replicate_all n s T N (mkEntry cmd T N) r g2 rf2) as (g3 & Hmv3 & Happ3 & Hup); [by eapply moves_reach|done|done| | | |].
  { unfold quorum. split_and!; [by rewrite <- Hqr|intros x Hx%Hel; by apply Hin|by rewrite <- Hqr]. }
  { intros ->. rewrite Hqr in Hm. cbn in Hm. lia. }
  { intros p Hp. unfold termOf. rewrite (moves_others [s] g1 g2 p Hmv2) by (rewrite list_elem_of_singleton; by intros ->).
    apply Hterms, Hel. by right. }
  assert (moves q g g3) as Hmv.
  { etransitivity; [exact Hmv1|]. etransitivity; eapply moves_mono; [|exact Hmv2| |exact Hmv3]; [|by intros x; apply Hel].
    by intros x ->%list_elem_of_singleton. }
  pose proof (moves_reach _ _ _ _ Hr Hmv) as Hr3.
  destruct (deliver_all n N (mkEntry cmd T N) q g3) as (g4 & l & Hmv4 & Happ & Hall); [done|done| |].
  { intros p Hp. split; [by apply Hin|]. split; [by apply Hup, Hel|]. rewrite Happ3.
    destruct (reach_ready n g1 p Hr1 (Hin p Hp)) as (rp & Hrp & _). pose proof (Hterms p Hp) as Htp. unfold termOf in Htp.
    rewrite Hrp in Htp. pose proof (commit_le_leader n g1 s rf p rp Hr1 Hrf Hl Hrp Htp).
    pose proof (proj1 (reach_behind n g1 Hr1 _ _ Hrp)). unfold appliedOf. rewrite Hsv2.
    destruct (decide (s = p)) as [->|]; [rewrite lookup_insert_eq|rewrite lookup_insert_ne, Hrp by done];
      cbn; [assert (rp = rf) as -> by congruence|]; lia. }
  destruct (moves_applied _ _ _ Hmv) as [l0 E0]. exists g4, N, (l0 ++ l).
  split; [by etransitivity|]. split; [by rewrite Happ, E0, <- app_assoc|]. intros p Hp. apply elem_of_app. right. by apply Hall.
Qed.

End replicate.

(** After a change of leaders peer 1, which led, has just restarted; peers 0 and 2,
    one of them behind, go on without it. *)
Lemma majority_commits_witness :
  ∃ g' N l, moves [0; 2] (after 3 takeover_run) g' ∧ applied g' = applied (after 3 takeover_run) ++ l ∧
    (0, mkApplyMsg true (IInt 9) N false [] 0 0) ∈ l ∧ (2, mkApplyMsg true (IInt 9) N false [] 0 0) ∈ l.
Proof.
  destruct (majority_commits 3 (after 3 takeover_run) [0; 2] (IInt 9)) as (g' & N & l & Hmv & Ha & Hall).
  - exact takeover_reach.
  - vm_compute. discriminate.
  - split; [|split].
    + apply (bool_decide_unpack (NoDup [0; 2])). vm_compute. exact I.
    + intros s [->|[->|[]%elem_of_nil]%elem_of_cons]%elem_of_cons; lia.
    + vm_compute. reflexivity.
  - exists g', N, l. split; [exact Hmv|]. split; [exact Ha|].
    split; apply Hall; [left|right; left].
Defined.
