(* ===== verification/RaftSafety.v ===== *)
(** * The guarantees of the Raft cluster

    The theorems about runs, and the runs on which three of the guarantees a
    Raft cluster should give fail in this implementation. *)

From stdpp Require Import base list numbers gmap strings.
From Stdlib Require Import Lia.
From S2P Require Import Prelude RaftLog Persister RaftCore RaftLocal RaftCluster.
From S2P Require Import RaftElection RaftTotal RaftMatching RaftHistory RaftDurable RaftCommit RaftService RaftRuns.

(** ** The logs of the leaders along a run *)

Section history.
Context `{laws : !RaftCodecLaws codec}.

Lemma run_log_inv ls G g g' :
  Forall plain ls → log_inv G g → run ls g = Done g' → ∃ G', grows G G' ∧ log_inv G' g'.
Proof.
  revert G g. induction ls as [|l ls IH]; intros G g Hls Hi H; cbn in H; go_inv.
  { exists G. split; [by intros t|done]. }
  inversion Hls; subst. destruct (exec_log_inv G l g x) as (G1 & Hg1 & _ & Hi1); [done..|].
  destruct (IH G1 x) as (G2 & Hg2 & Hi2); [done..|].
  exists G2. split; [|done]. intros t. by transitivity (G1 t).
Qed.

Lemma reach_peer n g s rf :
  reach plain n g → servers g !! s = Some rf → peer_ok rf ∧ Index0 (log rf) = 0.
Proof. intros [G Hi]%reach_log_inv Hs. by destruct (lv_peers _ _ Hi _ _ Hs). Qed.

(** Everything a peer delivered so far: the sequence of command indices. *)
Definition indices_of (s : Z) (ms : list (Z * ApplyMsg)) : list Z :=
  (λ p, CommandIndex p.2) <$> filter (λ p, p.1 = s) ms.

Definition no_restart (s : Z) (l : Label) : Prop :=
  match l with LRestart s' _ => s' ≠ s | _ => True end.

(** Between restarts, what peer [s] delivered is [1 .. lastApplied]. *)
Definition in_order (s : Z) (g : Cluster) : Prop :=
  ∀ rf, servers g !! s = Some rf →
    0 <= lastApplied rf ∧ indices_of s (applied g) = seqZ 1 (lastApplied rf).

Lemma exec_in_order s l g g' :
  plain l → no_restart s l → in_order s g → exec l g = Done g' → in_order s g'.
Proof.
  intros Hp Hr Hi H. destruct (exec_applied l g g' Hp H) as (s0 & rf & rf' & Hs & Hsv & _ & Hcase).
  intros r. rewrite Hsv. destruct Hcase as [[-> Hl]|(m & -> & _ & Hl & Hm)].
  - intros [[-> <-]|[_ ?]]%lookup_insert_Some; [|by apply Hi].
    destruct Hl as [->|(c & -> & _)]; [by apply Hi|done].
  - unfold indices_of. rewrite filter_app, fmap_app. intros [[<- <-]|[Hne ?]]%lookup_insert_Some.
    + destruct (Hi _ Hs) as [? E]. unfold indices_of in E. rewrite E.
      rewrite filter_cons_True by done. cbn. rewrite Hm, Hl. split; [lia|].
      rewrite seqZ_app by lia. f_equal.
      change (seqZ (1 + lastApplied rf) 1) with [0 + (1 + lastApplied rf)]. f_equal. lia.
    + rewrite filter_cons_False by done. cbn. rewrite app_nil_r. by apply Hi.
Qed.

Lemma in_order_init n c s g : initCluster n c = Done g → in_order s g.
Proof.
  unfold initCluster. intros H. go_inv. intros rf Hs. cbn in Hs |- *.
  assert (∀ ids m, makeServers n c ids = Done m → ∀ rf, m !! s = Some rf → lastApplied rf = 0) as Hm.
  { induction ids as [|i ids IH]; intros m Hmk r Hr; cbn in Hmk; go_inv; [done|].
    apply lookup_insert_Some in Hr as [[<- <-]|[_ Hr]]; [done|eauto]. }
  rewrite (Hm _ _ H0 _ Hs). done.
Qed.

End history.

(** ** Election safety *)

Section guarantees.
Context `{laws : !RaftCodecLaws codec}.

(** C4. Election safety, over time: as long as no InstallSnapShot request is
    handled, two peers that are ever leader in the same term, at whatever two
    moments of a run, are the same peer. *)
Theorem election_safety n g ls g' s s' rf rf' :
  reach no_install n g → Forall no_install ls → run ls g = Done g' →
  servers g !! s = Some rf → state rf = Leader →
  servers g' !! s' = Some rf' → state rf' = Leader →
  currentTerm rf = currentTerm rf' → s = s'.
Proof.
  intros Hr Hls H Hs Hl Hs' Hl' Ht.
  assert (election_inv g') as He' by (eapply reach_election_inv, reach_run; eauto).
  eapply (won_unique g'); [done| |].
  - apply (run_won_le ls g); [done|]. apply leader_won; [by eapply reach_election_inv|done..].
  - rewrite Ht. by apply leader_won.
Qed.

(** C5. Log matching: in a run without snapshots, two logs that hold entries
    of the same term at the same index are identical up to that index. *)
Theorem log_matching n g s s' rf rf' i e e' :
  reach plain n g → servers g !! s = Some rf → servers g !! s' = Some rf' →
  at_ (log rf) i = Done e → at_ (log rf') i = Done e' → Term e = Term e' →
  ∀ j, j <= i → at_ (log rf) j = at_ (log rf') j.
Proof.
  intros [G Hi]%reach_log_inv Hs Hs' He He' Ht j Hj.
  destruct (lv_peers _ _ Hi _ _ Hs) as [_ E0 _ Hc _].
  destruct (lv_peers _ _ Hi _ _ Hs') as [_ E0' _ Hc' _].
  apply at_Done in He as [? He], He' as [? He']. rewrite E0, Z.sub_0_r in He.
  rewrite E0', Z.sub_0_r in He'. pose proof (coherent_agree G _ _ _ _ _ Hc Hc' He He' Ht) as Heq.
  unfold at_, zlookup. rewrite E0, E0', Z.sub_0_r. destruct (Z.ltb_spec j 0); [done|]. f_equal.
  rewrite <- (lookup_take_lt (Entries (log rf)) (S (Z.to_nat i))) by lia. rewrite Heq.
  apply lookup_take_lt. lia.
Qed.

(** C6. No step of a run without snapshots panics: every slice access and
    every [labgob] decode of every handler and goroutine is in range. *)
Theorem no_panic n g l : reach plain n g → plain l → exec l g ≠ Panicked.
Proof. intros [G Hi]%reach_log_inv Hl. by eapply exec_safe. Qed.

(** C13. Durability: whatever happened in a run, snapshots and crashes
    included, a peer that is restarted from its persister has the term, the
    vote and the log it had when it stopped, and is a follower again. *)
Theorem crash_recovery allowed n g s rf c :
  reach allowed n g → servers g !! s = Some rf →
  ∃ rf' g', exec (LRestart s c) g = Done g' ∧ servers g' !! s = Some rf' ∧
    currentTerm rf' = currentTerm rf ∧ votedFor rf' = votedFor rf ∧ log rf' = log rf ∧
    state rf' = Follower.
Proof.
  intros Hd%reach_durable Hs. destruct (du_peers _ Hd _ _ Hs) as (Hme & Hn & Hst).
  destruct (Make_recovers (size g) c rf Hst) as (rf' & Hmk & _ & _ & _ & Ht & Hv & Hl & Hf & _).
  exists rf', (bump s (put s rf' g)). cbn. unfold exec_restart. rewrite Hs. cbn.
  replace (Copy (persister rf)) with (persister rf) by (by destruct (persister rf)).
  rewrite Hme in Hmk. rewrite Hmk. cbn. by rewrite lookup_insert_eq.
Qed.

(** C14. A peer's term never decreases, and as long as no InstallSnapShot
    request is handled a vote cast in a term is never changed within it, over
    any run, crashes and restarts included. *)
Theorem votes_are_final allowed n g ls g' s rf rf' :
  reach allowed n g → run ls g = Done g' →
  servers g !! s = Some rf → servers g' !! s = Some rf' →
  currentTerm rf <= currentTerm rf' ∧
  (Forall no_install ls → currentTerm rf' = currentTerm rf → 0 <= votedFor rf →
     votedFor rf' = votedFor rf).
Proof.
  intros Hr H Hs Hs'. apply reach_durable in Hr.
  destruct (run_peer ls g g' s rf Hr H Hs) as (r & Hr' & (_ & _ & _ & Ha) & Hb).
  assert (r = rf') as -> by congruence. split; [done|]. intros Hls Ht Hv.
  destruct (Hb Hls (currentTerm rf) (votedFor rf) Hv) as [?|[_ ?]]; [right|lia|]; done.
Qed.

(** C15. Leader append-only: in runs without snapshots, while a peer stays leader of a
    term its log only grows. *)
Theorem leader_append_only n g ls g' s rf rf' :
  reach plain n g → Forall plain ls → run ls g = Done g' →
  servers g !! s = Some rf → state rf = Leader →
  servers g' !! s = Some rf' → state rf' = Leader → currentTerm rf' = currentTerm rf →
  Entries (log rf) `prefix_of` Entries (log rf').
Proof.
  intros [G Hi]%reach_log_inv Hls H Hs Hl Hs' Hl' Ht.
  destruct (run_log_inv ls G g g' Hls Hi H) as (G' & Hg & Hi').
  rewrite (pl_leader _ _ (lv_peers _ _ Hi _ _ Hs) Hl).
  rewrite (pl_leader _ _ (lv_peers _ _ Hi' _ _ Hs') Hl'), Ht. apply Hg.
Qed.

(** C16. In runs without snapshots, a peer that is not restarted delivers to its service
    the commands of indices 1, 2, 3, ... up to [lastApplied], each once and in that
    order. *)
Theorem applies_in_order n g s rf :
  reach (λ l, plain l ∧ no_restart s l) n g → servers g !! s = Some rf →
  indices_of s (applied g) = seqZ 1 (lastApplied rf).
Proof.
  intros Hr Hs. apply (reach_invariant _ n (in_order s)) in Hr; [by apply Hr|..].
  - intros c g0. apply in_order_init.
  - intros l g1 g2 [Hp Hn]. by apply exec_in_order.
Qed.

End guarantees.

(** ** The theorems on a concrete run *)

Ltac run_forall := repeat constructor; done.

Lemma election_safety_witness :
  state (peer_after 3 commit_run 0) = Leader ∧ 0 = 0.
Proof.
  split; [vm_compute; reflexivity|].
  apply (election_safety (codec := bit_codec) 3 (after 3 election_run) commit_tail
    (after 3 commit_run) 0 0 (peer_after 3 election_run 0) (peer_after 3 commit_run 0)).
  - apply completes_reach; [run_forall|vm_compute; reflexivity].
  - run_forall.
  - vm_compute. reflexivity.
  - vm_compute. reflexivity.
  - vm_compute. reflexivity.
  - vm_compute. reflexivity.
  - vm_compute. reflexivity.
  - vm_compute. reflexivity.
Defined.

Lemma log_matching_witness :
  at_ (log (peer_after 3 commit_run 0)) 1 = Done (mkEntry (IInt 7) 1 1) ∧
  at_ (log (peer_after 3 commit_run 0)) 0 = at_ (log (peer_after 3 commit_run 1)) 0.
Proof.
  split; [vm_compute; reflexivity|].
  apply (log_matching (codec := bit_codec) 3 (after 3 commit_run) 0 1 _ _ 1
    (mkEntry (IInt 7) 1 1) (mkEntry (IInt 7) 1 1)).
  - apply completes_reach; [run_forall|vm_compute; reflexivity].
  - vm_compute. reflexivity.
  - vm_compute. reflexivity.
  - vm_compute. reflexivity.
  - vm_compute. reflexivity.
  - reflexivity.
  - lia.
Defined.

Lemma no_panic_witness : exec (LApply 2) (after 3 commit_run) ≠ Panicked.
Proof.
  apply (no_panic (codec := bit_codec) 3 (after 3 commit_run) (LApply 2)).
  - apply completes_reach; [run_forall|vm_compute; reflexivity].
  - exact I.
Defined.

Lemma crash_recovery_witness :
  ∃ rf' g', exec (LRestart 0 (at_time 0)) (after 3 snapshot_vote_run) = Done g' ∧
    servers g' !! 0 = Some rf' ∧ currentTerm rf' = 2 ∧ Index0 (log rf') = 1.
Proof.
  destruct (crash_recovery (codec := bit_codec) (λ _, True) 3 (after 3 snapshot_vote_run) 0
    (peer_after 3 snapshot_vote_run 0) (at_time 0)) as (rf' & g' & H1 & H2 & H3 & _ & H5 & _).
  - apply completes_reach; [run_forall|vm_compute; reflexivity].
  - vm_compute. reflexivity.
  - exists rf', g'. rewrite H3, H5. split; [exact H1|]. split; [exact H2|].
    split; vm_compute; reflexivity.
Defined.

Lemma votes_are_final_witness :
  votedFor (peer_after 3 election_run 1) = 0 ∧
  votedFor (peer_after 3 commit_run 1) = votedFor (peer_after 3 election_run 1).
Proof.
  split; [vm_compute; reflexivity|].
  apply (votes_are_final (codec := bit_codec) plain 3 (after 3 election_run) commit_tail
    (after 3 commit_run) 1 (peer_after 3 election_run 1) (peer_after 3 commit_run 1)).
  - apply completes_reach; [run_forall|vm_compute; reflexivity].
  - vm_compute. reflexivity.
  - vm_compute. reflexivity.
  - vm_compute. reflexivity.
  - run_forall.
  - vm_compute. reflexivity.
  - vm_compute. discriminate.
Defined.

Lemma leader_append_only_witness :
  Entries (log (peer_after 3 election_run 0)) `prefix_of` Entries (log (peer_after 3 commit_run 0)).
Proof.
  apply (leader_append_only (codec := bit_codec) 3 (after 3 election_run) commit_tail
    (after 3 commit_run) 0 (peer_after 3 election_run 0) (peer_after 3 commit_run 0)).
  - apply completes_reach; [run_forall|vm_compute; reflexivity].
  - run_forall.
  - vm_compute. reflexivity.
  - vm_compute. reflexivity.
  - vm_compute. reflexivity.
  - vm_compute. reflexivity.
  - vm_compute. reflexivity.
  - vm_compute. reflexivity.
Defined.

Lemma applies_in_order_witness :
  indices_of 1 (applied (after 3 commit_run)) = seqZ 1 1.
Proof.
  apply (applies_in_order (codec := bit_codec) 3 (after 3 commit_run) 1
    (peer_after 3 commit_run 1)).
  - apply completes_reach; [repeat constructor; done|vm_compute; reflexivity].
  - vm_compute. reflexivity.
Defined.

Lemma commit_run_peer s :
  0 <= s < 3 →
  peer_ok (peer_after 3 commit_run s) ∧ Index0 (log (peer_after 3 commit_run s)) = 0.
Proof.
  intros Hs. eapply (reach_peer (codec := bit_codec) 3 (after 3 commit_run) s).
  - apply completes_reach; [run_forall|vm_compute; reflexivity].
  - assert (s = 0 ∨ s = 1 ∨ s = 2) as [->|[->| ->]] by lia; vm_compute; reflexivity.
Qed.

(** Peer 2 of that run has not heard of the leader: a candidate whose log
    ends at index 1 gets its vote. *)
Lemma RequestVote_rule_witness :
  ∃ rf' reply, RequestVote (at_time 0) (mkVoteArgs 5 1 1 1) (peer_after 3 commit_run 2) =
    Done (rf', reply) ∧ VoteGranted reply = true ∧ votedFor rf' = 1.
Proof.
  destruct (RequestVote_rule (codec := bit_codec) (at_time 0) (mkVoteArgs 5 1 1 1)
    (peer_after 3 commit_run 2)) as (rf' & reply & e & H & He & Hg & Hv & _).
  - apply (commit_run_peer 2). lia.
  - exists rf', reply. split; [exact H|]. vm_compute in He. injection He as <-.
    assert (VoteGranted reply = true) as Hgr.
    { apply Hg. split; [left; vm_compute; reflexivity|left; vm_compute; reflexivity]. }
    split; [exact Hgr|]. apply (Hv Hgr).
Defined.

Lemma AppendEntries_rule_witness :
  ∃ rf' reply, AppendEntries (at_time 0)
      (mkAppendArgs 1 0 0 0 [mkEntry (IInt 7) 1 1] 1) (peer_after 3 commit_run 2) =
    Done (rf', reply) ∧ Success reply = true ∧ lastIndex (log rf') = 1.
Proof.
  destruct (AppendEntries_rule (codec := bit_codec) (at_time 0)
    (mkAppendArgs 1 0 0 0 [mkEntry (IInt 7) 1 1] 1) (peer_after 3 commit_run 2))
    as (rf' & reply & H & _ & _ & Hs & Hl).
  - apply (commit_run_peer 2). lia.
  - apply (commit_run_peer 2). lia.
  - intros [|i] e Hi; [injection Hi as <-; reflexivity|discriminate].
  - exists rf', reply. split; [exact H|].
    assert (Success reply = true) as E.
    { apply Hs. split; [vm_compute; discriminate|]. split; [vm_compute; discriminate|].
      eexists. split; [vm_compute; reflexivity|reflexivity]. }
    split; [exact E|]. rewrite Hl, E. vm_compute. reflexivity.
Defined.

Lemma AppendEntries_hint_witness :
  ∃ rf' reply, AppendEntries (at_time 0) (mkAppendArgs 1 0 3 1 [] 1) (peer_after 3 commit_run 1) =
    Done (rf', reply) ∧ XLen reply = 2.
Proof.
  destruct (commit_run_peer 1) as [Hok H0]; [lia|].
  pose proof (λ rf' reply H, AppendEntries_hint (codec := bit_codec) (at_time 0)
    (mkAppendArgs 1 0 3 1 [] 1) (peer_after 3 commit_run 1) rf' reply Hok H0 H) as Hh.
  do 2 eexists. split; [vm_compute; reflexivity|]. eapply (Hh _ _).
  - vm_compute. reflexivity.
  - reflexivity.
Defined.

Lemma Commit_spec_witness :
  ∃ rf', Commit (peer_after 3 commit_run 0) = Done rf' ∧ commitIndex rf' = 1.
Proof.
  destruct (Commit_spec (peer_after 3 commit_run 0)) as (rf' & H & Hl).
  - apply (commit_run_peer 0). lia.
  - vm_compute. reflexivity.
  - exists rf'. split; [exact H|]. destruct Hl as [[-> _]|(pre & n & post & Hn & _)].
    + vm_compute. reflexivity.
    + vm_compute in Hn. destruct pre; discriminate.
Defined.

Lemma Snapshot_total_witness :
  ∃ rf', Snapshot 0 [Byte.x01] (peer_after 3 commit_run 0) = Done rf' ∧ Index0 (log rf') = 0 ∧
    ReadSnapshot (persister rf') = [Byte.x01].
Proof.
  pose proof (Snapshot_total (codec := bit_codec) 0 [Byte.x01] (peer_after 3 commit_run 0)
    (proj1 (commit_run_peer 0 ltac:(lia)))) as H.
  rewrite decide_True in H by (vm_compute; repeat split; discriminate).
  destruct H as (rf' & H & H0 & _ & _ & _ & _ & _ & Hs & _). exists rf'.
  split; [exact H|]. split; [exact H0|exact Hs].
Defined.

Lemma CondInstallSnapshot_total_witness :
  ∃ rf', CondInstallSnapshot 3 5 [Byte.x01] (peer_after 3 commit_run 1) = Done (rf', true) ∧
    commitIndex rf' = 5.
Proof.
  pose proof (CondInstallSnapshot_total (codec := bit_codec) 3 5 [Byte.x01]
    (peer_after 3 commit_run 1) (proj1 (commit_run_peer 1 ltac:(lia)))) as H.
  rewrite decide_False in H by (vm_compute; intros E; exact (E eq_refl)).
  destruct H as (rf' & H & Hc & _). exists rf'. split; [exact H|exact Hc].
Defined.

(** ** Runs on which a guarantee fails *)

(** Neither snapshots nor crashes. *)
Definition uninterrupted (l : Label) : Prop :=
  plain l ∧ match l with LRestart _ _ => False | _ => True end.

(** C39. State machine safety does not hold: in a run of five peers without
    snapshots or crashes, two peers deliver different commands at index 2.
    [leaderSendEntries] does not compare the term of the request with the
    current term, so a reply to a request of term 1 raises [matchIndex] in term
    3. *)
Theorem stale_reply_breaks_agreement :
  ∃ g, reach uninterrupted 5 g ∧
    (0, mkApplyMsg true (IInt 30) 2 false [] 0 0) ∈ applied g ∧
    (2, mkApplyMsg true (IInt 40) 2 false [] 0 0) ∈ applied g.
Proof.
  exists (after 5 stale_reply_run). split.
  - apply completes_reach; [run_forall|vm_compute; reflexivity].
  - replace (applied (after 5 stale_reply_run)) with
      [(0, mkApplyMsg true (IInt 20) 1 false [] 0 0); (0, mkApplyMsg true (IInt 30) 2 false [] 0 0);
       (2, mkApplyMsg true (IInt 20) 1 false [] 0 0); (2, mkApplyMsg true (IInt 40) 2 false [] 0 0)]
      by (vm_compute; reflexivity).
    split; [do 2 constructor|do 4 constructor].
Qed.

(** C40. With InstallSnapShot, election safety does not hold: three peers, two
    leaders of term 2.  The handler overwrites the vote of the current term by
    the sender's idea of the leader. *)
Theorem install_snapshot_breaks_election_safety :
  ∃ g rf rf', reach (λ _, True) 3 g ∧
    servers g !! 0 = Some rf ∧ servers g !! 1 = Some rf' ∧
    state rf = Leader ∧ state rf' = Leader ∧ currentTerm rf = 2 ∧ currentTerm rf' = 2.
Proof.
  exists (after 3 snapshot_vote_run), (peer_after 3 snapshot_vote_run 0),
    (peer_after 3 snapshot_vote_run 1).
  split; [apply completes_reach; [run_forall|vm_compute; reflexivity]|].
  split_and!; vm_compute; reflexivity.
Qed.

(** With log compaction, AppendEntries panics: the search for the first
    entry of the conflicting term runs below [Index0], in a state reached by
    ordinary steps and one Snapshot call. *)
Theorem compacted_log_panics :
  ∃ g, reach no_install 3 g ∧ exec (LEntryReq 10 (at_time 5000)) g = Panicked.
Proof.
  exists (after 3 compacted_run).
  split; [apply completes_reach; [run_forall|vm_compute; reflexivity]|].
  vm_compute. reflexivity.
Qed.
