(* ===== verification/MRCoordinator.v ===== *)
(** * The MapReduce coordinator (src/src/mr/coordinator.go)

    [Master] with its task queue (a buffered channel), its task table and its
    phases; one definition per method.  [mu] protects every method, so a method
    is a function on the record; a send on a full channel blocks with [mu] held
    and is [Blocked], a nil dereference is [Panicked].  Times are milliseconds.

    [System] adds what runs around it: the tasks workers hold and the
    [processTaskResult] goroutines that [TaskCompleted] starts. *)

From stdpp Require Import base list numbers gmap strings sets fin_maps.
From Stdlib Require Import Lia.
From S2P Require Import Prelude.

Inductive MasterTaskStatus : Type := Idle | InProgress | Completed.

Inductive State : Type := Map | Reduce | Exit | Wait.

#[export] Instance MasterTaskStatus_eq_dec : EqDecision MasterTaskStatus.
Proof. solve_decision. Defined.

#[export] Instance State_eq_dec : EqDecision State.
Proof. solve_decision. Defined.

Record Task : Type := mkTask {
  Input : string;
  TaskState : State;
  NReducer : Z;
  TaskNumber : Z;
  TaskIntermediates : list string;
  Output : string;
}.

#[export] Instance Task_eq_dec : EqDecision Task.
Proof. solve_decision. Defined.

Record MasterTask : Type := mkMasterTask {
  TaskStatus : MasterTaskStatus;
  StartTime : Z;
  TaskReference : Task;
}.

(** [TaskQueue] is the content of the channel and [QueueCap] its capacity. *)
Record Master : Type := mkMaster {
  TaskQueue : list Task;
  QueueCap : Z;
  TaskMeta : gmap Z MasterTask;
  MasterPhase : State;
  NReduce : Z;
  InputFiles : list string;
  Intermediates : list (list string);
}.

Definition set_queue (q : list Task) (m : Master) : Master :=
  mkMaster q (QueueCap m) (TaskMeta m) (MasterPhase m) (NReduce m) (InputFiles m) (Intermediates m).

Definition set_meta (tm : gmap Z MasterTask) (m : Master) : Master :=
  mkMaster (TaskQueue m) (QueueCap m) tm (MasterPhase m) (NReduce m) (InputFiles m) (Intermediates m).

Definition set_phase (p : State) (m : Master) : Master :=
  mkMaster (TaskQueue m) (QueueCap m) (TaskMeta m) p (NReduce m) (InputFiles m) (Intermediates m).

Definition set_intermediates (ints : list (list string)) (m : Master) : Master :=
  mkMaster (TaskQueue m) (QueueCap m) (TaskMeta m) (MasterPhase m) (NReduce m) (InputFiles m) ints.

Definition max (a b : Z) : Z := if b <? a then a else b.

(** [m.TaskQueue <- t] *)
Definition send (t : Task) (m : Master) : outcome Master :=
  if Z.of_nat (length (TaskQueue m)) <? QueueCap m then mret (set_queue (TaskQueue m ++ [t]) m)
  else Blocked.

(** The field update [m.TaskMeta[i].TaskStatus = st] through the map's pointer. *)
Definition setStatus (st : MasterTaskStatus) (t : option Z) (i : Z) (m : Master) : outcome Master :=
  mt ← of_option (TaskMeta m !! i);
  mret (set_meta (<[i := mkMasterTask st (default (StartTime mt) t) (TaskReference mt)]> (TaskMeta m)) m).

Definition Done_ (m : Master) : bool := bool_decide (MasterPhase m = Exit).

(** The task created for input file [idx], and for bucket [idx]. *)
Definition mapTask (m : Master) (idx : Z) (filename : string) : Task :=
  mkTask filename Map (NReduce m) idx [] "".

Definition reduceTask (m : Master) (idx : Z) (files : list string) : Task :=
  mkTask "" Reduce (NReduce m) idx files "".

(** [for idx, x := range xs { enqueue the task; enter it in the table }] *)
Fixpoint createTasks {A} (mk : Master → Z → A → Task) (idx : Z) (xs : list A) (m : Master)
    : outcome Master :=
  match xs with
  | [] => mret m
  | x :: xs' =>
      let taskMeta := mk m idx x in
      m ← send taskMeta m;
      createTasks mk (idx + 1) xs'
        (set_meta (<[idx := mkMasterTask Idle 0 taskMeta]> (TaskMeta m)) m)
  end.

Definition createMapTask (m : Master) : outcome Master :=
  createTasks mapTask 0 (InputFiles m) m.

Definition createReduceTask (m : Master) : outcome Master :=
  let m := set_meta ∅ m in
  createTasks reduceTask 0 (Intermediates m) m.

(** [make([][]string, nReduce)] panics on a negative length; the RPC server
    that is started here is [System]'s steps. *)
Definition MakeMaster (files : list string) (nReduce : Z) : outcome Master :=
  if (nReduce <? 0) then Panicked
  else createMapTask
    (mkMaster [] (max nReduce (Z.of_nat (length files))) ∅ Map nReduce files
       (replicate (Z.to_nat nReduce) [])).

Definition allTaskDone (m : Master) : bool :=
  forallb (λ p, bool_decide (TaskStatus p.2 = Completed)) (map_to_list (TaskMeta m)).

Definition AssignTask (now : Z) (m : Master) : outcome (Master * Task) :=
  match TaskQueue m with
  | t :: q =>
      m ← setStatus InProgress (Some now) (TaskNumber t) (set_queue q m);
      mret (m, t)
  | [] =>
      if bool_decide (MasterPhase m = Exit) then mret (m, mkTask "" Exit 0 0 [] "")
      else mret (m, mkTask "" Wait 0 0 [] "")
  end.

(** The boolean is whether [processTaskResult] was started on the task. *)
Definition TaskCompleted (task : Task) (m : Master) : outcome (Master * bool) :=
  if bool_decide (TaskState task ≠ MasterPhase m) then mret (m, false)
  else
    mt ← of_option (TaskMeta m !! TaskNumber task);
    if bool_decide (TaskStatus mt = Completed) then mret (m, false)
    else
      m ← setStatus Completed None (TaskNumber task) m;
      mret (m, true).

(** [for reduceTaskId, filePath := range task.Intermediates] *)
Fixpoint collect (idx : Z) (paths : list string) (ints : list (list string))
    : outcome (list (list string)) :=
  match paths with
  | [] => mret ints
  | p :: paths' =>
      files ← zlookup ints idx;
      ints ← zupdate ints idx (files ++ [p]);
      collect (idx + 1) paths' ints
  end.

Definition processTaskResult (task : Task) (m : Master) : outcome Master :=
  match TaskState task with
  | Map =>
      ints ← collect 0 (TaskIntermediates task) (Intermediates m);
      let m := set_intermediates ints m in
      if allTaskDone m then
        m ← createReduceTask m;
        mret (set_phase Reduce m)
      else mret m
  | Reduce => if allTaskDone m then mret (set_phase Exit m) else mret m
  | _ => mret m
  end.

(** One round of [catchTimeOut] after its sleep; [None] is its return.  [order]
    is the order in which the [range] loop visits the keys of the map. *)
Fixpoint requeue (now : Z) (order : list Z) (m : Master) : outcome Master :=
  match order with
  | [] => mret m
  | i :: order' =>
      match TaskMeta m !! i with
      | Some mt =>
          if bool_decide (TaskStatus mt = InProgress) && (10000 <? now - StartTime mt) then
            m ← send (TaskReference mt) m;
            m ← setStatus Idle None i m;
            requeue now order' m
          else requeue now order' m
      | None => requeue now order' m
      end
  end.

Definition catchTimeOut (now : Z) (order : list Z) (m : Master) : outcome (option Master) :=
  if bool_decide (MasterPhase m = Exit) then mret None
  else m ← requeue now order m; mret (Some m).

(** ** The system around the coordinator *)

Record System : Type := mkSystem {
  master : Master;
  working : list Task;
  pending : list Task;
}.

(** What a worker sends back for a map task: one file per bucket (the names
    [writeToLocalFile] returns), and for a reduce task its output file. *)
Class Naming : Type := {
  intermediateName : Z → Z → string;
  outputName : Z → string;
}.

Section system.
Context {naming : Naming}.

Definition mapOutputs (task : Task) : list string :=
  intermediateName (TaskNumber task) <$> seqZ 0 (NReducer task).

Definition finish (task : Task) : Task :=
  match TaskState task with
  | Map => mkTask (Input task) Map (NReducer task) (TaskNumber task) (mapOutputs task) (Output task)
  | Reduce =>
      mkTask (Input task) Reduce (NReducer task) (TaskNumber task) (TaskIntermediates task)
        (outputName (TaskNumber task))
  | _ => task
  end.

Inductive Step : Type :=
  | SAssign (now : Z)                     (* a worker asks for a task *)
  | SComplete (k : nat)                   (* the worker of the k-th task handed out reports *)
  | SProcess (k : nat)                    (* the k-th processTaskResult goroutine runs *)
  | STimeout (now : Z) (order : list Z).  (* catchTimeOut wakes up *)

Definition sys_step (st : Step) (s : System) : outcome System :=
  match st with
  | SAssign now =>
      '(m, t) ← AssignTask now (master s);
      mret (mkSystem m
        (match TaskState t with Map | Reduce => working s ++ [t] | _ => working s end) (pending s))
  | SComplete k =>
      match working s !! k with
      | None => Blocked
      | Some t =>
          '(m, go) ← TaskCompleted (finish t) (master s);
          mret (mkSystem m (delete k (working s))
            (if go : bool then pending s ++ [finish t] else pending s))
      end
  | SProcess k =>
      match pending s !! k with
      | None => Blocked
      | Some t =>
          m ← processTaskResult t (master s);
          mret (mkSystem m (working s) (delete k (pending s)))
      end
  | STimeout now order =>
      om ← catchTimeOut now order (master s);
      mret (mkSystem (default (master s) om) (working s) (pending s))
  end.

Fixpoint sys_run (sts : list Step) (s : System) : outcome System :=
  match sts with
  | [] => mret s
  | st :: sts' => s ← sys_step st s; sys_run sts' s
  end.

Definition sys_init (files : list string) (nReduce : Z) : outcome System :=
  m ← MakeMaster files nReduce; mret (mkSystem m [] []).

End system.
