(* ===== verification/MRTable.v ===== *)
(** * The coordinator's task table

    [table mk n tm q] relates the table and the queue of one phase: the tasks
    are [mk 0 .. mk (n-1)], each is in the queue, once, exactly when it is
    [Idle].  Every operation of the coordinator that runs within a phase keeps
    it, and none of them blocks or panics under it. *)

From stdpp Require Import base list numbers gmap strings sets fin_maps.
From Stdlib Require Import Lia.
From S2P Require Import Prelude MRCoordinator.

Definition has_status (tm : gmap Z MasterTask) (i : Z) (st : MasterTaskStatus) : Prop :=
  ∃ mt, tm !! i = Some mt ∧ TaskStatus mt = st.

Record table (mk : Z → Task) (n : Z) (tm : gmap Z MasterTask) (q : list Task) : Prop := {
  tb_dom i : is_Some (tm !! i) ↔ 0 <= i < n;
  tb_ref i mt : tm !! i = Some mt → TaskReference mt = mk i;
  tb_queue : ∃ ids, q = mk <$> ids ∧ NoDup ids ∧ ∀ i, i ∈ ids ↔ has_status tm i Idle;
}.

Lemma has_status_insert tm i st t r j st' :
  has_status (<[i := mkMasterTask st t r]> tm) j st' ↔
  (j = i ∧ st' = st) ∨ (j ≠ i ∧ has_status tm j st').
Proof.
  unfold has_status. destruct (decide (j = i)) as [->|Hne].
  - rewrite lookup_insert_eq. naive_solver.
  - rewrite lookup_insert_ne by done. naive_solver.
Qed.

Lemma has_status_unique tm i st st' : has_status tm i st → has_status tm i st' → st = st'.
Proof. intros (?&?&<-) (?&?&<-). congruence. Qed.

Lemma table_bound mk n tm q : table mk n tm q → 0 <= n → Z.of_nat (length q) <= n.
Proof.
  intros [Hd _ (ids & -> & Hnd & Hids)] Hn. rewrite length_fmap.
  enough (length ids ≤ length (seqZ 0 n))%nat by (rewrite length_seqZ in *; lia).
  apply submseteq_length, NoDup_submseteq; [done|].
  intros i (mt & Hi & _)%Hids. apply elem_of_seqZ. apply (Hd i). by eexists.
Qed.

(** A task that is not idle leaves room in the queue. *)
Lemma table_room mk n tm q i st :
  table mk n tm q → has_status tm i st → st ≠ Idle → Z.of_nat (length q) < n.
Proof.
  intros [Hd _ (ids & -> & Hnd & Hids)] Hi Hst. rewrite length_fmap.
  assert (0 <= i < n) as Hin by (apply Hd; destruct Hi as (mt & -> & _); by eexists).
  enough (length (i :: ids) ≤ length (seqZ 0 n))%nat as H by (rewrite length_seqZ in *; cbn in H; lia).
  apply submseteq_length, NoDup_submseteq.
  - apply NoDup_cons. split; [|done]. intros H%Hids. apply Hst. by eapply has_status_unique.
  - intros j [->|(mt & Hj & _)%Hids]%elem_of_cons; apply elem_of_seqZ; [lia|].
    apply (Hd j). by eexists.
Qed.

(** Changing the status of a task that is not in the queue, to one that keeps
    it out. *)
Lemma table_status mk n tm q i st st' t :
  table mk n tm q → has_status tm i st → st ≠ Idle → st' ≠ Idle →
  table mk n (<[i := mkMasterTask st' t (mk i)]> tm) q.
Proof.
  intros [Hd Hr (ids & -> & Hnd & Hids)] Hi Hst Hst'. split.
  - intros j. rewrite lookup_insert_is_Some', <- Hd. destruct Hi as (mt & Hi & _).
    split; [intros [<-|?]; [by eexists|done]|auto].
  - intros j mt [[<- <-]|[_ ?]]%lookup_insert_Some; [done|auto].
  - exists ids. split_and!; [done|done|]. intros j. rewrite Hids, has_status_insert.
    split; [|intros [[_ ?]|[_ ?]]; congruence || done].
    intros Hj. right. split; [|done]. intros ->. apply Hst. by eapply has_status_unique.
Qed.

Lemma table_pop mk n tm t q now :
  (∀ i, TaskNumber (mk i) = i) → table mk n tm (t :: q) →
  ∃ i, t = mk i ∧ 0 <= i < n ∧ has_status tm i Idle ∧
    table mk n (<[i := mkMasterTask InProgress now (mk i)]> tm) q.
Proof.
  intros Hnum [Hd Hr (ids & Hq & Hnd & Hids)]. destruct ids as [|i ids]; [done|].
  cbn in Hq. injection Hq as -> ->. apply NoDup_cons in Hnd as [Hi Hnd].
  assert (has_status tm i Idle) as Hidle by (apply Hids; by left).
  exists i. split_and!; [done|apply (Hd i); destruct Hidle as (?&->&_); by eexists..|done|].
  split.
  - intros j. rewrite lookup_insert_is_Some', <- Hd. destruct Hidle as (mt & Hm & _).
    split; [intros [<-|?]; [by eexists|done]|auto].
  - intros j mt [[<- <-]|[_ ?]]%lookup_insert_Some; [done|auto].
  - exists ids. split_and!; [done|done|]. intros j. rewrite has_status_insert. split.
    + intros Hj. right. split; [by intros ->|]. apply Hids. by right.
    + intros [[_ ?]|[Hne Hj]]; [done|]. apply Hids in Hj as [?|?]%elem_of_cons; done.
Qed.

Lemma table_push mk n tm q i t :
  table mk n tm q → has_status tm i InProgress →
  table mk n (<[i := mkMasterTask Idle t (mk i)]> tm) (q ++ [mk i]).
Proof.
  intros [Hd Hr (ids & -> & Hnd & Hids)] Hi. split.
  - intros j. rewrite lookup_insert_is_Some', <- Hd. destruct Hi as (mt & Hi & _).
    split; [intros [<-|?]; [by eexists|done]|auto].
  - intros j mt [[<- <-]|[_ ?]]%lookup_insert_Some; [done|auto].
  - exists (ids ++ [i]). split_and!.
    + by rewrite fmap_app.
    + apply NoDup_app. split_and!; [done| |apply NoDup_singleton].
      intros j Hj%Hids ->%list_elem_of_singleton. by eapply has_status_unique in Hi; [|exact Hj].
    + intros j. rewrite elem_of_app, Hids, list_elem_of_singleton, has_status_insert.
      destruct (decide (j = i)); naive_solver.
Qed.

(** ** The operations *)

(** What the operations leave alone. *)
Definition same_job (m m' : Master) : Prop :=
  QueueCap m' = QueueCap m ∧ MasterPhase m' = MasterPhase m ∧ NReduce m' = NReduce m ∧
  InputFiles m' = InputFiles m ∧ Intermediates m' = Intermediates m.

#[export] Instance same_job_preorder : PreOrder same_job.
Proof.
  split; unfold same_job.
  - intros m. split_and!; done.
  - intros x y z (?&?&?&?&?) (?&?&?&?&?). split_and!; congruence.
Qed.

Lemma send_Done t m :
  Z.of_nat (length (TaskQueue m)) < QueueCap m → send t m = Done (set_queue (TaskQueue m ++ [t]) m).
Proof. intros H. unfold send. by rewrite (proj2 (Z.ltb_lt _ _) H). Qed.

Lemma setStatus_Done st t i m mt :
  TaskMeta m !! i = Some mt →
  setStatus st t i m = Done (set_meta
    (<[i := mkMasterTask st (default (StartTime mt) t) (TaskReference mt)]> (TaskMeta m)) m).
Proof. intros H. unfold setStatus. by rewrite H. Qed.

(** [AssignTask] hands out the oldest idle task and records it. *)
Lemma AssignTask_table mk n now m :
  (∀ i, TaskNumber (mk i) = i) → table mk n (TaskMeta m) (TaskQueue m) → TaskQueue m ≠ [] →
  ∃ m' i, AssignTask now m = Done (m', mk i) ∧ same_job m m' ∧ 0 <= i < n ∧
    has_status (TaskMeta m) i Idle ∧
    TaskMeta m' = <[i := mkMasterTask InProgress now (mk i)]> (TaskMeta m) ∧
    table mk n (TaskMeta m') (TaskQueue m').
Proof.
  intros Hnum Ht Hq. unfold AssignTask. destruct (TaskQueue m) as [|t q] eqn:E; [done|].
  destruct (table_pop mk n _ t q now Hnum Ht) as (i & -> & Hi & Hidle & Ht').
  destruct Hidle as (mt & Hm & Hst). pose proof (tb_ref _ _ _ _ Ht _ _ Hm) as Hr.
  rewrite Hnum, (setStatus_Done _ _ _ (set_queue q m) mt) by done. cbn. rewrite Hr.
  do 2 eexists. split; [done|]. split_and!; try done; try lia. by exists mt.
Qed.

(** A round of [catchTimeOut] never blocks, whatever the order of the keys. *)
Lemma requeue_table mk n now order m :
  table mk n (TaskMeta m) (TaskQueue m) → n <= QueueCap m →
  ∃ m', requeue now order m = Done m' ∧ same_job m m' ∧
    table mk n (TaskMeta m') (TaskQueue m') ∧
    (∀ i, has_status (TaskMeta m') i Completed ↔ has_status (TaskMeta m) i Completed) ∧
    (∀ i, has_status (TaskMeta m') i InProgress → has_status (TaskMeta m) i InProgress).
Proof.
  revert m. induction order as [|i order IH]; intros m Ht Hcap; cbn.
  { exists m. split_and!; try done; reflexivity. }
  destruct (TaskMeta m !! i) as [mt|] eqn:Hm; [|by apply IH].
  destruct (bool_decide (TaskStatus mt = InProgress) && _) eqn:E; [|by apply IH].
  apply andb_true_iff in E as [Hst%bool_decide_eq_true _].
  assert (has_status (TaskMeta m) i InProgress) as Hip by (by exists mt).
  pose proof (tb_ref _ _ _ _ Ht _ _ Hm) as Hr.
  rewrite send_Done by (pose proof (table_room _ _ _ _ _ _ Ht Hip); naive_solver lia).
  cbn. rewrite (setStatus_Done _ _ _ _ mt) by done. cbn. rewrite Hr.
  edestruct (IH (set_meta (<[i := mkMasterTask Idle (StartTime mt) (mk i)]> (TaskMeta m))
    (set_queue (TaskQueue m ++ [mk i]) m))) as (m' & -> & Hj & Ht' & Hc & Hp).
  - by apply table_push.
  - done.
  - exists m'. split; [done|]. split; [by etransitivity; [|exact Hj]|]. split_and!; [done|..].
    + intros j. rewrite Hc. cbn. rewrite has_status_insert. split; [intros [[_ ?]|[_ ?]]; done|].
      intros Hj'. right. split; [|done]. intros ->. by eapply has_status_unique in Hip; [|exact Hj'].
    + intros j Hj'%Hp. cbn in Hj'. apply has_status_insert in Hj' as [[_ ?]|[_ ?]]; done.
Qed.

(** Filling an empty table. *)
Lemma createTasks_table {A} (mk : Master → Z → A → Task) (mk' : Z → Task) idx xs m :
  0 <= idx → idx + Z.of_nat (length xs) <= QueueCap m →
  table mk' idx (TaskMeta m) (TaskQueue m) →
  (∀ m' i x, same_job m m' → xs !! Z.to_nat (i - idx) = Some x → idx <= i → mk m' i x = mk' i) →
  (∀ i, ¬ has_status (TaskMeta m) i Completed) → (∀ i, ¬ has_status (TaskMeta m) i InProgress) →
  ∃ m', createTasks mk idx xs m = Done m' ∧ same_job m m' ∧
    table mk' (idx + Z.of_nat (length xs)) (TaskMeta m') (TaskQueue m') ∧
    (∀ i, ¬ has_status (TaskMeta m') i Completed) ∧ (∀ i, ¬ has_status (TaskMeta m') i InProgress).
Proof.
  revert idx m. induction xs as [|x xs IH]; intros idx m Hidx Hcap Ht Hmk Hc Hp; cbn [createTasks].
  { exists m. cbn. rewrite Z.add_0_r. split_and!; try done; reflexivity. }
  cbn [length] in Hcap. pose proof (table_bound _ _ _ _ Ht Hidx).
  rewrite send_Done by lia. cbn [mbind outcome_bind].
  assert (mk m idx x = mk' idx) as E.
  { apply Hmk; [reflexivity| |lia]. by rewrite Z.sub_diag. }
  rewrite E. set (m1 := set_meta _ _).
  assert (same_job m m1) as Hj by done.
  assert (¬ is_Some (TaskMeta m !! idx)) as Hnew by (rewrite (tb_dom _ _ _ _ Ht); lia).
  destruct (IH (idx + 1) m1) as (m' & H' & Hj' & Ht' & Hc' & Hp').
  - lia.
  - cbn. lia.
  - destruct Ht as [Hd Hr (ids & Hq & Hnd & Hids)]. split; cbn.
    + intros j. rewrite lookup_insert_is_Some', Hd. lia.
    + intros j mt [[<- <-]|[_ ?]]%lookup_insert_Some; [done|auto].
    + exists (ids ++ [idx]). rewrite Hq, fmap_app. split_and!; [done|..].
      * apply NoDup_app. split_and!; [done| |apply NoDup_singleton].
        intros j (mt & Hj1 & _)%Hids ->%list_elem_of_singleton. apply Hnew. by eexists.
      * intros j. rewrite elem_of_app, Hids, list_elem_of_singleton, has_status_insert.
        destruct (decide (j = idx)) as [->|]; [|naive_solver]. split; auto.
  - intros m2 i y Hj2 Hy Hi. apply Hmk; [by transitivity m1| |lia].
    replace (Z.to_nat (i - idx)) with (S (Z.to_nat (i - (idx + 1)))) by lia. done.
  - intros i. cbn. rewrite has_status_insert. intros [[_ ?]|[_ ?]]; [done|by eapply Hc].
  - intros i. cbn. rewrite has_status_insert. intros [[_ ?]|[_ ?]]; [done|by eapply Hp].
  - exists m'. split; [done|]. split; [by transitivity m1|]. split; [|done].
    replace (idx + Z.of_nat (length (x :: xs))) with (idx + 1 + Z.of_nat (length xs))
      by (cbn; lia). done.
Qed.

Lemma table_empty mk : table mk 0 ∅ [].
Proof.
  split.
  - intros i. rewrite lookup_empty. split; [by intros []|lia].
  - intros i mt. by rewrite lookup_empty.
  - exists []. split_and!; [done|constructor|]. intros i. unfold has_status.
    rewrite lookup_empty. split; [by intros ?%not_elem_of_nil|by intros (?&?&_)].
Qed.

Lemma allTaskDone_spec m :
  allTaskDone m = true ↔ ∀ i mt, TaskMeta m !! i = Some mt → TaskStatus mt = Completed.
Proof.
  unfold allTaskDone. rewrite forallb_forall.
  setoid_rewrite bool_decide_eq_true. split.
  - intros H i mt Hi. apply (H (i, mt)). by apply list_elem_of_In, elem_of_map_to_list.
  - intros H [i mt] Hi. apply (H i). by apply elem_of_map_to_list, list_elem_of_In.
Qed.

(** When every task is completed the queue is empty. *)
Lemma table_done mk n tm q :
  table mk n tm q → (∀ i mt, tm !! i = Some mt → TaskStatus mt = Completed) → q = [].
Proof.
  intros [_ _ (ids & -> & _ & Hids)] Hall. destruct ids as [|i ids]; [done|exfalso].
  destruct (proj1 (Hids i)) as (mt & Hi & Hst); [by left|]. apply Hall in Hi. congruence.
Qed.
