(* ===== verification/MRWorker.v ===== *)
(** * The MapReduce worker (src/src/mr/worker.go) and the sequential reference
    (src/src/main/mrsequential.go)

    File systems are maps from paths to contents.  Intermediate files are JSON
    streams; what the worker needs from encoding/json is the class [KvCodec].
    [sort.Sort] is any function that permutes a slice into key order
    ([KeySort]).  A [log.Fatal] ends the process and is [Panicked].

    [fmt.Fprintf(f, "%v %v\n", k, v)] appends one line; an output file is kept
    as its list of lines. *)

From stdpp Require Import base list numbers gmap strings pretty.
From Stdlib Require Import Lia Ascii.
From S2P Require Import Prelude GoStrings MRCoordinator.

Record KeyValue : Type := mkKV {
  Key : string;
  Value : string;
}.

#[export] Instance KeyValue_eq_dec : EqDecision KeyValue.
Proof. solve_decision. Defined.

(** ** ihash: 32-bit FNV-1a *)

Definition fnv_offset32 : Z := 2166136261.
Definition fnv_prime32 : Z := 16777619.

(** One byte: xor, then multiply modulo 2^32. *)
Definition fnv_byte (h : Z) (c : ascii) : Z :=
  (Z.lxor h (Z.of_nat (nat_of_ascii c)) * fnv_prime32) mod 2 ^ 32.

Fixpoint fnv_write (h : Z) (s : string) : Z :=
  match s with
  | EmptyString => h
  | String c s' => fnv_write (fnv_byte h c) s'
  end.

Definition ihash (key : string) : Z := Z.land (fnv_write fnv_offset32 key) 0x7fffffff.

(** ** Order and sorting *)

Definition Less (a b : KeyValue) : bool := str_lt (Key a) (Key b).

(** [xs] is in key order: no later element is less than an earlier one. *)
Definition key_sorted (xs : list KeyValue) : Prop :=
  ∀ i j x y, (i < j)%nat → xs !! i = Some x → xs !! j = Some y → Less y x = false.

Class KeySort : Type := sort_kvs : list KeyValue → list KeyValue.

Class KeySortLaws (S : KeySort) : Prop := {
  sort_perm xs : sort_kvs xs ≡ₚ xs;
  sort_sorted xs : key_sorted (sort_kvs xs);
}.

(** ** Files *)

Abbreviation filesystem := (gmap string string).

(** [json_ok] is what survives a JSON round trip (valid UTF-8).  [encode_kvs]
    is the content after the [Encode] calls of [writeToLocalFile], [decode_kvs]
    what the [Decode] loop of [readFromLocalFile] collects before its error. *)
Class KvCodec : Type := {
  json_ok : string → bool;
  encode_kvs : list KeyValue → string;
  decode_kvs : string → list KeyValue;
}.

Definition kv_ok `{KvCodec} (kv : KeyValue) : Prop :=
  json_ok (Key kv) = true ∧ json_ok (Value kv) = true.

Class KvCodecLaws (C : KvCodec) : Prop := {
  decode_encode_kvs kvs : Forall kv_ok kvs → decode_kvs (encode_kvs kvs) = kvs;
}.

(** [fmt.Sprintf("mr-%d-%d", x, y)] and [filepath.Join(dir, name)] for a clean
    absolute [dir] other than the root. *)
Definition mr_name (x y : Z) : string := "mr-" +:+ pretty x +:+ "-" +:+ pretty y.

Definition join (dir name : string) : string := dir +:+ "/" +:+ name.

(** The names workers in directory [dir] report. *)
Definition dir_naming (dir : string) : Naming := {|
  intermediateName x y := join dir (mr_name x y);
  outputName r := "mr-out-" +:+ pretty r;
|}.

Section worker.
Context {codec : KvCodec} {sort : KeySort}.
Variable dir : string.

(** [os.Rename(tmp, path)], the last effect of writing a file. *)
Definition rename (tmp path : string) (fs : filesystem) : filesystem :=
  match fs !! tmp with
  | Some c => <[path := c]> (delete tmp fs)
  | None => fs
  end.

(** [tmp] is the name [TempFile] picked. *)
Definition writeToLocalFile (tmp : string) (x y : Z) (kvs : list KeyValue) (fs : filesystem)
    : filesystem * string :=
  let fs := <[tmp := encode_kvs kvs]> fs in
  let path := join dir (mr_name x y) in
  (rename tmp path fs, path).

Fixpoint readFromLocalFile (paths : list string) (fs : filesystem) : outcome (list KeyValue) :=
  match paths with
  | [] => mret []
  | p :: paths' =>
      content ← of_option (fs !! p);
      rest ← readFromLocalFile paths' fs;
      mret (decode_kvs content ++ rest)
  end.

(** [for _, intermediate := range intermediates]: the key's hash picks the
    slot; [%] panics on zero. *)
Fixpoint partition (nReducer : Z) (kvs : list KeyValue) (buffer : list (list KeyValue))
    : outcome (list (list KeyValue)) :=
  match kvs with
  | [] => mret buffer
  | kv :: kvs' =>
      if nReducer =? 0 then Panicked
      else
        let slot := Z.rem (ihash (Key kv)) nReducer in
        b ← zlookup buffer slot;
        buffer ← zupdate buffer slot (b ++ [kv]);
        partition nReducer kvs' buffer
  end.

(** [for i := 0; i < task.NReducer; i++] over the slots of the buffer. *)
Fixpoint writeBuckets (tmp : string) (x i : Z) (buffer : list (list KeyValue)) (fs : filesystem)
    : filesystem * list string :=
  match buffer with
  | [] => (fs, [])
  | kvs :: buffer' =>
      let '(fs, p) := writeToLocalFile tmp x i kvs fs in
      let '(fs, ps) := writeBuckets tmp x (i + 1) buffer' fs in
      (fs, p :: ps)
  end.

(** [mapper] up to its call of [TaskCompleted], whose argument is the result. *)
Definition mapper (tmp : string) (mapf : string → string → list KeyValue) (task : Task)
    (fs : filesystem) : outcome (filesystem * Task) :=
  content ← of_option (fs !! Input task);
  let intermediates := mapf (Input task) content in
  if NReducer task <? 0 then Panicked
  else
    buffer ← partition (NReducer task) intermediates (replicate (Z.to_nat (NReducer task)) []);
    let '(fs, mapOutput) := writeBuckets tmp (TaskNumber task) 0 buffer fs in
    mret (fs, mkTask (Input task) (TaskState task) (NReducer task) (TaskNumber task) mapOutput
                (Output task)).

(** The inner loop: how many elements after the first share its key. *)
Fixpoint same_key (k : string) (kvs : list KeyValue) : nat :=
  match kvs with
  | kv :: kvs' => if bool_decide (Key kv = k) then S (same_key k kvs') else O
  | [] => O
  end.

(** The outer loop on [intermediate[i:]], one line per run of equal keys; the
    fuel bounds the number of runs. *)
Fixpoint reduceLoop (fuel : nat) (reducef : string → list string → string) (kvs : list KeyValue)
    : list (string * string) :=
  match fuel, kvs with
  | S fuel', kv :: kvs' =>
      let n := same_key (Key kv) kvs' in
      (Key kv, reducef (Key kv) (Value <$> (kv :: take n kvs'))) ::
      reduceLoop fuel' reducef (drop n kvs')
  | _, _ => []
  end.

Definition reduce_lines (reducef : string → list string → string) (kvs : list KeyValue)
    : list (string * string) :=
  reduceLoop (length kvs) reducef (sort_kvs kvs).

(** [reducer] up to its call of [TaskCompleted]: the lines of its output file
    and the task it reports. *)
Definition reducer (reducef : string → list string → string) (task : Task) (fs : filesystem)
    : outcome (list (string * string) * Task) :=
  intermediate ← readFromLocalFile (TaskIntermediates task) fs;
  mret (reduce_lines reducef intermediate,
        mkTask (Input task) (TaskState task) (NReducer task) (TaskNumber task)
          (TaskIntermediates task) ("mr-out-" +:+ pretty (TaskNumber task))).

(** ** mrsequential.go *)

Fixpoint seq_map (mapf : string → string → list KeyValue) (inputs : list string)
    (fs : filesystem) : outcome (list KeyValue) :=
  match inputs with
  | [] => mret []
  | filename :: inputs' =>
      content ← of_option (fs !! filename);
      rest ← seq_map mapf inputs' fs;
      mret (mapf filename content ++ rest)
  end.

Definition mrsequential (mapf : string → string → list KeyValue)
    (reducef : string → list string → string) (inputs : list string) (fs : filesystem)
    : outcome (list (string * string)) :=
  intermediate ← seq_map mapf inputs fs;
  mret (reduce_lines reducef intermediate).

End worker.
