(* ===== verification/MRGroup.v ===== *)
(** * Grouping by key

    The reduce loop, compared with its specification [lines_of]: one line per
    distinct key, computed from all the values of that key. *)

From stdpp Require Import base list numbers gmap strings sorting.
From Stdlib Require Import Lia Ascii.
From S2P Require Import Prelude GoStrings MRCoordinator MRWorker.

(** ** The reduce loop *)

Definition has_key (k : string) (kv : KeyValue) : Prop := Key kv = k.

#[export] Instance has_key_dec k kv : Decision (has_key k kv).
Proof. unfold has_key. apply _. Defined.

(** All values of key [k], in order. *)
Definition values (k : string) (kvs : list KeyValue) : list string :=
  Value <$> filter (has_key k) kvs.

Definition lines_of (reducef : string → list string → string) (kvs : list KeyValue)
    : list (string * string) :=
  (λ k, (k, reducef k (values k kvs))) <$> remove_dups (Key <$> kvs).

Lemma key_sorted_cons kv kvs :
  key_sorted (kv :: kvs) → key_sorted kvs ∧ ∀ x, x ∈ kvs → Less x kv = false.
Proof.
  intros H. split.
  - intros i j x y Hij Hi Hj. apply (H (S i) (S j) x y); [lia|done|done].
  - intros x [j Hj]%list_elem_of_lookup. apply (H 0%nat (S j) kv x); [lia|done|done].
Qed.

Lemma key_sorted_drop n kvs : key_sorted kvs → key_sorted (drop n kvs).
Proof.
  intros H i j x y Hij Hi Hj. rewrite lookup_drop in Hi, Hj. eapply H; [|exact Hi|exact Hj]. lia.
Qed.

Lemma same_key_le k kvs : (same_key k kvs <= length kvs)%nat.
Proof. induction kvs as [|kv kvs IH]; cbn; [lia|]. case_bool_decide; lia. Qed.

Lemma same_key_take k kvs kv : kv ∈ take (same_key k kvs) kvs → Key kv = k.
Proof.
  induction kvs as [|x kvs IH]; cbn; [by intros ?%not_elem_of_nil|].
  case_bool_decide; [|by intros ?%not_elem_of_nil]. cbn.
  intros [->|?]%elem_of_cons; auto.
Qed.

(** In a sorted slice the run at the front holds every element of its key. *)
Lemma same_key_drop k kvs kv :
  key_sorted kvs → (∀ x, x ∈ kvs → str_lt (Key x) k = false) →
  kv ∈ drop (same_key k kvs) kvs → Key kv ≠ k.
Proof.
  induction kvs as [|x kvs IH]; cbn; [by intros ? ? ?%not_elem_of_nil|].
  intros Hs Hlt. apply key_sorted_cons in Hs as [Hs Hx].
  case_bool_decide as E; cbn.
  - apply IH; [done|]. intros y Hy. apply Hlt. by right.
  - intros [->|Hin]%elem_of_cons; [done|]. intros <-. apply E. apply str_lt_total.
    + apply Hlt. by left.
    + apply (Hx kv Hin).
Qed.

(** Every line of the loop reduces all values of its key, and every key has
    exactly one line. *)
Lemma reduceLoop_spec fuel reducef kvs :
  key_sorted kvs → (length kvs <= fuel)%nat →
  NoDup (reduceLoop fuel reducef kvs).*1 ∧
  ∀ k v, (k, v) ∈ reduceLoop fuel reducef kvs ↔
    k ∈ Key <$> kvs ∧ v = reducef k (values k kvs).
Proof.
  revert kvs. induction fuel as [|fuel IH]; intros [|kv kvs] Hs Hf; cbn in Hf; try lia.
  1,2: cbn; split; [constructor|]; intros k v;
    split; [by intros ?%not_elem_of_nil|by intros [?%not_elem_of_nil _]].
  apply key_sorted_cons in Hs as [Hs Hmin]. cbn [reduceLoop].
  set (n := same_key (Key kv) kvs). pose proof (same_key_le (Key kv) kvs) as Hn. fold n in Hn.
  destruct (IH (drop n kvs)) as [Hnd Hin].
  { by apply key_sorted_drop. } { rewrite length_drop. lia. }
  assert (∀ x, x ∈ drop n kvs → Key x ≠ Key kv) as Hother.
  { intros x. apply same_key_drop; [done|]. intros y Hy. by apply Hmin. }
  assert (∀ k, k ≠ Key kv → values k (kv :: kvs) = values k (drop n kvs)) as Hvals.
  { intros k Hk. unfold values. rewrite filter_cons_False by (by intros ?).
    rewrite <- (take_drop n kvs) at 1. rewrite filter_app, filter_none; [done|].
    intros x Hx%same_key_take. unfold has_key. congruence. }
  assert (values (Key kv) (kv :: kvs) = Value <$> (kv :: take n kvs)) as Hself.
  { unfold values. rewrite filter_cons_True by done. f_equal. f_equal.
    rewrite <- (take_drop n kvs) at 1. rewrite filter_app.
    rewrite (filter_none _ (drop n kvs)) by (intros x Hx%Hother; done).
    rewrite app_nil_r. apply filter_all. intros x Hx. by eapply same_key_take. }
  split.
  - cbn. apply NoDup_cons. split; [|done].
    intros ([k v] & E & [Hk _]%Hin)%list_elem_of_fmap. cbn in E. subst k.
    apply list_elem_of_fmap in Hk as (x & E & Hx%Hother). done.
  - intros k v. cbn [fmap list_fmap]. rewrite !elem_of_cons, Hin. split.
    + intros [E|[Hk ->]].
      * injection E as -> ->. rewrite Hself. auto.
      * apply list_elem_of_fmap in Hk as (x & -> & Hx). pose proof (Hother x Hx).
        rewrite Hvals by done. split; [|done]. right. apply list_elem_of_fmap. exists x.
        split; [done|]. rewrite <- (take_drop n kvs). apply elem_of_app. by right.
    + intros [Hk ->]. destruct (decide (k = Key kv)) as [->|Hne]; [left; by rewrite Hself|right].
      rewrite Hvals by done. split; [|done]. destruct Hk as [?|Hk]; [done|].
      apply list_elem_of_fmap in Hk as (x & -> & Hx). apply list_elem_of_fmap. exists x.
      split; [done|]. rewrite <- (take_drop n kvs) in Hx. apply elem_of_app in Hx as [Hx|?]; [|done].
      by apply same_key_take in Hx.
Qed.

Lemma lines_of_elem reducef kvs k v :
  (k, v) ∈ lines_of reducef kvs ↔ k ∈ Key <$> kvs ∧ v = reducef k (values k kvs).
Proof.
  unfold lines_of. rewrite list_elem_of_fmap. setoid_rewrite elem_of_remove_dups. naive_solver.
Qed.

Lemma lines_of_nodup reducef kvs : NoDup (lines_of reducef kvs).*1.
Proof.
  unfold lines_of. rewrite <- list_fmap_compose.
  replace (fst ∘ _) with (@id string) by done. rewrite list_fmap_id. apply NoDup_remove_dups.
Qed.

Section order.
Context {sort : KeySort} `{laws : !KeySortLaws sort}.
Context (reducef : string → list string → string).
Context (Hred : ∀ k vs vs', vs ≡ₚ vs' → reducef k vs = reducef k vs').

Lemma values_perm k kvs kvs' : kvs ≡ₚ kvs' → values k kvs ≡ₚ values k kvs'.
Proof. intros H. unfold values. by rewrite H. Qed.

(** For a reduce function that does not look at the order of its values, the
    lines of a slice depend on its elements only. *)
Lemma reduce_lines_perm kvs kvs' :
  kvs ≡ₚ kvs' → reduce_lines reducef kvs ≡ₚ lines_of reducef kvs'.
Proof using Hred laws.
  intros Hp. unfold reduce_lines.
  assert (sort_kvs kvs ≡ₚ kvs') as Hs by (by rewrite sort_perm).
  destruct (reduceLoop_spec (length kvs) reducef (sort_kvs kvs)) as [Hnd Hin].
  { apply sort_sorted. } { by rewrite sort_perm. }
  apply NoDup_Permutation.
  - by eapply NoDup_fmap_1.
  - eapply NoDup_fmap_1, lines_of_nodup.
  - intros [k v]. rewrite Hin, lines_of_elem, (Hred _ _ _ (values_perm k _ _ Hs)).
    split; intros [Hk ->]; (split; [|done]); by (rewrite Hs || rewrite <- Hs).
Qed.

(** ** Splitting by bucket *)

Variable slot : string → Z.

Definition in_slot (r : Z) (kv : KeyValue) : Prop := slot (Key kv) = r.

#[export] Instance in_slot_dec r kv : Decision (in_slot r kv).
Proof. unfold in_slot. apply _. Defined.

Lemma values_slot k kvs : values k (filter (in_slot (slot k)) kvs) = values k kvs.
Proof.
  unfold values. f_equal. induction kvs as [|kv kvs IH]; [done|]. rewrite !filter_cons.
  destruct (decide (in_slot (slot k) kv)) as [Hs|Hs].
  - rewrite filter_cons. destruct (decide (has_key k kv)); [by f_equal|done].
  - destruct (decide (has_key k kv)) as [E|]; [|done]. exfalso. apply Hs.
    unfold in_slot. by rewrite E.
Qed.

(** The lines of the buckets together are the lines of the whole. *)
Lemma lines_of_buckets kvs rs :
  NoDup rs → (∀ kv, kv ∈ kvs → slot (Key kv) ∈ rs) →
  mjoin ((λ r, lines_of reducef (filter (in_slot r) kvs)) <$> rs) ≡ₚ lines_of reducef kvs.
Proof.
  intros Hrs Hall.
  assert (∀ k r, k ∈ Key <$> filter (in_slot r) kvs ↔ slot k = r ∧ k ∈ Key <$> kvs) as Hkey.
  { intros k r. rewrite !list_elem_of_fmap. setoid_rewrite list_elem_of_filter.
    unfold in_slot. naive_solver. }
  apply NoDup_Permutation.
  - clear Hall. induction Hrs as [|r rs Hr Hrs IH]; [constructor|]. cbn.
    apply NoDup_app. split_and!; [eapply NoDup_fmap_1, lines_of_nodup| |done].
    intros [k v] [[<- _]%Hkey _]%lines_of_elem Hin. apply Hr.
    apply list_elem_of_join in Hin as (l & Hl & (r' & -> & Hr')%list_elem_of_fmap).
    apply lines_of_elem in Hl as [[-> _]%Hkey _]. done.
  - eapply NoDup_fmap_1, lines_of_nodup.
  - intros [k v]. rewrite list_elem_of_join, lines_of_elem. split.
    + intros (l & Hl & (r & -> & Hr)%list_elem_of_fmap). apply lines_of_elem in Hl as [[<- Hk]%Hkey ->].
      by rewrite values_slot.
    + intros [Hk ->]. exists (lines_of reducef (filter (in_slot (slot k)) kvs)). split.
      * apply lines_of_elem. rewrite Hkey, values_slot. done.
      * apply list_elem_of_fmap. exists (slot k). split; [done|].
        apply list_elem_of_fmap in Hk as (kv & -> & Hkv). auto.
Qed.

End order.
