(* ===== verification/MRPipeline.v ===== *)
(** * A job's output is the sequential program's output

    The map tasks are run by workers in any order and any number of times, the
    reduce tasks on the files they left; the lines of all output files are those
    [mrsequential] writes, up to order. *)

From stdpp Require Import base list numbers gmap strings pretty sorting.
From Stdlib Require Import Lia Ascii.
From S2P Require Import Prelude MRCoordinator MRWorker MRGroup.

(** ** File names *)

Fixpoint no_dash (s : string) : bool :=
  match s with
  | EmptyString => true
  | String c s' => negb (bool_decide (c = "-"%char)) && no_dash s'
  end.

Lemma no_dash_pretty_go x s : no_dash s = true → no_dash (pretty_N_go x s) = true.
Proof.
  revert s. induction (N.lt_wf_0 x) as [x _ IH]; intros s Hs.
  assert (x = 0 ∨ 0 < x)%N as [->|Hx] by lia; [by rewrite pretty_N_go_0|].
  rewrite pretty_N_go_step by done. apply IH; [by apply N.div_lt|]. cbn. rewrite Hs.
  unfold pretty_N_char. by repeat case_match.
Qed.

Lemma no_dash_pretty (x : Z) : 0 <= x → no_dash (pretty x) = true.
Proof.
  intros Hx. destruct x as [|p|p]; [done| |lia].
  change (pretty (Z.pos p)) with (pretty (N.pos p)). unfold pretty, pretty_N.
  case_decide; [done|]. by apply no_dash_pretty_go.
Qed.

Lemma dash_split a a' b b' :
  no_dash a = true → no_dash a' = true → a +:+ "-" +:+ b = a' +:+ "-" +:+ b' → a = a' ∧ b = b'.
Proof.
  revert a'. induction a as [|c a IH]; intros [|c' a'] Ha Ha' E; cbn in *.
  - by injection E.
  - injection E as <- _. done.
  - injection E as -> _. done.
  - injection E as -> E. apply andb_true_iff in Ha as [_ Ha], Ha' as [_ Ha'].
    destruct (IH a' Ha Ha' E) as [-> ->]. done.
Qed.

Lemma mr_name_inj x y x' y' :
  0 <= x → 0 <= y → 0 <= x' → 0 <= y' → mr_name x y = mr_name x' y' → x = x' ∧ y = y'.
Proof.
  intros Hx Hy Hx' Hy' E. unfold mr_name in E. apply (inj (String.append "mr-")) in E.
  apply dash_split in E as [E1 E2]; [|by apply no_dash_pretty..].
  by apply (inj pretty) in E1, E2.
Qed.

Lemma join_inj dir a b : join dir a = join dir b → a = b.
Proof. unfold join. intros E. apply (inj (String.append dir)) in E. by injection E. Qed.

(** ** Partitioning *)

Lemma ihash_range k : 0 <= ihash k < 2 ^ 31.
Proof.
  unfold ihash. change 0x7fffffff with (Z.ones 31). rewrite Z.land_ones by lia.
  apply Z.mod_pos_bound. lia.
Qed.

Definition hash_slot (R : Z) (k : string) : Z := Z.rem (ihash k) R.

Lemma hash_slot_range R k : 0 < R → 0 <= hash_slot R k < R.
Proof. intros HR. apply Z.rem_bound_pos; [apply ihash_range|done]. Qed.

Lemma partition_spec R kvs buf :
  0 < R → Z.of_nat (length buf) = R →
  ∃ buf', partition R kvs buf = Done buf' ∧ length buf' = length buf ∧
    ∀ r b, buf !! r = Some b →
      buf' !! r = Some (b ++ filter (in_slot (hash_slot R) (Z.of_nat r)) kvs).
Proof.
  intros HR. revert buf. induction kvs as [|kv kvs IH]; intros buf Hlen; cbn [partition].
  { exists buf. split_and!; [done|done|]. intros r b Hr. by rewrite filter_nil, app_nil_r. }
  destruct (Z.eqb_spec R 0) as [|_]; [lia|]. fold (hash_slot R (Key kv)).
  pose proof (hash_slot_range R (Key kv) HR) as Hs. set (sl := hash_slot R (Key kv)) in *.
  destruct (zlookup_total buf sl) as [b0 Hb0]; [lia|]. rewrite Hb0. cbn [mbind outcome_bind].
  rewrite (proj2 (zupdate_Done buf sl (b0 ++ [kv]) _)) by (split; [lia|reflexivity]).
  cbn [mbind outcome_bind]. apply zlookup_Done in Hb0 as [_ Hb0].
  destruct (IH (<[Z.to_nat sl := b0 ++ [kv]]> buf)) as (buf' & -> & Hl & Hbuf).
  { by rewrite length_insert. }
  exists buf'. split_and!; [done|by rewrite Hl, length_insert|]. intros r b Hr.
  pose proof (lookup_lt_Some _ _ _ Hr). rewrite filter_cons.
  destruct (decide (in_slot (hash_slot R) (Z.of_nat r) kv)) as [E|E].
  - unfold in_slot in E. fold sl in E. assert (Z.to_nat sl = r) as Er by lia.
    assert (b0 = b) as -> by (rewrite Er in Hb0; congruence).
    rewrite (Hbuf r (b ++ [kv])) by (rewrite Er, list_lookup_insert_eq by done; done).
    by rewrite <- app_assoc.
  - apply Hbuf. rewrite list_lookup_insert_ne; [done|]. intros <-. apply E.
    unfold in_slot. fold sl. lia.
Qed.

Lemma partition_buckets R kvs :
  0 < R →
  partition R kvs (replicate (Z.to_nat R) []) =
  Done ((λ r, filter (in_slot (hash_slot R) r) kvs) <$> seqZ 0 R).
Proof.
  intros HR. destruct (partition_spec R kvs (replicate (Z.to_nat R) [])) as (buf & -> & Hl & Hb).
  { done. } { rewrite length_replicate. lia. }
  f_equal. rewrite length_replicate in Hl. apply list_eq. intros r. rewrite list_lookup_fmap.
  destruct (decide (r < Z.to_nat R)%nat).
  - rewrite (Hb r []) by (rewrite lookup_replicate_2 by done; done).
    rewrite lookup_seqZ_lt by lia. done.
  - rewrite lookup_seqZ_ge by lia. apply lookup_ge_None_2. lia.
Qed.

(** ** One map task *)

Section pipeline.
Context {codec : KvCodec} `{claws : !KvCodecLaws codec}.
Context {sort : KeySort} `{slaws : !KeySortLaws sort}.
Variables (dir tmp : string).
Variables (mapf : string → string → list KeyValue) (reducef : string → list string → string).
Variables (inputs : list string) (contents : list string) (R : Z).

Abbreviation path x y := (join dir (mr_name x y)).

Hypothesis Htmp : ∀ x y, tmp ≠ path x y.

Lemma path_inj x y x' y' :
  0 <= x → 0 <= y → 0 <= x' → 0 <= y' → path x y = path x' y' → x = x' ∧ y = y'.
Proof. intros ???? E%join_inj. by apply mr_name_inj. Qed.

Lemma writeToLocalFile_spec x y kvs fs :
  writeToLocalFile dir tmp x y kvs fs = (<[path x y := encode_kvs kvs]> (delete tmp fs), path x y).
Proof.
  unfold writeToLocalFile, rename. rewrite lookup_insert_eq. f_equal. f_equal.
  apply delete_insert_eq.
Qed.

Lemma writeBuckets_spec x i buffer fs fs' ps :
  0 <= x → 0 <= i → writeBuckets dir tmp x i buffer fs = (fs', ps) →
  ps = (λ j, path x j) <$> seqZ i (Z.of_nat (length buffer)) ∧
  (∀ j kvs, buffer !! j = Some kvs → fs' !! path x (i + Z.of_nat j) = Some (encode_kvs kvs)) ∧
  (∀ p, p ≠ tmp → (∀ y, i <= y → p ≠ path x y) → fs' !! p = fs !! p).
Proof using Htmp.
  intros Hx. revert i fs fs' ps. induction buffer as [|kvs buffer IH]; intros i fs fs' ps Hi E; cbn [writeBuckets] in E.
  { injection E as <- <-. split_and!; [done| |done]. intros j kvs Hj. by rewrite lookup_nil in Hj. }
  rewrite writeToLocalFile_spec in E.
  destruct (writeBuckets dir tmp x (i + 1) buffer _) as [fs1 ps1] eqn:E1. injection E as <- <-.
  apply IH in E1 as (-> & Hin & Hout); [|lia]. split_and!.
  - rewrite (seqZ_cons i) by (cbn; lia). cbn. f_equal. f_equal. f_equal; cbn; lia.
  - intros [|j] kvs' Hj; cbn in Hj.
    + injection Hj as ->. rewrite Z.add_0_r, Hout.
      * by rewrite lookup_insert_eq.
      * intros H0. symmetry in H0. by apply Htmp in H0.
      * intros y Hy E. apply path_inj in E as [_ E]; lia.
    + replace (i + Z.of_nat (S j)) with (i + 1 + Z.of_nat j) by lia. by apply Hin.
  - intros p Hp Hne. rewrite Hout; [|done|intros y Hy; apply Hne; lia].
    rewrite lookup_insert_ne by (symmetry; by apply Hne). by rewrite lookup_delete_ne.
Qed.

(** What map task [i] emits for bucket [r]. *)
Definition emitted (i : Z) : list KeyValue :=
  mapf (default "" (inputs !! Z.to_nat i)) (default "" (contents !! Z.to_nat i)).

Definition bucket_of (i r : Z) : list KeyValue := filter (in_slot (hash_slot R) r) (emitted i).

Definition map_task (i : Z) : Task := mkTask (default "" (inputs !! Z.to_nat i)) Map R i [] "".

Hypothesis HR : 0 < R.
Hypothesis Hlen : length contents = length inputs.
Hypothesis Hpaths : ∀ f x y, f ∈ inputs → f ≠ path x y ∧ f ≠ tmp.

(** The input files are in place. *)
Definition readable (fs : filesystem) : Prop :=
  ∀ (k : nat) f c, inputs !! k = Some f → contents !! k = Some c → fs !! f = Some c.

(** The output of map task [i] is in place. *)
Definition written (fs : filesystem) (i : Z) : Prop :=
  ∀ r, 0 <= r < R → fs !! path i r = Some (encode_kvs (bucket_of i r)).

Lemma mapper_spec i fs :
  readable fs → 0 <= i < Z.of_nat (length inputs) →
  ∃ fs', mapper dir tmp mapf (map_task i) fs =
      Done (fs', mkTask (Input (map_task i)) Map R i ((λ r, path i r) <$> seqZ 0 R) "") ∧
    readable fs' ∧ written fs' i ∧ ∀ j, 0 <= j → j ≠ i → written fs j → written fs' j.
Proof using Htmp HR Hlen Hpaths.
  intros Hrd Hi. unfold mapper.
  destruct (lookup_lt_is_Some_2 inputs (Z.to_nat i)) as [f Hf]; [lia|].
  destruct (lookup_lt_is_Some_2 contents (Z.to_nat i)) as [c Hc]; [lia|].
  cbn [map_task Input NReducer TaskNumber TaskState Output]. rewrite Hf. cbn [default id].
  rewrite (Hrd _ _ _ Hf Hc). cbn [of_option mbind outcome_bind].
  destruct (Z.ltb_spec R 0); [lia|]. rewrite partition_buckets by done. cbn [mbind outcome_bind].
  destruct (writeBuckets _ _ _ _ _ _) as [fs' ps] eqn:E.
  apply writeBuckets_spec in E as (-> & Hin & Hout); [|lia..].
  rewrite length_fmap, length_seqZ, Z2Nat.id by lia. exists fs'. split; [done|]. split_and!.
  - intros k g d Hg Hd. rewrite Hout; [by apply (Hrd k)| |].
    + apply (Hpaths g 0 0). by eapply list_elem_of_lookup_2.
    + intros y _. apply Hpaths. by eapply list_elem_of_lookup_2.
  - intros r Hr. rewrite <- (Z2Nat.id r) at 1 by lia. rewrite <- (Z.add_0_l (Z.of_nat _)).
    apply Hin. rewrite list_lookup_fmap, lookup_seqZ_lt by lia. cbn. rewrite Z2Nat.id by lia.
    unfold bucket_of, emitted. by rewrite Hf, Hc.
  - intros j Hj0 Hj Hw r Hr. rewrite Hout; [by apply Hw| |].
    + intros E. symmetry in E. by apply Htmp in E.
    + intros y Hy E. apply path_inj in E as [E _]; lia.
Qed.

(** Workers run map tasks in the order [sched], possibly repeatedly. *)
Fixpoint run_maps (sched : list Z) (fs : filesystem) : outcome filesystem :=
  match sched with
  | [] => mret fs
  | i :: sched' => '(fs, _) ← mapper dir tmp mapf (map_task i) fs; run_maps sched' fs
  end.

Lemma run_maps_spec sched fs :
  readable fs → (∀ i, i ∈ sched → 0 <= i < Z.of_nat (length inputs)) →
  ∃ fs', run_maps sched fs = Done fs' ∧ readable fs' ∧
    (∀ i, i ∈ sched → written fs' i) ∧ (∀ i, 0 <= i → written fs i → written fs' i).
Proof using Htmp HR Hlen Hpaths.
  revert fs. induction sched as [|i sched IH]; intros fs Hrd Hs; cbn.
  { exists fs. split_and!; [done|done| |done]. by intros i ?%not_elem_of_nil. }
  destruct (mapper_spec i fs Hrd) as (fs1 & -> & Hrd1 & Hw & Hkeep); [apply Hs; by left|].
  cbn. destruct (IH fs1 Hrd1) as (fs' & -> & Hrd' & Hw' & Hk'); [intros j Hj; apply Hs; by right|].
  assert (0 <= i) by (apply Hs; by left).
  exists fs'. split_and!; [done|done| |].
  - intros j [->|Hj]%elem_of_cons; auto.
  - intros j Hj Hwj. apply Hk'; [done|]. destruct (decide (j = i)) as [->|]; auto.
Qed.

(** ** The reduce tasks *)

Hypothesis Hok : ∀ i, Forall kv_ok (emitted i).

Lemma read_buckets fs ord r :
  0 <= r < R → (∀ i, i ∈ ord → written fs i) →
  readFromLocalFile ((λ i, path i r) <$> ord) fs = Done (mjoin ((λ i, bucket_of i r) <$> ord)).
Proof using claws Hok.
  intros Hr. induction ord as [|i ord IH]; intros Hw; [done|]. cbn.
  assert (i ∈ i :: ord) as Hi by (by left). rewrite (Hw i Hi r Hr). cbn. rewrite IH by (intros j Hj; apply Hw; by right). cbn.
  rewrite decode_encode_kvs; [done|]. unfold bucket_of. apply Forall_forall.
  intros kv [_ Hkv]%list_elem_of_filter. by eapply (proj1 (Forall_forall _ _) (Hok i)).
Qed.

Lemma seq_map_spec fs (fls cts : list string) :
  length cts = length fls → (∀ k f c, fls !! k = Some f → cts !! k = Some c → fs !! f = Some c) →
  seq_map mapf fls fs = Done (mjoin (zip_with mapf fls cts)).
Proof.
  revert cts. induction fls as [|f fls IH]; intros [|c cts] Hl Hrd; try done. cbn.
  rewrite (Hrd 0%nat f c) by done. cbn. rewrite (IH cts); [done|by injection Hl|].
  intros k g d Hg Hd. by apply (Hrd (S k)).
Qed.

Lemma emitted_all : mjoin (emitted <$> seqZ 0 (Z.of_nat (length inputs))) =
  mjoin (zip_with mapf inputs contents).
Proof using Hlen.
  f_equal. apply list_eq. intros k. rewrite list_lookup_fmap, lookup_zip_with.
  destruct (decide (k < length inputs)%nat).
  - rewrite lookup_seqZ_lt by lia. cbn [fmap option_fmap option_map]. unfold emitted. rewrite Z.add_0_l, Nat2Z.id.
    destruct (lookup_lt_is_Some_2 inputs k) as [f ->]; [lia|].
    by destruct (lookup_lt_is_Some_2 contents k) as [c ->]; [lia|].
  - rewrite lookup_seqZ_ge by lia. by rewrite (lookup_ge_None_2 inputs) by lia.
Qed.

Lemma filter_join {A} (P : A → Prop) `{!∀ x, Decision (P x)} (ls : list (list A)) :
  filter P (mjoin ls) = mjoin (filter P <$> ls).
Proof.
  induction ls as [|l ls IH]; [done|]. change (mjoin (l :: ls)) with (l ++ mjoin ls).
  rewrite filter_app, IH. done.
Qed.

Hypothesis Hred : ∀ k vs vs', vs ≡ₚ vs' → reducef k vs = reducef k vs'.

(** The output of the reducer of bucket [r] on the files named in [names]. *)
Lemma reducer_lines fs r names :
  0 <= r < R → (∀ i, 0 <= i < Z.of_nat (length inputs) → written fs i) →
  names ≡ₚ (λ i, path i r) <$> seqZ 0 (Z.of_nat (length inputs)) →
  ∃ lines, reducer reducef (mkTask "" Reduce R r names "") fs =
      Done (lines, mkTask "" Reduce R r names ("mr-out-" +:+ pretty r)) ∧
    lines ≡ₚ lines_of reducef
      (filter (in_slot (hash_slot R) r) (mjoin (zip_with mapf inputs contents))).
Proof using claws slaws Hok Hred Hlen.
  intros Hr Hw Hn. apply Permutation_map_inv in Hn as (ord & -> & Hord).
  unfold reducer. cbn. change (map ?f ord) with (f <$> ord).
  rewrite (read_buckets fs ord r Hr) by (intros i Hi; rewrite <- Hord in Hi;
    apply elem_of_seqZ in Hi; apply Hw; lia).
  cbn. eexists. split; [done|]. apply reduce_lines_perm; [done|].
  rewrite <- emitted_all, filter_join, <- list_fmap_compose. symmetry.
  unfold bucket_of. by rewrite Hord.
Qed.

End pipeline.
