(* ===== verification/MRApps.v ===== *)
(** * The MapReduce applications (src/src/mrapps)

    The applications' [Map] and [Reduce] functions.  Strings are byte strings;
    word splitting is modelled for ASCII contents, where a rune is a byte and
    [unicode.IsLetter] is [is_letter].  [crash.go] has the functions of [nocrash.go]
    behind a random exit; the random number is an argument, and sleeping is left
    out.  [jobcount.go] counts its calls by the files they leave in the directory.

    [ReduceLaw] is what the framework needs of an application: the result of
    [Reduce] does not depend on the order of the values. *)

From stdpp Require Import base list numbers gmap strings pretty sorting.
From Stdlib Require Import Lia Ascii.
From S2P Require Import Prelude GoStrings MRCoordinator MRWorker MRGroup MRPipeline.

Class MRApp : Type := {
  app_map : string → string → list KeyValue;
  app_reduce : string → list string → string;
}.

Class ReduceLaw (A : MRApp) : Prop :=
  reduce_perm : ∀ k vs vs', vs ≡ₚ vs' → app_reduce k vs = app_reduce k vs'.

(** ** Standard library *)

Definition Itoa (n : Z) : string := pretty n.

(** ASCII letters. *)
Definition is_letter (c : ascii) : bool :=
  let n := nat_of_ascii c in
  ((65 <=? n) && (n <=? 90) || (97 <=? n) && (n <=? 122))%nat.

(** [strings.FieldsFunc]: [cur] is the field being read, newest byte first. *)
Fixpoint FieldsFunc_from (f : ascii → bool) (s : string) (cur : list ascii) : list string :=
  let flush := match cur with [] => [] | _ => [String.string_of_list_ascii (reverse cur)] end in
  match s with
  | EmptyString => flush
  | String c s' =>
      if f c then flush ++ FieldsFunc_from f s' [] else FieldsFunc_from f s' (c :: cur)
  end.

Definition FieldsFunc (s : string) (f : ascii → bool) : list string := FieldsFunc_from f s [].

Definition words (contents : string) : list string :=
  FieldsFunc contents (λ r, negb (is_letter r)).

(** ** The applications *)

Definition wc : MRApp := {|
  app_map _ contents := (λ w, mkKV w "1") <$> words contents;
  app_reduce _ vs := Itoa (Z.of_nat (length vs));
|}.

(** [range m] visits the words in an order of the runtime's choosing; the model
    picks the order of first occurrence from the end. *)
Definition indexer : MRApp := {|
  app_map document value := (λ w, mkKV w document) <$> remove_dups (words value);
  app_reduce _ vs :=
    let vs := sort_strings vs in Itoa (Z.of_nat (length vs)) +:+ " " +:+ Join vs ",";
|}.

Definition nocrash : MRApp := {|
  app_map filename contents :=
    [mkKV "a" filename; mkKV "b" (Itoa (Z.of_nat (String.length filename)));
     mkKV "c" (Itoa (Z.of_nat (String.length contents))); mkKV "d" "xyzzy"];
  app_reduce _ vs := Join (sort_strings vs) " ";
|}.

Definition early_exit : MRApp := {|
  app_map filename _ := [mkKV filename "1"];
  app_reduce _ vs := Itoa (Z.of_nat (length vs));
|}.

(** [os.Exit] is [Panicked]; [rr] is the random number below 1000. *)
Definition maybeCrash (rr : Z) : outcome unit := if rr <? 330 then Panicked else mret ().

Definition crash_Map (rr : Z) (filename contents : string) : outcome (list KeyValue) :=
  _ ← maybeCrash rr;
  mret [mkKV "a" filename; mkKV "b" (Itoa (Z.of_nat (String.length filename)));
        mkKV "c" (Itoa (Z.of_nat (String.length contents))); mkKV "d" "xyzzy"].

Definition crash_Reduce (rr : Z) (key : string) (vs : list string) : outcome string :=
  _ ← maybeCrash rr;
  mret (Join (sort_strings vs) " ").

(** The names in the directory, and the [count] of the process [pid]. *)
Definition jobcount_name (pid count : Z) : string := "mr-worker-jobcount-" +:+ pretty pid +:+ "-" +:+ pretty count.

Definition jobcount_Map (pid count : Z) (filename contents : string) (dir : gset string)
    : list KeyValue * Z * gset string :=
  ([mkKV "a" "x"], count + 1, {[jobcount_name pid count]} ∪ dir).

(** [strings.HasPrefix(f.Name(), "mr-worker-jobcount")] *)
Definition is_jobfile (name : string) : Prop := String.prefix "mr-worker-jobcount" name = true.

#[export] Instance is_jobfile_dec name : Decision (is_jobfile name).
Proof. unfold is_jobfile. apply _. Defined.

Definition jobcount_Reduce (key : string) (vs : list string) (dir : gset string) : string :=
  Itoa (Z.of_nat (size (filter is_jobfile dir))).

#[export] Instance wc_law : ReduceLaw wc.
Proof. intros k vs vs' H. cbn. by rewrite H. Qed.

#[export] Instance indexer_law : ReduceLaw indexer.
Proof. intros k vs vs' H. cbn. by rewrite (sort_strings_perm _ _ H). Qed.

#[export] Instance nocrash_law : ReduceLaw nocrash.
Proof. intros k vs vs' H. cbn. by rewrite (sort_strings_perm _ _ H). Qed.

#[export] Instance early_exit_law : ReduceLaw early_exit.
Proof. intros k vs vs' H. cbn. by rewrite H. Qed.

(** A [crash] worker that lives computes what [nocrash] computes. *)
Lemma crash_as_nocrash rr k x vs :
  crash_Map rr k x = Done (app_map (MRApp := nocrash) k x) ∧ crash_Reduce rr k vs = Done (app_reduce (MRApp := nocrash) k vs) ∨
  crash_Map rr k x = Panicked ∧ crash_Reduce rr k vs = Panicked.
Proof. unfold crash_Map, crash_Reduce, maybeCrash. destruct (rr <? 330); [by right|by left]. Qed.

(** Calls of [jobcount_Map] by the processes [pids], each with its own counter. *)
Fixpoint jobcount_calls (pids : list Z) (counts : gmap Z Z) (dir : gset string) : gset string :=
  match pids with
  | [] => dir
  | pid :: pids' =>
      let '(_, c, dir) := jobcount_Map pid (default 0 (counts !! pid)) "" "" dir in
      jobcount_calls pids' (<[pid := c]> counts) dir
  end.

Lemma jobcount_name_inj p c p' c' :
  0 <= p → 0 <= p' → jobcount_name p c = jobcount_name p' c' → p = p' ∧ c = c'.
Proof.
  intros Hp Hp' E. apply (inj (String.append "mr-worker-jobcount-")) in E.
  apply dash_split in E as [E1 E2]; [|by apply no_dash_pretty..]. by apply (inj pretty) in E1, E2.
Qed.

(** [Reduce] reports the number of calls, whoever made them. *)
Lemma jobcount_counts pids key vs :
  (∀ p, p ∈ pids → 0 <= p) →
  jobcount_Reduce key vs (jobcount_calls pids ∅ ∅) = Itoa (Z.of_nat (length pids)).
Proof.
  intros Hp. unfold jobcount_Reduce. f_equal. f_equal.
  enough (∀ counts dir, (∀ p, 0 <= default 0 (counts !! p)) →
    (∀ p c, 0 <= p → jobcount_name p c ∈ dir → c < default 0 (counts !! p)) →
    size (filter is_jobfile (jobcount_calls pids counts dir)) = (length pids + size (filter is_jobfile dir))%nat) as H.
  { assert (filter is_jobfile (∅ : gset string) = ∅) as E0 by (apply leibniz_equiv, filter_empty).
    rewrite H, E0; [by rewrite size_empty, Nat.add_0_r|intros p; by rewrite lookup_empty|set_solver]. }
  induction pids as [|pid pids IH]; intros counts dir Hc Hd; [done|]. cbn [jobcount_calls jobcount_Map length].
  set (c := default 0 (counts !! pid)) in *. assert (0 <= pid) as Hpid by (apply Hp; by left).
  assert (jobcount_name pid c ∉ dir) as Hnew by (intros Hin; specialize (Hd pid c Hpid Hin); subst c; lia).
  rewrite IH.
  - assert (filter is_jobfile ({[jobcount_name pid c]} ∪ dir) = {[jobcount_name pid c]} ∪ filter is_jobfile dir) as ->.
    { apply set_eq. intros x. rewrite elem_of_union, !elem_of_filter, elem_of_union, elem_of_singleton.
      split; [tauto|]. intros [->|?]; [|tauto]. split; [reflexivity|by left]. }
    rewrite size_union, size_singleton by set_solver. lia.
  - intros p Hin. apply Hp. by right.
  - intros p. destruct (decide (p = pid)) as [->|]; [rewrite lookup_insert_eq; cbn; specialize (Hc pid); fold c in Hc; lia|].
    rewrite lookup_insert_ne by done. apply Hc.
  - intros p c' Hp0 [E%elem_of_singleton|Hin]%elem_of_union.
    + apply jobcount_name_inj in E as [-> ->]; [|done..]. rewrite lookup_insert_eq. cbn. lia.
    + specialize (Hd p c' Hp0 Hin). destruct (decide (p = pid)) as [->|]; [rewrite lookup_insert_eq; cbn; fold c in Hd; lia|].
      by rewrite lookup_insert_ne.
Qed.

(** ** A sorting function and a JSON stand-in: the classes of MRWorker.v can be
    implemented *)

Definition kv_le (a b : KeyValue) : Prop := str_le (Key a) (Key b).

#[export] Instance kv_le_dec a b : Decision (kv_le a b).
Proof. unfold kv_le. apply _. Defined.

#[export] Instance kv_le_total : Total kv_le.
Proof. intros a b. apply str_le_total. Qed.

#[export] Instance kv_le_trans : Transitive kv_le.
Proof. intros a b c. apply str_le_trans. Qed.

#[export] Instance merge_key_sort : KeySort := merge_sort kv_le.

Lemma strongly_sorted_keys xs : StronglySorted kv_le xs → key_sorted xs.
Proof.
  induction 1 as [|x xs Hs IH Hx]; intros i j a b Hij Hi Hj; [by rewrite lookup_nil in Hi|].
  destruct i as [|i], j as [|j]; try lia; cbn in Hi, Hj.
  - injection Hi as <-. rewrite Forall_forall in Hx. apply Hx. by eapply list_elem_of_lookup_2.
  - eapply IH; [|done|done]. lia.
Qed.

#[export] Instance merge_key_sort_laws : KeySortLaws merge_key_sort.
Proof.
  split.
  - intros xs. apply merge_sort_Permutation.
  - intros xs. apply strongly_sorted_keys, (StronglySorted_merge_sort _).
Qed.

Fixpoint pos_string (p : positive) : string :=
  match p with
  | xH => "1"
  | xO q => String "0" (pos_string q)
  | xI q => String "1" (pos_string q)
  end.

Fixpoint string_pos (s : string) : positive :=
  match s with
  | EmptyString | String _ EmptyString => xH
  | String c s' => if bool_decide (c = "0"%char) then xO (string_pos s') else xI (string_pos s')
  end.

Lemma string_pos_string p : string_pos (pos_string p) = p.
Proof.
  assert (∀ q, ∃ c s, pos_string q = String c s) as Hne by (intros []; cbn; eauto).
  induction p as [p IH|p IH|]; [| |done];
    destruct (Hne p) as (c & s & E); cbn [pos_string]; rewrite E in *; cbn in *; by rewrite IH.
Qed.

#[export] Instance KeyValue_countable : Countable KeyValue.
Proof.
  refine (inj_countable' (λ kv, (Key kv, Value kv)) (λ p, mkKV p.1 p.2) _). by intros [].
Defined.

#[export] Instance bit_kv_codec : KvCodec := {|
  json_ok _ := true;
  encode_kvs kvs := pos_string (encode kvs);
  decode_kvs s := default [] (decode (string_pos s));
|}.

#[export] Instance bit_kv_codec_laws : KvCodecLaws bit_kv_codec.
Proof. split. intros kvs _. cbn. rewrite string_pos_string, decode_encode. done. Qed.
