(* ===== verification/MRTiming.v ===== *)
(** * The timing applications (src/src/mrapps/mtiming.go, rtiming.go)

    Their tasks report how many workers are at work at the same time.  [nparallel]
    leaves a file with the worker's process id in the directory, counts the files
    of this kind whose process is alive, sleeps, and removes its own file.  What
    the operating system answers is a record [OS]; what other processes do to the
    directory while [nparallel] runs are its arguments [env1] and [env2].

    [Timing] puts processes together, each at its own place in [nparallel], with
    processes that die and other files that come and go: the number a worker
    reports is the number of live workers between the creation and the removal of
    their files. *)

From stdpp Require Import base list numbers gmap strings pretty sorting.
From Stdlib Require Import Lia Ascii SpecFloat.
From S2P Require Import Prelude GoStrings Strconv MRCoordinator MRWorker MRGroup MRPipeline MRApps.

(** ** The applications *)

(** A call that fails makes [nparallel] panic.  [listing] is the order in which the
    directory is read, [Kill pid] says that signal 0 was delivered. *)
Record OS : Type := mkOS {
  Getpid : Z;
  write_ok : bool;
  open_ok : bool;
  remove_ok : bool;
  listing : gset string → list string;
  Kill : Z → bool;
}.

Definition pattern (phase : string) : string := "mr-worker-" +:+ phase +:+ "-".

Definition marker (phase : string) (pid : Z) : string := pattern phase +:+ pretty pid.

Definition WriteFile (ok : bool) (name : string) (dir : gset string) : outcome (gset string) :=
  if ok then mret ({[name]} ∪ dir) else Panicked.

Fixpoint ztake {A} (n : Z) (xs : list A) : list A :=
  match xs with
  | x :: xs' => if 0 <? n then x :: ztake (n - 1) xs' else []
  | [] => []
  end.

(** An empty directory is the error [io.EOF]. *)
Definition Readdirnames (os : OS) (n : Z) (dir : gset string) : outcome (list string) :=
  if negb (open_ok os) then Panicked
  else match listing os dir with
       | [] => Panicked
       | names => mret (ztake n names)
       end.

Fixpoint count_alive (os : OS) (phase : string) (names : list string) (ret : Z) : Z :=
  match names with
  | [] => ret
  | name :: names' =>
      match Sscanf (pattern phase) name with
      | Some xpid => count_alive os phase names' (if Kill os xpid then ret + 1 else ret)
      | None => count_alive os phase names' ret
      end
  end.

Definition scan (os : OS) (phase : string) (dir : gset string) : outcome Z :=
  names ← Readdirnames os 1000000 dir;
  mret (count_alive os phase names 0).

Definition Remove (ok : bool) (name : string) (dir : gset string) : outcome (gset string) :=
  if ok && bool_decide (name ∈ dir) then mret (dir ∖ {[name]}) else Panicked.

(** [env1] is done to the directory before it is read, [env2] during the sleep. *)
Definition nparallel (os : OS) (env1 env2 : gset string → gset string) (phase : string) (dir : gset string)
    : outcome (Z * gset string) :=
  let myfilename := marker phase (Getpid os) in
  dir ← WriteFile (write_ok os) myfilename dir;
  let dir := env1 dir in
  ret ← scan os phase dir;
  let dir := env2 dir in
  dir ← Remove (remove_ok os) myfilename dir;
  mret (ret, dir).

(** [float64(t0.Unix()) + (float64(t0.Nanosecond()) / 1000000000.0)] *)
Definition float64 (x : Z) : spec_float := binary_normalize 53 1024 x 0 false.

Definition timestamp (sec nsec : Z) : spec_float :=
  SFadd 53 1024 (float64 sec) (SFdiv 53 1024 (float64 nsec) (float64 1000000000)).

(** [a / b] rounded to the nearest, to even if there are two. *)
Definition div_even (a b : Z) : Z :=
  let q := a / b in
  let r := 2 * (a mod b) in
  if (r <? b) || (r =? b) && Z.even q then q else q + 1.

(** The verb %.1f for the floats a clock gives. *)
Definition format_1f (f : spec_float) : string :=
  match f with
  | S754_finite neg m e =>
      let tenths := if 0 <=? e then 10 * Z.shiftl (Z.pos m) e else div_even (10 * Z.pos m) (Z.shiftl 1 (- e)) in
      (if neg then "-" else "") +:+ pretty (tenths / 10) +:+ "." +:+ pretty (tenths mod 10)
  | S754_zero neg => (if neg then "-0.0" else "0.0")
  | S754_infinity neg => (if neg then "-Inf" else "+Inf")
  | S754_nan => "NaN"
  end.

(** The time of the call is [sec] and [nsec]. *)
Definition mtiming_Map (os : OS) (env1 env2 : gset string → gset string) (sec nsec : Z)
    (filename contents : string) (dir : gset string) : outcome (list KeyValue * gset string) :=
  let ts := timestamp sec nsec in
  '(n, dir) ← nparallel os env1 env2 "map" dir;
  mret ([mkKV ("times-" +:+ pretty (Getpid os)) (format_1f ts);
         mkKV ("parallel-" +:+ pretty (Getpid os)) (pretty n)], dir).

Definition mtiming_Reduce (key : string) (vs : list string) : string := Join (sort_strings vs) " ".

Definition rtiming_Map (filename contents : string) : list KeyValue :=
  (λ k, mkKV k "1") <$> ["a"; "b"; "c"; "d"; "e"; "f"; "g"; "h"; "i"; "j"].

(** rtiming.go has the same function again. *)
Definition rtiming_nparallel (os : OS) (env1 env2 : gset string → gset string) (phase : string) (dir : gset string)
    : outcome (Z * gset string) := nparallel os env1 env2 phase dir.

Definition rtiming_Reduce (os : OS) (env1 env2 : gset string → gset string) (key : string) (vs : list string)
    (dir : gset string) : outcome (string * gset string) :=
  '(n, dir) ← rtiming_nparallel os env1 env2 "reduce" dir;
  mret (pretty n, dir).

Example timestamp_ex : format_1f (timestamp 1700000000 950000000) = "1700000001.0" ∧ format_1f (timestamp 1700000000 250000000) = "1700000000.2".
Proof. vm_compute. done. Qed.

(** The order of the values does not matter to the [Reduce] of mtiming. *)
Lemma mtiming_Reduce_perm key vs vs' : vs ≡ₚ vs' → mtiming_Reduce key vs = mtiming_Reduce key vs'.
Proof. intros H. unfold mtiming_Reduce. by rewrite (sort_strings_perm _ _ H). Qed.

(** ** Counting *)

Lemma marker_scans phase pid : 0 <= pid <= maxInt64 → Sscanf (pattern phase) (marker phase pid) = Some pid.
Proof. intros H. unfold marker. rewrite Sscanf_prefix. by apply scan_int_pretty. Qed.

Lemma marker_inj phase p q : marker phase p = marker phase q → p = q.
Proof. intros H%(inj (String.append _)). by apply (inj pretty) in H. Qed.

Lemma ztake_all {A} (n : Z) (xs : list A) : Z.of_nat (length xs) <= n → ztake n xs = xs.
Proof.
  revert n. induction xs as [|x xs IH]; intros n H; cbn in *; [done|].
  destruct (Z.ltb_spec 0 n); [|lia]. rewrite IH by lia. done.
Qed.

Definition is_counted (os : OS) (phase name : string) : bool :=
  match Sscanf (pattern phase) name with Some x => Kill os x | None => false end.

Lemma count_alive_filter os phase names ret :
  count_alive os phase names ret = ret + Z.of_nat (length (filter (λ n, is_counted os phase n = true) names)).
Proof.
  revert ret. induction names as [|name names IH]; intros ret; cbn [count_alive]; [cbn; lia|].
  rewrite filter_cons. destruct (Sscanf (pattern phase) name) as [x|] eqn:E.
  - rewrite IH. case_decide as H; unfold is_counted in H; rewrite E in H; [rewrite H; cbn; lia|].
    destruct (Kill os x); [done|]. cbn. lia.
  - rewrite IH, decide_False; [done|]. unfold is_counted. by rewrite E.
Qed.

(** What is read from a directory is all of it, in some order. *)
Lemma scan_spec os phase dir :
  open_ok os = true → listing os dir ≡ₚ elements dir → dir ≠ ∅ → Z.of_nat (size dir) <= 1000000 →
  scan os phase dir = Done (Z.of_nat (size (filter (λ n, is_counted os phase n = true) dir))).
Proof.
  intros Ho Hl Hne Hs. unfold scan, Readdirnames. rewrite Ho. cbn [negb].
  destruct (listing os dir) as [|x names] eqn:E.
  { destruct Hne. apply leibniz_equiv, elements_empty_iff. by apply Permutation_nil_l in Hl. }
  rewrite <- E in *. cbn [mbind outcome_bind]. rewrite ztake_all.
  - cbn. rewrite count_alive_filter, Hl, Z.add_0_l. do 2 f_equal. symmetry. apply size_list_to_set, NoDup_filter, NoDup_elements.
  - by rewrite Hl.
Qed.

(** ** Workers side by side *)

Inductive stage : Type := Marked | Counted (n : Z).

Record Timing : Type := mkTiming {
  t_dir : gset string;
  t_alive : gset Z;
  t_at : gmap Z stage;
}.

Section timing.
Context (phase : string) (order : gset string → list string).

(** The operating system for the process [p] of [st]. *)
Definition os_of (st : Timing) (p : Z) : OS := mkOS p true true true order (λ x, bool_decide (x ∈ t_alive st)).

Inductive TLabel : Type :=
  | TMark (p : Z)                        (* p creates its file *)
  | TScan (p : Z)                        (* p reads the directory *)
  | TUnmark (p : Z)                      (* p removes its file *)
  | TDie (p : Z)
  | TFiles (add del : gset string).      (* files of other kinds come and go *)

Definition other_file (name : string) : Prop := Sscanf (pattern phase) name = None.

#[export] Instance other_file_dec name : Decision (other_file name).
Proof. unfold other_file. apply _. Defined.

Definition timing_exec (l : TLabel) (st : Timing) : outcome Timing :=
  match l with
  | TMark p =>
      match t_at st !! p with
      | None =>
          if bool_decide (p ∈ t_alive st) then
            dir ← WriteFile (write_ok (os_of st p)) (marker phase p) (t_dir st);
            mret (mkTiming dir (t_alive st) (<[p := Marked]> (t_at st)))
          else Blocked
      | Some _ => Blocked
      end
  | TScan p =>
      match t_at st !! p with
      | Some Marked =>
          if bool_decide (p ∈ t_alive st) then
            n ← scan (os_of st p) phase (t_dir st);
            mret (mkTiming (t_dir st) (t_alive st) (<[p := Counted n]> (t_at st)))
          else Blocked
      | _ => Blocked
      end
  | TUnmark p =>
      match t_at st !! p with
      | Some (Counted _) =>
          if bool_decide (p ∈ t_alive st) then
            dir ← Remove (remove_ok (os_of st p)) (marker phase p) (t_dir st);
            mret (mkTiming dir (t_alive st) (delete p (t_at st)))
          else Blocked
      | _ => Blocked
      end
  | TDie p => mret (mkTiming (t_dir st) (t_alive st ∖ {[p]}) (t_at st))
  | TFiles add del =>
      if bool_decide (set_Forall other_file (add ∪ del))
      then mret (mkTiming ((t_dir st ∪ add) ∖ del) (t_alive st) (t_at st)) else Blocked
  end.

Fixpoint timing_run (ls : list TLabel) (st : Timing) : outcome Timing :=
  match ls with
  | [] => mret st
  | l :: ls' => st ← timing_exec l st; timing_run ls' st
  end.

(** A start: no file of this kind, and process ids. *)
Definition timing_start (st : Timing) : Prop :=
  set_Forall other_file (t_dir st) ∧ set_Forall (λ p, 0 <= p <= maxInt64) (t_alive st) ∧ t_at st = ∅.

Definition timing_reach (st : Timing) : Prop :=
  ∃ st0 ls, timing_start st0 ∧ timing_run ls st0 = Done st.

(** The live workers whose files are there. *)
Definition inside (st : Timing) : gset Z := dom (t_at st) ∩ t_alive st.

Record timing_inv (st : Timing) : Prop := {
  ti_pids p : p ∈ t_alive st → 0 <= p <= maxInt64;
  ti_marked p : p ∈ t_alive st → marker phase p ∈ t_dir st ↔ p ∈ dom (t_at st);
  ti_names name x : name ∈ t_dir st → Sscanf (pattern phase) name = Some x → name = marker phase x;
}.

Lemma timing_start_inv st : timing_start st → timing_inv st.
Proof.
  intros (Hd & Hp & Ha). split; [done| |].
  - intros p Hin. rewrite Ha, dom_empty. split; [|set_solver]. intros H%Hd. exfalso.
    unfold other_file in H. by rewrite marker_scans in H by (by apply Hp).
  - intros name x H%Hd E. unfold other_file in H. congruence.
Qed.

Lemma timing_exec_inv l st st' : timing_inv st → timing_exec l st = Done st' → timing_inv st'.
Proof.
  intros Hinv H. destruct Hinv as [Hp Hm Hn]. destruct l as [p|p|p|p|add del]; cbn in H.
  - destruct (t_at st !! p) eqn:Ep; [done|]. case_bool_decide as Hin; [|done]. injection H as <-.
    split; cbn; [done| |].
    + intros q Hq. rewrite dom_insert, elem_of_union, elem_of_singleton, elem_of_union, elem_of_singleton, (Hm q Hq).
      split; [intros [E%marker_inj|?]; auto|intros [->|?]; auto].
    + intros name x [->%elem_of_singleton|Hin']%elem_of_union E; [|by apply Hn].
      rewrite marker_scans in E by auto. by injection E as <-.
  - destruct (t_at st !! p) as [[|]|] eqn:Ep; try done. case_bool_decide as Hin; [|done].
    apply bind_Done in H as (n & _ & H). injection H as <-. split; cbn; [done| |done].
    intros q Hq. rewrite dom_insert, (Hm q Hq). apply elem_of_dom_2 in Ep. set_solver.
  - destruct (t_at st !! p) as [[|]|] eqn:Ep; try done. case_bool_decide as Hin; [|done].
    unfold Remove in H. cbn in H. case_bool_decide; [|done]. injection H as <-. split; cbn; [done| |].
    + intros q Hq. rewrite dom_delete, !elem_of_difference, !elem_of_singleton, (Hm q Hq).
      split; intros [? Hne]; (split; [done|]); [by intros ->|]. by intros E%marker_inj.
    + intros name x [? _]%elem_of_difference. by apply Hn.
  - injection H as <-. split; cbn; [|intros q [? _]%elem_of_difference; by apply Hm|done].
    intros q [? _]%elem_of_difference. by apply Hp.
  - case_bool_decide as Ho; [|done]. injection H as <-.
    assert (∀ name, name ∈ add ∨ name ∈ del → other_file name) as Hof by (intros name ?; apply Ho; set_solver).
    split; cbn; [done| |].
    + intros q Hq. rewrite <- (Hm q Hq), elem_of_difference, elem_of_union.
      assert (¬ other_file (marker phase q)) by (unfold other_file; by rewrite marker_scans by auto).
      split; [intros [[?|?] _]; [done|exfalso; auto]|]. intros ?. split; [by left|auto].
    + intros name x [[?|?]%elem_of_union _]%elem_of_difference E; [by apply Hn|].
      assert (other_file name) as Hx by auto. unfold other_file in Hx. congruence.
Qed.

Lemma timing_run_inv ls st st' : timing_inv st → timing_run ls st = Done st' → timing_inv st'.
Proof.
  revert st. induction ls as [|l ls IH]; intros st H0 H; cbn in H; [by injection H as <-|].
  apply bind_Done in H as (st1 & H1 & H). eapply IH; [|done]. by eapply timing_exec_inv.
Qed.

Lemma timing_reach_inv st : timing_reach st → timing_inv st.
Proof. intros (st0 & ls & H0%timing_start_inv & H). by eapply timing_run_inv. Qed.

(** The files that are counted are those of [inside]. *)
Lemma counted_inside st p :
  timing_inv st →
  filter (λ n, is_counted (os_of st p) phase n = true) (t_dir st) = set_map (marker phase) (inside st).
Proof.
  intros [Hp Hm Hn]. apply set_eq. intros name. rewrite elem_of_filter, elem_of_map. unfold is_counted, inside. split.
  - intros [H Hin]. destruct (Sscanf _ name) as [x|] eqn:E; [|done]. cbn in H. apply bool_decide_eq_true in H.
    pose proof (Hn _ _ Hin E) as ->. exists x. split; [done|]. apply elem_of_intersection. split; [|done]. by apply Hm.
  - intros (x & -> & [Hx Ha]%elem_of_intersection). rewrite marker_scans by auto. cbn.
    split; [by apply bool_decide_eq_true|]. by apply Hm.
Qed.

#[local] Instance marker_Inj : Inj (=) (=) (marker phase).
Proof. intros p q. apply marker_inj. Qed.

Lemma scan_inside st p :
  (∀ d, order d ≡ₚ elements d) → timing_inv st → p ∈ inside st → Z.of_nat (size (t_dir st)) <= 1000000 →
  scan (os_of st p) phase (t_dir st) = Done (Z.of_nat (size (inside st))).
Proof.
  intros Ho Hinv [Hp Ha]%elem_of_intersection Hs. rewrite scan_spec; [|done|apply Ho| |done].
  - rewrite counted_inside by done. do 2 f_equal. unfold set_map. rewrite size_list_to_set; [by rewrite length_fmap|].
    apply (NoDup_fmap_2 _), NoDup_elements.
  - intros E. apply (ti_marked _ Hinv p Ha) in Hp. rewrite E in Hp. set_solver.
Qed.

(** *** One call among the others *)

(** The process that a step belongs to. *)
Definition mover (l : TLabel) : option Z :=
  match l with TMark p | TScan p | TUnmark p | TDie p => Some p | TFiles _ _ => None end.

(** A step of somebody else leaves the place and the life of [p] alone. *)
Lemma others_step l st st' p :
  mover l ≠ Some p → timing_exec l st = Done st' →
  t_at st' !! p = t_at st !! p ∧ (p ∈ t_alive st' ↔ p ∈ t_alive st).
Proof.
  intros Hne H. destruct l as [q|q|q|q|add del]; cbn in Hne, H;
    repeat (case_match; try done); try (apply bind_Done in H as (? & _ & H)); injection H as <-; cbn;
    try (rewrite lookup_insert_ne by congruence); try (rewrite lookup_delete_ne by congruence); try done.
  split; [done|]. rewrite elem_of_difference, elem_of_singleton. split; [tauto|]. intros ?. split; congruence.
Qed.

Lemma others_run ls st st' p :
  Forall (λ l, mover l ≠ Some p) ls → timing_run ls st = Done st' →
  t_at st' !! p = t_at st !! p ∧ (p ∈ t_alive st' ↔ p ∈ t_alive st).
Proof.
  revert st. induction ls as [|l ls IH]; intros st Hls H; cbn in H; [by injection H as <-|].
  apply Forall_cons in Hls as [Hl Hls]. apply bind_Done in H as (st1 & H1%(others_step _ _ _ p) & H); [|done].
  apply IH in H as [-> ->]; done.
Qed.

(** [p] is past the creation of its file, or past reading the directory. *)
Definition marked (p : Z) (st : Timing) : Timing :=
  mkTiming ({[marker phase p]} ∪ t_dir st) (t_alive st) (<[p := Marked]> (t_at st)).

Definition counted (p n : Z) (st : Timing) : Timing :=
  mkTiming (t_dir st) (t_alive st) (<[p := Counted n]> (t_at st)).

Lemma marked_inv p st : timing_inv st → p ∈ t_alive st → t_at st !! p = None → timing_inv (marked p st).
Proof.
  intros Hinv Hp Hat. apply (timing_exec_inv (TMark p) st); [done|]. cbn. rewrite Hat.
  by rewrite bool_decide_true.
Qed.

Lemma counted_inv p n st : timing_inv st → p ∈ dom (t_at st) → timing_inv (counted p n st).
Proof.
  intros [H1 H2 H3] Hp. split; cbn; [done| |done]. intros q Hq. rewrite dom_insert, (H2 q Hq). set_solver.
Qed.

(** What the steps [ls] of the others make of the directory they find, when the
    processes are as in [st]. *)
Definition meanwhile (ls : list TLabel) (st : Timing) (dir : gset string) : gset string :=
  match timing_run ls (mkTiming dir (t_alive st) (t_at st)) with Done st' => t_dir st' | _ => dir end.

Lemma meanwhile_run ls st st' : timing_run ls st = Done st' → meanwhile ls st (t_dir st) = t_dir st'.
Proof. intros H. unfold meanwhile. destruct st. cbn in *. by rewrite H. Qed.

End timing.

(** C30. Let the live process [p], not in [nparallel], call it in a reachable state
    [st0], with a directory of at most a million files when it is read; let the
    others take the steps [ls1] before the directory is read and [ls2] during the
    sleep, dying, files of other kinds that come and go and other workers' calls
    included, on the directory as the call has left it.  If the three system calls
    of [nparallel] succeed it reports the number of live workers that have their
    file in the directory when it is read, [p] among them, and at the end its own
    file is gone from the directory and nothing else; if one fails it panics. *)
Theorem nparallel_counts_workers phase order st0 st1 st2 ls1 ls2 p w o r :
  (∀ d, order d ≡ₚ elements d) →
  timing_reach phase order st0 → p ∈ t_alive st0 → t_at st0 !! p = None →
  Forall (λ l, mover l ≠ Some p) (ls1 ++ ls2) →
  timing_run phase order ls1 (marked phase p st0) = Done st1 → Z.of_nat (size (t_dir st1)) <= 1000000 →
  timing_run phase order ls2 (counted p (Z.of_nat (size (inside st1))) st1) = Done st2 →
  nparallel (mkOS p w o r order (λ x, bool_decide (x ∈ t_alive st1)))
      (meanwhile phase order ls1 (marked phase p st0))
      (meanwhile phase order ls2 (counted p (Z.of_nat (size (inside st1))) st1)) phase (t_dir st0) =
    (if w && o && r then Done (Z.of_nat (size (inside st1)), t_dir st2 ∖ {[marker phase p]}) else Panicked) ∧
  p ∈ inside st1 ∧ marker phase p ∈ t_dir st2.
Proof.
  intros Ho H0%timing_reach_inv Hp Hat [Hl1 Hl2]%Forall_app H1 Hs H2.
  pose proof (timing_run_inv _ _ _ _ _ (marked_inv phase order _ _ H0 Hp Hat) H1) as Hi1.
  destruct (others_run _ _ _ _ _ p Hl1 H1) as [Ha1 Hv1]. cbn in Ha1, Hv1. rewrite lookup_insert_eq in Ha1.
  assert (p ∈ inside st1) as Hin1.
  { apply elem_of_intersection. split; [by eapply elem_of_dom_2|by apply Hv1]. }
  pose proof (timing_run_inv _ _ _ _ _ (counted_inv _ p _ _ Hi1 (elem_of_dom_2 _ _ _ Ha1)) H2) as Hi2.
  destruct (others_run _ _ _ _ _ p Hl2 H2) as [Ha2 Hv2]. cbn in Ha2, Hv2. rewrite lookup_insert_eq in Ha2.
  assert (marker phase p ∈ t_dir st2) as Hm2.
  { apply (ti_marked _ _ Hi2); [by apply Hv2, Hv1|by eapply elem_of_dom_2]. }
  split; [|done]. unfold nparallel. cbn [write_ok remove_ok Getpid].
  destruct w; [|done]. cbn [WriteFile mbind outcome_bind mret outcome_ret andb].
  change ({[marker phase p]} ∪ t_dir st0) with (t_dir (marked phase p st0)).
  rewrite (meanwhile_run _ _ _ _ _ H1). destruct o; [|done].
  pose proof (scan_inside phase order st1 p Ho Hi1 Hin1 Hs) as Hscan. unfold scan, Readdirnames, os_of in *.
  cbn [open_ok listing negb] in *. apply bind_Done in Hscan as (names & -> & Hc).
  cbn [mbind outcome_bind] in *. injection Hc as Hc.
  assert (∀ r r' names n, count_alive (mkOS p true true r order (λ x, bool_decide (x ∈ t_alive st1))) phase names n =
    count_alive (mkOS p true true r' order (λ x, bool_decide (x ∈ t_alive st1))) phase names n) as Hflag.
  { intros r1 r2 ns. induction ns as [|name ns IH]; intros n; cbn; [done|]. by case_match. }
  rewrite (Hflag _ true), Hc. cbn [mbind outcome_bind mret outcome_ret].
  change (t_dir st1) with (t_dir (counted p (Z.of_nat (size (inside st1))) st1)).
  rewrite (meanwhile_run _ _ _ _ _ H2). destruct r; [|done]. cbn. unfold Remove.
  by rewrite bool_decide_true.
Qed.

(** Two workers in the same phase; the second one dies while the first sleeps, and
    an intermediate file appears. *)
Definition timing_ex (ls : list TLabel) (st : Timing) : Timing :=
  match timing_run "map" elements ls st with Done st => st | _ => st end.

Definition morning : Timing := mkTiming {["mr-worker-map-x"; "pg.txt"]} {[10; 23]} ∅.

Definition noon : Timing := timing_ex [TMark 23; TFiles {["mr-0-1"]} ∅] (marked "map" 10 morning).

Lemma nparallel_counts_workers_witness :
  nparallel (mkOS 10 true true true elements (λ x, bool_decide (x ∈ t_alive noon)))
    (meanwhile "map" elements [TMark 23; TFiles {["mr-0-1"]} ∅] (marked "map" 10 morning))
    (meanwhile "map" elements [TScan 23; TDie 23] (counted 10 2 noon)) "map" {["mr-worker-map-x"; "pg.txt"]} =
  Done (2, {["mr-worker-map-x"; "pg.txt"; "mr-worker-map-23"; "mr-0-1"]}).
Proof.
  assert (timing_start "map" morning) as H0.
  { split_and!; [by apply (bool_decide_unpack _); vm_compute|by apply (bool_decide_unpack _); vm_compute|done]. }
  destruct (nparallel_counts_workers "map" elements morning noon (timing_ex [TScan 23; TDie 23] (counted 10 2 noon))
    [TMark 23; TFiles {["mr-0-1"]} ∅] [TScan 23; TDie 23] 10 true true true) as [H _].
  - intros d. reflexivity.
  - exists morning, []. split; [exact H0|reflexivity].
  - by apply (bool_decide_unpack _); vm_compute.
  - reflexivity.
  - repeat constructor; discriminate.
  - by vm_compute.
  - by vm_compute.
  - by vm_compute.
  - change (Z.of_nat (size (inside noon))) with 2 in H. exact H.
Defined.
