(* ===== verification/MRCluster.v ===== *)
(** * A whole MapReduce job: coordinator, workers and files

    The loop of [Worker] (src/src/mr/worker.go) around the coordinator of
    MRCoordinator.v: a worker asks for a task, works on it with [mapper] or
    [reducer] on the shared files, and reports what these return.  A cluster has
    one entry per task that is with a worker; a worker that dies leaves its entry
    where it is.  A task is worked on in one step: a file of a map task appears by
    a rename, always with the same content, and a reduce task reads finished files
    only.

    The cluster refines [System], which it becomes without the files, and in
    timely histories its output files are those of the sequential program. *)

From stdpp Require Import base list numbers gmap strings pretty.
From Stdlib Require Import Lia Ascii.
From S2P Require Import Prelude MRCoordinator MRTable MRJob MRWorker MRGroup MRPipeline MRApps.

(** ** The worker's calls *)

(** The socket could not be reached, the call failed, or it returned. *)
Inductive rpc_result (A : Type) : Type :=
  | DialFailed
  | CallFailed
  | Returned (a : A).

Arguments DialFailed {A}.
Arguments CallFailed {A}.
Arguments Returned {A}.

(** [Task{}] *)
Definition zeroTask : Task := mkTask "" Map 0 0 [] "".

(** The reply stays [Task{}] when the call fails; [os.Exit] is [Panicked]. *)
Definition getTask (r : rpc_result Task) : outcome Task :=
  match r with
  | DialFailed => Panicked
  | CallFailed => mret zeroTask
  | Returned t => mret t
  end.

Section cluster.
Context {codec : KvCodec} {sort : KeySort} (A : MRApp) (dir : string).

Abbreviation outputs := (gmap string (list (string * string))).

#[local] Instance naming : Naming := dir_naming dir.

(** The switch of [Worker]: the files behind it, and the task that is reported, if
    any.  [tmp] is the name of the temporary files. *)
Definition Worker_switch (tmp : string) (task : Task) (fs : filesystem) (out : outputs)
    : outcome (filesystem * outputs * option Task) :=
  match TaskState task with
  | Map =>
      '(fs, task) ← mapper dir tmp app_map task fs;
      mret (fs, out, Some task)
  | Reduce =>
      '(lines, task) ← reducer app_reduce task fs;
      mret (fs, <[Output task := lines]> out, Some task)
  | Wait | Exit => mret (fs, out, None)
  end.

(** A worker whose call failed takes the empty reply for a map task and exits. *)
Lemma failed_call_exits tmp fs out :
  fs !! "" = None →
  (t ← getTask CallFailed; Worker_switch tmp t fs out) = Panicked ∧
  (t ← getTask DialFailed; Worker_switch tmp t fs out) = Panicked.
Proof. intros H. unfold Worker_switch, mapper. cbn. by rewrite H. Qed.

(** [cl_results] goes with [working]: what a worker that is through with its task
    reports. *)
Record Cluster : Type := mkCluster {
  cl_sys : System;
  cl_results : list (option Task);
  cl_fs : filesystem;
  cl_out : outputs;
}.

Inductive CLabel : Type :=
  | CAssign (now : Z)                     (* a worker asks for a task *)
  | CWork (k : nat) (tmp : string)        (* the worker of the k-th task handed out does it *)
  | CReport (k : nat)                     (* and reports *)
  | CProcess (k : nat)                    (* the k-th processTaskResult goroutine runs *)
  | CTimeout (now : Z) (order : list Z).  (* catchTimeOut wakes up *)

Definition cluster_exec (l : CLabel) (c : Cluster) : outcome Cluster :=
  let s := cl_sys c in
  match l with
  | CAssign now =>
      '(m, reply) ← AssignTask now (master s);
      t ← getTask (Returned reply);
      mret (match TaskState t with
            | Map | Reduce => mkCluster (mkSystem m (working s ++ [t]) (pending s)) (cl_results c ++ [None]) (cl_fs c) (cl_out c)
            | Wait | Exit => mkCluster (mkSystem m (working s) (pending s)) (cl_results c) (cl_fs c) (cl_out c)
            end)
  | CWork k tmp =>
      match working s !! k, cl_results c !! k with
      | Some t, Some None =>
          '(fs, out, r) ← Worker_switch tmp t (cl_fs c) (cl_out c);
          mret (mkCluster s (<[k := r]> (cl_results c)) fs out)
      | _, _ => Blocked
      end
  | CReport k =>
      match cl_results c !! k with
      | Some (Some t) =>
          '(m, go) ← TaskCompleted t (master s);
          mret (mkCluster (mkSystem m (delete k (working s)) (if go : bool then pending s ++ [t] else pending s))
            (delete k (cl_results c)) (cl_fs c) (cl_out c))
      | _ => Blocked
      end
  | CProcess k =>
      s ← sys_step (SProcess k) s;
      mret (mkCluster s (cl_results c) (cl_fs c) (cl_out c))
  | CTimeout now order =>
      s ← sys_step (STimeout now order) s;
      mret (mkCluster s (cl_results c) (cl_fs c) (cl_out c))
  end.

Fixpoint cluster_run (ls : list CLabel) (c : Cluster) : outcome Cluster :=
  match ls with
  | [] => mret c
  | l :: ls' => c ← cluster_exec l c; cluster_run ls' c
  end.

Definition cluster_init (files : list string) (nReduce : Z) (fs : filesystem) : outcome Cluster :=
  s ← sys_init files nReduce; mret (mkCluster s [] fs ∅).

(** ** Timely histories *)

Section job.
Context {claws : KvCodecLaws codec} {slaws : KeySortLaws sort} {law : ReduceLaw A}.
Variables (files contents : list string) (R : Z) (fs0 : filesystem).

Abbreviation path x y := (join dir (mr_name x y)).

(** A name that [TempFile] may pick. *)
Definition fresh_tmp (tmp : string) : Prop := (∀ x y, tmp ≠ path x y) ∧ tmp ∉ files.

(** The results of a task are processed when it is reported, and no result is
    late; see [timely_step]. *)
Inductive cluster_step : Cluster → Cluster → Prop :=
  | cluster_assign now c c' : cluster_exec (CAssign now) c = Done c' → cluster_step c c'
  | cluster_timeout now order c c' : cluster_exec (CTimeout now order) c = Done c' → cluster_step c c'
  | cluster_work k tmp c c' : fresh_tmp tmp → cluster_exec (CWork k tmp) c = Done c' → cluster_step c c'
  | cluster_report k t c c1 s' :
      working (cl_sys c) !! k = Some t → ¬ late (cl_sys c) t →
      cluster_exec (CReport k) c = Done c1 → settle (cl_sys c1) = Done s' →
      cluster_step c (mkCluster s' (cl_results c1) (cl_fs c1) (cl_out c1)).

Definition timely_cluster (c : Cluster) : Prop :=
  ∃ c0, cluster_init files R fs0 = Done c0 ∧ rtc cluster_step c0 c.

(** ** The invariant *)

Abbreviation N := (Z.of_nat (length files)).
Abbreviation wrote := (written dir app_map files contents R).

(** What the output file of bucket [r] must hold, up to the order of its lines. *)
Definition bucket_lines (r : Z) : list (string * string) :=
  lines_of app_reduce (filter (in_slot (hash_slot R) r) (mjoin (zip_with app_map files contents))).

Definition reduced (out : outputs) (r : Z) : Prop :=
  ∃ lines, out !! ("mr-out-" +:+ pretty r) = Some lines ∧ lines ≡ₚ bucket_lines r.

(** What the tasks that were completed left behind. *)
Definition completed_left (m : Master) (fs : filesystem) (out : outputs) : Prop :=
  match MasterPhase m with
  | Map => ∀ i, has_status (TaskMeta m) i Completed → wrote fs i
  | _ => (∀ i, 0 <= i < N → wrote fs i) ∧ ∀ r, has_status (TaskMeta m) r Completed → reduced out r
  end.

Definition worked (fs : filesystem) (out : outputs) (t t' : Task) : Prop :=
  t' = finish t ∧ (TaskState t = Map → wrote fs (TaskNumber t)) ∧ (TaskState t = Reduce → reduced out (TaskNumber t)).

Record cluster_inv (c : Cluster) : Prop := {
  ci_job : ∃ ord, job_inv files R ord (cl_sys c);
  ci_results : length (cl_results c) = length (working (cl_sys c));
  ci_worked k t t' : working (cl_sys c) !! k = Some t → cl_results c !! k = Some (Some t') →
    worked (cl_fs c) (cl_out c) t t';
  ci_readable : readable files contents (cl_fs c);
  ci_completed : completed_left (master (cl_sys c)) (cl_fs c) (cl_out c);
}.

Hypothesis HR : 0 < R.
Hypothesis Hfiles : files ≠ [].
Hypothesis Hlen : length contents = length files.
Hypothesis Hpaths : ∀ f x y, f ∈ files → f ≠ path x y.
Hypothesis Hok : ∀ i, Forall kv_ok (emitted app_map files contents i).
Hypothesis Hrd0 : readable files contents fs0.

Lemma init_cluster c : cluster_init files R fs0 = Done c → cluster_inv c.
Proof using HR Hfiles Hrd0.
  clear Hlen. intros (s & Hs & [= <-])%bind_Done. pose proof (init_inv files R HR Hfiles s Hs) as Hj.
  assert (working s = []) as Ew by (apply bind_Done in Hs as (m & _ & [= <-]); done).
  split; cbn; [by exists []|by rewrite Ew|done|done|].
  unfold completed_left. pose proof (ji_phase _ _ _ _ Hj) as Hph. unfold phase_inv in Hph.
  destruct (MasterPhase (master s)); [..|done].
  - destruct Hph as (_ & _ & _ & _ & Hord & _). by intros i ?%Hord%not_elem_of_nil.
  - destruct Hph as (_ & _ & _ & Hord & _). exfalso.
    pose proof (N_pos files Hfiles). apply Permutation_length in Hord. rewrite length_seqZ in Hord. unfold MRJob.N in *. cbn in Hord. lia.
  - destruct Hph as (_ & _ & _ & Hord & _). exfalso.
    pose proof (N_pos files Hfiles). apply Permutation_length in Hord. rewrite length_seqZ in Hord. unfold MRJob.N in *. cbn in Hord. lia.
Qed.

(** The tasks that workers hold. *)
Lemma held_task ord s t :
  job_inv files R ord s → t ∈ working s →
  (∃ i, 0 <= i < N ∧ t = the_map files R i) ∨
  (∃ r, 0 <= r < R ∧ t = the_reduce R ord r ∧ MasterPhase (master s) ≠ Map ∧ ord ≡ₚ seqZ 0 N).
Proof.
  intros Hj Hin. pose proof (ji_phase _ _ _ _ Hj) as Hph. unfold phase_inv in Hph.
  destruct (MasterPhase (master s)); [..|done].
  - destruct Hph as (_ & _ & _ & _ & _ & Hw). left. by apply (proj1 (Forall_forall _ _) Hw).
  - destruct Hph as (_ & _ & _ & Hord & Hw). rewrite Forall_forall in Hw.
    destruct (Hw t Hin) as [?|(r & ? & ?)]; [by left|right; by exists r].
  - destruct Hph as (_ & _ & _ & Hord & Hw). rewrite Forall_forall in Hw.
    destruct (Hw t Hin) as [?|(r & ? & ?)]; [by left|right; by exists r].
Qed.

(** Files and outputs only improve. *)
Lemma worked_mono fs out fs' out' t t' :
  (∀ i, 0 <= i → wrote fs i → wrote fs' i) → (∀ r, reduced out r → reduced out' r) → 0 <= TaskNumber t →
  worked fs out t t' → worked fs' out' t t'.
Proof. intros Hw Hr H0 (-> & H1 & H2). split; [done|]. auto. Qed.

Lemma completed_mono m fs out fs' out' :
  (∀ i, 0 <= i → wrote fs i → wrote fs' i) → (∀ r, reduced out r → reduced out' r) →
  (∀ i st, has_status (TaskMeta m) i st → 0 <= i) →
  completed_left m fs out → completed_left m fs' out'.
Proof.
  intros Hw Hr H0. unfold completed_left. destruct (MasterPhase m); intros H;
    try (destruct H as [H1 H2]; split; [intros i Hi; apply Hw; [lia|by apply H1]|auto]).
  intros i Hi. apply Hw; [by eapply H0|auto].
Qed.

(** A worker's task is carried out, and its report is the one of [System]. *)
Lemma switch_spec ord s tmp t fs out :
  job_inv files R ord s → t ∈ working s → fresh_tmp tmp → readable files contents fs →
  completed_left (master s) fs out →
  ∃ fs' out' t', Worker_switch tmp t fs out = Done (fs', out', Some t') ∧ worked fs' out' t t' ∧
    readable files contents fs' ∧ (∀ i, 0 <= i → wrote fs i → wrote fs' i) ∧ (∀ r, reduced out r → reduced out' r).
Proof using claws slaws law HR Hlen Hpaths Hok.
  intros Hj Hin [Ht1 Ht2] Hrd Hc. unfold Worker_switch, worked.
  destruct (held_task _ _ _ Hj Hin) as [(i & Hi & ->)|(r & Hr & -> & Hph & Hord)].
  - destruct (mapper_spec dir tmp app_map files contents R) with (i := i) (fs := fs) as (fs' & H & Hrd' & Hw & Hk); try done.
    { intros f x y Hf. split; [by apply Hpaths|]. intros ->. done. }
    change (the_map files R i) with (map_task files R i). cbn [TaskState map_task]. cbn [map_task Input] in H. rewrite H.
    cbn [mbind outcome_bind]. eexists fs', out, _. split; [done|]. split_and!; try done.
    intros j Hj0 Hwj. destruct (decide (j = i)) as [->|]; auto.
  - assert (∀ i, 0 <= i < N → wrote fs i) as Hall.
    { unfold completed_left in Hc. destruct (MasterPhase (master s)); [done|by apply Hc..]. }
    destruct (reducer_lines dir app_map app_reduce files contents R Hlen Hok reduce_perm fs r (bucket ord r))
      as (lines & H & Hl); [done|done|unfold bucket; cbn; by rewrite Hord|].
    cbn [TaskState the_reduce]. unfold the_reduce. rewrite H. cbn [mbind outcome_bind Output].
    eexists fs, _, _. split; [done|]. split_and!; try done.
    + intros _. exists lines. cbn. by rewrite lookup_insert_eq.
    + intros r' (l' & Hl' & Hp). unfold reduced. destruct (decide (r' = r)) as [->|Hne].
      * exists lines. by rewrite lookup_insert_eq.
      * exists l'. rewrite lookup_insert_ne; [done|]. intros E.
        apply (inj (String.append "mr-out-")), (inj pretty) in E. by symmetry in E.
Qed.

(** ** Steps keep the invariant *)

Lemma status_nonneg ord s i st : job_inv files R ord s → has_status (TaskMeta (master s)) i st → 0 <= i.
Proof.
  intros Hj (mt & Hm & _). pose proof (ji_phase _ _ _ _ Hj) as Hph. unfold phase_inv in Hph.
  assert (∃ mk n, table mk n (TaskMeta (master s)) (TaskQueue (master s))) as (mk & n & Ht).
  { destruct (MasterPhase (master s)); [..|done]; destruct Hph as (Ht & _); eauto. }
  apply (tb_dom _ _ _ _ Ht i). by eexists.
Qed.

Lemma held_nonneg ord s t : job_inv files R ord s → t ∈ working s → 0 <= TaskNumber t.
Proof. intros Hj Hin. destruct (held_task _ _ _ Hj Hin) as [(i & ? & ->)|(r & ? & -> & _)]; cbn; lia. Qed.

(** A worker can always carry out its task. *)
Lemma work_inv c k tmp t :
  cluster_inv c → fresh_tmp tmp → working (cl_sys c) !! k = Some t → cl_results c !! k = Some None →
  ∃ c', cluster_exec (CWork k tmp) c = Done c' ∧ cluster_inv c' ∧ cl_sys c' = cl_sys c ∧
    cl_results c' !! k = Some (Some (finish t)).
Proof using claws slaws law HR Hlen Hpaths Hok.
  intros [[ord Hj] Hl Hw Hrd Hc] Ht Hk Hr. pose proof (list_elem_of_lookup_2 _ _ _ Hk) as Hin.
  destruct (switch_spec ord _ tmp t (cl_fs c) (cl_out c) Hj Hin Ht Hrd Hc) as (fs' & out' & t' & H & Hwk & Hrd' & Hm1 & Hm2).
  cbn [cluster_exec]. rewrite Hk, Hr, H. cbn [mbind outcome_bind]. eexists. split; [done|].
  assert (<[k := Some t']> (cl_results c) !! k = Some (Some t')) as Hk' by (apply list_lookup_insert_eq; by eapply lookup_lt_Some).
  split; [|split; [done|]; cbn; rewrite Hk'; by destruct Hwk as (-> & _)].
  split; cbn; [by exists ord|by rewrite length_insert| |done|].
  - intros j u u' Hu Hu'. destruct (decide (j = k)) as [->|Hne]; [congruence|].
    rewrite list_lookup_insert_ne in Hu' by done. eapply worked_mono; [done|done| |by eapply Hw].
    eapply held_nonneg; [done|by eapply list_elem_of_lookup_2].
  - eapply completed_mono; [done|done|intros i st; by eapply status_nonneg|done].
Qed.

(** No task gets completed. *)
Definition none_completed (m m' : Master) : Prop :=
  MasterPhase m' = MasterPhase m ∧ ∀ i, has_status (TaskMeta m') i Completed → has_status (TaskMeta m) i Completed.

#[local] Instance none_completed_preorder : PreOrder none_completed.
Proof. split; [done|]. intros m1 m2 m3 [E1 H1] [E2 H2]. split; [congruence|auto]. Qed.

Lemma setStatus_none st time i m m' : setStatus st time i m = Done m' → st ≠ Completed → none_completed m m'.
Proof.
  intros (mt & Hm & [= <-])%bind_Done Hst. split; [done|]. intros j. cbn. rewrite has_status_insert.
  intros [[_ ?]|[_ ?]]; [congruence|done].
Qed.

Lemma AssignTask_none now m m' t : AssignTask now m = Done (m', t) → none_completed m m'.
Proof.
  unfold AssignTask. destruct (TaskQueue m) as [|t0 q]; [case_bool_decide; by intros [= <- _]|].
  intros (m1 & H & [= <- _])%bind_Done. by apply (setStatus_none _ _ _ (set_queue q m)) in H.
Qed.

Lemma requeue_none now order m m' : requeue now order m = Done m' → none_completed m m'.
Proof.
  revert m. induction order as [|i order IH]; intros m H; cbn in H; [by injection H as <-|].
  destruct (TaskMeta m !! i) as [mt|]; [|by apply IH]. destruct (_ && _); [|by apply IH].
  apply bind_Done in H as (m1 & H1 & H). apply bind_Done in H as (m2 & H2 & H).
  transitivity m1; [unfold send in H1; destruct (_ <? _); [by injection H1 as <-|done]|].
  transitivity m2; [by eapply setStatus_none|by apply IH].
Qed.

Lemma completed_none m m' fs out : none_completed m m' → completed_left m fs out → completed_left m' fs out.
Proof. intros [E H]. unfold completed_left. rewrite E. destruct (MasterPhase m); naive_solver. Qed.

Lemma assign_cluster now c c' :
  cluster_inv c → cluster_exec (CAssign now) c = Done c' →
  cluster_inv c' ∧ sys_step (SAssign now) (cl_sys c) = Done (cl_sys c').
Proof using HR.
  intros [[ord Hj] Hl Hw Hrd Hc] H. cbn [cluster_exec] in H. apply bind_Done in H as ([m t] & HA & [= <-]).
  set (s' := mkSystem m
    (match TaskState t with Map | Reduce => working (cl_sys c) ++ [t] | _ => working (cl_sys c) end) (pending (cl_sys c))).
  assert (sys_step (SAssign now) (cl_sys c) = Done s') as Hs by (cbn [sys_step]; by rewrite HA).
  pose proof (assign_inv files R ord now _ _ Hj Hs) as Hj'.
  pose proof (completed_none _ _ _ _ (AssignTask_none _ _ _ _ HA) Hc) as Hc'.
  assert (∀ results, (results = cl_results c ++ [None] ∧ working s' = working (cl_sys c) ++ [t] ∨
      results = cl_results c ∧ working s' = working (cl_sys c)) →
    cluster_inv (mkCluster s' results (cl_fs c) (cl_out c))) as Hinv.
  { intros results Hcase. split; cbn [cl_sys cl_results cl_fs cl_out]; [by exists ord| | |done|done].
    - destruct Hcase as [[-> ->]|[-> ->]]; [rewrite !length_app; cbn; by rewrite Hl|done].
    - intros k u u'. destruct Hcase as [[-> ->]|[-> ->]]; [|apply Hw]. intros Hu Hu'.
      apply lookup_app_Some in Hu' as [Hu'|[_ [_ ?]%list_lookup_singleton_Some]]; [|done].
      rewrite lookup_app_l in Hu by (rewrite <- Hl; by eapply lookup_lt_Some). by eapply Hw. }
  unfold s' in *. clear s'. destruct (TaskState t); (split; [apply Hinv; auto|exact Hs]).
Qed.

Lemma timeout_cluster now order c c' :
  cluster_inv c → cluster_exec (CTimeout now order) c = Done c' →
  cluster_inv c' ∧ sys_step (STimeout now order) (cl_sys c) = Done (cl_sys c').
Proof using HR.
  intros [[ord Hj] Hl Hw Hrd Hc] H. cbn [cluster_exec] in H. apply bind_Done in H as (s' & Hs & [= <-]). split; [|done].
  pose proof (timeout_inv files R ord now order _ _ Hj Hs) as Hj'.
  cbn [sys_step] in Hs. apply bind_Done in Hs as (om & Ho & [= <-]).
  split; cbn [cl_sys cl_results cl_fs cl_out working master] in *; [by exists ord|done|done|done|].
  eapply completed_none; [|done]. unfold catchTimeOut in Ho. case_bool_decide; [by injection Ho as <-|].
  apply bind_Done in Ho as (m & Hm & [= <-]). by eapply requeue_none.
Qed.

Lemma settle_working s s' : settle s = Done s' → working s' = working s.
Proof.
  unfold settle. destruct (pending s) as [|t p] eqn:E; [by intros [= <-]|]. cbn [sys_step]. rewrite E.
  intros (m & _ & [= <-])%bind_Done. done.
Qed.

(** The report of a worker that is through is the step of [System]. *)
Lemma report_exec c k t c1 :
  cluster_inv c → working (cl_sys c) !! k = Some t → cluster_exec (CReport k) c = Done c1 →
  sys_step (SComplete k) (cl_sys c) = Done (cl_sys c1) ∧ working (cl_sys c1) = delete k (working (cl_sys c)) ∧
  cl_results c1 = delete k (cl_results c) ∧ cl_fs c1 = cl_fs c ∧ cl_out c1 = cl_out c ∧
  worked (cl_fs c) (cl_out c) t (finish t).
Proof.
  intros Hi Hk H. cbn [cluster_exec] in H. destruct (cl_results c !! k) as [[t'|]|] eqn:Er; try done.
  pose proof (ci_worked _ Hi k t t' Hk Er) as Hw. assert (t' = finish t) as -> by apply Hw.
  apply bind_Done in H as ([m go] & HT & [= <-]). cbn [sys_step cl_sys cl_results cl_fs cl_out working].
  rewrite Hk, HT. done.
Qed.

(** The coordinator takes the report of every task that a worker holds. *)
Lemma held_reportable ord s t :
  job_inv files R ord s → t ∈ working s → ∃ x, TaskCompleted (finish t) (master s) = Done x.
Proof.
  intros Hj Hin. pose proof (ji_phase _ _ _ _ Hj) as Hph. unfold phase_inv in Hph.
  assert (TaskState t = MasterPhase (master s) → is_Some (TaskMeta (master s) !! TaskNumber t)) as Hknown.
  { intros E. destruct (held_task _ _ _ Hj Hin) as [(i & Hi & ->)|(r & Hr & -> & _)];
      rewrite <- E in Hph; cbn in Hph; destruct Hph as (Ht & _); by apply (tb_dom _ _ _ _ Ht). }
  assert (TaskState (finish t) = TaskState t ∧ TaskNumber (finish t) = TaskNumber t) as [E1 E2] by (by destruct t as [? []]).
  unfold TaskCompleted. rewrite E1, E2. case_bool_decide as E; [by eexists|].
  destruct (Hknown E) as [mt Hm]. rewrite Hm. cbn [of_option mbind outcome_bind].
  case_bool_decide; [by eexists|]. unfold setStatus. rewrite Hm. by eexists.
Qed.

Lemma report_possible c k t :
  cluster_inv c → working (cl_sys c) !! k = Some t → cl_results c !! k = Some (Some (finish t)) →
  ∃ c', cluster_exec (CReport k) c = Done c' ∧ (¬ late (cl_sys c) t → ∃ s', settle (cl_sys c') = Done s').
Proof using HR.
  clear Hlen. intros Hi Hk Hr. destruct (ci_job _ Hi) as [ord Hj].
  destruct (held_reportable _ _ _ Hj (list_elem_of_lookup_2 _ _ _ Hk)) as [[m go] HT].
  assert (∃ c', cluster_exec (CReport k) c = Done c') as [c' Hc] by (cbn [cluster_exec]; rewrite Hr, HT; by eexists).
  exists c'. split; [done|]. intros Hl. destruct (report_exec _ _ _ _ Hi Hk Hc) as (Hs & _).
  destruct (complete_cases _ _ _ _ _ _ Hj Hk Hl) as [Hig|[Hip [[Eph [i ->]]|[Eph [q ->]]]]].
  - destruct (complete_ignored _ _ _ _ _ _ Hj Hk Hig) as (E1 & E2 & _). rewrite Hs in E1. injection E1 as ->. by eexists.
  - destruct (complete_map files R HR ord (cl_sys c) k i) as (s1 & s' & E1 & E2 & _); [done..|].
    rewrite Hs in E1. injection E1 as ->. by eexists.
  - destruct (complete_reduce files R ord (cl_sys c) k q) as (s1 & s' & E1 & E2 & _); [done..|].
    rewrite Hs in E1. injection E1 as ->. by eexists.
Qed.

(** What is completed after the report. *)
Lemma report_completed ord s k t s1 s' fs out :
  job_inv files R ord s → working s !! k = Some t → ¬ late s t →
  sys_step (SComplete k) s = Done s1 → settle s1 = Done s' →
  worked fs out t (finish t) → completed_left (master s) fs out →
  (∃ ord', job_inv files R ord' s') ∧ completed_left (master s') fs out.
Proof using HR.
  clear Hlen. intros Hj Hk Hl H1 H2 (_ & Hwm & Hwr) Hc.
  destruct (complete_cases _ _ _ _ _ _ Hj Hk Hl) as [Hig|[Hip [[Eph [i ->]]|[Eph [r ->]]]]].
  - destruct (complete_ignored _ _ _ _ _ _ Hj Hk Hig) as (E1 & E2 & Hj'). rewrite E1 in H1. injection H1 as <-.
    rewrite E2 in H2. injection H2 as <-. by split; [exists ord|].
  - destruct (complete_map files R HR ord s k i) as (s1' & s'' & E1 & E2 & Hj' & Hm); [done..|].
    assert (s1' = s1) as -> by congruence. assert (s'' = s') as -> by congruence. split; [by eexists|].
    assert (∀ j, j ∈ ord ++ [i] → wrote fs j) as Hwrote.
    { pose proof (ji_phase _ _ _ _ Hj) as Hph. unfold phase_inv in Hph. rewrite Eph in Hph.
      destruct Hph as (_ & _ & _ & _ & Hord & _). unfold completed_left in Hc. rewrite Eph in Hc.
      intros j [?%Hord%Hc| ->%list_elem_of_singleton]%elem_of_app; [done|by apply Hwm]. }
    pose proof (ji_phase _ _ _ _ Hj') as Hph. unfold phase_inv in Hph. unfold completed_left.
    destruct Hm as [[Ep _]|[Ep Hnone]]; rewrite Ep in Hph |- *.
    + destruct Hph as (_ & _ & _ & _ & Hord & _). by intros j ?%Hord%Hwrote.
    + destruct Hph as (_ & _ & _ & Hord & _). split; [|by intros r ?%Hnone].
      intros j Hin. apply Hwrote. rewrite Hord. apply elem_of_seqZ. unfold MRJob.N. lia.
  - destruct (complete_reduce files R ord s k r) as (s1' & s'' & E1 & E2 & Hj' & Hm & Hcomp); [done..|].
    assert (s1' = s1) as -> by congruence. assert (s'' = s') as -> by congruence. split; [by eexists|].
    unfold completed_left in *. rewrite Eph in Hc. destruct Hc as [Hc1 Hc2].
    assert (∀ r', has_status (TaskMeta (master s')) r' Completed → reduced out r') as Hred.
    { intros r' [-> |?]%Hcomp; [by apply Hwr|auto]. }
    by destruct Hm as [[-> _]| ->].
Qed.

Lemma report_cluster c k t c1 s' :
  cluster_inv c → working (cl_sys c) !! k = Some t → ¬ late (cl_sys c) t →
  cluster_exec (CReport k) c = Done c1 → settle (cl_sys c1) = Done s' →
  cluster_inv (mkCluster s' (cl_results c1) (cl_fs c1) (cl_out c1)) ∧ timely_step (cl_sys c) s'.
Proof using HR.
  clear Hlen. intros Hi Hk Hl H1 H2. destruct (report_exec _ _ _ _ Hi Hk H1) as (Hs & Ew & Er & -> & -> & Hw). rewrite Er.
  split; [|by eapply timely_complete]. pose proof Hi as [[ord Hj] Hlen' Hwk Hrd Hc].
  pose proof (settle_working _ _ H2) as Ew2.
  destruct (report_completed _ _ _ _ _ _ _ _ Hj Hk Hl Hs H2 Hw Hc) as [Hj' Hc'].
  split; cbn [cl_sys cl_results cl_fs cl_out]; [done| | |done|done].
  - rewrite Ew2, Ew. rewrite !length_delete by (apply lookup_lt_is_Some; rewrite ?Hlen'; by eapply lookup_lt_Some). by rewrite Hlen'.
  - intros j u u'. rewrite Ew2, Ew. destruct (decide (j < k)%nat).
    + rewrite !list_lookup_delete_lt by done. apply Hwk.
    + rewrite !list_lookup_delete_ge by lia. apply Hwk.
Qed.

Lemma cluster_step_inv c c' :
  cluster_inv c → cluster_step c c' → cluster_inv c' ∧ rtc timely_step (cl_sys c) (cl_sys c').
Proof using claws slaws law HR Hlen Hpaths Hok.
  intros Hi Hst. destruct Hst as [now c c' H|now order c c' H|k tmp c c' Ht H|k t c c1 s' Hk Hl H1 H2].
  - destruct (assign_cluster _ _ _ Hi H) as [? Hs]. split; [done|]. eapply rtc_once, timely_assign, Hs.
  - destruct (timeout_cluster _ _ _ _ Hi H) as [? Hs]. split; [done|]. eapply rtc_once, timely_timeout, Hs.
  - pose proof H as H'. cbn [cluster_exec] in H'. destruct (working (cl_sys c) !! k) as [t|] eqn:Hk; [|done].
    destruct (cl_results c !! k) as [[]|] eqn:Hr; try done.
    destruct (work_inv _ _ _ _ Hi Ht Hk Hr) as (c2 & E & Hi2 & Es & _). assert (c2 = c') as -> by congruence.
    split; [done|]. by rewrite Es.
  - destruct (report_cluster _ _ _ _ _ Hi Hk Hl H1 H2) as [? Hs]. split; [done|]. by apply rtc_once.
Qed.

Lemma cluster_steps_inv c c' :
  cluster_inv c → rtc cluster_step c c' → cluster_inv c' ∧ rtc timely_step (cl_sys c) (cl_sys c').
Proof using claws slaws law HR Hlen Hpaths Hok.
  intros Hi Hrun. revert Hi. induction Hrun as [c|c c1 c' H _ IH]; intros Hi; [done|].
  destruct (cluster_step_inv _ _ Hi H) as [Hi1 Hs]. destruct (IH Hi1) as [? ?]. split; [done|]. by etransitivity.
Qed.

(** Without its files a timely cluster is a timely system. *)
Lemma timely_cluster_inv c : timely_cluster c → cluster_inv c ∧ timely files R (cl_sys c).
Proof using claws slaws law HR Hlen Hpaths Hok Hfiles Hrd0.
  intros (c0 & H0 & Hrun). destruct (cluster_steps_inv _ _ (init_cluster _ H0) Hrun) as [? Hs]. split; [done|].
  apply bind_Done in H0 as (s & H0 & [= <-]). by exists s.
Qed.

(** ** A cluster can follow the system *)

Lemma cluster_follows tmp c s' :
  fresh_tmp tmp → cluster_inv c → timely_step (cl_sys c) s' → ∃ c', rtc cluster_step c c' ∧ cl_sys c' = s'.
Proof using claws slaws law HR Hlen Hpaths Hok.
  intros Htmp Hi Hst. remember (cl_sys c) as s eqn:Es.
  destruct Hst as [now s s' H|now order s s' H|k t s s1 s' Hk Hl H1 H2]; subst s.
  - cbn [sys_step] in H. apply bind_Done in H as ([m t] & HA & [= <-]).
    destruct (cluster_exec (CAssign now) c) as [c'| |] eqn:E;
      [|cbn [cluster_exec] in E; rewrite HA in E; done..].
    exists c'. split; [by eapply rtc_once, cluster_assign|].
    destruct (assign_cluster _ _ _ Hi E) as [_ Hs]. cbn [sys_step] in Hs. rewrite HA in Hs. by injection Hs as <-.
  - eexists (mkCluster s' _ _ _). split; [|done]. apply rtc_once. eapply cluster_timeout.
    cbn [cluster_exec]. rewrite H. done.
  - assert (∃ c1, rtc cluster_step c c1 ∧ cluster_inv c1 ∧ cl_sys c1 = cl_sys c ∧
      cl_results c1 !! k = Some (Some (finish t))) as (c1 & Hr1 & Hi1 & Es & Hres).
    { destruct (lookup_lt_is_Some_2 (cl_results c) k) as [[t'|] Hr].
      { rewrite (ci_results _ Hi). by eapply lookup_lt_Some. }
      - exists c. split; [done|]. split; [done|]. split; [done|]. rewrite Hr.
        by destruct (ci_worked _ Hi k t t' Hk Hr) as (-> & _).
      - destruct (work_inv _ _ _ _ Hi Htmp Hk Hr) as (c1 & E & ? & ? & ?). exists c1. split; [|done].
        by eapply rtc_once, cluster_work. }
    cbn [sys_step] in H1. rewrite Hk in H1. apply bind_Done in H1 as ([m go] & HT & [= <-]).
    exists (mkCluster s' (delete k (cl_results c1)) (cl_fs c1) (cl_out c1)). split; [|done]. eapply rtc_r; [exact Hr1|].
    refine (cluster_report k t c1 (mkCluster _ (delete k (cl_results c1)) (cl_fs c1) (cl_out c1)) s' _ _ _ H2);
      [by rewrite Es|by rewrite Es|]. cbn [cluster_exec]. by rewrite Hres, Es, HT.
Qed.

Lemma cluster_follows_all tmp c s' :
  fresh_tmp tmp → cluster_inv c → rtc timely_step (cl_sys c) s' → ∃ c', rtc cluster_step c c' ∧ cl_sys c' = s'.
Proof using claws slaws law HR Hlen Hpaths Hok.
  intros Htmp Hi Hrun. remember (cl_sys c) as s eqn:Es. revert c Es Hi.
  induction Hrun as [s|s s1 s' H _ IH]; intros c -> Hi; [by exists c|].
  destruct (cluster_follows tmp c s1 Htmp Hi H) as (c1 & Hr1 & E1).
  assert (cluster_inv c1) as Hi1.
  { clear - claws slaws law HR Hlen Hpaths Hok Hi Hr1. induction Hr1 as [|c c2 c1 H _ IH]; [done|].
    apply IH. by destruct (cluster_step_inv _ _ Hi H). }
  destruct (IH c1) as (c' & Hr & E); [done|done|]. exists c'. split; [by etransitivity|done].
Qed.

(** ** The output *)

Lemma mjoin_perm {X} (f g : Z → list X) rs :
  (∀ r, r ∈ rs → f r ≡ₚ g r) → mjoin (f <$> rs) ≡ₚ mjoin (g <$> rs).
Proof.
  induction rs as [|r rs IH]; intros H; [done|]. cbn. rewrite (H r) by (by left). f_equiv. apply IH. intros x Hx. apply H. by right.
Qed.

Lemma bucket_lines_all : mjoin (bucket_lines <$> seqZ 0 R) ≡ₚ reduce_lines app_reduce (mjoin (zip_with app_map files contents)).
Proof using slaws law HR.
  clear Hlen. unfold bucket_lines. rewrite (lines_of_buckets app_reduce (hash_slot R) _ (seqZ 0 R)).
  - symmetry. apply reduce_lines_perm; [apply reduce_perm|done].
  - apply NoDup_seqZ.
  - intros kv _. apply elem_of_seqZ. pose proof (hash_slot_range R (Key kv) HR). lia.
Qed.

(** When the coordinator is done, the output files are in place. *)
Lemma done_output c :
  cluster_inv c → Done_ (master (cl_sys c)) = true →
  ∃ lines, (∀ r, 0 <= r < R → cl_out c !! ("mr-out-" +:+ pretty r) = Some (lines r)) ∧
    mjoin (lines <$> seqZ 0 R) ≡ₚ reduce_lines app_reduce (mjoin (zip_with app_map files contents)).
Proof using slaws law HR.
  clear Hlen. intros [[ord Hj] _ _ _ Hc] Hd%bool_decide_eq_true. unfold completed_left in Hc. rewrite Hd in Hc.
  pose proof (ji_phase _ _ _ _ Hj) as Hph. unfold phase_inv in Hph. rewrite Hd in Hph. destruct Hph as (_ & _ & Hall & _).
  assert (∀ r, 0 <= r < R → reduced (cl_out c) r) as Hred by (intros r Hr; by apply Hc, Hall).
  exists (λ r, default [] (cl_out c !! ("mr-out-" +:+ pretty r))). split.
  - intros r Hr. by destruct (Hred r Hr) as (l & -> & _).
  - rewrite <- bucket_lines_all. apply mjoin_perm. intros r Hr%elem_of_seqZ. cbn beta.
    destruct (Hred r) as (l & -> & Hp); [lia|done].
Qed.

End job.
End cluster.
