(* ===== verification/MRSafety.v ===== *)
(** * The guarantees of a MapReduce job

    The theorems about jobs, and the histories on which the coordinator loses
    or duplicates map output, or stops. *)

From stdpp Require Import base list numbers gmap strings pretty.
From Stdlib Require Import Lia Ascii.
From S2P Require Import Prelude MRCoordinator MRTable MRJob MRWorker MRGroup MRPipeline MRApps MRCluster.

Section guarantees.
Context {naming : Naming}.

(** C17. In a timely job every reduce task that is queued or handed out names,
    for every map task, the file of its bucket, exactly once. *)
Theorem reduce_inputs_complete files R s t :
  0 < R → files ≠ [] → timely files R s →
  t ∈ TaskQueue (master s) ++ working s → TaskState t = Reduce →
  TaskIntermediates t ≡ₚ
    (λ i, intermediateName i (TaskNumber t)) <$> seqZ 0 (Z.of_nat (length files)).
Proof.
  intros HR Hf [ord Hi]%timely_inv Ht Hst; [|done..].
  enough (∃ r, t = the_reduce R ord r ∧ ord ≡ₚ seqZ 0 (N files)) as (r & -> & Hord).
  { cbn. unfold bucket. by rewrite Hord. }
  pose proof (ji_phase _ _ _ _ Hi) as Hph. unfold phase_inv in Hph.
  apply elem_of_app in Ht. destruct (MasterPhase (master s)); [..|done].
  - destruct Hph as (Htb & _ & _ & _ & _ & Hw). exfalso. destruct Ht as [Ht|Ht].
    + destruct (tb_queue _ _ _ _ Htb) as (ids & E & _). rewrite E in Ht.
      by apply list_elem_of_fmap in Ht as (i & -> & _).
    + rewrite Forall_forall in Hw. by destruct (Hw t Ht) as (i & _ & ->).
  - destruct Hph as (Htb & _ & _ & Hord & Hw). destruct Ht as [Ht|Ht].
    + destruct (tb_queue _ _ _ _ Htb) as (ids & E & _). rewrite E in Ht.
      apply list_elem_of_fmap in Ht as (i & -> & _). eauto.
    + rewrite Forall_forall in Hw. destruct (Hw t Ht) as [(i & _ & ->)|(r & _ & ->)]; [done|eauto].
  - destruct Hph as (_ & Hq & _ & Hord & Hw). rewrite Hq in Ht.
    destruct Ht as [?%not_elem_of_nil|Ht]; [done|].
    rewrite Forall_forall in Hw. destruct (Hw t Ht) as [(i & _ & ->)|(r & _ & ->)]; [done|eauto].
Qed.

(** C18. In a timely job no request blocks or crashes the coordinator: a task
    can always be asked for, the timeout scan always completes whatever order it
    visits the table in, and every result that is not late is taken in. *)
Theorem coordinator_never_stuck files R s :
  0 < R → files ≠ [] → timely files R s →
  (∀ now, ∃ s', sys_step (SAssign now) s = Done s') ∧
  (∀ now order, ∃ s', sys_step (STimeout now order) s = Done s') ∧
  (∀ k t, working s !! k = Some t → ¬ late s t →
     ∃ s1 s', sys_step (SComplete k) s = Done s1 ∧ settle s1 = Done s').
Proof.
  intros HR Hf Hs. destruct (timely_inv files R HR Hf s Hs) as [ord Hi].
  pose proof (ji_phase _ _ _ _ Hi) as Hph. unfold phase_inv in Hph.
  assert (∃ mk n, (∀ i, TaskNumber (mk i) = i) ∧ n <= QueueCap (master s) ∧
    table mk n (TaskMeta (master s)) (TaskQueue (master s))) as (mk & n & Hnum & Hn & Ht).
  { pose proof (ji_cap _ _ _ _ Hi) as Hc. rewrite max_spec in Hc.
    destruct (MasterPhase (master s)); [exists (the_map files R), (N files)|
      exists (the_reduce R ord), R|exists (the_reduce R ord), R|done];
      (split; [done|split; [lia|apply Hph]]). }
  split_and!.
  - intros now. destruct (decide (TaskQueue (master s) = [])) as [Hq|Hq].
    + cbn. unfold AssignTask. rewrite Hq. case_bool_decide; cbn; eauto.
    + destruct (AssignTask_table mk n now _ Hnum Ht Hq) as (m' & i & HA & _).
      cbn. rewrite HA. cbn. eauto.
  - intros now order. cbn. unfold catchTimeOut. case_bool_decide; cbn; [eauto|].
    destruct (requeue_table mk n now order _ Ht Hn) as (m' & -> & _). cbn. eauto.
  - intros k t Hk Hl. destruct (complete_inv files R HR ord s k t Hi Hk Hl)
      as (s1 & s' & _ & ? & ? & _). eauto.
Qed.

(** When the coordinator of a timely job says it is done, every reduce
    task has been completed, the queue is empty and a worker that asks is told
    to exit. *)
Theorem done_means_done files R s now :
  0 < R → files ≠ [] → timely files R s → Done_ (master s) = true →
  (∀ r, 0 <= r < R → has_status (TaskMeta (master s)) r Completed) ∧
  AssignTask now (master s) = Done (master s, mkTask "" Exit 0 0 [] "").
Proof.
  intros HR Hf [ord Hi]%timely_inv Hd; [|done..]. unfold Done_ in Hd.
  apply bool_decide_eq_true in Hd. pose proof (ji_phase _ _ _ _ Hi) as Hph.
  unfold phase_inv in Hph. rewrite Hd in Hph. destruct Hph as (_ & Hq & Hall & _).
  split; [done|]. unfold AssignTask. rewrite Hq. by rewrite bool_decide_eq_true_2.
Qed.

(** A timely job can be finished from every state: whatever happened so
    far, some sequence of further steps makes the coordinator done. *)
Theorem job_can_finish files R s :
  0 < R → files ≠ [] → timely files R s →
  ∃ s', rtc timely_step s s' ∧ Done_ (master s') = true.
Proof.
  intros HR Hf Hs. destruct (timely_inv files R HR Hf s Hs) as [ord Hi].
  destruct (can_finish files R HR ord s Hi) as (s' & ? & Hp).
  exists s'. split; [done|]. unfold Done_. by apply bool_decide_eq_true_2.
Qed.

End guarantees.

(** C9. What the workers compute is the output of the sequential program: if the map
    tasks are run in any order, any number of times but each at least once, and the
    input of each reduce task then names every map task's file for its bucket
    exactly once, in any order, the lines of all output files together are those of
    [mrsequential], up to order.  Conditions: the application's [Reduce] ignores the
    order of its values, the keys and values it emits survive the JSON encoding
    ([kv_ok]), the input files can be read, and their names and that of the
    temporary files differ from those of intermediate files.  That the coordinator
    hands out such reduce inputs is shown for timely jobs only, in
    [reduce_inputs_complete]. *)
Theorem mapreduce_matches_sequential {codec : KvCodec} {sort : KeySort}
    `{!KvCodecLaws codec, !KeySortLaws sort} (A : MRApp) `{!ReduceLaw A}
    dir tmp inputs contents R sched (names : Z → list string) fs :
  0 < R → length contents = length inputs →
  (∀ x y, tmp ≠ join dir (mr_name x y)) →
  (∀ f x y, f ∈ inputs → f ≠ join dir (mr_name x y) ∧ f ≠ tmp) →
  (∀ i, Forall kv_ok (emitted app_map inputs contents i)) →
  readable inputs contents fs →
  (∀ i, i ∈ sched ↔ 0 <= i < Z.of_nat (length inputs)) →
  (∀ r, names r ≡ₚ (λ i, join dir (mr_name i r)) <$> seqZ 0 (Z.of_nat (length inputs))) →
  ∃ fs' seq_lines lines,
    run_maps dir tmp app_map inputs R sched fs = Done fs' ∧
    mrsequential app_map app_reduce inputs fs = Done seq_lines ∧
    (∀ r, 0 <= r < R → ∃ t, reducer app_reduce (mkTask "" Reduce R r (names r) "") fs' =
       Done (lines r, t)) ∧
    mjoin (lines <$> seqZ 0 R) ≡ₚ seq_lines.
Proof.
  intros HR Hlen Htmp Hp Hok Hrd Hs Hn.
  destruct (run_maps_spec dir tmp app_map inputs contents R Htmp HR Hlen Hp sched fs Hrd)
    as (fs' & Hrun & Hrd' & Hw & _); [by intros i ?%Hs|].
  exists fs'. unfold mrsequential. rewrite (seq_map_spec _ fs inputs contents Hlen Hrd). cbn [mbind outcome_bind].
  eexists. exists (λ r, match reducer app_reduce (mkTask "" Reduce R r (names r) "") fs' with
    | Done (l, _) => l | _ => [] end).
  split_and!; [done|done|..].
  - intros r Hr. cbn beta. edestruct (reducer_lines dir app_map app_reduce inputs contents R Hlen Hok
      reduce_perm fs' r (names r) Hr) as (lines & -> & _); [by intros i ?%Hs%Hw|done|]. by eexists.
  - etransitivity; [|symmetry; by apply reduce_lines_perm; [apply reduce_perm|]].
    rewrite <- (lines_of_buckets app_reduce (hash_slot R) _ (seqZ 0 R)).
    + assert (∀ rs : list Z, (∀ r, r ∈ rs → 0 <= r < R) →
        mjoin ((λ r, match reducer app_reduce (mkTask "" Reduce R r (names r) "") fs' with
          | Done (l, _) => l | _ => [] end) <$> rs) ≡ₚ
        mjoin ((λ r, lines_of app_reduce (filter (in_slot (hash_slot R) r)
          (mjoin (zip_with app_map inputs contents)))) <$> rs)) as Hgen.
      { induction rs as [|r rs IH]; intros Hrs; [done|]. cbn. f_equiv.
        - edestruct (reducer_lines dir app_map app_reduce inputs contents R Hlen Hok
            reduce_perm fs' r (names r)) as (lines & Hl & Hperm);
            [apply Hrs; by left|by intros i ?%Hs%Hw|done|]. cbn in Hl. rewrite Hl. done.
        - apply IH. intros r' Hr'. apply Hrs. by right. }
      apply Hgen. intros r Hr%elem_of_seqZ. lia.
    + apply NoDup_seqZ.
    + intros kv _. apply elem_of_seqZ. pose proof (hash_slot_range R (Key kv) HR). lia.
Qed.

(** ** Whole jobs *)

(** What a job starts from: input files that can be read and whose names differ
    from those of intermediate files, an application that emits keys and values
    that survive the encoding, and a name for temporary files. *)
Record job_setup {codec : KvCodec} (A : MRApp) (dir tmp : string) (files contents : list string) (R : Z)
    (fs : filesystem) : Prop := {
  js_reducers : 0 < R;
  js_files : files ≠ [];
  js_contents : length contents = length files;
  js_paths f x y : f ∈ files → f ≠ join dir (mr_name x y);
  js_tmp : fresh_tmp dir files tmp;
  js_encodable i : Forall kv_ok (emitted app_map files contents i);
  js_readable : readable files contents fs;
}.

Section jobs.
Context {codec : KvCodec} {sort : KeySort} {claws : KvCodecLaws codec} {slaws : KeySortLaws sort}.
Context (A : MRApp) {law : ReduceLaw A}.

(** When a timely job of coordinator and workers is done, with workers that died
    and tasks that were done repeatedly, the output file of every bucket is there,
    and the lines of all of them are those of the sequential program, up to order. *)
Theorem job_output_correct dir tmp files contents R fs c :
  job_setup A dir tmp files contents R fs → timely_cluster A dir files R fs c →
  Done_ (master (cl_sys c)) = true →
  ∃ seq_lines lines, mrsequential app_map app_reduce files fs = Done seq_lines ∧
    (∀ r, 0 <= r < R → cl_out c !! ("mr-out-" +:+ pretty r) = Some (lines r)) ∧
    mjoin (lines <$> seqZ 0 R) ≡ₚ seq_lines.
Proof using claws slaws law.
  intros [HR Hf Hlen Hp Ht Hok Hrd] Hc Hd.
  destruct (timely_cluster_inv A dir files contents R fs HR Hf Hlen Hp Hok Hrd c Hc) as [Hi _].
  destruct (done_output A dir files contents R HR c Hi Hd) as (lines & Hl & Hperm).
  eexists _, lines. split; [|done]. unfold mrsequential. by rewrite (seq_map_spec _ fs files contents Hlen Hrd).
Qed.

(** C19. Every timely job can be finished, whatever has happened to its workers: each
    task that is with a worker can be carried out, its result can then be reported
    and, unless it is late, processed by the coordinator; and some sequence of steps
    makes the coordinator done. *)
Theorem cluster_can_finish dir tmp files contents R fs c :
  job_setup A dir tmp files contents R fs → timely_cluster A dir files R fs c →
  (∀ k t, working (cl_sys c) !! k = Some t → cl_results c !! k = Some None →
     ∃ c1 c2, cluster_exec A dir (CWork k tmp) c = Done c1 ∧ cl_results c1 !! k = Some (Some (finish (naming := dir_naming dir) t)) ∧
       cluster_exec A dir (CReport k) c1 = Done c2 ∧
       (¬ late (cl_sys c) t → ∃ s', settle (naming := dir_naming dir) (cl_sys c2) = Done s')) ∧
  ∃ c', rtc (cluster_step A dir files) c c' ∧ Done_ (master (cl_sys c')) = true.
Proof using claws slaws law.
  intros [HR Hf Hlen Hp Ht Hok Hrd] Hc.
  destruct (timely_cluster_inv A dir files contents R fs HR Hf Hlen Hp Hok Hrd c Hc) as [Hi _]. split.
  - intros k t Hk Hr.
    destruct (work_inv A dir files contents R HR Hlen Hp Hok c k tmp t Hi Ht Hk Hr) as (c1 & H1 & Hi1 & Es & Hr1).
    destruct (report_possible A dir files contents R HR c1 k t Hi1) as (c2 & H2 & H3); [by rewrite Es|done|].
    rewrite Es in H3. by exists c1, c2.
  - destruct (ci_job _ _ _ _ _ _ Hi) as [ord Hj]. destruct (can_finish files R HR ord _ Hj) as (s' & Hrun & Hd).
    destruct (cluster_follows_all A dir files contents R HR Hlen Hp Hok tmp c s' Ht Hi Hrun) as (c' & ? & <-).
    exists c'. split; [done|]. by apply bool_decide_eq_true_2.
Qed.

End jobs.

(** ** Concrete histories *)

Inductive TimelyLabel : Type :=
  | TAssign (now : Z)
  | TTimeout (now : Z) (order : list Z)
  | TComplete (k : nat).

Section histories.
Context {naming : Naming}.

Definition lateb (s : System) (t : Task) : bool :=
  bool_decide (TaskState t = MasterPhase (master s)) &&
  match TaskMeta (master s) !! TaskNumber t with
  | Some mt => bool_decide (TaskStatus mt = Idle)
  | None => false
  end.

Lemma lateb_spec s t : lateb s t = false → ¬ late s t.
Proof.
  unfold lateb. intros H [E (mt & Hm & Hst)]. rewrite Hm in H.
  by rewrite !bool_decide_eq_true_2 in H.
Qed.

Definition timely_exec (l : TimelyLabel) (s : System) : outcome System :=
  match l with
  | TAssign now => sys_step (SAssign now) s
  | TTimeout now order => sys_step (STimeout now order) s
  | TComplete k =>
      match working s !! k with
      | Some t => if lateb s t then Blocked else s1 ← sys_step (SComplete k) s; settle s1
      | None => Blocked
      end
  end.

Fixpoint timely_run (ls : list TimelyLabel) (s : System) : outcome System :=
  match ls with
  | [] => mret s
  | l :: ls' => s ← timely_exec l s; timely_run ls' s
  end.

Lemma timely_exec_step l s s' : timely_exec l s = Done s' → timely_step s s'.
Proof.
  destruct l as [now|now order|k]; cbn -[sys_step]; intros H.
  - by eapply timely_assign.
  - by eapply timely_timeout.
  - destruct (working s !! k) as [t|] eqn:Hk; [|done]. destruct (lateb s t) eqn:Hl; [done|].
    apply bind_Done in H as (s1 & H1 & H2).
    eapply timely_complete; [done|by apply lateb_spec|done|done].
Qed.

Lemma timely_run_rtc ls s s' : timely_run ls s = Done s' → rtc timely_step s s'.
Proof.
  revert s. induction ls as [|l ls IH]; intros s H; cbn in H.
  - go_inv. reflexivity.
  - apply bind_Done in H as (s1 & H1 & H2). eapply rtc_l; [by eapply timely_exec_step|auto].
Qed.

(** The state after a history, [None] when a step blocks or panics. *)
Definition job_after (files : list string) (R : Z) (ls : list TimelyLabel) : outcome System :=
  s ← sys_init files R; timely_run ls s.

Lemma job_after_timely files R ls s : job_after files R ls = Done s → timely files R s.
Proof.
  intros H. apply bind_Done in H as (s0 & H0 & H1). exists s0. split; [done|].
  by eapply timely_run_rtc.
Qed.

End histories.

#[local] Instance naming : Naming := dir_naming "/w".

(** Two files, one bucket.  The worker of file 0 dies; the task is handed out
    again; then both map tasks and the reduce task are completed. *)
Definition crash_job : list TimelyLabel :=
  [TAssign 0; TTimeout 20000 [1; 0]; TAssign 20000; TAssign 20000; TComplete 1; TComplete 1; TAssign 20000].

Definition state_of (o : outcome System) : System :=
  match o with Done s => s | _ => mkSystem (mkMaster [] 0 ∅ Wait 0 [] []) [] [] end.

Definition crash_state : System := state_of (job_after ["a"; "b"] 1 crash_job).

Lemma crash_state_timely : timely ["a"; "b"] 1 crash_state.
Proof. apply (job_after_timely _ _ crash_job). vm_compute. reflexivity. Qed.

Lemma reduce_inputs_complete_witness :
  ∃ t, t ∈ TaskQueue (master crash_state) ++ working crash_state ∧ TaskState t = Reduce ∧
    TaskIntermediates t ≡ₚ (λ i, intermediateName i 0) <$> seqZ 0 2.
Proof.
  exists (mkTask "" Reduce 1 0 ["/w/mr-1-0"; "/w/mr-0-0"] "").
  assert (mkTask "" Reduce 1 0 ["/w/mr-1-0"; "/w/mr-0-0"] "" ∈
    TaskQueue (master crash_state) ++ working crash_state) as Hin.
  { refine (bool_decide_eq_true_1 _ _). vm_compute. reflexivity. }
  split; [exact Hin|]. split; [reflexivity|].
  apply (reduce_inputs_complete ["a"; "b"] 1 crash_state);
    [lia|discriminate|exact crash_state_timely|exact Hin|reflexivity].
Defined.

Lemma coordinator_never_stuck_witness :
  ∃ s', sys_step (STimeout 50000 [0]) crash_state = Done s'.
Proof.
  apply (coordinator_never_stuck ["a"; "b"] 1 crash_state);
    [lia|discriminate|exact crash_state_timely].
Defined.

Definition done_state : System := state_of (job_after ["a"; "b"] 1 (crash_job ++ [TComplete 1])).

Lemma done_state_timely : timely ["a"; "b"] 1 done_state.
Proof. apply (job_after_timely _ _ (crash_job ++ [TComplete 1])). vm_compute. reflexivity. Qed.

Lemma done_means_done_witness : has_status (TaskMeta (master done_state)) 0 Completed.
Proof.
  apply (done_means_done ["a"; "b"] 1 done_state 0);
    [lia|discriminate|exact done_state_timely|vm_compute; reflexivity|lia].
Defined.

Lemma job_can_finish_witness : ∃ s', rtc timely_step crash_state s' ∧ Done_ (master s') = true.
Proof.
  apply (job_can_finish ["a"; "b"] 1 crash_state); [lia|discriminate|exact crash_state_timely].
Defined.

(** ** A word count *)

Definition wc_inputs : list string := ["in0"; "in1"].
Definition wc_contents : list string := ["to be or not to be"; "be"].
Definition wc_fs : filesystem := <["in0" := "to be or not to be"]> (<["in1" := "be"]> ∅).

Lemma join_long x y : (5 < String.length (join "/w" (mr_name x y)))%nat.
Proof.
  unfold join, mr_name. generalize (pretty x +:+ "-" +:+ pretty y). intros s.
  change (5 < 6 + String.length s)%nat. lia.
Qed.

Lemma mapreduce_matches_sequential_witness :
  ∃ fs' seq_lines lines,
    run_maps "/w" "tmp" (app_map (MRApp := wc)) wc_inputs 2 [1; 0; 1] wc_fs = Done fs' ∧
    mrsequential (app_map (MRApp := wc)) (app_reduce (MRApp := wc)) wc_inputs wc_fs = Done seq_lines ∧
    (∀ r, 0 <= r < 2 → ∃ t, reducer (app_reduce (MRApp := wc))
       (mkTask "" Reduce 2 r ((λ i, join "/w" (mr_name i r)) <$> seqZ 0 2) "") fs' =
       Done (lines r, t)) ∧
    mjoin (lines <$> seqZ 0 2) ≡ₚ seq_lines ∧ ("be", "3") ∈ seq_lines.
Proof.
  destruct (mapreduce_matches_sequential (codec := bit_kv_codec) (sort := merge_key_sort) wc
    "/w" "tmp" wc_inputs wc_contents 2 [1; 0; 1]
    (λ r, (λ i, join "/w" (mr_name i r)) <$> seqZ 0 2) wc_fs)
    as (fs' & seq_lines & lines & H1 & H2 & H3 & H4).
  - lia.
  - reflexivity.
  - intros x y E. pose proof (join_long x y) as H. rewrite <- E in H. cbn in H. lia.
  - intros f x y Hf. pose proof (join_long x y) as H.
    assert (String.length f = 3%nat ∧ f ≠ "tmp") as [Hl Ht].
    { repeat (apply elem_of_cons in Hf as [->|Hf]; [done|]). by apply not_elem_of_nil in Hf. }
    split; [|exact Ht]. intros ->. lia.
  - intros i. apply Forall_forall. intros kv _. split; reflexivity.
  - intros [|[|k]] f c Hf Hc; cbn in Hf, Hc; [injection Hf as <-; injection Hc as <-; reflexivity..|].
    discriminate.
  - intros i. cbn. rewrite !elem_of_cons. split.
    + intros [->|[->|[->|[]%not_elem_of_nil]]]; lia.
    + intros Hi. assert (i = 0 ∨ i = 1) as [->| ->] by lia; auto.
  - intros r. reflexivity.
  - exists fs', seq_lines, lines. split; [exact H1|]. split; [exact H2|]. split; [exact H3|].
    split; [exact H4|]. vm_compute in H2. injection H2 as <-.
    refine (bool_decide_eq_true_1 _ _). vm_compute. reflexivity.
Defined.

(** *** As a job of coordinator and workers *)

Inductive JobLabel : Type :=
  | JAssign (now : Z)
  | JTimeout (now : Z) (order : list Z)
  | JWork (k : nat)
  | JReport (k : nat).

#[local] Instance wc_codec : KvCodec := bit_kv_codec.
#[local] Instance wc_sort : KeySort := merge_key_sort.

Definition job_exec (l : JobLabel) (c : Cluster) : outcome Cluster :=
  match l with
  | JAssign now => cluster_exec wc "/w" (CAssign now) c
  | JTimeout now order => cluster_exec wc "/w" (CTimeout now order) c
  | JWork k => cluster_exec wc "/w" (CWork k "tmp") c
  | JReport k =>
      match working (cl_sys c) !! k with
      | Some t =>
          if lateb (cl_sys c) t then Blocked
          else c1 ← cluster_exec wc "/w" (CReport k) c;
               s' ← settle (cl_sys c1);
               mret (mkCluster s' (cl_results c1) (cl_fs c1) (cl_out c1))
      | None => Blocked
      end
  end.

Fixpoint job_run (ls : list JobLabel) (c : Cluster) : outcome Cluster :=
  match ls with
  | [] => mret c
  | l :: ls' => c ← job_exec l c; job_run ls' c
  end.

Lemma wc_tmp : fresh_tmp "/w" wc_inputs "tmp".
Proof.
  split.
  - intros x y E. pose proof (join_long x y) as H. rewrite <- E in H. cbn in H. lia.
  - refine (bool_decide_eq_true_1 _ _). vm_compute. reflexivity.
Qed.

Lemma job_run_timely ls c c' : job_run ls c = Done c' → rtc (cluster_step wc "/w" wc_inputs) c c'.
Proof.
  revert c. induction ls as [|l ls IH]; intros c H; cbn [job_run] in H; [by injection H as <-|].
  apply bind_Done in H as (c1 & H1 & H). eapply rtc_l; [|by apply IH].
  destruct l as [now|now order|k|k]; cbn -[cluster_exec] in H1.
  - by eapply cluster_assign.
  - by eapply cluster_timeout.
  - eapply cluster_work; [apply wc_tmp|done].
  - destruct (working (cl_sys c) !! k) as [t|] eqn:Hk; [|done]. destruct (lateb (cl_sys c) t) eqn:Hl; [done|].
    apply bind_Done in H1 as (c2 & H2 & H1). apply bind_Done in H1 as (s' & Hs & [= <-]).
    eapply cluster_report; [exact Hk|by apply lateb_spec|done|done].
Qed.

Lemma wc_setup R : 0 < R → job_setup wc "/w" "tmp" wc_inputs wc_contents R wc_fs.
Proof.
  intros HR. split; [done|done|done| |apply wc_tmp| |].
  - intros f x y Hf ->. pose proof (join_long x y) as H. revert H.
    repeat (apply elem_of_cons in Hf as [->|Hf]; [cbn; lia|]). by apply not_elem_of_nil in Hf.
  - intros i. apply Forall_forall. intros kv _. split; reflexivity.
  - intros [|[|k]] f c Hf Hc; cbn in Hf, Hc; [injection Hf as <-; injection Hc as <-; reflexivity..|]. discriminate.
Qed.

(** The worker of file 0 dies and its task is handed out again; the map tasks are
    done in the other order, then both reduce tasks. *)
Definition wc_maps : list JobLabel :=
  [JAssign 0; JTimeout 20000 [1; 0]; JAssign 20000; JAssign 20000; JWork 1; JReport 1; JWork 1; JReport 1].

Definition wc_reduces : list JobLabel :=
  [JAssign 20000; JAssign 20000; JWork 2; JWork 1; JReport 2; JReport 1].

Definition wc_after (ls : list JobLabel) : outcome Cluster :=
  c ← cluster_init wc_inputs 2 wc_fs; job_run ls c.

Lemma wc_after_timely ls c : wc_after ls = Done c → timely_cluster wc "/w" wc_inputs 2 wc_fs c.
Proof. intros (c0 & H0 & H)%bind_Done. exists c0. split; [done|]. by eapply job_run_timely. Qed.

Lemma job_output_correct_witness :
  ∃ seq_lines lines c, wc_after (wc_maps ++ wc_reduces) = Done c ∧
    mrsequential (app_map (MRApp := wc)) (app_reduce (MRApp := wc)) wc_inputs wc_fs = Done seq_lines ∧
    cl_out c !! "mr-out-1" = Some (lines 1) ∧ mjoin (lines <$> seqZ 0 2) ≡ₚ seq_lines.
Proof.
  destruct (wc_after (wc_maps ++ wc_reduces)) as [c| |] eqn:E; [|vm_compute in E; done..].
  assert (Done_ (master (cl_sys c)) = true) as Hd.
  { apply (f_equal (λ o, match o with Done c => Done_ (master (cl_sys c)) | _ => false end)) in E.
    rewrite <- E. vm_compute. reflexivity. }
  destruct (job_output_correct wc "/w" "tmp" wc_inputs wc_contents 2 wc_fs c (wc_setup 2 ltac:(lia)) (wc_after_timely _ _ E) Hd)
    as (seq_lines & lines & H1 & H2 & H3).
  exists seq_lines, lines, c. split; [done|]. split; [exact H1|]. split; [exact (H2 1 ltac:(lia))|exact H3].
Defined.

Lemma cluster_can_finish_witness :
  ∃ c c', wc_after wc_maps = Done c ∧ rtc (cluster_step wc "/w" wc_inputs) c c' ∧ Done_ (master (cl_sys c')) = true.
Proof.
  destruct (wc_after wc_maps) as [c| |] eqn:E; [|vm_compute in E; done..]. exists c.
  destruct (cluster_can_finish wc "/w" "tmp" wc_inputs wc_contents 2 wc_fs c (wc_setup 2 ltac:(lia)) (wc_after_timely _ _ E))
    as [_ (c' & H1 & H2)]. exists c'. split; [reflexivity|]. split; [exact H1|exact H2].
Defined.

(** ** Histories on which the coordinator fails *)

(** The reduce task of bucket 0, as handed out. *)
Definition reduce_task (paths : list string) : Task := mkTask "" Reduce 1 0 paths "".

(** Without any crash or timeout, a job can lose map output: with two map
    tasks reported before either [processTaskResult] goroutine runs, the first
    goroutine finds all tasks completed and creates the reduce tasks; the output
    of the second map task is in none of them, and the job exits. *)
Theorem early_reduce_loses_output :
  ∃ s s', (s0 ← sys_init ["a"; "b"] 1;
           sys_run [SAssign 0; SAssign 0; SComplete 0; SComplete 0; SProcess 0; SAssign 0] s0) = Done s ∧
    working s = [reduce_task [intermediateName 0 0]] ∧
    sys_run [SComplete 0; SProcess 1] s = Done s' ∧ Done_ (master s') = true.
Proof. do 2 eexists. split; [vm_compute; reflexivity|]. split_and!; vm_compute; reflexivity. Qed.

(** A result that arrives after its task was put back in the queue lets the
    coordinator deadlock: the map task is completed while it still occupies the
    queue, and the reduce tasks no longer fit.  The send blocks with the lock
    held. *)
Theorem late_result_deadlocks :
  ∃ s t, (s0 ← sys_init ["a"] 1;
        sys_run [SAssign 0; STimeout 20000 [0]; SComplete 0] s0) = Done s ∧
    pending s = [t] ∧ processTaskResult t (master s) = Blocked.
Proof. do 2 eexists. split; [vm_compute; reflexivity|]. split; vm_compute; reflexivity. Qed.

(** The same late result can be counted twice: the queued copy of a
    completed map task is handed out again and its second result is accepted, so
    a reduce task reads one map output twice. *)
Theorem late_result_counts_twice :
  ∃ s, (s0 ← sys_init ["a"; "b"] 1;
        sys_run [SAssign 0; STimeout 20000 [0]; SComplete 0; SProcess 0; SAssign 20000;
                 SAssign 20000; SComplete 0; SProcess 0; SComplete 0; SProcess 0; SAssign 20000] s0)
       = Done s ∧
    working s = [reduce_task [intermediateName 0 0; intermediateName 1 0; intermediateName 0 0]].
Proof. eexists. split; vm_compute; reflexivity. Qed.
