(* ===== verification/Programs.v ===== *)
(** * The programs (src/src/main)

    The [main] functions: what they do with their arguments and which parts of the
    library they start.  [mrcoordinator], [mrworker] and [mrsequential] are put
    around the models of package mr; a plugin is a parameter, the function that
    opens it.  The packages that [diskvd], [lockc], [lockd], [pbc], [pbd] and
    [viewd] import are not part of the repository: a run of these programs ends, in
    the model, at the call into them, whose arguments are the result. *)

From stdpp Require Import base list numbers gmap strings pretty.
From Stdlib Require Import Lia Ascii.
From S2P Require Import Prelude Strconv MRCoordinator MRTable MRJob MRWorker MRGroup MRPipeline MRApps MRCluster MRSafety.

(** A program returns, exits with a message (without its last line end), is stopped by a panic or an exit
    inside the library, or is still running. *)
Inductive program (A : Type) : Type :=
  | Returns (a : A)
  | Exits (code : Z) (message : string)
  | Stopped
  | Running.

Arguments Returns {A}.
Arguments Exits {A}.
Arguments Stopped {A}.
Arguments Running {A}.

#[export] Instance program_ret : MRet program := λ A a, Returns a.

#[export] Instance program_bind : MBind program := λ A B f m,
  match m with
  | Returns a => f a
  | Exits code message => Exits code message
  | Stopped => Stopped
  | Running => Running
  end.

Definition lift {A} (m : outcome A) : program A :=
  match m with Done a => Returns a | Panicked => Stopped | Blocked => Running end.

Lemma program_bind_Returns {A B} (f : A → program B) (m : program A) b :
  m ≫= f = Returns b ↔ ∃ a, m = Returns a ∧ f a = Returns b.
Proof. destruct m; cbn; naive_solver. Qed.

Lemma lift_Returns {A} (m : outcome A) a : lift m = Returns a ↔ m = Done a.
Proof. destruct m; cbn; naive_solver. Qed.

(** [log.Fatalf] *)
Definition Fatalf {A} (message : string) : program A := Exits 1 message.

(** [os.Args[i]], where the length was looked at before. *)
Definition arg (args : list string) (i : nat) : string := default "" (args !! i).

(** ** The MapReduce programs *)

(** What [Lookup] finds; [SymOther] is a symbol of another type. *)
Inductive symbol : Type :=
  | SymMap (f : string → string → list KeyValue)
  | SymReduce (f : string → list string → string)
  | SymOther.

Definition plugin : Type := string → option symbol.

Definition loadPlugin (Open : string → option plugin) (filename : string)
    : program ((string → string → list KeyValue) * (string → list string → string)) :=
  match Open filename with
  | None => Fatalf ("cannot load plugin " +:+ filename)
  | Some p =>
      match p "Map" with
      | None => Fatalf ("cannot find Map in " +:+ filename)
      | Some (SymMap mapf) =>
          match p "Reduce" with
          | None => Fatalf ("cannot find Reduce in " +:+ filename)
          | Some (SymReduce reducef) => mret (mapf, reducef)
          | Some _ => Stopped
          end
      | Some _ => Stopped
      end
  end.

(** mrsequential.go has the same function again. *)
Definition mrsequential_loadPlugin (Open : string → option plugin) (filename : string)
    : program ((string → string → list KeyValue) * (string → list string → string)) := loadPlugin Open filename.

(** Plugins are built from the applications. *)
Definition plugin_of (A : MRApp) : plugin := λ name,
  if bool_decide (name = "Map") then Some (SymMap app_map)
  else if bool_decide (name = "Reduce") then Some (SymReduce app_reduce) else None.

(** The application the worker runs. *)
Definition mrworker_main (Open : string → option plugin) (args : list string) : program MRApp :=
  if negb (Nat.eqb (length args) 2) then Exits 1 "Usage: mrworker xxx.so"
  else
    '(mapf, reducef) ← loadPlugin Open (arg args 1);
    mret {| app_map := mapf; app_reduce := reducef |}.

(** The lines of mr-out-0. *)
Definition mrsequential_main {codec : KvCodec} {sort : KeySort} (Open : string → option plugin) (args : list string)
    (fs : filesystem) : program (list (string * string)) :=
  if (length args <? 3)%nat then Exits 1 "Usage: mrsequential xxx.so inputfiles..."
  else
    '(mapf, reducef) ← mrsequential_loadPlugin Open (arg args 1);
    lift (mrsequential mapf reducef (drop 2 args) fs).

(** The socket of the coordinator, for the user [uid]. *)
Definition masterSock (uid : Z) : string := "/var/tmp/824-mr-" +:+ Itoa uid.

(** An old socket is removed first; [Listen] may fail.  The sockets that can be
    dialled are the state. *)
Definition server (uid : Z) (Listen : string → bool) (socks : gset string) : program (gset string) :=
  let sockname := masterSock uid in
  let socks := socks ∖ {[sockname]} in
  if Listen sockname then mret ({[sockname]} ∪ socks) else Fatalf "listen error:".

(** [for m.Done() == false { time.Sleep(time.Second) }]: the elements of [sleeps]
    are what happens during the sleeps; the loop still runs when they are used up. *)
Fixpoint wait_done {S} (Done : S → bool) (sleeps : list (S → outcome S)) (s : S) : program S :=
  if Done s then mret s
  else match sleeps with
       | [] => Running
       | sleep :: sleeps' => s ← lift (sleep s); wait_done Done sleeps' s
       end.

(** [MakeMaster] creates the tasks and starts the server; [last] happens during the
    sleep after the loop. *)
Definition mrcoordinator_main (uid : Z) (Listen : string → bool) (socks : gset string) (args : list string)
    (fs : filesystem) (sleeps : list (Cluster → outcome Cluster)) (last : Cluster → outcome Cluster)
    : program (Cluster * gset string) :=
  if (length args <? 2)%nat then Exits 1 "Usage: mrcoordinator inputfiles..."
  else
    m ← lift (cluster_init (tail args) 10 fs);
    socks ← server uid Listen socks;
    m ← wait_done (λ c, Done_ (master (cl_sys c))) sleeps m;
    m ← lift (last m);
    mret (m, socks).

(** ** The other programs *)

(** The arguments of [diskv.StartServer] and [Setunreliable]. *)
Record diskv_args : Type := mkDiskv {
  d_gid : Z;
  d_masters : list string;
  d_replicas : list string;
  d_me : Z;
  d_unreliable : bool;
  d_dir : string;
  d_restart : bool;
}.

Definition diskvd_usage {A} : program A := Exits 1 "Usage: diskvd -g gid -m master... -s server... -i my-index -d dir".

Definition diskvd_zero : diskv_args := mkDiskv (-1) [] [] (-1) false "" false.

(** One pair of arguments; the errors of the conversions are dropped. *)
Definition diskvd_flag (a0 a1 : string) (c : diskv_args) : program diskv_args :=
  let '(mkDiskv gid masters replicas me unreliable dir restart) := c in
  if bool_decide (a0 = "-g") then mret (mkDiskv (ParseInt a1).1 masters replicas me unreliable dir restart)
  else if bool_decide (a0 = "-m") then mret (mkDiskv gid (masters ++ [a1]) replicas me unreliable dir restart)
  else if bool_decide (a0 = "-s") then mret (mkDiskv gid masters (replicas ++ [a1]) me unreliable dir restart)
  else if bool_decide (a0 = "-i") then mret (mkDiskv gid masters replicas (Atoi a1).1 unreliable dir restart)
  else if bool_decide (a0 = "-u") then mret (mkDiskv gid masters replicas me (ParseBool a1).1 dir restart)
  else if bool_decide (a0 = "-d") then mret (mkDiskv gid masters replicas me unreliable a1 restart)
  else if bool_decide (a0 = "-r") then mret (mkDiskv gid masters replicas me unreliable dir (ParseBool a1).1)
  else diskvd_usage.

(** [for i := 1; i+1 < len(os.Args); i += 2], on the arguments from [i]. *)
Fixpoint diskvd_loop (args : list string) (c : diskv_args) : program diskv_args :=
  match args with
  | a0 :: a1 :: args' => c ← diskvd_flag a0 a1 c; diskvd_loop args' c
  | _ => mret c
  end.

Definition diskvd_main (args : list string) : program diskv_args :=
  c ← diskvd_loop (tail args) diskvd_zero;
  if (d_gid c <? 0) || (d_me c <? 0) || (length (d_masters c) <? 1)%nat ||
     (Z.of_nat (length (d_replicas c)) <=? d_me c) || bool_decide (d_dir c = "")
  then diskvd_usage
  else mret c.

(** [ck.Lock(name)] or [ck.Unlock(name)] by [MakeClerk(primary, backup)]. *)
Inductive lock_call : Type :=
  | Lock (primary backup name : string)
  | Unlock (primary backup name : string).

Definition lockc_main (args : list string) : program lock_call :=
  let usage := Exits 1 "Usage: lockc -l|-u primaryport backupport lockname" in
  if (length args =? 5)%nat then
    if bool_decide (arg args 1 = "-l") then mret (Lock (arg args 2) (arg args 3) (arg args 4))
    else if bool_decide (arg args 1 = "-u") then mret (Unlock (arg args 2) (arg args 3) (arg args 4))
    else usage
  else usage.

(** [lockservice.StartServer(primary, backup, am_primary)] *)
Definition lockd_main (args : list string) : program (string * string * bool) :=
  if (length args =? 4)%nat && bool_decide (arg args 1 = "-p") then mret (arg args 2, arg args 3, true)
  else if (length args =? 4)%nat && bool_decide (arg args 1 = "-b") then mret (arg args 2, arg args 3, false)
  else Exits 1 "Usage: lockd -p|-b primaryport backupport".

(** [ck.Get(key)] or [ck.Put(key, value)] by [MakeClerk(viewport, "")]. *)
Inductive pb_call : Type :=
  | PbGet (viewport key : string)
  | PbPut (viewport key value : string).

Definition pbc_main (args : list string) : program pb_call :=
  if (length args =? 3)%nat then mret (PbGet (arg args 1) (arg args 2))
  else if (length args =? 4)%nat then mret (PbPut (arg args 1) (arg args 2) (arg args 3))
  else Exits 1 ("Usage: pbc viewport key" +:+ String (ascii_of_nat 10) "       pbc viewport key value").

(** [pbservice.StartServer(viewport, myport)] *)
Definition pbd_main (args : list string) : program (string * string) :=
  if negb (length args =? 3)%nat then Exits 1 "Usage: pbd viewport myport"
  else mret (arg args 1, arg args 2).

(** [viewservice.StartServer(port)] *)
Definition viewd_main (args : list string) : program string :=
  if negb (length args =? 2)%nat then Exits 1 "Usage: viewd port"
  else mret (arg args 1).

(** ** A job, from the command line *)

Lemma mrworker_main_Returns Open w so A :
  mrworker_main Open [w; so] = Returns A → loadPlugin Open so = Returns (@app_map A, @app_reduce A).
Proof.
  unfold mrworker_main. cbn -[loadPlugin]. unfold arg. cbn -[loadPlugin].
  intros ([mapf reducef] & H & [= <-])%program_bind_Returns. exact H.
Qed.

Lemma mrsequential_main_Returns {codec : KvCodec} {sort : KeySort} Open s so files fs mapf reducef lines :
  loadPlugin Open so = Returns (mapf, reducef) → files ≠ [] → mrsequential mapf reducef files fs = Done lines →
  mrsequential_main Open (s :: so :: files) fs = Returns lines.
Proof.
  intros Hp Hf H. unfold mrsequential_main, mrsequential_loadPlugin, arg. destruct files as [|f files]; [done|]. cbn -[loadPlugin mrsequential].
  rewrite Hp. cbn -[mrsequential]. by rewrite H.
Qed.

(** The loop ends in a state in which the coordinator is done. *)
Lemma wait_done_Returns {S} (R : S → S → Prop) (P : S → bool) sleeps s s' :
  (∀ f a b, f ∈ sleeps → f a = Done b → rtc R a b) →
  wait_done P sleeps s = Returns s' → rtc R s s' ∧ P s' = true.
Proof.
  revert s. induction sleeps as [|f fs IH]; intros s Hf H; cbn in H; destruct (P s) eqn:E;
    try (injection H as <-; split; [done|exact E]); [done|].
  apply program_bind_Returns in H as (s1 & H1%lift_Returns & H).
  destruct (IH s1) as [? ?]; [intros g a b Hg; apply Hf; by right|done|]. split; [|done].
  etransitivity; [eapply Hf; [by left|done]|done].
Qed.

Section job.
Context {codec : KvCodec} {sort : KeySort} {claws : KvCodecLaws codec} {slaws : KeySortLaws sort}.

(** What happens while the coordinator sleeps is what timely workers do: no result
    is late, and each [processTaskResult] is through before the next report. *)
Definition timely_sleep (A : MRApp) (dir : string) (files : list string) (f : Cluster → outcome Cluster) : Prop :=
  ∀ c c', f c = Done c' → rtc (cluster_step A dir files) c c'.

(** C10. The programs agree in timely jobs: when mrcoordinator returns, started on some
    input files and served by workers that loaded a plugin, mrsequential with the
    same plugin and the same files returns, ten output files are there, and their
    lines are those that mrsequential writes, up to order.  Timely: no result comes
    in after its task was given to the queue again, and the goroutine
    [processTaskResult] of a report is through before the next report.  The plugin's
    [Reduce] ignores the order of its values, and the job is as in [job_setup]. *)
Theorem coordinator_program_output A `{!ReduceLaw A} Open w so q s files dir tmp contents fs
    uid Listen socks sleeps last c socks' :
  mrworker_main Open [w; so] = Returns A →
  job_setup A dir tmp files contents 10 fs →
  Forall (timely_sleep A dir files) (last :: sleeps) →
  mrcoordinator_main uid Listen socks (q :: files) fs sleeps last = Returns (c, socks') →
  ∃ seq_lines lines, mrsequential_main Open (s :: so :: files) fs = Returns seq_lines ∧
    (∀ r, 0 <= r < 10 → cl_out c !! ("mr-out-" +:+ pretty r) = Some (lines r)) ∧
    mjoin (lines <$> seqZ 0 10) ≡ₚ seq_lines ∧ masterSock uid ∈ socks'.
Proof using claws slaws.
  intros Hw%mrworker_main_Returns [HR Hf Hlen Hp Ht Hok Hrd] [Hlast Hsl]%Forall_cons H.
  unfold mrcoordinator_main in H. destruct files as [|f0 files0] eqn:Ef; [done|]. rewrite <- Ef in *. cbn [tail] in H.
  destruct (length (q :: files) <? 2)%nat; [done|].
  apply program_bind_Returns in H as (c0 & H0%lift_Returns & H).
  apply program_bind_Returns in H as (socks1 & Hs & H).
  apply program_bind_Returns in H as (c1 & H1 & H).
  apply program_bind_Returns in H as (c2 & H2%lift_Returns%Hlast & [= <- <-]).
  apply (wait_done_Returns (cluster_step A dir files)) in H1 as [H1 Hd];
    [|intros g a b Hg; rewrite Forall_forall in Hsl; by apply Hsl].
  destruct (timely_cluster_inv A dir files contents 10 fs HR Hf Hlen Hp Hok Hrd c1) as [Hi1 _]; [by exists c0|].
  destruct (cluster_steps_inv A dir files contents 10 HR Hlen Hp Hok _ _ Hi1 H2) as [Hi2 Hsteps].
  destruct (ci_job _ _ _ _ _ _ Hi1) as [ord Hj].
  assert (Done_ (master (cl_sys c2)) = true) as Hd2.
  { apply bool_decide_eq_true_2. eapply (timely_exit files 10 HR); [exact Hj|done|]. by apply bool_decide_eq_true in Hd. }
  destruct (done_output A dir files contents 10 HR c2 Hi2 Hd2) as (lines & Hl & Hperm).
  eexists _, lines. split_and!; [|exact Hl|exact Hperm|].
  - eapply mrsequential_main_Returns; [done|done|]. unfold mrsequential.
    by rewrite (seq_map_spec _ fs files contents Hlen Hrd).
  - unfold server in Hs. destruct (Listen _); [|done]. injection Hs as <-. set_solver.
Qed.

End job.

(** Word count on two files: a second in which a worker dies and the map tasks are
    done, a second in which the ten reduce tasks are done, and one in which a worker
    is told to exit. *)
Definition ten_reduces : list JobLabel :=
  ((λ _, JAssign 20000) <$> seqZ 0 10) ++ ((λ k, JWork (Z.to_nat k)) <$> seqZ 1 10) ++ ((λ _, JReport 1) <$> seqZ 0 10).

Definition wc_Open (so : string) : option plugin := if bool_decide (so = "wc.so") then Some (plugin_of wc) else None.

Definition wc_program : program (Cluster * gset string) :=
  mrcoordinator_main 1000 (λ _, true) ∅ ("mrcoordinator" :: wc_inputs) wc_fs
    [job_run wc_maps; job_run ten_reduces] (job_run [JAssign 30000]).

Lemma coordinator_program_output_witness :
  ∃ c socks seq_lines lines, wc_program = Returns (c, socks) ∧
    mrsequential_main (codec := bit_kv_codec) (sort := merge_key_sort) wc_Open ("mrsequential" :: "wc.so" :: wc_inputs) wc_fs
      = Returns seq_lines ∧
    cl_out c !! "mr-out-1" = Some (lines 1) ∧ mjoin (lines <$> seqZ 0 10) ≡ₚ seq_lines ∧
    "/var/tmp/824-mr-1000" ∈ socks.
Proof.
  destruct wc_program as [[c socks]| | |] eqn:E; [|vm_compute in E; discriminate E..]. exists c, socks.
  destruct (coordinator_program_output (codec := bit_kv_codec) (sort := merge_key_sort) wc
    wc_Open "mrworker" "wc.so" "mrcoordinator" "mrsequential" wc_inputs "/w" "tmp" wc_contents wc_fs 1000 (λ _, true) ∅
    [job_run wc_maps; job_run ten_reduces] (job_run [JAssign 30000]) c socks) as (seq_lines & lines & H1 & H2 & H3 & H4).
  - reflexivity.
  - apply (wc_setup 10). lia.
  - repeat constructor; intros c1 c2; apply job_run_timely.
  - exact E.
  - exists seq_lines, lines. split; [reflexivity|]. split; [exact H1|]. split; [exact (H2 1 ltac:(lia))|]. split; [exact H3|exact H4].
Defined.

(** ** The flags of diskvd *)

(** What [StartServer] may be called with. *)
Definition diskv_ok (c : diskv_args) : Prop :=
  0 <= d_gid c <= maxInt64 ∧ 0 <= d_me c < Z.of_nat (length (d_replicas c)) ∧ d_me c <= maxInt64 ∧
  d_masters c ≠ [] ∧ d_dir c ≠ "".

Definition bool_text (b : bool) : string := if b then "true" else "false".

Definition diskv_flags (c : diskv_args) : list string :=
  ["-g"; pretty (d_gid c)] ++ (d_masters c ≫= λ m, ["-m"; m]) ++ (d_replicas c ≫= λ s, ["-s"; s]) ++
  ["-i"; pretty (d_me c); "-u"; bool_text (d_unreliable c); "-d"; d_dir c; "-r"; bool_text (d_restart c)].

Lemma diskvd_loop_masters ms rest gid masters replicas me u dir r :
  diskvd_loop ((ms ≫= λ m, ["-m"; m]) ++ rest) (mkDiskv gid masters replicas me u dir r) =
  diskvd_loop rest (mkDiskv gid (masters ++ ms) replicas me u dir r).
Proof.
  revert masters. induction ms as [|m ms IH]; intros masters; [by rewrite app_nil_r|].
  cbn -[bool_decide]. etransitivity; [apply IH|]. by rewrite <- app_assoc.
Qed.

Lemma diskvd_loop_replicas ss rest gid masters replicas me u dir r :
  diskvd_loop ((ss ≫= λ s, ["-s"; s]) ++ rest) (mkDiskv gid masters replicas me u dir r) =
  diskvd_loop rest (mkDiskv gid masters (replicas ++ ss) me u dir r).
Proof.
  revert replicas. induction ss as [|s ss IH]; intros replicas; [by rewrite app_nil_r|].
  cbn -[bool_decide]. etransitivity; [apply IH|]. by rewrite <- app_assoc.
Qed.

Lemma ParseBool_text b : (ParseBool (bool_text b)).1 = b.
Proof. by destruct b. Qed.

Lemma diskvd_loop_flags c :
  diskv_ok c → diskvd_loop (diskv_flags c) diskvd_zero = Returns c.
Proof.
  destruct c as [gid ms ss me u dir r]. intros ([? ?] & [? ?] & ? & _ & _). cbn [d_gid d_me d_replicas d_masters d_dir] in *.
  etransitivity; [exact (diskvd_loop_masters ms _ (ParseInt (pretty gid)).1 [] [] (-1) false "" false)|].
  etransitivity; [exact (diskvd_loop_replicas ss _ _ _ _ _ _ _ _)|].
  change (Returns (mkDiskv (ParseInt (pretty gid)).1 ms ss (ParseInt (pretty me)).1 (ParseBool (bool_text u)).1 dir
    (ParseBool (bool_text r)).1) = Returns (mkDiskv gid ms ss me u dir r)).
  by rewrite !ParseInt_pretty, !ParseBool_text by (unfold minInt64; lia).
Qed.

(** A flag leaves the numbers within the range of an int64. *)
Definition diskv_range (c : diskv_args) : Prop := d_gid c <= maxInt64 ∧ d_me c <= maxInt64.

Lemma diskvd_flag_range a0 a1 c c' : diskv_range c → diskvd_flag a0 a1 c = Returns c' → diskv_range c'.
Proof.
  intros [Hg Hm] H. destruct c. unfold diskvd_flag in H.
  repeat case_bool_decide; try done; injection H as <-; (split; [try done|try done]); apply ParseInt_range.
Qed.

Lemma diskvd_loop_range args c c' : diskv_range c → diskvd_loop args c = Returns c' → diskv_range c'.
Proof.
  revert c. induction args as [args IH] using (induction_ltof1 _ (@length string)). unfold ltof in IH.
  destruct args as [|a0 [|a1 args]]; intros c Hc H; cbn [diskvd_loop] in H; [by injection H as <-..|].
  apply program_bind_Returns in H as (c1 & H1 & H). eapply IH; [| |exact H]; [cbn; lia|]. by eapply diskvd_flag_range.
Qed.

(** diskvd starts a server only with a group, an index into the list of replicas,
    a shard master and a directory; and every such configuration can be given on
    the command line and is what the server is started with. *)
Theorem diskvd_configurations :
  (∀ args c, diskvd_main args = Returns c → diskv_ok c) ∧
  (∀ q c, diskv_ok c → diskvd_main (q :: diskv_flags c) = Returns c).
Proof.
  split.
  - intros args c (c1 & H1 & H)%program_bind_Returns.
    apply diskvd_loop_range in H1 as [? ?]; [|done..].
    destruct ((d_gid c1 <? 0) || _ || _ || _ || _) eqn:E; [done|]. injection H as <-.
    zbool. split_and!; try done; [by intros E0; rewrite E0 in *|by eapply bool_decide_eq_false_1].
  - intros q c Hc. unfold diskvd_main. cbn [tail]. rewrite diskvd_loop_flags by done. cbn [mbind program_bind].
    destruct Hc as ([? ?] & [? ?] & _ & Hm & Hd). rewrite bool_decide_eq_false_2 by done.
    destruct (d_masters c); [done|]. cbn [length Nat.ltb Nat.leb].
    destruct (Z.ltb_spec (d_gid c) 0), (Z.ltb_spec (d_me c) 0), (Z.leb_spec (Z.of_nat (length (d_replicas c))) (d_me c)); (done || lia).
Qed.
