(* ===== verification/Bitset.v ===== *)
(** * Bit sets (src/src/porcupine/bitset.go)

    A bitset is a slice of 64-bit words; [uint64] values are integers in
    [0, 2^64) and the word operations are written out at that width.  [member]
    is the set a bitset stands for; [hash] depends on that set only. *)

From stdpp Require Import base list numbers.
From Stdlib Require Import Lia.
From S2P Require Import Prelude.

Abbreviation bitset := (list Z).

Definition word_max : Z := 2 ^ 64.

Definition newBitset (bits : Z) : bitset :=
  let extra := if negb (Z.rem bits 64 =? 0) then 1 else 0 in
  let chunks := Z.quot bits 64 + extra in
  replicate (Z.to_nat chunks) 0.

Definition clone (b : bitset) : bitset := copy_into (replicate (length b) 0) b.

(** [pos] is unsigned.  Callers convert an [int]: a negative one gives a huge
    position, which no slice has; here its word has a negative index, and the
    access panics as well. *)
Definition bitsetIndex (pos : Z) : Z * Z := (pos / 64, pos mod 64).

(** [b[major] |= 1 << minor], [b[major] &^= 1 << minor] *)
Definition set (b : bitset) (pos : Z) : outcome bitset :=
  let '(major, minor) := bitsetIndex pos in
  w ← zlookup b major;
  zupdate b major (Z.lor w (Z.shiftl 1 minor mod word_max)).

Definition clear (b : bitset) (pos : Z) : outcome bitset :=
  let '(major, minor) := bitsetIndex pos in
  w ← zlookup b major;
  zupdate b major (Z.ldiff w (Z.shiftl 1 minor mod word_max)).

Definition get (b : bitset) (pos : Z) : outcome bool :=
  let '(major, minor) := bitsetIndex pos in
  w ← zlookup b major;
  mret (negb (Z.land w (Z.shiftl 1 minor mod word_max) =? 0)).

#[global] Arguments set : simpl never.
#[global] Arguments clear : simpl never.
#[global] Arguments get : simpl never.

(** [bits.OnesCount64] *)
Definition OnesCount64 (v : Z) : Z :=
  foldr (λ i n, (if Z.testbit v i then 1 else 0) + n) 0 (seqZ 0 64).

Definition popcnt (b : bitset) : Z := foldl (λ total v, total + OnesCount64 v) 0 b.

Definition hash (b : bitset) : Z := foldl Z.lxor (popcnt b mod word_max) b.

Fixpoint equals (b b2 : bitset) : bool :=
  match b, b2 with
  | [], [] => true
  | v :: b', v2 :: b2' => (v =? v2) && equals b' b2'
  | _, _ => false
  end.

(** ** Well-formed bit sets *)

Definition bitset_ok (b : bitset) : Prop := Forall (λ w, 0 <= w < word_max) b.

(** Positions the set can hold. *)
Definition in_range (b : bitset) (pos : Z) : Prop := 0 <= pos < 64 * Z.of_nat (length b).

Definition member (b : bitset) (pos : Z) : bool :=
  Z.testbit (default 0 (b !! Z.to_nat (pos / 64))) (pos mod 64).

(** A negative position is out of range. *)
Lemma get_negative b pos : pos < 0 → get b pos = Panicked.
Proof.
  intros H. unfold get, bitsetIndex. assert (pos / 64 < 0) by (apply Z.div_lt_upper_bound; lia).
  unfold zlookup. destruct (Z.ltb_spec (pos / 64) 0); [done|lia].
Qed.

Lemma in_range_major b pos :
  in_range b pos → 0 <= pos / 64 < Z.of_nat (length b) ∧ 0 <= pos mod 64 < 64.
Proof.
  unfold in_range. intros H. pose proof (Z.div_mod pos 64). pose proof (Z.mod_pos_bound pos 64).
  split; [|lia]. split; [apply Z.div_pos; lia|]. apply Z.div_lt_upper_bound; lia.
Qed.

Lemma one_shift minor : 0 <= minor < 64 → Z.shiftl 1 minor mod word_max = 2 ^ minor.
Proof.
  intros H. rewrite Z.shiftl_1_l. apply Z.mod_small. split; [lia|].
  apply Z.pow_lt_mono_r; lia.
Qed.

Lemma word_testbit w i : 0 <= w < word_max → 64 <= i → Z.testbit w i = false.
Proof.
  unfold word_max. intros Hw Hi. destruct (decide (w = 0)) as [->|Hne]; [apply Z.bits_0|].
  apply Z.bits_above_log2; [lia|]. assert (Z.log2 w < 64); [|lia]. by apply Z.log2_lt_pow2; lia.
Qed.

Lemma word_range w :
  0 <= w → (∀ i, 64 <= i → Z.testbit w i = false) → 0 <= w < word_max.
Proof.
  unfold word_max. intros Hw Hb. split; [done|]. destruct (decide (w = 0)) as [->|Hne]; [done|].
  destruct (Z.lt_ge_cases (Z.log2 w) 64) as [Hl|Hl].
  - apply Z.log2_lt_pow2 in Hl; [done|lia].
  - pose proof (Z.bit_log2 w ltac:(lia)) as H. by rewrite Hb in H.
Qed.

Lemma bitset_ok_lookup b (k : nat) w : bitset_ok b → b !! k = Some w → 0 <= w < word_max.
Proof. intros H Hk. by eapply (Forall_lookup_1 _ _ _ _ H Hk). Qed.

(** The two updates, through one lemma: a word whose bits change at [minor]. *)
Lemma update_spec b pos (f : Z → Z → Z) (v : bool) :
  bitset_ok b → in_range b pos →
  (∀ w m i, 0 <= m < 64 → 0 <= i → Z.testbit (f w (2 ^ m)) i = if decide (i = m) then v else Z.testbit w i) →
  (∀ w m, 0 <= w → 0 <= f w (2 ^ m)) →
  ∃ b', (let '(major, minor) := bitsetIndex pos in
         w ← zlookup b major; zupdate b major (f w (Z.shiftl 1 minor mod word_max))) = Done b' ∧
    length b' = length b ∧ bitset_ok b' ∧
    ∀ q, 0 <= q → member b' q = if decide (q = pos) then v else member b q.
Proof.
  intros Hok Hpos Hf Hf0. pose proof (in_range_major _ _ Hpos) as [Hma Hmi].
  unfold bitsetIndex. rewrite one_shift by done.
  destruct (zlookup_total b (pos / 64) Hma) as [w Hw]. rewrite Hw. cbn.
  rewrite (proj2 (zupdate_Done b _ _ _)) by (split; [exact Hma|reflexivity]).
  apply zlookup_Done in Hw as [_ Hw]. pose proof (bitset_ok_lookup _ _ _ Hok Hw) as Hwr.
  eexists. split; [done|]. split; [apply length_insert|]. split.
  - apply Forall_insert; [done|]. apply word_range; [apply Hf0; lia|].
    intros i Hi. rewrite Hf by lia. rewrite decide_False by lia. by apply word_testbit.
  - intros q Hq. unfold member. pose proof (Z.div_mod q 64 ltac:(lia)).
    pose proof (Z.div_mod pos 64 ltac:(lia)). pose proof (Z.mod_pos_bound q 64 ltac:(lia)).
    assert (0 <= q / 64) by (apply Z.div_pos; lia).
    destruct (decide (q / 64 = pos / 64)) as [E|E].
    + rewrite E, list_lookup_insert_eq by lia. cbn. rewrite Hf, Hw by lia.
      destruct (decide (q mod 64 = pos mod 64)), (decide (q = pos)); try done; exfalso; [lia|congruence].
    + rewrite list_lookup_insert_ne by lia. rewrite decide_False; [done|congruence].
Qed.

Lemma set_spec b pos :
  bitset_ok b → in_range b pos →
  ∃ b', set b pos = Done b' ∧ length b' = length b ∧ bitset_ok b' ∧
    ∀ q, 0 <= q → member b' q = if decide (q = pos) then true else member b q.
Proof.
  intros Hok Hpos. apply (update_spec b pos Z.lor true Hok Hpos).
  - intros w m i Hm Hi. rewrite Z.lor_spec, Z.pow2_bits_eqb by lia.
    destruct (Z.eqb_spec m i) as [->|]; case_decide; try done; by rewrite ?orb_true_r, ?orb_false_r.
  - intros w m Hw. apply Z.lor_nonneg. split; [done|]. apply Z.pow_nonneg. lia.
Qed.

Lemma clear_spec b pos :
  bitset_ok b → in_range b pos →
  ∃ b', clear b pos = Done b' ∧ length b' = length b ∧ bitset_ok b' ∧
    ∀ q, 0 <= q → member b' q = if decide (q = pos) then false else member b q.
Proof.
  intros Hok Hpos. apply (update_spec b pos Z.ldiff false Hok Hpos).
  - intros w m i Hm Hi. rewrite Z.ldiff_spec, Z.pow2_bits_eqb by lia.
    destruct (Z.eqb_spec m i) as [->|]; case_decide; try done; by rewrite ?andb_false_r, ?andb_true_r.
  - intros w m Hw. apply Z.ldiff_nonneg. by left.
Qed.

Lemma get_spec b pos : in_range b pos → get b pos = Done (member b pos).
Proof.
  intros Hpos. pose proof (in_range_major _ _ Hpos) as [Hma Hmi]. unfold get, member.
  unfold bitsetIndex. rewrite one_shift by done.
  destruct (zlookup_total b (pos / 64) Hma) as [w Hw]. rewrite Hw. cbn.
  apply zlookup_Done in Hw as [_ Hw]. rewrite Hw. cbn. f_equal.
  destruct (Z.testbit w (pos mod 64)) eqn:E.
  - apply negb_true_iff, Z.eqb_neq. intros H0. apply (f_equal (λ x, Z.testbit x (pos mod 64))) in H0.
    rewrite Z.land_spec, Z.pow2_bits_true, E, Z.bits_0 in H0 by lia. done.
  - apply negb_false_iff, Z.eqb_eq. apply Z.bits_inj'. intros i Hi.
    rewrite Z.land_spec, Z.pow2_bits_eqb, Z.bits_0 by lia.
    destruct (Z.eqb_spec (pos mod 64) i) as [<-|]; [by rewrite E|by rewrite andb_false_r].
Qed.

Lemma clone_same b : clone b = b.
Proof. apply copy_into_same. by rewrite length_replicate. Qed.

Lemma equals_spec b b2 : equals b b2 = true ↔ b = b2.
Proof.
  revert b2. induction b as [|v b IH]; intros [|v2 b2]; cbn; try done.
  rewrite andb_true_iff, Z.eqb_eq, IH. naive_solver.
Qed.

(** A bit set of [n] bits has room for the positions below [n], and is empty. *)
Lemma newBitset_spec n :
  0 <= n → bitset_ok (newBitset n) ∧ (∀ pos, 0 <= pos < n → in_range (newBitset n) pos) ∧
  ∀ pos, member (newBitset n) pos = false.
Proof.
  intros Hn. unfold newBitset. rewrite Z.rem_mod_nonneg, Z.quot_div_nonneg by lia. split_and!.
  - apply Forall_replicate. unfold word_max. lia.
  - intros pos Hpos. unfold in_range. rewrite length_replicate.
    pose proof (Z.div_mod n 64 ltac:(lia)). pose proof (Z.mod_pos_bound n 64 ltac:(lia)).
    assert (0 <= n / 64) by (apply Z.div_pos; lia).
    destruct (Z.eqb_spec (n mod 64) 0); cbn; lia.
  - intros pos. unfold member. set (k := Z.to_nat _).
    destruct (replicate _ 0 !! k) as [x|] eqn:E; cbn; [|apply Z.bits_0].
    apply lookup_replicate in E as [-> _]. apply Z.bits_0.
Qed.

(** Two bit sets of the same length with the same members are the same slice. *)
Lemma member_ext b b2 :
  bitset_ok b → bitset_ok b2 → length b = length b2 →
  (∀ pos, in_range b pos → member b pos = member b2 pos) → b = b2.
Proof.
  intros Hb Hb2 Hl H. apply list_eq. intros k.
  destruct (b !! k) as [w|] eqn:E, (b2 !! k) as [w2|] eqn:E2; try done.
  - f_equal. apply Z.bits_inj'. intros i Hi. destruct (Z.lt_ge_cases i 64) as [Hlt|Hge].
    + apply lookup_lt_Some in E as Hk. specialize (H (64 * Z.of_nat k + i)).
      unfold in_range, member in H.
      replace ((64 * Z.of_nat k + i) / 64) with (Z.of_nat k) in H
        by (rewrite Z.mul_comm, Z.div_add_l, Z.div_small; lia).
      replace ((64 * Z.of_nat k + i) mod 64) with i in H
        by (rewrite Z.add_comm, Z.mul_comm, Z.mod_add, Z.mod_small; lia).
      rewrite Nat2Z.id, E, E2 in H. cbn in H. apply H. lia.
    + rewrite !word_testbit; [done|by eapply bitset_ok_lookup in E2|done|by eapply bitset_ok_lookup in E|done].
  - apply lookup_lt_Some in E. apply lookup_ge_None in E2. lia.
  - apply lookup_ge_None in E. apply lookup_lt_Some in E2. lia.
Qed.
