(* ===== verification/PorcHeap.v ===== *)
(** * The checker's linked list (src/src/porcupine/checker.go: node, lift, unlift)

    Nodes live in a heap, a list indexed by pointers.  [linked h qs] says that
    the nodes of [qs] form a doubly linked list in that order.  [lift] takes a
    call and its return out of the list and leaves their own pointers alone;
    [unlift] puts them back where they were. *)

From stdpp Require Import base list numbers gmap.
From Stdlib Require Import Lia.
From S2P Require Import Prelude.

Abbreviation ptr := nat.

Record node (V : Type) : Type := mkNode {
  value : option V;
  match_ : option ptr;
  id : Z;
  next : option ptr;
  prev : option ptr;
}.

Arguments mkNode {V}.
Arguments value {V}.
Arguments match_ {V}.
Arguments id {V}.
Arguments next {V}.
Arguments prev {V}.

Abbreviation heap V := (list (node V)).

Section heap.
Context {V : Type}.
Implicit Types h : heap V.

Definition set_next (x : option ptr) (n : node V) : node V :=
  mkNode (value n) (match_ n) (id n) x (prev n).

Definition set_prev (x : option ptr) (n : node V) : node V :=
  mkNode (value n) (match_ n) (id n) (next n) x.

(** [p.next = x] and [p.prev = x]; a nil or dangling [p] panics. *)
Definition write_next (p : option ptr) (x : option ptr) h : outcome (heap V) :=
  p ← of_option p;
  n ← of_option (h !! p);
  mret (<[p := set_next x n]> h).

Definition write_prev (p : option ptr) (x : option ptr) h : outcome (heap V) :=
  p ← of_option p;
  n ← of_option (h !! p);
  mret (<[p := set_prev x n]> h).

(** [&node{...}] *)
Definition new_node (n : node V) h : heap V * ptr := (h ++ [n], length h).

Definition insertBefore (n : ptr) (mark : option ptr) h : outcome (heap V) :=
  match mark with
  | None => mret h
  | Some m =>
      mn ← of_option (h !! m);
      let beforeMark := prev mn in
      h ← write_prev (Some m) (Some n) h;
      h ← write_next (Some n) (Some m) h;
      match beforeMark with
      | None => mret h
      | Some b =>
          h ← write_prev (Some n) (Some b) h;
          write_next (Some b) (Some n) h
      end
  end.

(** [length(n)]; the fuel is the size of the heap. *)
Fixpoint list_length (fuel : nat) (n : option ptr) h : Z :=
  match fuel, n with
  | S fuel', Some p =>
      match h !! p with
      | Some nd => 1 + list_length fuel' (next nd) h
      | None => 0
      end
  | _, _ => 0
  end.

Definition lift (entry : ptr) h : outcome (heap V) :=
  e ← of_option (h !! entry);
  h ← write_next (prev e) (next e) h;
  h ← write_prev (next e) (prev e) h;
  let match_ := match_ e in
  mp ← of_option match_;
  m ← of_option (h !! mp);
  h ← write_next (prev m) (next m) h;
  m ← of_option (h !! mp);
  match next m with
  | None => mret h
  | Some _ => write_prev (next m) (prev m) h
  end.

Definition unlift (entry : ptr) h : outcome (heap V) :=
  e ← of_option (h !! entry);
  mp ← of_option (match_ e);
  m ← of_option (h !! mp);
  h ← write_next (prev m) (Some mp) h;
  m ← of_option (h !! mp);
  h ← (match next m with
       | None => mret h
       | Some _ => write_prev (next m) (Some mp) h
       end);
  e ← of_option (h !! entry);
  h ← write_next (prev e) (Some entry) h;
  write_prev (next e) (Some entry) h.

(** ** Linked sequences *)

Definition before (qs : list ptr) (i : nat) : option ptr :=
  match i with O => None | S j => qs !! j end.

Definition linked h (qs : list ptr) : Prop :=
  NoDup qs ∧
  ∀ i p, qs !! i = Some p → ∃ n, h !! p = Some n ∧ next n = qs !! S i ∧ prev n = before qs i.

(** What never changes: values, matches and ids. *)
Definition stat (n : node V) : option V * option ptr * Z := (value n, match_ n, id n).

Definition same_stat h h' : Prop := stat <$> h' = stat <$> h.

(** [h'] differs from [h] only in links of nodes of [qs]. *)
Definition local_to (qs : list ptr) h h' : Prop :=
  same_stat h h' ∧ ∀ p, p ∉ qs → h' !! p = h !! p.

#[export] Instance local_to_preorder qs : PreOrder (local_to qs).
Proof.
  split; unfold local_to, same_stat.
  - intros h. done.
  - intros a b c [H1 H2] [H3 H4]. split; [congruence|]. intros p Hp. rewrite H4, H2; done.
Qed.

Lemma local_to_mono qs qs' h h' : (∀ p, p ∈ qs → p ∈ qs') → local_to qs h h' → local_to qs' h h'.
Proof. intros Hs [H1 H2]. split; [done|]. intros p Hp. apply H2. intros ?%Hs. done. Qed.

Lemma local_insert qs h p n n' :
  p ∈ qs → h !! p = Some n → stat n' = stat n → local_to qs h (<[p := n']> h).
Proof.
  intros Hp Hn Hs. split.
  - unfold same_stat. rewrite list_fmap_insert, Hs. apply list_insert_id.
    by rewrite list_lookup_fmap, Hn.
  - intros q Hq. apply list_lookup_insert_ne. congruence.
Qed.

Lemma write_next_local qs h p x n :
  p ∈ qs → h !! p = Some n →
  write_next (Some p) x h = Done (<[p := set_next x n]> h) ∧
  local_to qs h (<[p := set_next x n]> h).
Proof. intros Hp Hn. unfold write_next. cbn. rewrite Hn. split; [done|]. by eapply local_insert. Qed.

Lemma write_prev_local qs h p x n :
  p ∈ qs → h !! p = Some n →
  write_prev (Some p) x h = Done (<[p := set_prev x n]> h) ∧
  local_to qs h (<[p := set_prev x n]> h).
Proof. intros Hp Hn. unfold write_prev. cbn. rewrite Hn. split; [done|]. by eapply local_insert. Qed.

(** ** Taking one node out and putting it back *)

(** The two assignments that take [p] out, and the two that put it back; the
    second is skipped at the end of the list. *)
Definition unlink (n : node V) h : outcome (heap V) :=
  h ← write_next (prev n) (next n) h;
  match next n with None => mret h | Some _ => write_prev (next n) (prev n) h end.

Definition relink (p : ptr) (n : node V) h : outcome (heap V) :=
  h ← write_next (prev n) (Some p) h;
  match next n with None => mret h | Some _ => write_prev (next n) (Some p) h end.

(** The links of a node that sits at position [i] of [qs]. *)
Definition placed (qs : list ptr) (i : nat) (n : node V) : Prop :=
  next n = qs !! S i ∧ prev n = before qs i.

Lemma lookup_nodup (qs : list ptr) i j p : NoDup qs → qs !! i = Some p → qs !! j = Some p → i = j.
Proof. intros Hnd Hi Hj. by eapply NoDup_lookup. Qed.

Lemma before_delete qs i j :
  before (delete i qs) j = if decide (j <= i)%nat then before qs j else before qs (S j).
Proof.
  destruct j as [|j]; cbn; [done|]. case_decide.
  - by rewrite list_lookup_delete_lt by lia.
  - by rewrite list_lookup_delete_ge by lia.
Qed.

Lemma delete_nodup (qs : list ptr) i : NoDup qs → NoDup (delete i qs).
Proof. intros H. eapply sublist_NoDup; [done|apply sublist_delete]. Qed.

(** After the first assignment only the [prev] of the next node is wrong. *)
Lemma unlink_half h qs i p a na (n : node V) :
  linked h qs → qs !! S i = Some p → qs !! i = Some a → h !! a = Some na → next n = qs !! S (S i) →
  ∀ j q, delete (S i) qs !! j = Some q →
    ∃ n1, <[a := set_next (next n) na]> h !! q = Some n1 ∧ next n1 = delete (S i) qs !! S j ∧
      (prev n1 = before (delete (S i) qs) j ∨ j = S i ∧ prev n1 = Some p).
Proof.
  intros [Hnd Hl] Hi Ha Hna Hnx j q Hq. destruct (Hl _ _ Ha) as (na' & Hna' & Hnna & Hpna).
  assert (na' = na) as -> by congruence.
  assert (delete (S i) qs !! i = Some a) as Ha' by (by rewrite list_lookup_delete_lt by lia).
  destruct (decide (j = i)) as [->|Hji].
  { assert (q = a) as -> by congruence. exists (set_next (next n) na). split_and!.
    - apply list_lookup_insert_eq. by eapply lookup_lt_Some.
    - cbn. rewrite Hnx. by rewrite list_lookup_delete_ge by lia.
    - left. cbn. rewrite Hpna, before_delete. by rewrite decide_True by lia. }
  assert (q ≠ a) as Hqa by (intros ->; apply Hji; eapply lookup_nodup; [by apply delete_nodup|done|done]).
  rewrite list_lookup_insert_ne by done. destruct (decide (j < S i)%nat).
  - rewrite list_lookup_delete_lt in Hq by lia. destruct (Hl _ _ Hq) as (nq & ? & ? & ?). exists nq. split_and!.
    + done.
    + by rewrite list_lookup_delete_lt by lia.
    + left. rewrite before_delete. by rewrite decide_True by lia.
  - rewrite list_lookup_delete_ge in Hq by lia. destruct (Hl _ _ Hq) as (nq & ? & ? & Hb). exists nq. split_and!.
    + done.
    + by rewrite list_lookup_delete_ge by lia.
    + destruct (decide (j = S i)) as [->|]; [right; by rewrite Hb|].
      left. rewrite before_delete. by rewrite decide_False by lia.
Qed.

Lemma unlink_spec h qs i p n :
  linked h qs → qs !! S i = Some p → h !! p = Some n →
  ∃ h', unlink n h = Done h' ∧ linked h' (delete (S i) qs) ∧ local_to (delete (S i) qs) h h'.
Proof.
  intros [Hnd Hl] Hi Hn. destruct (Hl _ _ Hi) as (n0 & Hn0 & Hnx & Hpv).
  assert (n0 = n) as -> by congruence. cbn in Hpv.
  destruct (lookup_lt_is_Some_2 qs i) as [a Ha]; [apply lookup_lt_Some in Hi; lia|].
  destruct (Hl _ _ Ha) as (na & Hna & Hnna & Hpna). unfold unlink. rewrite Hpv, Ha.
  set (qs' := delete (S i) qs).
  assert (qs' !! i = Some a) as Ha' by (subst qs'; rewrite list_lookup_delete_lt by lia; done).
  destruct (write_next_local qs' h a (next n) na) as [-> L1]; [by eapply list_elem_of_lookup_2|done|].
  cbn. set (h1 := <[a := _]> h) in *.
  pose proof (unlink_half h qs i p a na n (conj Hnd Hl) Hi Ha Hna Hnx) as H1. fold h1 qs' in H1.
  destruct (next n) as [b|] eqn:Enx.
  2:{ exists h1. split; [done|]. split; [|done]. split; [by apply delete_nodup|].
      intros j q Hq. destruct (H1 j q Hq) as (n1 & ? & ? & [?|[-> _]]); [eauto|].
      exfalso. subst qs'. rewrite list_lookup_delete_ge in Hq by lia. congruence. }
  assert (qs' !! S i = Some b) as Hb by (subst qs'; rewrite list_lookup_delete_ge by lia; done).
  destruct (H1 _ _ Hb) as (nb & Hnb & Hnnb & _).
  destruct (write_prev_local qs' h1 b (Some a) nb) as [-> L2]; [by eapply list_elem_of_lookup_2|done|].
  eexists. split; [done|]. split; [|by etransitivity]. split; [by apply delete_nodup|].
  intros j q Hq. destruct (decide (q = b)) as [->|Hqb].
  - assert (j = S i) as -> by (eapply lookup_nodup; [by apply delete_nodup|done|done]).
    exists (set_prev (Some a) nb). split_and!; [|done|by cbn; rewrite Ha'].
    apply list_lookup_insert_eq. by eapply lookup_lt_Some.
  - destruct (H1 j q Hq) as (n1 & ? & ? & [?|[-> _]]); [|congruence].
    exists n1. rewrite list_lookup_insert_ne by done. done.
Qed.

Lemma relink_half h qs i p a na :
  NoDup qs → linked h (delete (S i) qs) → qs !! S i = Some p → qs !! i = Some a → h !! a = Some na →
  ∀ j q, qs !! j = Some q → j ≠ S i →
    ∃ n1, <[a := set_next (Some p) na]> h !! q = Some n1 ∧ next n1 = qs !! S j ∧
      (prev n1 = before qs j ∨ j = S (S i)).
Proof.
  intros Hnd [_ Hl] Hi Ha Hna j q Hq Hj.
  assert (delete (S i) qs !! i = Some a) as Ha' by (by rewrite list_lookup_delete_lt by lia).
  destruct (Hl _ _ Ha') as (na' & Hna' & _ & Hpna). assert (na' = na) as -> by congruence.
  destruct (decide (j = i)) as [->|Hji].
  { assert (q = a) as -> by congruence. exists (set_next (Some p) na). split_and!.
    - apply list_lookup_insert_eq. by eapply lookup_lt_Some.
    - done.
    - left. cbn. rewrite Hpna, before_delete. by rewrite decide_True by lia. }
  assert (q ≠ a) as Hqa by (intros ->; apply Hji; by eapply lookup_nodup).
  rewrite list_lookup_insert_ne by done. destruct (decide (j < S i)%nat).
  - destruct (Hl j q) as (nq & ? & Hnn & Hpp); [by rewrite list_lookup_delete_lt by lia|]. exists nq. split_and!.
    + done.
    + rewrite Hnn. by rewrite list_lookup_delete_lt by lia.
    + left. rewrite Hpp, before_delete. by rewrite decide_True by lia.
  - destruct j as [|j]; [lia|].
    destruct (Hl j q) as (nq & ? & Hnn & Hpp); [by rewrite list_lookup_delete_ge by lia|]. exists nq. split_and!.
    + done.
    + rewrite Hnn. by rewrite list_lookup_delete_ge by lia.
    + destruct (decide (j = S i)) as [->|]; [by right|left]. rewrite Hpp, before_delete.
      by rewrite decide_False by lia.
Qed.

Lemma relink_spec h qs i p n :
  NoDup qs → linked h (delete (S i) qs) → qs !! S i = Some p → h !! p = Some n →
  placed qs (S i) n →
  ∃ h', relink p n h = Done h' ∧ linked h' qs ∧ local_to (delete (S i) qs) h h'.
Proof.
  intros Hnd [_ Hl] Hi Hn [Hnx Hpv]. cbn in Hpv. set (qs' := delete (S i) qs) in *.
  destruct (lookup_lt_is_Some_2 qs i) as [a Ha]; [apply lookup_lt_Some in Hi; lia|].
  assert (qs' !! i = Some a) as Ha' by (subst qs'; rewrite list_lookup_delete_lt by lia; done).
  assert (p ∉ qs') as Hp.
  { intros [j Hj]%list_elem_of_lookup. subst qs'. destruct (decide (j < S i)%nat).
    - rewrite list_lookup_delete_lt in Hj by lia. assert (j = S i); [by eapply lookup_nodup|lia].
    - rewrite list_lookup_delete_ge in Hj by lia. assert (S j = S i); [by eapply lookup_nodup|lia]. }
  destruct (Hl _ _ Ha') as (na & Hna & Hnna & Hpna). unfold relink. rewrite Hpv, Ha.
  destruct (write_next_local qs' h a (Some p) na) as [-> L1]; [by eapply list_elem_of_lookup_2|done|].
  cbn. set (h1 := <[a := _]> h) in *.
  assert (h1 !! p = Some n) as Hn1.
  { destruct L1 as [_ L1]. by rewrite L1. }
  pose proof (relink_half h qs i p a na Hnd (conj (delete_nodup _ _ Hnd) Hl) Hi Ha Hna) as H1. fold h1 in H1.
  destruct (next n) as [b|] eqn:Enx.
  2:{ exists h1. split; [done|]. split; [|done]. split; [done|].
      intros j q Hq. destruct (decide (j = S i)) as [->|Hj].
      - assert (q = p) as -> by congruence. exists n. rewrite Enx. done.
      - destruct (H1 j q Hq Hj) as (n1 & ? & ? & [?| ->]); [eauto|congruence]. }
  symmetry in Hnx. destruct (H1 (S (S i)) b Hnx) as (nb & Hnb & Hnnb & _); [lia|].
  assert (b ∈ qs') as Hbin.
  { apply list_elem_of_lookup. exists (S i). subst qs'. by rewrite list_lookup_delete_ge by lia. }
  destruct (write_prev_local qs' h1 b (Some p) nb) as [-> L2]; [done|done|].
  eexists. split; [done|]. split; [|by etransitivity]. split; [done|].
  intros j q Hq. destruct (decide (q = b)) as [->|Hqb].
  - assert (j = S (S i)) as -> by (by eapply lookup_nodup).
    exists (set_prev (Some p) nb). split_and!; [|done|done].
    apply list_lookup_insert_eq. by eapply lookup_lt_Some.
  - destruct (decide (j = S i)) as [->|Hj].
    + assert (q = p) as -> by congruence. exists n.
      rewrite list_lookup_insert_ne by (intros ->; done). rewrite Enx. done.
    + destruct (H1 j q Hq Hj) as (n1 & ? & ? & [?| ->]); [|congruence].
      exists n1. rewrite list_lookup_insert_ne by done. done.
Qed.

(** ** [lift] and [unlift] *)

Lemma write_next_other p x h h' q :
  write_next p x h = Done h' → p ≠ Some q → h' !! q = h !! q.
Proof.
  unfold write_next. intros H Hne. go_inv. apply list_lookup_insert_ne. congruence.
Qed.

Lemma linked_not_self h qs i p n :
  NoDup qs → qs !! i = Some p → placed qs i n → prev n ≠ Some p.
Proof.
  intros Hnd Hi [_ Hpv] Hself. destruct i as [|i]; cbn in Hpv; [congruence|].
  rewrite Hself in Hpv. symmetry in Hpv. pose proof (lookup_nodup _ _ _ _ Hnd Hi Hpv). lia.
Qed.

Lemma linked_placed h qs i p :
  linked h qs → qs !! i = Some p → ∃ n, h !! p = Some n ∧ placed qs i n.
Proof. intros [_ Hl] Hi. destruct (Hl _ _ Hi) as (n & ? & ? & ?). by exists n. Qed.

Lemma delete_notin (qs : list ptr) i p : NoDup qs → qs !! i = Some p → p ∉ delete i qs.
Proof.
  intros Hnd Hi [j Hj]%list_elem_of_lookup. destruct (decide (j < i)%nat).
  - rewrite list_lookup_delete_lt in Hj by lia. pose proof (lookup_nodup _ _ _ _ Hnd Hi Hj). lia.
  - rewrite list_lookup_delete_ge in Hj by lia. pose proof (lookup_nodup _ _ _ _ Hnd Hi Hj). lia.
Qed.

Lemma delete_incl (qs : list ptr) i p : p ∈ delete i qs → p ∈ qs.
Proof.
  rewrite delete_take_drop, elem_of_app. intros [H|H].
  - eapply elem_of_take in H as (j & H & _). by eapply list_elem_of_lookup_2.
  - apply list_elem_of_lookup in H as [j H]. rewrite lookup_drop in H. by eapply list_elem_of_lookup_2.
Qed.

(** Where the nodes of call [e] (at [S i]) and return [m] (at [S (S j)]) are
    remembered while they are out of the list. *)
Definition lifted h (qs : list ptr) (i j : nat) (e m : ptr) : Prop :=
  (∃ n, h !! e = Some n ∧ placed qs (S i) n ∧ match_ n = Some m) ∧
  (∃ n, h !! m = Some n ∧ placed (delete (S i) qs) (S j) n).

Lemma lift_spec h qs i j e m n :
  linked h qs → qs !! S i = Some e → qs !! S (S j) = Some m → (i <= j)%nat →
  h !! e = Some n → match_ n = Some m →
  ∃ h', lift e h = Done h' ∧ linked h' (delete (S j) (delete (S i) qs)) ∧
    lifted h' qs i j e m ∧ local_to qs h h'.
Proof.
  intros Hl He Hm Hij Hn Hmt. pose proof (proj1 Hl) as Hnd.
  destruct (linked_placed _ _ _ _ Hl He) as (n0 & Hn0 & Hpl). assert (n0 = n) as -> by congruence.
  destruct (unlink_spec h qs i e n Hl He Hn) as (h1 & H1 & Hl1 & L1).
  set (qs1 := delete (S i) qs) in *.
  assert (qs1 !! S j = Some m) as Hm1 by (subst qs1; by rewrite list_lookup_delete_ge by lia).
  destruct (linked_placed _ _ _ _ Hl1 Hm1) as (nm & Hnm & Hplm).
  destruct (unlink_spec h1 qs1 j m nm Hl1 Hm1 Hnm) as (h2 & H2 & Hl2 & L2).
  assert (e ∉ qs1) as He1 by (by apply delete_notin).
  assert (m ∉ delete (S j) qs1) as Hm2 by (apply delete_notin; [by apply delete_nodup|done]).
  exists h2. unfold lift. rewrite Hn. cbn. unfold unlink in H1, H2.
  apply bind_Done in H1 as (hx & Hx & H1). rewrite Hx. cbn.
  assert (is_Some (next n)) as [b Hb].
  { destruct Hpl as [-> _]. apply lookup_lt_is_Some_2. apply lookup_lt_Some in Hm. lia. }
  rewrite Hb in *. rewrite H1. cbn. rewrite Hmt. cbn. rewrite Hnm. cbn.
  apply bind_Done in H2 as (hy & Hy & H2). rewrite Hy. cbn.
  assert (hy !! m = Some nm) as ->.
  { rewrite (write_next_other _ _ _ _ m Hy); [done|].
    by eapply (linked_not_self h1); [by apply delete_nodup|done|]. }
  cbn. rewrite H2. split; [done|]. split; [done|]. split.
  - split.
    + exists n. split; [|done]. destruct L1 as [_ L1], L2 as [_ L2].
      rewrite L2, L1; [done|done|]. intros ?%delete_incl. done.
    + exists nm. split; [|done]. destruct L2 as [_ L2]. by rewrite L2.
  - etransitivity; eapply local_to_mono; [|exact L1| |exact L2]; intros p Hp.
    + by apply delete_incl in Hp.
    + by apply delete_incl, delete_incl in Hp.
Qed.

(** [unlift] undoes [lift], even if the list was changed and restored in
    between. *)
Lemma unlift_spec h qs i j e m :
  NoDup qs → qs !! S i = Some e → qs !! S (S j) = Some m → (i <= j)%nat →
  linked h (delete (S j) (delete (S i) qs)) → lifted h qs i j e m →
  ∃ h', unlift e h = Done h' ∧ linked h' qs ∧ local_to qs h h'.
Proof.
  intros Hnd He Hm Hij Hl [(n & Hn & Hpl & Hmt) (nm & Hnm & Hplm)].
  set (qs1 := delete (S i) qs) in *.
  assert (qs1 !! S j = Some m) as Hm1 by (subst qs1; by rewrite list_lookup_delete_ge by lia).
  assert (NoDup qs1) as Hnd1 by (by apply delete_nodup).
  destruct (relink_spec h qs1 j m nm Hnd1 Hl Hm1 Hnm Hplm) as (h1 & H1 & Hl1 & L1).
  assert (e ∉ qs1) as He1 by (by apply delete_notin).
  assert (h1 !! e = Some n) as Hn1.
  { destruct L1 as [_ L1]. rewrite L1; [done|]. intros ?%delete_incl. done. }
  destruct (relink_spec h1 qs i e n Hnd Hl1 He Hn1 Hpl) as (h2 & H2 & Hl2 & L2).
  exists h2. unfold unlift. rewrite Hn. cbn. rewrite Hmt. cbn. rewrite Hnm. cbn.
  unfold relink in H1, H2. apply bind_Done in H1 as (hx & Hx & H1). rewrite Hx. cbn.
  assert (hx !! m = Some nm) as ->.
  { rewrite (write_next_other _ _ _ _ m Hx); [done|]. by eapply (linked_not_self h). }
  cbn. rewrite H1. cbn. rewrite Hn1. cbn. apply bind_Done in H2 as (hy & Hy & H2). rewrite Hy. cbn.
  assert (is_Some (next n)) as [b Hb].
  { destruct Hpl as [-> _]. apply lookup_lt_is_Some_2. apply lookup_lt_Some in Hm. lia. }
  rewrite Hb in *. rewrite H2. split; [done|]. split; [done|].
  etransitivity; eapply local_to_mono; [|exact L1| |exact L2]; intros p Hp.
  - by apply delete_incl, delete_incl in Hp.
  - by apply delete_incl in Hp.
Qed.

End heap.
