(* ===== verification/PorcModel.v ===== *)
(** * Histories and models (src/src/porcupine/model.go, porcupine.go and the
    conversions of checker.go)

    [interface{}] values are a type [V], states of a model a type [S].  The
    fields of [Model] that only describe a history for drawing are left out.
    [sort.Sort] on entries is any function that permutes a slice into the order
    of [byTime.Less] ([TimeSort]).

    At the end, the specification: what it means for a history to be
    linearizable. *)

From stdpp Require Import base list numbers gmap.
From Stdlib Require Import Lia.
From S2P Require Import Prelude.

Inductive entryKind : Type := callEntry | returnEntry.

#[export] Instance entryKind_eq_dec : EqDecision entryKind.
Proof. solve_decision. Defined.

Record entry (V : Type) : Type := mkEntry {
  kind : entryKind;
  evalue : V;
  eid : Z;
  time : Z;
  clientId : Z;
}.

Record Operation (V : Type) : Type := mkOperation {
  opClientId : Z;
  Input : V;
  Call : Z;
  Output : V;
  Return : Z;
}.

Inductive EventKind : Type := CallEvent | ReturnEvent.

Record Event (V : Type) : Type := mkEvent {
  evClientId : Z;
  Kind : EventKind;
  Value : V;
  Id : Z;
}.

Record Model (V S : Type) : Type := mkModel {
  Partition : option (list (Operation V) → list (list (Operation V)));
  PartitionEvent : option (list (Event V) → list (list (Event V)));
  Init : S;
  Step : S → V → V → bool * S;
  Equal : option (S → S → bool);
}.

Arguments mkEntry {V}.
Arguments kind {V}.
Arguments evalue {V}.
Arguments eid {V}.
Arguments time {V}.
Arguments clientId {V}.
Arguments mkOperation {V}.
Arguments opClientId {V}.
Arguments Input {V}.
Arguments Call {V}.
Arguments Output {V}.
Arguments Return {V}.
Arguments mkEvent {V}.
Arguments evClientId {V}.
Arguments Kind {V}.
Arguments Value {V}.
Arguments Id {V}.
Arguments mkModel {V S}.
Arguments Partition {V S}.
Arguments PartitionEvent {V S}.
Arguments Init {V S}.
Arguments Step {V S}.
Arguments Equal {V S}.

Inductive CheckResult : Type := Unknown | Ok | Illegal.

Definition NoPartition {V} (history : list (Operation V)) : list (list (Operation V)) := [history].

Definition NoPartitionEvent {V} (history : list (Event V)) : list (list (Event V)) := [history].

(** [state1 == state2] on comparable states. *)
Definition ShallowEqual {S} `{!EqDecision S} (state1 state2 : S) : bool :=
  bool_decide (state1 = state2).

Definition fillDefault {V S} `{!EqDecision S} (model : Model V S) : Model V S :=
  mkModel (Some (default NoPartition (Partition model)))
    (Some (default NoPartitionEvent (PartitionEvent model)))
    (Init model) (Step model) (Some (default ShallowEqual (Equal model))).

(** ** Conversions *)

Definition byTime_Less {V} (a b : entry V) : bool :=
  if negb (time a =? time b) then time a <? time b
  else match kind a, kind b with callEntry, returnEntry => true | _, _ => false end.

Class TimeSort (V : Type) : Type := sort_entries : list (entry V) → list (entry V).

Class TimeSortLaws {V} (sort : TimeSort V) : Prop := {
  sort_entries_perm es : sort_entries es ≡ₚ es;
  sort_entries_sorted es i j a b : (i < j)%nat →
    sort_entries es !! i = Some a → sort_entries es !! j = Some b → byTime_Less b a = false;
}.

Fixpoint entriesOf {V} (id : Z) (history : list (Operation V)) : list (entry V) :=
  match history with
  | [] => []
  | elem :: history' =>
      mkEntry callEntry (Input elem) id (Call elem) (opClientId elem) ::
      mkEntry returnEntry (Output elem) id (Return elem) (opClientId elem) ::
      entriesOf (id + 1) history'
  end.

Definition makeEntries {V} `{!TimeSort V} (history : list (Operation V)) : list (entry V) :=
  sort_entries (entriesOf 0 history).

(** [m] is the renumbering so far, [id] the next number. *)
Fixpoint renumberFrom {V} (m : gmap Z Z) (id : Z) (events : list (Event V)) : list (Event V) :=
  match events with
  | [] => []
  | v :: events' =>
      match m !! Id v with
      | Some r => mkEvent (evClientId v) (Kind v) (Value v) r :: renumberFrom m id events'
      | None =>
          mkEvent (evClientId v) (Kind v) (Value v) id ::
          renumberFrom (<[Id v := id]> m) (id + 1) events'
      end
  end.

Definition renumber {V} (events : list (Event V)) : list (Event V) := renumberFrom ∅ 0 events.

Fixpoint convertFrom {V} (i : Z) (events : list (Event V)) : list (entry V) :=
  match events with
  | [] => []
  | elem :: events' =>
      mkEntry (match Kind elem with ReturnEvent => returnEntry | CallEvent => callEntry end)
        (Value elem) (Id elem) i (evClientId elem) :: convertFrom (i + 1) events'
  end.

Definition convertEntries {V} (events : list (Event V)) : list (entry V) := convertFrom 0 events.

(** ** The specification *)

(** A call with the value of its return, and a return. *)
Inductive ev (V : Type) : Type :=
  | Inv (id : Z) (vin vout : V)
  | Ret (id : Z).

Arguments Inv {V}.
Arguments Ret {V}.

Definition ev_id {V} (x : ev V) : Z := match x with Inv id _ _ | Ret id => id end.

(** The value of the first return of [id]. *)
Fixpoint ret_value {V} (id : Z) (es : list (entry V)) : option V :=
  match es with
  | [] => None
  | e :: es' =>
      match kind e with
      | returnEntry => if eid e =? id then Some (evalue e) else ret_value id es'
      | callEntry => ret_value id es'
      end
  end.

(** A history as the checker sees it; a call without a return counts as a
    return. *)
Fixpoint evs {V} (es : list (entry V)) : list (ev V) :=
  match es with
  | [] => []
  | e :: es' =>
      match kind e, ret_value (eid e) es' with
      | callEntry, Some v => Inv (eid e) (evalue e) v
      | _, _ => Ret (eid e)
      end :: evs es'
  end.

(** One operation of a history. *)
Record op (V : Type) : Type := mkOp {
  o_id : Z;
  o_in : V;
  o_out : V;
}.

Arguments mkOp {V}.
Arguments o_id {V}.
Arguments o_in {V}.
Arguments o_out {V}.

Definition as_op {V} (x : ev V) : option (op V) :=
  match x with Inv id vin vout => Some (mkOp id vin vout) | Ret _ => None end.

Definition ops {V} (es : list (ev V)) : list (op V) := omap as_op es.

(** An occurrence of [x] comes before one of [y]. *)
Definition occurs_before {A} (l : list A) (x y : A) : Prop :=
  ∃ i j : nat, (i < j)%nat ∧ l !! i = Some x ∧ l !! j = Some y.

(** [a] returned before [b] was called. *)
Definition precedes {V} (es : list (ev V)) (a b : Z) : Prop :=
  ∃ vin vout, occurs_before es (Ret a) (Inv b vin vout).

Section spec.
Context {V S : Type} (step : S → V → V → bool * S).

(** Executing operations in sequence, all of them allowed. *)
Fixpoint legal (st : S) (order : list (op V)) : Prop :=
  match order with
  | [] => True
  | o :: order' => (step st (o_in o) (o_out o)).1 = true ∧
      legal (step st (o_in o) (o_out o)).2 order'
  end.

(** No operation is placed before one that had returned when it was called. *)
Definition respects (es : list (ev V)) (order : list (op V)) : Prop :=
  ∀ a b, occurs_before order a b → ¬ precedes es (o_id b) (o_id a).

Definition linearizable (es : list (ev V)) (st : S) : Prop :=
  ∃ order, order ≡ₚ ops es ∧ legal st order ∧ respects es order.

End spec.

(** Every operation is called once and then returns once. *)
Record well_formed {V} (es : list (ev V)) : Prop := {
  wf_calls a va wa vb wb : ¬ occurs_before es (Inv a va wa) (Inv a vb wb);
  wf_rets a : ¬ occurs_before es (Ret a) (Ret a);
  wf_returns a va wa : Inv a va wa ∈ es → occurs_before es (Inv a va wa) (Ret a);
  wf_called a : Ret a ∈ es → ∃ va wa, occurs_before es (Inv a va wa) (Ret a);
}.
