(* ===== verification/PorcSpec.v ===== *)
(** * Linearizations, one operation at a time

    [picks es st]: the history [es] can be emptied by repeatedly taking out an
    operation that was called before any remaining return, each allowed in the
    state reached.  For well-formed histories this is linearizability. *)

From stdpp Require Import base list numbers gmap.
From Stdlib Require Import Lia.
From S2P Require Import Prelude PorcModel.

(** ** Order of occurrence *)

Section order.
Context {A : Type}.
Implicit Types (l : list A) (x y z : A).

Lemma occurs_cons z l x y :
  occurs_before (z :: l) x y ↔ z = x ∧ y ∈ l ∨ occurs_before l x y.
Proof.
  unfold occurs_before. rewrite list_elem_of_lookup. split.
  - intros ([|i] & [|j] & Hij & Hx & Hy); try lia; cbn in Hx, Hy.
    + left. split; [by injection Hx|eauto].
    + right. exists i, j. split; [lia|done].
  - intros [[-> [j Hj]]|(i & j & Hij & Hx & Hy)].
    + exists 0%nat, (S j). split; [lia|done].
    + exists (S i), (S j). split; [lia|done].
Qed.

Lemma occurs_nil x y : ¬ occurs_before [] x y.
Proof. intros (i & j & _ & Hx & _). by rewrite lookup_nil in Hx. Qed.

Lemma occurs_elem l x y : occurs_before l x y → x ∈ l ∧ y ∈ l.
Proof. intros (i & j & _ & Hx & Hy). split; by eapply list_elem_of_lookup_2. Qed.

Lemma occurs_filter (P : A → Prop) `{!∀ x, Decision (P x)} l x y :
  occurs_before (filter P l) x y ↔ occurs_before l x y ∧ P x ∧ P y.
Proof.
  induction l as [|z l IH]; [cbn; split; [by intros ?%occurs_nil|by intros [?%occurs_nil _]]|].
  rewrite filter_cons, occurs_cons. case_decide.
  - rewrite occurs_cons, IH, list_elem_of_filter. naive_solver.
  - rewrite IH. naive_solver.
Qed.

Lemma occurs_app l1 l2 x y :
  occurs_before (l1 ++ l2) x y ↔
  occurs_before l1 x y ∨ (x ∈ l1 ∧ y ∈ l2) ∨ occurs_before l2 x y.
Proof.
  induction l1 as [|z l1 IH]; cbn.
  - split; [auto|]. intros [?%occurs_nil|[[?%not_elem_of_nil _]|?]]; done.
  - rewrite !occurs_cons, IH, elem_of_app, elem_of_cons. naive_solver.
Qed.

End order.

(** ** Taking an operation out *)

Definition other {V} (a : Z) (x : ev V) : Prop := ev_id x ≠ a.

#[export] Instance other_dec {V} a (x : ev V) : Decision (other a x).
Proof. unfold other. apply _. Defined.

Definition remove {V} (a : Z) (es : list (ev V)) : list (ev V) := filter (other a) es.

Definition is_inv {V} (x : ev V) : Prop := match x with Inv _ _ _ => True | Ret _ => False end.

#[export] Instance is_inv_dec {V} (x : ev V) : Decision (is_inv x).
Proof. destruct x; apply _. Defined.

Section remove.
Context {V : Type}.
Implicit Types es : list (ev V).

Lemma remove_wf a es : well_formed es → well_formed (remove a es).
Proof.
  intros [H1 H2 H3 H4]. unfold remove. split.
  - intros b va wa vb wb [H _]%occurs_filter. by eapply H1.
  - intros b [H _]%occurs_filter. by eapply H2.
  - intros b va wa [Hb Hin]%list_elem_of_filter. apply occurs_filter. split_and!; auto.
  - intros b [Hb Hin]%list_elem_of_filter. destruct (H4 _ Hin) as (va & wa & ?).
    exists va, wa. apply occurs_filter. split_and!; auto.
Qed.

Lemma remove_length a va wa es :
  Inv a va wa ∈ es → (length (remove a es) < length es)%nat.
Proof.
  intros H. unfold remove. induction es as [|x es IH]; [by apply not_elem_of_nil in H|].
  rewrite filter_cons. pose proof (length_filter (other a) es). cbn.
  apply elem_of_cons in H as [<-|H].
  - rewrite decide_False by (unfold other; cbn; tauto). lia.
  - specialize (IH H). case_decide; cbn; lia.
Qed.

(** A non-empty well-formed history starts with a call. *)
Lemma wf_head x es : well_formed (x :: es) → is_inv x.
Proof.
  intros H. destruct x as [|a]; [done|].
  destruct (wf_called _ H a) as (va & wa & Hb); [by left|].
  apply occurs_cons in Hb as [[? _]|Hb]; [done|]. exfalso. apply (wf_rets _ H a).
  apply occurs_elem in Hb as [_ Hb]. apply occurs_cons. by left.
Qed.

Lemma ops_elem es o : o ∈ ops es ↔ Inv (o_id o) (o_in o) (o_out o) ∈ es.
Proof.
  unfold ops. rewrite list_elem_of_omap. split.
  - intros ([id vi vo|] & Hin & E); [|done]. by injection E as <-.
  - intros H. exists (Inv (o_id o) (o_in o) (o_out o)). split; [done|]. by destruct o.
Qed.

Lemma ops_remove a es o : o ∈ ops (remove a es) ↔ o ∈ ops es ∧ o_id o ≠ a.
Proof. rewrite !ops_elem. unfold remove. rewrite list_elem_of_filter. unfold other. cbn. tauto. Qed.

Lemma ops_unique es o o' :
  well_formed es → o ∈ ops es → o' ∈ ops es → o_id o = o_id o' → o = o'.
Proof.
  rewrite !ops_elem. intros Hwf [i Hi]%list_elem_of_lookup [j Hj]%list_elem_of_lookup E.
  destruct (decide (i = j)) as [<-|Hne]; [destruct o, o'; cbn in *; congruence|exfalso].
  rewrite E in Hi. destruct (decide (i < j)%nat).
  - eapply (wf_calls _ Hwf). exists i, j. eauto.
  - eapply (wf_calls _ Hwf). exists j, i. split; [lia|eauto].
Qed.

Lemma ops_nodup es : well_formed es → NoDup (ops es).
Proof.
  intros Hwf. pose proof (wf_calls _ Hwf) as H. clear Hwf. induction es as [|x es IH]; [constructor|].
  assert (NoDup (ops es)) as Hnd.
  { apply IH. intros a va wa vb wb Hb. eapply H. apply occurs_cons. by right. }
  destruct x as [a va wa|a]; cbn; [|done]. apply NoDup_cons. split; [|done].
  intros Hin. apply ops_elem in Hin. cbn in Hin. eapply H. apply occurs_cons. by left.
Qed.

Lemma ops_perm a va wa es :
  well_formed es → Inv a va wa ∈ es → ops es ≡ₚ mkOp a va wa :: ops (remove a es).
Proof.
  intros Hwf Hin. assert (mkOp a va wa ∈ ops es) as Ho by (by apply ops_elem).
  apply NoDup_Permutation.
  - by apply ops_nodup.
  - apply NoDup_cons. split; [|by apply ops_nodup, remove_wf].
    rewrite ops_remove. cbn. tauto.
  - intros o. rewrite elem_of_cons, ops_remove. split.
    + intros Hin'. destruct (decide (o_id o = a)) as [E|E]; [left|by right].
      by eapply ops_unique.
    + intros [->|[? _]]; done.
Qed.

Lemma precedes_remove c es a b :
  precedes (remove c es) a b ↔ precedes es a b ∧ a ≠ c ∧ b ≠ c.
Proof.
  unfold precedes, remove. split.
  - intros (vi & vo & (H & ? & ?)%occurs_filter). eauto.
  - intros [(vi & vo & H) [? ?]]. exists vi, vo. apply occurs_filter. done.
Qed.

(** Nothing returned before the calls at the front of a history were made. *)
Lemma front_minimal (pre post : list (ev V)) a va wa b :
  well_formed (pre ++ Inv a va wa :: post) → Forall is_inv pre →
  ¬ precedes (pre ++ Inv a va wa :: post) b a.
Proof.
  intros Hwf Hpre (vi & vo & Hb). apply occurs_app in Hb as [Hb|[[Hb _]|Hb]].
  - apply occurs_elem in Hb as [Hb _]. exact (proj1 (Forall_forall _ _) Hpre _ Hb).
  - exact (proj1 (Forall_forall _ _) Hpre _ Hb).
  - apply occurs_cons in Hb as [[? _]|Hb]; [done|].
    eapply (wf_calls _ Hwf a va wa vi vo). apply occurs_app. right; right.
    apply occurs_cons. left. split; [done|]. by apply occurs_elem in Hb as [_ ?].
Qed.
End remove.

(** ** Picking *)

Section picks.
Context {V S : Type} (step : S → V → V → bool * S).

Inductive picks : list (ev V) → S → Prop :=
  | picks_nil st : picks [] st
  | picks_one pre a va wa post st :
      Forall is_inv pre → (step st va wa).1 = true →
      picks (remove a (pre ++ Inv a va wa :: post)) (step st va wa).2 →
      picks (pre ++ Inv a va wa :: post) st.

Lemma picks_linearizable es st : well_formed es → picks es st → linearizable step es st.
Proof.
  intros Hwf Hp. induction Hp as [st|pre a va wa post st Hpre Hstep _ IH].
  { exists []. split_and!; [done|done|]. by intros x y ?%occurs_nil. }
  set (es := pre ++ Inv a va wa :: post) in *.
  destruct IH as (order & Hperm & Hlegal & Hresp); [by apply remove_wf|].
  assert (Inv a va wa ∈ es) as Hin by (apply elem_of_app; right; by left).
  exists (mkOp a va wa :: order). split_and!; [|done|].
  - by rewrite (ops_perm a va wa es Hwf Hin), Hperm.
  - intros x y [[<- Hy]|Hxy]%occurs_cons Hprec; [by eapply front_minimal|].
    apply (Hresp x y Hxy). pose proof (occurs_elem _ _ _ Hxy) as [Hx Hy].
    rewrite Hperm in Hx, Hy. apply ops_remove in Hx as [_ ?], Hy as [_ ?].
    by apply precedes_remove.
Qed.

(** The first operation of a linearization can be picked. *)
Lemma first_at_front (es : list (ev V)) o order :
  well_formed es → o :: order ≡ₚ ops es → respects es (o :: order) →
  ∃ pre post, es = pre ++ Inv (o_id o) (o_in o) (o_out o) :: post ∧ Forall is_inv pre.
Proof.
  intros Hwf Hperm Hresp.
  assert (o ∈ ops es) as Ho by (rewrite <- Hperm; by left). apply ops_elem in Ho.
  apply list_elem_of_split in Ho as (pre & post & ->). exists pre, post. split; [done|].
  apply Forall_forall. intros [b vb wb|b] Hb; [done|]. exfalso.
  assert (Ret b ∈ pre ++ Inv (o_id o) (o_in o) (o_out o) :: post) as Hbin
    by (apply elem_of_app; by left).
  destruct (wf_called _ Hwf b Hbin) as (vb & wb & Hcall).
  assert (mkOp b vb wb ∈ o :: order) as Hmem.
  { rewrite Hperm. apply ops_elem. cbn. by apply occurs_elem in Hcall as [? _]. }
  assert (precedes (pre ++ Inv (o_id o) (o_in o) (o_out o) :: post) b (o_id o)) as Hprec.
  { exists (o_in o), (o_out o). apply occurs_app. right; left. split; [done|by left]. }
  apply elem_of_cons in Hmem as [E|Hmem].
  - rewrite <- E in Hwf, Hcall. cbn in Hwf, Hcall. apply occurs_app in Hcall as [Hc|[[Hc _]|Hc]].
    + apply (wf_calls _ Hwf b vb wb vb wb). apply occurs_app. right; left.
      apply occurs_elem in Hc as [? _]. split; [done|by left].
    + apply (wf_calls _ Hwf b vb wb vb wb). apply occurs_app. right; left. split; [done|by left].
    + apply (wf_rets _ Hwf b). apply occurs_app. right; left.
      apply occurs_elem in Hc as [_ ?]. done.
  - eapply Hresp; [apply occurs_cons; left; by split|done].
Qed.

Lemma linearizable_picks es st : well_formed es → linearizable step es st → picks es st.
Proof.
  intros Hwf (order & Hperm & Hlegal & Hresp). revert es st Hwf Hperm Hlegal Hresp.
  induction order as [|o order IH]; intros es st Hwf Hperm Hlegal Hresp.
  - destruct es as [|x es]; [constructor|]. pose proof (wf_head _ _ Hwf) as Hx.
    destruct x; [|done]. by apply Permutation_nil_cons in Hperm.
  - destruct (first_at_front es o order Hwf Hperm Hresp) as (pre & post & E & Hpre).
    destruct Hlegal as [Hok Hlegal]. subst es. apply picks_one; [done|done|].
    apply IH; [by apply remove_wf| |done|].
    + apply (Permutation_cons_inv (a := o)). rewrite Hperm.
      rewrite (ops_perm (o_id o) (o_in o) (o_out o)) at 1; [by destruct o|done|].
      apply elem_of_app. right. by left.
    + intros x y Hxy Hp. apply precedes_remove in Hp as [Hp _]. eapply Hresp; [|exact Hp].
      apply occurs_cons. by right.
Qed.

Lemma picks_iff es st : well_formed es → picks es st ↔ linearizable step es st.
Proof. split; [by apply picks_linearizable|by apply linearizable_picks]. Qed.

(** A simulation between states carries linearizations over. *)
Lemma picks_equal (eq : S → S → Prop) es st st' :
  (∀ s s' vi vo, eq s s' → (step s vi vo).1 = true →
     (step s' vi vo).1 = true ∧ eq (step s vi vo).2 (step s' vi vo).2) →
  eq st st' → picks es st → picks es st'.
Proof.
  intros Hsim Heq Hp. revert st' Heq. induction Hp as [st|pre a va wa post st Hpre Hok _ IH]; intros st' Heq.
  - constructor.
  - destruct (Hsim _ _ va wa Heq Hok) as [Hok' Heq']. apply picks_one; auto.
Qed.

End picks.
