(* ===== verification/PorcChecker.v ===== *)
(** * The linearizability checker (src/src/porcupine/checker.go)

    [checkSingle] is the loop of the Go code on the heap of PorcHeap.v: one
    [iterate] per turn of the loop.  [kill i] is what the loop reads from the
    shared flag at turn [i].  The fuel bounds the number of turns; running out of
    it is [Blocked].  The lists that [longest] points to live in a heap of their
    own, because their identity matters to the caller. *)

From stdpp Require Import base list numbers gmap.
From Stdlib Require Import Lia.
From S2P Require Import Prelude Bitset PorcHeap PorcModel.

(** The loop of [makeLinkedEntries], over the reversed entries; the result is
    the root. *)
Fixpoint linkFrom {V} (entries : list (entry V)) (root : option ptr) (mm : gmap Z ptr) (h : heap V)
    : outcome (heap V * option ptr) :=
  match entries with
  | [] => mret (h, root)
  | elem :: entries' =>
      let match_ := match kind elem with returnEntry => None | callEntry => mm !! eid elem end in
      let '(h, p) := new_node (mkNode (Some (evalue elem)) match_ (eid elem) None None) h in
      let mm := match kind elem with returnEntry => <[eid elem := p]> mm | callEntry => mm end in
      h ← insertBefore p root h;
      linkFrom entries' (Some p) mm h
  end.

Definition makeLinkedEntries {V} (entries : list (entry V)) : outcome (heap V * option ptr) :=
  linkFrom (reverse entries) None ∅ [].

Record config (V S : Type) : Type := mkConfig {
  cf_heap : heap V;
  cf_entry : option ptr;
  cf_state : S;
  cf_linearized : bitset;
  cf_cache : gmap Z (list (bitset * S));
  cf_calls : list (ptr * S);
  cf_seqs : list (list Z);
  cf_longest : list (option nat);
}.

Arguments mkConfig {V S}.
Arguments cf_heap {V S}.
Arguments cf_entry {V S}.
Arguments cf_state {V S}.
Arguments cf_linearized {V S}.
Arguments cf_cache {V S}.
Arguments cf_calls {V S}.
Arguments cf_seqs {V S}.
Arguments cf_longest {V S}.

Section checker.
Context {V S : Type}.
Variable step : S → V → V → bool * S.
Variable equal : S → S → bool.

Definition cacheContains (cache : gmap Z (list (bitset * S))) (lin : bitset) (st : S) : bool :=
  existsb (λ elem, equals lin elem.1 && equal st elem.2) (default [] (cache !! hash lin)).

(** [cache[hash] = append(cache[hash], ...)] *)
Definition cacheAdd (cache : gmap Z (list (bitset * S))) (lin : bitset) (st : S)
    : gmap Z (list (bitset * S)) :=
  <[hash lin := default [] (cache !! hash lin) ++ [(lin, st)]]> cache.

(** The ids of the calls on the stack: [seq]. *)
Fixpoint callIds (h : heap V) (calls : list (ptr * S)) : outcome (list Z) :=
  match calls with
  | [] => mret []
  | v :: calls' =>
      n ← of_option (h !! v.1);
      ids ← callIds h calls';
      mret (id n :: ids)
  end.

(** The loop over [calls] that updates [longest]; [fresh] is the pointer the
    new sequence gets when it is created, and the boolean whether it was. *)
Fixpoint updateLongest (fresh : nat) (callsLen : Z) (seqs : list (list Z)) (ids : list Z)
    (longest : list (option nat)) (created : bool) : outcome (list (option nat) * bool) :=
  match ids with
  | [] => mret (longest, created)
  | i :: ids' =>
      cur ← zlookup longest i;
      let len := match cur with
                 | None => None
                 | Some q => if (q =? fresh)%nat then Some callsLen
                             else Some (Z.of_nat (length (default [] (seqs !! q))))
                 end in
      if match len with None => true | Some n => n <? callsLen end then
        longest ← zupdate longest i (Some fresh);
        updateLongest fresh callsLen seqs ids' longest true
      else updateLongest fresh callsLen seqs ids' longest created
  end.

(** One turn of the loop: the next configuration, or the result. *)
Definition iterate (computePartial : bool) (headEntry : ptr) (killed : bool) (cf : config V S)
    : outcome (config V S + bool) :=
  hd ← of_option (cf_heap cf !! headEntry);
  match next hd with
  | None => mret (inr true)
  | Some _ =>
      if killed then mret (inr false)
      else
        p ← of_option (cf_entry cf);
        e ← of_option (cf_heap cf !! p);
        match match_ e with
        | Some mp =>
            m ← of_option (cf_heap cf !! mp);
            vin ← of_option (value e);
            vout ← of_option (value m);
            let '(ok, newState) := step (cf_state cf) vin vout in
            if ok : bool then
              newLinearized ← set (clone (cf_linearized cf)) (id e);
              if negb (cacheContains (cf_cache cf) newLinearized newState) then
                lin ← set (cf_linearized cf) (id e);
                h ← lift p (cf_heap cf);
                hd ← of_option (h !! headEntry);
                mret (inl (mkConfig h (next hd) newState lin
                  (cacheAdd (cf_cache cf) newLinearized newState)
                  (cf_calls cf ++ [(p, cf_state cf)]) (cf_seqs cf) (cf_longest cf)))
              else mret (inl (mkConfig (cf_heap cf) (next e) (cf_state cf) (cf_linearized cf)
                     (cf_cache cf) (cf_calls cf) (cf_seqs cf) (cf_longest cf)))
            else mret (inl (mkConfig (cf_heap cf) (next e) (cf_state cf) (cf_linearized cf)
                   (cf_cache cf) (cf_calls cf) (cf_seqs cf) (cf_longest cf)))
        | None =>
            match last (cf_calls cf) with
            | None => mret (inr false)
            | Some callsTop =>
                '(seqs, longest) ←
                  (if computePartial then
                     ids ← callIds (cf_heap cf) (cf_calls cf);
                     '(longest, created) ← updateLongest (length (cf_seqs cf))
                       (Z.of_nat (length ids)) (cf_seqs cf) ids (cf_longest cf) false;
                     mret (if created : bool then cf_seqs cf ++ [ids] else cf_seqs cf, longest)
                   else mret (cf_seqs cf, cf_longest cf));
                let p := callsTop.1 in
                e ← of_option (cf_heap cf !! p);
                lin ← clear (cf_linearized cf) (id e);
                h ← unlift p (cf_heap cf);
                e ← of_option (h !! p);
                mret (inl (mkConfig h (next e) callsTop.2 lin (cf_cache cf)
                  (take (length (cf_calls cf) - 1) (cf_calls cf)) seqs longest))
            end
        end
  end.

(** The loop; the configuration it stops in is returned with the result. *)
Fixpoint checkLoop (fuel : nat) (computePartial : bool) (headEntry : ptr) (kill : nat → bool)
    (i : nat) (cf : config V S) : outcome (bool * config V S) :=
  match fuel with
  | O => Blocked
  | Datatypes.S fuel' =>
      r ← iterate computePartial headEntry (kill i) cf;
      match r with
      | inl cf => checkLoop fuel' computePartial headEntry kill (Datatypes.S i) cf
      | inr b => mret (b, cf)
      end
  end.

(** [longest] with its pointers followed. *)
Definition deref (seqs : list (list Z)) (longest : list (option nat))
    : list (option (nat * list Z)) :=
  (λ q, q ≫= λ q, (λ s, (q, s)) <$> seqs !! q) <$> longest.

Definition checkSingle (fuel : nat) (init : S) (history : list (entry V)) (computePartial : bool)
    (kill : nat → bool) : outcome (bool * list (option (nat * list Z))) :=
  '(h, root) ← makeLinkedEntries history;
  let n := Z.quot (list_length (length h) root h) 2 in
  let linearized := newBitset n in
  let longest := replicate (Z.to_nat n) None in
  let '(h, headEntry) := new_node (mkNode None None (-1) None None) h in
  h ← insertBefore headEntry root h;
  '(ok, cf) ← checkLoop fuel computePartial headEntry kill 0
    (mkConfig h root init linearized ∅ [] [] longest);
  if ok : bool then
    ids ← callIds (cf_heap cf) (cf_calls cf);
    let seqs := cf_seqs cf ++ [ids] in
    mret (true, deref seqs (replicate (Z.to_nat n) (Some (length (cf_seqs cf)))))
  else mret (false, deref (cf_seqs cf) (cf_longest cf)).

End checker.
