(* ===== verification/PorcSearch.v ===== *)
(** * The search behind the checker

    [search] is the depth-first search that the checker's loop carries out with
    its explicit stack: try the calls in front of the first return one after the
    other, skip what the cache knows.  It terminates by structural recursion and
    decides linearizability. *)

From stdpp Require Import base list numbers gmap.
From Stdlib Require Import Lia.
From S2P Require Import Prelude Bitset PorcHeap PorcModel PorcSpec PorcChecker.

Section search.
Context {V S : Type}.
Variable step : S → V → V → bool * S.
Variable equal : S → S → bool.

Abbreviation cache_t := (gmap Z (list (bitset * S))).

Definition set1 (b : bitset) (i : Z) : bitset := match set b i with Done b' => b' | _ => b end.

(** The calls of [todo] are tried in the history [es]. *)
Fixpoint scan (rec : list (ev V) → S → bitset → cache_t → bool * cache_t) (es todo : list (ev V))
    (st : S) (lin : bitset) (cache : cache_t) : bool * cache_t :=
  match todo with
  | Inv a vin vout :: todo' =>
      let '(ok, st') := step st vin vout in
      if ok : bool then
        if negb (cacheContains equal cache (set1 lin a) st') then
          match rec (remove a es) st' (set1 lin a) (cacheAdd cache (set1 lin a) st') with
          | (true, c) => (true, c)
          | (false, c) => scan rec es todo' st lin c
          end
        else scan rec es todo' st lin cache
      else scan rec es todo' st lin cache
  | _ => (false, cache)
  end.

Fixpoint search (n : nat) (es : list (ev V)) (st : S) (lin : bitset) (cache : cache_t)
    : bool * cache_t :=
  match es with
  | [] => (true, cache)
  | _ =>
      match n with
      | O => (false, cache)
      | Datatypes.S n' => scan (search n') es es st lin cache
      end
  end.

(** ** What is left of the history *)

Variable es0 : list (ev V).

Definition left (lin : bitset) (x : ev V) : Prop := member lin (ev_id x) = false.

#[export] Instance left_dec lin x : Decision (left lin x).
Proof. unfold left. apply _. Defined.

Definition remaining (lin : bitset) : list (ev V) := filter (left lin) es0.

Hypothesis Hwf : well_formed es0.

(** The bit set has room for every operation. *)
Definition lin_ok (lin : bitset) : Prop :=
  bitset_ok lin ∧ ∀ x, x ∈ es0 → in_range lin (ev_id x).

Lemma in_range_length b b' pos : length b' = length b → in_range b pos → in_range b' pos.
Proof. unfold in_range. intros ->. done. Qed.

Lemma set1_spec lin a :
  lin_ok lin → in_range lin a →
  set lin a = Done (set1 lin a) ∧ lin_ok (set1 lin a) ∧ length (set1 lin a) = length lin ∧
  remaining (set1 lin a) = remove a (remaining lin).
Proof.
  intros [Hok Hr] Ha. destruct (set_spec lin a Hok Ha) as (b & Hb & Hl & Hokb & Hm).
  unfold set1. rewrite Hb. split; [done|]. split; [|split; [done|]].
  - split; [done|]. intros x Hx. eapply in_range_length; [done|by apply Hr].
  - unfold remaining, remove. rewrite list_filter_filter. apply filter_ext_in. intros x Hx. unfold left, other. rewrite Hm by (apply Hr in Hx; unfold in_range in Hx; lia).
    case_decide; split; try done; tauto.
Qed.

Lemma remaining_wf lin : well_formed (remaining lin).
Proof.
  destruct Hwf as [H1 H2 H3 H4]. unfold remaining. split.
  - intros b va wa vb wb [H _]%occurs_filter. by eapply H1.
  - intros b [H _]%occurs_filter. by eapply H2.
  - intros b va wa [Hb Hin]%list_elem_of_filter. apply occurs_filter. split_and!; auto.
  - intros b [Hb Hin]%list_elem_of_filter. destruct (H4 _ Hin) as (va & wa & ?).
    exists va, wa. apply occurs_filter. split_and!; auto.
Qed.

(** ** The cache *)

(** Every cached configuration with fewer operations left than [es] has no
    linearization. *)
Definition cache_ok (es : list (ev V)) (cache : cache_t) : Prop :=
  ∀ k l L s, cache !! k = Some l → (L, s) ∈ l →
    (length (remaining L) < length es)%nat → ¬ picks step (remaining L) s.

Hypothesis Hsim : ∀ s s' vi vo, equal s s' = true → (step s vi vo).1 = true →
  (step s' vi vo).1 = true ∧ equal (step s vi vo).2 (step s' vi vo).2 = true.

Lemma cacheContains_dead es cache lin st :
  cache_ok es cache → (length (remaining lin) < length es)%nat →
  cacheContains equal cache lin st = true → ¬ picks step (remaining lin) st.
Proof using Hsim.
  unfold cacheContains. intros Hc Hlt H Hp. apply existsb_exists in H as ([L s] & Hin & H).
  apply andb_true_iff in H as [E%equals_spec Heq]. cbn in E, Heq. subst L.
  destruct (cache !! hash lin) as [l|] eqn:El; [|done]. cbn in Hin.
  apply (Hc _ _ lin s El); [by apply list_elem_of_In|done|].
  eapply (picks_equal step (λ s s', equal s s' = true)); [exact Hsim|exact Heq|exact Hp].
Qed.

Lemma cacheAdd_elem (cache : cache_t) lin st k l L s :
  cacheAdd cache lin st !! k = Some l → (L, s) ∈ l →
  (L, s) = (lin, st) ∨ ∃ l', cache !! k = Some l' ∧ (L, s) ∈ l'.
Proof.
  unfold cacheAdd. intros [[<- <-]|[_ ?]]%lookup_insert_Some Hin; [|eauto].
  apply elem_of_app in Hin as [Hin|Hin]; [|left; by apply list_elem_of_singleton in Hin].
  destruct (cache !! hash lin) as [l'|]; [right; eauto|by apply not_elem_of_nil in Hin].
Qed.

Lemma cache_ok_add es' es cache lin st :
  cache_ok es cache → (length es' <= length es)%nat → (length es' <= length (remaining lin))%nat →
  cache_ok es' (cacheAdd cache lin st).
Proof.
  intros Hc Hle Hge k l L s Hk Hin Hlt.
  destruct (cacheAdd_elem _ _ _ _ _ _ _ Hk Hin) as [E|(l' & Hl' & Hin')].
  - injection E as -> ->. lia.
  - eapply Hc; [done|done|lia].
Qed.

(** ** Correctness *)

(** What a failed search adds to the cache has no linearization. *)
Definition cache_grows (c c' : cache_t) : Prop :=
  ∀ k l L s, c' !! k = Some l → (L, s) ∈ l →
    (∃ l0, c !! k = Some l0 ∧ (L, s) ∈ l0) ∨ ¬ picks step (remaining L) s.

Lemma cache_grows_refl c : cache_grows c c.
Proof. intros k l L s Hk Hin. left. eauto. Qed.

Lemma cache_grows_ok es c c' : cache_ok es c → cache_grows c c' → cache_ok es c'.
Proof.
  intros Hc Hg k l L s Hk Hin Hlt. destruct (Hg _ _ _ _ Hk Hin) as [(l0 & ? & ?)|?]; [|done].
  by eapply Hc.
Qed.

Lemma cache_grows_trans c c' c'' : cache_grows c c' → cache_grows c' c'' → cache_grows c c''.
Proof.
  intros H1 H2 k l L s Hk Hin. destruct (H2 _ _ _ _ Hk Hin) as [(l0 & ? & ?)|?]; [|by right].
  by eapply H1.
Qed.

Lemma cache_grows_add c lin st c' :
  cache_grows (cacheAdd c lin st) c' → ¬ picks step (remaining lin) st → cache_grows c c'.
Proof.
  intros Hg Hd k l L s Hk Hin. destruct (Hg _ _ _ _ Hk Hin) as [(l0 & Hl0 & Hin0)|?]; [|by right].
  destruct (cacheAdd_elem _ _ _ _ _ _ _ Hl0 Hin0) as [E|?]; [|by left].
  injection E as -> ->. by right.
Qed.

Definition answers (es : list (ev V)) (st : S) (c : cache_t) (r : bool * cache_t) : Prop :=
  if r.1 then picks step es st else ¬ picks step es st ∧ cache_grows c r.2.

(** The calls in front were all tried in vain. *)
Lemma no_pick (done_ todo : list (ev V)) st :
  Forall is_inv done_ → (todo = [] ∨ ∃ a todo', todo = Ret a :: todo') →
  done_ ++ todo ≠ [] →
  (∀ a va wa, Inv a va wa ∈ done_ →
     ¬ ((step st va wa).1 = true ∧ picks step (remove a (done_ ++ todo)) (step st va wa).2)) →
  ¬ picks step (done_ ++ todo) st.
Proof.
  intros Hinv Htodo Hne Hno Hp. inversion Hp as [|pre a va wa post ? Hpre Hok Hrest E]; [done|].
  subst. apply (Hno a va wa); [|split; [done|by rewrite <- E]].
  assert (Forall is_inv (pre ++ [Inv a va wa])) as Hpre' by (apply Forall_app; split; [done|by constructor]).
  rewrite cons_middle, app_assoc in E. apply app_eq_inv in E as [(k & E1 & E2)|(k & E1 & E2)].
  - destruct Htodo as [->|(b & todo' & ->)].
    + symmetry in E2. apply app_eq_nil in E2 as [-> _]. rewrite app_nil_r in E1. rewrite <- E1.
      apply elem_of_app. right. by left.
    + destruct k as [|x k]; [rewrite app_nil_r in E1; rewrite <- E1; apply elem_of_app; right; by left|].
      cbn in E2. injection E2 as <- _. rewrite E1 in Hpre'. apply Forall_app in Hpre' as [_ Hpre'].
      by inversion Hpre'.
  - rewrite E1. apply elem_of_app. left. apply elem_of_app. right. by left.
Qed.

Lemma scan_correct rec lin done_ todo st cache :
  let es := remaining lin in
  lin_ok lin → es = done_ ++ todo → es ≠ [] → Forall is_inv done_ →
  (∀ a va wa s c, Inv a va wa ∈ es → cache_ok (remove a es) c →
     answers (remove a es) s c (rec (remove a es) s (set1 lin a) c)) →
  (∀ a va wa, Inv a va wa ∈ done_ →
     ¬ ((step st va wa).1 = true ∧ picks step (remove a es) (step st va wa).2)) →
  cache_ok es cache → answers es st cache (scan rec es todo st lin cache).
Proof using Hsim Hwf.
  intros es Hlin. revert done_ cache. induction todo as [|x todo IH]; intros done_ cache Hes Hne Hinv Hrec Hno Hc.
  { cbn. split; [|apply cache_grows_refl]. rewrite Hes in *. apply no_pick; auto. }
  destruct x as [a va wa|a].
  2:{ cbn. split; [|apply cache_grows_refl]. rewrite Hes in *. apply no_pick; eauto. }
  assert (Inv a va wa ∈ es) as Hin by (rewrite Hes; apply elem_of_app; right; by left).
  assert (es = (done_ ++ [Inv a va wa]) ++ todo) as Hes' by (by rewrite <- app_assoc).
  assert (Forall is_inv (done_ ++ [Inv a va wa])) as Hinv' by (apply Forall_app; split; [done|by constructor]).
  assert (in_range lin a) as Hra.
  { destruct Hlin as [_ Hr]. subst es. apply list_elem_of_filter in Hin as [_ Hin].
    by apply (Hr (Inv a va wa)). }
  destruct (set1_spec lin a Hlin Hra) as (_ & Hlin1 & _ & Hrem). fold es in Hrem.
  pose proof (remove_length a va wa es Hin) as Hlen.
  assert (∀ c, cache_ok es c → ((step st va wa).1 = true → ¬ picks step (remove a es) (step st va wa).2) →
    answers es st c (scan rec es todo st lin c)) as Hskip.
  { intros c Hc' Hdead. apply (IH (done_ ++ [Inv a va wa])); auto.
    intros b vb wb [Hb|Hb]%elem_of_app; [by apply Hno|].
    apply list_elem_of_singleton in Hb. injection Hb as -> -> ->. intros [Hok Hp]. by apply Hdead. }
  cbn [scan]. destruct (step st va wa) as [ok st'] eqn:Estep. cbn in Hskip.
  destruct ok; [|apply Hskip; done].
  destruct (cacheContains equal cache (set1 lin a) st') eqn:Ec; cbn [negb].
  - apply Hskip; [done|]. intros _. rewrite <- Hrem. eapply cacheContains_dead; [exact Hc| |done].
    rewrite Hrem. done.
  - assert (cache_ok (remove a es) (cacheAdd cache (set1 lin a) st')) as Hc1.
    { eapply cache_ok_add; [exact Hc|lia|by rewrite Hrem]. }
    specialize (Hrec a va wa st' _ Hin Hc1). unfold answers in Hrec.
    destruct (rec (remove a es) st' (set1 lin a) _) as [[] c'] eqn:Er; cbn in Hrec.
    + cbn. rewrite Hes in *. apply picks_one; [done|by rewrite Estep|]. by rewrite Estep.
    + destruct Hrec as [Hdead Hg]. rewrite <- Hrem in Hdead.
      pose proof (cache_grows_add _ _ _ _ Hg Hdead) as Hg'. rewrite Hrem in Hdead.
      specialize (Hskip c' (cache_grows_ok _ _ _ Hc Hg') (λ _, Hdead)). unfold answers in *.
      destruct (scan rec es todo st lin c') as [[] c'']; [done|]. destruct Hskip as [? Hg2].
      split; [done|]. by eapply cache_grows_trans.
Qed.

Lemma search_correct n lin st cache :
  lin_ok lin → (length (remaining lin) <= n)%nat → cache_ok (remaining lin) cache →
  answers (remaining lin) st cache (search n (remaining lin) st lin cache).
Proof using Hsim Hwf.
  revert lin st cache. induction n as [|n IH]; intros lin st cache Hlin Hn Hc.
  { assert (remaining lin = []) as -> by (apply length_zero_iff_nil; lia). cbn. constructor. }
  destruct (decide (remaining lin = [])) as [E|Hne]; [rewrite E; cbn; constructor|].
  assert (search (Datatypes.S n) (remaining lin) st lin cache =
    scan (search n) (remaining lin) (remaining lin) st lin cache) as ->
    by (by destruct (remaining lin)).
  apply (scan_correct _ _ [] (remaining lin)); try done.
  - intros a va wa s c Hin Hca.
    assert (in_range lin a) as Hra.
    { destruct Hlin as [_ Hr]. apply list_elem_of_filter in Hin as [_ Hin].
      by apply (Hr (Inv a va wa)). }
    destruct (set1_spec lin a Hlin Hra) as (_ & Hlin1 & _ & Hrem).
    pose proof (remove_length a va wa _ Hin). rewrite <- Hrem in *.
    apply IH; [done|lia|done].
  - intros a va wa ?%not_elem_of_nil. done.
Qed.

End search.
