(* ===== verification/PorcSim.v ===== *)
(** * The checker's loop carries out the search

    The loop of [checkSingle], started with the linked list of a history, goes
    through finitely many turns and stops with the answer of [search].  A
    configuration of the loop is tied to a node of the search tree by the list of
    pointers and events that are still linked. *)

From stdpp Require Import base list numbers gmap relations.
From Stdlib Require Import Lia.
From S2P Require Import Prelude Bitset PorcHeap PorcModel PorcSpec PorcChecker PorcSearch.

(** ** Lists *)

(** Taking out two elements by position and by property. *)
Lemma filter_delete2 {A} (P : A → Prop) `{!∀ x, Decision (P x)} (l : list A) i j x y :
  l !! i = Some x → l !! S j = Some y → (i <= j)%nat →
  (∀ k z, l !! k = Some z → P z ↔ k ≠ i ∧ k ≠ S j) →
  filter P l = delete j (delete i l).
Proof.
  intros Hx Hy Hij HP.
  apply list_elem_of_split_length in Hx as (l1 & l2 & -> & ->).
  rewrite lookup_app_r in Hy by lia.
  replace (S j - length l1)%nat with (S (j - length l1)) in Hy by lia. cbn in Hy.
  apply list_elem_of_split_length in Hy as (k1 & k2 & -> & Hk).
  assert (filter P l1 = l1 ∧ filter P k1 = k1 ∧ filter P k2 = k2 ∧ ¬ P x ∧ ¬ P y) as (E1 & E2 & E3 & Ex & Ey).
  { assert (∀ k, (l1 ++ x :: k1 ++ y :: k2) !! (length l1 + k)%nat = (x :: k1 ++ y :: k2) !! k) as H1.
    { intros k. rewrite lookup_app_r by lia. f_equal. lia. }
    assert (∀ k, (l1 ++ x :: k1 ++ y :: k2) !! (length l1 + S (length k1 + k))%nat = (y :: k2) !! k) as H2.
    { intros k. rewrite H1. rewrite lookup_cons_ne_0 by lia. rewrite lookup_app_r by lia. f_equal. lia. }
    split_and!.
    - apply filter_all. intros z [k Hz]%list_elem_of_lookup. pose proof (lookup_lt_Some _ _ _ Hz).
      refine (proj2 (HP k z _) _); [by apply lookup_app_l_Some|lia].
    - apply filter_all. intros z [k Hz]%list_elem_of_lookup. pose proof (lookup_lt_Some _ _ _ Hz).
      refine (proj2 (HP (length l1 + S k)%nat z _) _); [|lia].
      rewrite H1. cbn. by apply lookup_app_l_Some.
    - apply filter_all. intros z [k Hz]%list_elem_of_lookup.
      refine (proj2 (HP (length l1 + S (length k1 + S k))%nat z _) _); [by rewrite H2|lia].
    - intros Hpx. apply (HP (length l1 + 0)%nat) in Hpx; [lia|]. by rewrite H1.
    - intros Hpy. apply (HP (length l1 + S (length k1 + 0))%nat) in Hpy; [lia|]. by rewrite H2. }
  rewrite filter_app, filter_cons_False, filter_app, filter_cons_False by done.
  rewrite E1, E2, E3, delete_middle, !(app_assoc l1 k1).
  replace j with (length (l1 ++ k1)) by (rewrite length_app; lia). by rewrite delete_middle.
Qed.

(** ** What nodes stand for *)

(** Node [px.1] is the event [px.2] of the history [L]. *)
Definition shows {V} (L : list (ptr * ev V)) (h : heap V) (px : ptr * ev V) : Prop :=
  ∃ n, h !! px.1 = Some n ∧ id n = ev_id px.2 ∧
    match px.2 with
    | Inv a vin vout =>
        value n = Some vin ∧
        ∃ mp m, match_ n = Some mp ∧ (mp, Ret a) ∈ L ∧ h !! mp = Some m ∧ value m = Some vout
    | Ret _ => match_ n = None
    end.

(** No node disappears or changes its value, match or id. *)
Definition keeps {V} (h h' : heap V) : Prop :=
  ∀ q n, h !! q = Some n → ∃ n', h' !! q = Some n' ∧ stat n' = stat n.

Lemma same_stat_keeps {V} (h h' : heap V) : same_stat h h' → keeps h h'.
Proof.
  unfold same_stat. intros E p n Hn. assert ((stat <$> h') !! p = Some (stat n)) as H.
  { by rewrite E, list_lookup_fmap, Hn. }
  rewrite list_lookup_fmap in H. destruct (h' !! p) as [n'|]; [|done]. exists n'. cbn in H.
  split; [done|congruence].
Qed.

Lemma shows_keeps {V} (L L' : list (ptr * ev V)) h h' px :
  keeps h h' → (∀ x, x ∈ L → x ∈ L') → shows L h px → shows L' h' px.
Proof.
  intros Hs HL (n & Hn & Hid & Hx). destruct (Hs _ _ Hn) as (n' & Hn' & E). injection E as E1 E2 E3.
  exists n'. split; [done|]. split; [congruence|]. destruct (px.2) as [a va wa|a]; [|congruence].
  destruct Hx as (Hv & mp & m & Hmp & Hin' & Hm & Hvm). split; [congruence|].
  destruct (Hs _ _ Hm) as (m' & Hm' & E'). injection E' as E1' _ _.
  exists mp, m'. split_and!; try congruence; auto.
Qed.

Section sim.
Context {V S : Type}.
Variable step : S → V → V → bool * S.
Variable equal : S → S → bool.
Variables (computePartial : bool) (hd : ptr).

(** The linked nodes of the whole history, with what they stand for. *)
Variable L0 : list (ptr * ev V).
Variable n0 : nat.

Definition static_ok (h : heap V) : Prop := ∀ px, px ∈ L0 → shows L0 h px.

Hypothesis Hptrs : NoDup (hd :: L0.*1).
Hypothesis Hwf : well_formed L0.*2.
Hypothesis Hids : ∀ px, px ∈ L0 → 0 <= ev_id px.2 < Z.of_nat n0.

Abbreviation remL lin := (filter (λ px, left lin px.2) L0).

Lemma remL_snd lin : (remL lin).*2 = remaining L0.*2 lin.
Proof.
  clear Hptrs Hwf Hids. unfold remaining. induction L0 as [|px L IH]; [done|]. rewrite fmap_cons, !filter_cons.
  repeat case_decide; rewrite ?fmap_cons; by rewrite IH.
Qed.

Lemma static_ok_same (h h' : heap V) : same_stat h h' → static_ok h → static_ok h'.
Proof.
  intros Hs Hok px Hin. eapply shows_keeps; [by apply same_stat_keeps|done|by apply Hok].
Qed.

(** ** The bookkeeping of partial linearizations never fails *)

Lemma updateLongest_total fresh len seqs ids longest created :
  (∀ i, i ∈ ids → 0 <= i < Z.of_nat (length longest)) →
  ∃ longest' created', updateLongest fresh len seqs ids longest created = Done (longest', created') ∧
    length longest' = length longest.
Proof.
  revert longest created. induction ids as [|i ids IH]; intros longest created Hi; cbn; [eauto|].
  destruct (zlookup_total longest i) as [cur Hcur]; [apply Hi; by left|]. rewrite Hcur. cbn.
  set (b := match _ with None => true | Some n => _ end). destruct b.
  - rewrite (proj2 (zupdate_Done longest i (Some fresh) _)) by (split; [apply Hi; by left|reflexivity]).
    cbn. destruct (IH (<[Z.to_nat i := Some fresh]> longest) true) as (l' & c' & -> & Hl).
    + intros j Hj. rewrite length_insert. apply Hi. by right.
    + rewrite length_insert in Hl. eauto.
  - apply IH. intros j Hj. apply Hi. by right.
Qed.

Definition calls_ok (calls : list (ptr * S)) : Prop := Forall (λ c, c.1 ∈ L0.*1) calls.

Lemma callIds_total h calls :
  static_ok h → calls_ok calls →
  ∃ ids, callIds h calls = Done ids ∧ length ids = length calls ∧
    ∀ i, i ∈ ids → 0 <= i < Z.of_nat n0.
Proof using Hids.
  intros Hok. induction calls as [|[p s] calls IH]; intros Hc; cbn.
  { exists []. split_and!; [done|done|]. by intros i ?%not_elem_of_nil. }
  inversion Hc as [|? ? Hp Hc']; subst. cbn in Hp.
  apply list_elem_of_fmap in Hp as (px & E & Hpx). destruct (Hok _ Hpx) as (n & Hn & Hid & _).
  cbn in E. subst p. rewrite Hn. cbn. destruct (IH Hc') as (ids & -> & Hl & Hr). cbn.
  exists (id n :: ids). cbn. split_and!; [done|by rewrite Hl|].
  intros i [->|?]%elem_of_cons; [rewrite Hid; auto|auto].
Qed.

(** ** Turns of the loop *)

Definition turn (cf cf' : config V S) : Prop :=
  iterate step equal computePartial hd false cf = Done (inl cf').

(** The pop of the stack, up to [unlift]. *)
Lemma book_keeping h calls seqs longest :
  static_ok h → calls_ok calls → length longest = n0 →
  ∃ seqs' longest', length longest' = n0 ∧
    (if computePartial then
       ids ← callIds h calls;
       '(longest, created) ← updateLongest (length seqs) (Z.of_nat (length ids)) seqs ids longest false;
       mret (if created : bool then seqs ++ [ids] else seqs, longest)
     else mret (seqs, longest)) = Done (seqs', longest') ∧
    (seqs' = seqs ∨ ∃ ids, callIds h calls = Done ids ∧ seqs' = seqs ++ [ids]).
Proof using Hids.
  intros Hok Hc Hl. destruct computePartial; [|exists seqs, longest; auto].
  destruct (callIds_total h calls Hok Hc) as (ids & -> & _ & Hr). cbn.
  destruct (updateLongest_total (length seqs) (Z.of_nat (length ids)) seqs ids longest false)
    as (l' & c' & -> & Hl'); [by rewrite Hl|]. cbn. eexists _, l'. split; [by rewrite Hl'|]. split; [done|].
  destruct c'; [right; by exists ids|by left].
Qed.

(** The position of the return of a linked call. *)
Lemma return_position lin i p a va wa :
  remL lin !! i = Some (p, Inv a va wa) →
  ∃ j mp, (i <= j)%nat ∧ remL lin !! Datatypes.S j = Some (mp, Ret a).
Proof using Hwf.
  intros Hi. assert (Inv a va wa ∈ remaining L0.*2 lin) as Hin.
  { rewrite <- remL_snd. apply list_elem_of_fmap. exists (p, Inv a va wa). split; [done|].
    by eapply list_elem_of_lookup_2. }
  destruct (wf_returns _ (remaining_wf _ Hwf lin) a va wa Hin) as (i' & j & Hij & Hi' & Hj).
  rewrite <- remL_snd, list_lookup_fmap in Hi', Hj.
  destruct (remL lin !! i') as [[p' x']|] eqn:E'; [|done]. cbn in Hi'. injection Hi' as ->.
  destruct (remL lin !! j) as [[mp y]|] eqn:Ej; [|done]. cbn in Hj. injection Hj as ->.
  assert (i' = i) as ->.
  { pose proof (wf_calls _ (remaining_wf _ Hwf lin) a va wa va wa) as Hu. unfold occurs_before in Hu.
    setoid_rewrite <- remL_snd in Hu. setoid_rewrite list_lookup_fmap in Hu.
    destruct (decide (i' = i)) as [|Hne]; [done|exfalso]. apply Hu.
    destruct (decide (i' < i)%nat); [exists i', i|exists i, i']; rewrite Hi, E'; cbn; split; (lia || done). }
  destruct j as [|j]; [lia|]. exists j, mp. split; [lia|done].
Qed.

(** Only the call and the return of [a] carry its id. *)
Lemma removed_positions lin i j p mp a va wa :
  remL lin !! i = Some (p, Inv a va wa) → remL lin !! Datatypes.S j = Some (mp, Ret a) →
  ∀ k z, remL lin !! k = Some z → other a z.2 ↔ k ≠ i ∧ k ≠ Datatypes.S j.
Proof using Hwf.
  intros Hi Hj k [q x] Hk. unfold other. cbn. pose proof (remaining_wf _ Hwf lin) as Hw.
  rewrite <- remL_snd in Hw. split.
  - intros Hne. split; intros ->; [rewrite Hi in Hk|rewrite Hj in Hk]; injection Hk as <- <-; done.
  - intros [Hki Hkj] Ex. destruct x as [b vb wb|b]; cbn in Ex; subst b.
    + destruct (decide (k < i)%nat).
      * apply (wf_calls _ Hw a vb wb va wa). exists k, i. rewrite !list_lookup_fmap, Hk, Hi. done.
      * apply (wf_calls _ Hw a va wa vb wb). exists i, k. rewrite !list_lookup_fmap, Hk, Hi.
        split; [lia|done].
    + destruct (decide (k < Datatypes.S j)%nat).
      * apply (wf_rets _ Hw a). exists k, (Datatypes.S j). rewrite !list_lookup_fmap, Hk, Hj. done.
      * apply (wf_rets _ Hw a). exists (Datatypes.S j), k. rewrite !list_lookup_fmap, Hk, Hj.
        split; [lia|done].
Qed.

Lemma ret_unique a p q : (p, Ret a) ∈ L0 → (q, Ret a) ∈ L0 → p = q.
Proof using Hwf.
  intros [i Hi]%list_elem_of_lookup [j Hj]%list_elem_of_lookup.
  destruct (decide (i = j)) as [->|Hne]; [congruence|exfalso]. apply (wf_rets _ Hwf a).
  destruct (decide (i < j)%nat); [exists i, j|exists j, i]; rewrite !list_lookup_fmap, Hi, Hj;
    split; (lia || done).
Qed.

(** Marking a call takes it and its return out of what is left. *)
Lemma remL_set1 lin i j p mp a va wa :
  lin_ok L0.*2 lin → remL lin !! i = Some (p, Inv a va wa) →
  remL lin !! Datatypes.S j = Some (mp, Ret a) → (i <= j)%nat →
  remL (set1 lin a) = delete j (delete i (remL lin)).
Proof using Hwf.
  intros Hlin Hi Hj Hij. rewrite <- (filter_delete2 (λ px, other a px.2) (remL lin) i j _ _ Hi Hj Hij).
  2:{ by eapply removed_positions. }
  rewrite list_filter_filter. apply filter_ext_in. intros [q x] Hin. cbn.
  destruct Hlin as [Hok Hr].
  assert (in_range lin a) as Ha.
  { apply list_elem_of_lookup_2, list_elem_of_filter in Hi as [_ Hi].
    apply (Hr (Inv a va wa)). by apply (list_elem_of_fmap_2 snd) in Hi. }
  destruct (set_spec lin a Hok Ha) as (b & Hb & _ & _ & Hm). unfold set1, left, other. rewrite Hb.
  assert (in_range lin (ev_id x)) as Hx by (by apply Hr; apply (list_elem_of_fmap_2 snd) in Hin).
  rewrite Hm by (unfold in_range in Hx; lia). case_decide; split; try done; tauto.
Qed.

Lemma clear_set1 lin p a va wa :
  lin_ok L0.*2 lin → (p, Inv a va wa) ∈ remL lin → clear (set1 lin a) a = Done lin.
Proof.
  intros [Hok Hr] [Hleft Hin]%list_elem_of_filter. cbn in Hleft. unfold left in Hleft. cbn in Hleft.
  assert (in_range lin a) as Ha by (apply (Hr (Inv a va wa)); by apply (list_elem_of_fmap_2 snd) in Hin).
  destruct (set_spec lin a Hok Ha) as (b & Hb & Hlb & Hokb & Hm). unfold set1. rewrite Hb.
  destruct (clear_spec b a Hokb) as (c & -> & Hlc & Hokc & Hmc); [by eapply in_range_length|].
  f_equal. apply member_ext; [done|done|congruence|]. intros pos Hpos.
  unfold in_range in Hpos. rewrite Hmc, Hm by lia. by destruct (decide (pos = a)) as [->|].
Qed.

(** ** The loop and the search *)

(** The loop stands at position [i] of what is left. *)
Record tracks (cf : config V S) (i : nat) : Prop := {
  tr_static : static_ok (cf_heap cf);
  tr_linked : linked (cf_heap cf) (hd :: (remL (cf_linearized cf)).*1);
  tr_lin : lin_ok L0.*2 (cf_linearized cf);
  tr_entry : cf_entry cf = (remL (cf_linearized cf)).*1 !! i;
  tr_calls : calls_ok (cf_calls cf);
  tr_longest : length (cf_longest cf) = n0;
}.

(** The loop is about to stop with true. *)
Definition wins (cf : config V S) : Prop :=
  ∃ cf', rtc turn cf cf' ∧ (∀ killed, iterate step equal computePartial hd killed cf' = Done (inr true)) ∧
    static_ok (cf_heap cf') ∧ calls_ok (cf_calls cf').

(** The loop comes to a return with everything restored but the cache. *)
Definition fails (cf : config V S) (c : gmap Z (list (bitset * S))) : Prop :=
  ∃ cf' i p a, rtc turn cf cf' ∧ tracks cf' i ∧
    remL (cf_linearized cf) !! i = Some (p, Ret a) ∧ cf_state cf' = cf_state cf ∧
    cf_linearized cf' = cf_linearized cf ∧ cf_calls cf' = cf_calls cf ∧ cf_cache cf' = c ∧
    local_to (hd :: (remL (cf_linearized cf)).*1) (cf_heap cf) (cf_heap cf').

Definition reaches (cf : config V S) (r : bool * gmap Z (list (bitset * S))) : Prop :=
  if r.1 then wins cf else fails cf r.2.

(** Going on from a configuration with the same state, stack and bit set. *)
Lemma reaches_turns cf cf1 r :
  rtc turn cf cf1 → cf_state cf1 = cf_state cf → cf_linearized cf1 = cf_linearized cf →
  cf_calls cf1 = cf_calls cf →
  local_to (hd :: (remL (cf_linearized cf)).*1) (cf_heap cf) (cf_heap cf1) →
  reaches cf1 r → reaches cf r.
Proof.
  intros Ht E1 E2 E3 Hloc. unfold reaches. destruct r as [[] c]; cbn.
  - intros (cf' & H & ?). exists cf'. split; [by etransitivity|done].
  - intros (cf' & i & p & a & H & ? & Hp & ? & ? & ? & ? & Hl). rewrite E2 in *.
    exists cf', i, p, a. split_and!; try congruence; [by etransitivity|].
    by etransitivity.
Qed.

(** The node at the current position. *)
Lemma tracks_node cf i p x :
  tracks cf i → remL (cf_linearized cf) !! i = Some (p, x) →
  cf_entry cf = Some p ∧ (p, x) ∈ L0 ∧
  ∃ n, cf_heap cf !! p = Some n ∧ next n = (remL (cf_linearized cf)).*1 !! Datatypes.S i.
Proof.
  intros [_ Hl _ He _ _] Hi. rewrite He, list_lookup_fmap, Hi. cbn. split; [done|]. split.
  - apply list_elem_of_lookup_2, list_elem_of_filter in Hi. tauto.
  - destruct (linked_placed _ _ (Datatypes.S i) p Hl) as (n & Hn & Hnx & _).
    { by rewrite lookup_cons_S, list_lookup_fmap, Hi. }
    exists n. by rewrite Hnx.
Qed.

(** There is something left, so the head has a successor. *)
Lemma tracks_head cf i x :
  tracks cf i → remL (cf_linearized cf) !! i = Some x →
  ∃ n q, cf_heap cf !! hd = Some n ∧ next n = Some q.
Proof.
  intros [_ Hl _ _ _ _] Hi. destruct (linked_placed _ _ 0%nat hd Hl) as (n & Hn & Hnx & _); [done|].
  cbn in Hnx. destruct (remL (cf_linearized cf)) as [|[q y] L]; [by rewrite lookup_nil in Hi|].
  exists n, q. by rewrite Hnx.
Qed.

Definition at_next (cf : config V S) (i : nat) : config V S :=
  mkConfig (cf_heap cf) ((remL (cf_linearized cf)).*1 !! Datatypes.S i) (cf_state cf)
    (cf_linearized cf) (cf_cache cf) (cf_calls cf) (cf_seqs cf) (cf_longest cf).

Lemma tracks_next cf i : tracks cf i → tracks (at_next cf i) (Datatypes.S i).
Proof. intros []. by split. Qed.

(** What a turn at a call reads. *)
Lemma call_node cf i p a va wa :
  tracks cf i → remL (cf_linearized cf) !! i = Some (p, Inv a va wa) →
  ∃ j n mp m, cf_heap cf !! p = Some n ∧ id n = a ∧ value n = Some va ∧ match_ n = Some mp ∧
    next n = (remL (cf_linearized cf)).*1 !! Datatypes.S i ∧
    cf_heap cf !! mp = Some m ∧ value m = Some wa ∧ (i <= j)%nat ∧
    remL (cf_linearized cf) !! Datatypes.S j = Some (mp, Ret a).
Proof using Hwf.
  intros Htr Hi. destruct (tracks_node _ _ _ _ Htr Hi) as (_ & Hin & n & Hn & Hnx).
  destruct (return_position _ _ _ _ _ _ Hi) as (j & mp & Hij & Hj).
  destruct (tr_static _ _ Htr _ Hin) as (n' & Hn' & Hid & Hv & mp' & m & Hmp & Hret & Hm & Hvm).
  cbn in Hn'. assert (n' = n) as -> by congruence.
  assert (mp' = mp) as ->.
  { apply (ret_unique a); [done|]. apply list_elem_of_lookup_2, list_elem_of_filter in Hj. tauto. }
  exists j, n, mp, m. done.
Qed.

Lemma turn_skip cf i p a va wa :
  tracks cf i → remL (cf_linearized cf) !! i = Some (p, Inv a va wa) →
  (step (cf_state cf) va wa).1 = false ∨
    cacheContains equal (cf_cache cf) (set1 (cf_linearized cf) a) (step (cf_state cf) va wa).2 = true →
  turn cf (at_next cf i).
Proof using Hwf.
  intros Htr Hi Hskip. destruct (call_node _ _ _ _ _ _ Htr Hi)
    as (j & n & mp & m & Hn & Hid & Hv & Hmp & Hnx & Hm & Hvm & Hij & Hj).
  destruct (tracks_head _ _ _ Htr Hi) as (hn & q & Hhd & Hq).
  destruct (tracks_node _ _ _ _ Htr Hi) as (He & Hin & _).
  unfold turn, iterate. rewrite Hhd. cbn. rewrite Hq, He. cbn. rewrite Hn. cbn. rewrite Hmp, Hm. cbn.
  rewrite Hv, Hvm. cbn. unfold at_next. rewrite Hnx.
  destruct (step (cf_state cf) va wa) as [[] st'] eqn:Es; [|done].
  destruct Hskip as [|Hc]; [done|]. cbn in Hc. rewrite clone_same, Hid.
  destruct (set1_spec L0.*2 (cf_linearized cf) a) as (-> & _).
  { apply (tr_lin _ _ Htr). }
  { apply (proj2 (tr_lin _ _ Htr) (Inv a va wa)). by apply (list_elem_of_fmap_2 snd) in Hin. }
  cbn. by rewrite Hc.
Qed.

Lemma delete_linked (L : list (ptr * ev V)) i j :
  delete (Datatypes.S j) (delete (Datatypes.S i) (hd :: L.*1)) = hd :: (delete j (delete i L)).*1.
Proof. by rewrite !list_fmap_delete. Qed.

Lemma turn_push cf i p a va wa st' :
  tracks cf i → remL (cf_linearized cf) !! i = Some (p, Inv a va wa) →
  step (cf_state cf) va wa = (true, st') →
  cacheContains equal (cf_cache cf) (set1 (cf_linearized cf) a) st' = false →
  ∃ h' j mp,
    let cf' := mkConfig h' ((remL (set1 (cf_linearized cf) a)).*1 !! 0%nat) st'
      (set1 (cf_linearized cf) a) (cacheAdd (cf_cache cf) (set1 (cf_linearized cf) a) st')
      (cf_calls cf ++ [(p, cf_state cf)]) (cf_seqs cf) (cf_longest cf) in
    turn cf cf' ∧ tracks cf' 0 ∧
    remL (cf_linearized cf) !! Datatypes.S j = Some (mp, Ret a) ∧ (i <= j)%nat ∧
    lifted h' (hd :: (remL (cf_linearized cf)).*1) i j p mp ∧
    local_to (hd :: (remL (cf_linearized cf)).*1) (cf_heap cf) h'.
Proof using Hwf.
  intros Htr Hi Es Hc. destruct (call_node _ _ _ _ _ _ Htr Hi)
    as (j & n & mp & m & Hn & Hid & Hv & Hmp & Hnx & Hm & Hvm & Hij & Hj).
  destruct (tracks_head _ _ _ Htr Hi) as (hn & q & Hhd & Hq).
  destruct (tracks_node _ _ _ _ Htr Hi) as (He & Hin & _). pose proof (tr_lin _ _ Htr) as Hlin.
  assert (in_range (cf_linearized cf) a) as Ha.
  { apply (proj2 Hlin (Inv a va wa)). by apply (list_elem_of_fmap_2 snd) in Hin. }
  destruct (set1_spec L0.*2 _ a Hlin Ha) as (Hset & Hlin' & _).
  destruct (lift_spec _ _ i j p mp n (tr_linked _ _ Htr)) as (h' & Hlift & Hl' & Hlifted & Hloc);
    [by rewrite lookup_cons_S, list_lookup_fmap, Hi|by rewrite lookup_cons_S, list_lookup_fmap, Hj|done..|].
  rewrite delete_linked, <- (remL_set1 _ _ _ _ _ _ _ _ Hlin Hi Hj Hij) in Hl'.
  destruct (linked_placed _ _ 0%nat hd Hl') as (hn' & Hhn' & Hhx & _); [done|].
  exists h', j, mp. cbn zeta. split; [|split; [|done]].
  - unfold turn, iterate. rewrite Hhd. cbn. rewrite Hq, He. cbn. rewrite Hn. cbn. rewrite Hmp, Hm. cbn.
    rewrite Hv, Hvm. cbn. rewrite Es, clone_same, Hid, Hset. cbn. rewrite Hc. cbn.
    rewrite Hlift. cbn. rewrite Hhn'. cbn. by rewrite Hhx, lookup_cons_S.
  - split; cbn; [|done|done|done| |by apply (tr_longest _ _ Htr)].
    + eapply static_ok_same; [apply Hloc|apply (tr_static _ _ Htr)].
    + apply Forall_app. split; [apply (tr_calls _ _ Htr)|]. apply Forall_singleton. cbn.
      by apply (list_elem_of_fmap_2 fst) in Hin.
Qed.

(** The nodes that were lifted are not touched while they are out. *)
Lemma lifted_local h h' (qs : list ptr) i j e m :
  NoDup qs → qs !! Datatypes.S i = Some e → qs !! Datatypes.S (Datatypes.S j) = Some m → (i <= j)%nat →
  lifted (V := V) h qs i j e m →
  local_to (delete (Datatypes.S j) (delete (Datatypes.S i) qs)) h h' → lifted h' qs i j e m.
Proof.
  intros Hnd He Hm Hij [(n & Hn & ?) (nm & Hnm & ?)] [_ Hloc].
  assert (e ∉ delete (Datatypes.S i) qs) as He1 by (by apply delete_notin).
  assert (m ∉ delete (Datatypes.S j) (delete (Datatypes.S i) qs)) as Hm1.
  { apply delete_notin; [by apply delete_nodup|]. by rewrite list_lookup_delete_ge by lia. }
  split; [exists n|exists nm]; (split; [|done]); rewrite Hloc; try done.
  intros ?%delete_incl. done.
Qed.

(** At a return: the last call is taken back and the loop goes on behind it. *)
Lemma turn_pop cf k q b lin i j p mp a va wa calls st :
  tracks cf k → remL (cf_linearized cf) !! k = Some (q, Ret b) →
  cf_linearized cf = set1 lin a → cf_calls cf = calls ++ [(p, st)] → lin_ok L0.*2 lin →
  remL lin !! i = Some (p, Inv a va wa) → remL lin !! Datatypes.S j = Some (mp, Ret a) → (i <= j)%nat →
  lifted (cf_heap cf) (hd :: (remL lin).*1) i j p mp →
  ∃ cf', turn cf cf' ∧ tracks cf' (Datatypes.S i) ∧ cf_state cf' = st ∧ cf_linearized cf' = lin ∧
    cf_calls cf' = calls ∧ cf_cache cf' = cf_cache cf ∧
    local_to (hd :: (remL lin).*1) (cf_heap cf) (cf_heap cf') ∧
    (cf_seqs cf' = cf_seqs cf ∨ ∃ ids, callIds (cf_heap cf) (cf_calls cf) = Done ids ∧ cf_seqs cf' = cf_seqs cf ++ [ids]).
Proof using Hwf Hptrs Hids.
  intros Htr Hk Elin Ecalls Hlin Hi Hj Hij Hlifted.
  destruct (tracks_head _ _ _ Htr Hk) as (hn & q0 & Hhd & Hq0).
  destruct (tracks_node _ _ _ _ Htr Hk) as (He & Hin & n & Hn & _).
  destruct (tr_static _ _ Htr _ Hin) as (n' & Hn' & _ & Hmt). cbn in Hn', Hmt.
  assert (n' = n) as -> by congruence.
  assert (NoDup (hd :: (remL lin).*1)) as Hnd.
  { eapply sublist_NoDup; [exact Hptrs|]. apply sublist_skip, fmap_sublist, sublist_filter. }
  assert ((p, Inv a va wa) ∈ remL lin) as Hp by (by eapply list_elem_of_lookup_2).
  destruct (unlift_spec (cf_heap cf) (hd :: (remL lin).*1) i j p mp Hnd) as (h' & Hun & Hl' & Hloc);
    [by rewrite lookup_cons_S, list_lookup_fmap, Hi|by rewrite lookup_cons_S, list_lookup_fmap, Hj|done| |done|].
  { rewrite delete_linked, <- (remL_set1 _ _ _ _ _ _ _ _ Hlin Hi Hj Hij), <- Elin. apply Htr. }
  destruct (linked_placed _ _ (Datatypes.S i) p Hl') as (np & Hnp & Hnpx & _).
  { by rewrite lookup_cons_S, list_lookup_fmap, Hi. }
  destruct (book_keeping (cf_heap cf) (cf_calls cf) (cf_seqs cf) (cf_longest cf))
    as (seqs' & longest' & Hll & Hbk & Hsq); [apply Htr..|].
  destruct Hlifted as [(ne & Hne & _) _].
  assert (id ne = a) as Hida.
  { apply list_elem_of_filter in Hp as [_ Hp]. destruct (tr_static _ _ Htr _ Hp) as (x & Hx & Hid & _).
    cbn in Hx, Hid. congruence. }
  exists (mkConfig h' ((remL lin).*1 !! Datatypes.S i) st lin (cf_cache cf) calls seqs' longest').
  split; [|split; [|done]].
  - unfold turn, iterate. rewrite Hhd. cbn. rewrite Hq0, He. cbn. rewrite Hn. cbn. rewrite Hmt.
    rewrite Hbk, Ecalls, last_snoc. cbn. rewrite Hne. cbn. rewrite Hida, Elin, (clear_set1 _ _ _ _ _ Hlin Hp).
    cbn. rewrite Hun. cbn. rewrite Hnp. cbn. rewrite Hnpx, lookup_cons_S.
    by rewrite length_app, Nat.add_sub, take_app_length.
  - split; cbn; [|done|done|done| |done].
    + eapply static_ok_same; [apply Hloc|apply Htr].
    + pose proof (tr_calls _ _ Htr) as Hc. rewrite Ecalls in Hc. by apply Forall_app in Hc as [? _].
Qed.

(** A history that is not empty has a return behind the calls in front. *)
Lemma front_bound (es : list (ev V)) i :
  well_formed es → es ≠ [] → Forall is_inv (take i es) → is_Some (es !! i).
Proof.
  intros Hw Hne Hinv. apply lookup_lt_is_Some_2. destruct es as [|x es]; [done|].
  pose proof (wf_head _ _ Hw) as Hx. destruct x as [a va wa|]; [|done].
  destruct (wf_returns _ Hw a va wa) as (k & j & _ & _ & Hj); [by left|].
  destruct (decide (j < i)%nat) as [Hji|]; [|apply lookup_lt_Some in Hj; lia].
  exfalso. rewrite <- (lookup_take_lt _ i) in Hj by done.
  by apply (Forall_lookup_1 _ _ _ _ Hinv Hj).
Qed.

Abbreviation left_of cf := (remaining L0.*2 (cf_linearized cf)).

Lemma left_lookup (cf : config V S) i x :
  left_of cf !! i = Some x → ∃ p, remL (cf_linearized cf) !! i = Some (p, x).
Proof.
  rewrite <- remL_snd, list_lookup_fmap. destruct (remL (cf_linearized cf) !! i) as [[p y]|]; [|done].
  cbn. intros [= ->]. eauto.
Qed.

Lemma left_lookup_2 (cf : config V S) i p x :
  remL (cf_linearized cf) !! i = Some (p, x) → left_of cf !! i = Some x.
Proof. intros H. by rewrite <- remL_snd, list_lookup_fmap, H. Qed.

(** The search below [n] is carried out. *)
Definition searched (n : nat) : Prop :=
  ∀ cf, tracks cf 0 → (length (left_of cf) <= n)%nat →
  reaches cf (search step equal n (left_of cf) (cf_state cf) (cf_linearized cf) (cf_cache cf)).

(** A call that is pushed: its subtree is searched, and on failure the loop is
    back behind the call. *)
Lemma push_and_pop n cf i p a va wa st' :
  searched n → tracks cf i → (length (left_of cf) <= Datatypes.S n)%nat →
  remL (cf_linearized cf) !! i = Some (p, Inv a va wa) →
  step (cf_state cf) va wa = (true, st') →
  cacheContains equal (cf_cache cf) (set1 (cf_linearized cf) a) st' = false →
  match search step equal n (remove a (left_of cf)) st' (set1 (cf_linearized cf) a)
          (cacheAdd (cf_cache cf) (set1 (cf_linearized cf) a) st') with
  | (true, _) => wins cf
  | (false, c) =>
      ∃ cf', rtc turn cf cf' ∧ tracks cf' (Datatypes.S i) ∧ cf_state cf' = cf_state cf ∧
        cf_linearized cf' = cf_linearized cf ∧ cf_calls cf' = cf_calls cf ∧ cf_cache cf' = c ∧
        local_to (hd :: (remL (cf_linearized cf)).*1) (cf_heap cf) (cf_heap cf')
  end.
Proof using Hwf Hptrs Hids.
  intros IH Htr Hn Hi Es Hc.
  destruct (turn_push _ _ _ _ _ _ _ Htr Hi Es Hc) as (h1 & j & mp & Ht & Htr1 & Hj & Hij & Hlf & Hloc).
  set (cf1 := mkConfig h1 _ _ _ _ _ _ _) in *. pose proof (tr_lin _ _ Htr) as Hlin.
  pose proof (left_lookup_2 _ _ _ _ Hi) as Hinv. apply list_elem_of_lookup_2 in Hinv.
  assert (in_range (cf_linearized cf) a) as Ha.
  { apply (proj2 Hlin (Inv a va wa)). by apply list_elem_of_filter in Hinv as [_ ?]. }
  destruct (set1_spec L0.*2 _ a Hlin Ha) as (_ & _ & _ & Hrem).
  pose proof (remove_length _ _ _ _ Hinv) as Hlen. specialize (IH cf1 Htr1).
  subst cf1. cbn [cf_linearized cf_state cf_cache] in IH. rewrite Hrem in IH.
  specialize (IH ltac:(lia)).
  destruct (search step equal n _ st' _ _) as [[] c]; unfold reaches in IH; cbn in IH.
  - destruct IH as (cf' & ? & ?). exists cf'. split; [by eapply rtc_l|done].
  - destruct IH as (cf2 & k & q & b & Hr & Htr2 & Hk & E1 & E2 & E3 & E4 & Hloc2).
    cbn in Hk, E1, E2, E3, Hloc2. rewrite <- E2 in Hk.
    assert (NoDup (hd :: (remL (cf_linearized cf)).*1)) as Hnd by apply (tr_linked _ _ Htr).
    rewrite (remL_set1 _ _ _ _ _ _ _ _ Hlin Hi Hj Hij), <- delete_linked in Hloc2.
    destruct (turn_pop cf2 k q b (cf_linearized cf) i j p mp a va wa (cf_calls cf) (cf_state cf))
      as (cf3 & Ht3 & Htr3 & F1 & F2 & F3 & F4 & Hloc3 & _); try done.
    { eapply lifted_local; try done; by rewrite lookup_cons_S, list_lookup_fmap, ?Hi, ?Hj. }
    exists cf3. split_and!; try done; try congruence.
    + eapply rtc_l; [done|]. eapply rtc_r; done.
    + etransitivity; [exact Hloc|]. etransitivity; [|exact Hloc3].
      eapply local_to_mono; [|exact Hloc2]. by intros x ?%delete_incl%delete_incl.
Qed.

Lemma sim_scan n todo :
  searched n → ∀ i cf, tracks cf i → drop i (left_of cf) = todo → left_of cf ≠ [] →
  Forall is_inv (take i (left_of cf)) → (length (left_of cf) <= Datatypes.S n)%nat →
  reaches cf (scan step equal (search step equal n) (left_of cf) todo (cf_state cf)
    (cf_linearized cf) (cf_cache cf)).
Proof using Hwf Hptrs Hids.
  intros IHn. induction todo as [|x todo IH]; intros i cf Htr Hdrop Hne Hinv Hn;
    destruct (front_bound _ _ (remaining_wf _ Hwf _) Hne Hinv) as [x' Hx'];
    rewrite <- (Nat.add_0_r i), <- lookup_drop, Hdrop in Hx'; [done|].
  injection Hx' as <-. assert (left_of cf !! i = Some x) as Hi.
  { rewrite <- (Nat.add_0_r i), <- lookup_drop, Hdrop. done. }
  destruct (left_lookup _ _ _ Hi) as [p Hp]. destruct x as [a va wa|a].
  2:{ cbn. unfold reaches. cbn. exists cf, i, p, a. split_and!; done. }
  assert (drop (Datatypes.S i) (left_of cf) = todo) as Hdrop'.
  { by rewrite <- Nat.add_1_r, <- drop_drop, Hdrop. }
  assert (Forall is_inv (take (Datatypes.S i) (left_of cf))) as Hinv'.
  { rewrite (take_S_r _ _ _ Hi). apply Forall_app. split; [done|by constructor]. }
  cbn [scan]. destruct (step (cf_state cf) va wa) as [ok st'] eqn:Es.
  assert ((ok = false ∨ cacheContains equal (cf_cache cf) (set1 (cf_linearized cf) a) st' = true) →
    reaches cf (scan step equal (search step equal n) (left_of cf) todo (cf_state cf)
      (cf_linearized cf) (cf_cache cf))) as Hskip.
  { intros Hs. pose proof (turn_skip _ _ _ _ _ _ Htr Hp) as Ht. rewrite Es in Ht. specialize (Ht Hs).
    eapply (reaches_turns _ (at_next cf i)); [by apply rtc_once|done..|].
    apply (IH (Datatypes.S i) (at_next cf i)); try done. by apply tracks_next. }
  destruct ok; [|auto]. destruct (cacheContains _ _ _ st') eqn:Ec; cbn [negb]; [auto|].
  pose proof (push_and_pop n cf i p a va wa st' IHn Htr Hn Hp Es Ec) as Hpp.
  destruct (search step equal n _ st' _ _) as [[] c]; [done|].
  destruct Hpp as (cf3 & Ht3 & Htr3 & F1 & F2 & F3 & <- & Hloc3).
  eapply (reaches_turns _ cf3); [done..|]. rewrite <- F1, <- F2 in *. by apply (IH (Datatypes.S i) cf3).
Qed.

Lemma sim_search n : searched n.
Proof using Hwf Hptrs Hids.
  induction n as [|n IH]; intros cf Htr Hn.
  all: destruct (left_of cf) as [|x es] eqn:E.
  2:{ cbn in Hn. lia. }
  3:{ rewrite <- E in *. assert (search step equal (Datatypes.S n) (left_of cf) (cf_state cf)
        (cf_linearized cf) (cf_cache cf) = scan step equal (search step equal n) (left_of cf) (left_of cf)
        (cf_state cf) (cf_linearized cf) (cf_cache cf)) as -> by (by rewrite E).
      apply (sim_scan n (left_of cf) IH 0 cf); try done. by rewrite E. }
  all: unfold reaches; cbn; exists cf; split; [apply rtc_refl|]; split; [|by split; apply Htr].
  all: intros killed; destruct (linked_placed _ _ 0%nat hd (tr_linked _ _ Htr)) as (hn & Hhd & Hhx & _); [done|].
  all: rewrite <- remL_snd in E; apply fmap_nil_inv in E; rewrite E in Hhx.
  all: unfold iterate; rewrite Hhd; cbn; by rewrite Hhx.
Qed.

End sim.
