(* ===== verification/PorcRun.v ===== *)
(** * [checkSingle] decides linearizability

    [makeLinkedEntries] builds the linked list of a history; the loop started on
    it stops with the answer of the search (PorcSim.v), which is the answer of
    the specification (PorcSearch.v, PorcSpec.v).  A kill flag can only turn the
    answer into false. *)

From stdpp Require Import base list numbers gmap relations.
From Stdlib Require Import Lia.
From S2P Require Import Prelude Bitset PorcHeap PorcModel PorcSpec PorcChecker PorcSearch PorcSim.

(** ** Building the list *)

Section build.
Context {V : Type}.
Implicit Types (h : heap V) (es : list (entry V)).

(** A fresh node in front of a linked list. *)
Lemma insertBefore_front h ps n :
  linked h ps → next n = None → prev n = None →
  ∃ h', insertBefore (length h) (head ps) (h ++ [n]) = Done h' ∧ linked h' (length h :: ps) ∧
    keeps h h' ∧ length h' = S (length h) ∧
    ∃ n', h' !! length h = Some n' ∧ stat n' = stat n.
Proof.
  intros [Hnd Hl] Hnx Hpv. set (p := length h). set (h1 := h ++ [n]).
  assert (h1 !! p = Some n) as Hp by (by apply list_lookup_middle).
  assert (∀ q m, h !! q = Some m → h1 !! q = Some m) as Hold by (intros; by apply lookup_app_l_Some).
  assert (p ∉ ps) as Hfresh.
  { intros [i Hi]%list_elem_of_lookup. destruct (Hl _ _ Hi) as (m & Hm & _).
    apply lookup_lt_Some in Hm. subst p. lia. }
  destruct ps as [|m ps]; cbn [head insertBefore].
  { exists h1. split; [done|]. split; [|split; [|split]].
    - split; [apply NoDup_singleton|]. intros [|i] q Hq; [|done]. injection Hq as <-. exists n. done.
    - intros q k Hq. exists k. auto.
    - subst h1. rewrite length_app. cbn. lia.
    - by exists n. }
  destruct (Hl 0%nat m) as (nm & Hm & Hmn & Hmp); [done|]. cbn in Hmp.
  assert (m ≠ p) as Hmne by (intros ->; apply Hfresh; by left).
  rewrite (Hold _ _ Hm). cbn [of_option mbind outcome_bind].
  destruct (write_prev_local (m :: p :: ps) h1 m (Some p) nm) as [-> L1]; [by left|auto|]. cbn [mbind outcome_bind].
  set (h2 := <[m := _]> h1) in *. assert (h2 !! p = Some n) as Hp2 by (subst h2; by rewrite list_lookup_insert_ne).
  destruct (write_next_local (m :: p :: ps) h2 p (Some m) n) as [-> L2]; [by right; left|auto|]. cbn [mbind outcome_bind].
  rewrite Hmp. set (h3 := <[p := _]> h2) in *.
  assert (h3 !! p = Some (set_next (Some m) n)) as Hp3.
  { apply list_lookup_insert_eq. by eapply lookup_lt_Some. }
  exists h3. split; [done|]. split; [|split; [|split]].
  - split; [by apply NoDup_cons|]. intros [|i] q Hq.
    { injection Hq as <-. exists (set_next (Some m) n). done. }
    cbn in Hq. destruct (Hl i q Hq) as (k & Hk & Hkn & Hkp).
    assert (q ≠ p) as Hqp by (intros ->; apply Hfresh; by eapply list_elem_of_lookup_2).
    destruct i as [|i].
    + injection Hq as <-. exists (set_prev (Some p) nm). split_and!; [|done|done].
      subst h3 h2. rewrite list_lookup_insert_ne by done. apply list_lookup_insert_eq.
      eapply lookup_lt_Some. by apply Hold.
    + assert (q ≠ m) as Hqm by (intros ->; by eapply (lookup_nodup _ _ 0%nat) in Hq).
      exists k. split_and!; [|done|done]. subst h3 h2.
      rewrite !list_lookup_insert_ne by done. by apply Hold.
  - intros q k Hq. apply (same_stat_keeps h1 h3); [|by apply Hold].
    destruct L1 as [L1 _], L2 as [L2 _]. unfold same_stat in *. congruence.
  - subst h3 h2 h1. rewrite !length_insert, length_app. cbn. lia.
  - eauto.
Qed.

(** Node [p] is the first return of [id] in [es]. *)
Definition returns_at h (L : list (ptr * ev V)) es (id : Z) (p : ptr) : Prop :=
  (p, Ret id) ∈ L ∧ ∃ n v, h !! p = Some n ∧ value n = Some v ∧ ret_value id es = Some v.

Lemma returns_at_keeps h h' (L L' : list (ptr * ev V)) es es' id p :
  keeps h h' → (∀ x, x ∈ L → x ∈ L') → ret_value id es' = ret_value id es →
  returns_at h L es id p → returns_at h' L' es' id p.
Proof.
  intros Hk HL E (Hin & n & v & Hn & Hv & Hr). split; [auto|].
  destruct (Hk _ _ Hn) as (n' & Hn' & Hs). injection Hs as Hs _ _.
  exists n', v. split_and!; congruence.
Qed.

(** The list of the entries behind some point, with the nodes of their returns. *)
Record built h (root : option ptr) (mm : gmap Z ptr) es (ps : list ptr) : Prop := {
  b_linked : linked h ps;
  b_root : root = head ps;
  b_length : length ps = length es;
  b_shows px : px ∈ zip ps (evs es) → shows (zip ps (evs es)) h px;
  b_match id : match mm !! id with
               | Some p => returns_at h (zip ps (evs es)) es id p
               | None => ret_value id es = None
               end;
  b_heap : length h = length es;
}.

Lemma built_nil : built [] None ∅ [] [].
Proof.
  split; try done.
  - split; [constructor|]. intros i p Hi. by rewrite lookup_nil in Hi.
  - intros px ?%not_elem_of_nil. done.
Qed.

Lemma length_evs es : length (evs es) = length es.
Proof. induction es as [|e es IH]; cbn; [done|by rewrite IH]. Qed.

(** One more entry in front. *)
Lemma built_cons h root mm es ps e :
  built h root mm es ps →
  let match_ := match kind e with returnEntry => None | callEntry => mm !! eid e end in
  let mm' := match kind e with returnEntry => <[eid e := length h]> mm | callEntry => mm end in
  ∃ h', insertBefore (length h) root (h ++ [mkNode (Some (evalue e)) match_ (eid e) None None]) = Done h' ∧
    built h' (Some (length h)) mm' (e :: es) (length h :: ps).
Proof.
  intros [Hl -> Hlen Hsh Hmm Hh]. cbn zeta. set (nd := mkNode _ _ _ _ _).
  destruct (insertBefore_front h ps nd Hl) as (h' & -> & Hl' & Hk & Hlh & n' & Hn' & Hst); [done..|].
  exists h'. split; [done|]. injection Hst as S1 S2 S3. cbn in S1, S2, S3.
  assert (∀ x, x ∈ zip ps (evs es) → x ∈ zip (length h :: ps) (evs (e :: es))) as Hmono by (by right).
  split; [done|done|by cbn; rewrite Hlen| | |by cbn; rewrite Hlh, Hh].
  - intros px [->|Hin]%elem_of_cons; [|eapply shows_keeps; eauto].
    exists n'. cbn [fst snd]. split; [done|]. destruct (kind e).
    2:{ done. }
    pose proof (Hmm (eid e)) as Hm. destruct (mm !! eid e) as [mp|]; [|by rewrite Hm].
    eapply (returns_at_keeps _ _ _ _ _ es) in Hm as (Hin & m & w & Hm & Hv & Hr); [|done|exact Hmono|done].
    rewrite Hr. split; [done|]. split; [done|]. by exists mp, m.
  - intros i. destruct (decide (kind e = returnEntry ∧ i = eid e)) as [[Ek ->]|Hne].
    { rewrite Ek, lookup_insert_eq. split; [cbn; rewrite Ek; by left|].
      exists n', (evalue e). cbn. by rewrite Ek, Z.eqb_refl. }
    assert (ret_value i (e :: es) = ret_value i es) as Er.
    { cbn. destruct (kind e) eqn:Ek; [done|]. rewrite (proj2 (Z.eqb_neq _ _)); [done|]. intros E. by apply Hne. }
    assert (match kind e with callEntry => mm | returnEntry => <[eid e:=length h]> mm end !! i = mm !! i) as ->.
    { destruct (kind e) eqn:Ek; [done|]. apply lookup_insert_ne. intros E. by apply Hne. }
    specialize (Hmm i). destruct (mm !! i) as [mp|]; [|by rewrite Er]. eapply returns_at_keeps; eauto.
Qed.

Lemma linkFrom_built pre : ∀ h root mm es ps,
  built h root mm es ps →
  ∃ h' root' mm' ps', linkFrom pre root mm h = Done (h', root') ∧ built h' root' mm' (reverse pre ++ es) ps'.
Proof.
  induction pre as [|e pre IH]; intros h root mm es ps Hb; [cbn; eauto 10|].
  destruct (built_cons _ _ _ _ _ e Hb) as (h1 & H1 & Hb1).
  destruct (IH _ _ _ _ _ Hb1) as (h' & root' & mm' & ps' & H & Hb').
  exists h', root', mm', ps'. rewrite reverse_cons, <- app_assoc. split; [|done].
  cbn. rewrite H1. cbn. exact H.
Qed.

Lemma makeLinkedEntries_built es :
  ∃ h root mm ps, makeLinkedEntries es = Done (h, root) ∧ built h root mm es ps.
Proof.
  destruct (linkFrom_built (reverse es) _ _ _ _ _ built_nil) as (h & root & mm & ps & H & Hb).
  rewrite reverse_involutive, app_nil_r in Hb. eauto 10.
Qed.

(** [length] counts the nodes of a linked list. *)
Lemma list_length_linked h qs i fuel :
  linked h qs → (length qs - i <= fuel)%nat → list_length fuel (qs !! i) h = Z.of_nat (length qs - i).
Proof.
  intros Hl. revert i. induction fuel as [|fuel IH]; intros i Hf; cbn; [lia|].
  destruct (qs !! i) as [p|] eqn:Ei; [|apply lookup_ge_None in Ei; lia].
  destruct (linked_placed _ _ _ _ Hl Ei) as (n & -> & -> & _).
  apply lookup_lt_Some in Ei. rewrite IH; lia.
Qed.

End build.

(** ** Running the loop *)

Section run.
Context {V S : Type}.
Variable step : S → V → V → bool * S.
Variable equal : S → S → bool.
Variables (computePartial : bool) (hd : ptr).

Abbreviation never := (λ _ : nat, false).
Abbreviation loop fuel := (checkLoop step equal fuel computePartial hd).

(** Turns cost one unit of fuel each. *)
Lemma loop_turns cf cf' :
  rtc (turn step equal computePartial hd) cf cf' →
  ∃ k, ∀ fuel i, loop (k + fuel) never i cf = loop fuel never (k + i) cf'.
Proof.
  induction 1 as [cf|cf cf1 cf' Ht _ [k IH]]; [by exists 0%nat|]. exists (Datatypes.S k).
  intros fuel i. cbn. unfold turn in Ht. rewrite Ht. cbn. rewrite IH. f_equal. lia.
Qed.

Lemma loop_stops cf cf' b :
  rtc (turn step equal computePartial hd) cf cf' →
  iterate step equal computePartial hd false cf' = Done (inr b) →
  ∃ k, ∀ fuel i, (k <= fuel)%nat → loop fuel never i cf = Done (b, cf').
Proof.
  intros Ht Hs. destruct (loop_turns _ _ Ht) as [k Hk]. exists (k + 1)%nat. intros fuel i Hf.
  replace fuel with (k + Datatypes.S (fuel - k - 1))%nat by lia. rewrite Hk. cbn. by rewrite Hs.
Qed.

(** More fuel does not change a result. *)
Lemma loop_more fuel fuel' kill i cf r :
  loop fuel kill i cf = Done r → (fuel <= fuel')%nat → loop fuel' kill i cf = Done r.
Proof.
  revert fuel' i cf. induction fuel as [|fuel IH]; intros fuel' i cf H Hle; [done|].
  destruct fuel' as [|fuel']; [lia|]. cbn in H |- *. apply bind_Done in H as (x & -> & H). cbn.
  destruct x as [cf1|b]; [|done]. apply IH; [done|lia].
Qed.

Lemma loop_ext fuel kill kill' i cf :
  (∀ i, kill i = kill' i) → loop fuel kill i cf = loop fuel kill' i cf.
Proof.
  intros E. revert i cf. induction fuel as [|fuel IH]; intros i cf; cbn; [done|]. rewrite E.
  destruct (iterate _ _ _ _ _ _) as [[cf1|b]| |]; cbn; auto.
Qed.

(** The flag stops the loop early with false, and has no other effect. *)
Lemma iterate_killed cf r :
  iterate step equal computePartial hd false cf = Done r →
  iterate step equal computePartial hd true cf = Done (inr true) ∧ r = inr true ∨
  iterate step equal computePartial hd true cf = Done (inr false).
Proof.
  unfold iterate. destruct (cf_heap cf !! hd) as [n|]; cbn; [|done].
  destruct (next n); [by right|]. intros [= <-]. by left.
Qed.

Lemma loop_killed kill fuel i cf b cf' :
  loop fuel never i cf = Done (b, cf') →
  loop fuel kill i cf = Done (b, cf') ∨ ∃ cf2, loop fuel kill i cf = Done (false, cf2).
Proof.
  revert i cf. induction fuel as [|fuel IH]; intros i cf H; [done|]. cbn in H |- *.
  apply bind_Done in H as (r & Hr & H). destruct (kill i).
  - destruct (iterate_killed _ _ Hr) as [[-> ->]| ->]; cbn; [by left|right; eauto].
  - rewrite Hr. cbn. destruct r as [cf1|b']; [by apply IH|by left].
Qed.

End run.

(** ** [checkSingle] *)

Section single.
Context {V S : Type}.
Variable step : S → V → V → bool * S.
Variable equal : S → S → bool.
Variable computePartial : bool.

Hypothesis Hsim : ∀ s s' vi vo, equal s s' = true → (step s vi vo).1 = true →
  (step s' vi vo).1 = true ∧ equal (step s vi vo).2 (step s' vi vo).2 = true.

Variable history : list (entry V).

Hypothesis Hwf : well_formed (evs history).
Hypothesis Hids : ∀ e, e ∈ history → 0 <= eid e < Z.of_nat (length history) / 2.

Lemma evs_ids (es : list (entry V)) x : x ∈ evs es → ∃ e, e ∈ es ∧ ev_id x = eid e.
Proof.
  induction es as [|e es IH]; [by intros ?%not_elem_of_nil|]. cbn. intros [->|Hin]%elem_of_cons.
  - exists e. split; [by left|]. destruct (kind e), (ret_value (eid e) es); done.
  - destruct (IH Hin) as (e' & ? & ?). exists e'. split; [by right|done].
Qed.

(** The configuration [checkSingle] starts its loop in. *)
Definition started (init : S) (headEntry : ptr) (cf : config V S) : Prop :=
  ∃ L0, L0.*2 = evs history ∧ NoDup (headEntry :: L0.*1) ∧
    tracks headEntry L0 (Z.to_nat (Z.of_nat (length history) / 2)) cf 0 ∧
    remaining L0.*2 (cf_linearized cf) = evs history ∧
    cf_state cf = init ∧ cf_cache cf = ∅ ∧ cf_calls cf = [] ∧ cf_seqs cf = [].

Lemma checkSingle_starts init :
  ∃ headEntry cf, started init headEntry cf ∧
    ∀ fuel kill, checkSingle step equal fuel init history computePartial kill =
      ('(ok, cf) ← checkLoop step equal fuel computePartial headEntry kill 0 cf;
       if ok : bool then
         ids ← callIds (cf_heap cf) (cf_calls cf);
         mret (true, deref (cf_seqs cf ++ [ids])
           (replicate (Z.to_nat (Z.of_nat (length history) / 2)) (Some (length (cf_seqs cf)))))
       else mret (false, deref (cf_seqs cf) (cf_longest cf))).
Proof using Hids.
  destruct (makeLinkedEntries_built history) as (h & root & mm & ps & Hmk & Hb).
  destruct Hb as [Hl -> Hlen Hsh _ Hlh]. set (n := Z.of_nat (length history) / 2).
  assert (Z.quot (list_length (length h) (head ps) h) 2 = n) as Hn.
  { rewrite head_lookup, list_length_linked by (done || lia).
    rewrite Nat.sub_0_r, Hlen, Z.quot_div_nonneg by lia. done. }
  destruct (insertBefore_front h ps (mkNode None None (-1) None None) Hl)
    as (h' & Hins & Hl' & Hk & _ & _); [done..|].
  destruct (newBitset_spec n) as (Hbok & Hbr & Hbm); [apply Z.div_pos; lia|].
  set (L0 := zip ps (evs history)).
  assert (length ps = length (evs history)) as Hle by (by rewrite length_evs).
  assert (L0.*2 = evs history ∧ L0.*1 = ps) as [E2 E1].
  { subst L0. rewrite snd_zip, fst_zip by lia. done. }
  assert (∀ x, x ∈ evs history → 0 <= ev_id x < n) as Hx.
  { intros x (e & He & ->)%evs_ids. by apply Hids. }
  assert (filter (λ px, left (newBitset n) px.2) L0 = L0) as Hall.
  { apply filter_all. intros px _. unfold left. apply Hbm. }
  exists (length h), (mkConfig h' (head ps) init (newBitset n) ∅ [] [] (replicate (Z.to_nat n) None)).
  split.
  - exists L0. split_and!; cbn; try done; [by rewrite E1; apply Hl'| |].
    + split; cbn; rewrite ?Hall, ?E1; [|done| |by rewrite head_lookup|by constructor|apply length_replicate].
      * intros px Hin. eapply shows_keeps; [exact Hk|done|by apply Hsh].
      * split; [done|]. intros x Hin. rewrite E2 in Hin. apply Hbr. by apply Hx.
    + rewrite E2. apply filter_all. intros x _. apply Hbm.
  - intros fuel kill. unfold checkSingle. rewrite Hmk. cbn [mbind outcome_bind]. rewrite Hn.
    cbn [new_node]. rewrite Hins. done.
Qed.

(** The answer of the loop from a starting configuration. *)
Lemma started_answer init headEntry cf :
  started init headEntry cf →
  ∃ b cf', rtc (turn step equal computePartial headEntry) cf cf' ∧
    iterate step equal computePartial headEntry false cf' = Done (inr b) ∧
    (b = true → ∃ ids, callIds (cf_heap cf') (cf_calls cf') = Done ids) ∧
    (b = true ↔ linearizable step (evs history) init).
Proof using Hsim Hwf Hids.
  intros (L0 & E2 & Hptrs & Htr & Hrem & <- & Hc & Hcalls & _).
  set (n0 := Z.to_nat (Z.of_nat (length history) / 2)) in *.
  assert (well_formed L0.*2) as Hwf' by (by rewrite E2).
  assert (∀ px, px ∈ L0 → 0 <= ev_id px.2 < Z.of_nat n0) as Hids'.
  { intros px Hin. apply (list_elem_of_fmap_2 snd) in Hin. rewrite E2 in Hin.
    apply evs_ids in Hin as (e & He & ->). subst n0. specialize (Hids e He). lia. }
  set (n := length (evs history)).
  pose proof (sim_search step equal computePartial headEntry L0 n0 Hptrs Hwf' Hids' n cf Htr) as Hs.
  rewrite Hrem in Hs. specialize (Hs ltac:(done)).
  pose proof (search_correct step equal L0.*2 Hwf' Hsim n (cf_linearized cf) (cf_state cf) (cf_cache cf)
    (tr_lin _ _ _ _ _ Htr)) as Ha. rewrite Hrem in Ha. specialize (Ha ltac:(done)).
  unfold answers in Ha.
  assert (cache_ok step L0.*2 (evs history) (cf_cache cf)) as Hce.
  { rewrite Hc. intros k l L s Hk. by rewrite lookup_empty in Hk. }
  specialize (Ha Hce). destruct (search step equal n _ _ _ _) as [[] c]; unfold reaches in Hs; cbn in Hs, Ha;
    rewrite picks_iff in Ha by done.
  - destruct Hs as (cf' & Hr & Hst & Hok & Hca). exists true, cf'. split_and!; [done|apply Hst| |done].
    intros _. destruct (callIds_total L0 n0 Hids' _ _ Hok Hca) as (ids & ? & _). eauto.
  - destruct Hs as (cf' & i & p & a & Hr & Htr' & Hp & _ & E & Ecalls & _). exists false, cf'.
    split_and!; [done| |done|split; [done|]; intros; tauto].
    rewrite <- E in Hp. destruct (tracks_head _ _ _ _ _ _ Htr' Hp) as (hn & q & Hhd & Hq).
    destruct (tracks_node _ _ _ _ _ _ _ Htr' Hp) as (He & Hin & nd & Hnd & _).
    destruct (tr_static _ _ _ _ _ Htr' _ Hin) as (nd' & Hnd' & _ & Hmt). cbn in Hnd', Hmt.
    unfold iterate. rewrite Hhd. cbn. rewrite Hq, He. cbn. rewrite Hnd. cbn.
    assert (nd' = nd) as -> by congruence. by rewrite Hmt, Ecalls, Hcalls.
Qed.

Lemma checkSingle_spec init :
  ∃ b, (b = true ↔ linearizable step (evs history) init) ∧
  ∃ fuel0 longest, ∀ fuel, (fuel0 <= fuel)%nat →
    checkSingle step equal fuel init history computePartial (λ _, false) = Done (b, longest) ∧
    ∀ kill, checkSingle step equal fuel init history computePartial kill = Done (b, longest) ∨
      ∃ longest', checkSingle step equal fuel init history computePartial kill = Done (false, longest').
Proof using Hsim Hwf Hids.
  destruct (checkSingle_starts init) as (hd & cf & Hst & Hck).
  destruct (started_answer _ _ _ Hst) as (b & cf' & Hr & Hit & Hids' & Hb).
  exists b. split; [done|]. destruct (loop_stops _ _ _ _ _ _ _ Hr Hit) as [k Hk].
  assert (∃ longest, ∀ fuel kill, checkLoop step equal fuel computePartial hd kill 0 cf = Done (b, cf') →
    checkSingle step equal fuel init history computePartial kill = Done (b, longest)) as [longest Hl].
  { destruct b.
    - destruct (Hids' eq_refl) as [ids Hi]. eexists. intros fuel kill H. rewrite Hck, H. cbn.
      rewrite Hi. done.
    - eexists. intros fuel kill H. by rewrite Hck, H. }
  exists k, longest. intros fuel Hf. specialize (Hk fuel 0%nat Hf). split; [by apply Hl|]. intros kill.
  destruct (loop_killed _ _ _ _ kill _ _ _ _ _ Hk) as [H|[cf2 H]]; [by left; apply Hl|right].
  rewrite Hck, H. cbn. eauto.
Qed.

(** Any answer given without the flag is the right one. *)
Lemma checkSingle_answer init fuel b l :
  checkSingle step equal fuel init history computePartial (λ _, false) = Done (b, l) →
  b = true ↔ linearizable step (evs history) init.
Proof using Hsim Hwf Hids.
  intros H. destruct (checkSingle_spec init) as (b' & Hb & fuel0 & longest & Hf).
  destruct (checkSingle_starts init) as (hd & cf & _ & Hck).
  destruct (Hf (max fuel fuel0)) as [H' _]; [lia|]. rewrite Hck in H, H'.
  apply bind_Done in H as (r & Hr & H). eapply (loop_more _ _ _ _ _ (max fuel fuel0)) in Hr; [|lia].
  rewrite Hr in H'. cbn in H'. rewrite H in H'. injection H' as -> _. done.
Qed.

(** With a flag, a run that ends still ends, and a positive answer is right. *)
Lemma checkSingle_any init kill :
  ∃ fuel0, ∀ fuel, (fuel0 <= fuel)%nat →
  ∃ b l, checkSingle step equal fuel init history computePartial kill = Done (b, l) ∧
    (b = true → linearizable step (evs history) init).
Proof using Hsim Hwf Hids.
  destruct (checkSingle_spec init) as (b & Hb & fuel0 & longest & Hf). exists fuel0. intros fuel Hle.
  destruct (Hf fuel Hle) as [_ Hk]. destruct (Hk kill) as [->|[l' ->]]; [|by eexists _, _].
  eexists _, _. split; [done|]. apply Hb.
Qed.

End single.
