(* ===== verification/PorcPartial.v ===== *)
(** * Partial linearizations (src/src/porcupine/checker.go: the [longest] of
    [checkSingle])

    When [checkSingle] backtracks it records the calls on its stack.  Every
    sequence it records is a partial linearization of the history: operations
    that the model allows one after the other, each behind everything that had
    returned when it was called. *)

From stdpp Require Import base list numbers gmap relations.
From Stdlib Require Import Lia.
From S2P Require Import Prelude Bitset PorcHeap PorcModel PorcSpec PorcChecker PorcSearch PorcSim PorcRun.

(** ** The specification *)

Section spec.
Context {V S : Type} (step : S → V → V → bool * S).

Record partial_linearization (es : list (ev V)) (st : S) (order : list (op V)) : Prop := {
  pl_distinct : NoDup (o_id <$> order);
  pl_ops o : o ∈ order → o ∈ ops es;
  pl_legal : legal step st order;
  pl_closed a b i : order !! i = Some b → precedes es a (o_id b) → ∃ j, (j < i)%nat ∧ o_id <$> order !! j = Some a;
}.

(** The state behind a sequence of operations. *)
Definition run (st : S) (order : list (op V)) : S :=
  foldl (λ s o, (step s (o_in o) (o_out o)).2) st order.

Lemma legal_snoc st order o :
  legal step st (order ++ [o]) ↔ legal step st order ∧ (step (run st order) (o_in o) (o_out o)).1 = true.
Proof.
  unfold run. revert st. induction order as [|x order IH]; intros st; cbn; [tauto|]. rewrite IH. tauto.
Qed.

Lemma partial_nil es st : partial_linearization es st [].
Proof. split; [constructor|by intros o ?%not_elem_of_nil|done|done]. Qed.

(** Adding an operation whose predecessors are all there. *)
Lemma partial_snoc es st order o :
  partial_linearization es st order → o_id o ∉ o_id <$> order → o ∈ ops es →
  (step (run st order) (o_in o) (o_out o)).1 = true →
  (∀ a, precedes es a (o_id o) → a ∈ o_id <$> order) →
  partial_linearization es st (order ++ [o]).
Proof.
  intros [Hd Ho Hl Hc] Hnew Hin Hs Hp. split.
  - rewrite fmap_app. apply NoDup_app. split_and!; [done| |apply NoDup_singleton].
    intros x Hx ->%list_elem_of_singleton. done.
  - intros x [?| ->%list_elem_of_singleton]%elem_of_app; auto.
  - by apply legal_snoc.
  - intros a b i Hi Hpre. assert (∀ j x, o_id <$> order !! j = Some x → o_id <$> (order ++ [o]) !! j = Some x) as Happ.
    { intros j x (y & Hy & ->)%fmap_Some. by rewrite (lookup_app_l_Some _ _ _ _ Hy). }
    apply lookup_app_Some in Hi as [Hi|[Hge Hi]].
    + destruct (Hc a b i Hi Hpre) as (j & Hj & E). eauto.
    + apply list_lookup_singleton_Some in Hi as [Hi <-].
      pose proof (Hp a Hpre) as [j Hj]%list_elem_of_lookup. rewrite list_lookup_fmap in Hj. exists j.
      split; [|by apply Happ]. assert (j < length order)%nat; [|lia].
      destruct (order !! j) eqn:E; [by eapply lookup_lt_Some|done].
Qed.

(** What is placed later did not return before. *)
Lemma partial_respects es st order : partial_linearization es st order → respects es order.
Proof.
  intros [Hd _ _ Hc] a b (i & j & Hij & Hi & Hj) Hpre. destruct (Hc _ _ _ Hi Hpre) as (k & Hk & E).
  assert (k = j); [|lia]. eapply NoDup_lookup; [exact Hd| |]; rewrite list_lookup_fmap; [exact E|by rewrite Hj].
Qed.

(** A partial linearization of all operations is a linearization. *)
Lemma partial_full es st order :
  well_formed es → partial_linearization es st order → (length (ops es) <= length order)%nat → linearizable step es st.
Proof.
  intros Hwf Hp Hle. pose proof Hp as [Hd Ho Hl _]. exists order. split_and!; [|done|by eapply partial_respects].
  apply submseteq_length_Permutation; [|done]. apply NoDup_submseteq; [by eapply NoDup_fmap_1|done].
Qed.

End spec.

(** ** The stack of the loop *)

Section loop.
Context {V S : Type}.
Variable step : S → V → V → bool * S.
Variable hd : ptr.
Variable L0 : list (ptr * ev V).
Variable n0 : nat.
Variable init : S.

Hypothesis Hptrs : NoDup (hd :: L0.*1).
Hypothesis Hwf : well_formed L0.*2.
Hypothesis Hids : ∀ px, px ∈ L0 → 0 <= ev_id px.2 < Z.of_nat n0.

Abbreviation remL lin := (filter (λ px, left lin px.2) L0).
Abbreviation rest lin := (remaining L0.*2 lin).

(** The calls on the stack, each of which was lifted when only calls were in
    front of it; [order] are the operations they stand for. *)
Inductive stacked (h : heap V) : bitset → list (ptr * S) → S → list (op V) → Prop :=
  | stacked_nil lin : rest lin = L0.*2 → stacked h lin [] init []
  | stacked_snoc lin calls st order i j p mp a va wa st' :
      stacked h lin calls st order → lin_ok L0.*2 lin →
      remL lin !! i = Some (p, Inv a va wa) → remL lin !! Datatypes.S j = Some (mp, Ret a) → (i <= j)%nat →
      Forall is_inv (take i (rest lin)) → step st va wa = (true, st') →
      lifted h (hd :: (remL lin).*1) i j p mp →
      stacked h (set1 lin a) (calls ++ [(p, st)]) st' (order ++ [mkOp a va wa]).

Lemma remL_nodup lin : NoDup (hd :: (remL lin).*1).
Proof using Hptrs. eapply sublist_NoDup; [exact Hptrs|]. apply sublist_skip, fmap_sublist, sublist_filter. Qed.

Lemma remL_in_range lin p a va wa : lin_ok L0.*2 lin → (p, Inv a va wa) ∈ remL lin → in_range lin a.
Proof.
  intros [_ Hr] [_ Hin]%list_elem_of_filter. apply (Hr (Inv a va wa)). by apply (list_elem_of_fmap_2 snd) in Hin.
Qed.

(** Changes of the nodes that are still linked leave the stack alone. *)
Lemma stacked_local h h' lin calls st order :
  stacked h lin calls st order → local_to (hd :: (remL lin).*1) h h' → stacked h' lin calls st order.
Proof using Hptrs Hwf.
  intros Hs. induction Hs as [lin E|lin calls st order i j p mp a va wa st' _ IH Hlin Hi Hj Hij Hinv Hst Hlf]; intros Hloc.
  { by constructor. }
  rewrite (remL_set1 _ Hwf _ _ _ _ _ _ _ _ Hlin Hi Hj Hij), <- delete_linked in Hloc.
  econstructor; try done.
  - apply IH. eapply local_to_mono; [|exact Hloc]. by intros x ?%delete_incl%delete_incl.
  - eapply lifted_local; try done; [apply remL_nodup|..]; by rewrite lookup_cons_S, list_lookup_fmap, ?Hi, ?Hj.
Qed.

(** What is left is what was not picked. *)
Lemma stacked_rest h lin calls st order :
  stacked h lin calls st order → ∀ x, x ∈ rest lin ↔ x ∈ L0.*2 ∧ ev_id x ∉ o_id <$> order.
Proof using Hwf.
  intros Hs. induction Hs as [lin E|lin calls st order i j p mp a va wa st' _ IH Hlin Hi Hj Hij Hinv Hst Hlf]; intros x.
  { rewrite E. split; [|by intros [? _]]. intros ?. split; [done|apply not_elem_of_nil]. }
  apply list_elem_of_lookup_2 in Hi. destruct (set1_spec _ _ _ Hlin (remL_in_range _ _ _ _ _ Hlin Hi)) as (_ & _ & _ & ->).
  unfold remove. rewrite list_elem_of_filter, IH, fmap_app, elem_of_app. unfold other. cbn. rewrite list_elem_of_singleton. tauto.
Qed.

(** The operation at the front is not preceded by anything that is left. *)
Lemma front_closed lin i a va wa b :
  rest lin !! i = Some (Inv a va wa) → Forall is_inv (take i (rest lin)) → precedes L0.*2 b a → Ret b ∉ rest lin.
Proof using Hwf.
  intros Hi Hinv (vi & vo & Hb) Hin. pose proof (remaining_wf _ Hwf lin) as Hw.
  assert (Inv a va wa ∈ rest lin) as Ha by (by eapply list_elem_of_lookup_2).
  assert (Inv a vi vo = Inv a va wa) as E.
  { assert (mkOp a vi vo = mkOp a va wa) as [= -> ->]; [|done].
    apply (ops_unique L0.*2); [done|apply ops_elem; by apply occurs_elem in Hb as [_ ?]|apply ops_elem|done].
    by apply list_elem_of_filter in Ha as [_ ?]. }
  rewrite E in Hb. assert (precedes (rest lin) b a) as Hp.
  { exists va, wa. apply list_elem_of_filter in Hin as [? _], Ha as [? _]. by apply occurs_filter. }
  rewrite <- (take_drop_middle _ _ _ Hi) in Hw, Hp. by eapply front_minimal.
Qed.

Lemma rest_lookup lin i p x : remL lin !! i = Some (p, x) → rest lin !! i = Some x.
Proof. intros H. by rewrite <- remL_snd, list_lookup_fmap, H. Qed.

(** The stack spells a partial linearization, and the state is the one behind it. *)
Lemma stacked_partial h lin calls st order :
  stacked h lin calls st order →
  partial_linearization step L0.*2 init order ∧ st = run step init order.
Proof using Hwf.
  intros Hs. induction Hs as [lin E|lin calls st order i j p mp a va wa st' Hs [IH ->] Hlin Hi Hj Hij Hinv Hst Hlf].
  { split; [apply partial_nil|done]. }
  pose proof (stacked_rest _ _ _ _ _ Hs) as Hrest. pose proof (rest_lookup _ _ _ _ Hi) as Hri.
  pose proof (proj1 (Hrest _) (list_elem_of_lookup_2 _ _ _ Hri)) as [Hin Hnew]. split.
  - apply partial_snoc; [done|done|by apply ops_elem|cbn; by rewrite Hst|]. intros b Hb.
    destruct (decide (b ∈ o_id <$> order)) as [|Hnot]; [done|exfalso].
    apply (front_closed _ _ _ _ _ _ Hri Hinv Hb), Hrest. split; [|done].
    destruct Hb as (vi & vo & Hb). by apply occurs_elem in Hb as [? _].
  - unfold run. rewrite foldl_app. cbn. fold (run step init order). by rewrite Hst.
Qed.

Lemma callIds_app (h : heap V) (calls : list (ptr * S)) c (n : node V) ids :
  callIds h calls = Done ids → h !! c.1 = Some n → callIds h (calls ++ [c]) = Done (ids ++ [id n]).
Proof.
  revert ids. induction calls as [|d calls IH]; intros ids H Hn; cbn in H |- *.
  { injection H as <-. by rewrite Hn. }
  apply bind_Done in H as (nd & Hnd & H). apply bind_Done in H as (ids' & H' & [= <-]).
  rewrite Hnd. cbn. by rewrite (IH _ H' Hn).
Qed.

Lemma stacked_ids h lin calls st order :
  static_ok L0 h → stacked h lin calls st order → callIds h calls = Done (o_id <$> order).
Proof.
  intros Hok Hs. induction Hs as [lin E|lin calls st order i j p mp a va wa st' Hs IH Hlin Hi Hj Hij Hinv Hst Hlf]; [done|].
  apply list_elem_of_lookup_2, list_elem_of_filter in Hi as [_ Hi]. destruct (Hok _ Hi) as (n & Hn & Hid & _).
  cbn in Hn, Hid. rewrite (callIds_app _ _ (p, st) n _ IH Hn), fmap_app. cbn. by rewrite Hid.
Qed.

(** ** The loop *)

Definition recorded (ids : list Z) : Prop :=
  ∃ order, o_id <$> order = ids ∧ partial_linearization step L0.*2 init order.

(** The invariant of the loop. *)
Record recording (cf : config V S) : Prop := {
  rc_tracks : ∃ i, tracks hd L0 n0 cf i ∧ Forall is_inv (take i (rest (cf_linearized cf)));
  rc_stack : ∃ order, stacked (cf_heap cf) (cf_linearized cf) (cf_calls cf) (cf_state cf) order;
  rc_seqs : Forall recorded (cf_seqs cf);
}.

Lemma recording_ids cf :
  recording cf → ∃ ids, callIds (cf_heap cf) (cf_calls cf) = Done ids ∧ recorded ids.
Proof using Hwf.
  intros [(i & Htr & _) (order & Hs) _]. exists (o_id <$> order).
  split; [eapply stacked_ids; [apply Htr|done]|]. exists order. split; [done|]. by apply stacked_partial in Hs as [? _].
Qed.

Section turns.
Variable equal : S → S → bool.
Variable computePartial : bool.

Lemma recording_call cf i p a va wa :
  recording cf → tracks hd L0 n0 cf i → Forall is_inv (take i (rest (cf_linearized cf))) →
  remL (cf_linearized cf) !! i = Some (p, Inv a va wa) →
  ∃ cf', turn step equal computePartial hd cf cf' ∧ recording cf'.
Proof using Hptrs Hwf.
  intros [_ (order & Hs) Hq] Htr Hinv Hi.
  assert (((step (cf_state cf) va wa).1 = false ∨
    cacheContains equal (cf_cache cf) (set1 (cf_linearized cf) a) (step (cf_state cf) va wa).2 = true) ∨
    (∃ st', step (cf_state cf) va wa = (true, st') ∧
       cacheContains equal (cf_cache cf) (set1 (cf_linearized cf) a) st' = false)) as Hcase.
  { destruct (step (cf_state cf) va wa) as [[] st']; [|by left; left]. cbn.
    destruct (cacheContains _ _ _ _) eqn:E; [by left; right|right; eauto]. }
  destruct Hcase as [Hskip|(st' & Es & Hc)].
  - exists (at_next L0 cf i). split; [by eapply turn_skip|].
    split; [exists (Datatypes.S i)|exists order|]; [|done..]. split; [by apply tracks_next|]. cbn.
    rewrite (take_S_r _ _ _ (rest_lookup _ _ _ _ Hi)). by apply Forall_app, (conj Hinv), Forall_singleton.
  - destruct (turn_push step equal computePartial hd L0 n0 Hwf cf i p a va wa st' Htr Hi Es Hc)
      as (h' & j & mp & Ht & Htr' & Hj & Hij & Hlf & Hloc).
    eexists. split; [exact Ht|]. split; [exists 0%nat; by rewrite take_0|exists (order ++ [mkOp a va wa])|done]. cbn.
    econstructor; try done; [by eapply stacked_local|apply Htr].
Qed.

Lemma recording_return cf i p b :
  recording cf → tracks hd L0 n0 cf i → remL (cf_linearized cf) !! i = Some (p, Ret b) → cf_calls cf ≠ [] →
  ∃ cf', turn step equal computePartial hd cf cf' ∧ recording cf'.
Proof using Hptrs Hwf Hids.
  intros Hrec Htr Hi Hne. destruct (recording_ids _ Hrec) as (ids & Hcids & Hpart).
  destruct Hrec as [_ (order & Hs) Hq].
  inversion Hs as [lin E E1 E2 E3 E4|lin calls st order' i' j q mp a va wa st' Hs' Hlin Hi' Hj Hij Hinv Hst Hlf E1 E2 E3 E4];
    [by rewrite <- E2 in Hne|].
  destruct (turn_pop step equal computePartial hd L0 n0 Hptrs Hwf Hids cf i p b lin i' j q mp a va wa calls st)
    as (cf' & Ht & Htr' & F1 & F2 & F3 & _ & Hloc & Hsq); try done.
  exists cf'. split; [done|]. split.
  - exists (Datatypes.S i'). split; [done|]. rewrite F2, (take_S_r _ _ _ (rest_lookup _ _ _ _ Hi')).
    by apply Forall_app, (conj Hinv), Forall_singleton.
  - exists order'. rewrite F1, F2, F3. by eapply stacked_local.
  - destruct Hsq as [-> |(ids' & Hc & ->)]; [done|]. apply Forall_app, (conj Hq), Forall_singleton. congruence.
Qed.

(** A turn of the loop goes on with the invariant, or stops. *)
Lemma recording_turn killed cf r :
  recording cf → iterate step equal computePartial hd killed cf = Done r →
  match r with inl cf' => recording cf' | inr _ => True end.
Proof using Hptrs Hwf Hids.
  intros Hrec Hit. destruct r as [cf'|]; [|done].
  assert (killed = false) as ->.
  { destruct killed; [exfalso|done]. unfold iterate in Hit. apply bind_Done in Hit as (n & _ & Hit).
    by destruct (next n). }
  pose proof Hrec as [(i & Htr & Hinv) _ _]. assert (rest (cf_linearized cf) ≠ []) as Hne.
  { intros E. rewrite <- remL_snd in E. apply fmap_nil_inv in E.
    destruct (linked_placed _ _ 0%nat hd (tr_linked _ _ _ _ _ Htr)) as (n & Hn & Hnx & _); [done|].
    unfold iterate in Hit. rewrite Hn in Hit. cbn in Hit. by rewrite Hnx, E in Hit. }
  destruct (front_bound _ _ (remaining_wf _ Hwf _) Hne Hinv) as [x Hx].
  destruct (left_lookup _ _ _ _ Hx) as [p Hp].
  assert (∃ cf2, turn step equal computePartial hd cf cf2 ∧ recording cf2) as (cf2 & Ht & Hr2); [|unfold turn in Ht; congruence].
  destruct x as [a va wa|a]; [by eapply recording_call|]. eapply recording_return; try done.
  intros Ec. destruct (tracks_head _ _ _ _ _ _ Htr Hp) as (hn & q & Hhd & Hq).
  destruct (tracks_node _ _ _ _ _ _ _ Htr Hp) as (He & Hin & nd & Hnd & _).
  destruct (tr_static _ _ _ _ _ Htr _ Hin) as (nd' & Hnd' & _ & Hmt). cbn in Hnd', Hmt.
  unfold iterate in Hit. rewrite Hhd in Hit. cbn in Hit. rewrite Hq, He in Hit. cbn in Hit. rewrite Hnd in Hit. cbn in Hit.
  assert (nd' = nd) as -> by congruence. by rewrite Hmt, Ec in Hit.
Qed.

Lemma recording_loop fuel kill k cf b cf' :
  recording cf → checkLoop step equal fuel computePartial hd kill k cf = Done (b, cf') →
  recording cf' ∧ ∃ killed, iterate step equal computePartial hd killed cf' = Done (inr b).
Proof using Hptrs Hwf Hids.
  revert k cf. induction fuel as [|fuel IH]; intros k cf Hrec H; [done|]. cbn in H.
  apply bind_Done in H as (r & Hr & H). pose proof (recording_turn _ _ _ Hrec Hr) as Hn.
  destruct r as [cf1|b']; [by eapply IH|]. injection H as <- <-. eauto.
Qed.

(** The loop says true only behind the last entry. *)
Lemma iterate_true killed cf :
  iterate step equal computePartial hd killed cf = Done (inr true) →
  ∃ n, cf_heap cf !! hd = Some n ∧ next n = None.
Proof.
  unfold iterate. intros (n & Hn & H)%bind_Done. exists n. split; [by apply of_option_Done|].
  destruct (next n) as [q|]; [exfalso|done].
  destruct killed; [done|]. apply bind_Done in H as (p & _ & H). apply bind_Done in H as (e & _ & H).
  destruct (match_ e) as [mp|].
  - do 3 apply bind_Done in H as (? & _ & H). destruct (step _ _ _) as [[] st']; [|done].
    apply bind_Done in H as (? & _ & H). destruct (negb _); [|done]. by do 3 apply bind_Done in H as (? & _ & H).
  - destruct (last _); [|done]. apply bind_Done in H as ([seqs longest] & _ & H).
    by do 4 apply bind_Done in H as (? & _ & H).
Qed.

Lemma recording_true killed cf order :
  recording cf → stacked (cf_heap cf) (cf_linearized cf) (cf_calls cf) (cf_state cf) order →
  iterate step equal computePartial hd killed cf = Done (inr true) → order ≡ₚ ops L0.*2.
Proof using Hwf.
  intros [(i & Htr & _) _ _] Hs (n & Hn & Hnx)%iterate_true.
  destruct (linked_placed _ _ 0%nat hd (tr_linked _ _ _ _ _ Htr)) as (n' & Hn' & Hnx' & _); [done|].
  assert (n' = n) as -> by congruence. rewrite Hnx in Hnx'. symmetry in Hnx'. cbn in Hnx'.
  assert (rest (cf_linearized cf) = []) as Hnil.
  { rewrite <- remL_snd. by destruct (remL (cf_linearized cf)). }
  pose proof (stacked_rest _ _ _ _ _ Hs) as Hrest. rewrite Hnil in Hrest.
  destruct (stacked_partial _ _ _ _ _ Hs) as [[Hd Ho _ _] _].
  apply NoDup_Permutation; [by eapply NoDup_fmap_1|by apply ops_nodup|]. intros o. split; [apply Ho|].
  intros Hin. pose proof (proj1 (ops_elem _ _) Hin) as Hev.
  destruct (decide (o_id o ∈ o_id <$> order)) as [(o' & E & Ho')%list_elem_of_fmap|Hnot].
  - by rewrite (ops_unique _ o o' Hwf Hin (Ho _ Ho') E).
  - by pose proof (proj2 (Hrest _) (conj Hev Hnot)) as ?%not_elem_of_nil.
Qed.

End turns.
End loop.

(** ** [checkSingle] *)

Section single.
Context {V S : Type}.
Variable step : S → V → V → bool * S.
Variable equal : S → S → bool.
Variable computePartial : bool.
Variable history : list (entry V).

Hypothesis Hwf : well_formed (evs history).
Hypothesis Hids : ∀ e, e ∈ history → 0 <= eid e < Z.of_nat (length history) / 2.

Lemma deref_elem seqs longest q (ids : list Z) :
  Some (q, ids) ∈ deref seqs longest → Some q ∈ longest ∧ seqs !! q = Some ids.
Proof.
  intros (x & Hx & Hin)%list_elem_of_fmap. symmetry in Hx. apply bind_Some in Hx as (p & -> & Hx).
  by apply fmap_Some in Hx as (s & Hs & [= -> ->]).
Qed.

(** What an entry of [longest] may hold, given the answer [b]. *)
Definition entry_ok (init : S) (b : bool) (ids : list Z) : Prop :=
  ∃ order, o_id <$> order = ids ∧ partial_linearization step (evs history) init order ∧
    (b = true → order ≡ₚ ops (evs history)).

Lemma checkSingle_partials fuel init kill b longest q ids :
  checkSingle step equal fuel init history computePartial kill = Done (b, longest) →
  Some (q, ids) ∈ longest → entry_ok init b ids.
Proof using Hwf Hids.
  destruct (checkSingle_starts step equal computePartial history Hids init) as (hd & cf & Hst & ->).
  destruct Hst as (L0 & E2 & Hptrs & Htr & Hrem & Es & _ & Ec & Eq). unfold entry_ok. rewrite <- E2 in *.
  set (n0 := Z.to_nat (Z.of_nat (length history) / 2)) in *.
  assert (∀ px, px ∈ L0 → 0 <= ev_id px.2 < Z.of_nat n0) as Hids'.
  { intros px Hin%(list_elem_of_fmap_2 snd). rewrite E2 in Hin.
    apply evs_ids in Hin as (e & He & ->). subst n0. specialize (Hids e He). lia. }
  intros ((b' & cf') & Hloop & H)%bind_Done Hin.
  assert (recording step hd L0 n0 init cf) as Hrec.
  { split; [exists 0%nat; by rewrite take_0|exists []; rewrite Es, Ec; by constructor|by rewrite Eq]. }
  destruct (recording_loop step hd L0 n0 init Hptrs Hwf Hids' equal computePartial _ _ _ _ _ _ Hrec Hloop)
    as [Hrec' [killed Hit]]. pose proof Hrec' as [(i & Htr' & _) (order & Hs) Hseqs].
  assert (static_ok L0 (cf_heap cf')) as Hok by apply Htr'. destruct b'.
  - rewrite (stacked_ids _ _ _ _ _ _ _ _ _ Hok Hs) in H. injection H as <- <-.
    apply deref_elem in Hin as [[[= ->] _]%elem_of_replicate Hq]. rewrite list_lookup_middle in Hq by done.
    injection Hq as <-. exists order. split; [done|]. split; [by eapply stacked_partial|].
    intros _. by eapply recording_true.
  - injection H as <- <-. apply deref_elem in Hin as [_ Hq].
    destruct (Forall_lookup_1 _ _ _ _ Hseqs Hq) as (o & Ho & Hpl). by exists o.
Qed.

End single.
