(* ===== verification/PorcOps.v ===== *)
(** * Histories of operations (src/src/porcupine/checker.go: makeEntries)

    The sorted entries of a history whose operations return no earlier than they
    are called form a well-formed event sequence, and it is linearizable exactly
    when the operations can be put into a legal order in which none comes before
    one that had returned when it was called. *)

From stdpp Require Import base list numbers gmap.
From Stdlib Require Import Lia.
From S2P Require Import Prelude PorcModel PorcSpec.

(** ** The specification, on operations *)

Section spec.
Context {V S : Type} (step : S → V → V → bool * S).

Fixpoint legal_ops (st : S) (order : list (Operation V)) : Prop :=
  match order with
  | [] => True
  | o :: order' => (step st (Input o) (Output o)).1 = true ∧
      legal_ops (step st (Input o) (Output o)).2 order'
  end.

Definition real_time (order : list (Operation V)) : Prop :=
  ∀ i j x y, (i < j)%nat → order !! i = Some x → order !! j = Some y → Call x <= Return y.

Definition linearizable_ops (st : S) (history : list (Operation V)) : Prop :=
  ∃ order, order ≡ₚ history ∧ legal_ops st order ∧ real_time order.

End spec.

(** Every operation returns no earlier than it is called. *)
Definition timely {V} (history : list (Operation V)) : Prop :=
  ∀ o, o ∈ history → Call o <= Return o.

Section ops.
Context {V : Type}.
Implicit Types (history : list (Operation V)) (es : list (entry V)).

Fixpoint numbered (id : Z) history : list (Z * Operation V) :=
  match history with
  | [] => []
  | o :: history' => (id, o) :: numbered (id + 1) history'
  end.

Definition call_entry (x : Z * Operation V) : entry V :=
  mkEntry callEntry (Input x.2) x.1 (Call x.2) (opClientId x.2).

Definition return_entry (x : Z * Operation V) : entry V :=
  mkEntry returnEntry (Output x.2) x.1 (Return x.2) (opClientId x.2).

Lemma numbered_snd id history : (numbered id history).*2 = history.
Proof. revert id. induction history as [|o h IH]; intros id; cbn; [done|]. f_equal. apply IH. Qed.

Lemma numbered_range id history x :
  x ∈ numbered id history → id <= x.1 < id + Z.of_nat (length history).
Proof.
  revert id. induction history as [|o h IH]; intros id; cbn; [by intros ?%not_elem_of_nil|].
  intros [->|Hin]%elem_of_cons; cbn; [lia|]. apply IH in Hin. lia.
Qed.

Lemma numbered_nodup id history : NoDup (numbered id history).*1.
Proof.
  revert id. induction history as [|o h IH]; intros id; cbn; [constructor|].
  apply NoDup_cons. split; [|apply IH]. intros (x & -> & Hx)%list_elem_of_fmap.
  apply numbered_range in Hx. lia.
Qed.

Lemma numbered_unique history x y :
  x ∈ numbered 0 history → y ∈ numbered 0 history → x.1 = y.1 → x = y.
Proof.
  intros [i Hi]%list_elem_of_lookup [j Hj]%list_elem_of_lookup E.
  assert (i = j) as ->; [|congruence]. eapply NoDup_lookup; [apply (numbered_nodup 0 history)| |].
  - by rewrite list_lookup_fmap, Hi.
  - rewrite list_lookup_fmap, Hj. cbn. by rewrite E.
Qed.

Lemma entriesOf_elem id history e :
  e ∈ entriesOf id history ↔ ∃ x, x ∈ numbered id history ∧ (e = call_entry x ∨ e = return_entry x).
Proof.
  revert id. induction history as [|o h IH]; intros id; cbn.
  - split; [by intros ?%not_elem_of_nil|]. intros (x & ?%not_elem_of_nil & _). done.
  - rewrite !elem_of_cons, IH. split.
    + intros [->|[->|(x & Hx & E)]].
      * exists (id, o). split; [by left|by left].
      * exists (id, o). split; [by left|by right].
      * exists x. split; [by right|done].
    + intros (x & [->|Hx]%elem_of_cons & E); [destruct E; auto|eauto].
Qed.

Definition key (e : entry V) : entryKind * Z := (kind e, eid e).

Lemma entriesOf_nodup id history : NoDup (key <$> entriesOf id history).
Proof.
  revert id. induction history as [|o h IH]; intros id; cbn; [constructor|].
  assert (∀ k, (k, id) ∉ key <$> entriesOf (id + 1) h) as Hfresh.
  { intros k (e & E & He)%list_elem_of_fmap. apply entriesOf_elem in He as (x & Hx & He).
    apply numbered_range in Hx. injection E as _ E. destruct He as [-> | ->]; cbn in E; lia. }
  apply NoDup_cons. split; [|apply NoDup_cons; split; [|apply IH]].
  - rewrite not_elem_of_cons. split; [done|apply Hfresh].
  - apply Hfresh.
Qed.

End ops.

(** ** The sorted entries *)

Section sorted.
Context {V : Type} `{!TimeSort V, !TimeSortLaws (V := V) _}.
Variable history : list (Operation V).
Hypothesis Htimely : timely history.

Abbreviation es := (makeEntries history).
Abbreviation nums := (numbered 0 history).

Lemma makeEntries_elem e :
  e ∈ es ↔ ∃ x, x ∈ nums ∧ (e = call_entry x ∨ e = return_entry x).
Proof using TimeSortLaws0. unfold makeEntries. by rewrite sort_entries_perm, entriesOf_elem. Qed.

Lemma makeEntries_at k l e e' :
  es !! k = Some e → es !! l = Some e' → key e = key e' → k = l.
Proof using TimeSortLaws0.
  intros Hk Hl E. assert (NoDup (key <$> es)) as Hnd.
  { unfold makeEntries. rewrite sort_entries_perm. apply entriesOf_nodup. }
  eapply NoDup_lookup; [exact Hnd| |]; rewrite list_lookup_fmap, ?Hk, ?Hl; cbn; [done|by rewrite E].
Qed.

(** Before and behind, by time. *)
Lemma makeEntries_order k l e e' :
  es !! k = Some e → es !! l = Some e' → byTime_Less e e' = true → (k < l)%nat.
Proof using TimeSortLaws0.
  intros Hk Hl Hless. destruct (Nat.lt_trichotomy k l) as [?|[<-|Hlt]]; [done| |].
  - exfalso. assert (e' = e) as -> by congruence. revert Hless. unfold byTime_Less.
    rewrite Z.eqb_refl. cbn. by destruct (kind e).
  - pose proof (sort_entries_sorted _ _ _ _ _ Hlt Hl Hk). congruence.
Qed.

Lemma call_before_return x : x ∈ nums → byTime_Less (call_entry x) (return_entry x) = true.
Proof using Htimely.
  intros Hx. assert (Call x.2 <= Return x.2) as Ht.
  { apply Htimely. rewrite <- (numbered_snd 0 history). by apply list_elem_of_fmap_2. }
  unfold byTime_Less. cbn. destruct (Z.eqb_spec (Call x.2) (Return x.2)); cbn; [done|].
  apply Z.ltb_lt. lia.
Qed.

Lemma ret_value_unique i (l : list (entry V)) e :
  e ∈ l → kind e = returnEntry → eid e = i →
  (∀ e', e' ∈ l → key e' = key e → e' = e) → ret_value i l = Some (evalue e).
Proof.
  intros Hin Hk Hi Hu. induction l as [|e' l IH]; [by apply not_elem_of_nil in Hin|]. cbn.
  destruct (decide (key e' = key e)) as [E|Hne].
  { rewrite (Hu e') by (by left || done). by rewrite Hk, Hi, Z.eqb_refl. }
  apply elem_of_cons in Hin as [->|Hin]; [done|].
  assert (ret_value i l = Some (evalue e)) as Hr by (apply IH; [done|]; intros; apply Hu; [by right|done]).
  destruct (kind e') eqn:Ek; [done|]. destruct (Z.eqb_spec (eid e') i) as [E|]; [|done].
  exfalso. apply Hne. unfold key. congruence.
Qed.

Lemma evs_lookup (l : list (entry V)) k e :
  l !! k = Some e →
  evs l !! k = Some (match kind e, ret_value (eid e) (drop (S k) l) with
                     | callEntry, Some v => Inv (eid e) (evalue e) v
                     | _, _ => Ret (eid e)
                     end).
Proof.
  revert k. induction l as [|e' l IH]; intros k Hk; [done|]. destruct k as [|k].
  - injection Hk as ->. cbn. by rewrite drop_0.
  - cbn in Hk |- *. by apply IH.
Qed.

(** The events of the sorted entries. *)
Lemma evs_at k :
  match evs es !! k with
  | Some (Inv i v w) => ∃ x, x ∈ nums ∧ es !! k = Some (call_entry x) ∧
      i = x.1 ∧ v = Input x.2 ∧ w = Output x.2
  | Some (Ret i) => ∃ x, x ∈ nums ∧ es !! k = Some (return_entry x) ∧ i = x.1
  | None => es !! k = None
  end.
Proof using TimeSortLaws0 Htimely.
  destruct (es !! k) as [e|] eqn:Ek.
  2:{ apply lookup_ge_None in Ek. assert (length (evs es) = length es) as El.
      { clear. induction (makeEntries history) as [|e l IH]; cbn; [done|by rewrite IH]. }
      by rewrite lookup_ge_None_2 by lia. }
  rewrite (evs_lookup _ _ _ Ek).
  pose proof (list_elem_of_lookup_2 _ _ _ Ek) as He. apply makeEntries_elem in He as (x & Hx & He).
  destruct He as [-> | ->]; cbn [kind call_entry return_entry eid evalue]; [|by exists x].
  assert (return_entry x ∈ es) as [l Hl]%list_elem_of_lookup by (apply makeEntries_elem; eauto).
  pose proof (makeEntries_order _ _ _ _ Ek Hl (call_before_return _ Hx)) as Hkl.
  rewrite (ret_value_unique _ _ (return_entry x)); [by exists x| |done|done|].
  - apply list_elem_of_lookup. exists (l - S k)%nat. rewrite lookup_drop. by replace (S k + (l - S k))%nat with l by lia.
  - intros e' [m Hm]%list_elem_of_lookup E. rewrite lookup_drop in Hm.
    pose proof (makeEntries_at _ _ _ _ Hm Hl E) as El. rewrite El in Hm. congruence.
Qed.

Lemma evs_inv k i v w :
  evs es !! k = Some (Inv i v w) ↔
  ∃ x, x ∈ nums ∧ es !! k = Some (call_entry x) ∧ i = x.1 ∧ v = Input x.2 ∧ w = Output x.2.
Proof using TimeSortLaws0 Htimely.
  pose proof (evs_at k) as H. split; [intros E; by rewrite E in H|].
  intros (x & Hx & Hk & -> & -> & ->). destruct (evs es !! k) as [[i v w|i]|].
  - destruct H as (y & Hy & Hk' & -> & -> & ->). rewrite Hk in Hk'. injection Hk' as E1 E2 E3 E4.
    pose proof (numbered_unique _ _ _ Hx Hy E2) as ->. done.
  - destruct H as (y & _ & Hk' & _). by rewrite Hk in Hk'.
  - by rewrite Hk in H.
Qed.

Lemma evs_ret k i :
  evs es !! k = Some (Ret i) ↔ ∃ x, x ∈ nums ∧ es !! k = Some (return_entry x) ∧ i = x.1.
Proof using TimeSortLaws0 Htimely.
  pose proof (evs_at k) as H. split; [intros E; by rewrite E in H|].
  intros (x & Hx & Hk & ->). destruct (evs es !! k) as [[i v w|i]|].
  - destruct H as (y & _ & Hk' & _). by rewrite Hk in Hk'.
  - destruct H as (y & Hy & Hk' & ->). rewrite Hk in Hk'. injection Hk' as E1 E2 E3 E4. by rewrite E2.
  - by rewrite Hk in H.
Qed.

(** An event determines the position it is at. *)
Lemma evs_unique k l x y :
  evs es !! k = Some x → evs es !! l = Some y → ev_id x = ev_id y → (is_inv x ↔ is_inv y) → k = l.
Proof using TimeSortLaws0 Htimely.
  intros Hx Hy E Hi. destruct x as [i v w|i], y as [j v' w'|j]; cbn in *; subst; try tauto.
  - apply evs_inv in Hx as (x & _ & Hk & -> & _), Hy as (y & _ & Hl & Ey & _).
    eapply makeEntries_at; [done|done|]. unfold key. cbn. by rewrite Ey.
  - apply evs_ret in Hx as (x & _ & Hk & ->), Hy as (y & _ & Hl & Ey).
    eapply makeEntries_at; [done|done|]. unfold key. cbn. by rewrite Ey.
Qed.

Lemma makeEntries_wf : well_formed (evs es).
Proof using TimeSortLaws0 Htimely.
  assert (∀ x, x ∈ nums → occurs_before (evs es) (Inv x.1 (Input x.2) (Output x.2)) (Ret x.1)) as Hocc.
  { intros x Hx.
    assert (call_entry x ∈ es) as [k Hk]%list_elem_of_lookup by (apply makeEntries_elem; eauto).
    assert (return_entry x ∈ es) as [l Hl]%list_elem_of_lookup by (apply makeEntries_elem; eauto).
    exists k, l. split_and!; [|apply evs_inv; eauto 10|apply evs_ret; eauto].
    by apply (makeEntries_order _ _ _ _ Hk Hl), call_before_return. }
  split.
  - intros a va wa vb wb (k & l & Hkl & Hk & Hl). pose proof (evs_unique _ _ _ _ Hk Hl eq_refl). cbn in *. lia.
  - intros a (k & l & Hkl & Hk & Hl). pose proof (evs_unique _ _ _ _ Hk Hl eq_refl). cbn in *. lia.
  - intros a va wa [k Hk]%list_elem_of_lookup. apply evs_inv in Hk as (x & Hx & _ & -> & -> & ->). auto.
  - intros a [k Hk]%list_elem_of_lookup. apply evs_ret in Hk as (x & Hx & _ & ->). eauto.
Qed.

Lemma makeEntries_precedes x y :
  x ∈ nums → y ∈ nums → precedes (evs es) x.1 y.1 ↔ Return x.2 < Call y.2.
Proof using TimeSortLaws0 Htimely.
  intros Hx Hy. split.
  - intros (v & w & k & l & Hkl & Hk & Hl). apply evs_ret in Hk as (x' & Hx' & Hk & Ex).
    apply evs_inv in Hl as (y' & Hy' & Hl & Ey & _).
    rewrite <- (numbered_unique _ _ _ Hx Hx' Ex) in Hk.
    rewrite <- (numbered_unique _ _ _ Hy Hy' Ey) in Hl.
    pose proof (sort_entries_sorted _ _ _ _ _ Hkl Hk Hl) as Hs. unfold byTime_Less in Hs. cbn in Hs.
    destruct (Z.eqb_spec (Call y.2) (Return x.2)); cbn in Hs; [done|]. apply Z.ltb_ge in Hs. lia.
  - intros Hlt.
    assert (return_entry x ∈ es) as [k Hk]%list_elem_of_lookup by (apply makeEntries_elem; eauto).
    assert (call_entry y ∈ es) as [l Hl]%list_elem_of_lookup by (apply makeEntries_elem; eauto).
    exists (Input y.2), (Output y.2), k, l. split_and!; [|apply evs_ret; eauto|apply evs_inv; eauto 10].
    apply (makeEntries_order _ _ _ _ Hk Hl). unfold byTime_Less. cbn.
    destruct (Z.eqb_spec (Return x.2) (Call y.2)); cbn; [lia|]. by apply Z.ltb_lt.
Qed.

Definition to_op (x : Z * Operation V) : op V := mkOp x.1 (Input x.2) (Output x.2).

Lemma makeEntries_ops : ops (evs es) ≡ₚ to_op <$> nums.
Proof using TimeSortLaws0 Htimely.
  apply NoDup_Permutation; [apply ops_nodup, makeEntries_wf| |].
  - apply (NoDup_fmap_1 o_id). rewrite <- list_fmap_compose. apply (numbered_nodup 0 history).
  - intros o. rewrite ops_elem, list_elem_of_lookup, list_elem_of_fmap. split.
    + intros [k (x & Hx & _ & E1 & E2 & E3)%evs_inv]. exists x. split; [|done].
      destruct o. unfold to_op. cbn in *. congruence.
    + intros (x & -> & Hx).
      assert (call_entry x ∈ es) as [k Hk]%list_elem_of_lookup by (apply makeEntries_elem; eauto).
      exists k. apply evs_inv. eauto 10.
Qed.

Section legal.
Context {S : Type} (step : S → V → V → bool * S).

Lemma legal_numbered st (order : list (Z * Operation V)) :
  legal step st (to_op <$> order) ↔ legal_ops step st order.*2.
Proof. revert st. induction order as [|x order IH]; intros st; cbn; [done|]. by rewrite IH. Qed.

(** An order of the numbered operations respects the events iff it respects
    the times. *)
Lemma respects_numbered (order : list (Z * Operation V)) :
  order ≡ₚ nums → respects (evs es) (to_op <$> order) ↔ real_time order.*2.
Proof using TimeSortLaws0 Htimely.
  intros Hp. assert (∀ k x, order !! k = Some x → x ∈ nums) as Hin.
  { intros k x Hk. rewrite <- Hp. by eapply list_elem_of_lookup_2. }
  unfold respects, real_time. split.
  - intros H i j x y Hij. rewrite !list_lookup_fmap.
    destruct (order !! i) as [x'|] eqn:Ei; [|done]. destruct (order !! j) as [y'|] eqn:Ej; [|done].
    cbn. intros [= <-] [= <-]. apply Z.nlt_ge. intros Hlt. apply (H (to_op x') (to_op y')).
    + exists i, j. by rewrite !list_lookup_fmap, Ei, Ej.
    + cbn. apply makeEntries_precedes; eauto.
  - intros H a b (i & j & Hij & Ha & Hb) Hpr. rewrite list_lookup_fmap in Ha, Hb.
    destruct (order !! i) as [x|] eqn:Ei; [|done]. destruct (order !! j) as [y|] eqn:Ej; [|done].
    cbn in Ha, Hb. injection Ha as <-. injection Hb as <-. cbn in Hpr.
    apply makeEntries_precedes in Hpr; [|by eauto..].
    specialize (H i j x.2 y.2 Hij). rewrite !list_lookup_fmap, Ei, Ej in H. specialize (H eq_refl eq_refl). lia.
Qed.

Lemma makeEntries_linearizable st :
  linearizable step (evs es) st ↔ linearizable_ops step st history.
Proof using TimeSortLaws0 Htimely.
  unfold linearizable, linearizable_ops. setoid_rewrite makeEntries_ops. split.
  - intros (order & Hp & Hleg & Hr). apply Permutation_map_inv in Hp as (order' & -> & Hp).
    exists order'.*2. split_and!; [|by apply legal_numbered|by apply respects_numbered].
    by rewrite <- Hp, numbered_snd.
  - intros (order & Hp & Hleg & Hr). rewrite <- (numbered_snd 0 history) in Hp.
    apply Permutation_map_inv in Hp as (order' & -> & Hp). symmetry in Hp.
    exists (to_op <$> order'). split_and!; [by rewrite Hp|by apply legal_numbered|by apply respects_numbered].
Qed.

End legal.

(** The ids are numbers of operations. *)
Lemma makeEntries_ids e :
  e ∈ es → 0 <= eid e < Z.of_nat (length es) / 2.
Proof using TimeSortLaws0.
  intros (x & Hx & He)%makeEntries_elem. apply numbered_range in Hx.
  assert (length es = 2 * length history)%nat as ->.
  { unfold makeEntries. rewrite sort_entries_perm. generalize 0. clear.
    induction history as [|o h IH]; intros i; cbn; [done|]. rewrite IH. lia. }
  rewrite Nat2Z.inj_mul, Z.mul_comm, Z.div_mul by lia. destruct He as [-> | ->]; cbn; lia.
Qed.

End sorted.
