(* ===== verification/PorcParallel.v ===== *)
(** * The parallel checker (src/src/porcupine/checker.go: checkParallel and its
    callers; porcupine.go)

    One goroutine per part of the history runs [checkSingle] and sends its
    result; the main goroutine receives results until it has all of them, one is
    false, or the timeout fires.  A schedule is the list of what happens:
    - [Finish i fuel seen]: goroutine [i] is done and sends its result.  It has
      read the kill flag as set from turn [seen] of its loop on; the flag is only
      ever set, so this is all a goroutine can see of it, and it has not seen it
      set while it is clear.
    - [Receive]: the main goroutine takes a result out of the channel.
    - [Timeout]: the timer fires and the main goroutine takes that branch. *)

From stdpp Require Import base list numbers gmap relations.
From Stdlib Require Import Lia.
From S2P Require Import Prelude Bitset PorcHeap PorcModel PorcSpec PorcChecker PorcRun PorcOps.

Abbreviation partials_t := (list (option (nat * list Z))).

(** Where the main goroutine is: in the select loop, waiting for the remaining
    goroutines, or behind both loops. *)
Inductive phase : Type := Selecting | Draining | Returning.

#[export] Instance phase_eq_dec : EqDecision phase.
Proof. solve_decision. Defined.

Record par : Type := mkPar {
  p_longest : list (option partials_t);
  p_results : list bool;
  p_kill : bool;
  p_ok : bool;
  p_timedOut : bool;
  p_count : Z;
  p_phase : phase;
}.

Inductive act : Type :=
  | Finish (i fuel : nat) (seen : option nat)
  | Receive
  | Timeout.

(** What a goroutine reads from the flag at turn [i]. *)
Definition sees (seen : option nat) (i : nat) : bool :=
  match seen with None => false | Some k => (k <=? i)%nat end.

Record linearizationInfo (V : Type) : Type := mkInfo {
  history : list (list (entry V));
  partialLinearizations : list (list (list Z));
}.

Arguments mkInfo {V}.
Arguments history {V}.
Arguments partialLinearizations {V}.

(** [longest] as a set of sequences, one per pointer.  The Go code lists them in
    the order of a map iteration; here they come in the order of the slice. *)
Definition uniquePartials (longest : partials_t) : list (list Z) :=
  (remove_dups (omap (λ v, v) longest)).*2.

Section parallel.
Context {V S : Type}.
Variable model : Model V S.
Variable equal : S → S → bool.
Variable hist : list (list (entry V)).
Variable computeInfo : bool.
Variable timeout : Z.

Definition initPar : par :=
  mkPar (replicate (length hist) None) [] false true false 0 Selecting.

(** Where the main goroutine goes when it leaves the select loop. *)
Definition leave (count : Z) : phase :=
  if computeInfo && (count <? Z.of_nat (length hist)) then Draining else Returning.

Definition exec (a : act) (p : par) : outcome par :=
  match a with
  | Finish i fuel seen =>
      match p_longest p !! i, p_kill p, seen with
      | Some None, false, Some _ => Blocked
      | Some None, _, _ =>
          subhistory ← of_option (hist !! i);
          '(ok, l) ← checkSingle (Step model) equal fuel (Init model) subhistory computeInfo (sees seen);
          mret (mkPar (<[i := Some l]> (p_longest p)) (p_results p ++ [ok]) (p_kill p) (p_ok p)
            (p_timedOut p) (p_count p) (p_phase p))
      | _, _, _ => Blocked
      end
  | Receive =>
      match p_results p with
      | [] => Blocked
      | result :: results =>
          let count := p_count p + 1 in
          match p_phase p with
          | Selecting =>
              let ok := p_ok p && result in
              if negb ok && negb computeInfo then
                mret (mkPar (p_longest p) results true ok (p_timedOut p) count (leave count))
              else if Z.of_nat (length hist) <=? count then
                mret (mkPar (p_longest p) results (p_kill p) ok (p_timedOut p) count (leave count))
              else mret (mkPar (p_longest p) results (p_kill p) ok (p_timedOut p) count Selecting)
          | Draining =>
              mret (mkPar (p_longest p) results (p_kill p) (p_ok p) (p_timedOut p) count
                (if count <? Z.of_nat (length hist) then Draining else Returning))
          | Returning => Blocked
          end
      end
  | Timeout =>
      if (0 <? timeout) && bool_decide (p_phase p = Selecting) then
        mret (mkPar (p_longest p) (p_results p) true (p_ok p) true (p_count p) (leave (p_count p)))
      else Blocked
  end.

Fixpoint execs (acts : list act) (p : par) : outcome par :=
  match acts with
  | [] => mret p
  | a :: acts' => p ← exec a p; execs acts' p
  end.

Definition resultOf (p : par) : CheckResult :=
  if negb (p_ok p) then Illegal else if p_timedOut p then Unknown else Ok.

Definition infoOf (p : par) : linearizationInfo V :=
  if computeInfo then
    mkInfo hist (uniquePartials <$> (default [] <$> p_longest p))
  else mkInfo [] [].

(** A schedule that does not bring the main goroutine to its return has not
    returned (yet). *)
Definition checkParallel (acts : list act) : outcome (CheckResult * linearizationInfo V) :=
  p ← execs acts initPar;
  if decide (p_phase p = Returning) then mret (resultOf p, infoOf p) else Blocked.

End parallel.

(** ** The callers *)

Section callers.
Context {V S : Type} `{!EqDecision S} `{!TimeSort V}.

Definition checkOperations (model : Model V S) (hist : list (Operation V)) (verbose : bool)
    (timeout : Z) (acts : list act) : outcome (CheckResult * linearizationInfo V) :=
  let model := fillDefault model in
  partition ← of_option (Partition model);
  equal ← of_option (Equal model);
  let l := makeEntries <$> partition hist in
  checkParallel model equal l verbose timeout acts.

Definition checkEvents (model : Model V S) (hist : list (Event V)) (verbose : bool)
    (timeout : Z) (acts : list act) : outcome (CheckResult * linearizationInfo V) :=
  let model := fillDefault model in
  partition ← of_option (PartitionEvent model);
  equal ← of_option (Equal model);
  let l := (λ subhistory, convertEntries (renumber subhistory)) <$> partition hist in
  checkParallel model equal l verbose timeout acts.

Definition is_Ok (r : CheckResult) : bool := match r with Ok => true | _ => false end.

Definition CheckOperations (model : Model V S) hist acts : outcome bool :=
  '(res, _) ← checkOperations model hist false 0 acts; mret (is_Ok res).

Definition CheckOperationsTimeout (model : Model V S) hist timeout acts : outcome CheckResult :=
  '(res, _) ← checkOperations model hist false timeout acts; mret res.

Definition CheckOperationsVerbose (model : Model V S) hist timeout acts :=
  checkOperations model hist true timeout acts.

Definition CheckEvents (model : Model V S) hist acts : outcome bool :=
  '(res, _) ← checkEvents model hist false 0 acts; mret (is_Ok res).

Definition CheckEventsTimeout (model : Model V S) hist timeout acts : outcome CheckResult :=
  '(res, _) ← checkEvents model hist false timeout acts; mret res.

Definition CheckEventsVerbose (model : Model V S) hist timeout acts :=
  checkEvents model hist true timeout acts.

End callers.

(** ** Correctness *)

Section correct.
Context {V S : Type}.
Variable model : Model V S.
Variable equal : S → S → bool.
Variable hist : list (list (entry V)).
Variable computeInfo : bool.
Variable timeout : Z.

Abbreviation exec1 := (exec model equal hist computeInfo timeout).
Abbreviation execs1 := (execs model equal hist computeInfo timeout).
Abbreviation n := (length hist).
Abbreviation lin es := (linearizable (Step model) (evs es) (Init model)).

Hypothesis Hsim : ∀ s s' vi vo, equal s s' = true → (Step model s vi vo).1 = true →
  (Step model s' vi vo).1 = true ∧ equal (Step model s vi vo).2 (Step model s' vi vo).2 = true.
Hypothesis Hwf : ∀ es, es ∈ hist → well_formed (evs es).
Hypothesis Hids : ∀ es, es ∈ hist → ∀ e, e ∈ es → 0 <= eid e < Z.of_nat (length es) / 2.

Definition unfinished (p : par) : nat := length (filter (λ l, l = None) (p_longest p)).

(** The results so far, received or not, are those of the goroutines in
    [who]. *)
Definition reports (who : list nat) (bs : list bool) : Prop :=
  Forall2 (λ i b, ∃ es, hist !! i = Some es ∧ (b = true ↔ lin es)) who bs.

Record par_inv (p : par) : Prop := {
  pi_length : length (p_longest p) = n;
  pi_count : Z.of_nat (length (p_results p) + unfinished p) + p_count p = Z.of_nat n;
  pi_waiting : p_phase p ≠ Returning → p_count p < Z.of_nat n;
  pi_selecting : p_phase p = Selecting →
    p_kill p = false ∧ p_timedOut p = false ∧
    ∃ who recv, reports who (recv ++ p_results p) ∧ NoDup who ∧
      (∀ i, i ∈ who ↔ ∃ l, p_longest p !! i = Some (Some l)) ∧
      p_count p = Z.of_nat (length recv) ∧ p_ok p = forallb (λ b, b) recv;
  pi_illegal : p_phase p ≠ Selecting → p_ok p = false → ∃ es, es ∈ hist ∧ ¬ lin es;
  pi_ok : p_phase p ≠ Selecting → p_ok p = true → p_timedOut p = false → ∀ es, es ∈ hist → lin es;
}.

Lemma unfinished_insert i l p :
  p_longest p !! i = Some None →
  length (filter (λ l, l = None) (<[i := Some l]> (p_longest p))) = (unfinished p - 1)%nat ∧
  (0 < unfinished p)%nat.
Proof.
  intros Hi. unfold unfinished.
  pose proof (length_filter_insert (λ l, l = None) (p_longest p) i (Some l) None Hi) as H.
  rewrite decide_True, decide_False in H by done. lia.
Qed.

Lemma finish_inv i fuel seen p p' :
  par_inv p → exec1 (Finish i fuel seen) p = Done p' → par_inv p'.
Proof using Hsim Hwf Hids.
  intros [H1 H2 H3 H4 H5 H6] H. cbn in H. destruct (p_longest p !! i) as [[l0|]|] eqn:El; try done.
  assert (p_kill p = true ∨ seen = None) as Hseen by (destruct (p_kill p), seen; auto; done).
  assert (∃ es ok l, hist !! i = Some es ∧
    checkSingle (Step model) equal fuel (Init model) es computeInfo (sees seen) = Done (ok, l) ∧
    p' = mkPar (<[i := Some l]> (p_longest p)) (p_results p ++ [ok]) (p_kill p) (p_ok p)
            (p_timedOut p) (p_count p) (p_phase p)) as (es & ok & l & Hes & Hck & ->).
  { destruct (p_kill p), seen; try done; go_inv; eauto 10. }
  destruct (unfinished_insert i l p El) as [Hu Hpos].
  split; cbn [p_longest p_results p_kill p_ok p_timedOut p_count p_phase]; try done.
  - by rewrite length_insert.
  - unfold unfinished. cbn [p_longest]. rewrite length_app, Hu. cbn [length]. lia.
  - intros Hs. destruct (H4 Hs) as (Hk & Ht & who & recv & Hrep & Hnd & Hwho & Hc & Hok).
    destruct Hseen as [Hseen| ->]; [congruence|]. split; [done|]. split; [done|].
    exists (who ++ [i]), recv. split_and!; try done.
    + rewrite app_assoc. apply Forall2_app; [done|]. constructor; [|constructor].
      exists es. split; [done|].
      apply list_elem_of_lookup_2 in Hes. eapply checkSingle_answer; eauto.
    + apply NoDup_app. split; [done|]. split; [|apply NoDup_singleton].
      intros j [l' Hl']%Hwho ->%list_elem_of_singleton. congruence.
    + intros j. rewrite elem_of_app, list_elem_of_singleton, Hwho.
      destruct (decide (j = i)) as [->|Hji].
      * rewrite list_lookup_insert_eq by (by eapply lookup_lt_Some). split; [eauto|by right].
      * rewrite list_lookup_insert_ne by done. split; [|auto]. by intros [?| ->].
Qed.

(** What the received results say. *)
Lemma reports_false who recv rest :
  reports who (recv ++ rest) → forallb (λ b, b) recv = false → ∃ es, es ∈ hist ∧ ¬ lin es.
Proof.
  intros Hr Hf. apply forallb_false_iff in Hf as (b & Hin & Hb). apply list_elem_of_In in Hin.
  apply list_elem_of_lookup in Hin as [k Hk]. apply lookup_app_l_Some with (l2 := rest) in Hk.
  destruct (Forall2_lookup_r _ _ _ _ _ Hr Hk) as (i & _ & es & Hes & Hlin).
  exists es. split; [by eapply list_elem_of_lookup_2|]. rewrite <- Hlin. congruence.
Qed.

Lemma reports_true who recv i es :
  reports who recv → forallb (λ b, b) recv = true → i ∈ who → hist !! i = Some es → lin es.
Proof.
  intros Hr Hf [k Hk]%list_elem_of_lookup Hes.
  destruct (Forall2_lookup_l _ _ _ _ _ Hr Hk) as (b & Hb & es' & Hes' & Hlin).
  assert (es' = es) as -> by congruence. apply Hlin.
  apply (proj1 (forallb_forall _ _) Hf b). apply list_elem_of_In. by eapply list_elem_of_lookup_2.
Qed.

(** When everything is received, every goroutine has finished. *)
Lemma all_finished p i :
  length (p_longest p) = n → unfinished p = 0%nat → (i < n)%nat → ∃ l, p_longest p !! i = Some (Some l).
Proof.
  intros Hl Hu Hi. destruct (lookup_lt_is_Some_2 (p_longest p) i) as [[l|] Ho]; [lia|eauto|].
  exfalso. assert (None ∈ filter (λ l, l = None) (p_longest p)) as Hin.
  { apply list_elem_of_filter. split; [done|by eapply list_elem_of_lookup_2]. }
  unfold unfinished in Hu. apply length_zero_iff_nil in Hu. rewrite Hu in Hin.
  by apply not_elem_of_nil in Hin.
Qed.

Lemma receive_selecting p result results p' :
  par_inv p → p_phase p = Selecting → p_results p = result :: results →
  exec1 Receive p = Done p' → par_inv p'.
Proof.
  intros [H1 H2 H3 H4 _ _] Hs Hr H. cbn in H. rewrite Hr, Hs in H.
  destruct (H4 Hs) as (Hk & Ht & who & recv & Hrep & Hnd & Hwho & Hc & Hok).
  rewrite Hr in H2, Hrep. cbn [length] in H2. rewrite cons_middle, app_assoc in Hrep.
  assert (p_ok p && result = forallb (λ b, b) (recv ++ [result])) as Hok'.
  { rewrite forallb_app, <- Hok. cbn. by rewrite andb_true_r. }
  rewrite Hok' in H. set (recv' := recv ++ [result]) in *.
  assert (p_count p + 1 = Z.of_nat (length recv')) as Hc' by (subst recv'; rewrite length_app; cbn; lia).
  assert (∀ ph kill, ph ≠ Selecting → (ph = Draining → p_count p + 1 < Z.of_nat n) →
    (forallb (λ b, b) recv' = true → Z.of_nat n <= p_count p + 1) →
    par_inv (mkPar (p_longest p) results kill (forallb (λ b, b) recv') (p_timedOut p) (p_count p + 1) ph)) as Hout.
  { intros ph kill Hph Hd Hall.
    split; unfold unfinished in *; cbn [p_longest p_results p_kill p_ok p_timedOut p_count p_phase];
      [done|lia|destruct ph; auto; done|done|intros; by eapply reports_false|].
    intros _ Hf _ es [i Hi]%list_elem_of_lookup. specialize (Hall Hf).
    assert (unfinished p = 0%nat ∧ results = []) as [Hu ->].
    { unfold unfinished. split; [lia|]. apply length_zero_iff_nil. lia. }
    rewrite app_nil_r in Hrep. eapply reports_true; [exact Hrep|done| |done].
    apply Hwho, all_finished; [done|done|]. by eapply lookup_lt_Some. }
  assert (∀ c, leave hist computeInfo c ≠ Selecting ∧
    (leave hist computeInfo c = Draining → c < Z.of_nat n)) as Hleave.
  { intros c. unfold leave. destruct computeInfo; cbn; [|done]. destruct (Z.ltb_spec c (Z.of_nat n)); done. }
  destruct (negb _ && negb computeInfo) eqn:E1; [|destruct (Z.leb_spec (Z.of_nat n) (p_count p + 1))].
  - injection H as <-. apply andb_true_iff in E1 as [E1%negb_true_iff _].
    apply Hout; [apply Hleave..|congruence].
  - injection H as <-. apply Hout; [apply Hleave..|done].
  - injection H as <-. split; unfold unfinished in *; cbn [p_longest p_results p_kill p_ok p_timedOut p_count p_phase];
      [done|lia|done| |done|done].
    intros _. split; [done|]. split; [done|]. by exists who, recv'.
Qed.

Lemma exec_inv a p p' : par_inv p → exec1 a p = Done p' → par_inv p'.
Proof using Hsim Hwf Hids.
  destruct a as [i fuel seen| |]; [apply finish_inv| |]; intros Hinv H; pose proof Hinv as [H1 H2 H3 H4 H5 H6].
  - pose proof H as H'. cbn in H. destruct (p_results p) as [|r rs] eqn:Er; [done|].
    destruct (p_phase p) eqn:Es; [by eapply receive_selecting| |done]. injection H as <-.
    split; unfold unfinished in *; cbn [p_longest p_results p_kill p_ok p_timedOut p_count p_phase length] in *;
      [done|lia| | |intros _; by apply H5|intros _; by apply H6];
      destruct (Z.ltb_spec (p_count p + 1) (Z.of_nat n)); done.
  - cbn in H. destruct (0 <? timeout), (bool_decide_reflect (p_phase p = Selecting)) as [Hs|]; try done.
    injection H as <-. destruct (H4 Hs) as (_ & _ & who & recv & Hrep & _ & _ & _ & Hok).
    split; unfold unfinished in *; cbn [p_longest p_results p_kill p_ok p_timedOut p_count p_phase] in *;
      [done|done| | | |done].
    + intros _. apply H3. congruence.
    + unfold leave. by destruct (computeInfo && _).
    + intros _ Hf. rewrite Hok in Hf. by eapply reports_false.
Qed.

Lemma initPar_inv : hist ≠ [] → par_inv (initPar hist).
Proof.
  intros Hne. assert (0 < length hist)%nat by (destruct hist; [done|cbn; lia]).
  split; cbn [p_longest p_results p_kill p_ok p_timedOut p_count p_phase initPar]; try done.
  - apply length_replicate.
  - unfold unfinished. cbn. rewrite filter_all, length_replicate; [lia|].
    by intros x [-> _]%elem_of_replicate.
  - lia.
  - intros _. split; [done|]. split; [done|]. exists [], []. split_and!; try done; [constructor..|].
    intros i. split; [by intros ?%not_elem_of_nil|]. intros (l & Hl). by apply lookup_replicate in Hl as [? _].
Qed.

Lemma execs_inv acts p p' : par_inv p → execs1 acts p = Done p' → par_inv p'.
Proof using Hsim Hwf Hids.
  revert p. induction acts as [|a acts IH]; intros p Hp H; cbn in H; [by injection H as <-|].
  apply bind_Done in H as (p1 & H1 & H). eapply IH; [|done]. by eapply exec_inv.
Qed.

(** ** Termination *)

Definition measure (p : par) : nat :=
  2 * unfinished p + length (p_results p) + (if decide (p_phase p = Selecting) then 1 else 0).

(** Every step of a schedule brings the return closer. *)
Lemma exec_measure a p p' : exec1 a p = Done p' → (measure p' < measure p)%nat.
Proof.
  intros H. destruct a as [i fuel seen| |]; cbn in H.
  - destruct (p_longest p !! i) as [[l0|]|] eqn:El; try done.
    assert (∃ ok l, p' = mkPar (<[i := Some l]> (p_longest p)) (p_results p ++ [ok]) (p_kill p) (p_ok p)
            (p_timedOut p) (p_count p) (p_phase p)) as (ok & l & ->).
    { destruct (p_kill p), seen; try done; go_inv; eauto 10. }
    destruct (unfinished_insert i l p El) as [Hu Hpos]. unfold measure. cbn [p_results p_phase].
    unfold unfinished at 1. cbn [p_longest]. rewrite Hu, length_app. cbn [length]. lia.
  - destruct (p_results p) as [|r rs] eqn:Er; [done|].
    assert (p_longest p' = p_longest p ∧ p_results p' = rs ∧
      (p_phase p' = Selecting → p_phase p = Selecting)) as (E1 & E2 & E3).
    { destruct (p_phase p); [| |done].
      - repeat case_match; by injection H as <-.
      - injection H as <-. cbn. by case_match. }
    unfold measure, unfinished. rewrite E1, E2, Er. cbn [length].
    destruct (decide (p_phase p' = Selecting)), (decide (p_phase p = Selecting)); try lia; exfalso; auto.
  - destruct (0 <? timeout), (bool_decide_reflect (p_phase p = Selecting)) as [Hs|]; try done.
    injection H as <-. unfold measure, unfinished. cbn [p_longest p_results p_phase]. rewrite Hs.
    assert (leave hist computeInfo (p_count p) ≠ Selecting) as Hl by (unfold leave; by destruct (computeInfo && _)).
    rewrite decide_False, decide_True by done. lia.
Qed.

Lemma execs_measure acts p p' : execs1 acts p = Done p' → (measure p' + length acts <= measure p)%nat.
Proof.
  revert p. induction acts as [|a acts IH]; intros p H; cbn [execs length] in *; [injection H as <-; lia|].
  apply bind_Done in H as (p1 & H1%exec_measure & H). apply IH in H. lia.
Qed.

(** Until the main goroutine returns, something can happen: a result can be
    received, or a goroutine can finish. *)
Lemma exec_progress p :
  par_inv p → p_phase p ≠ Returning → ∃ a p', exec1 a p = Done p' ∧ a ≠ Timeout.
Proof using Hsim Hwf Hids.
  intros Hinv Hph. pose proof (pi_waiting _ Hinv Hph) as Hc. pose proof (pi_count _ Hinv) as Hn.
  destruct (p_results p) as [|r rs] eqn:Er.
  - cbn in Hn. assert (unfinished p ≠ 0)%nat as Hu by lia. unfold unfinished in Hu.
    destruct (filter (λ l, l = None) (p_longest p)) as [|x f] eqn:Ef; [done|].
    assert (x ∈ filter (λ l, l = None) (p_longest p)) as [-> [i Hi]%list_elem_of_lookup]%list_elem_of_filter
      by (rewrite Ef; by left).
    destruct (lookup_lt_is_Some_2 hist i) as [es Hes].
    { rewrite <- (pi_length _ Hinv). by eapply lookup_lt_Some. }
    pose proof (list_elem_of_lookup_2 _ _ _ Hes) as Hin.
    destruct (checkSingle_any (Step model) equal computeInfo Hsim es (Hwf _ Hin) (Hids _ Hin) (Init model)
      (sees None)) as (fuel & Hf). destruct (Hf fuel) as (b & l & Hb & _); [lia|].
    exists (Finish i fuel None). cbn. rewrite Hi, Hes.
    destruct (p_kill p); cbn; rewrite Hb; cbn; eauto.
  - exists Receive. cbn. rewrite Er. destruct (p_phase p); [| |done]; repeat case_match; eauto.
Qed.

(** Every schedule that has not come to the return can be continued to it. *)
Lemma exec_completes p :
  par_inv p → ∃ acts p', execs1 acts p = Done p' ∧ p_phase p' = Returning ∧ Timeout ∉ acts.
Proof using Hsim Hwf Hids.
  intros Hinv. remember (measure p) as m eqn:Em. revert p Hinv Em.
  induction (lt_wf m) as [m _ IH]; intros p Hinv ->.
  destruct (decide (p_phase p = Returning)) as [Hr|Hr].
  { exists [], p. split_and!; [done|done|apply not_elem_of_nil]. }
  destruct (exec_progress p Hinv Hr) as (a & p1 & H1 & Ha).
  destruct (IH (measure p1) (exec_measure _ _ _ H1) p1) as (acts & p' & H & Hph & Hna);
    [by eapply exec_inv|done|].
  exists (a :: acts), p'. split_and!; [cbn; by rewrite H1|done|by apply not_elem_of_cons].
Qed.

Lemma measure_init : measure (initPar hist) = (2 * n + 1)%nat.
Proof.
  unfold measure, unfinished. cbn [p_longest p_results p_phase initPar length].
  rewrite filter_all, length_replicate by (by intros x [-> _]%elem_of_replicate).
  rewrite decide_True by done. lia.
Qed.

(** ** The result *)

Abbreviation check := (checkParallel model equal hist computeInfo timeout).

Lemma timedOut_timeout acts p p' :
  execs1 acts p = Done p' → p_timedOut p = false → p_timedOut p' = true → Timeout ∈ acts.
Proof.
  revert p. induction acts as [|a acts IH]; intros p H Hp Hp'; cbn in H; [injection H as <-; congruence|].
  apply bind_Done in H as (p1 & H1 & H). apply elem_of_cons.
  destruct a as [i fuel seen| |]; [right|right|by left]; (eapply IH; [exact H| |done]); cbn in H1; revert H1.
  - repeat case_match; intros HH; try done; go_inv; done.
  - repeat case_match; intros HH; try done; injection HH as <-; done.
Qed.

Lemma checkParallel_result acts r info :
  hist ≠ [] → check acts = Done (r, info) →
  match r with
  | Ok => ∀ es, es ∈ hist → lin es
  | Illegal => ∃ es, es ∈ hist ∧ ¬ lin es
  | Unknown => Timeout ∈ acts
  end.
Proof using Hsim Hwf Hids.
  intros Hne H. unfold checkParallel in H. apply bind_Done in H as (p & Hp & H). case_decide as Hph; [|done].
  injection H as <- _. pose proof (execs_inv _ _ _ (initPar_inv Hne) Hp) as Hinv. unfold resultOf.
  assert (p_phase p ≠ Selecting) as Hs by congruence.
  destruct (p_ok p) eqn:Eok; cbn; [|by apply (pi_illegal _ Hinv)].
  destruct (p_timedOut p) eqn:Et; [by eapply timedOut_timeout|by apply (pi_ok _ Hinv)].
Qed.

(** Schedules are bounded, and each of them can be completed. *)
Lemma checkParallel_returns acts p :
  hist ≠ [] → execs1 acts (initPar hist) = Done p →
  (length acts <= 2 * n + 1)%nat ∧ ∃ acts' r, check (acts ++ acts') = Done r ∧ Timeout ∉ acts'.
Proof using Hsim Hwf Hids.
  intros Hne Hp. split.
  - apply execs_measure in Hp. rewrite measure_init in Hp. lia.
  - destruct (exec_completes p) as (acts' & p' & Hp' & Hph & Hna); [by eapply execs_inv, Hp; apply initPar_inv|].
    exists acts'. unfold checkParallel.
    assert (execs1 (acts ++ acts') (initPar hist) = Done p') as ->.
    { revert Hp. generalize (initPar hist). induction acts as [|a acts IH]; intros q Hq; cbn in *.
      - by injection Hq as ->.
      - apply bind_Done in Hq as (q1 & -> & Hq). cbn. by apply IH. }
    cbn. rewrite decide_True by done. eauto.
Qed.

End correct.
