(* ===== verification/PorcVisual.v ===== *)
(** * The data behind the picture of a history (src/src/porcupine/visualization.go)

    [computeVisualizationData] collects, for every part of a history, its
    operations, the partial linearizations with the states they go through, and
    for every operation the largest partial linearization it is in.  It panics if
    the model refuses a step of a partial linearization; the theorem says that
    this does not happen for what the checker returns.  [sort.Slice] is any
    function that permutes the sequences into descending length ([PartialSort]).
    The texts come from the model's [DescribeOperation] and [DescribeState], which
    are parameters.  The page itself, a constant, is not modelled. *)

From stdpp Require Import base list numbers gmap strings.
From Stdlib Require Import Lia.
From S2P Require Import Prelude Bitset PorcHeap PorcModel PorcSpec PorcChecker PorcRun PorcPartial PorcOps PorcParallel.

Record historyElement : Type := mkElement {
  ClientId : Z;
  Start : Z;
  End_ : Z;
  Description : string;
}.

Record linearizationStep : Type := mkStep {
  Index : Z;
  StateDescription : string;
}.

Record partitionVisualizationData : Type := mkPart {
  History : list historyElement;
  PartialLinearizations : list (list linearizationStep);
  Largest : gmap Z Z;
}.

Class PartialSort : Type := sort_partials : list (list Z) → list (list Z).

Class PartialSortLaws (sort : PartialSort) : Prop := {
  sort_partials_perm ps : sort_partials ps ≡ₚ ps;
  sort_partials_sorted ps i j a b : (i < j)%nat →
    sort_partials ps !! i = Some a → sort_partials ps !! j = Some b → (length b <= length a)%nat;
}.

Section visual.
Context {V S : Type} `{!EqDecision S} {sort : PartialSort}.
Variable DescribeOperation : V → V → string.
Variable DescribeState : S → string.

(** The loop over the entries of a part.  A value that is not in its map is nil,
    on which the type assertion of a model panics. *)
Fixpoint collect (es : list (entry V)) (history : list historyElement) (callValue returnValue : gmap Z V)
    : outcome (list historyElement * gmap Z V * gmap Z V) :=
  match es with
  | [] => mret (history, callValue, returnValue)
  | elem :: es' =>
      h ← zlookup history (eid elem);
      match kind elem with
      | callEntry =>
          history ← zupdate history (eid elem) (mkElement (clientId elem) (time elem) (End_ h) (Description h));
          collect es' history (<[eid elem := evalue elem]> callValue) returnValue
      | returnEntry =>
          call ← of_option (callValue !! eid elem);
          history ← zupdate history (eid elem)
            (mkElement (ClientId h) (Start h) (time elem) (DescribeOperation call (evalue elem)));
          collect es' history callValue (<[eid elem := evalue elem]> returnValue)
      end
  end.

(** [if largestSize[histId] < len(partial) {...}]; the pair is [largestSize] and
    [largestIndex]. *)
Definition noteLargest (i len : Z) (l : gmap Z Z * gmap Z Z) (histId : Z) : gmap Z Z * gmap Z Z :=
  if default 0 (l.1 !! histId) <? len then (<[histId := len]> l.1, <[histId := i]> l.2) else l.

(** The loop over the ids of one partial linearization. *)
Fixpoint replay (step : S → V → V → bool * S) (callValue returnValue : gmap Z V) (i len : Z) (state : S)
    (partial : list Z) (l : gmap Z Z * gmap Z Z) : outcome (list linearizationStep * (gmap Z Z * gmap Z Z)) :=
  match partial with
  | [] => mret ([], l)
  | histId :: partial' =>
      call ← of_option (callValue !! histId);
      ret ← of_option (returnValue !! histId);
      let '(ok, state) := step state call ret in
      if negb ok then Panicked
      else
        '(steps, l) ← replay step callValue returnValue i len state partial' (noteLargest i len l histId);
        mret (mkStep histId (DescribeState state) :: steps, l)
  end.

(** The loop over the partial linearizations; [i] is the index of the first. *)
Fixpoint replayAll (model : Model V S) (callValue returnValue : gmap Z V) (i : Z) (partials : list (list Z))
    (l : gmap Z Z * gmap Z Z) : outcome (list (list linearizationStep) * (gmap Z Z * gmap Z Z)) :=
  match partials with
  | [] => mret ([], l)
  | partial :: partials' =>
      '(linearization, l) ← replay (Step model) callValue returnValue i (Z.of_nat (length partial)) (Init model) partial l;
      '(linearizations, l) ← replayAll model callValue returnValue (i + 1) partials' l;
      mret (linearization :: linearizations, l)
  end.

(** The body of the loop over the parts; the partial linearizations are sorted in
    place, so they are returned too. *)
Definition visualizePart (model : Model V S) (es : list (entry V)) (partials : list (list Z))
    : outcome (partitionVisualizationData * list (list Z)) :=
  let n := Z.quot (Z.of_nat (length es)) 2 in
  '(history, callValue, returnValue) ← collect es (replicate (Z.to_nat n) (mkElement 0 0 0 "")) ∅ ∅;
  let partials := sort_partials partials in
  '(linearizations, l) ← replayAll model callValue returnValue 0 partials (∅, ∅);
  mret (mkPart history linearizations l.2, partials).

Fixpoint visualizeParts (model : Model V S) (hist : list (list (entry V))) (partials : list (list (list Z)))
    : outcome (list partitionVisualizationData * list (list (list Z))) :=
  match hist with
  | [] => mret ([], partials)
  | es :: hist' =>
      ps ← of_option (head partials);
      '(d, ps) ← visualizePart model es ps;
      '(data, partials) ← visualizeParts model hist' (tail partials);
      mret (d :: data, ps :: partials)
  end.

Definition computeVisualizationData (model : Model V S) (info : linearizationInfo V)
    : outcome (list partitionVisualizationData * linearizationInfo V) :=
  let model := fillDefault model in
  '(data, partials) ← visualizeParts model (history info) (partialLinearizations info);
  mret (data, mkInfo (history info) partials).

End visual.

(** ** Calls and returns of a well-formed history *)

(** Every return has its call before it, and no two entries of one kind share an
    id; [Inv] events carry the values of the two entries. *)
Record paired {V} (es : list (entry V)) : Prop := {
  pr_unique i j e e' : es !! i = Some e → es !! j = Some e' → key e = key e' → i = j;
  pr_called j e' : es !! j = Some e' → kind e' = returnEntry →
    ∃ i e, (i < j)%nat ∧ es !! i = Some e ∧ kind e = callEntry ∧ eid e = eid e';
  pr_values a vi vo : Inv a vi vo ∈ evs es → ∃ e e', e ∈ es ∧ e' ∈ es ∧ kind e = callEntry ∧ kind e' = returnEntry ∧
    eid e = a ∧ eid e' = a ∧ evalue e = vi ∧ evalue e' = vo;
}.

Section paired.
Context {V : Type}.
Implicit Types es : list (entry V).

Lemma ret_value_elem a es v :
  ret_value a es = Some v → ∃ e, e ∈ es ∧ kind e = returnEntry ∧ eid e = a ∧ evalue e = v.
Proof.
  induction es as [|e es IH]; cbn; [done|]. destruct (kind e) eqn:Ek.
  - intros (e' & ? & ?)%IH. exists e'. split; [by right|done].
  - destruct (Z.eqb_spec (eid e) a) as [<-|].
    + intros [= <-]. exists e. split; [by left|done].
    + intros (e' & ? & ?)%IH. exists e'. split; [by right|done].
Qed.

(** What an event says of its entry. *)
Lemma evs_entry es k x :
  evs es !! k = Some x → ∃ e, es !! k = Some e ∧ eid e = ev_id x ∧
    (is_inv x → kind e = callEntry ∧
      ∃ e', e' ∈ es ∧ kind e' = returnEntry ∧ eid e' = eid e ∧ x = Inv (eid e) (evalue e) (evalue e')) ∧
    (kind e = returnEntry → x = Ret (eid e)).
Proof.
  intros Hx. destruct (lookup_lt_is_Some_2 es k) as [e He].
  { apply lookup_lt_Some in Hx. by rewrite length_evs in Hx. }
  exists e. rewrite (evs_lookup _ _ _ He) in Hx. split; [done|].
  destruct (kind e) eqn:Ek; [destruct (ret_value _ _) as [v|] eqn:Er|]; injection Hx as <-; cbn; try done.
  apply ret_value_elem in Er as (e' & Hin & ? & ? & <-). split_and!; [done| |done]. intros _. split; [done|].
  exists e'. split; [|done]. apply list_elem_of_lookup in Hin as [l Hl]. rewrite lookup_drop in Hl.
  by eapply list_elem_of_lookup_2.
Qed.

Lemma entry_event es k e :
  es !! k = Some e → ∃ x, evs es !! k = Some x ∧ ev_id x = eid e ∧ (kind e = returnEntry → x = Ret (eid e)).
Proof.
  intros He. rewrite (evs_lookup _ _ _ He). eexists. split; [done|]. by destruct (kind e), (ret_value (eid e) (drop (Datatypes.S k) es)).
Qed.

Section wf.
Variable es : list (entry V).
Hypothesis Hwf : well_formed (evs es).

Lemma rets_unique i j a : evs es !! i = Some (Ret a) → evs es !! j = Some (Ret a) → i = j.
Proof using Hwf.
  intros Hi Hj. destruct (Nat.lt_trichotomy i j) as [?|[?|?]]; [exfalso|done|exfalso];
    apply (wf_rets _ Hwf a); [by exists i, j|by exists j, i].
Qed.

(** The call behind a [Ret], and that it is not the entry of the [Ret] itself. *)
Lemma ret_called j a :
  evs es !! j = Some (Ret a) → ∃ i e e', (i < j)%nat ∧ es !! i = Some e ∧ kind e = callEntry ∧ eid e = a ∧
    es !! j = Some e' ∧ kind e' = returnEntry.
Proof using Hwf.
  intros Hj. destruct (wf_called _ Hwf a) as (va & wa & i & j' & Hij & Hi & Hj'); [by eapply list_elem_of_lookup_2|].
  assert (j' = j) as -> by (by eapply rets_unique).
  destruct (evs_entry _ _ _ Hi) as (e & He & Hid & Hcall & _). destruct Hcall as [Hk (e2 & Hin2 & Hk2 & Hid2 & _)]; [done|].
  apply list_elem_of_lookup in Hin2 as [l Hl]. destruct (entry_event _ _ _ Hl) as (x & Hx & _ & Hret).
  rewrite (Hret Hk2), Hid2, Hid in Hx. cbn in Hx. assert (l = j) as -> by (by eapply rets_unique).
  by exists i, e, e2.
Qed.

Lemma call_event k e : es !! k = Some e → kind e = callEntry → ∃ vi vo, evs es !! k = Some (Inv (eid e) vi vo).
Proof using Hwf.
  intros He Hk. destruct (entry_event _ _ _ He) as ([a vi vo|a] & Hx & Hid & _); cbn in Hid; subst a; [eauto|exfalso].
  destruct (ret_called _ _ Hx) as (i & e1 & e2 & _ & _ & _ & _ & He2 & Hk2). congruence.
Qed.

Lemma wf_paired : paired es.
Proof using Hwf.
  split.
  - intros i j e e' Hi Hj [= Ek Ei]. destruct (kind e) eqn:Hk.
    + destruct (call_event _ _ Hi Hk) as (v & w & Hx), (call_event _ _ Hj (eq_sym Ek)) as (v' & w' & Hx').
      rewrite <- Ei in Hx'. destruct (Nat.lt_trichotomy i j) as [?|[?|?]]; [exfalso|done|exfalso];
        eapply (wf_calls _ Hwf); [by exists i, j|by exists j, i].
    + destruct (entry_event _ _ _ Hi) as (x & Hx & _ & E), (entry_event _ _ _ Hj) as (x' & Hx' & _ & E').
      rewrite E in Hx by done. rewrite E', <- Ei in Hx' by done. by eapply rets_unique.
  - intros j e' Hj Hk. destruct (entry_event _ _ _ Hj) as (x & Hx & _ & E). rewrite E in Hx by done.
    destruct (ret_called _ _ Hx) as (i & e & _ & ? & ? & ? & ? & _). by exists i, e.
  - intros a vi vo [k Hk]%list_elem_of_lookup. destruct (evs_entry _ _ _ Hk) as (e & He & _ & Hc & _).
    destruct Hc as [Hkind (e' & Hin & Hk' & Hid & [= -> -> ->])]; [done|].
    exists e, e'. split_and!; try done. by eapply list_elem_of_lookup_2.
Qed.

End wf.
End paired.

(** ** The history of a part *)

Section collect.
Context {V : Type}.
Variable DescribeOperation : V → V → string.
Variable es : list (entry V).
Hypothesis Hpaired : paired es.
Hypothesis Hids : ∀ e, e ∈ es → 0 <= eid e < Z.of_nat (length es) / 2.

Abbreviation size := (Z.to_nat (Z.of_nat (length es) / 2)).

(** What the loop has collected from the first [k] entries. *)
Record collected (k : nat) (history : list historyElement) (callValue returnValue : gmap Z V) : Prop := {
  co_size : length history = size;
  co_calls i e : (i < k)%nat → es !! i = Some e → kind e = callEntry → callValue !! eid e = Some (evalue e);
  co_rets i e : (i < k)%nat → es !! i = Some e → kind e = returnEntry → returnValue !! eid e = Some (evalue e);
  co_open i e : (i < k)%nat → es !! i = Some e → kind e = callEntry →
    ∃ h, history !! Z.to_nat (eid e) = Some h ∧ ClientId h = clientId e ∧ Start h = time e;
  co_closed i j e e' : (i < k)%nat → (j < k)%nat → es !! i = Some e → es !! j = Some e' →
    kind e = callEntry → kind e' = returnEntry → eid e = eid e' →
    history !! Z.to_nat (eid e) = Some (mkElement (clientId e) (time e) (time e') (DescribeOperation (evalue e) (evalue e')));
}.

Lemma history_slot (history : list historyElement) e x :
  length history = size → e ∈ es →
  (∃ h, zlookup history (eid e) = Done h ∧ history !! Z.to_nat (eid e) = Some h) ∧
  zupdate history (eid e) x = Done (<[Z.to_nat (eid e) := x]> history).
Proof using Hids.
  intros Hl Hin. specialize (Hids e Hin). split.
  - destruct (lookup_lt_is_Some_2 history (Z.to_nat (eid e))) as [h Hh]; [lia|]. exists h. split; [|done].
    by apply zlookup_Done; split; [lia|].
  - apply zupdate_Done. split; [lia|done].
Qed.

(** An earlier entry has another id, or is the call of this return. *)
Lemma earlier i k e e' :
  (i < k)%nat → es !! i = Some e → es !! k = Some e' → eid e = eid e' → kind e = callEntry ∧ kind e' = returnEntry.
Proof using Hpaired.
  intros Hik Hi Hk E. destruct (decide (kind e = kind e')) as [Ek|Hne].
  { assert (i = k); [|lia]. eapply (pr_unique _ Hpaired); [done|done|]. unfold key. congruence. }
  destruct (kind e) eqn:K, (kind e') eqn:K'; try done. exfalso.
  destruct (pr_called _ Hpaired i e Hi K) as (j & e2 & Hj & He2 & K2 & E2).
  assert (j = k); [|lia]. eapply (pr_unique _ Hpaired); [done|done|]. unfold key. congruence.
Qed.

Lemma slots_differ (e e' : entry V) : e ∈ es → e' ∈ es → eid e ≠ eid e' → Z.to_nat (eid e) ≠ Z.to_nat (eid e').
Proof using Hids. intros He%Hids He'%Hids Hne. lia. Qed.

Lemma collected_call k history cv rv e h :
  collected k history cv rv → es !! k = Some e → kind e = callEntry → history !! Z.to_nat (eid e) = Some h →
  collected (S k) (<[Z.to_nat (eid e) := mkElement (clientId e) (time e) (End_ h) (Description h)]> history)
    (<[eid e := evalue e]> cv) rv.
Proof using Hpaired Hids.
  intros [H1 H2 H3 H4 H5] He Hk Hh. pose proof (list_elem_of_lookup_2 _ _ _ He) as Hin.
  assert (∀ i e', (i < k)%nat → es !! i = Some e' → eid e' ≠ eid e) as Hold.
  { intros i e' Hi He' E. destruct (earlier _ _ _ _ Hi He' He E). congruence. }
  assert (∀ i e', (i < k)%nat → es !! i = Some e' → Z.to_nat (eid e) ≠ Z.to_nat (eid e')) as Hslot.
  { intros i e' Hi He'. apply slots_differ; [done|by eapply list_elem_of_lookup_2|]. apply not_eq_sym. eauto. }
  split; [by rewrite length_insert| | | |].
  - intros i e' Hi He' Hk'. destruct (decide (i = k)) as [->|]; [assert (e' = e) as -> by congruence; apply lookup_insert_eq|].
    rewrite lookup_insert_ne by (apply not_eq_sym, (Hold i); (lia || done)). apply (H2 i); (lia || done).
  - intros i e' Hi He' Hk'. destruct (decide (i = k)) as [->|]; [congruence|]. apply (H3 i); (lia || done).
  - intros i e' Hi He' Hk'. destruct (decide (i = k)) as [->|].
    + assert (e' = e) as -> by congruence. eexists. split; [apply list_lookup_insert_eq; by eapply lookup_lt_Some|done].
    + rewrite list_lookup_insert_ne by (apply (Hslot i); (lia || done)). apply (H4 i); (lia || done).
  - intros i j e1 e2 Hi Hj He1 He2 Hk1 Hk2 E. assert (j ≠ k) as Hjk by congruence.
    assert (i ≠ k) as Hik. { intros ->. assert (e1 = e) as -> by congruence. apply (Hold j e2); [lia|done|done]. }
    rewrite list_lookup_insert_ne by (apply (Hslot i); (lia || done)). apply (H5 i j); (lia || done).
Qed.

Lemma collected_return k history cv rv e h call :
  collected k history cv rv → es !! k = Some e → kind e = returnEntry → history !! Z.to_nat (eid e) = Some h →
  cv !! eid e = Some call →
  collected (S k) (<[Z.to_nat (eid e) := mkElement (ClientId h) (Start h) (time e) (DescribeOperation call (evalue e))]> history)
    cv (<[eid e := evalue e]> rv).
Proof using Hpaired Hids.
  intros [H1 H2 H3 H4 H5] He Hk Hh Hc. pose proof (list_elem_of_lookup_2 _ _ _ He) as Hin.
  assert (∀ i e', (i < k)%nat → es !! i = Some e' → kind e' = returnEntry → eid e' ≠ eid e) as Hold.
  { intros i e' Hi He' K E. destruct (earlier _ _ _ _ Hi He' He E). congruence. }
  split; [by rewrite length_insert| | | |].
  - intros i e' Hi He' Hk'. destruct (decide (i = k)) as [->|]; [congruence|]. apply (H2 i); (lia || done).
  - intros i e' Hi He' Hk'. destruct (decide (i = k)) as [->|]; [assert (e' = e) as -> by congruence; apply lookup_insert_eq|].
    rewrite lookup_insert_ne by (apply not_eq_sym, (Hold i); (lia || done)). apply (H3 i); (lia || done).
  - intros i e' Hi He' Hk'. destruct (decide (i = k)) as [->|]; [congruence|].
    destruct (H4 i e') as (h' & Hh' & ? & ?); [lia|done|done|]. destruct (decide (eid e' = eid e)) as [E|Hne].
    + rewrite E in *. assert (h' = h) as -> by congruence. eexists. split; [apply list_lookup_insert_eq; by eapply lookup_lt_Some|done].
    + exists h'. rewrite list_lookup_insert_ne; [done|]. apply slots_differ; [done|by eapply list_elem_of_lookup_2|done].
  - intros i j e1 e2 Hi Hj He1 He2 Hk1 Hk2 E. assert (i ≠ k) as Hik by congruence.
    destruct (H4 i e1) as (h1 & Hh1 & Ec & Es); [lia|done|done|]. rewrite E in *.
    destruct (decide (j = k)) as [->|Hjk].
    + assert (e2 = e) as -> by congruence. assert (h1 = h) as -> by congruence. rewrite Ec, Es.
      rewrite list_lookup_insert_eq by (by eapply lookup_lt_Some). rewrite <- E, (H2 i e1) in Hc by (lia || done).
      by injection Hc as ->.
    + rewrite list_lookup_insert_ne; [rewrite <- E; apply (H5 i j); (lia || done)|].
      apply slots_differ; [done|by eapply list_elem_of_lookup_2|]. apply not_eq_sym. apply (Hold j); (lia || done).
Qed.

Lemma collect_spec k history cv rv :
  collected k history cv rv → (k <= length es)%nat →
  ∃ history' cv' rv', collect DescribeOperation (drop k es) history cv rv = Done (history', cv', rv') ∧
    collected (length es) history' cv' rv'.
Proof using Hpaired Hids.
  remember (length es - k)%nat as m eqn:Em. revert k history cv rv Em. induction m as [|m IH]; intros k history cv rv Em Hc Hk.
  { assert (k = length es) as -> by lia. rewrite drop_all. by exists history, cv, rv. }
  destruct (lookup_lt_is_Some_2 es k) as [e He]; [lia|]. rewrite (drop_S _ _ _ He). cbn [collect].
  pose proof (list_elem_of_lookup_2 _ _ _ He) as Hin.
  destruct (history_slot history e (mkElement 0 0 0 "") (co_size _ _ _ _ Hc) Hin) as [(h & -> & Hh) _]. cbn [mbind outcome_bind].
  destruct (kind e) eqn:Ek.
  - rewrite (proj2 (history_slot history e _ (co_size _ _ _ _ Hc) Hin)). cbn [mbind outcome_bind].
    apply IH; [lia|by apply collected_call|lia].
  - destruct (pr_called _ Hpaired k e He Ek) as (i & e1 & Hi & He1 & Hk1 & E1).
    pose proof (co_calls _ _ _ _ Hc i e1 Hi He1 Hk1) as Hcall. rewrite E1 in Hcall. rewrite Hcall. cbn [of_option mbind outcome_bind].
    rewrite (proj2 (history_slot history e _ (co_size _ _ _ _ Hc) Hin)). cbn [mbind outcome_bind].
    apply IH; [lia|by apply collected_return|lia].
Qed.

End collect.

(** ** The partial linearizations of a part *)

Section replay.
Context {V S : Type}.
Variable DescribeState : S → string.
Variable step : S → V → V → bool * S.
Variables callValue returnValue : gmap Z V.

(** What is shown of a sequence of operations: their ids with the states behind
    them. *)
Fixpoint narrated (st : S) (order : list (op V)) : list linearizationStep :=
  match order with
  | [] => []
  | o :: order' =>
      let st := (step st (o_in o) (o_out o)).2 in
      mkStep (o_id o) (DescribeState st) :: narrated st order'
  end.

Lemma replay_spec i len st order l :
  legal step st order →
  (∀ o, o ∈ order → callValue !! o_id o = Some (o_in o) ∧ returnValue !! o_id o = Some (o_out o)) →
  replay DescribeState step callValue returnValue i len st (o_id <$> order) l =
    Done (narrated st order, foldl (noteLargest i len) l (o_id <$> order)).
Proof.
  revert st l. induction order as [|o order IH]; intros st l Hl Hv; [done|]. destruct Hl as [Hok Hl].
  destruct (Hv o) as [Hc Hr]; [by left|]. cbn [fmap list_fmap replay narrated foldl]. rewrite Hc, Hr. cbn [of_option mbind outcome_bind].
  destruct (step st (o_in o) (o_out o)) as [ok st'] eqn:Es. cbn in Hok, Hl. subst ok. cbn [negb].
  rewrite IH; [done|done|]. intros o' Ho'. apply Hv. by right.
Qed.

End replay.

(** [largestSize] and [largestIndex] behind the first partial linearizations [ps]:
    an id that is in some of them has the index and the length of a longest one. *)
Definition largest_of (ps : list (list Z)) (l : gmap Z Z * gmap Z Z) : Prop :=
  ∀ a, match l.2 !! a with
       | Some i => ∃ p, 0 <= i ∧ ps !! Z.to_nat i = Some p ∧ a ∈ p ∧ l.1 !! a = Some (Z.of_nat (length p)) ∧
           ∀ p', p' ∈ ps → a ∈ p' → (length p' <= length p)%nat
       | None => l.1 !! a = None ∧ ∀ p, p ∈ ps → a ∉ p
       end.

Lemma noteLargest_one i len l b a :
  (a = b → default 0 (l.1 !! a) < len → (noteLargest i len l b).1 !! a = Some len ∧ (noteLargest i len l b).2 !! a = Some i) ∧
  (a ≠ b ∨ len <= default 0 (l.1 !! a) →
    (noteLargest i len l b).1 !! a = l.1 !! a ∧ (noteLargest i len l b).2 !! a = l.2 !! a).
Proof.
  unfold noteLargest. destruct (Z.ltb_spec (default 0 (l.1 !! b)) len) as [Hlt|Hge]; cbn [fst snd]; split.
  - intros -> _. by rewrite !lookup_insert_eq.
  - intros [Hne|Hle]; [by rewrite !lookup_insert_ne|]. rewrite !lookup_insert_ne; [done|..]; intros ->; lia.
  - intros ->. lia.
  - done.
Qed.

Lemma noteLargest_spec i len ids l a :
  let l' := foldl (noteLargest i len) l ids in
  (a ∈ ids → default 0 (l.1 !! a) < len → l'.1 !! a = Some len ∧ l'.2 !! a = Some i) ∧
  (a ∉ ids ∨ len <= default 0 (l.1 !! a) → l'.1 !! a = l.1 !! a ∧ l'.2 !! a = l.2 !! a).
Proof.
  cbn zeta. revert l. induction ids as [|b ids IH]; intros l; cbn [foldl].
  { split; [by intros ?%not_elem_of_nil|done]. }
  destruct (IH (noteLargest i len l b)) as [IH1 IH2], (noteLargest_one i len l b a) as [H1 H2]. split.
  - intros Hin Hlt. destruct (decide (a = b)) as [->|Hne].
    + destruct (H1 eq_refl Hlt) as [E1 E2]. destruct IH2 as [-> ->]; [right; rewrite E1; cbn; lia|done].
    + apply elem_of_cons in Hin as [?|Hin]; [done|]. destruct H2 as [E1 E2]; [by left|]. apply IH1; [done|by rewrite E1].
  - rewrite not_elem_of_cons. intros Hor. destruct H2 as [E1 E2]; [tauto|]. rewrite <- E1, <- E2. apply IH2.
    rewrite E1. tauto.
Qed.

(** One more partial linearization. *)
Lemma largest_snoc ps p l :
  largest_of ps l → largest_of (ps ++ [p]) (foldl (noteLargest (Z.of_nat (length ps)) (Z.of_nat (length p))) l p).
Proof.
  intros Hl a. specialize (Hl a). destruct (noteLargest_spec (Z.of_nat (length ps)) (Z.of_nat (length p)) p l a) as [H1 H2].
  set (l' := foldl _ l p) in *.
  destruct (decide (a ∈ p ∧ default 0 (l.1 !! a) < Z.of_nat (length p))) as [[Hin Hlt]|Hno].
  - destruct (H1 Hin Hlt) as [E1 ->]. exists p. rewrite Nat2Z.id, list_lookup_middle by done.
    split_and!; try done; [lia|]. intros p' [Hp'| ->%list_elem_of_singleton]%elem_of_app Ha; [|done].
    destruct (l.2 !! a) as [i|]; [|by destruct Hl as [_ Hl]; apply Hl in Hp'].
    destruct Hl as (q & _ & _ & _ & Hs & Hmax). rewrite Hs in Hlt. cbn in Hlt. specialize (Hmax p' Hp' Ha). lia.
  - destruct H2 as [E1 ->]; [destruct (decide (a ∈ p)); [right|by left]; apply Z.nlt_ge; tauto|]. rewrite E1.
    destruct (l.2 !! a) as [i|].
    + destruct Hl as (q & Hi & Hq & Ha & Hs & Hmax). exists q. split_and!; try done; [by apply lookup_app_l_Some|].
      intros p' [Hp'| ->%list_elem_of_singleton]%elem_of_app Ha'; [by apply Hmax|].
      rewrite Hs in Hno. cbn in Hno. destruct (decide (length p <= length q)%nat); [done|]. exfalso. apply Hno. split; [done|lia].
    + destruct Hl as [Hs Hnone]. split; [done|]. intros p' [Hp'| ->%list_elem_of_singleton]%elem_of_app; [by apply Hnone|].
      intros Ha. apply Hno. split; [done|]. rewrite Hs. cbn. destruct p; [by apply not_elem_of_nil in Ha|cbn; lia].
Qed.

(** ** A part *)

Section part.
Context {V S : Type} `{!EqDecision S} {sort : PartialSort} {laws : PartialSortLaws sort}.
Variable DescribeOperation : V → V → string.
Variable DescribeState : S → string.
Variable model : Model V S.

(** [lin] is shown for the sequence of ids [p]. *)
Definition shown (es : list (entry V)) (p : list Z) (lin : list linearizationStep) : Prop :=
  ∃ order, o_id <$> order = p ∧ partial_linearization (Step model) (evs es) (Init model) order ∧
    lin = narrated DescribeState (Step model) (Init model) order.

Lemma replayAll_spec es cv rv done_ partials l :
  (∀ o, o ∈ ops (evs es) → cv !! o_id o = Some (o_in o) ∧ rv !! o_id o = Some (o_out o)) →
  (∀ p, p ∈ partials → ∃ order, o_id <$> order = p ∧ partial_linearization (Step model) (evs es) (Init model) order) →
  largest_of done_ l →
  ∃ lins l', replayAll DescribeState (fillDefault model) cv rv (Z.of_nat (length done_)) partials l = Done (lins, l') ∧
    Forall2 (shown es) partials lins ∧ largest_of (done_ ++ partials) l'.
Proof.
  intros Hv. revert done_ l. induction partials as [|p partials IH]; intros done_ l Hp Hl; cbn [replayAll].
  { exists [], l. rewrite app_nil_r. done. }
  destruct (Hp p) as (order & <- & Hpl); [by left|].
  cbn [fillDefault Step Init].
  rewrite replay_spec; [|apply Hpl|intros o Ho; by apply Hv, (pl_ops _ _ _ _ Hpl)]. cbn [mbind outcome_bind].
  destruct (IH (done_ ++ [o_id <$> order]) (foldl (noteLargest (Z.of_nat (length done_)) (Z.of_nat (length (o_id <$> order)))) l (o_id <$> order)))
    as (lins & l' & H & Hs & Hl'); [intros q Hq; apply Hp; by right|by apply largest_snoc|].
  rewrite length_app in H. cbn [length] in H. replace (Z.of_nat (length done_) + 1) with (Z.of_nat (length done_ + 1)) by lia.
  rewrite H. cbn [mbind outcome_bind]. eexists _, l'. split; [done|]. rewrite <- app_assoc in Hl'. split; [|done].
  constructor; [by exists order|done].
Qed.

(** What is shown of a part with entries [es]; [partials] are its partial
    linearizations in the order in which they are shown. *)
Record part_shown (es : list (entry V)) (partials : list (list Z)) (d : partitionVisualizationData) : Prop := {
  ps_size : Z.of_nat (length (History d)) = Z.of_nat (length es) / 2;
  ps_history e e' : e ∈ es → e' ∈ es → kind e = callEntry → kind e' = returnEntry → eid e = eid e' →
    History d !! Z.to_nat (eid e) =
      Some (mkElement (clientId e) (time e) (time e') (DescribeOperation (evalue e) (evalue e')));
  ps_partials : Forall2 (shown es) partials (PartialLinearizations d);
  ps_sorted i j p q : (i < j)%nat → partials !! i = Some p → partials !! j = Some q → (length q <= length p)%nat;
  ps_largest a i : Largest d !! a = Some i → ∃ p, partials !! Z.to_nat i = Some p ∧ a ∈ p ∧
    ∀ p', p' ∈ partials → a ∈ p' → (length p' <= length p)%nat;
  ps_covered a p : p ∈ partials → a ∈ p → is_Some (Largest d !! a);
}.

Lemma visualizePart_spec es partials :
  well_formed (evs es) → (∀ e, e ∈ es → 0 <= eid e < Z.of_nat (length es) / 2) →
  (∀ p, p ∈ partials → ∃ order, o_id <$> order = p ∧ partial_linearization (Step model) (evs es) (Init model) order) →
  ∃ d, visualizePart DescribeOperation DescribeState (fillDefault model) es partials = Done (d, sort_partials partials) ∧
    part_shown es (sort_partials partials) d.
Proof using laws.
  intros Hwf%wf_paired Hids Hp. unfold visualizePart. rewrite Z.quot_div_nonneg by lia.
  set (n := Z.to_nat (Z.of_nat (length es) / 2)).
  destruct (collect_spec DescribeOperation es Hwf Hids 0 (replicate n (mkElement 0 0 0 "")) ∅ ∅) as (hs & cv & rv & H & Hc);
    [split; [apply length_replicate|intros; exfalso; lia..]|lia|]. rewrite drop_0 in H. rewrite H. cbn [mbind outcome_bind].
  assert (∀ e, e ∈ es → ∃ i, (i < length es)%nat ∧ es !! i = Some e) as Hpos.
  { intros e [i Hi]%list_elem_of_lookup. exists i. split; [by eapply lookup_lt_Some|done]. }
  assert (∀ o, o ∈ ops (evs es) → cv !! o_id o = Some (o_in o) ∧ rv !! o_id o = Some (o_out o)) as Hv.
  { intros o (e & e' & (i & Hi & He)%Hpos & (j & Hj & He')%Hpos & Hk & Hk' & <- & E & <- & <-)%ops_elem%(pr_values _ Hwf).
    split; [by apply (co_calls _ _ _ _ _ _ Hc i)|]. rewrite <- E. by apply (co_rets _ _ _ _ _ _ Hc j). }
  destruct (replayAll_spec es cv rv [] (sort_partials partials) (∅, ∅) Hv) as (lins & l & Hr & Hs & Hl).
  { intros p Hin. apply Hp. by rewrite sort_partials_perm in Hin. }
  { intros a. cbn. rewrite !lookup_empty. split; [done|]. by intros p ?%not_elem_of_nil. }
  change (Z.of_nat (length [])) with 0 in Hr. rewrite Hr. cbn [mbind outcome_bind app] in *. eexists. split; [done|].
  split; cbn [History PartialLinearizations Largest]; [rewrite (co_size _ _ _ _ _ _ Hc), Z2Nat.id; [done|apply Z.div_pos; lia]| |done|apply sort_partials_sorted| |].
  - intros e e' (i & Hi & He)%Hpos (j & Hj & He')%Hpos Hk Hk' E. by apply (co_closed _ _ _ _ _ _ Hc i j).
  - intros a i E. specialize (Hl a). rewrite E in Hl. destruct Hl as (p & _ & ? & ? & _ & ?). by exists p.
  - intros a p Hin Ha. specialize (Hl a). destruct (l.2 !! a); [done|]. destruct Hl as [_ Hl]. by apply Hl in Hin.
Qed.

(** All parts of a history. *)
Lemma visualizeParts_spec hist partials :
  Forall2 (λ es ps, well_formed (evs es) ∧ (∀ e, e ∈ es → 0 <= eid e < Z.of_nat (length es) / 2) ∧
    ∀ p, p ∈ ps → ∃ order, o_id <$> order = p ∧ partial_linearization (Step model) (evs es) (Init model) order) hist partials →
  ∃ data, visualizeParts DescribeOperation DescribeState (fillDefault model) hist partials = Done (data, sort_partials <$> partials) ∧
    Forall2 (λ x d, part_shown x.1 x.2 d) (zip hist (sort_partials <$> partials)) data.
Proof using laws.
  induction 1 as [|es ps hist partials (Hwf & Hids & Hp) _ IH]; cbn; [by exists []|].
  destruct (visualizePart_spec es ps Hwf Hids Hp) as (d & -> & Hd), IH as (data & H & Hdata). cbn [mbind outcome_bind].
  rewrite H. cbn. eexists. split; [done|]. by constructor.
Qed.

End part.

(** ** What the parallel checker hands over *)

Section handover.
Context {V S : Type}.
Variable model : Model V S.
Variable equal : S → S → bool.
Variable hist : list (list (entry V)).
Variable computeInfo : bool.
Variable timeout : Z.

(** Every [longest] is what [checkSingle] left for that part. *)
Definition from_checks (p : par) : Prop :=
  length (p_longest p) = length hist ∧
  ∀ i l, p_longest p !! i = Some (Some l) → ∃ es fuel kill b, hist !! i = Some es ∧
    checkSingle (Step model) equal fuel (Init model) es computeInfo kill = Done (b, l).

Lemma exec_from_checks a p p' : from_checks p → exec model equal hist computeInfo timeout a p = Done p' → from_checks p'.
Proof.
  intros [Hlen Hl] H. destruct a as [i fuel seen| |]; cbn in H.
  - destruct (p_longest p !! i) as [[l0|]|] eqn:Ei; try done.
    assert (∃ es ok l, hist !! i = Some es ∧
      checkSingle (Step model) equal fuel (Init model) es computeInfo (sees seen) = Done (ok, l) ∧
      p_longest p' = <[i := Some l]> (p_longest p)) as (es & ok & l & Hes & Hck & E).
    { destruct (p_kill p), seen; try done; go_inv; eauto 10. }
    split; rewrite E; [by rewrite length_insert|]. intros j l' Hj.
    destruct (decide (j = i)) as [->|]; [|rewrite list_lookup_insert_ne in Hj by done; by apply Hl].
    rewrite list_lookup_insert_eq in Hj by (by eapply lookup_lt_Some). injection Hj as <-. by exists es, fuel, (sees seen), ok.
  - assert (p_longest p' = p_longest p) as E by (repeat case_match; try done; by injection H as <-).
    unfold from_checks. by rewrite E.
  - destruct (_ && _); [|done]. by injection H as <-.
Qed.

Lemma execs_from_checks acts p p' :
  from_checks p → execs model equal hist computeInfo timeout acts p = Done p' → from_checks p'.
Proof.
  revert p. induction acts as [|a acts IH]; intros p Hp H; cbn in H; [by injection H as <-|].
  apply bind_Done in H as (p1 & H1 & H). eapply IH; [|done]. by eapply exec_from_checks.
Qed.

(** What [checkParallel] returns as information. *)
Lemma checkParallel_partials acts r info :
  (∀ es, es ∈ hist → well_formed (evs es) ∧ ∀ e, e ∈ es → 0 <= eid e < Z.of_nat (length es) / 2) →
  checkParallel model equal hist computeInfo timeout acts = Done (r, info) → computeInfo = true →
  history info = hist ∧
  Forall2 (λ es ps, ∀ p, p ∈ ps →
    ∃ order, o_id <$> order = p ∧ partial_linearization (Step model) (evs es) (Init model) order)
    hist (partialLinearizations info).
Proof.
  intros Hgood (p & Hp & H)%bind_Done Ec. case_decide; [|done]. injection H as _ <-.
  assert (from_checks p) as [Hlen Hl].
  { eapply execs_from_checks; [|exact Hp]. split; [apply length_replicate|].
    by intros i l [? _]%lookup_replicate. }
  unfold infoOf. rewrite Ec. split; [done|]. cbn. apply Forall2_fmap_r. rewrite Forall2_fmap_r.
  apply Forall2_same_length_lookup. split; [done|]. intros i es [l|] Hes Hi; cbn.
  2:{ unfold uniquePartials. cbn. by intros q ?%not_elem_of_nil. }
  intros q Hq. destruct (Hl i l Hi) as (es' & fuel & kill & b & Hes' & Hck). assert (es' = es) as -> by congruence.
  pose proof (list_elem_of_lookup_2 _ _ _ Hes) as Hin. destruct (Hgood es Hin) as [Hwf Hids].
  unfold uniquePartials in Hq. apply list_elem_of_fmap in Hq as ([k ids] & -> & Hq%elem_of_remove_dups%list_elem_of_omap).
  destruct Hq as (x & Hx & ->). destruct (checkSingle_partials _ _ _ _ Hwf Hids _ _ _ _ _ _ _ Hck Hx) as (order & ? & ? & _).
  by exists order.
Qed.

End handover.
