(* ===== verification/PorcPage.v ===== *)
(** * The page with the picture of a history (src/src/porcupine/visualization.go)

    [Visualize] writes the page, the constant [html] with the data in place of its
    one verb; [VisualizePath] writes it to a file.  The data is in the form
    encoding/json gives it: [Marshal] is that encoding for the types of
    visualization.go: fields in order, the keys of a map in the order of their
    texts, strings as Go writes them.  A string is taken as UTF-8 ([runes], with
    the table of unicode/utf8); ASCII is escaped where JSON or HTML needs it, the
    line separators U+2028 and U+2029 are escaped for JavaScript, and a byte that
    is not part of a valid rune becomes the escape of U+FFFD.  [Unmarshal] reads
    the text back, which the page's script has to be able to do; [Clean] is what
    there is to be read: the data with each invalid byte replaced.

    Two laws relate them, [JsonLaws]: what was written is read back but for the
    invalid bytes, and the text has no opening angle bracket, so that no
    description ends the script element.
    [html_head] and [html_tail] are the page before and behind the data; what the
    operating system does to a file is a parameter. *)

From stdpp Require Import base list numbers gmap strings pretty sorting.
From Stdlib Require Import Lia Ascii.
From S2P Require Import Prelude GoStrings Strconv Bitset PorcHeap PorcModel PorcSpec PorcChecker PorcRun PorcPartial PorcOps PorcParallel PorcVisual.

(** ** Characters and numbers *)

Definition quote : ascii := ascii_of_nat 34.
Definition backslash : ascii := ascii_of_nat 92.
Definition langle : ascii := ascii_of_nat 60.

Definition hex_digit (n : nat) : ascii := ascii_of_nat (if (n <? 10)%nat then 48 + n else 87 + n).

(** Quotes and backslashes get a backslash, three control characters a letter, and
    the other control characters and those with a meaning in HTML their code. *)
Definition json_char (c : ascii) : string :=
  let n := nat_of_ascii c in
  if bool_decide (n ∈ [34; 92]%nat) then String backslash (String c "")
  else if (n =? 10)%nat then String backslash "n"
  else if (n =? 13)%nat then String backslash "r"
  else if (n =? 9)%nat then String backslash "t"
  else if (n <? 32)%nat || bool_decide (n ∈ [38; 60; 62]%nat) then
    String backslash ("u00" +:+ String (hex_digit (n / 16)) (String (hex_digit (n mod 16)) ""))
  else String c "".

(** ** UTF-8 *)

(** A byte below 128, the bytes of a longer rune, or a byte that belongs to none. *)
Inductive rune : Type := Ascii (c : ascii) | Wide (bytes : string) | Bad (c : ascii).

Definition within (lo hi : nat) (c : ascii) : bool := (lo <=? nat_of_ascii c)%nat && (nat_of_ascii c <=? hi)%nat.

Definition continues : ascii → bool := within 128 191.

(** The length of a rune by its first byte, and the range of its second byte. *)
Definition first_byte (c : ascii) : option (nat * (nat * nat)) :=
  let n := nat_of_ascii c in
  if within 194 223 c then Some (2%nat, (128, 191)%nat)
  else if (n =? 224)%nat then Some (3%nat, (160, 191)%nat)
  else if (n =? 237)%nat then Some (3%nat, (128, 159)%nat)
  else if within 225 239 c then Some (3%nat, (128, 191)%nat)
  else if (n =? 240)%nat then Some (4%nat, (144, 191)%nat)
  else if (n =? 244)%nat then Some (4%nat, (128, 143)%nat)
  else if within 241 243 c then Some (4%nat, (128, 191)%nat)
  else None.

(** [utf8.DecodeRuneInString] until the string is empty. *)
Fixpoint runes (s : string) : list rune :=
  match s with
  | EmptyString => []
  | String c s1 =>
      if (nat_of_ascii c <? 128)%nat then Ascii c :: runes s1
      else
        match first_byte c, s1 with
        | Some (size, (lo, hi)), String d s2 =>
            if negb (within lo hi d) then Bad c :: runes s1
            else if (size =? 2)%nat then Wide (String c (String d "")) :: runes s2
            else
              match s2 with
              | String e s3 =>
                  if negb (continues e) then Bad c :: runes s1
                  else if (size =? 3)%nat then Wide (String c (String d (String e ""))) :: runes s3
                  else
                    match s3 with
                    | String f s4 =>
                        if negb (continues f) then Bad c :: runes s1
                        else Wide (String c (String d (String e (String f "")))) :: runes s4
                    | EmptyString => Bad c :: runes s1
                    end
              | EmptyString => Bad c :: runes s1
              end
        | _, _ => Bad c :: runes s1
        end
  end.

Fixpoint concat_map (f : rune → string) (rs : list rune) : string :=
  match rs with [] => "" | x :: rs' => f x +:+ concat_map f rs' end.

Definition bytes_of (codes : list nat) : string := foldr (λ n, String (ascii_of_nat n)) "" codes.

Definition json_rune (x : rune) : string :=
  match x with
  | Ascii c => json_char c
  | Wide bytes =>
      if bool_decide (bytes = bytes_of [226; 128; 168]%nat) then String backslash "u2028"
      else if bool_decide (bytes = bytes_of [226; 128; 169]%nat) then String backslash "u2029"
      else bytes
  | Bad _ => String backslash "ufffd"
  end.

Definition json_chars (s : string) : string := concat_map json_rune (runes s).

(** The replacement character for a bad byte. *)
Definition clean_rune (x : rune) : string :=
  match x with Ascii c => String c "" | Wide bytes => bytes | Bad _ => bytes_of [239; 191; 189]%nat end.

Definition clean (s : string) : string := concat_map clean_rune (runes s).

Definition valid_utf8 (s : string) : bool := forallb (λ x, match x with Bad _ => false | _ => true end) (runes s).

Definition json_string (s : string) : string := String quote (json_chars s +:+ String quote "").

Definition hex_value (c : ascii) : option nat :=
  let n := nat_of_ascii c in
  if (48 <=? n)%nat && (n <=? 57)%nat then Some (n - 48)%nat
  else if (97 <=? n)%nat && (n <=? 102)%nat then Some (n - 87)%nat else None.

(** The bytes of a code with four hexadecimal digits; a surrogate is none. *)
Definition encode_rune (n : N) : option string :=
  let byte x rest := String (ascii_of_N x) rest in
  (if n <? 128 then Some (byte n "")
   else if n <? 2048 then Some (byte (192 + n / 64) (byte (128 + n mod 64) ""))
   else if (55296 <=? n) && (n <? 57344) then None
   else Some (byte (224 + n / 4096) (byte (128 + n / 64 mod 64) (byte (128 + n mod 64) ""))))%N.

Definition read_hex (a b c d : ascii) : option string :=
  a ← hex_value a; b ← hex_value b; c ← hex_value c; d ← hex_value d;
  encode_rune (16 * (16 * (16 * N.of_nat a + N.of_nat b) + N.of_nat c) + N.of_nat d).

Definition prepend (t : string) (r : option (string * string)) : option (string * string) :=
  match r with Some (a, rest) => Some (t +:+ a, rest) | None => None end.

Definition cons_char (c : ascii) (r : option (string * string)) : option (string * string) :=
  match r with Some (a, rest) => Some (String c a, rest) | None => None end.

(** The characters up to the closing quote, and what is behind it. *)
Fixpoint read_chars (s : string) : option (string * string) :=
  match s with
  | EmptyString => None
  | String c s' =>
      if bool_decide (c = quote) then Some ("", s')
      else if bool_decide (c = backslash) then
        match s' with
        | String e s'' =>
            if bool_decide (e = "n"%char) then cons_char (ascii_of_nat 10) (read_chars s'')
            else if bool_decide (e = "r"%char) then cons_char (ascii_of_nat 13) (read_chars s'')
            else if bool_decide (e = "t"%char) then cons_char (ascii_of_nat 9) (read_chars s'')
            else if bool_decide (e = "u"%char) then
              match s'' with
              | String h1 (String h2 (String h3 (String h4 t))) =>
                  match read_hex h1 h2 h3 h4 with Some x => prepend x (read_chars t) | None => None end
              | _ => None
              end
            else cons_char e (read_chars s'')
        | EmptyString => None
        end
      else cons_char c (read_chars s')
  end.

Fixpoint expect (p s : string) : option string :=
  match p, s with
  | EmptyString, _ => Some s
  | String a p', String b s' => if bool_decide (a = b) then expect p' s' else None
  | String _ _, EmptyString => None
  end.

Fixpoint drop_digits (s : string) : string :=
  match s with
  | String c s' => match digit c with Some _ => drop_digits s' | None => s end
  | EmptyString => EmptyString
  end.

Fixpoint digits_from (n : Z) (s : string) : Z :=
  match s with
  | String c s' => match digit c with Some d => digits_from (10 * n + d) s' | None => n end
  | EmptyString => n
  end.

Definition read_int (s : string) : option (Z * string) :=
  let '(neg, s) := take_sign s in
  match take_digits s with
  | EmptyString => None
  | ds => Some (if neg then - digits_from 0 ds else digits_from 0 ds, drop_digits s)
  end.

(** ** The encoding *)

(** What may follow a number. *)
Definition stops (s : string) : Prop := match s with String c _ => digit c = None | EmptyString => True end.

Fixpoint has_char (x : ascii) (s : string) : bool :=
  match s with
  | EmptyString => false
  | String c s' => bool_decide (c = x) || has_char x s'
  end.

Class Json (A : Type) : Type := {
  Marshal : A → string;
  Unmarshal : string → option (A * string);
  Clean : A → A;
}.

Class JsonLaws (A : Type) {J : Json A} : Prop := {
  unmarshal_marshal (a : A) rest : stops rest → Unmarshal (Marshal a +:+ rest) = Some (Clean a, rest);
  marshal_no_langle (a : A) : has_char langle (Marshal a) = false;
  marshal_head (a : A) : ∃ c s, Marshal a = String c s ∧ c ≠ "]"%char ∧ c ≠ "}"%char;
}.

#[export] Instance json_Z : Json Z := {| Marshal := pretty; Unmarshal := read_int; Clean x := x |}.

#[export] Instance json_text : Json string := {|
  Marshal := json_string;
  Unmarshal s := s ← expect (String quote "") s; read_chars s;
  Clean := clean;
|}.

(** Items between commas, up to [close]. *)
Section items.
Context {A : Type} `{!Json A} (close : ascii).

Fixpoint read_items (fuel : nat) (s : string) : option (list A * string) :=
  match fuel with
  | O => None
  | S fuel =>
      '(a, s) ← Unmarshal s;
      match expect "," s with
      | Some s => '(xs, s) ← read_items fuel s; Some (a :: xs, s)
      | None => s ← expect (String close "") s; Some ([a], s)
      end
  end.

Definition print_items (xs : list A) : string := Join (Marshal <$> xs) "," +:+ String close "".

Definition read_all (s : string) : option (list A * string) :=
  match expect (String close "") s with
  | Some s => Some ([], s)
  | None => read_items (String.length s) s
  end.

End items.

#[export] Instance json_list {A} `{!Json A} : Json (list A) := {|
  Marshal xs := "[" +:+ print_items "]" xs;
  Unmarshal s := s ← expect "[" s; read_all "]" s;
  Clean xs := Clean <$> xs;
|}.

(** A field of a struct. *)
Definition field (name : string) : string := json_string name +:+ ":".

#[export] Instance json_historyElement : Json historyElement := {|
  Marshal h := "{" +:+ field "ClientId" +:+ Marshal (ClientId h) +:+ "," +:+ field "Start" +:+ Marshal (Start h) +:+
    "," +:+ field "End" +:+ Marshal (End_ h) +:+ "," +:+ field "Description" +:+ Marshal (Description h) +:+ "}";
  Unmarshal s :=
    s ← expect "{" s; s ← expect (field "ClientId") s; '(c, s) ← Unmarshal s;
    s ← expect "," s; s ← expect (field "Start") s; '(a, s) ← Unmarshal s;
    s ← expect "," s; s ← expect (field "End") s; '(b, s) ← Unmarshal s;
    s ← expect "," s; s ← expect (field "Description") s; '(d, s) ← Unmarshal s;
    s ← expect "}" s; Some (mkElement c a b d, s);
  Clean h := mkElement (ClientId h) (Start h) (End_ h) (Clean (Description h));
|}.

#[export] Instance json_linearizationStep : Json linearizationStep := {|
  Marshal l := "{" +:+ field "Index" +:+ Marshal (Index l) +:+ "," +:+
    field "StateDescription" +:+ Marshal (StateDescription l) +:+ "}";
  Unmarshal s :=
    s ← expect "{" s; s ← expect (field "Index") s; '(i, s) ← Unmarshal s;
    s ← expect "," s; s ← expect (field "StateDescription") s; '(d, s) ← Unmarshal s;
    s ← expect "}" s; Some (mkStep i d, s);
  Clean l := mkStep (Index l) (Clean (StateDescription l));
|}.

(** An entry of a map from numbers to numbers; the key is a text. *)
Record member : Type := mkMember { m_key : Z; m_value : Z }.

#[export] Instance json_member : Json member := {|
  Marshal x := String quote "" +:+ Marshal (m_key x) +:+ String quote "" +:+ ":" +:+ Marshal (m_value x);
  Unmarshal s :=
    s ← expect (String quote "") s; '(k, s) ← Unmarshal s; s ← expect (String quote "") s; s ← expect ":" s;
    '(v, s) ← Unmarshal s; Some (mkMember k v, s);
  Clean x := x;
|}.

Definition key_le (a b : Z * Z) : Prop := str_le (pretty a.1) (pretty b.1).

#[export] Instance key_le_dec a b : Decision (key_le a b).
Proof. unfold key_le. apply _. Defined.

(** The entries in the order of the texts of their keys. *)
Definition members (m : gmap Z Z) : list member :=
  (λ x, mkMember x.1 x.2) <$> merge_sort key_le (map_to_list m).

Definition of_members (xs : list member) : gmap Z Z := list_to_map ((λ x, (m_key x, m_value x)) <$> xs).

#[export] Instance json_map : Json (gmap Z Z) := {|
  Marshal m := "{" +:+ print_items "}" (members m);
  Unmarshal s := s ← expect "{" s; '(xs, s) ← read_all "}" s; Some (of_members xs, s);
  Clean m := m;
|}.

#[export] Instance json_part : Json partitionVisualizationData := {|
  Marshal d := "{" +:+ field "History" +:+ Marshal (History d) +:+ "," +:+
    field "PartialLinearizations" +:+ Marshal (PartialLinearizations d) +:+ "," +:+
    field "Largest" +:+ Marshal (Largest d) +:+ "}";
  Unmarshal s :=
    s ← expect "{" s; s ← expect (field "History") s; '(h, s) ← Unmarshal s;
    s ← expect "," s; s ← expect (field "PartialLinearizations") s; '(p, s) ← Unmarshal s;
    s ← expect "," s; s ← expect (field "Largest") s; '(l, s) ← Unmarshal s;
    s ← expect "}" s; Some (mkPart h p l, s);
  Clean d := mkPart (Clean (History d)) (Clean (PartialLinearizations d)) (Largest d);
|}.

(** ** Writing the page *)

Inductive error : Type := CreateError | WriteError.

Section page.
Context {V S : Type} `{!EqDecision S} {sort : PartialSort}.
Variable DescribeOperation : V → V → string.
Variable DescribeState : S → string.
Variables html_head html_tail : string.

(** [written page] is the part of the page that reached the output; the rest is
    lost if the writer returned an error.  [Marshal] has no errors on these types. *)
Definition Visualize (model : Model V S) (info : linearizationInfo V) (written : string → string * bool) (output : string)
    : outcome (option error * string * linearizationInfo V) :=
  '(data, info) ← computeVisualizationData DescribeOperation DescribeState model info;
  let jsonData := Marshal data in
  let '(out, ok) := written (html_head +:+ jsonData +:+ html_tail) in
  mret (if ok : bool then None else Some WriteError, output +:+ out, info).

(** [os.Create] empties a file that is there. *)
Definition VisualizePath (model : Model V S) (info : linearizationInfo V) (Create : string → bool)
    (written : string → string * bool) (path : string) (fs : gmap string string)
    : outcome (option error * gmap string string) :=
  if negb (Create path) then mret (Some CreateError, fs)
  else
    '(err, content, _) ← Visualize model info written "";
    mret (err, <[path := content]> fs).

End page.

(** ** Reading back *)

Lemma str_app_assoc (a b c : string) : (a +:+ b) +:+ c = a +:+ b +:+ c.
Proof. induction a as [|x a IH]; [done|]. change (String x ((a +:+ b) +:+ c) = String x (a +:+ b +:+ c)). by rewrite IH. Qed.

Lemma str_app_cons x (a b : string) : String x a +:+ b = String x (a +:+ b).
Proof. done. Qed.

Lemma str_app_nil (a : string) : a +:+ "" = a.
Proof. induction a as [|x a IH]; [done|]. by rewrite str_app_cons, IH. Qed.

Lemma length_str_app (a b : string) : String.length (a +:+ b) = (String.length a + String.length b)%nat.
Proof. induction a as [|x a IH]; [done|]. rewrite str_app_cons. cbn. by rewrite IH. Qed.

Lemma has_char_app x a b : has_char x (a +:+ b) = has_char x a || has_char x b.
Proof. induction a as [|c a IH]; [done|]. rewrite str_app_cons. cbn [has_char]. by rewrite IH, orb_assoc. Qed.

Lemma expect_app p s : expect p (p +:+ s) = Some s.
Proof. induction p as [|c p IH]; [done|]. rewrite str_app_cons. cbn [expect]. by rewrite bool_decide_true. Qed.

Lemma expect_head c s x : c ≠ x → expect (String x "") (String c s) = None.
Proof. intros H. cbn [expect]. by rewrite bool_decide_false by congruence. Qed.

(** Every character is read back from its escape, and no escape has an angle
    bracket. *)
Lemma read_json_char c rest :
  (nat_of_ascii c < 128)%nat → read_chars (json_char c +:+ rest) = prepend (String c "") (read_chars rest).
Proof. destruct c as [[] [] [] [] [] [] [] []]; cbn; intros H; (reflexivity || lia). Qed.

Lemma json_char_no_langle c : has_char langle (json_char c) = false.
Proof. by destruct c as [[] [] [] [] [] [] [] []]. Qed.

(** Bytes from 128 on have no other meaning. *)
Fixpoint high (s : string) : Prop :=
  match s with EmptyString => True | String c s' => (128 <= nat_of_ascii c)%nat ∧ high s' end.

Definition rune_ok (x : rune) : Prop :=
  match x with Ascii c => (nat_of_ascii c < 128)%nat | Wide bytes => high bytes | Bad _ => True end.

Lemma read_high bytes rest : high bytes → read_chars (bytes +:+ rest) = prepend bytes (read_chars rest).
Proof.
  induction bytes as [|c s IH]; intros H.
  { change ("" +:+ rest) with rest. by destruct (read_chars rest) as [[]|]. }
  destruct H as [Hc Hs].
  rewrite str_app_cons. cbn [read_chars].
  do 2 (rewrite bool_decide_false; [|intros ->; unfold quote, backslash in Hc; rewrite nat_ascii_embedding in Hc; lia]).
  rewrite IH by done. by destruct (read_chars rest) as [[]|].
Qed.

Lemma high_no_langle bytes : high bytes → has_char langle bytes = false.
Proof.
  induction bytes as [|c s IH]; [done|]. intros [Hc Hs]. cbn [has_char]. rewrite IH by done.
  rewrite bool_decide_false; [done|]. intros ->. unfold langle in Hc. rewrite nat_ascii_embedding in Hc; lia.
Qed.

Lemma read_json_rune x rest :
  rune_ok x → read_chars (json_rune x +:+ rest) = prepend (clean_rune x) (read_chars rest).
Proof.
  destruct x as [c|bytes|c]; intros H; [by apply read_json_char| |done]. cbn [json_rune clean_rune].
  case_bool_decide as E1; [by rewrite E1|]. case_bool_decide as E2; [by rewrite E2|]. by apply read_high.
Qed.

Lemma json_rune_no_langle x : rune_ok x → has_char langle (json_rune x) = false.
Proof.
  destruct x as [c|bytes|c]; intros H; [apply json_char_no_langle| |done]. cbn [json_rune].
  do 2 (case_bool_decide; [done|]). by apply high_no_langle.
Qed.

Lemma string_length_ind (P : string → Prop) :
  (∀ s, (∀ s', (String.length s' < String.length s)%nat → P s') → P s) → ∀ s, P s.
Proof. intros H s. by induction (Wf_nat.well_founded_ltof _ String.length s) as [s _ IH]; apply H. Qed.

(** The bytes of a rune. *)
Definition rune_bytes (x : rune) : string :=
  match x with Ascii c | Bad c => String c "" | Wide bytes => bytes end.

Lemma within_spec lo hi c : within lo hi c = true → (lo <= nat_of_ascii c <= hi)%nat.
Proof. unfold within. intros [?%Nat.leb_le ?%Nat.leb_le]%andb_true_iff. lia. Qed.

Lemma first_byte_low c size lo hi : first_byte c = Some (size, (lo, hi)) → (128 <= lo)%nat.
Proof. unfold first_byte. intros H. repeat case_match; simplify_eq; lia. Qed.

(** The runes are the string, and each is what it says. *)
Lemma runes_spec s : Forall rune_ok (runes s) ∧ concat_map rune_bytes (runes s) = s.
Proof.
  induction s as [s IH] using string_length_ind. destruct s as [|c s1]; [done|].
  assert (∀ x s', rune_ok x → rune_bytes x +:+ s' = String c s1 → (String.length s' < String.length (String c s1))%nat →
    Forall rune_ok (x :: runes s') ∧ concat_map rune_bytes (x :: runes s') = String c s1) as Hcons.
  { intros x s' Hx E Hl. destruct (IH s' Hl) as [H1 H2]. split; [by constructor|]. cbn [concat_map]. by rewrite H2. }
  cbn [runes]. destruct (Nat.ltb_spec (nat_of_ascii c) 128) as [Hc|Hc]; [by apply Hcons; [..|cbn; lia]|].
  assert (Forall rune_ok (Bad c :: runes s1) ∧ concat_map rune_bytes (Bad c :: runes s1) = String c s1) as Hbad.
  { apply Hcons; [done|done|cbn; lia]. }
  destruct (first_byte c) as [[size [lo hi]]|] eqn:Ef; [|done]. apply first_byte_low in Ef.
  destruct s1 as [|d s2]; [done|]. destruct (within lo hi d) eqn:Ed; [|done]. apply within_spec in Ed. cbn [negb].
  destruct (size =? 2)%nat; [apply Hcons; cbn; [split_and!; lia || done|done|lia]|].
  destruct s2 as [|e s3]; [done|]. destruct (continues e) eqn:Ee; [|done]. apply within_spec in Ee. cbn [negb].
  destruct (size =? 3)%nat; [apply Hcons; cbn; [split_and!; lia || done|done|lia]|].
  destruct s3 as [|f s4]; [done|]. destruct (continues f) eqn:Eg; [|done]. apply within_spec in Eg. cbn [negb].
  apply Hcons; cbn; [split_and!; lia || done|done|lia].
Qed.

(** A valid string is not changed. *)
Lemma clean_valid s : valid_utf8 s = true → clean s = s.
Proof.
  intros H. rewrite <- (proj2 (runes_spec s)) at 2. unfold clean, valid_utf8 in *.
  induction (runes s) as [|x rs IH]; [done|]. cbn in *. apply andb_true_iff in H as [Hx H]. rewrite IH by done. by destruct x.
Qed.

Lemma read_json_chars s rest : read_chars (json_chars s +:+ String quote rest) = Some (clean s, rest).
Proof.
  unfold json_chars, clean. induction (proj1 (runes_spec s)) as [|x rs Hx _ IH]; [done|]. cbn [concat_map].
  by rewrite str_app_assoc, read_json_rune, IH.
Qed.

Lemma json_string_no_langle s : has_char langle (json_string s) = false.
Proof.
  unfold json_string. change (has_char langle (String quote ?x)) with (has_char langle x). rewrite has_char_app.
  replace (has_char langle (json_chars s)) with false; [done|]. unfold json_chars.
  induction (proj1 (runes_spec s)) as [|x rs Hx _ IH]; [done|]. cbn [concat_map].
  by rewrite has_char_app, json_rune_no_langle, <- IH.
Qed.

Lemma digits_from_pretty (x : N) s : digits_from 0 (pretty_N_go x s) = digits_from (Z.of_N x) s.
Proof.
  apply (pretty_go_ind (λ x s r, digits_from 0 r = digits_from (Z.of_N x) s)); clear x s; [done|].
  intros x s r _ ->. cbn [digits_from]. pose proof (N.mod_lt x 10 ltac:(done)) as Hm. rewrite digit_pretty by done.
  f_equal. pose proof (N.div_mod x 10 ltac:(done)) as E%(f_equal Z.of_N). rewrite N2Z.inj_add, N2Z.inj_mul in E. by symmetry.
Qed.

Lemma digits_pretty (x : N) : digits_from 0 (pretty x) = Z.of_N x.
Proof. unfold pretty, pretty_N. case_decide as H; [by subst|]. by rewrite digits_from_pretty. Qed.

Lemma digits_split s rest :
  all_digits s = true → stops rest → take_digits (s +:+ rest) = s ∧ drop_digits (s +:+ rest) = rest.
Proof.
  intros Hs Hr. induction s as [|c s IH].
  - change ("" +:+ rest) with rest. destruct rest as [|c rest]; [done|]. unfold stops in Hr.
    cbn [take_digits drop_digits]. by rewrite Hr.
  - rewrite str_app_cons. cbn [all_digits take_digits drop_digits] in *. destruct (digit c); [|done].
    by destruct (IH Hs) as [-> ->].
Qed.

(** The text of a natural number, with what follows it. *)
Lemma read_digits (x : N) rest :
  stops rest →
  take_sign (pretty x +:+ rest) = (false, pretty x +:+ rest) ∧
  take_digits (pretty x +:+ rest) = pretty x ∧ drop_digits (pretty x +:+ rest) = rest ∧ pretty x ≠ "".
Proof.
  intros Hr. destruct (all_digits_pretty x) as [Hd Hne]. destruct (digits_split _ _ Hd Hr) as [-> ->]. split; [|done].
  destruct (pretty x) as [|c s]; [done|]. rewrite str_app_cons. cbn [all_digits take_sign] in *. destruct (digit c) eqn:E; [|done].
  do 2 (case_bool_decide; [subst; done|]). done.
Qed.

Lemma read_int_pretty (x : Z) rest : stops rest → read_int (pretty x +:+ rest) = Some (x, rest).
Proof.
  intros Hr.
  assert (∀ n : N, read_int (pretty n +:+ rest) = Some (Z.of_N n, rest)) as Hnat.
  { intros n. destruct (read_digits n rest Hr) as (H1 & H2 & H3 & Hne). unfold read_int. rewrite H1, H2, H3.
    destruct (pretty n) eqn:E; [done|]. by rewrite <- E, digits_pretty. }
  destruct x as [|p|p]; [exact (Hnat 0%N)|exact (Hnat (N.pos p))|].
  destruct (read_digits (N.pos p) rest Hr) as (_ & H2 & H3 & Hne).
  change (pretty (Z.neg p)) with (String "-" (pretty (N.pos p))). rewrite str_app_cons. unfold read_int. cbn [take_sign].
  rewrite bool_decide_true by done. rewrite H2, H3. destruct (pretty (N.pos p)) eqn:E; [done|]. by rewrite <- E, digits_pretty.
Qed.

Lemma pretty_no_langle (x : Z) : has_char langle (pretty x) = false.
Proof.
  assert (∀ s, all_digits s = true → has_char langle s = false) as H.
  { induction s as [|c s IH]; [done|]. cbn [all_digits has_char]. destruct (digit c) eqn:E; [|done]. intros Hs.
    rewrite IH by done. rewrite bool_decide_false; [done|]. by intros ->. }
  destruct x as [|p|p]; [done|apply H, (all_digits_pretty (N.pos p))|]. exact (H _ (proj1 (all_digits_pretty (N.pos p)))).
Qed.

Lemma pretty_head (x : Z) : ∃ c s, pretty x = String c s ∧ c ≠ "]"%char ∧ c ≠ "}"%char.
Proof.
  assert (∀ n : N, ∃ c s, pretty n = String c s ∧ c ≠ "]"%char ∧ c ≠ "}"%char) as H.
  { intros n. destruct (all_digits_pretty n) as [Hd Hne]. destruct (pretty n) as [|c s]; [done|]. exists c, s.
    cbn [all_digits] in Hd. split_and!; [done|by intros ->..]. }
  destruct x as [|p|p]; [apply (H 0%N)|apply (H (N.pos p))|]. by exists "-"%char, (pretty (N.pos p)).
Qed.

#[export] Instance json_Z_laws : JsonLaws Z.
Proof. split; [intros a rest; apply read_int_pretty|apply pretty_no_langle|apply pretty_head]. Qed.

#[export] Instance json_text_laws : JsonLaws string.
Proof.
  split.
  - intros s rest _. cbn [Marshal Unmarshal json_text]. unfold json_string. rewrite str_app_cons, str_app_assoc. cbn [expect].
    rewrite bool_decide_true by done. apply read_json_chars.
  - apply json_string_no_langle.
  - intros s. by exists quote, (json_chars s +:+ String quote "").
Qed.

Section items_laws.
Context {A : Type} `{!Json A, !JsonLaws A} (close : ascii).
Hypothesis Hclose : close = "]"%char ∨ close = "}"%char.

Lemma close_stops rest : stops (String close rest).
Proof using Hclose. by destruct Hclose as [-> | ->]. Qed.

Lemma read_items_print (xs : list A) rest fuel :
  xs ≠ [] → (length xs <= fuel)%nat →
  read_items close fuel (Join (Marshal <$> xs) "," +:+ String close rest) = Some (Clean <$> xs, rest).
Proof using Hclose JsonLaws0.
  revert fuel. induction xs as [|a xs IH]; intros [|fuel] Hne Hf; cbn [length] in Hf; try done; [lia|].
  cbn [read_items]. destruct xs as [|b xs].
  - cbn [fmap list_fmap Join]. rewrite unmarshal_marshal by apply close_stops. cbn [mbind option_bind].
    rewrite expect_head by (by destruct Hclose as [-> | ->]).
    change (String close rest) with (String close "" +:+ rest). by rewrite expect_app.
  - change (Join (Marshal <$> a :: b :: xs) ",") with (Marshal a +:+ "," +:+ Join (Marshal <$> b :: xs) ",").
    rewrite !str_app_assoc, unmarshal_marshal by done. cbn [mbind option_bind]. rewrite expect_app.
    rewrite IH by (done || lia). done.
Qed.

Lemma print_items_length (xs : list A) : (length xs <= String.length (print_items close xs))%nat.
Proof.
  unfold print_items. rewrite length_str_app. cbn [String.length].
  enough (length xs <= String.length (Join (Marshal <$> xs) ",") + 1)%nat by lia.
  induction xs as [|a [|b xs] IH]; cbn [length] in *; [lia..|].
  change (Join (Marshal <$> a :: b :: xs) ",") with (Marshal a +:+ "," +:+ Join (Marshal <$> b :: xs) ",").
  rewrite !length_str_app. cbn [String.length]. lia.
Qed.

Lemma read_all_print (xs : list A) rest : read_all close (print_items close xs +:+ rest) = Some (Clean <$> xs, rest).
Proof using Hclose JsonLaws0.
  unfold read_all. destruct xs as [|a xs].
  { change (print_items close [] +:+ rest) with (String close "" +:+ rest). by rewrite expect_app. }
  assert (expect (String close "") (print_items close (a :: xs) +:+ rest) = None) as ->.
  { destruct (marshal_head a) as (c & s & E & H1 & H2). unfold print_items. cbn [fmap list_fmap Join]. rewrite E.
    destruct (Marshal <$> xs); rewrite ?str_app_assoc, str_app_cons; apply expect_head; by destruct Hclose as [-> | ->]. }
  pose proof (print_items_length (a :: xs)) as Hl. rewrite length_str_app.
  unfold print_items in *. rewrite str_app_assoc. change (String close "" +:+ rest) with (String close rest).
  apply read_items_print; [done|lia].
Qed.

Lemma print_items_no_langle (xs : list A) : has_char langle (print_items close xs) = false.
Proof using Hclose JsonLaws0.
  unfold print_items. rewrite has_char_app.
  assert (has_char langle (String close "") = false) as -> by (by destruct Hclose as [-> | ->]). rewrite orb_false_r.
  induction xs as [|a [|b xs] IH]; [done|apply marshal_no_langle|].
  change (Join (Marshal <$> a :: b :: xs) ",") with (Marshal a +:+ "," +:+ Join (Marshal <$> b :: xs) ",").
  by rewrite !has_char_app, marshal_no_langle, IH.
Qed.

End items_laws.

(** The laws of a text that consists of known pieces and of values with laws. *)
Ltac json_read :=
  repeat match goal with |- context [field ?name] => generalize (field name); intros ? end;
  rewrite ?str_app_assoc;
  repeat (first [rewrite expect_app | rewrite unmarshal_marshal by done | rewrite read_all_print by (left + right; done)];
          cbn [mbind option_bind]).

Lemma field_no_langle name : has_char langle (field name) = false.
Proof. unfold field. by rewrite has_char_app, json_string_no_langle. Qed.

Ltac json_clean :=
  rewrite ?has_char_app, ?field_no_langle, ?marshal_no_langle; first [reflexivity | rewrite print_items_no_langle by (left + right; done); reflexivity].

Ltac json_laws :=
  [> intros [] ? ?; json_read; reflexivity | intros ?; json_clean | intros ?; eexists _, _; split; [reflexivity|done] ].

#[export] Instance json_list_laws {A} `{!Json A, !JsonLaws A} : JsonLaws (list A).
Proof.
  constructor; cbn [Marshal Unmarshal Clean json_list].
  - intros xs rest _. rewrite str_app_assoc, expect_app. cbn [mbind option_bind]. apply read_all_print. by left.
  - intros xs. rewrite has_char_app, print_items_no_langle; [done|by left].
  - intros xs. by eexists _, _.
Qed.

#[export] Instance json_historyElement_laws : JsonLaws historyElement.
Proof. constructor; cbn [Marshal Unmarshal Clean json_historyElement]; json_laws. Qed.

#[export] Instance json_linearizationStep_laws : JsonLaws linearizationStep.
Proof. constructor; cbn [Marshal Unmarshal Clean json_linearizationStep]; json_laws. Qed.

#[export] Instance json_member_laws : JsonLaws member.
Proof. constructor; cbn [Marshal Unmarshal Clean json_member]; json_laws. Qed.

Lemma of_members_members m : of_members (members m) = m.
Proof.
  assert (∀ l : list (Z * Z), (λ x, (m_key x, m_value x)) <$> ((λ x, mkMember x.1 x.2) <$> l) = l) as Hid.
  { induction l as [|[k v] l IH]; [done|]. cbn. by f_equal. }
  unfold of_members, members. rewrite Hid.
  rewrite <- (list_to_map_to_list m) at 2. apply list_to_map_proper; [|apply merge_sort_Permutation].
  rewrite merge_sort_Permutation. apply NoDup_fst_map_to_list.
Qed.

#[export] Instance json_map_laws : JsonLaws (gmap Z Z).
Proof.
  constructor; cbn [Marshal Unmarshal Clean json_map].
  - intros m rest _. json_read. assert (Clean <$> members m = members m) as -> by apply list_fmap_id.
    by rewrite of_members_members.
  - intros m. json_clean.
  - intros m. by eexists _, _.
Qed.

#[export] Instance json_part_laws : JsonLaws partitionVisualizationData.
Proof. constructor; cbn [Marshal Unmarshal Clean json_part]; json_laws. Qed.

(** The descriptions in the data. *)
Definition texts (data : list partitionVisualizationData) : list string :=
  d ← data; (Description <$> History d) ++ (StateDescription <$> concat (PartialLinearizations d)).

Lemma clean_fmap {A} `{!Json A} (xs : list A) : Forall (λ x, Clean x = x) xs → Clean xs = xs.
Proof. induction 1 as [|x xs Hx _ IH]; [done|]. cbn in *. by rewrite Hx, IH. Qed.

(** Data with valid descriptions is read back as it is. *)
Lemma clean_texts (data : list partitionVisualizationData) : Forall (λ s, valid_utf8 s = true) (texts data) → Clean data = data.
Proof.
  rewrite Forall_forall. intros H. apply clean_fmap, Forall_forall. intros [h p l] Hd.
  assert (∀ s, s ∈ (Description <$> h) ++ (StateDescription <$> concat p) → clean s = s) as Hs.
  { intros s Hin. apply clean_valid, H, list_elem_of_bind. by exists (mkPart h p l). }
  cbn [Clean json_part History PartialLinearizations Largest]. f_equal.
  - apply clean_fmap, Forall_forall. intros [c a b d] Hx. cbn. f_equal. apply Hs, elem_of_app. left.
    apply list_elem_of_fmap. by exists (mkElement c a b d).
  - apply clean_fmap, Forall_forall. intros ls Hls. apply clean_fmap, Forall_forall. intros [i d] Hx. cbn. f_equal.
    apply Hs, elem_of_app. right. apply list_elem_of_fmap. exists (mkStep i d). split; [done|].
    apply list_elem_of_In, in_concat. exists ls. by rewrite <- !list_elem_of_In.
Qed.
