(* ===== verification/PorcLocal.v ===== *)
(** * Linearizing parts of a history separately

    Orders of the parts that respect real time can be merged into an order of
    the whole that does: give every operation the latest call time seen so far in
    its part as its point in time, and merge by these points. *)

From stdpp Require Import base list numbers gmap sorting.
From Stdlib Require Import Lia.
From S2P Require Import Prelude PorcModel PorcOps.

Section merge.
Context {V : Type}.
Implicit Types (order : list (Operation V)).

(** Operations with their points. *)
Fixpoint points (m : Z) order : list (Z * Operation V) :=
  match order with
  | [] => []
  | o :: order' => (Z.max m (Call o), o) :: points (Z.max m (Call o)) order'
  end.

Lemma points_snd m order : (points m order).*2 = order.
Proof. revert m. induction order as [|o l IH]; intros m; cbn; [done|]. f_equal. apply IH. Qed.

Lemma real_time_cons o order :
  real_time (o :: order) ↔ (∀ x, x ∈ order → Call o <= Return x) ∧ real_time order.
Proof.
  unfold real_time. split.
  - intros H. split.
    + intros x [j Hj]%list_elem_of_lookup. apply (H 0%nat (S j) o x); [lia|done|done].
    + intros i j x y Hij Hi Hj. apply (H (S i) (S j)); [lia|done|done].
  - intros [H1 H2] [|i] [|j] x y Hij Hi Hj; try lia; cbn in Hi, Hj.
    + injection Hi as ->. apply H1. by eapply list_elem_of_lookup_2.
    + apply (H2 i j); [lia|done|done].
Qed.

Lemma real_time_filter (P : Operation V → Prop) `{!∀ x, Decision (P x)} order :
  real_time order → real_time (filter P order).
Proof.
  induction order as [|o l IH]; intros Hrt; [done|]. apply real_time_cons in Hrt as [H1 H2].
  rewrite filter_cons. case_decide; [|auto]. apply real_time_cons. split; [|auto].
  intros x [_ Hx]%list_elem_of_filter. auto.
Qed.

(** Every point lies between call and return. *)
Lemma points_within m order x :
  timely order → real_time order → (∀ o, o ∈ order → m <= Return o) → x ∈ points m order →
  Call x.2 <= x.1 <= Return x.2 ∧ m <= x.1.
Proof.
  revert m. induction order as [|o l IH]; intros m Ht Hr Hm Hx; [by apply not_elem_of_nil in Hx|].
  apply real_time_cons in Hr as [Hr1 Hr2].
  pose proof (Hm o ltac:(by left)). pose proof (Ht o ltac:(by left)).
  cbn in Hx. apply elem_of_cons in Hx as [->|Hx]; cbn; [lia|].
  apply (IH (Z.max m (Call o))) in Hx; [lia| |done|].
  - intros y Hy. apply Ht. by right.
  - intros y Hy. pose proof (Hm y ltac:(by right)). specialize (Hr1 _ Hy). lia.
Qed.

Definition earlier (x y : Z * Operation V) : Prop := x.1 <= y.1.

#[export] Instance earlier_dec x y : Decision (earlier x y).
Proof. unfold earlier. apply _. Defined.

#[export] Instance earlier_total : Total earlier.
Proof. intros x y. unfold earlier. lia. Qed.

#[export] Instance earlier_trans : Transitive earlier.
Proof. intros x y z. unfold earlier. lia. Qed.

Lemma points_sorted m order : Sorted earlier (points m order).
Proof.
  revert m. induction order as [|o l IH]; intros m; cbn; constructor; [apply IH|].
  destruct l as [|o' l]; cbn; constructor. unfold earlier. cbn. lia.
Qed.

(** An order by points inside the operations respects real time. *)
Lemma sorted_real_time (xs : list (Z * Operation V)) :
  Sorted earlier xs → (∀ x, x ∈ xs → Call x.2 <= x.1 <= Return x.2) → real_time xs.*2.
Proof.
  intros Hs%Sorted_StronglySorted; [|apply _]. induction Hs as [|x xs _ IH Hx]; intros Hin; [done|].
  rewrite fmap_cons. apply real_time_cons. split; [|apply IH; intros; apply Hin; by right].
  intros o (y & -> & Hy)%list_elem_of_fmap.
  pose proof (proj1 (Forall_forall _ _) Hx y Hy) as Hxy. unfold earlier in Hxy.
  pose proof (Hin x ltac:(by left)). pose proof (Hin y ltac:(by right)). lia.
Qed.

(** A merge keeps both sides in order. *)
Lemma list_merge_filter {A} (R : relation A) `{!∀ x y, Decision (R x y)} (P : A → Prop)
    `{!∀ x, Decision (P x)} (l1 l2 : list A) :
  (∀ x, x ∈ l2 → ¬ P x) → filter P (list_merge R l1 l2) = filter P l1.
Proof.
  revert l2. induction l1 as [|x l1 IH1]; intros l2 H2.
  { rewrite list_merge_nil_l, filter_none by done. done. }
  induction l2 as [|y l2 IH2]; [by rewrite list_merge_nil_r|].
  rewrite list_merge_cons. case_decide.
  - rewrite !filter_cons. rewrite IH1 by done. done.
  - rewrite filter_cons_False by (apply H2; by left). apply IH2. intros; apply H2; by right.
Qed.

Lemma list_merge_filter_r {A} (R : relation A) `{!∀ x y, Decision (R x y)} (P : A → Prop)
    `{!∀ x, Decision (P x)} (l1 l2 : list A) :
  (∀ x, x ∈ l1 → ¬ P x) → filter P (list_merge R l1 l2) = filter P l2.
Proof.
  revert l2. induction l1 as [|x l1 IH1]; intros l2 H1; [by rewrite list_merge_nil_l|].
  induction l2 as [|y l2 IH2]; [by rewrite list_merge_nil_r, filter_none|].
  rewrite list_merge_cons. case_decide.
  - rewrite filter_cons_False by (apply H1; by left). apply IH1. intros; apply H1; by right.
  - rewrite !filter_cons, IH2. done.
Qed.

End merge.

(** ** Parts by key *)

Section parts.
Context {V K : Type} `{!EqDecision K}.
Variable opkey : Operation V → K.

Abbreviation of_key k := (filter (λ o, opkey o = k)).

Lemma filter_snd k (xs : list (Z * Operation V)) :
  (filter (λ x, opkey x.2 = k) xs).*2 = of_key k xs.*2.
Proof.
  induction xs as [|x xs IH]; [done|]. rewrite fmap_cons, !filter_cons.
  case_decide; rewrite ?fmap_cons; by rewrite IH.
Qed.

(** Orders [f k] of the operations of key [k], for the keys [ks], have a common
    order. *)
Lemma merge_orders (ks : list K) (f : K → list (Operation V)) m :
  NoDup ks →
  (∀ k o, k ∈ ks → o ∈ f k → opkey o = k ∧ m <= Return o) → (∀ k, k ∈ ks → timely (f k) ∧ real_time (f k)) →
  ∃ xs : list (Z * Operation V), Sorted earlier xs ∧
    (∀ x, x ∈ xs → opkey x.2 ∈ ks ∧ Call x.2 <= x.1 <= Return x.2) ∧
    ∀ k, k ∈ ks → of_key k xs.*2 = f k.
Proof.
  intros Hnd Hf Hr. induction ks as [|k ks IH].
  { exists []. split_and!; [constructor| |]; [intros x ?%not_elem_of_nil|intros k ?%not_elem_of_nil]; done. }
  apply NoDup_cons in Hnd as [Hk Hnd]. destruct IH as (xs & Hs & Hin & Hof); [done|intros; apply Hf; [by right|done]|intros; apply Hr; by right|].
  destruct (Hr k ltac:(by left)) as [Htk Hrk].
  assert (∀ x, x ∈ points m (f k) → opkey x.2 = k) as Hpk.
  { intros x Hx%(list_elem_of_fmap_2 snd). rewrite points_snd in Hx. apply Hf; [by left|done]. }
  exists (list_merge earlier (points m (f k)) xs). split; [|split].
  - apply Sorted_list_merge; [apply _|apply points_sorted|done].
  - intros x. rewrite merge_Permutation, elem_of_app. intros [Hx|Hx].
    + split; [rewrite Hpk by done; by left|]. eapply points_within; [done|done| |exact Hx].
      intros o Ho. apply (Hf k); [by left|done].
    + destruct (Hin _ Hx). split; [by right|done].
  - intros k' [->|Hk']%elem_of_cons; rewrite <- filter_snd.
    + rewrite list_merge_filter by (intros x [Hx _]%Hin E; congruence).
      rewrite filter_snd, points_snd. apply filter_all. intros o Ho. apply Hf; [by left|done].
    + rewrite list_merge_filter_r, filter_snd; [by apply Hof|].
      intros x Hx%Hpk E. congruence.
Qed.

End parts.
