(* ===== verification/KvModel.v ===== *)
(** * The key-value model of the tests (src/src/models/kv.go)

    Inputs and outputs are stored as [interface{}]; [KvVal] is their sum.  A type
    assertion that fails panics in Go; histories of gets, puts and appends
    ([typed]) never do, and [kvStep] and [kvDescribeOperation] are only
    meant for them.  The checker sees
    one key at a time; [storeStep] is the whole store, and the theorem at the end
    says that checking the parts is the same as checking the whole. *)

From stdpp Require Import base list numbers gmap strings sorting.
From Stdlib Require Import Lia.
From S2P Require Import Prelude PorcModel PorcOps PorcLocal.

Record KvInput : Type := mkKvInput {
  inOp : Z;
  inKey : string;
  inValue : string;
}.

Record KvOutput : Type := mkKvOutput {
  outValue : string;
}.

Inductive KvVal : Type :=
  | VIn (i : KvInput)
  | VOut (o : KvOutput).

(** [v.Input.(KvInput).Key] *)
Definition kvKey (v : Operation KvVal) : string :=
  match Input v with VIn i => inKey i | VOut _ => EmptyString end.

(** [m[key] = append(m[key], v)] over the history *)
Definition groupByKey (history : list (Operation KvVal)) : gmap string (list (Operation KvVal)) :=
  foldl (λ m v, <[kvKey v := default [] (m !! kvKey v) ++ [v]]> m) ∅ history.

Definition str_leb (a b : string) : Prop := String.leb a b = true.

#[export] Instance str_leb_dec a b : Decision (str_leb a b).
Proof. unfold str_leb. apply _. Defined.

(** The keys of the map, in [sort.Strings] order. *)
Definition sortedKeys (m : gmap string (list (Operation KvVal))) : list string :=
  merge_sort str_leb ((map_to_list m).*1).

Definition kvPartition (history : list (Operation KvVal)) : list (list (Operation KvVal)) :=
  let m := groupByKey history in
  (λ k, default [] (m !! k)) <$> sortedKeys m.

Definition kvStep (state : string) (input output : KvVal) : bool * string :=
  match input, output with
  | VIn inp, VOut out =>
      if inOp inp =? 0 then (bool_decide (outValue out = state), state)
      else if inOp inp =? 1 then (true, inValue inp)
      else (true, String.append state (inValue inp))
  | _, _ => (false, state)
  end.

(** [KvModel.DescribeOperation] *)
Definition kvDescribeOperation (input output : KvVal) : string :=
  match input, output with
  | VIn inp, VOut out =>
      if inOp inp =? 0 then "get('" +:+ inKey inp +:+ "') -> '" +:+ outValue out +:+ "'"
      else if inOp inp =? 1 then "put('" +:+ inKey inp +:+ "', '" +:+ inValue inp +:+ "')"
      else if inOp inp =? 2 then "append('" +:+ inKey inp +:+ "', '" +:+ inValue inp +:+ "')"
      else "<invalid>"
  | _, _ => EmptyString
  end.

(** [DefaultDescribeState] on the states of [KvModel]: [%v] of a string is the
    string. *)
Definition DefaultDescribeState (state : string) : string := state.

Definition KvModel : Model KvVal string :=
  mkModel (Some kvPartition) None EmptyString kvStep None.

(** ** The whole store *)

Definition typed (history : list (Operation KvVal)) : Prop :=
  ∀ o, o ∈ history → ∃ i out, Input o = VIn i ∧ Output o = VOut out.

Definition storeGet (st : gmap string string) (k : string) : string := default EmptyString (st !! k).

Definition storeStep (st : gmap string string) (input output : KvVal) : bool * gmap string string :=
  match input, output with
  | VIn inp, VOut out =>
      if inOp inp =? 0 then (bool_decide (outValue out = storeGet st (inKey inp)), st)
      else if inOp inp =? 1 then (true, <[inKey inp := inValue inp]> st)
      else (true, <[inKey inp := String.append (storeGet st (inKey inp)) (inValue inp)]> st)
  | _, _ => (false, st)
  end.

(** ** Partition *)

Abbreviation of_key k := (filter (λ o, kvKey o = k)).

Lemma groupByKey_lookup history k :
  groupByKey history !! k = if decide (of_key k history = []) then None else Some (of_key k history).
Proof.
  unfold groupByKey. induction history as [|v h IH] using rev_ind; [done|].
  rewrite foldl_app. cbn [foldl]. rewrite filter_app. destruct (decide (kvKey v = k)) as [E|E].
  - rewrite E, lookup_insert_eq, IH. rewrite filter_cons_True, filter_nil by done.
    rewrite (decide_False (P := of_key k h ++ [v] = [])) by (by intros [_ ?]%app_eq_nil).
    case_decide as Hnil; cbn; [by rewrite Hnil|done].
  - rewrite lookup_insert_ne by done. rewrite IH, filter_cons_False, filter_nil, app_nil_r by done. done.
Qed.

Lemma sortedKeys_spec history :
  NoDup (sortedKeys (groupByKey history)) ∧
  ∀ k, k ∈ sortedKeys (groupByKey history) ↔ of_key k history ≠ [].
Proof.
  unfold sortedKeys. split.
  - rewrite merge_sort_Permutation. apply NoDup_fst_map_to_list.
  - intros k. rewrite merge_sort_Permutation, list_elem_of_fmap. split.
    + intros ([k' l] & -> & Hin). apply elem_of_map_to_list in Hin. rewrite groupByKey_lookup in Hin.
      cbn. by case_decide.
    + intros Hk. exists (k, of_key k history). split; [done|]. apply elem_of_map_to_list.
      rewrite groupByKey_lookup. by case_decide.
Qed.

(** The parts are the operations of one key each, in order, and every operation
    is in the part of its key. *)
Lemma kvPartition_elem history part :
  part ∈ kvPartition history ↔ ∃ k, part = of_key k history ∧ part ≠ [].
Proof.
  unfold kvPartition. rewrite list_elem_of_fmap. split.
  - intros (k & -> & Hk). apply (proj2 (sortedKeys_spec history)) in Hk. exists k.
    rewrite groupByKey_lookup. by case_decide.
  - intros (k & -> & Hk). exists k. split; [|by apply (proj2 (sortedKeys_spec history))].
    rewrite groupByKey_lookup. by case_decide.
Qed.

(** ** Locality *)

(** The store runs as one register per key. *)
Lemma store_legal order st :
  typed order →
  legal_ops storeStep st order ↔ ∀ k, legal_ops kvStep (storeGet st k) (of_key k order).
Proof.
  revert st. induction order as [|o order IH]; intros st Ht; [done|].
  destruct (Ht o) as (i & out & Ei & Eo); [by left|].
  assert (typed order) as Ht' by (intros x Hx; apply Ht; by right).
  assert (kvKey o = inKey i) as Ek by (unfold kvKey; by rewrite Ei).
  cbn [legal_ops]. rewrite Ei, Eo, (IH _ Ht').
  set (st' := (storeStep st (VIn i) (VOut out)).2).
  assert ((storeStep st (VIn i) (VOut out)).1 = (kvStep (storeGet st (inKey i)) (VIn i) (VOut out)).1) as E1.
  { cbn. destruct (inOp i =? 0), (inOp i =? 1); done. }
  assert (storeGet st' (inKey i) = (kvStep (storeGet st (inKey i)) (VIn i) (VOut out)).2) as E2.
  { subst st'. cbn. destruct (inOp i =? 0), (inOp i =? 1); cbn; unfold storeGet;
      rewrite ?lookup_insert_eq; done. }
  assert (∀ k, k ≠ inKey i → storeGet st' k = storeGet st k) as E3.
  { intros k Hk. subst st'. cbn. destruct (inOp i =? 0), (inOp i =? 1); cbn; unfold storeGet;
      rewrite ?lookup_insert_ne by done; done. }
  rewrite E1. split.
  - intros [H1 H2] k. rewrite filter_cons. case_decide as Hk.
    + rewrite Ek in Hk. subst k. cbn. rewrite Ei, Eo. split; [done|]. rewrite <- E2. apply H2.
    + rewrite <- E3 by congruence. apply H2.
  - intros H. pose proof (H (inKey i)) as Hi. rewrite filter_cons_True in Hi by done. cbn in Hi.
    rewrite Ei, Eo in Hi. destruct Hi as [H1 H2]. split; [done|]. intros k.
    destruct (decide (k = inKey i)) as [->|Hk]; [by rewrite E2|].
    specialize (H k). rewrite filter_cons_False in H by congruence. by rewrite E3.
Qed.

Lemma filter_key_perm (l l' : list (Operation KvVal)) :
  (∀ k, of_key k l ≡ₚ of_key k l') → l ≡ₚ l'.
Proof.
  revert l'. induction l as [|o l IH]; intros l' H.
  - destruct l' as [|o' l']; [done|]. specialize (H (kvKey o')).
    rewrite filter_nil, filter_cons_True in H by done. by apply Permutation_nil_cons in H.
  - assert (o ∈ l') as Hin.
    { specialize (H (kvKey o)). rewrite filter_cons_True in H by done.
      assert (o ∈ of_key (kvKey o) l') as [_ ?]%list_elem_of_filter by (rewrite <- H; by left). done. }
    apply list_elem_of_split in Hin as (k1 & k2 & E).
    assert (l' ≡ₚ o :: k1 ++ k2) as Hl2 by (rewrite E; symmetry; apply Permutation_middle).
    clear E. revert Hl2. generalize (k1 ++ k2). intros l2 Hl2. rewrite Hl2. constructor. apply IH. intros k.
    specialize (H k). rewrite Hl2, !filter_cons in H. case_decide; [|done]. by apply Permutation_cons_inv in H.
Qed.

(** Some time before every return. *)
Lemma lower_bound (history : list (Operation KvVal)) : ∃ m, ∀ o, o ∈ history → m <= Return o.
Proof.
  induction history as [|o h [m IH]]; [exists 0; by intros o ?%not_elem_of_nil|].
  exists (Z.min m (Return o)). intros o' [->|H]%elem_of_cons; [lia|]. specialize (IH _ H). lia.
Qed.

Lemma kv_local history :
  timely history → typed history →
  (∀ part, part ∈ kvPartition history → linearizable_ops kvStep EmptyString part) ↔
  linearizable_ops storeStep ∅ history.
Proof.
  intros Htime Htyped. split.
  - intros Hparts.
    assert (∀ k, ∃ order, order ≡ₚ of_key k history ∧ legal_ops kvStep EmptyString order ∧ real_time order) as Hk.
    { intros k. destruct (decide (of_key k history = [])) as [->|Hne]; [by exists []|].
      apply Hparts, kvPartition_elem. eauto. }
    destruct (lower_bound history) as [m Hm]. destruct (sortedKeys_spec history) as [Hnd Hkeys].
    set (ks := sortedKeys (groupByKey history)) in *.
    assert (∃ f, ∀ k, k ∈ ks → f k ≡ₚ of_key k history ∧ legal_ops kvStep EmptyString (f k) ∧ real_time (f k)) as [f Hf].
    { clear -Hk. induction ks as [|k ks [f IH]]; [exists (λ _, []); by intros k ?%not_elem_of_nil|].
      destruct (Hk k) as (order & Ho). exists (λ k', if decide (k' = k) then order else f k').
      intros k' Hin. case_decide as E; [by subst|]. apply elem_of_cons in Hin as [?|?]; [done|auto]. }
    destruct (merge_orders kvKey ks f m Hnd) as (xs & Hs & Hin & Hof).
    { intros k o Hks Ho. rewrite (proj1 (Hf k Hks)) in Ho. apply list_elem_of_filter in Ho as [? ?]. auto. }
    { intros k Hks. destruct (Hf k Hks) as (Hp & _ & ?). split; [|done]. intros o Ho. rewrite Hp in Ho.
      apply list_elem_of_filter in Ho as [_ ?]. auto. }
    assert (∀ k, of_key k xs.*2 ≡ₚ of_key k history ∧ legal_ops kvStep EmptyString (of_key k xs.*2)) as Hall.
    { intros k. destruct (decide (k ∈ ks)) as [Hks|Hks].
      - rewrite (Hof k Hks). by destruct (Hf k Hks) as (? & ? & _).
      - assert (of_key k history = []) as -> by (destruct (decide (of_key k history = [])); [done|]; by apply Hkeys in n).
        rewrite filter_none; [done|]. intros o (x & -> & Hx)%list_elem_of_fmap Ek. destruct (Hin _ Hx). congruence. }
    assert (xs.*2 ≡ₚ history) as Hperm by (apply filter_key_perm; intros k; by apply Hall).
    exists xs.*2. split; [done|]. split.
    + apply store_legal; [intros o Ho; rewrite Hperm in Ho; auto|]. intros k.
      unfold storeGet. rewrite lookup_empty. apply Hall.
    + apply sorted_real_time; [done|]. intros x Hx. by apply Hin.
  - intros (order & Hperm & Hleg & Hr) part (k & -> & _)%kvPartition_elem.
    exists (of_key k order). split; [by rewrite Hperm|]. split; [|by apply real_time_filter].
    assert (typed order) as Ht by (intros o Ho; rewrite Hperm in Ho; auto).
    pose proof (proj1 (store_legal order ∅ Ht) Hleg k) as H. unfold storeGet in H.
    by rewrite lookup_empty in H.
Qed.
