(* ===== verification/PorcSafety.v ===== *)
(** * What the linearizability checker guarantees

    The theorems of the checker (src/src/porcupine, src/src/models), each with a
    concrete history on which its hypotheses hold. *)

From stdpp Require Import base list numbers gmap strings sorting relations.
From Stdlib Require Import Lia.
From S2P Require Import Prelude Bitset PorcHeap PorcModel PorcSpec PorcChecker PorcSearch PorcSim PorcRun PorcPartial PorcOps PorcParallel PorcVisual PorcPage PorcLocal KvModel.

(** ** A sorting function *)

(** Entries by time, calls first: the order [byTime.Less] does not contradict. *)
Definition not_after {V} (a b : entry V) : Prop := byTime_Less b a = false.

#[export] Instance not_after_dec {V} (a b : entry V) : Decision (not_after a b).
Proof. unfold not_after. apply _. Defined.

Definition mergeByTime {V} : TimeSort V := merge_sort not_after.

Lemma not_after_spec {V} (a b : entry V) :
  not_after a b ↔ time a < time b ∨ time a = time b ∧ (kind a = callEntry ∨ kind b = returnEntry).
Proof.
  unfold not_after, byTime_Less. destruct (Z.eqb_spec (time b) (time a)) as [->|Hne]; cbn.
  - destruct (kind a), (kind b); split; try done; try tauto; intros [?|[_ [?|?]]]; (lia || done).
  - rewrite Z.ltb_ge. split; [lia|]. intros [?|[? _]]; lia.
Qed.

Lemma mergeByTime_laws {V} : TimeSortLaws (@mergeByTime V).
Proof.
  assert (Total (@not_after V)) as Ht.
  { intros a b. rewrite !not_after_spec.
    destruct (Z.lt_trichotomy (time a) (time b)) as [?|[?|?]]; destruct (kind a), (kind b); intuition auto. }
  assert (Transitive (@not_after V)) as Htr.
  { intros a b c. rewrite !not_after_spec. destruct (kind a), (kind b), (kind c);
      intros [?|[? [?|?]]] [?|[? [?|?]]]; try done; first [left; lia | right; split; [lia|tauto]]. }
  split; [intros es; apply (merge_sort_Permutation not_after)|]. intros es i j a b Hij Ha Hb.
  change (not_after a b). pose proof (StronglySorted_merge_sort not_after es) as Hs.
  unfold sort_entries, mergeByTime in Ha, Hb. revert i j Hij Ha Hb.
  induction Hs as [|x l _ IH Hx]; intros [|i] [|j] Hij Ha Hb; try done; try lia; cbn in Ha, Hb.
  - injection Ha as ->. by apply (Forall_lookup_1 _ _ _ _ Hx Hb).
  - apply (IH i j); [lia|done|done].
Qed.

(** ** Bit sets *)

(** A bit set behaves as the set of its members: after [set] or [clear], [get]
    answers true or false at that position and as before everywhere else, and no
    operation in range panics. *)
Theorem bitset_refines_set b pos q :
  bitset_ok b → in_range b pos → in_range b q →
  (∃ b', set b pos = Done b' ∧ bitset_ok b' ∧
     get b' q = if decide (q = pos) then Done true else get b q) ∧
  (∃ b', clear b pos = Done b' ∧ bitset_ok b' ∧
     get b' q = if decide (q = pos) then Done false else get b q).
Proof.
  intros Hok Hpos Hq. assert (0 <= q) by (unfold in_range in Hq; lia). split.
  - destruct (set_spec b pos Hok Hpos) as (b' & Hb & Hl & Hok' & Hm). exists b'. split_and!; [done|done|].
    rewrite !get_spec, Hm by (done || by eapply in_range_length). by case_decide.
  - destruct (clear_spec b pos Hok Hpos) as (b' & Hb & Hl & Hok' & Hm). exists b'. split_and!; [done|done|].
    rewrite !get_spec, Hm by (done || by eapply in_range_length). by case_decide.
Qed.

Lemma bitset_refines_set_witness :
  ∃ b', set (newBitset 70) 65 = Done b' ∧ bitset_ok b' ∧ get b' 65 = Done true.
Proof.
  destruct (newBitset_spec 70) as (Hok & Hr & _); [lia|].
  destruct (bitset_refines_set (newBitset 70) 65 65) as [(b' & ? & ? & E) _];
    [exact Hok|apply Hr; lia|apply Hr; lia|]. exists b'. by rewrite decide_True in E.
Defined.

(** ** The linked list *)

(** [unlift] undoes [lift]: lifting a call and its return out of the list and
    putting them back leaves the heap as it was. *)
Theorem unlift_undoes_lift {V} (h : heap V) qs i j e m n :
  linked h qs → qs !! S i = Some e → qs !! S (S j) = Some m → (i <= j)%nat →
  h !! e = Some n → match_ n = Some m →
  ∃ h', lift e h = Done h' ∧ linked h' (delete (S j) (delete (S i) qs)) ∧ unlift e h' = Done h.
Proof.
  intros Hl He Hm Hij Hn Hmt.
  destruct (lift_spec h qs i j e m n Hl He Hm Hij Hn Hmt) as (h' & H & Hl' & Hlf & Hloc).
  destruct (unlift_spec h' qs i j e m (proj1 Hl) He Hm Hij Hl' Hlf) as (h2 & H2 & Hl2 & Hloc2).
  exists h'. split_and!; [done|done|]. rewrite H2. f_equal.
  assert (local_to qs h h2) as [Hs Hout] by (by etransitivity).
  apply list_eq. intros p. destruct (decide (p ∈ qs)) as [[k Hk]%list_elem_of_lookup|Hp]; [|by apply Hout].
  destruct (linked_placed _ _ _ _ Hl Hk) as (n1 & Hn1 & Hx1 & Hv1).
  destruct (linked_placed _ _ _ _ Hl2 Hk) as (n2 & Hn2 & Hx2 & Hv2).
  destruct (same_stat_keeps _ _ Hs _ _ Hn1) as (n3 & Hn3 & E). assert (n3 = n2) as -> by congruence.
  rewrite Hn1, Hn2. f_equal. injection E as E1 E2 E3. destruct n1, n2. cbn in *. congruence.
Qed.

(** The list of a history of two overlapping operations, behind its head. *)
Definition two_calls : list (entry Z) :=
  [mkEntry callEntry 7 0 0 0; mkEntry callEntry 8 1 1 1; mkEntry returnEntry 7 0 2 0;
   mkEntry returnEntry 8 1 3 1].

Definition two_calls_heap : heap Z :=
  match makeLinkedEntries two_calls with Done (h, _) => h | _ => [] end.

Lemma unlift_undoes_lift_witness :
  ∃ h', lift 2 two_calls_heap = Done h' ∧ linked h' [3; 1]%nat ∧ unlift 2 h' = Done two_calls_heap.
Proof.
  refine (unlift_undoes_lift two_calls_heap [3; 2; 1; 0]%nat 0 1 2%nat 0%nat _ _ eq_refl eq_refl _ eq_refl eq_refl).
  - split; [by repeat constructor; set_solver|].
    intros [|[|[|[|i]]]] p Hp; vm_compute in Hp; try done; injection Hp as <-; eexists; repeat split; done.
  - lia.
Defined.

(** ** One history *)

(** C12. [checkSingle] decides linearizability: on a well-formed history, with an
    [Equal] that relates only states with the same future, the loop ends after
    finitely many turns, and unless it is killed the answer is true exactly if
    the history is linearizable.  Killing it can only turn the answer into
    false. *)
Theorem checkSingle_decides {V St : Type} (step : St → V → V → bool * St) (equal : St → St → bool)
    (computePartial : bool) (history : list (entry V)) (init : St) :
  (∀ s s' vi vo, equal s s' = true → (step s vi vo).1 = true →
     (step s' vi vo).1 = true ∧ equal (step s vi vo).2 (step s' vi vo).2 = true) →
  well_formed (evs history) →
  (∀ e, e ∈ history → 0 <= eid e < Z.of_nat (length history) / 2) →
  ∃ fuel0, ∀ fuel kill, (fuel0 <= fuel)%nat →
  ∃ b longest, checkSingle step equal fuel init history computePartial kill = Done (b, longest) ∧
    (b = true → linearizable step (evs history) init) ∧
    (linearizable step (evs history) init → (∀ i, kill i = false) → b = true).
Proof.
  intros Hsim Hwf Hids.
  destruct (checkSingle_spec step equal computePartial Hsim history Hwf Hids init) as (b & Hb & fuel0 & l & Hf).
  exists fuel0. intros fuel kill Hle. destruct (Hf fuel Hle) as [H0 Hk]. destruct (Hk kill) as [H|[l' H]].
  - exists b, l. split_and!; [done|apply Hb|]. intros Hlin _. by apply Hb.
  - exists false, l'. split_and!; [done|done|]. intros Hlin Hnever.
    destruct (checkSingle_starts step equal computePartial history Hids init) as (hd & cf & _ & Hck).
    rewrite Hck in H, H0. rewrite (loop_ext _ _ _ _ _ kill (λ _, false)) in H by done.
    rewrite H in H0. injection H0 as <- _. by apply Hb.
Qed.

(** ** The parallel checker *)

(** C21. What [checkParallel] returns is right, whatever the schedule: [Ok] only if
    every part is linearizable, [Illegal] only if some part is not, [Unknown] only
    after a timeout. *)
Theorem checkParallel_sound {V St : Type} (model : Model V St) (equal : St → St → bool)
    (hist : list (list (entry V))) (computeInfo : bool) (timeout : Z) acts r info :
  (∀ s s' vi vo, equal s s' = true → (Step model s vi vo).1 = true →
     (Step model s' vi vo).1 = true ∧ equal (Step model s vi vo).2 (Step model s' vi vo).2 = true) →
  (∀ es, es ∈ hist → well_formed (evs es) ∧ ∀ e, e ∈ es → 0 <= eid e < Z.of_nat (length es) / 2) →
  hist ≠ [] → checkParallel model equal hist computeInfo timeout acts = Done (r, info) →
  match r with
  | Ok => ∀ es, es ∈ hist → linearizable (Step model) (evs es) (Init model)
  | Illegal => ∃ es, es ∈ hist ∧ ¬ linearizable (Step model) (evs es) (Init model)
  | Unknown => Timeout ∈ acts
  end.
Proof.
  intros Hsim Hgood Hne. apply checkParallel_result; [done| | |done]; intros es Hes; by apply Hgood.
Qed.

(** C22. For at least one part, each a well-formed history, and an [equal] that the
    model respects, the parallel checker comes to a result: no schedule is longer
    than [2 * parts + 1], and whatever has happened so far, there is a continuation
    without timeout that ends in a return; so no goroutine waits forever.  Without
    any part it does; see [empty_history_blocks]. *)
Theorem checkParallel_terminates {V St : Type} (model : Model V St) (equal : St → St → bool)
    (hist : list (list (entry V))) (computeInfo : bool) (timeout : Z) acts p :
  (∀ s s' vi vo, equal s s' = true → (Step model s vi vo).1 = true →
     (Step model s' vi vo).1 = true ∧ equal (Step model s vi vo).2 (Step model s' vi vo).2 = true) →
  (∀ es, es ∈ hist → well_formed (evs es) ∧ ∀ e, e ∈ es → 0 <= eid e < Z.of_nat (length es) / 2) →
  hist ≠ [] → execs model equal hist computeInfo timeout acts (initPar hist) = Done p →
  (length acts <= 2 * length hist + 1)%nat ∧
  ∃ acts' r, checkParallel model equal hist computeInfo timeout (acts ++ acts') = Done r ∧ Timeout ∉ acts'.
Proof.
  intros Hsim Hgood Hne. apply checkParallel_returns; [done| | |done]; intros es Hes; by apply Hgood.
Qed.

(** With no part to check and no timeout, the select loop waits on a channel that
    nobody sends to: [checkParallel] never returns.  This is what happens when a
    partitioning model such as [KvModel] is given an empty history. *)
Theorem empty_history_blocks acts :
  CheckOperations (TimeSort0 := mergeByTime) KvModel [] acts = Blocked.
Proof.
  unfold CheckOperations, checkOperations. cbn. unfold checkParallel.
  destruct acts as [|[i fuel seen| |] acts]; cbn; done.
Qed.

(** ** Histories of operations *)

Section operations.
Context {V St : Type} `{!EqDecision St} {sort : TimeSort V} (laws : TimeSortLaws sort).
Variable model : Model V St.
Variable hist : list (Operation V).

Abbreviation parts := (default NoPartition (Partition model) hist).
Abbreviation equal := (default ShallowEqual (Equal model)).

Hypothesis Hsim : ∀ s s' vi vo, equal s s' = true → (Step model s vi vo).1 = true →
  (Step model s' vi vo).1 = true ∧ equal (Step model s vi vo).2 (Step model s' vi vo).2 = true.
Hypothesis Hparts : parts ≠ [].
Hypothesis Htimely : ∀ part, part ∈ parts → timely part.

Lemma parts_good es :
  es ∈ makeEntries <$> parts →
  well_formed (evs es) ∧ ∀ e, e ∈ es → 0 <= eid e < Z.of_nat (length es) / 2.
Proof using laws Htimely.
  intros (part & -> & Hp)%list_elem_of_fmap. split; [eapply makeEntries_wf; eauto|].
  intros e. by apply makeEntries_ids.
Qed.

Lemma parts_nonempty : makeEntries <$> parts ≠ [].
Proof using Hparts. intros H%fmap_nil_inv. done. Qed.

Lemma checkOperations_result verbose timeout acts r info :
  checkOperations model hist verbose timeout acts = Done (r, info) →
  match r with
  | Ok => ∀ part, part ∈ parts → linearizable_ops (Step model) (Init model) part
  | Illegal => ∃ part, part ∈ parts ∧ ¬ linearizable_ops (Step model) (Init model) part
  | Unknown => Timeout ∈ acts
  end.
Proof using laws Hsim Hparts Htimely.
  unfold checkOperations. cbn [fillDefault Partition Equal of_option mbind outcome_bind]. intros H.
  apply checkParallel_result in H; [|done|intros; by apply parts_good|intros es Hes; by apply parts_good|apply parts_nonempty].
  destruct r; [done| |].
  - intros part Hp. apply makeEntries_linearizable; [by apply Htimely|]. apply H.
    by apply list_elem_of_fmap_2.
  - destruct H as (es & (part & -> & Hp)%list_elem_of_fmap & Hn). exists part. split; [done|].
    intros Hl. apply Hn. apply makeEntries_linearizable; [by apply Htimely|done].
Qed.

Lemma checkOperations_returns verbose timeout :
  ∃ acts r, checkOperations model hist verbose timeout acts = Done r ∧ Timeout ∉ acts.
Proof using laws Hsim Hparts Htimely.
  unfold checkOperations. cbn [fillDefault Partition Equal of_option mbind outcome_bind].
  destruct (checkParallel_returns (fillDefault model) equal (makeEntries <$> parts) verbose timeout Hsim)
    with (acts := @nil act) (p := initPar (makeEntries (V := V) <$> parts)) as (_ & acts & r & H & Hn);
    [intros; by apply parts_good|intros es Hes; by apply parts_good|apply parts_nonempty|done|].
  exists acts, r. done.
Qed.

End operations.

Lemma shallow_sim s s' vi vo :
  ShallowEqual s s' = true → (kvStep s vi vo).1 = true →
  (kvStep s' vi vo).1 = true ∧ ShallowEqual (kvStep s vi vo).2 (kvStep s' vi vo).2 = true.
Proof. intros E%bool_decide_eq_true ?. subst. split; [done|]. by apply bool_decide_eq_true. Qed.

(** C11. The tests' checker for the key-value services is exact: for a non-empty
    history of gets, puts and appends (inputs and outputs of the types of [KvModel])
    in which no operation returns before it is called, [CheckOperationsTimeout] on [KvModel] returns under some schedule
    without timeout, and whatever it returns, under any schedule, is right for
    the whole store: [Ok] only if the history is linearizable, [Illegal] only if it
    is not, [Unknown] only after a timeout.  Checking key by key loses nothing. *)
Theorem kv_checker_correct {sort : TimeSort KvVal} (laws : TimeSortLaws sort) history timeout :
  timely history → typed history → history ≠ [] →
  (∃ acts r, CheckOperationsTimeout KvModel history timeout acts = Done r ∧ Timeout ∉ acts) ∧
  ∀ acts r, CheckOperationsTimeout KvModel history timeout acts = Done r →
    match r with
    | Ok => linearizable_ops storeStep ∅ history
    | Illegal => ¬ linearizable_ops storeStep ∅ history
    | Unknown => Timeout ∈ acts
    end.
Proof.
  intros Htime Htyped Hne. pose proof (kv_local history Htime Htyped) as Hloc.
  assert (kvPartition history ≠ []) as Hparts.
  { destruct history as [|o h]; [done|]. intros E.
    assert (filter (λ o', kvKey o' = kvKey o) (o :: h) ∈ kvPartition (o :: h)) as Hin.
    { apply kvPartition_elem. eexists. split; [done|]. by rewrite filter_cons_True. }
    rewrite E in Hin. by apply not_elem_of_nil in Hin. }
  assert (∀ part, part ∈ kvPartition history → timely part) as Hpt.
  { intros part (k & -> & _)%kvPartition_elem o [_ Ho]%list_elem_of_filter. auto. }
  split.
  - destruct (checkOperations_returns laws KvModel history shallow_sim Hparts Hpt false timeout) as (acts & [r i] & H & Hn).
    exists acts, r. unfold CheckOperationsTimeout. by rewrite H.
  - intros acts r H. unfold CheckOperationsTimeout in H. apply bind_Done in H as ([r' i] & H & E).
    injection E as ->. apply (checkOperations_result laws KvModel history shallow_sim Hparts Hpt) in H.
    destruct r; [done|by apply Hloc|]. destruct H as (part & Hp & Hn). intros Hl. by apply Hn, Hloc.
Qed.

(** ** Partial linearizations *)

(** What [checkSingle] leaves in [longest], whenever it is killed, are partial
    linearizations of the history: distinct operations that the model allows one
    after the other, each behind everything that had returned when it was called;
    and if it answers true, they are linearizations of all of it. *)
Theorem partials_linearize {V St : Type} (step : St → V → V → bool * St) (equal : St → St → bool)
    (history : list (entry V)) (computePartial : bool) fuel init kill b longest q ids :
  well_formed (evs history) → (∀ e, e ∈ history → 0 <= eid e < Z.of_nat (length history) / 2) →
  checkSingle step equal fuel init history computePartial kill = Done (b, longest) → Some (q, ids) ∈ longest →
  ∃ order, o_id <$> order = ids ∧ partial_linearization step (evs history) init order ∧
    (b = true → order ≡ₚ ops (evs history)).
Proof. intros Hwf Hids. by apply checkSingle_partials. Qed.

(** C28. The data for the picture of a checked history can always be computed: no step
    of a partial linearization is refused, whatever the schedule.  It shows every
    operation with its times and description, every partial linearization with the
    states of the model, longest first, and for every operation in one of them the
    index of a longest one that has it. *)
Theorem visualization_faithful {V St : Type} `{!EqDecision St} {sort : PartialSort} (laws : PartialSortLaws sort)
    (DescribeOperation : V → V → string) (DescribeState : St → string) (model : Model V St) (equal : St → St → bool)
    (hist : list (list (entry V))) timeout acts r info :
  (∀ es, es ∈ hist → well_formed (evs es) ∧ ∀ e, e ∈ es → 0 <= eid e < Z.of_nat (length es) / 2) →
  checkParallel model equal hist true timeout acts = Done (r, info) →
  ∃ data info', computeVisualizationData DescribeOperation DescribeState model info = Done (data, info') ∧
    history info' = hist ∧ Forall2 (≡ₚ) (partialLinearizations info') (partialLinearizations info) ∧
    length data = length hist ∧
    Forall2 (λ x d, part_shown DescribeOperation DescribeState model x.1 x.2 d)
      (zip hist (partialLinearizations info')) data.
Proof.
  intros Hgood H. destruct (checkParallel_partials _ _ _ true _ _ _ _ Hgood H eq_refl) as [Eh Hp].
  destruct (visualizeParts_spec DescribeOperation DescribeState model hist (partialLinearizations info)) as (data & Hd & Hs).
  { apply Forall2_same_length_lookup. split; [by eapply Forall2_length|]. intros i es ps Hes Hps.
    destruct (Hgood es) as [Hwf Hids]; [by eapply list_elem_of_lookup_2|]. split_and!; [done|done|].
    by apply (Forall2_lookup_lr _ _ _ _ _ _ Hp Hes Hps). }
  unfold computeVisualizationData. rewrite Eh, Hd. eexists _, _. split; [done|]. split; [done|]. split_and!; [..|done].
  - cbn. apply Forall2_fmap_l, Forall_Forall2_diag, Forall_forall. intros ps _. apply sort_partials_perm.
  - apply Forall2_length in Hs. rewrite <- Hs, length_zip_with, length_fmap, (Forall2_length _ _ _ Hp). lia.
Qed.

(** C29. [VisualizePath] writes the template with a text in its place from which the
    script gets the data of the picture, with the replacement character for each
    byte of a description that is not valid UTF-8, and so exactly the data if all
    descriptions are valid; the text never ends the script element, whatever the
    descriptions are.  It returns an error exactly if the file could not be created
    or the page not written in full; a file that was created holds what the writer
    took, and other files are not touched. *)
Theorem page_shows_data {V St : Type} `{!EqDecision St} {sort : PartialSort}
    (DescribeOperation : V → V → string) (DescribeState : St → string) html_head html_tail
    (model : Model V St) info Create written path fs data info' :
  computeVisualizationData DescribeOperation DescribeState model info = Done (data, info') →
  ∃ text err fs', VisualizePath DescribeOperation DescribeState html_head html_tail model info Create written path fs = Done (err, fs') ∧
    (Unmarshal text = Some (Clean data, "") ∧ has_char langle text = false) ∧
    (Forall (λ s, valid_utf8 s = true) (texts data) → Clean data = data) ∧
    let '(out, ok) := written (html_head +:+ text +:+ html_tail) in
    err = (if negb (Create path) then Some CreateError else if negb ok then Some WriteError else None) ∧
    fs' = if Create path then <[path := out]> fs else fs.
Proof.
  intros H. exists (Marshal data). unfold VisualizePath, Visualize. rewrite H. cbn [mbind outcome_bind].
  destruct (written _) as [out ok]. cbn [mbind outcome_bind mret outcome_ret].
  eexists _, (if Create path then <[path := out]> fs else fs).
  split; [|split_and!; [|apply marshal_no_langle|apply clean_texts|reflexivity|done]].
  - by destruct (Create path), ok.
  - pose proof (unmarshal_marshal data "" I) as Hu. by rewrite str_app_nil in Hu.
Qed.

(** ** A history for the witnesses *)

(** Client 0 puts "a" under "x" from 0 to 3; client 1 gets "x" from 1 to 2 and
    sees "a" already; client 1 then appends to "y". *)
Definition demo_history : list (Operation KvVal) :=
  [mkOperation 0 (VIn (mkKvInput 1 "x" "a")) 0 (VOut (mkKvOutput "")) 3;
   mkOperation 1 (VIn (mkKvInput 0 "x" "")) 1 (VOut (mkKvOutput "a")) 2;
   mkOperation 1 (VIn (mkKvInput 2 "y" "b")) 4 (VOut (mkKvOutput "")) 5].

Definition demo_entries : list (list (entry KvVal)) :=
  makeEntries (TimeSort0 := mergeByTime) <$> kvPartition demo_history.

(** Goroutine 1 finishes first; then the main goroutine receives both results. *)
Definition demo_schedule : list act := [Finish 1 20 None; Receive; Finish 0 20 None; Receive].

Lemma demo_timely : timely demo_history.
Proof. intros o Ho. unfold demo_history in Ho. repeat (apply elem_of_cons in Ho as [->|Ho]; [cbn; lia|]). by apply not_elem_of_nil in Ho. Qed.

Lemma demo_typed : typed demo_history.
Proof.
  intros o Ho. unfold demo_history in Ho.
  repeat (apply elem_of_cons in Ho as [->|Ho]; [cbn; eauto|]). by apply not_elem_of_nil in Ho.
Qed.

Lemma demo_good es :
  es ∈ demo_entries → well_formed (evs es) ∧ ∀ e, e ∈ es → 0 <= eid e < Z.of_nat (length es) / 2.
Proof.
  pose proof (@mergeByTime_laws KvVal) as laws. intros (part & -> & Hp)%list_elem_of_fmap.
  apply kvPartition_elem in Hp as (k & -> & _). split.
  - apply makeEntries_wf. intros o [_ Ho]%list_elem_of_filter. by apply demo_timely.
  - intros e He. by apply (makeEntries_ids (V := KvVal)).
Qed.

Lemma checkSingle_decides_witness :
  ∃ es, demo_entries !! 0%nat = Some es ∧
  ∃ fuel0, ∀ fuel kill, (fuel0 <= fuel)%nat →
  ∃ b longest, checkSingle kvStep ShallowEqual fuel EmptyString es true kill = Done (b, longest) ∧
    (b = true → linearizable kvStep (evs es) EmptyString) ∧
    (linearizable kvStep (evs es) EmptyString → (∀ i, kill i = false) → b = true).
Proof.
  destruct (demo_entries !! 0%nat) as [es|] eqn:E; [|vm_compute in E; done]. exists es. split; [done|].
  apply list_elem_of_lookup_2 in E.
  apply (checkSingle_decides kvStep ShallowEqual true es EmptyString shallow_sim);
    apply demo_good in E as [Hwf Hids]; [exact Hwf|exact Hids].
Defined.

Lemma checkParallel_sound_witness :
  Forall (λ es, linearizable kvStep (evs es) EmptyString) demo_entries.
Proof.
  apply Forall_forall.
  destruct (checkParallel KvModel ShallowEqual demo_entries false 0 demo_schedule) as [[r i]| |] eqn:E;
    [|vm_compute in E; done..].
  assert (r = Ok) as Hr by (apply (f_equal (λ o, match o with Done (r, _) => r | _ => Unknown end)) in E; vm_compute in E; done).
  pose proof (checkParallel_sound KvModel ShallowEqual demo_entries false 0 demo_schedule r i shallow_sim demo_good ltac:(done) E) as H.
  rewrite Hr in H. exact H.
Defined.

Lemma checkParallel_terminates_witness :
  ∃ acts' r, checkParallel KvModel ShallowEqual demo_entries false 1 (Finish 1 20 None :: acts') = Done r ∧
    Timeout ∉ acts'.
Proof.
  destruct (execs KvModel ShallowEqual demo_entries false 1 [Finish 1 20 None] (initPar demo_entries)) as [p| |] eqn:E;
    [|vm_compute in E; done..].
  exact (proj2 (checkParallel_terminates KvModel ShallowEqual demo_entries false 1 [Finish 1 20 None] p
    shallow_sim demo_good ltac:(done) E)).
Defined.

(** Sequences by descending length. *)
Definition not_shorter (a b : list Z) : Prop := (length b <= length a)%nat.

#[export] Instance not_shorter_dec a b : Decision (not_shorter a b).
Proof. unfold not_shorter. apply _. Defined.

Definition mergeByLength : PartialSort := merge_sort not_shorter.

Lemma mergeByLength_laws : PartialSortLaws mergeByLength.
Proof.
  assert (Total not_shorter) as Ht by (intros a b; unfold not_shorter; lia).
  assert (Transitive not_shorter) as Htr by (intros a b c; unfold not_shorter; lia).
  split.
  - intros ps. apply merge_sort_Permutation.
  - intros ps i j a b Hij Hi Hj. pose proof (StronglySorted_merge_sort not_shorter ps) as Hs.
    unfold sort_partials, mergeByLength in Hi, Hj. revert i j Hij Hi Hj.
    induction Hs as [|x l _ IH Hx]; intros i j Hij Hi Hj; [by rewrite lookup_nil in Hi|].
    destruct j as [|j]; [lia|]. destruct i as [|i]; [|apply (IH i j); [lia|done|done]].
    injection Hi as <-. by apply (Forall_lookup_1 _ _ _ _ Hx Hj).
Qed.

Lemma partials_linearize_witness :
  ∃ es order, demo_entries !! 0%nat = Some es ∧ o_id <$> order = [0; 1] ∧
    partial_linearization kvStep (evs es) EmptyString order ∧ order ≡ₚ ops (evs es).
Proof.
  destruct (demo_entries !! 0%nat) as [es|] eqn:E; [|vm_compute in E; done]. exists es.
  assert (checkSingle kvStep ShallowEqual 20 EmptyString es true (λ _, false) =
    Done (true, [Some (0%nat, [0; 1]); Some (0%nat, [0; 1])])) as Hck.
  { injection E as <-. vm_compute. reflexivity. }
  apply list_elem_of_lookup_2, demo_good in E as [Hwf Hids].
  destruct (partials_linearize kvStep ShallowEqual es true 20 EmptyString (λ _, false) true _ 0%nat [0; 1] Hwf Hids Hck
    ltac:(by left)) as (order & Ho & Hp & Hf). exists order. auto.
Defined.

Lemma visualization_faithful_witness :
  ∃ data info', computeVisualizationData (sort := mergeByLength)
    kvDescribeOperation DefaultDescribeState KvModel (mkInfo demo_entries [[[0; 1]]; [[0]]]) = Done (data, info') ∧
    length data = 2%nat.
Proof.
  destruct (checkParallel KvModel ShallowEqual demo_entries true 0 demo_schedule) as [[r i]| |] eqn:E;
    [|vm_compute in E; done..].
  assert (i = mkInfo demo_entries [[[0; 1]]; [[0]]]) as Hi.
  { apply (f_equal (λ o, match o with Done (_, i) => i | _ => mkInfo [] [] end)) in E. rewrite <- E. vm_compute. reflexivity. }
  rewrite <- Hi.
  destruct (visualization_faithful mergeByLength_laws kvDescribeOperation DefaultDescribeState KvModel ShallowEqual
    demo_entries 0 demo_schedule r i demo_good E) as (data & info' & H & _ & _ & Hl & _).
  exists data, info'. split; [exact H|]. rewrite Hl. vm_compute. reflexivity.
Defined.

Abbreviation demo_page written := (VisualizePath (sort := mergeByLength) kvDescribeOperation DefaultDescribeState
  "<script>const data = " "</script>" KvModel (mkInfo demo_entries [[[0; 1]]; [[0]]]) (λ _, true) written "out.html" ∅).

(** A page that is written, and one of which the disk takes eight bytes. *)
Lemma page_shows_data_witness :
  (∃ text data, Unmarshal text = Some (data, "") ∧ has_char langle text = false ∧ length data = 2%nat ∧
    demo_page (λ page, (page, true)) =
    Done (None, <["out.html" := "<script>const data = " +:+ text +:+ "</script>"]> ∅)) ∧
  demo_page (λ page, (String.substring 0 8 page, false)) = Done (Some WriteError, <["out.html" := "<script>"]> ∅).
Proof.
  destruct (computeVisualizationData (sort := mergeByLength) kvDescribeOperation DefaultDescribeState KvModel
    (mkInfo demo_entries [[[0; 1]]; [[0]]])) as [[data info']| |] eqn:E; [|vm_compute in E; discriminate E..].
  assert (length data = 2%nat ∧ forallb valid_utf8 (texts data) = true) as [Hlen Hval].
  { apply (f_equal (λ o, match o with Done (d, _) => (length d, forallb valid_utf8 (texts d)) | _ => (0%nat, false) end)) in E.
    apply pair_equal_spec. rewrite <- E. vm_compute. reflexivity. }
  split.
  - destruct (page_shows_data (sort := mergeByLength) kvDescribeOperation DefaultDescribeState "<script>const data = " "</script>"
      KvModel (mkInfo demo_entries [[[0; 1]]; [[0]]]) (λ _, true) (λ page, (page, true)) "out.html" ∅ data info' E)
      as (text & err & fs' & H & [Hu Hl] & Hc & -> & ->).
    rewrite Hc in Hu by (apply Forall_forall; intros x Hx; rewrite forallb_forall in Hval; apply Hval; by apply list_elem_of_In).
    exists text, data. split; [exact Hu|]. split; [exact Hl|]. split; [exact Hlen|exact H].
  - destruct (page_shows_data (sort := mergeByLength) kvDescribeOperation DefaultDescribeState "<script>const data = " "</script>"
      KvModel (mkInfo demo_entries [[[0; 1]]; [[0]]]) (λ _, true) (λ page, (String.substring 0 8 page, false)) "out.html" ∅ data info' E)
      as (text & err & fs' & H & _ & _ & -> & ->).
    exact H.
Defined.

Lemma kv_checker_correct_witness : linearizable_ops storeStep ∅ demo_history.
Proof.
  exact (proj2 (kv_checker_correct mergeByTime_laws demo_history 0 demo_timely demo_typed ltac:(done))
    demo_schedule Ok ltac:(vm_compute; reflexivity)).
Defined.
