(* ===== verification/Labgob.v ===== *)
(** * The checks around encoding/gob (src/src/labgob/labgob.go)

    [checkType] walks over a type and everything it refers to, once per type, and
    counts fields that gob will not transmit; types may refer to themselves.
    [checkDefault] looks for values that a decode may leave behind.  Types are
    numbers into a table of descriptions, as [reflect] has them; whether a name
    starts with an upper-case letter is a parameter.  The package's variables
    [errorCount] and [checked] are the state. *)

From stdpp Require Import base list numbers gmap strings.
From Stdlib Require Import Lia.
From S2P Require Import Prelude.

(** Slices, arrays and pointers have an element type. *)
Inductive kind : Type :=
  | Struct (fields : list (string * nat))
  | Element (elem : nat)
  | Map (elem key : nat)
  | Basic.

Record state : Type := mkState {
  errorCount : Z;
  checked : gset nat;
}.

(** How [reflect] reaches a field: an exported one freely, a hidden one not, and
    an embedded struct with a lower-case name not itself but its exported fields. *)
Inductive visibility : Type := Exported | Embedded | Hidden.

(** The read-only flags a [reflect.Value] carries. *)
Inductive access : Type := Free | EmbedRO | StickyRO.

Definition fieldAccess (a : access) (vis : visibility) : access :=
  match a, vis with
  | StickyRO, _ | _, Hidden => StickyRO
  | _, Embedded => EmbedRO
  | _, Exported => Free
  end.

(** What [checkDefault1] sees of a value: a basic value is or is not its type's
    zero value. *)
#[warnings="-register-all"]
Inductive value : Type :=
  | VStruct (fields : list (visibility * value))
  | VPtr (elem : option value)
  | VBasic (isZero : bool)
  | VOther.

Section labgob.
Variable types : list kind.
Variable isUpper : string → bool.

(** [errorCount += 1] for a field that starts with a lower-case letter *)
Definition countField (name : string) (st : state) : state :=
  if isUpper name then st else mkState (errorCount st + 1) (checked st).

Fixpoint checkFields (rec : nat → state → outcome state) (fields : list (string * nat)) (st : state)
    : outcome state :=
  match fields with
  | [] => mret st
  | (name, t) :: fields' =>
      st ← rec t (countField name st);
      checkFields rec fields' st
  end.

(** The fuel bounds the depth of the recursion. *)
Fixpoint checkType (fuel : nat) (t : nat) (st : state) : outcome state :=
  match fuel with
  | O => Blocked
  | S fuel' =>
      k ← of_option (types !! t);
      if bool_decide (t ∈ checked st) then mret st
      else
        let st := mkState (errorCount st) ({[t]} ∪ checked st) in
        match k with
        | Struct fields => checkFields (checkType fuel') fields st
        | Element elem => checkType fuel' elem st
        | Map elem key =>
            st ← checkType fuel' elem st;
            checkType fuel' key st
        | Basic => mret st
        end
  end.

(** [checkValue] gives it enough: no path repeats a type. *)
Definition checkValue (t : nat) (st : state) : outcome state := checkType (S (length types)) t st.

(** ** The specification *)

Definition refs (k : kind) : list nat :=
  match k with
  | Struct fields => fields.*2
  | Element e => [e]
  | Map e key => [e; key]
  | Basic => []
  end.

Definition refs_of (t : nat) : list nat := default [] (refs <$> types !! t).

(** The fields of a type that will be lost. *)
Definition bad_fields (t : nat) : Z :=
  match types !! t with
  | Some (Struct fields) => Z.of_nat (length (filter (λ f, isUpper f.1 = false) fields))
  | _ => 0
  end.

Inductive reachable (t : nat) : nat → Prop :=
  | reach_self : reachable t t
  | reach_step u w : reachable t u → w ∈ refs_of u → reachable t w.

(** Every type that is checked has all it refers to checked. *)
Definition closed (c : gset nat) : Prop := ∀ t u, t ∈ c → u ∈ refs_of t → u ∈ c.

Definition total_bad (c : gset nat) : Z := foldr (λ t n, bad_fields t + n) 0 (elements c).

(** References stay in the table. *)
Hypothesis Htable : ∀ t u, (t < length types)%nat → u ∈ refs_of t → (u < length types)%nat.

Lemma reachable_trans t u w : reachable t u → reachable u w → reachable t w.
Proof. intros Htu. induction 1; [done|]. by eapply reach_step. Qed.

Lemma total_bad_union (a b : gset nat) : a ## b → total_bad (a ∪ b) = total_bad a + total_bad b.
Proof.
  intros Hd. unfold total_bad.
  assert (∀ l l' : list nat, l ≡ₚ l' → foldr (λ t n, bad_fields t + n) 0 l = foldr (λ t n, bad_fields t + n) 0 l') as Hp.
  { induction 1; cbn; lia. }
  rewrite (Hp _ _ (elements_disj_union a b Hd)). generalize (elements b) as lb.
  induction (elements a) as [|x l IH]; intros lb; cbn; [done|]. rewrite IH. lia.
Qed.

(** What a call of [checkType] on the types [ts], one after the other, may do. *)
Definition walked (ts : list nat) (st st' : state) : Prop :=
  checked st ⊆ checked st' ∧ (∀ t, t ∈ ts → t ∈ checked st') ∧
  (∀ u, u ∈ checked st' → u ∉ checked st →
     (∃ t, t ∈ ts ∧ reachable t u) ∧ ∀ w, w ∈ refs_of u → w ∈ checked st').

Lemma walked_nil st : walked [] st st.
Proof. split_and!; [done|by intros t ?%not_elem_of_nil|done]. Qed.

Lemma walked_cons t ts st st1 st2 : walked [t] st st1 → walked ts st1 st2 → walked (t :: ts) st st2.
Proof.
  intros (Ha & Ht & Hn) (Hb & Hts & Hn'). split_and!; [set_solver|set_solver|].
  intros u Hu Hnu. destruct (decide (u ∈ checked st1)) as [Hu1|Hu1].
  - destruct (Hn u Hu1 Hnu) as [(t' & Ht' & Hr) Hw]. split; [exists t'; set_solver|]. intros w ?%Hw. set_solver.
  - destruct (Hn' u Hu Hu1) as [(t' & Ht' & Hr) Hw]. split; [exists t'; set_solver|done].
Qed.

(** A type and then everything it refers to. *)
Lemma walked_type t st st' :
  t ∉ checked st → walked (refs_of t) (mkState (errorCount st) ({[t]} ∪ checked st)) st' → walked [t] st st'.
Proof.
  intros Hnt (Ha & Ht & Hn). cbn in *. split_and!; [set_solver|set_solver|].
  intros u Hu Hnu. destruct (decide (u = t)) as [->|Hne].
  - split; [exists t; split; [by left|constructor]|]. auto.
  - destruct (Hn u Hu) as [(t' & Ht' & Hr) Hw]; [set_solver|]. split; [|done].
    exists t. split; [by left|]. eapply reachable_trans; [|done]. eapply reach_step; [constructor|done].
Qed.

Lemma total_bad_split (a b c : gset nat) :
  a ⊆ b → b ⊆ c → total_bad (c ∖ a) = total_bad (b ∖ a) + total_bad (c ∖ b).
Proof.
  intros Hab Hbc. rewrite <- total_bad_union by set_solver. f_equal. apply set_eq. intros x.
  destruct (decide (x ∈ b)); set_solver.
Qed.

Lemma total_bad_none (a : gset nat) : total_bad (a ∖ a) = 0.
Proof. replace (a ∖ a) with (∅ : gset nat) by set_solver. done. Qed.

Lemma total_bad_one t : total_bad {[t]} = bad_fields t.
Proof. unfold total_bad. rewrite elements_singleton. cbn. lia. Qed.

Definition unchecked (st : state) : nat :=
  length (filter (λ t, t ∉ checked st) (seq 0 (length types))).

Lemma unchecked_mono st st' : checked st ⊆ checked st' → (unchecked st' <= unchecked st)%nat.
Proof.
  intros H. unfold unchecked. induction (seq 0 (length types)) as [|t l IH]; [done|].
  rewrite !filter_cons. repeat case_decide; cbn; try lia. exfalso. set_solver.
Qed.

Lemma unchecked_mark t st :
  t ∉ checked st → (t < length types)%nat →
  (unchecked (mkState (errorCount st) ({[t]} ∪ checked st)) < unchecked st)%nat.
Proof.
  intros Hn Ht. unfold unchecked. cbn.
  assert (t ∈ seq 0 (length types)) as Hin by (apply elem_of_seq; lia). revert Hin.
  induction (seq 0 (length types)) as [|u l IH]; intros Hin; [by apply not_elem_of_nil in Hin|].
  rewrite !filter_cons. apply elem_of_cons in Hin as [<-|Hin].
  - rewrite decide_False by set_solver. rewrite decide_True by done. cbn.
    pose proof (unchecked_mono st (mkState (errorCount st) ({[t]} ∪ checked st))) as H.
    clear IH. apply Nat.lt_succ_r. clear H. induction l as [|w l IH]; [done|]. rewrite !filter_cons.
    repeat case_decide; cbn; try lia. exfalso. set_solver.
  - specialize (IH Hin). repeat case_decide; cbn; try lia; exfalso; set_solver.
Qed.

(** [rec] walks over a type, as long as no more than [m] types are unchecked, and
    counts the bad fields of the types it checks. *)
Definition walks (m : nat) (rec : nat → state → outcome state) : Prop :=
  ∀ t st, (t < length types)%nat → (unchecked st <= m)%nat →
    ∃ st', rec t st = Done st' ∧ walked [t] st st' ∧
      errorCount st' = errorCount st + total_bad (checked st' ∖ checked st).

Lemma checkFields_walks m rec fields st :
  walks m rec → (∀ t, t ∈ fields.*2 → (t < length types)%nat) → (unchecked st <= m)%nat →
  ∃ st', checkFields rec fields st = Done st' ∧ walked fields.*2 st st' ∧
    errorCount st' = errorCount st + Z.of_nat (length (filter (λ f, isUpper f.1 = false) fields)) +
      total_bad (checked st' ∖ checked st).
Proof.
  intros Hrec. revert st. induction fields as [|[name t] fields IH]; intros st Hr Hu; cbn [checkFields].
  { exists st. split_and!; [done|apply walked_nil|]. rewrite total_bad_none. cbn. lia. }
  assert (checked (countField name st) = checked st) as Ec by (unfold countField; by destruct (isUpper name)).
  destruct (Hrec t (countField name st)) as (st1 & -> & Hw1 & He1).
  { apply Hr. by left. } { unfold unchecked. by rewrite Ec. }
  cbn [mbind outcome_bind]. destruct (IH st1) as (st2 & -> & Hw2 & He2); [intros; apply Hr; by right| |].
  { etransitivity; [|exact Hu]. apply unchecked_mono. rewrite <- Ec. apply Hw1. }
  exists st2. split; [done|]. unfold walked in Hw1. rewrite Ec in Hw1, He1. fold (walked [t] st st1) in Hw1.
  split; [by eapply walked_cons|].
  rewrite He2, He1, (total_bad_split (checked st) (checked st1) (checked st2)) by (apply Hw1 || apply Hw2).
  rewrite filter_cons. unfold countField. cbn [fst].
  destruct (isUpper name); case_decide; try done; cbn [errorCount length]; lia.
Qed.

(** The body of [checkType] behind the mark. *)
Lemma body_walks m rec k t st :
  walks m rec → types !! t = Some k → (unchecked st <= m)%nat →
  ∃ st', match k with
         | Struct fields => checkFields rec fields st
         | Element elem => rec elem st
         | Map elem key => st ← rec elem st; rec key st
         | Basic => mret st
         end = Done st' ∧ walked (refs_of t) st st' ∧
    errorCount st' = errorCount st + bad_fields t + total_bad (checked st' ∖ checked st).
Proof using Htable.
  intros Hrec Hk Hu. assert (∀ u, u ∈ refs k → (u < length types)%nat) as Hr.
  { intros u Hin. apply (Htable t); [by eapply lookup_lt_Some|]. unfold refs_of. by rewrite Hk. }
  unfold refs_of, bad_fields. rewrite Hk. cbn [fmap option_fmap option_map default from_option].
  destruct k as [fields|e|e key|]; cbn [refs] in Hr |- *.
  - by apply (checkFields_walks m).
  - destruct (Hrec e st) as (st' & -> & ? & ?); [apply Hr; by left|done|].
    exists st'. split_and!; [done|done|lia].
  - destruct (Hrec e st) as (st1 & -> & Hw1 & He1); [apply Hr; by left|done|]. cbn [mbind outcome_bind].
    destruct (Hrec key st1) as (st2 & -> & Hw2 & He2); [apply Hr; right; by left| |].
    { etransitivity; [|exact Hu]. apply unchecked_mono, Hw1. }
    exists st2. split_and!; [done|by eapply walked_cons|].
    rewrite He2, He1, (total_bad_split (checked st) (checked st1) (checked st2)) by (apply Hw1 || apply Hw2). lia.
  - exists st. split_and!; [done|apply walked_nil|]. rewrite total_bad_none. lia.
Qed.

Lemma checkType_walks m : walks m (checkType (S m)).
Proof using Htable.
  induction m as [m IH] using lt_wf_ind; intros t st Ht Hu. cbn [checkType].
  destruct (lookup_lt_is_Some_2 types t Ht) as [k Hk]. rewrite Hk. cbn [of_option mbind outcome_bind].
  destruct (bool_decide_reflect (t ∈ checked st)) as [Hin|Hin].
  { exists st. split_and!; [done| |rewrite total_bad_none; lia].
    split_and!; [done|by intros u ->%list_elem_of_singleton|done]. }
  set (st1 := mkState _ _). pose proof (unchecked_mark t st Hin Ht) as Hm. fold st1 in Hm.
  destruct m as [|m]; [lia|].
  destruct (body_walks m (checkType (S m)) k t st1) as (st' & E & Hw & He); [apply IH; lia|done|lia|].
  exists st'. split; [exact E|]. split; [by apply walked_type|].
  rewrite He, (total_bad_split (checked st) (checked st1) (checked st')) by (set_solver || apply Hw).
  replace (checked st1 ∖ checked st) with ({[t]} : gset nat) by (subst st1; cbn; set_solver).
  rewrite total_bad_one. cbn. lia.
Qed.

Lemma checkValue_walk t st :
  (t < length types)%nat → closed (checked st) →
  ∃ st', checkValue t st = Done st' ∧ closed (checked st') ∧
    (∀ u, u ∈ checked st' ↔ u ∈ checked st ∨ reachable t u) ∧
    errorCount st' = errorCount st + total_bad (checked st' ∖ checked st).
Proof using Htable.
  intros Ht Hcl. destruct (checkType_walks (length types) t st Ht) as (st' & E & (Hsub & Htin & Hnew) & He).
  { unfold unchecked. etransitivity; [apply length_filter|]. by rewrite length_seq. }
  assert (closed (checked st')) as Hcl'.
  { intros u w Hu Hw. destruct (decide (u ∈ checked st)) as [Hu0|Hu0]; [apply Hsub; by eapply Hcl|].
    by apply (proj2 (Hnew u Hu Hu0)). }
  exists st'. split_and!; [exact E|exact Hcl'| |exact He]. intros u. split.
  - intros Hu. destruct (decide (u ∈ checked st)) as [|Hu0]; [by left|right].
    destruct (Hnew u Hu Hu0) as [(t' & ->%list_elem_of_singleton & Hr) _]. done.
  - intros [Hu|Hr]; [by apply Hsub|]. induction Hr as [|u w _ IH Hw]; [apply Htin; by left|by eapply Hcl'].
Qed.

(** C38. [checkValue] returns for every type, also for types that refer to
    themselves; it checks exactly the types reachable from it that were not
    checked before, and adds the number of their lower-case fields to
    [errorCount], so every such field is reported once. *)
Theorem checkValue_spec t st :
  (t < length types)%nat → closed (checked st) →
  ∃ st', checkValue t st = Done st' ∧ closed (checked st') ∧
    (∀ u, u ∈ checked st' ↔ u ∈ checked st ∨ reachable t u) ∧
    errorCount st' = errorCount st + total_bad (checked st' ∖ checked st).
Proof using Htable. apply checkValue_walk. Qed.

End labgob.

(** ** Values left from before *)

Fixpoint eachField (rec : access → value → state → outcome state) (a : access)
    (fields : list (visibility * value)) (st : state) : outcome state :=
  match fields with
  | [] => mret st
  | (vis, v) :: fields' =>
      st ← rec (fieldAccess a vis) v st;
      eachField rec a fields' st
  end.

(** [checkDefault1] at depth 4 - [room]; [Interface] panics on what was reached
    through a hidden field. *)
Fixpoint checkDefault1 (room : nat) (a : access) (v : value) (st : state) : outcome state :=
  match room with
  | O => mret st
  | S room' =>
      match v with
      | VStruct fields => eachField (checkDefault1 room') a fields st
      | VPtr None => mret st
      | VPtr (Some e) => checkDefault1 room' a e st
      | VBasic isZero =>
          match a with
          | Free => mret (if isZero then st else mkState (errorCount st + 1) (checked st))
          | _ => Panicked
          end
      | VOther => mret st
      end
  end.

(** A nil interface is [None]. *)
Definition checkDefault (v : option value) (st : state) : outcome state :=
  match v with None => mret st | Some v => checkDefault1 3 Free v st end.

(** The basic values inside a value: how deep, how reached, and whether zero. *)
Fixpoint leaves (depth : nat) (a : access) (v : value) : list (nat * access * bool) :=
  match v with
  | VStruct fields => concat (map (λ '(vis, f), leaves (S depth) (fieldAccess a vis) f) fields)
  | VPtr None => []
  | VPtr (Some e) => leaves (S depth) a e
  | VBasic isZero => [(depth, a, isZero)]
  | VOther => []
  end.

(** What should happen for a list of them, if only the first three levels count. *)
Definition shallow (ls : list (nat * access * bool)) : list (nat * access * bool) :=
  filter (λ x, (x.1.1 <= 3)%nat) ls.

Definition verdict (ls : list (nat * access * bool)) (st : state) : outcome state :=
  if existsb (λ x, match x.1.2 with Free => false | _ => true end) ls then Panicked
  else Done (mkState (errorCount st + Z.of_nat (length (filter (λ x, x.2 = false) ls))) (checked st)).

Lemma verdict_nil st : verdict [] st = Done st.
Proof. unfold verdict. cbn. rewrite Z.add_0_r. by destruct st. Qed.

Lemma verdict_app l1 l2 st : verdict (l1 ++ l2) st = (st ← verdict l1 st; verdict l2 st).
Proof.
  unfold verdict. rewrite existsb_app, filter_app, length_app. destruct (existsb _ l1); [done|]. cbn.
  destruct (existsb _ l2); [done|]. do 2 f_equal. lia.
Qed.

Fixpoint leaves_deep depth a (v : value) {struct v} : Forall (λ x, depth <= x.1.1)%nat (leaves depth a v).
Proof.
  destruct v as [fields|[e|]|z|]; cbn; try by repeat constructor.
  - induction fields as [|[vis f] fields IH]; cbn; [constructor|]. apply Forall_app. split; [|exact IH].
    eapply Forall_impl; [apply leaves_deep|]. cbn. lia.
  - eapply Forall_impl; [apply leaves_deep|]. cbn. lia.
Qed.

Lemma shallow_deep a v : shallow (leaves 4 a v) = [].
Proof.
  unfold shallow. induction (leaves_deep 4 a v) as [|x l Hx _ IH]; [done|].
  rewrite filter_cons_False by lia. exact IH.
Qed.

Lemma checkDefault1_verdict room depth a v st :
  (room + depth = 4)%nat → checkDefault1 room a v st = verdict (shallow (leaves depth a v)) st.
Proof.
  revert depth a v st. induction room as [|room IH]; intros depth a v st Hd; cbn [checkDefault1].
  { replace depth with 4%nat by lia. by rewrite shallow_deep, verdict_nil. }
  destruct v as [fields|[e|]|z|]; cbn [leaves].
  - revert st. induction fields as [|[vis f] fields IHf]; intros st; cbn -[shallow verdict]; [symmetry; apply verdict_nil|].
    unfold shallow. rewrite filter_app, verdict_app, (IH (S depth)) by lia. unfold shallow.
    destruct (verdict _ st); cbn; [apply IHf|done|done].
  - apply IH. lia.
  - symmetry. apply verdict_nil.
  - unfold shallow. rewrite filter_cons_True by (cbn; lia). unfold verdict. cbn.
    destruct a; [|done|done]. destruct z; [|done]. cbn. rewrite Z.add_0_r. by destruct st.
  - symmetry. apply verdict_nil.
Qed.

(** [checkDefault] warns about every basic value that is not zero and lies no more
    than two steps below the argument; it panics exactly if one of these values is
    reached through a hidden field, and deeper values are not looked at. *)
Lemma checkDefault_spec v st : checkDefault (Some v) st = verdict (shallow (leaves 1 Free v)) st.
Proof. by apply checkDefault1_verdict. Qed.

(** ** The wrappers *)

(** An [interface{}] that is not nil: its type and its value.  What encoding/gob
    does with it is a parameter: the coder behind the operation, and whether it
    reported no error. *)
Record iface : Type := mkIface {
  i_type : nat;
  i_value : value;
}.

Section wrappers.
Variable types : list kind.
Variable isUpper : string → bool.
Context {Gob : Type}.
Variable gobEncode : option iface → Gob → Gob * bool.
Variable gobDecode : option iface → Gob → Gob * iface * bool.
Variable gobRegister : string → option iface → Gob → outcome Gob.

Record LabEncoder : Type := mkEncoder { enc_gob : Gob }.
Record LabDecoder : Type := mkDecoder { dec_gob : Gob }.

Definition NewEncoder (gob : Gob) : LabEncoder := mkEncoder gob.
Definition NewDecoder (gob : Gob) : LabDecoder := mkDecoder gob.

(** [checkValue] of an interface; [reflect.TypeOf(nil)] is nil, and its [Kind]
    panics. *)
Definition checkInterface (e : option iface) (st : state) : outcome state :=
  i ← of_option e;
  checkValue types isUpper (i_type i) st.

Definition Encode (e : option iface) (enc : LabEncoder) (st : state) : outcome (bool * LabEncoder * state) :=
  st ← checkInterface e st;
  let '(g, ok) := gobEncode e (enc_gob enc) in
  mret (ok, mkEncoder g, st).

(** [value.Interface()] is the value itself. *)
Definition EncodeValue (v : iface) (enc : LabEncoder) (st : state) : outcome (bool * LabEncoder * state) :=
  Encode (Some v) enc st.

Definition Decode (e : option iface) (dec : LabDecoder) (st : state) : outcome (bool * iface * LabDecoder * state) :=
  st ← checkInterface e st;
  st ← checkDefault (i_value <$> e) st;
  let '(g, v, ok) := gobDecode e (dec_gob dec) in
  mret (ok, v, mkDecoder g, st).

(** The empty name stands for the one gob derives from the type. *)
Definition RegisterName (name : string) (e : option iface) (gob : Gob) (st : state) : outcome (Gob * state) :=
  st ← checkInterface e st;
  gob ← gobRegister name e gob;
  mret (gob, st).

Definition Register (e : option iface) (gob : Gob) (st : state) : outcome (Gob * state) := RegisterName "" e gob st.

Hypothesis Htable : ∀ t u, (t < length types)%nat → u ∈ refs_of types t → (u < length types)%nat.

(** Encoding and decoding are those of encoding/gob; the checks only add the
    warnings of [checkValue] and [checkDefault].  A decode panics exactly if its
    argument hides a basic value near the top. *)
Lemma wrappers_transparent i enc dec st :
  (i_type i < length types)%nat → closed types (checked st) →
  ∃ st', closed types (checked st') ∧ (∀ u, u ∈ checked st' ↔ u ∈ checked st ∨ reachable types (i_type i) u) ∧
    errorCount st' = errorCount st + total_bad types isUpper (checked st' ∖ checked st) ∧
    Encode (Some i) enc st = Done ((gobEncode (Some i) (enc_gob enc)).2, mkEncoder (gobEncode (Some i) (enc_gob enc)).1, st') ∧
    Decode (Some i) dec st =
      (st'' ← verdict (shallow (leaves 1 Free (i_value i))) st';
       let '(g, v, ok) := gobDecode (Some i) (dec_gob dec) in mret (ok, v, mkDecoder g, st'')).
Proof using Htable.
  intros Ht Hcl. destruct (checkValue_walk types isUpper Htable _ st Ht Hcl) as (st' & E & Hcl' & Hr & He).
  exists st'. split_and!; [done..| |].
  - unfold Encode, checkInterface. cbn [of_option mbind outcome_bind]. rewrite E. cbn [mbind outcome_bind].
    by destruct (gobEncode _ _).
  - unfold Decode, checkInterface. cbn [of_option mbind outcome_bind fmap option_fmap option_map]. rewrite E.
    cbn [mbind outcome_bind]. by rewrite checkDefault_spec.
Qed.

End wrappers.

(** ** A type that refers to itself *)

(** [type Node struct { Val int; next *Node }] *)
Definition node_types : list kind := [Struct [("Val", 1%nat); ("next", 2%nat)]; Basic; Element 0].

Definition ascii_upper (name : string) : bool :=
  match name with
  | EmptyString => false
  | String c _ => let n := Ascii.nat_of_ascii c in (65 <=? n)%nat && (n <=? 90)%nat
  end.

Lemma checkValue_spec_witness :
  ∃ st', checkValue node_types ascii_upper 0 (mkState 0 ∅) = Done st' ∧ errorCount st' = 1 ∧
    ∀ u, u ∈ checked st' ↔ u ∈ (∅ : gset nat) ∨ reachable node_types 0 u.
Proof.
  destruct (checkValue_spec node_types ascii_upper) with (t := 0%nat) (st := mkState 0 ∅)
    as (st' & E & _ & Hr & _).
  - intros [|[|[|t]]] u Ht Hu; cbn in Ht, Hu; try lia; set_solver by lia.
  - cbn. lia.
  - intros t u ?%elem_of_empty. done.
  - exists st'. split; [exact E|]. split; [|exact Hr]. vm_compute in E. by injection E as <-.
Defined.
