(* ===== verification/Labrpc.v ===== *)
(** * The simulated network (src/src/labrpc/labrpc.go)

    A [net] is the [Network] with the servers that exist and the calls in
    progress.  Names of ends and servers are of a type [Name]; a nil name or
    server is [None].  Servers are pointers into [net_srvs], because the code
    compares them by identity.  The application behind the handlers is a state
    [App]; a method is what the handler does to its arguments and that state.
    encoding/gob is a parameter ([Gob]).

    Delays do not appear: [event] is what happens next, in any order the
    goroutines allow, and the random choices are part of the events. *)

From stdpp Require Import base list numbers gmap strings.
From Stdlib Require Import Lia Ascii.
From S2P Require Import Prelude.

Abbreviation bytes := (list Z).

(** Signed [w]-bit addition wraps around. *)
Definition wrap (w : Z) (x : Z) : Z := (x + 2 ^ (w - 1)) mod 2 ^ w - 2 ^ (w - 1).

(** Values [V] of types [T] as gob stores them. *)
Class Gob (T V : Type) : Type := {
  gob_type : V → T;
  gob_zero : T → V;
  gob_encode : V → option bytes;
  gob_decode : T → bytes → option V;
}.

(** A value decodes to itself, at its own type. *)
Class GobLaws {T V} (G : Gob T V) : Prop := {
  gob_roundtrip (v : V) bs : gob_encode v = Some bs → gob_decode (gob_type v) bs = Some v;
}.

Section labrpc.
Context {Name : Type} `{!EqDecision Name, !Countable Name}.
Context {T V : Type} {G : Gob T V}.
Context {App : Type}.

Definition method : Type := V → App → outcome (V * App).

Record Service : Type := mkService {
  svc_name : string;
  svc_methods : gmap string method;
}.

Record Server : Type := mkServer {
  srv_services : gmap string Service;
  srv_count : Z;
}.

Record reqMsg : Type := mkReq {
  endname : Name;
  svcMeth : string;
  argsType : T;
  args : bytes;
}.

Record replyMsg : Type := mkReply {
  rep_ok : bool;
  rep_reply : bytes;
}.

(** Where a call is:
    - [Sending]: in [Call], at the select that sends the request;
    - [Accepted]: at the start of [processReq];
    - [Handling]: in the loop that waits for the handler;
    - [Unreachable]: no server, a failure is on its way;
    - [Delayed]: a reply is held back;
    - [Answered]: [Call] has received its reply;
    - [Abandoned]: [Call] returned because the network is gone. *)
Inductive call_state : Type :=
  | Sending
  | Accepted
  | Handling (servername : Name) (server : nat) (reliable longreordering : bool)
  | Unreachable
  | Delayed (reply : replyMsg)
  | Answered (reply : replyMsg)
  | Abandoned.

(** The goroutine that runs the handler: not there, about to dispatch, or done
    with a reply for [ech].  It outlives a call that was answered early. *)
Inductive run_state : Type :=
  | NoRun
  | Started (server : nat)
  | Finished (reply : replyMsg).

Record call : Type := mkCall {
  call_req : reqMsg;
  call_state_ : call_state;
  call_run : run_state;
}.

Record net : Type := mkNet {
  net_reliable : bool;
  net_longDelays : bool;
  net_longReordering : bool;
  net_ends : gset Name;
  net_enabled : gmap Name bool;
  net_servers : gmap Name (option nat);
  net_connections : gmap Name (option Name);
  net_done : bool;
  net_running : bool;
  net_count : Z;
  net_bytes : Z;
  net_srvs : list Server;
  net_calls : list call;
  net_app : App;
}.

(** ** Servers and services *)

Definition MakeServer : Server := mkServer ∅ 0.

Definition AddService (svc : Service) (rs : Server) : Server :=
  mkServer (<[svc_name svc := svc]> (srv_services rs)) (srv_count rs).

(** What [reflect] says about a method. *)
Record methodDesc : Type := mkDesc {
  md_name : string;
  md_exported : bool;
  md_numIn : Z;
  md_in2ptr : bool;
  md_numOut : Z;
  md_func : method;
}.

(** The method looks like a handler. *)
Definition suitable (m : methodDesc) : bool :=
  negb (negb (md_exported m) || negb (md_numIn m =? 3) || negb (md_in2ptr m) || negb (md_numOut m =? 0)).

Definition MakeService (name : string) (ms : list methodDesc) : Service :=
  mkService name (foldl (λ acc m, if suitable m then <[md_name m := md_func m]> acc else acc) ∅ ms).

Definition Service_dispatch (svc : Service) (methname : string) (req : reqMsg) (app : App)
    : outcome (replyMsg * App) :=
  match svc_methods svc !! methname with
  | Some m =>
      let a := default (gob_zero (argsType req)) (gob_decode (argsType req) (args req)) in
      '(v, app) ← m a app;
      mret (mkReply true (default [] (gob_encode v)), app)
  | None => Panicked
  end.

(** [strings.LastIndex(s, ".")], with the parts before and behind; without a
    dot the slice [:dot] panics. *)
Fixpoint splitDot (s : string) : option (string * string) :=
  match s with
  | EmptyString => None
  | String c s' =>
      match splitDot s' with
      | Some (a, b) => Some (String c a, b)
      | None => if Ascii.eqb c "."%char then Some (EmptyString, s') else None
      end
  end.

Definition Server_dispatch (rs : Server) (req : reqMsg) (app : App)
    : outcome (Server * replyMsg * App) :=
  let rs := mkServer (srv_services rs) (srv_count rs + 1) in
  '(serviceName, methodName) ← of_option (splitDot (svcMeth req));
  match srv_services rs !! serviceName with
  | Some service =>
      '(r, app) ← Service_dispatch service methodName req app;
      mret (rs, r, app)
  | None => Panicked
  end.

Definition Server_GetCount (rs : Server) : Z := srv_count rs.

(** ** The network *)

Definition MakeNetwork (srvs : list Server) (app : App) : net :=
  mkNet true false false ∅ ∅ ∅ ∅ false true 0 0 srvs [] app.

Definition set_flags (reliable longDelays longReordering : bool) (n : net) : net :=
  mkNet reliable longDelays longReordering (net_ends n) (net_enabled n) (net_servers n)
    (net_connections n) (net_done n) (net_running n) (net_count n) (net_bytes n) (net_srvs n)
    (net_calls n) (net_app n).

Definition Reliable (yes : bool) (n : net) : net :=
  set_flags yes (net_longDelays n) (net_longReordering n) n.

Definition LongReordering (yes : bool) (n : net) : net :=
  set_flags (net_reliable n) (net_longDelays n) yes n.

Definition LongDelays (yes : bool) (n : net) : net :=
  set_flags (net_reliable n) yes (net_longReordering n) n.

Definition set_tables (ends : gset Name) (enabled : gmap Name bool) (servers : gmap Name (option nat))
    (connections : gmap Name (option Name)) (n : net) : net :=
  mkNet (net_reliable n) (net_longDelays n) (net_longReordering n) ends enabled servers connections
    (net_done n) (net_running n) (net_count n) (net_bytes n) (net_srvs n) (net_calls n) (net_app n).

Definition MakeEnd (e : Name) (n : net) : outcome net :=
  if decide (e ∈ net_ends n) then Panicked
  else mret (set_tables ({[e]} ∪ net_ends n) (<[e := false]> (net_enabled n)) (net_servers n)
    (<[e := None]> (net_connections n)) n).

Definition AddServer (servername : Name) (rs : nat) (n : net) : net :=
  set_tables (net_ends n) (net_enabled n) (<[servername := Some rs]> (net_servers n)) (net_connections n) n.

Definition DeleteServer (servername : Name) (n : net) : net :=
  set_tables (net_ends n) (net_enabled n) (<[servername := None]> (net_servers n)) (net_connections n) n.

Definition Connect (e : Name) (servername : Name) (n : net) : net :=
  set_tables (net_ends n) (net_enabled n) (net_servers n) (<[e := Some servername]> (net_connections n)) n.

Definition Enable (e : Name) (enabled : bool) (n : net) : net :=
  set_tables (net_ends n) (<[e := enabled]> (net_enabled n)) (net_servers n) (net_connections n) n.

Definition GetCount (servername : Name) (n : net) : outcome Z :=
  p ← of_option (mjoin (net_servers n !! servername));
  rs ← of_option (net_srvs n !! p);
  mret (Server_GetCount rs).

Definition GetTotalCount (n : net) : Z := net_count n.

Definition GetTotalBytes (n : net) : Z := net_bytes n.

Definition readEndnameInfo (e : Name) (n : net) : bool * option Name * option nat * bool * bool :=
  let enabled := default false (net_enabled n !! e) in
  let servername := mjoin (net_connections n !! e) in
  let server := match servername with Some s => mjoin (net_servers n !! s) | None => None end in
  (enabled, servername, server, net_reliable n, net_longReordering n).

Definition isServerDead (e : Name) (servername : Name) (server : nat) (n : net) : bool :=
  negb (default false (net_enabled n !! e)) ||
  negb (bool_decide (mjoin (net_servers n !! servername) = Some server)).

(** ** Calls *)

Definition set_calls (calls : list call) (n : net) : net :=
  mkNet (net_reliable n) (net_longDelays n) (net_longReordering n) (net_ends n) (net_enabled n)
    (net_servers n) (net_connections n) (net_done n) (net_running n) (net_count n) (net_bytes n)
    (net_srvs n) calls (net_app n).

Definition move (i : nat) (c : call) (st : call_state) (n : net) : net :=
  set_calls (<[i := mkCall (call_req c) st (call_run c)]> (net_calls n)) n.

(** [close(rn.done)]; closing it again panics. *)
Definition Cleanup (n : net) : outcome net :=
  if net_done n then Panicked
  else mret (mkNet (net_reliable n) (net_longDelays n) (net_longReordering n) (net_ends n) (net_enabled n)
    (net_servers n) (net_connections n) true (net_running n) (net_count n) (net_bytes n) (net_srvs n)
    (net_calls n) (net_app n)).

(** A server that a test has made; the network refers to it by its place. *)
Definition new_srv (rs : Server) (n : net) : net :=
  mkNet (net_reliable n) (net_longDelays n) (net_longReordering n) (net_ends n) (net_enabled n)
    (net_servers n) (net_connections n) (net_done n) (net_running n) (net_count n) (net_bytes n)
    (net_srvs n ++ [rs]) (net_calls n) (net_app n).

(** [atomic.AddInt64(&rn.bytes, ...)] *)
Definition add_bytes (k : nat) (n : net) : net :=
  mkNet (net_reliable n) (net_longDelays n) (net_longReordering n) (net_ends n) (net_enabled n)
    (net_servers n) (net_connections n) (net_done n) (net_running n) (net_count n)
    (wrap 64 (net_bytes n + Z.of_nat k)) (net_srvs n) (net_calls n) (net_app n).

(** [atomic.AddInt32(&rn.count, 1)] *)
Definition add_count (n : net) : net :=
  mkNet (net_reliable n) (net_longDelays n) (net_longReordering n) (net_ends n) (net_enabled n)
    (net_servers n) (net_connections n) (net_done n) (net_running n) (wrap 32 (net_count n + 1))
    (net_bytes n) (net_srvs n) (net_calls n) (net_app n).

Definition failed : replyMsg := mkReply false [].

(** The operations a test calls. *)
Inductive netop : Type :=
  | OReliable (yes : bool)
  | OLongReordering (yes : bool)
  | OLongDelays (yes : bool)
  | OAddServer (servername : Name) (rs : nat)
  | ODeleteServer (servername : Name)
  | OConnect (e servername : Name)
  | OEnable (e : Name) (enabled : bool).

Definition do_op (op : netop) (n : net) : net :=
  match op with
  | OReliable yes => Reliable yes n
  | OLongReordering yes => LongReordering yes n
  | OLongDelays yes => LongDelays yes n
  | OAddServer servername rs => AddServer servername rs n
  | ODeleteServer servername => DeleteServer servername n
  | OConnect e servername => Connect e servername n
  | OEnable e enabled => Enable e enabled n
  end.

(** What can happen: a client calls; the call is sent, or given up because the
    network is gone; the request is processed ([drop]: the random choice of
    losing it); the handler runs; the 100 ms poll finds the server dead or not;
    the handler's reply is taken and sent on ([drop], [delay]: random choices); a
    timer fires; the network goroutine stops; or a test calls one of the
    network's operations. *)
Inductive event : Type :=
  | ECall (e : Name) (meth : string) (a : V)
  | ESend (i : nat)
  | EGiveUp (i : nat)
  | EProcess (i : nat) (drop : bool)
  | EHandle (i : nat)
  | EPoll (i : nat)
  | EReply (i : nat) (drop delay : bool)
  | EFire (i : nat)
  | EStop
  | ECleanup
  | EOp (op : netop)
  | EMakeEnd (e : Name).

(** The first half of [Call], up to the select. *)
Definition Call_begin (e : Name) (meth : string) (a : V) (n : net) : outcome net :=
  bs ← of_option (gob_encode a);
  mret (set_calls (net_calls n ++ [mkCall (mkReq e meth (gob_type a) bs) Sending NoRun]) n).

(** The first half of [processReq], up to the goroutine that runs the handler. *)
Definition processReq_begin (i : nat) (c : call) (drop : bool) (n : net) : net :=
  let '(enabled, servername, server, reliable, longreordering) := readEndnameInfo (endname (call_req c)) n in
  match enabled, servername, server with
  | true, Some servername, Some server =>
      if negb reliable && drop then move i c (Answered failed) n
      else set_calls (<[i := mkCall (call_req c) (Handling servername server reliable longreordering)
             (Started server)]> (net_calls n)) n
  | _, _, _ => move i c Unreachable n
  end.

(** [server.dispatch(req)] in its own goroutine *)
Definition runHandler (i : nat) (c : call) (server : nat) (n : net) : outcome net :=
  rs ← of_option (net_srvs n !! server);
  '(rs, r, app) ← Server_dispatch rs (call_req c) (net_app n);
  mret (mkNet (net_reliable n) (net_longDelays n) (net_longReordering n) (net_ends n) (net_enabled n)
    (net_servers n) (net_connections n) (net_done n) (net_running n) (net_count n) (net_bytes n)
    (<[server := rs]> (net_srvs n))
    (<[i := mkCall (call_req c) (call_state_ c) (Finished r)]> (net_calls n))
    app).

(** The second half of [processReq], when the handler's reply has come. *)
Definition processReq_end (i : nat) (c : call) (servername : Name) (server : nat)
    (reliable longreordering drop delay : bool) (reply : replyMsg) (n : net) : net :=
  if isServerDead (endname (call_req c)) servername server n then move i c (Answered failed) n
  else if negb reliable && drop then move i c (Answered failed) n
  else if longreordering && delay then move i c (Delayed reply) n
  else add_bytes (length (rep_reply reply)) (move i c (Answered reply) n).

Definition happen (ev : event) (n : net) : outcome net :=
  match ev with
  | ECall e meth a => Call_begin e meth a n
  | ESend i =>
      match net_calls n !! i, net_running n with
      | Some (mkCall req Sending _ as c), true =>
          mret (add_bytes (length (args req)) (add_count (move i c Accepted n)))
      | _, _ => Blocked
      end
  | EGiveUp i =>
      match net_calls n !! i, net_done n with
      | Some (mkCall _ Sending _ as c), true => mret (move i c Abandoned n)
      | _, _ => Blocked
      end
  | EProcess i drop =>
      match net_calls n !! i with
      | Some (mkCall _ Accepted _ as c) => mret (processReq_begin i c drop n)
      | _ => Blocked
      end
  | EHandle i =>
      match net_calls n !! i with
      | Some (mkCall _ _ (Started s) as c) => runHandler i c s n
      | _ => Blocked
      end
  | EPoll i =>
      match net_calls n !! i with
      | Some (mkCall req (Handling sn s _ _) _ as c) =>
          if isServerDead (endname req) sn s n then mret (move i c (Answered failed) n) else mret n
      | _ => Blocked
      end
  | EReply i drop delay =>
      match net_calls n !! i with
      | Some (mkCall _ (Handling sn s rel lro) (Finished r) as c) =>
          mret (processReq_end i c sn s rel lro drop delay r n)
      | _ => Blocked
      end
  | EFire i =>
      match net_calls n !! i with
      | Some (mkCall _ (Delayed r) _ as c) =>
          mret (move i c (Answered r) (add_bytes (length (rep_reply r)) n))
      | Some (mkCall _ Unreachable _ as c) => mret (move i c (Answered failed) n)
      | _ => Blocked
      end
  | EStop =>
      if net_done n && net_running n then
        mret (mkNet (net_reliable n) (net_longDelays n) (net_longReordering n) (net_ends n) (net_enabled n)
          (net_servers n) (net_connections n) true false (net_count n) (net_bytes n) (net_srvs n)
          (net_calls n) (net_app n))
      else Blocked
  | ECleanup => Cleanup n
  | EOp op => mret (do_op op n)
  | EMakeEnd e => MakeEnd e n
  end.

(** The second half of [Call]: what it returns for the reply it got, and the
    decoded reply value; [None] while it is still waiting. *)
Definition Call_end (replyType : T) (c : call) : option (outcome (bool * option V)) :=
  match call_state_ c with
  | Answered r =>
      Some (if rep_ok r then
              v ← of_option (gob_decode replyType (rep_reply r)); mret (true, Some v)
            else mret (false, None))
  | Abandoned => Some (mret (false, None))
  | _ => None
  end.

Fixpoint happens (evs : list event) (n : net) : outcome net :=
  match evs with
  | [] => mret n
  | ev :: evs' => n ← happen ev n; happens evs' n
  end.

End labrpc.
