(* ===== verification/LabrpcSafety.v ===== *)
(** * What the simulated network guarantees (src/src/labrpc/labrpc.go)

    A call goes through its states one step at a time ([transition]); what a run
    from a fresh network has done is read off the list of its events.  The
    theorems: a request is handled at most once, a positive reply is the reply of
    its handler and was released while the server that ran it was still in
    place, a call in a healthy network delivers, and no call waits for anything
    but its handler. *)

From stdpp Require Import base list numbers gmap strings.
From Stdlib Require Import Lia Ascii.
From S2P Require Import Prelude Labrpc.

Section safety.
Context {Name : Type} `{!EqDecision Name, !Countable Name}.
Context {T V : Type} {G : Gob T V}.
Context {App : Type}.

Abbreviation net := (@net Name _ _ T V App).
Abbreviation call := (@call Name T).
Abbreviation event := (@event Name V).
Abbreviation Server := (@Server V App).
Abbreviation reqMsg := (@reqMsg Name T).
Implicit Types (n : net) (c : call) (ev : event).

(** ** Steps of one call *)

(** The end is enabled and the server is the one registered under the name. *)
Definition in_place (e sn : Name) (s : nat) n : Prop :=
  net_enabled n !! e = Some true ∧ net_servers n !! sn = Some (Some s).

Lemma not_dead e sn s n : isServerDead e sn s n = false → in_place e sn s n.
Proof.
  unfold isServerDead, in_place. intros [He%negb_false_iff Hs%negb_false_iff]%orb_false_iff.
  apply bool_decide_eq_true in Hs. split.
  - by destruct (net_enabled n !! e) as [[]|].
  - by destruct (net_servers n !! sn) as [[]|]; simplify_eq/=.
Qed.

Inductive transition n : event → nat → call → call → Prop :=
  | tr_send i req run : transition n (ESend i) i (mkCall req Sending run) (mkCall req Accepted run)
  | tr_giveup i req run : transition n (EGiveUp i) i (mkCall req Sending run) (mkCall req Abandoned run)
  | tr_lost i req run : transition n (EProcess i true) i (mkCall req Accepted run) (mkCall req (Answered failed) run)
  | tr_start i drop req run sn s rel lro :
      net_connections n !! endname req = Some (Some sn) → in_place (endname req) sn s n →
      transition n (EProcess i drop) i (mkCall req Accepted run)
        (mkCall req (Handling sn s rel lro) (Started s))
  | tr_nobody i drop req run :
      transition n (EProcess i drop) i (mkCall req Accepted run) (mkCall req Unreachable run)
  | tr_handle i req st s rs rs' r app' :
      net_srvs n !! s = Some rs → Server_dispatch rs req (net_app n) = Done (rs', r, app') →
      transition n (EHandle i) i (mkCall req st (Started s)) (mkCall req st (Finished r))
  | tr_dead i req sn s rel lro run :
      isServerDead (endname req) sn s n = true →
      transition n (EPoll i) i (mkCall req (Handling sn s rel lro) run) (mkCall req (Answered failed) run)
  | tr_refuse i drop delay req sn s rel lro r :
      transition n (EReply i drop delay) i (mkCall req (Handling sn s rel lro) (Finished r))
        (mkCall req (Answered failed) (Finished r))
  | tr_release i drop delay req sn s rel lro r st :
      in_place (endname req) sn s n → (st = Answered r ∨ st = Delayed r) →
      transition n (EReply i drop delay) i (mkCall req (Handling sn s rel lro) (Finished r))
        (mkCall req st (Finished r))
  | tr_late i req r run : transition n (EFire i) i (mkCall req (Delayed r) run) (mkCall req (Answered r) run)
  | tr_timeout i req run :
      transition n (EFire i) i (mkCall req Unreachable run) (mkCall req (Answered failed) run).

(** Every event leaves the calls alone, adds one, or moves one. *)
Lemma happen_calls ev n n' :
  happen ev n = Done n' →
  (net_calls n' = net_calls n ∧ ∀ i, ev ≠ EHandle i) ∨
  (∃ e meth a req, ev = ECall e meth a ∧ net_calls n' = net_calls n ++ [mkCall req Sending NoRun]) ∨
  (∃ i c c', net_calls n !! i = Some c ∧ net_calls n' = <[i := c']> (net_calls n) ∧ transition n ev i c c').
Proof.
  destruct ev as [e meth a|i|i|i drop|i|i|i drop delay|i| | |op|e]; cbn; intros H.
  - right; left. unfold Call_begin in H. go_inv. eexists _, _, _, _. done.
  - right; right. destruct (net_calls n !! i) as [[req [] run]|] eqn:Ei; try done.
    destruct (net_running n); [|done]. injection H as <-. eexists _, _, _. split_and!; [done|done|constructor].
  - right; right. destruct (net_calls n !! i) as [[req [] run]|] eqn:Ei; try done.
    destruct (net_done n); [|done]. injection H as <-. eexists _, _, _. split_and!; [done|done|constructor].
  - right; right. destruct (net_calls n !! i) as [[req [] run]|] eqn:Ei; try done. injection H as <-.
    unfold processReq_begin, readEndnameInfo. cbn.
    destruct (default false (net_enabled n !! endname req)) eqn:Een;
      [|eexists _, _, _; split_and!; [done|done|constructor]].
    destruct (mjoin (net_connections n !! endname req)) as [sn|] eqn:Ec;
      [|eexists _, _, _; split_and!; [done|done|constructor]].
    destruct (mjoin (net_servers n !! sn)) as [s|] eqn:Es;
      [|eexists _, _, _; split_and!; [done|done|constructor]].
    assert (net_connections n !! endname req = Some (Some sn)) as Ec'.
    { by destruct (net_connections n !! endname req) as [[]|]; simplify_eq/=. }
    assert (in_place (endname req) sn s n) as Hp.
    { apply not_dead. unfold isServerDead. rewrite Een, Es. by rewrite bool_decide_eq_true_2. }
    destruct (net_reliable n), drop; eexists _, _, _; (split; [done|]; split; [done|]);
      try apply tr_lost; by apply tr_start.
  - right; right. destruct (net_calls n !! i) as [[req st []]|] eqn:Ei; try done. unfold runHandler in H.
    go_inv. eexists _, _, _. split_and!; [done|done|]. by eapply tr_handle.
  - destruct (net_calls n !! i) as [[req [] run]|] eqn:Ei; try done.
    destruct (isServerDead _ _ _ n) eqn:Ed; injection H as <-; [|by left].
    right; right. eexists _, _, _. split_and!; [done|done|by constructor].
  - right; right. destruct (net_calls n !! i) as [[req [] []]|] eqn:Ei; try done. injection H as <-.
    unfold processReq_end. cbn. destruct (isServerDead _ _ _ n) eqn:Ed.
    { eexists _, _, _. split_and!; [done|done|constructor]. }
    destruct (negb _ && drop); [|destruct (_ && delay)]; eexists _, _, _; (split; [done|]; split; [done|]);
      [apply tr_refuse|apply tr_release; auto using not_dead..].
  - right; right. destruct (net_calls n !! i) as [[req [] run]|] eqn:Ei; try done; injection H as <-;
      eexists _, _, _; split_and!; try done; constructor.
  - left. destruct (net_done n && net_running n); [|done]. by injection H as <-.
  - left. unfold Cleanup in H. destruct (net_done n); [done|]. by injection H as <-.
  - left. injection H as <-. split; [by destruct op|done].
  - left. unfold MakeEnd in H. case_decide; [done|]. by injection H as <-.
Qed.

(** ** What a run has done *)

Definition is_handle (i : nat) (ev : event) : bool :=
  match ev with EHandle j => bool_decide (i = j) | _ => false end.

(** How often the handler of call [i] ran. *)
Definition handled (i : nat) (evs : list event) : nat := length (List.filter (is_handle i) evs).

Section run.
Variable n0 : net.

(** Some event of the run, at a network with a certain property. *)
Definition once (evs : list event) (P : event → net → Prop) : Prop :=
  ∃ e1 ev e2 n1, evs = e1 ++ ev :: e2 ∧ happens e1 n0 = Done n1 ∧ P ev n1.

(** The request of call [i] was handed to server [s]: its end was enabled and
    connected to the name [sn], under which [s] was registered. *)
Definition dispatched (evs : list event) (i : nat) (req : reqMsg) (sn : Name) (s : nat) : Prop :=
  once evs (λ ev n, (∃ drop, ev = EProcess i drop) ∧
    net_connections n !! endname req = Some (Some sn) ∧ in_place (endname req) sn s n).

(** The handler of call [i], run on server [s], gave [r]. *)
Definition gave (evs : list event) (i : nat) (req : reqMsg) (s : nat) (r : replyMsg) : Prop :=
  once evs (λ ev n, ev = EHandle i ∧ ∃ rs rs' app', net_srvs n !! s = Some rs ∧
    Server_dispatch rs req (net_app n) = Done (rs', r, app')).

(** The reply was taken while the end was enabled and [s] registered as [sn]. *)
Definition released (evs : list event) (i : nat) (req : reqMsg) (sn : Name) (s : nat) : Prop :=
  once evs (λ ev n, (∃ drop delay, ev = EReply i drop delay) ∧ in_place (endname req) sn s n).

(** One server got the request, gave the reply and was in place when it was taken. *)
Definition genuine (evs : list event) (i : nat) (req : reqMsg) (r : replyMsg) : Prop :=
  ∃ sn s, dispatched evs i req sn s ∧ gave evs i req s r ∧ released evs i req sn s.

Definition call_ok (evs : list event) (i : nat) c : Prop :=
  match call_state_ c with
  | Sending | Accepted | Unreachable => call_run c = NoRun
  | Handling sn s _ _ => dispatched evs i (call_req c) sn s ∧
      (call_run c = Started s ∨ ∃ r, call_run c = Finished r ∧ gave evs i (call_req c) s r)
  | Delayed r => call_run c = Finished r ∧ genuine evs i (call_req c) r
  | Answered r => rep_ok r = true → call_run c = Finished r ∧ genuine evs i (call_req c) r
  | Abandoned => call_run c = NoRun
  end ∧
  handled i evs = match call_run c with Finished _ => 1%nat | _ => 0%nat end.

Definition run_ok (evs : list event) n : Prop :=
  (∀ i c, net_calls n !! i = Some c → call_ok evs i c) ∧
  ∀ i, (length (net_calls n) <= i)%nat → handled i evs = 0%nat.

Lemma once_snoc evs ev P : once evs P → once (evs ++ [ev]) P.
Proof.
  intros (e1 & ev1 & e2 & n1 & -> & H). exists e1, ev1, (e2 ++ [ev]), n1. by rewrite <- app_assoc.
Qed.

Lemma once_now evs ev n (P : event → net → Prop) : happens evs n0 = Done n → P ev n → once (evs ++ [ev]) P.
Proof. intros H HP. by exists evs, ev, [], n. Qed.

Lemma handled_snoc i evs ev :
  handled i (evs ++ [ev]) = (handled i evs + if is_handle i ev then 1 else 0)%nat.
Proof. unfold handled. rewrite List.filter_app, length_app. cbn. by destruct (is_handle i ev). Qed.

Lemma genuine_snoc evs i req r ev : genuine evs i req r → genuine (evs ++ [ev]) i req r.
Proof. intros (sn & s & H1 & H2 & H3). exists sn, s. split_and!; by apply once_snoc. Qed.

Lemma call_ok_snoc evs i c ev : is_handle i ev = false → call_ok evs i c → call_ok (evs ++ [ev]) i c.
Proof.
  intros He [H1 H2]. split; [|by rewrite handled_snoc, He, Nat.add_0_r].
  destruct (call_state_ c); try done.
  - destruct H1 as [H1 H3]. split; [by apply once_snoc|]. destruct H3 as [H3|(r & H3 & H4)]; [by left|right].
    exists r. split; [done|]. by apply once_snoc.
  - destruct H1. split; [done|]. by apply genuine_snoc.
  - intros Hr. destruct (H1 Hr). split; [done|]. by apply genuine_snoc.
Qed.

(** The call that an event moves. *)
Lemma call_ok_moves evs n ev i c c' :
  happens evs n0 = Done n → transition n ev i c c' → call_ok evs i c → call_ok (evs ++ [ev]) i c'.
Proof.
  intros Hrun Ht Hc. destruct (is_handle i ev) eqn:He.
  - destruct Ht as [| | | | |? req st s rs rs' r app' Hs Hd| | | | |]; try done.
    destruct Hc as [H1 H2]. cbn in H1, H2. split; cbn; [|by rewrite handled_snoc, He, H2].
    destruct st as [| |sn s' rel lro| |r'|r'|]; try done.
    + destruct H1 as [H1 [Es|(? & ? & _)]]; [injection Es as ->|done]. split; [by apply once_snoc|].
      right. exists r. split; [done|]. eapply once_now; [done|]. eauto 10.
    + by destruct H1.
    + intros Hr. by destruct (H1 Hr).
  - apply (call_ok_snoc _ _ _ ev He) in Hc as [H1 H2].
    destruct Ht as [| | |? drop req run sn s rel lro Hcon Hp| | | | |? drop delay req sn s rel lro r st Hp Hst| |];
      cbn in He; try (by rewrite bool_decide_eq_true_2 in He); cbn in H1, H2; split; cbn; auto; try done.
    + split; [|by left]. eapply once_now; [done|]. eauto.
    + by rewrite H1 in H2.
    + assert (genuine (evs ++ [EReply i drop delay]) i req r) as Hg.
      { destruct H1 as [H1 [?|(r' & Er & H3)]]; [done|]. injection Er as <-. exists sn, s. split_and!; [done..|].
        eapply once_now; [done|]. eauto. }
      by destruct Hst as [-> | ->].
Qed.

Lemma run_ok_step evs n ev n' :
  happens evs n0 = Done n → run_ok evs n → happen ev n = Done n' → run_ok (evs ++ [ev]) n'.
Proof.
  intros Hrun [Hc Hlen] H. destruct (happen_calls _ _ _ H)
    as [[E Hne]|[(e & meth & a & req & -> & E)|(i & c & c' & Hi & E & Ht)]]; unfold run_ok; rewrite E.
  - assert (∀ i, is_handle i ev = false) as Hh.
    { intros i. destruct ev; try done. cbn. apply bool_decide_eq_false_2. intros ->. by apply (Hne i0). }
    split; [intros i c Hi; apply call_ok_snoc; auto|]. intros i Hi. rewrite handled_snoc, Hh, Hlen by done. done.
  - split.
    + intros i c [Hi|[Hi E2]]%lookup_app_Some; [apply call_ok_snoc; auto|].
      apply list_lookup_singleton_Some in E2 as [E1 <-]. assert (i = length (net_calls n)) as -> by lia.
      split; cbn; [done|]. by rewrite handled_snoc, Hlen.
    + intros i Hi. rewrite length_app in Hi. cbn in Hi. rewrite handled_snoc, Hlen by lia. done.
  - assert (∀ j, j ≠ i → is_handle j ev = false) as Hh.
    { intros j Hj. destruct Ht; try done. cbn. by apply bool_decide_eq_false_2. }
    split.
    + intros j cj Hj. destruct (decide (j = i)) as [->|Hji].
      * rewrite list_lookup_insert_eq in Hj by (by eapply lookup_lt_Some). injection Hj as <-.
        eapply call_ok_moves; eauto.
      * rewrite list_lookup_insert_ne in Hj by done. apply call_ok_snoc; auto.
    + intros j Hj. rewrite length_insert in Hj. pose proof (lookup_lt_Some _ _ _ Hi).
      rewrite handled_snoc, Hh, Hlen by lia. done.
Qed.

Lemma happens_snoc evs ev n n' :
  happens (evs ++ [ev]) n = Done n' → ∃ n1, happens evs n = Done n1 ∧ happen ev n1 = Done n'.
Proof.
  revert n. induction evs as [|e evs IH]; intros n; cbn; intros H.
  - apply bind_Done in H as (n1 & H1 & H). injection H as <-. eauto.
  - apply bind_Done in H as (n1 & H1 & H). apply IH in H as (n2 & H2 & H). exists n2. by rewrite H1.
Qed.

Lemma run_ok_reachable evs n :
  net_calls n0 = [] → happens evs n0 = Done n → run_ok evs n.
Proof.
  intros H0. revert n. induction evs as [|ev evs IH] using rev_ind; intros n H.
  - injection H as <-. split; [|done]. intros i c Hi. by rewrite H0 in Hi.
  - apply happens_snoc in H as (n1 & H1 & H). eapply run_ok_step; eauto.
Qed.

End run.
(** ** Progress *)

Definition rank c : nat :=
  match call_state_ c, call_run c with
  | Sending, _ => 0
  | Accepted, _ => 1
  | Handling _ _ _ _, Finished _ => 3
  | Handling _ _ _ _, _ => 2
  | Unreachable, _ => 3
  | Delayed _, _ => 4
  | Answered _, _ | Abandoned, _ => 5
  end.

(** The network goroutine runs until the network is cleaned up. *)
Lemma running_step ev n n' :
  happen ev n = Done n' → net_running n = true ∨ net_done n = true →
  net_running n' = true ∨ net_done n' = true.
Proof.
  intros H Hr. assert (net_running n' = net_running n ∧ net_done n' = net_done n ∨ net_done n' = true) as Hs;
    [|destruct Hs as [[-> ->]| ->]; auto]. clear Hr.
  destruct ev as [e meth a|i|i|i drop|i|i|i drop delay|i| | |op|e]; cbn in H.
  - unfold Call_begin in H. go_inv. auto.
  - repeat case_match; try done; injection H as <-; cbn; auto.
  - repeat case_match; try done; injection H as <-; cbn; auto.
  - repeat case_match; try done; injection H as <-; by left.
  - repeat case_match; try done. unfold runHandler in H. go_inv. auto.
  - repeat case_match; try done; injection H as <-; cbn; auto.
  - repeat case_match; try done; injection H as <-; unfold processReq_end; repeat case_match; by left.
  - repeat case_match; try done; injection H as <-; cbn; auto.
  - repeat case_match; try done; injection H as <-; cbn; auto.
  - unfold Cleanup in H. repeat case_match; try done; injection H as <-; cbn; auto.
  - injection H as <-. destruct op; auto.
  - unfold MakeEnd in H. case_decide; [done|]. injection H as <-. auto.
Qed.

Lemma running_happens evs n n' :
  happens evs n = Done n' → net_running n = true ∨ net_done n = true →
  net_running n' = true ∨ net_done n' = true.
Proof.
  revert n. induction evs as [|ev evs IH]; intros n H; cbn in H; [by injection H as <-|].
  apply bind_Done in H as (n1 & H1 & H). intros Hr. eapply IH; [done|]. by eapply running_step.
Qed.

(** Moving a call on. *)
Lemma moved n n' i c st run :
  net_calls n !! i = Some c → net_calls n' = <[i := mkCall (call_req c) st run]> (net_calls n) →
  net_calls n' !! i = Some (mkCall (call_req c) st run).
Proof. intros Hi ->. apply list_lookup_insert_eq. by eapply lookup_lt_Some. Qed.

(** ** Service names *)

Fixpoint has_dot (s : string) : bool :=
  match s with EmptyString => false | String c s' => Ascii.eqb c "."%char || has_dot s' end.

Lemma splitDot_none s : has_dot s = false → splitDot s = None.
Proof.
  induction s as [|c s IH]; cbn; [done|]. intros [Hc Hs]%orb_false_iff. by rewrite IH, Hc.
Qed.

Lemma splitDot_app svc meth :
  has_dot meth = false → splitDot (String.append svc (String "."%char meth)) = Some (svc, meth).
Proof.
  intros Hm. induction svc as [|c svc IH].
  - change (splitDot (String "."%char meth) = Some (EmptyString, meth)). cbn.
    by rewrite (splitDot_none _ Hm).
  - change (splitDot (String c (String.append svc (String "."%char meth))) = Some (String c svc, meth)).
    cbn [splitDot]. by rewrite IH.
Qed.

End safety.

(** ** The theorems *)

Section theorems.
Context {Name : Type} `{!EqDecision Name, !Countable Name}.
Context {T V : Type} {G : Gob T V} {App : Type}.

(** C24. However messages are delayed, dropped or reordered, and whatever servers are
    deleted or added, the handler of a request runs at most once. *)
Theorem rpc_at_most_once (srvs : list Server) (app : App) (evs : list event) (n : @net Name _ _ T V App) i :
  happens evs (MakeNetwork srvs app) = Done n → (handled i evs <= 1)%nat.
Proof.
  intros H. pose proof (run_ok_reachable (MakeNetwork srvs app) _ _ eq_refl H) as [Hc Hl].
  destruct (net_calls n !! i) as [c|] eqn:Ei.
  - destruct (Hc _ _ Ei) as [_ H2]. destruct (call_run c); lia.
  - apply lookup_ge_None in Ei. rewrite Hl by done. lia.
Qed.

(** C23. When a call gets a positive reply, its handler has run exactly once, and
    there is one server [s], under one name [sn], to which all of this applies:
    when the request was processed the client's end was enabled and connected to
    [sn] and [s] registered as [sn]; the handler ran on [s] and gave this reply;
    and when the reply was taken the end was enabled and [s] still the server
    registered as [sn].  In particular no positive reply is released after
    [DeleteServer], or after another server has taken the name. *)
Theorem positive_reply_is_genuine (srvs : list Server) (app : App) (evs : list event)
    (n : @net Name _ _ T V App) i req r run :
  happens evs (MakeNetwork srvs app) = Done n →
  net_calls n !! i = Some (mkCall req (Answered r) run) → rep_ok r = true →
  handled i evs = 1%nat ∧
  ∃ sn s, dispatched (MakeNetwork srvs app) evs i req sn s ∧ gave (MakeNetwork srvs app) evs i req s r ∧
    released (MakeNetwork srvs app) evs i req sn s.
Proof.
  intros H Hi Hr. pose proof (run_ok_reachable (MakeNetwork srvs app) _ _ eq_refl H) as [Hc _].
  destruct (Hc _ _ Hi) as [H1 H2]. cbn in H1, H2. by destruct (H1 Hr) as [-> Hg].
Qed.

(** C25. A call that has not been answered can be moved on, except while it waits for
    a handler that has not returned on a server that is still in place. *)
Theorem calls_wait_for_handlers_only (srvs : list Server) (app : App) (evs : list event)
    (n : @net Name _ _ T V App) i c :
  happens evs (MakeNetwork srvs app) = Done n → net_calls n !! i = Some c → (rank c < 5)%nat →
  (∃ ev n' c', happen ev n = Done n' ∧ net_calls n' !! i = Some c' ∧ (rank c < rank c')%nat) ∨
  (∃ sn s rel lro, call_state_ c = Handling sn s rel lro ∧ call_run c = Started s ∧
     isServerDead (endname (call_req c)) sn s n = false ∧ ∀ n', happen (EHandle i) n ≠ Done n').
Proof.
  intros H Hi Hr. pose proof (run_ok_reachable (MakeNetwork srvs app) _ _ eq_refl H) as [Hc _].
  pose proof (running_happens _ (MakeNetwork srvs app) _ H (or_introl eq_refl)) as Hrun. destruct (Hc _ _ Hi) as [H1 _]. clear Hc.
  destruct c as [req st run]. destruct st as [| |sn s rel lro| |r|r|]; cbn in H1, Hr; try lia.
  - left. destruct Hrun as [Hrun|Hdone].
    + eexists (ESend i), _, _. cbn. rewrite Hi, Hrun. split_and!; [done|by apply (moved n)|cbn; lia].
    + eexists (EGiveUp i), _, _. cbn. rewrite Hi, Hdone. split_and!; [done|by apply (moved n)|cbn; lia].
  - left. exists (EProcess i false), (processReq_begin i (mkCall req Accepted run) false n). cbn [happen].
    rewrite Hi. unfold processReq_begin, readEndnameInfo. cbn [call_req]. rewrite andb_false_r.
    repeat case_match; eexists; (split; [done|]; split; [by apply (moved n)|cbn; lia]).
  - destruct H1 as [_ [-> | (r & -> & _)]].
    + destruct (isServerDead (endname req) sn s n) eqn:Ed.
      { left. eexists (EPoll i), _, _. cbn. rewrite Hi, Ed. split_and!; [done|by apply (moved n)|cbn; lia]. }
      destruct (happen (EHandle i) n) as [n'| |] eqn:E;
        [left|right; exists sn, s, rel, lro; split_and!; try done; intros n'; by rewrite E..].
      exists (EHandle i), n'. rewrite E. cbn in E. rewrite Hi in E. unfold runHandler in E. go_inv.
      eexists. split_and!; [done|by apply (moved n)|cbn; lia].
    + left. exists (EReply i false false),
        (processReq_end i (mkCall req (Handling sn s rel lro) (Finished r)) sn s rel lro false false r n).
      cbn [happen]. rewrite Hi. unfold processReq_end. rewrite !andb_false_r.
      case_match; eexists; (split; [done|]; split; [by apply (moved n)|cbn; lia]).
  - left. eexists (EFire i), _, _. cbn. rewrite Hi. split_and!; [done|by apply (moved n)|cbn; lia].
  - left. eexists (EFire i), _, _. cbn. rewrite Hi. split_and!; [done|by apply (moved n)|cbn; lia].
Qed.

(** In a network that is up, a call over an enabled end to a registered server
    with the method runs the handler on the arguments the client passed, returns
    true with the value the handler returned, counts one request in the network
    and one on the server, and leaves the application in the state the handler
    left it in. *)
Theorem call_delivers (laws : GobLaws G) (n : @net Name _ _ T V App) e sn s rs svc service meth m a bs v bs' app' :
  net_running n = true → net_enabled n !! e = Some true → net_connections n !! e = Some (Some sn) →
  net_servers n !! sn = Some (Some s) → net_srvs n !! s = Some rs →
  srv_services rs !! svc = Some service → svc_methods service !! meth = Some m → has_dot meth = false →
  gob_encode a = Some bs → m a (net_app n) = Done (v, app') → gob_encode v = Some bs' →
  let i := length (net_calls n) in
  ∃ n' c, happens [ECall e (String.append svc (String "."%char meth)) a; ESend i; EProcess i false;
                   EHandle i; EReply i false false] n = Done n' ∧
    net_calls n' !! i = Some c ∧ Call_end (gob_type v) c = Some (Done (true, Some v)) ∧
    net_app n' = app' ∧ GetTotalCount n' = wrap 32 (GetTotalCount n + 1) ∧
    GetCount sn n' = Done (Server_GetCount rs + 1).
Proof.
  intros Hrun Hen Hcon Hsv Hrs Hsvc Hm Hdot Ha Hmeth Hv i. subst i.
  assert (s < length (net_srvs n))%nat as Hs by (by eapply lookup_lt_Some).
  assert (∀ (l : list (@call Name T)) x, (l ++ [x]) !! length l = Some x) as Hlast.
  { intros. by apply list_lookup_middle. }
  assert (∀ (l : list (@call Name T)) x y, <[length l := y]> (l ++ [x]) = l ++ [y]) as Hins.
  { intros l x y. rewrite insert_app_r_alt, Nat.sub_diag by lia. done. }
  cbn [happens happen]. unfold Call_begin. rewrite Ha. cbn. rewrite Hlast, Hrun. cbn.
  rewrite Hins, Hlast. unfold processReq_begin, readEndnameInfo. cbn. rewrite Hen, Hcon. cbn. rewrite Hsv. cbn.
  rewrite andb_false_r. cbn. rewrite Hins, Hlast. unfold runHandler. cbn. rewrite Hrs. cbn.
  unfold Server_dispatch. cbn. rewrite splitDot_app by done. cbn. rewrite Hsvc. unfold Service_dispatch. rewrite Hm.
  cbn. rewrite (gob_roundtrip a bs Ha). cbn. rewrite Hmeth. cbn. rewrite Hins, Hlast. unfold processReq_end, isServerDead.
  cbn. rewrite Hen, Hsv. cbn. rewrite bool_decide_eq_true_2 by done. cbn. rewrite !andb_false_r. cbn.
  eexists _, _. split; [reflexivity|]. cbn. rewrite Hins, Hlast. split_and!; [done| |done|done|].
  - unfold Call_end. cbn. rewrite Hv. cbn. by rewrite (gob_roundtrip v bs' Hv).
  - unfold GetCount. cbn. rewrite Hsv. cbn. rewrite list_lookup_insert_eq by done. done.
Qed.

End theorems.

(** ** A network for the witnesses *)

(** Integers, stored as themselves. *)
#[local] Instance int_gob : Gob unit Z := {
  gob_type _ := tt;
  gob_zero _ := 0;
  gob_encode z := Some [z];
  gob_decode _ bs := match bs with [z] => Some z | _ => None end;
}.

Lemma int_gob_laws : GobLaws int_gob.
Proof. split. intros v bs H. by injection H as <-. Qed.

(** One server, number 0, with a service that adds its argument to a counter. *)
Definition adder : Server :=
  AddService (MakeService "Adder" [mkDesc "Add" true 3 true 0 (λ a app, Done (app + a, app + a));
                                   mkDesc "helper" false 3 true 0 (λ a app, Panicked)]) MakeServer.

Definition adder_net : @net Z _ _ unit Z Z :=
  match happens [EMakeEnd 7; EOp (OConnect 7 0); EOp (OEnable 7 true); EOp (OAddServer 0 0%nat)]
          (MakeNetwork [adder] 10) with
  | Done n => n | _ => MakeNetwork [] 0
  end.

(** A call that gets through; the server is deleted afterwards. *)
Definition adder_trace : list event :=
  [EOp (OLongReordering true); EMakeEnd 7; EOp (OConnect 7 0); EOp (OEnable 7 true); EOp (OAddServer 0 0%nat);
   ECall 7 "Adder.Add" 5; ESend 0; EProcess 0 false; EPoll 0; EHandle 0; EReply 0 false true;
   EOp (ODeleteServer 0); EFire 0].

Abbreviation adder_run := (happens (Name := Z) (T := unit) adder_trace (MakeNetwork [adder] 10)).

Lemma rpc_at_most_once_witness : (∃ n, adder_run = Done n) ∧ (handled 0 adder_trace <= 1)%nat.
Proof.
  destruct adder_run as [n| |] eqn:E; [|vm_compute in E; done..]. split; [by exists n|].
  exact (rpc_at_most_once [adder] 10 adder_trace n 0 E).
Defined.

Lemma positive_reply_is_genuine_witness :
  handled 0 adder_trace = 1%nat ∧
  ∃ req r sn s, dispatched (Name := Z) (T := unit) (MakeNetwork [adder] 10) adder_trace 0 req sn s ∧
    gave (MakeNetwork [adder] 10) adder_trace 0 req s r ∧
    released (MakeNetwork [adder] 10) adder_trace 0 req sn s ∧ rep_reply r = [15].
Proof.
  destruct adder_run as [n| |] eqn:E; [|vm_compute in E; done..].
  assert (net_calls n !! 0%nat = Some (mkCall (mkReq 7 "Adder.Add" tt [5]) (Answered (mkReply true [15]))
    (Finished (mkReply true [15])))) as Hc.
  { transitivity (match adder_run with Done n => net_calls n !! 0%nat | _ => None end);
      [by rewrite E|vm_compute; reflexivity]. }
  destruct (positive_reply_is_genuine [adder] 10 adder_trace n 0%nat _ _ _ E Hc eq_refl) as (H1 & sn & s & H2 & H3 & H4).
  split; [exact H1|]. eexists _, _, sn, s. split; [exact H2|]. split; [exact H3|]. split; [exact H4|reflexivity].
Defined.

Lemma calls_wait_for_handlers_only_witness :
  ∃ n c, happens (Name := Z) (T := unit) (take 8 adder_trace) (MakeNetwork [adder] 10) = Done n ∧
    net_calls n !! 0%nat = Some c ∧
    ((∃ ev n' c', happen ev n = Done n' ∧ net_calls n' !! 0%nat = Some c' ∧ (rank c < rank c')%nat) ∨
     (∃ sn s rel lro, call_state_ c = Handling sn s rel lro ∧ call_run c = Started s ∧
        isServerDead (endname (call_req c)) sn s n = false ∧ ∀ n', happen (EHandle 0) n ≠ Done n')).
Proof.
  destruct (happens (Name := Z) (T := unit) (take 8 adder_trace) (MakeNetwork [adder] 10)) as [n| |] eqn:E;
    [|vm_compute in E; done..].
  assert (net_calls n !! 0%nat = Some (mkCall (mkReq 7 "Adder.Add" tt [5]) (Handling 0 0%nat true true)
    (Started 0))) as Hc.
  { transitivity (match happens (Name := Z) (T := unit) (take 8 adder_trace) (MakeNetwork [adder] 10) with
                  | Done n => net_calls n !! 0%nat | _ => None end); [by rewrite E|vm_compute; reflexivity]. }
  eexists n, _. split; [reflexivity|]. split; [exact Hc|].
  apply (calls_wait_for_handlers_only [adder] 10 (take 8 adder_trace) n 0%nat _ E Hc). cbn. lia.
Defined.

Lemma call_delivers_witness :
  ∃ n' c, happens [ECall 7 "Adder.Add" 5; ESend 0; EProcess 0 false; EHandle 0; EReply 0 false false]
      adder_net = Done n' ∧
    net_calls n' !! 0%nat = Some c ∧ Call_end tt c = Some (Done (true, Some 15)) ∧
    net_app n' = 15 ∧ GetTotalCount n' = 1 ∧ GetCount 0 n' = Done 1.
Proof.
  exact (call_delivers int_gob_laws adder_net 7 0 0%nat adder "Adder" _ "Add" _ 5 [5] 15 [15] 15
    eq_refl eq_refl eq_refl eq_refl eq_refl eq_refl eq_refl eq_refl eq_refl eq_refl eq_refl).
Defined.
