(* ===== verification/RaftTester.v ===== *)
(** * The Raft test harness (src/src/raft/config.go)

    The tester keeps a copy of what each peer has applied, checks every message
    from the apply channels against the copies, and switches the peers'
    connections.  A [log.Fatalf] or [t.Fatal] ends the process and is [Panicked];
    an error message is a boolean.  The snapshot format is a parameter
    ([SnapCodec]); random end names are arguments.

    While a peer lives, the persister the tester holds in [saved] is the one the
    peer writes to. *)

From stdpp Require Import base list numbers gmap strings.
From Stdlib Require Import Lia.
From S2P Require Import Prelude Labrpc RaftLog Persister RaftCore.

(** Names on the network: strings for ends, numbers for servers. *)
Abbreviation name := (string + Z)%type.

(** [e.Encode(index); e.Encode(xlog)] and the two [Decode]s *)
Class SnapCodec : Type := {
  snap_encode : Z → list Iface → bytes;
  snap_decode : bytes → option (Z * list Iface);
}.

Class SnapCodecLaws (C : SnapCodec) : Prop := {
  snap_roundtrip i xlog : snap_decode (snap_encode i xlog) = Some (i, xlog);
  snap_nonempty i xlog : snap_encode i xlog ≠ [];
}.

Section tester.
Context {codec : RaftCodec} {snaps : SnapCodec}.
Context {T V App : Type}.

Abbreviation network := (@net name _ _ T V App).

Record config : Type := mkConfig {
  cf_net : network;
  cf_n : nat;
  cf_rafts : list (option Raft);
  cf_connected : list bool;
  cf_saved : list (option Persister);
  cf_endnames : list (option (list string));
  cf_logs : list (gmap Z Iface);
  cf_lastApplied : list Z;
  cf_maxIndex : Z;
  cf_finished : Z;
  cf_rpcs0 : Z;
  cf_cmds0 : Z;
  cf_bytes0 : Z;
  cf_maxIndex0 : Z;
}.

Definition set_net (x : network) (cf : config) : config :=
  mkConfig x (cf_n cf) (cf_rafts cf) (cf_connected cf) (cf_saved cf) (cf_endnames cf) (cf_logs cf)
    (cf_lastApplied cf) (cf_maxIndex cf) (cf_finished cf)
    (cf_rpcs0 cf) (cf_cmds0 cf) (cf_bytes0 cf) (cf_maxIndex0 cf).

Definition set_connected (x : list bool) (cf : config) : config :=
  mkConfig (cf_net cf) (cf_n cf) (cf_rafts cf) x (cf_saved cf) (cf_endnames cf) (cf_logs cf)
    (cf_lastApplied cf) (cf_maxIndex cf) (cf_finished cf)
    (cf_rpcs0 cf) (cf_cmds0 cf) (cf_bytes0 cf) (cf_maxIndex0 cf).

Definition set_logs (logs : list (gmap Z Iface)) (lastApplied : list Z) (maxIndex : Z) (cf : config) : config :=
  mkConfig (cf_net cf) (cf_n cf) (cf_rafts cf) (cf_connected cf) (cf_saved cf) (cf_endnames cf) logs
    lastApplied maxIndex (cf_finished cf)
    (cf_rpcs0 cf) (cf_cmds0 cf) (cf_bytes0 cf) (cf_maxIndex0 cf).

Definition set_rafts (rafts : list (option Raft)) (saved : list (option Persister)) (cf : config) : config :=
  mkConfig (cf_net cf) (cf_n cf) rafts (cf_connected cf) saved (cf_endnames cf) (cf_logs cf)
    (cf_lastApplied cf) (cf_maxIndex cf) (cf_finished cf)
    (cf_rpcs0 cf) (cf_cmds0 cf) (cf_bytes0 cf) (cf_maxIndex0 cf).

Definition set_endnames (x : list (option (list string))) (cf : config) : config :=
  mkConfig (cf_net cf) (cf_n cf) (cf_rafts cf) (cf_connected cf) (cf_saved cf) x (cf_logs cf)
    (cf_lastApplied cf) (cf_maxIndex cf) (cf_finished cf)
    (cf_rpcs0 cf) (cf_cmds0 cf) (cf_bytes0 cf) (cf_maxIndex0 cf).

Definition set_finished (x : Z) (cf : config) : config :=
  mkConfig (cf_net cf) (cf_n cf) (cf_rafts cf) (cf_connected cf) (cf_saved cf) (cf_endnames cf) (cf_logs cf)
    (cf_lastApplied cf) (cf_maxIndex cf) x (cf_rpcs0 cf) (cf_cmds0 cf) (cf_bytes0 cf) (cf_maxIndex0 cf).

Definition set_stats (rpcs0 cmds0 bytes0 maxIndex0 : Z) (cf : config) : config :=
  mkConfig (cf_net cf) (cf_n cf) (cf_rafts cf) (cf_connected cf) (cf_saved cf) (cf_endnames cf) (cf_logs cf)
    (cf_lastApplied cf) (cf_maxIndex cf) (cf_finished cf) rpcs0 cmds0 bytes0 maxIndex0.

(** ** Checking what is applied *)

(** Some server has already committed a different value for this entry. *)
Definition clash (index : Z) (v : Iface) (logs : list (gmap Z Iface)) : bool :=
  existsb (λ m, match m !! index with Some old => negb (bool_decide (old = v)) | None => false end) logs.

(** The error flag, whether the previous index is there, and the new copies. *)
Definition checkLogs (i : nat) (m : ApplyMsg) (cf : config) : outcome (bool * bool * config) :=
  let v := amCommand m in
  let err := clash (CommandIndex m) v (cf_logs cf) in
  li ← of_option (cf_logs cf !! i);
  let prevok := bool_decide (is_Some (li !! (CommandIndex m - 1))) in
  let maxIndex := if cf_maxIndex cf <? CommandIndex m then CommandIndex m else cf_maxIndex cf in
  mret (err, prevok, set_logs (<[i := <[CommandIndex m := v]> li]> (cf_logs cf)) (cf_lastApplied cf) maxIndex cf).

(** One message in the loop of [applier]. *)
Definition applier (i : nat) (m : ApplyMsg) (cf : config) : outcome config :=
  if negb (CommandValid m) then mret cf
  else
    '(err, prevok, cf) ← checkLogs i m cf;
    let err := if (1 <? CommandIndex m) && negb prevok then true else err in
    if err : bool then Panicked else mret cf.

(** [cfg.logs[i][j] = xlog[j]] *)
Fixpoint fillLog (j : Z) (xlog : list Iface) (m : gmap Z Iface) : gmap Z Iface :=
  match xlog with
  | [] => m
  | v :: xlog' => fillLog (j + 1) xlog' (<[j := v]> m)
  end.

(** The error flag and the new copies; a nil snapshot is the empty slice. *)
Definition ingestSnap (i : nat) (snapshot : bytes) (index : Z) (cf : config) : outcome (bool * config) :=
  if bool_decide (snapshot = []) then Panicked
  else
    '(lastIncludedIndex, xlog) ← of_option (snap_decode snapshot);
    if negb (index =? -1) && negb (index =? lastIncludedIndex) then mret (true, cf)
    else mret (false, set_logs (<[i := fillLog 0 xlog ∅]> (cf_logs cf))
           (<[i := lastIncludedIndex]> (cf_lastApplied cf)) (cf_maxIndex cf) cf).

Definition SnapShotInterval : Z := 10.

(** One message in the loop of [applierSnap], with the peer it calls. *)
Definition applierSnap (i : nat) (m : ApplyMsg) (rf : Raft) (cf : config) : outcome (Raft * config) :=
  if SnapshotValid m then
    '(rf, ok) ← CondInstallSnapshot (SnapshotTerm m) (SnapshotIndex m) (amSnapshot m) rf;
    if ok : bool then
      '(err, cf) ← ingestSnap i (amSnapshot m) (SnapshotIndex m) cf;
      if err : bool then Panicked else mret (rf, cf)
    else mret (rf, cf)
  else if CommandValid m then
    la ← of_option (cf_lastApplied cf !! i);
    let err := negb (CommandIndex m =? la + 1) in
    '(err, cf) ←
      (if err then mret (true, cf)
       else
         '(err, prevok, cf) ← checkLogs i m cf;
         mret (if (1 <? CommandIndex m) && negb prevok then true else err, cf));
    let cf := set_logs (cf_logs cf) (<[i := CommandIndex m]> (cf_lastApplied cf)) (cf_maxIndex cf) cf in
    rf ← (if Z.rem (CommandIndex m + 1) SnapShotInterval =? 0 then
            li ← of_option (cf_logs cf !! i);
            let xlog := (λ j, default INil (li !! j)) <$> seqZ 0 (CommandIndex m + 1) in
            Snapshot (CommandIndex m) (snap_encode (CommandIndex m) xlog) rf
          else mret rf);
    if err : bool then Panicked else mret (rf, cf)
  else mret (rf, cf).

(** ** Connections *)

(** [cfg.endnames[i][j]] *)
Definition endname_at (cf : config) (i j : nat) : outcome string :=
  row ← of_option (mjoin (cf_endnames cf !! i));
  of_option (row !! j).

(** [for j := ... { if cond(j) { cfg.net.Enable(sel(j), b) } }] *)
Fixpoint enableLoop (js : list nat) (cond : nat → bool) (sel : nat → outcome string) (b : bool)
    (n : network) : outcome network :=
  match js with
  | [] => mret n
  | j :: js' =>
      if cond j then
        e ← sel j;
        enableLoop js' cond sel b (Enable (inl e) b n)
      else enableLoop js' cond sel b n
  end.

Definition connect (i : nat) (cf : config) : outcome config :=
  _ ← of_option (cf_connected cf !! i);
  let cf := set_connected (<[i := true]> (cf_connected cf)) cf in
  let on j := default false (cf_connected cf !! j) in
  n ← enableLoop (seq 0 (cf_n cf)) on (λ j, endname_at cf i j) true (cf_net cf);
  n ← enableLoop (seq 0 (cf_n cf)) on (λ j, endname_at cf j i) true n;
  mret (set_net n cf).

Definition disconnect (i : nat) (cf : config) : outcome config :=
  _ ← of_option (cf_connected cf !! i);
  let cf := set_connected (<[i := false]> (cf_connected cf)) cf in
  let named j := bool_decide (is_Some (mjoin (cf_endnames cf !! j))) in
  n ← enableLoop (seq 0 (cf_n cf)) (λ _, named i) (λ j, endname_at cf i j) false (cf_net cf);
  n ← enableLoop (seq 0 (cf_n cf)) named (λ j, endname_at cf j i) false n;
  mret (set_net n cf).

(** The persister the tester holds for [i]. *)
Definition held (cf : config) (i : nat) : option Persister :=
  match mjoin (cf_rafts cf !! i) with
  | Some rf => Some (persister rf)
  | None => mjoin (cf_saved cf !! i)
  end.

(** The killed peer ([rf.Kill]) is out of the tester's reach from here on. *)
Definition crash1 (i : nat) (cf : config) : outcome config :=
  cf ← disconnect i cf;
  let cf := set_net (DeleteServer (inr (Z.of_nat i)) (cf_net cf)) cf in
  let saved := Copy <$> held cf i in
  let saved := (λ ps, SaveStateAndSnapshot MakePersister (ReadRaftState ps) (ReadSnapshot ps)) <$> saved in
  mret (set_rafts (<[i := None]> (cf_rafts cf)) (<[i := saved]> (cf_saved cf)) cf).

(** The fresh ends of server [i]: [MakeEnd] and [Connect] for each peer. *)
Fixpoint makeEnds (names : list string) (j : Z) (n : network) : outcome network :=
  match names with
  | [] => mret n
  | e :: names' =>
      n ← MakeEnd (inl e) n;
      makeEnds names' (j + 1) (Connect (inl e) (inr j) n)
  end.

(** [srv] is the server with the new peer's service; [c] the clock [Make] sees. *)
Definition start1 (i : nat) (names : list string) (srv : Server) (c : Clock) (cf : config) : outcome config :=
  cf ← crash1 i cf;
  let cf := set_endnames (<[i := Some names]> (cf_endnames cf)) cf in
  n ← makeEnds names 0 (cf_net cf);
  let cf := set_net n cf in
  let cf := set_logs (cf_logs cf) (<[i := 0]> (cf_lastApplied cf)) (cf_maxIndex cf) cf in
  '(ps, cf) ←
    (match held cf i with
     | Some ps =>
         let ps := Copy ps in
         let snapshot := ReadSnapshot ps in
         if bool_decide (snapshot = []) then mret (ps, cf)
         else
           '(err, cf) ← ingestSnap i snapshot (-1) cf;
           if err : bool then Panicked else mret (ps, cf)
     | None => mret (MakePersister, cf)
     end);
  rf ← Make (Z.of_nat (cf_n cf)) (Z.of_nat i) ps c;
  let cf := set_rafts (<[i := Some rf]> (cf_rafts cf)) (<[i := Some ps]> (cf_saved cf)) cf in
  let n := cf_net cf in
  let n := AddServer (inr (Z.of_nat i)) (length (net_srvs n)) (new_srv srv n) in
  mret (set_net n cf).

(** ** Making and ending a test *)

Definition rpcCount (server : nat) (cf : config) : outcome Z := GetCount (inr (Z.of_nat server)) (cf_net cf).

Definition rpcTotal (cf : config) : Z := GetTotalCount (cf_net cf).

Definition bytesTotal (cf : config) : Z := GetTotalBytes (cf_net cf).

Definition setunreliable (unrel : bool) (cf : config) : config :=
  set_net (Reliable (negb unrel) (cf_net cf)) cf.

Definition setlongreordering (longrel : bool) (cf : config) : config :=
  set_net (LongReordering longrel (cf_net cf)) cf.

(** What the test and the peer bring to the start of one server. *)
Record starting : Type := mkStarting {
  st_names : list string;
  st_srv : @Server V App;
  st_clock : Clock;
}.

(** [for i := 0; i < cfg.n; i++ { cfg.logs[i] = ...; cfg.start1(i, applier) }] *)
Fixpoint startAll (i : nat) (sts : list starting) (cf : config) : outcome config :=
  match sts with
  | [] => mret cf
  | st :: sts' =>
      let cf := set_logs (<[i := ∅]> (cf_logs cf)) (cf_lastApplied cf) (cf_maxIndex cf) cf in
      cf ← start1 i (st_names st) (st_srv st) (st_clock st) cf;
      startAll (S i) sts' cf
  end.

Fixpoint connectLoop (is_ : list nat) (cf : config) : outcome config :=
  match is_ with
  | [] => mret cf
  | i :: is' => cf ← connect i cf; connectLoop is' cf
  end.

(** [cfg := &config{}] and the [make]s *)
Definition new_config (n : nat) (app : App) : config :=
  mkConfig (MakeNetwork [] app) n (replicate n None) (replicate n false) (replicate n None)
    (replicate n None) (replicate n ∅) (replicate n 0) 0 0 0 0 0 0.

(** One [starting] per server. *)
Definition make_config (sts : list starting) (unreliable : bool) (app : App) : outcome config :=
  let n := length sts in
  let cf := setunreliable unreliable (new_config n app) in
  let cf := set_net (LongDelays true (cf_net cf)) cf in
  cf ← startAll 0 sts cf;
  connectLoop (seq 0 n) cf.

(** [late]: more than 120 seconds since the start of a test that has not failed *)
Definition checkTimeout (late : bool) : outcome unit := if late then Panicked else mret ().

Definition checkFinished (cf : config) : bool := negb (cf_finished cf =? 0).

Definition cleanup (late : bool) (cf : config) : outcome config :=
  let cf := set_finished 1 cf in
  let cf := set_rafts (map (option_map Kill) (cf_rafts cf)) (cf_saved cf) cf in
  n ← Cleanup (cf_net cf);
  _ ← (checkTimeout late : outcome unit);
  mret (set_net n cf).

Definition begin (cf : config) : config :=
  set_stats (rpcTotal cf) 0 (bytesTotal cf) (cf_maxIndex cf) cf.

(** The numbers [end] prints: peers, RPCs, bytes, commands. *)
Definition end_ (late : bool) (cf : config) : outcome (Z * Z * Z * Z) :=
  _ ← (checkTimeout late : outcome unit);
  mret (Z.of_nat (cf_n cf), rpcTotal cf - cf_rpcs0 cf, bytesTotal cf - cf_bytes0 cf,
        cf_maxIndex cf - cf_maxIndex0 cf).

(** ** Observing the peers *)

(** The connected peers with what [GetState] says of them; a nil peer panics. *)
Fixpoint observeLoop (is_ : list nat) (cf : config) : outcome (list (nat * Z * bool)) :=
  match is_ with
  | [] => mret []
  | i :: is' =>
      on ← of_option (cf_connected cf !! i);
      if on : bool then
        rf ← of_option (mjoin (cf_rafts cf !! i));
        rest ← observeLoop is' cf;
        mret ((i, (GetState rf).1, (GetState rf).2) :: rest)
      else observeLoop is' cf
  end.

Definition observe (cf : config) : outcome (list (nat * Z * bool)) := observeLoop (seq 0 (cf_n cf)) cf.

(** [leaders[term] = append(leaders[term], i)] *)
Definition leadersByTerm (obs : list (nat * Z * bool)) : gmap Z (list nat) :=
  foldl (λ m x, let '(i, term, leader) := x in
    if leader : bool then <[term := default [] (m !! term) ++ [i]]> m else m) ∅ obs.

(** One round of [checkOneLeader]: a failure, a leader, or nobody. *)
Definition oneLeader (cf : config) : outcome (option nat) :=
  obs ← observe cf;
  let leaders := leadersByTerm obs in
  if existsb (λ x, 1 <? Z.of_nat (length x.2)) (map_to_list leaders) then Panicked
  else
    let lastTermWithLeader := foldr (λ x t, if t <? x.1 then x.1 else t) (-1) (map_to_list leaders) in
    if bool_decide (leaders = ∅) then mret None
    else
      l ← of_option (leaders !! lastTermWithLeader);
      i ← of_option (head l);
      mret (Some i).

(** The rounds of [checkOneLeader], on the configuration each of them sees. *)
Fixpoint checkOneLeader (rounds : list config) : outcome nat :=
  match rounds with
  | [] => Panicked
  | cf :: rounds' =>
      r ← oneLeader cf;
      match r with Some i => mret i | None => checkOneLeader rounds' end
  end.

Fixpoint checkTermsLoop (obs : list (nat * Z * bool)) (term : Z) : outcome Z :=
  match obs with
  | [] => mret term
  | (_, xterm, _) :: obs' =>
      if term =? -1 then checkTermsLoop obs' xterm
      else if negb (term =? xterm) then Panicked
      else checkTermsLoop obs' term
  end.

Definition checkTerms (cf : config) : outcome Z :=
  obs ← observe cf;
  checkTermsLoop obs (-1).

Definition checkNoLeader (cf : config) : outcome unit :=
  obs ← observe cf;
  if existsb (λ x, x.2) obs then Panicked else mret ().

Fixpoint nCommittedLoop (index : Z) (logs : list (gmap Z Iface)) (count : Z) (cmd : Iface)
    : outcome (Z * Iface) :=
  match logs with
  | [] => mret (count, cmd)
  | m :: logs' =>
      match m !! index with
      | Some cmd1 =>
          if (0 <? count) && negb (bool_decide (cmd = cmd1)) then Panicked
          else nCommittedLoop index logs' (count + 1) cmd1
      | None => nCommittedLoop index logs' count cmd
      end
  end.

Definition nCommitted (index : Z) (cf : config) : outcome (Z * Iface) :=
  nCommittedLoop index (cf_logs cf) 0 INil.

(** [cfg.saved[i]] of a server that was never started is nil and panics. *)
Fixpoint LogSizeLoop (is_ : list nat) (logsize : Z) (cf : config) : outcome Z :=
  match is_ with
  | [] => mret logsize
  | i :: is' =>
      ps ← of_option (held cf i);
      LogSizeLoop is' (if logsize <? RaftStateSize ps then RaftStateSize ps else logsize) cf
  end.

Definition LogSize (cf : config) : outcome Z := LogSizeLoop (seq 0 (cf_n cf)) 0 cf.

(** ** Waiting for agreement

    While the tester sleeps the rest of the program goes on: [world k] is what
    has happened to the configuration, and [clock k] the time in nanoseconds,
    when the tester looks for the [k]-th time. *)

Section waiting.
Variable world : nat → config → config.
Variable clock : nat → Z.

(** [for _, r := range cfg.rafts]: somebody has moved on to a later term; a nil
    peer panics. *)
Fixpoint movedOn (startTerm : Z) (rafts : list (option Raft)) : outcome bool :=
  match rafts with
  | [] => mret false
  | r :: rafts' =>
      rf ← of_option r;
      if startTerm <? (GetState rf).1 then mret true else movedOn startTerm rafts'
  end.

(** The polling loop of [wait], with the number of polls left: [true] if it was
    left by a break or has run out, [false] if [wait] returns -1. *)
Fixpoint waitLoop (iters : nat) (k : nat) (index n startTerm : Z) (cf : config) : outcome (bool * config) :=
  match iters with
  | O => mret (true, cf)
  | S iters' =>
      '(nd, _) ← nCommitted index cf;
      if n <=? nd then mret (true, cf)
      else
        let cf := world k cf in
        moved ← (if -1 <? startTerm then movedOn startTerm (cf_rafts cf) else mret false);
        if moved : bool then mret (false, cf) else waitLoop iters' (S k) index n startTerm cf
  end.

Definition wait (index n startTerm : Z) (cf : config) : outcome (Iface * config) :=
  '(go, cf) ← waitLoop 30 0 index n startTerm cf;
  if go : bool then
    '(nd, cmd) ← nCommitted index cf;
    if nd <? n then Panicked else mret (cmd, cf)
  else mret (IInt (-1), cf).

(** The loop over the servers in [one]: [si] turns are left. *)
Fixpoint tryServers (si : nat) (starts : nat) (c : Clock) (cmd : Iface) (cf : config)
    : outcome (nat * Z * config) :=
  match si with
  | O => mret (starts, -1, cf)
  | S si' =>
      let starts := ((starts + 1) `mod` cf_n cf)%nat in
      on ← of_option (cf_connected cf !! starts);
      r ← (if on : bool then of_option (cf_rafts cf !! starts) else mret None);
      match r with
      | None => tryServers si' starts c cmd cf
      | Some rf =>
          '(rf, (index1, _, ok), _) ← Start c cmd rf;
          let cf := set_rafts (<[starts := Some rf]> (cf_rafts cf)) (cf_saved cf) cf in
          if ok : bool then mret (starts, index1, cf) else tryServers si' starts c cmd cf
      end
  end.

Definition seconds (x : Z) : Z := x * 10 ^ 9.

(** The loop in [one] that waits two seconds for agreement: the next look and
    whether the command was committed. *)
Fixpoint awaitCommit (fuel : nat) (k : nat) (t1 : Z) (index : Z) (cmd : Iface) (expectedServers : Z)
    (cf : config) : outcome (nat * bool * config) :=
  match fuel with
  | O => Blocked
  | S fuel' =>
      let cf := world k cf in
      if clock k - t1 <? seconds 2 then
        '(nd, cmd1) ← nCommitted index cf;
        if (0 <? nd) && (expectedServers <=? nd) && bool_decide (cmd1 = cmd) then mret (S k, true, cf)
        else awaitCommit fuel' (S k) t1 index cmd expectedServers cf
      else mret (S k, false, cf)
  end.

(** The loop of [one]; it is left with [-1] when the test is over. *)
Fixpoint oneLoop (fuel : nat) (k : nat) (t0 : Z) (starts : nat) (c : Clock) (cmd : Iface)
    (expectedServers : Z) (retry : bool) (cf : config) : outcome (Z * config) :=
  match fuel with
  | O => Blocked
  | S fuel' =>
      let cf := world k cf in
      if (clock k - t0 <? seconds 10) && negb (checkFinished cf) then
        '(starts, index, cf) ← tryServers (cf_n cf) starts c cmd cf;
        if negb (index =? -1) then
          '(k', agreed, cf) ← awaitCommit fuel' (k + 2) (clock (k + 1)%nat) index cmd expectedServers cf;
          if agreed : bool then mret (index, cf)
          else if negb retry then Panicked
          else oneLoop fuel' k' t0 starts c cmd expectedServers retry cf
        else oneLoop fuel' (k + 1) t0 starts c cmd expectedServers retry cf
      else if negb (checkFinished cf) then Panicked
      else mret (-1, cf)
  end.

Definition one (fuel : nat) (c : Clock) (cmd : Iface) (expectedServers : Z) (retry : bool) (cf : config)
    : outcome (Z * config) :=
  oneLoop fuel 1 (clock 0) 0 c cmd expectedServers retry cf.

End waiting.

End tester.
