(* ===== verification/TesterSafety.v ===== *)
(** * What the Raft test harness checks (src/src/raft/config.go)

    The appliers pass exactly the deliveries that agree and come in order; the
    end of a connection is enabled exactly when both of its peers are
    connected; a round of [checkOneLeader] picks the leader of the latest term. *)

From stdpp Require Import base list numbers gmap strings.
From Stdlib Require Import Lia.
From S2P Require Import Prelude Labrpc RaftLog Persister RaftCore RaftLocal RaftTester.

(** ** Deliveries *)

Section deliveries.
Context {T V App : Type}.
Abbreviation config := (@config T V App).
Implicit Types cf : config.

(** A command delivered by a server. *)
Abbreviation delivery := (nat * ApplyMsg)%type.

Fixpoint deliverAll (ds : list delivery) cf : outcome config :=
  match ds with
  | [] => mret cf
  | (i, m) :: ds' => cf ← applier i m cf; deliverAll ds' cf
  end.

(** No two deliveries disagree on an index, by any servers. *)
Definition agreeing (ds : list delivery) : Prop :=
  ∀ d d', d ∈ ds → d' ∈ ds → CommandValid d.2 = true → CommandValid d'.2 = true →
    CommandIndex d.2 = CommandIndex d'.2 → amCommand d.2 = amCommand d'.2.

(** Every delivery above index 1 comes behind one of the index before, by the
    same server. *)
Definition in_order (ds : list delivery) : Prop :=
  ∀ k i m, ds !! k = Some (i, m) → CommandValid m = true → 1 < CommandIndex m →
    ∃ l m', (l < k)%nat ∧ ds !! l = Some (i, m') ∧ CommandValid m' = true ∧
      CommandIndex m' = CommandIndex m - 1.

(** The copies hold what was delivered. *)
Definition copied (ds : list delivery) cf : Prop :=
  ∀ i idx v, (∃ li, cf_logs cf !! i = Some li ∧ li !! idx = Some v) ↔
    ∃ m, (i, m) ∈ ds ∧ CommandValid m = true ∧ CommandIndex m = idx ∧ amCommand m = v.

Lemma deliverAll_snoc ds i m cf :
  deliverAll (ds ++ [(i, m)]) cf = (cf ← deliverAll ds cf; applier i m cf).
Proof.
  revert cf. induction ds as [|[j m'] ds IH]; intros cf; cbn.
  - by destruct (applier i m cf).
  - destruct (applier j m' cf); cbn; auto.
Qed.

Lemma clash_spec index v logs :
  clash index v logs = true ↔ ∃ j li w, logs !! j = Some li ∧ li !! index = Some w ∧ w ≠ v.
Proof.
  unfold clash. rewrite existsb_exists. split.
  - intros (li & Hin & Hc). apply list_elem_of_In, list_elem_of_lookup in Hin as [j Hj].
    destruct (li !! index) as [w|] eqn:E; [|done]. apply negb_true_iff, bool_decide_eq_false in Hc. eauto 10.
  - intros (j & li & w & Hj & Hw & Hne). exists li. split; [by eapply list_elem_of_In, list_elem_of_lookup_2|].
    rewrite Hw. by apply negb_true_iff, bool_decide_eq_false.
Qed.

(** What one message does. *)
Lemma applier_spec i m cf li :
  cf_logs cf !! i = Some li → CommandValid m = true →
  let bad := clash (CommandIndex m) (amCommand m) (cf_logs cf) = true ∨
    (1 < CommandIndex m ∧ li !! (CommandIndex m - 1) = None) in
  (bad → applier i m cf = Panicked) ∧
  (¬ bad → ∃ cf', applier i m cf = Done cf' ∧
     cf_logs cf' = <[i := <[CommandIndex m := amCommand m]> li]> (cf_logs cf)).
Proof.
  intros Hi Hv bad. subst bad. unfold applier, checkLogs. rewrite Hv, Hi. cbn.
  destruct (Z.ltb_spec 1 (CommandIndex m)) as [H1|H1]; cbn.
  - destruct (bool_decide_reflect (is_Some (li !! (CommandIndex m - 1)))) as [[w Hw]|Hn]; cbn.
    + destruct (clash _ _ _); cbn; split; try done; [intros Hb|intros Hb|eauto].
      * exfalso. auto.
      * destruct Hb as [|[_ ?]]; congruence.
    + split; [done|]. intros Hb. exfalso. apply Hb. right. split; [done|].
      by destruct (li !! (CommandIndex m - 1)); [exfalso; apply Hn|].
  - destruct (clash _ _ _); cbn; split; try done; [intros Hb; exfalso; auto|intros [?|[? _]]; [done|lia]|eauto].
Qed.

Lemma copied_snoc ds i m cf cf' li :
  copied ds cf → cf_logs cf !! i = Some li → CommandValid m = true →
  cf_logs cf' = <[i := <[CommandIndex m := amCommand m]> li]> (cf_logs cf) →
  clash (CommandIndex m) (amCommand m) (cf_logs cf) = false → copied (ds ++ [(i, m)]) cf'.
Proof.
  intros Hc Hi Hv E Hcl j idx v. rewrite E. assert (i < length (cf_logs cf))%nat by (by eapply lookup_lt_Some).
  assert ((∃ lj, <[i := <[CommandIndex m := amCommand m]> li]> (cf_logs cf) !! j = Some lj ∧ lj !! idx = Some v) ↔
    (∃ lj, cf_logs cf !! j = Some lj ∧ lj !! idx = Some v) ∨
    j = i ∧ idx = CommandIndex m ∧ v = amCommand m) as ->.
  { destruct (decide (j = i)) as [->|Hji].
    - rewrite list_lookup_insert_eq by done. rewrite Hi. split.
      + intros (lj & [= <-] & Hl). destruct (decide (idx = CommandIndex m)) as [->|Hne].
        * rewrite lookup_insert_eq in Hl. injection Hl as <-. auto.
        * rewrite lookup_insert_ne in Hl by done. left. eauto.
      + intros [(lj & [= <-] & Hl)|(_ & -> & ->)]; eexists; (split; [done|]); [|apply lookup_insert_eq].
        destruct (decide (idx = CommandIndex m)) as [->|Hne]; [|by rewrite lookup_insert_ne].
        rewrite lookup_insert_eq. destruct (decide (v = amCommand m)) as [->|Hvne]; [done|].
        assert (clash (CommandIndex m) (amCommand m) (cf_logs cf) = true); [|congruence].
        apply clash_spec. eauto 10.
    - rewrite list_lookup_insert_ne by done. naive_solver. }
  rewrite (Hc j idx v). setoid_rewrite elem_of_app. setoid_rewrite list_elem_of_singleton. naive_solver.
Qed.

(** Only messages that deliver commands count. *)
Lemma copied_skip ds i m cf : copied ds cf → CommandValid m = false → copied (ds ++ [(i, m)]) cf.
Proof.
  intros Hc Hv j idx v. rewrite (Hc j idx v). setoid_rewrite elem_of_app. setoid_rewrite list_elem_of_singleton.
  split; [naive_solver|]. intros (m' & [?|[= -> ->]] & ? & ?); [eauto|congruence].
Qed.

Lemma agreeing_snoc ds i m :
  agreeing (ds ++ [(i, m)]) ↔ agreeing ds ∧
    (CommandValid m = true → ∀ d, d ∈ ds → CommandValid d.2 = true →
       CommandIndex d.2 = CommandIndex m → amCommand d.2 = amCommand m).
Proof.
  unfold agreeing. setoid_rewrite elem_of_app. setoid_rewrite list_elem_of_singleton. split.
  - intros H. split; [intros; apply H; auto|]. intros Hv d Hd Hvd E. apply (H d (i, m)); auto.
  - intros [H1 H2] d d' [Hd|Hd] [Hd'|Hd'] Hv Hv' E; subst; cbn in *; auto. symmetry. by apply H2.
Qed.

Lemma in_order_snoc ds i m :
  in_order (ds ++ [(i, m)]) ↔ in_order ds ∧
    (CommandValid m = true → 1 < CommandIndex m →
       ∃ m', (i, m') ∈ ds ∧ CommandValid m' = true ∧ CommandIndex m' = CommandIndex m - 1).
Proof.
  unfold in_order. split.
  - intros H. split.
    + intros k j m' Hk Hv H1. pose proof (lookup_lt_Some _ _ _ Hk).
      destruct (H k j m') as (l & m2 & Hl & Hm2 & ?); [by apply lookup_app_l_Some|done|done|].
      exists l, m2. rewrite lookup_app_l in Hm2 by lia. done.
    + intros Hv H1. destruct (H (length ds) i m) as (l & m2 & Hl & Hm2 & ?); [by apply list_lookup_middle|done|done|].
      exists m2. rewrite lookup_app_l in Hm2 by lia. split; [by eapply list_elem_of_lookup_2|done].
  - intros [H1 H2] k j m' Hk Hv Hi. apply lookup_app_Some in Hk as [Hk|[Hk E]].
    + destruct (H1 k j m' Hk Hv Hi) as (l & m2 & Hl & Hm2 & ?). exists l, m2.
      split_and!; try tauto. by apply lookup_app_l_Some.
    + apply list_lookup_singleton_Some in E as [E0 E]. injection E as -> ->.
      destruct (H2 Hv Hi) as (m2 & [l Hl]%list_elem_of_lookup & ?). exists l, m2.
      pose proof (lookup_lt_Some _ _ _ Hl). split_and!; [lia|by apply lookup_app_l_Some|tauto..].
Qed.

(** The copies and the deliveries tell the same story of one message. *)
Lemma applier_verdict ds i m cf li :
  copied ds cf → cf_logs cf !! i = Some li → CommandValid m = true → agreeing ds → in_order ds →
  (clash (CommandIndex m) (amCommand m) (cf_logs cf) = true ∨
    1 < CommandIndex m ∧ li !! (CommandIndex m - 1) = None) ∧
    ¬ (agreeing (ds ++ [(i, m)]) ∧ in_order (ds ++ [(i, m)])) ∨
  clash (CommandIndex m) (amCommand m) (cf_logs cf) = false ∧
    ¬ (1 < CommandIndex m ∧ li !! (CommandIndex m - 1) = None) ∧
    agreeing (ds ++ [(i, m)]) ∧ in_order (ds ++ [(i, m)]).
Proof.
  intros Hc Hi Hv Ha Ho. rewrite agreeing_snoc, in_order_snoc.
  destruct (clash _ _ _) eqn:Ecl; [left; split; [by left|]|].
  { intros [[_ Ha'] _]. apply clash_spec in Ecl as (j & lj & w & Hj & Hw & Hne).
    destruct (proj1 (Hc j (CommandIndex m) w)) as (m' & Hin & Hv' & E & Ew); [eauto|].
    apply Hne. rewrite <- Ew. by apply (Ha' Hv (j, m')). }
  destruct (decide (1 < CommandIndex m ∧ li !! (CommandIndex m - 1) = None)) as [[H1 Hn]|Hn];
    [left; split; [by right|]|right; split_and!; try done].
  - intros [_ [_ Ho']]. destruct (Ho' Hv H1) as (m' & Hin & Hv' & E).
    destruct (proj2 (Hc i (CommandIndex m - 1) (amCommand m'))) as (li' & Hi' & Hl); [eauto|]. congruence.
  - intros _ [j m'] Hin Hv' E. cbn in *. destruct (decide (amCommand m' = amCommand m)) as [|Hne]; [done|].
    assert (clash (CommandIndex m) (amCommand m) (cf_logs cf) = true); [|congruence].
    destruct (proj2 (Hc j (CommandIndex m') (amCommand m'))) as (lj & Hj & Hl); [eauto|].
    apply clash_spec. rewrite E in Hl. eauto 10.
  - intros _ H1. destruct (li !! (CommandIndex m - 1)) as [w|] eqn:El; [|by destruct Hn].
    destruct (proj1 (Hc i (CommandIndex m - 1) w)) as (m' & ? & ? & ? & ?); eauto.
Qed.

Lemma deliverAll_spec ds cf0 :
  (∀ i li, cf_logs cf0 !! i = Some li → li = ∅) → (∀ d, d ∈ ds → (d.1 < length (cf_logs cf0))%nat) →
  (agreeing ds ∧ in_order ds ∧
     ∃ cf, deliverAll ds cf0 = Done cf ∧ copied ds cf ∧ length (cf_logs cf) = length (cf_logs cf0)) ∨
  (¬ (agreeing ds ∧ in_order ds) ∧ deliverAll ds cf0 = Panicked).
Proof.
  intros H0. induction ds as [|[i m] ds IH] using rev_ind; intros Hr.
  { left. split_and!; [by intros d d' ?%not_elem_of_nil|by intros k i m Hk|]. exists cf0. split_and!; try done.
    intros i idx v. split; [intros (li & Hi & Hl); by rewrite (H0 _ _ Hi), lookup_empty in Hl|].
    by intros (m & ?%not_elem_of_nil & _). }
  assert ((i < length (cf_logs cf0))%nat) as Hilt by (apply (Hr (i, m)), elem_of_app; right; by left).
  rewrite deliverAll_snoc.
  destruct IH as [(Ha & Ho & cf & -> & Hc & Hlen)|[Hbad ->]]; [intros d Hd; apply Hr, elem_of_app; by left| |].
  2:{ right. split; [|done]. rewrite agreeing_snoc, in_order_snoc. tauto. }
  cbn. destruct (CommandValid m) eqn:Hv.
  2:{ left. rewrite agreeing_snoc, in_order_snoc. split_and!; try done; [intros; congruence..|].
      exists cf. unfold applier. rewrite Hv. split_and!; [done|by apply copied_skip|done]. }
  destruct (lookup_lt_is_Some_2 (cf_logs cf) i) as [li Hi]; [lia|].
  destruct (applier_spec i m cf li Hi Hv) as [Hbad Hgood].
  destruct (applier_verdict ds i m cf li Hc Hi Hv Ha Ho) as [[Hb ?]|(Hcl & Hn & ? & ?)].
  - right. split; [done|]. by apply Hbad.
  - left. split_and!; [done|done|]. destruct Hgood as (cf' & Hcf' & E); [intros [?|?]; [congruence|done]|].
    exists cf'. split_and!; [done|by eapply copied_snoc|by rewrite E, length_insert].
Qed.

End deliveries.

(** ** Connections *)

Section connections.
Context {T V App : Type}.
Abbreviation config := (@config T V App).
Abbreviation network := (@net name _ _ T V App).
Implicit Types (cf : config) (n : network).

Definition conn cf (i : nat) : bool := default false (cf_connected cf !! i).

Definition enabled n (e : string) : bool := default false (net_enabled n !! inl e).

(** The tables fit, end names are distinct, and the end from [i] to [j] is
    enabled exactly if both are connected. *)
Record wired cf : Prop := {
  w_connected : length (cf_connected cf) = cf_n cf;
  w_endnames : length (cf_endnames cf) = cf_n cf;
  w_rows i row : cf_endnames cf !! i = Some (Some row) → length row = cf_n cf;
  w_distinct i j i' j' e : endname_at cf i j = Done e → endname_at cf i' j' = Done e → i = i' ∧ j = j';
  w_named i : conn cf i = true → is_Some (mjoin (cf_endnames cf !! i));
  w_enabled i j e : endname_at cf i j = Done e → enabled (cf_net cf) e = conn cf i && conn cf j;
}.

Lemma enableLoop_spec js cond sel b n :
  (∀ j, j ∈ js → cond j = true → ∃ e, sel j = Done e) →
  ∃ n', enableLoop js cond sel b n = Done n' ∧
    (∀ e, enabled n' e = b ∧ (∃ j, j ∈ js ∧ cond j = true ∧ sel j = Done e) ∨
          enabled n' e = enabled n e ∧ ¬ (∃ j, j ∈ js ∧ cond j = true ∧ sel j = Done e)).
Proof.
  revert n. induction js as [|j js IH]; intros n Hsel; cbn.
  { exists n. split; [done|]. intros e. right. split; [done|]. by intros (j & ?%not_elem_of_nil & _). }
  destruct (cond j) eqn:Ec.
  - destruct (Hsel j) as [e0 He0]; [by left|done|]. rewrite He0. cbn.
    destruct (IH (Enable (inl e0) b n)) as (n' & Hn' & Hen); [intros; apply Hsel; [by right|done]|].
    exists n'. split; [done|]. intros e. destruct (Hen e) as [[E (j' & ? & ? & ?)]|[E Hno]].
    + left. split; [done|]. exists j'. split; [by right|done].
    + destruct (decide (e = e0)) as [->|Hne].
      * left. split; [|exists j; split; [by left|done]]. rewrite E. unfold enabled. cbn. by rewrite lookup_insert_eq.
      * right. split; [rewrite E; unfold enabled; cbn; by rewrite lookup_insert_ne by congruence|].
        intros (j' & [->|Hj']%elem_of_cons & ? & ?); [congruence|]. apply Hno. eauto.
  - destruct (IH n) as (n' & Hn' & Hen); [intros; apply Hsel; [by right|done]|].
    exists n'. split; [done|]. intros e. destruct (Hen e) as [[E (j' & ? & ? & ?)]|[E Hno]].
    + left. split; [done|]. exists j'. split; [by right|done].
    + right. split; [done|]. intros (j' & [->|Hj']%elem_of_cons & ? & ?); [congruence|]. apply Hno. eauto.
Qed.

Lemma endname_at_total cf i j :
  wired cf → is_Some (mjoin (cf_endnames cf !! i)) → (j < cf_n cf)%nat → ∃ e, endname_at cf i j = Done e.
Proof.
  intros Hw [row Hrow] Hj. unfold endname_at. rewrite Hrow. cbn.
  assert (cf_endnames cf !! i = Some (Some row)) as Hi by (destruct (cf_endnames cf !! i) as [[]|]; cbn in Hrow; congruence).
  destruct (lookup_lt_is_Some_2 row j) as [e ->]; [by rewrite (w_rows _ Hw i row Hi)|]. by exists e.
Qed.

Lemma endname_at_range cf i j e :
  wired cf → endname_at cf i j = Done e →
  (i < cf_n cf)%nat ∧ (j < cf_n cf)%nat ∧ is_Some (mjoin (cf_endnames cf !! i)).
Proof.
  unfold endname_at. intros Hw H. destruct (cf_endnames cf !! i) as [[row|]|] eqn:Ei; cbn in H; try done.
  destruct (row !! j) as [e'|] eqn:Ej; [|done]. split_and!.
  - rewrite <- (w_endnames _ Hw). by eapply lookup_lt_Some.
  - rewrite <- (w_rows _ Hw i row Ei). by eapply lookup_lt_Some.
  - by eexists.
Qed.

Lemma conn_insert cf i b j :
  (i < length (cf_connected cf))%nat →
  default false (<[i := b]> (cf_connected cf) !! j) = if decide (j = i) then b else conn cf j.
Proof.
  intros Hi. case_decide as E; [subst; by rewrite list_lookup_insert_eq|].
  by rewrite list_lookup_insert_ne.
Qed.

Lemma connect_wired i cf :
  wired cf → (i < cf_n cf)%nat → is_Some (mjoin (cf_endnames cf !! i)) →
  ∃ cf', connect i cf = Done cf' ∧ wired cf' ∧ ∀ j, conn cf' j = if decide (j = i) then true else conn cf j.
Proof.
  intros Hw Hi Hnamed. pose proof Hw as [H1 H2 H3 H4 H5 H6]. unfold connect.
  destruct (lookup_lt_is_Some_2 (cf_connected cf) i) as [was ->]; [lia|]. cbn [of_option mbind outcome_bind].
  set (cf1 := set_connected (<[i := true]> (cf_connected cf)) cf).
  assert (∀ j, conn cf1 j = if decide (j = i) then true else conn cf j) as Hc1.
  { intros j. apply conn_insert. lia. }
  assert (∀ a b, endname_at cf1 a b = endname_at cf a b) as Hen by done.
  destruct (enableLoop_spec (seq 0 (cf_n cf)) (conn cf1) (λ j, endname_at cf1 i j) true (cf_net cf))
    as (n1 & Hn1 & He1).
  { intros j Hj%elem_of_seq _. apply (endname_at_total cf); [done|done|lia]. }
  destruct (enableLoop_spec (seq 0 (cf_n cf)) (conn cf1) (λ j, endname_at cf1 j i) true n1) as (n2 & Hn2 & He2).
  { intros j Hj%elem_of_seq Hcj. apply (endname_at_total cf); [done| |done]. rewrite Hc1 in Hcj.
    case_decide as E; [by subst|by apply H5]. }
  exists (set_net n2 cf1). unfold conn in Hn1, Hn2. cbn in Hn1, Hn2 |- *. rewrite Hn1. cbn. rewrite Hn2. split; [done|].
  split; [|exact Hc1]. split; try done.
  - cbn. by rewrite length_insert.
  - intros j Hj. change (conn cf1 j = true) in Hj. rewrite Hc1 in Hj. case_decide; [by subst|by apply H5].
  - intros a b e Hab. change (enabled n2 e = conn cf1 a && conn cf1 b). change (endname_at cf a b = Done e) in Hab.
    destruct (endname_at_range _ _ _ _ Hw Hab) as (Ha & Hb & _).
    destruct (He2 e) as [[-> (j & Hj & Hcj & Ej)]|[-> Hno2]].
    { destruct (H4 _ _ _ _ _ Hab Ej) as [-> ->]. rewrite Hcj, Hc1, decide_True by done. done. }
    destruct (He1 e) as [[-> (j & Hj & Hcj & Ej)]|[-> Hno1]].
    { destruct (H4 _ _ _ _ _ Hab Ej) as [-> ->]. rewrite Hcj, Hc1, decide_True by done. done. }
    rewrite (H6 _ _ _ Hab), !Hc1. case_decide as Ea; [subst a|].
    + rewrite <- (Hc1 b). destruct (conn cf1 b) eqn:Eb.
      * exfalso. apply Hno1. exists b. split_and!; [apply elem_of_seq; lia|done|done].
      * rewrite Hc1 in Eb. case_decide; [done|]. by rewrite Eb, andb_false_r.
    + case_decide as Eb; [subst b|done]. destruct (conn cf a) eqn:Eca; [|done].
      exfalso. apply Hno2. exists a. split_and!; [apply elem_of_seq; lia| |done].
      rewrite Hc1, decide_False by done. done.
Qed.

Lemma disconnect_wired i cf :
  wired cf → (i < cf_n cf)%nat →
  ∃ cf', disconnect i cf = Done cf' ∧ wired cf' ∧ ∀ j, conn cf' j = if decide (j = i) then false else conn cf j.
Proof.
  intros Hw Hi. pose proof Hw as [H1 H2 H3 H4 H5 H6]. unfold disconnect.
  destruct (lookup_lt_is_Some_2 (cf_connected cf) i) as [was ->]; [lia|]. cbn [of_option mbind outcome_bind].
  set (cf1 := set_connected (<[i := false]> (cf_connected cf)) cf).
  assert (∀ j, conn cf1 j = if decide (j = i) then false else conn cf j) as Hc1.
  { intros j. apply conn_insert. lia. }
  set (named := λ j, bool_decide (is_Some (mjoin (cf_endnames cf !! j)))).
  destruct (enableLoop_spec (seq 0 (cf_n cf)) (λ _, named i) (λ j, endname_at cf1 i j) false (cf_net cf))
    as (n1 & Hn1 & He1).
  { intros j Hj%elem_of_seq Hn%bool_decide_eq_true. apply (endname_at_total cf); [done|done|lia]. }
  destruct (enableLoop_spec (seq 0 (cf_n cf)) named (λ j, endname_at cf1 j i) false n1) as (n2 & Hn2 & He2).
  { intros j Hj%elem_of_seq Hn%bool_decide_eq_true. by apply (endname_at_total cf). }
  exists (set_net n2 cf1). split.
  { change ((n ← enableLoop (seq 0 (cf_n cf)) (λ _, named i) (λ j, endname_at cf1 i j) false (cf_net cf);
             n ← enableLoop (seq 0 (cf_n cf)) named (λ j, endname_at cf1 j i) false n;
             mret (set_net n cf1)) = Done (set_net n2 cf1)).
    rewrite Hn1. cbn [mbind outcome_bind]. by rewrite Hn2. }
  split; [|exact Hc1]. split; try done.
  - cbn. by rewrite length_insert.
  - intros j Hj. change (conn cf1 j = true) in Hj. rewrite Hc1 in Hj. case_decide; [done|by apply H5].
  - intros a b e Hab. change (enabled n2 e = conn cf1 a && conn cf1 b). change (endname_at cf a b = Done e) in Hab.
    destruct (endname_at_range _ _ _ _ Hw Hab) as (Ha & Hb & Hna).
    destruct (He2 e) as [[-> (j & Hj & _ & Ej)]|[-> Hno2]].
    { destruct (H4 _ _ _ _ _ Hab Ej) as [-> ->]. rewrite (Hc1 i), decide_True by done. by rewrite andb_false_r. }
    destruct (He1 e) as [[-> (j & Hj & _ & Ej)]|[-> Hno1]].
    { destruct (H4 _ _ _ _ _ Hab Ej) as [-> ->]. by rewrite (Hc1 i), decide_True by done. }
    rewrite (H6 _ _ _ Hab), !Hc1. case_decide as Ea; [subst a|case_decide as Eb; [subst b|done]]; exfalso.
    + apply Hno1. exists b. split_and!; [apply elem_of_seq; lia|by apply bool_decide_eq_true|done].
    + apply Hno2. exists a. split_and!; [apply elem_of_seq; lia|by apply bool_decide_eq_true|done].
Qed.

End connections.

(** ** Restarting a server *)

Section restart.
Context {codec : RaftCodec} {snaps : SnapCodec}.
Context {T V App : Type}.
Abbreviation config := (@config T V App).
Abbreviation network := (@net name _ _ T V App).
Implicit Types (cf : config) (n : network).

Lemma enableLoop_frame js cond sel b n n' :
  enableLoop js cond sel b n = Done n' →
  net_ends n' = net_ends n ∧ net_srvs n' = net_srvs n ∧
  net_servers n' = net_servers n ∧ net_connections n' = net_connections n.
Proof.
  revert n. induction js as [|j js IH]; intros n; cbn; [by intros [= <-]|].
  destruct (cond j); [|apply IH]. intros (e & _ & H)%bind_Done. by apply IH in H.
Qed.

Lemma disconnect_frame i cf cf' :
  disconnect i cf = Done cf' →
  cf_n cf' = cf_n cf ∧ cf_rafts cf' = cf_rafts cf ∧ cf_saved cf' = cf_saved cf ∧
  cf_endnames cf' = cf_endnames cf ∧ cf_logs cf' = cf_logs cf ∧ cf_lastApplied cf' = cf_lastApplied cf ∧
  net_ends (cf_net cf') = net_ends (cf_net cf) ∧ net_srvs (cf_net cf') = net_srvs (cf_net cf) ∧
  net_servers (cf_net cf') = net_servers (cf_net cf) ∧ net_connections (cf_net cf') = net_connections (cf_net cf).
Proof.
  unfold disconnect. intros (was & _ & H)%bind_Done. revert H. intros (n1 & H1%enableLoop_frame & H)%bind_Done.
  apply bind_Done in H as (n2 & H2%enableLoop_frame & H). injection H as <-. cbn in *.
  destruct_and!. split_and!; congruence.
Qed.

(** Fresh ends are made disabled; the others are not touched. *)
Lemma makeEnds_spec names j n :
  NoDup names → (∀ e, e ∈ names → inl e ∉ net_ends n) →
  ∃ n', makeEnds names j n = Done n' ∧ net_srvs n' = net_srvs n ∧
    ∀ e, enabled n' e = if decide (e ∈ names) then false else enabled n e.
Proof.
  revert j n. induction names as [|e names IH]; intros j n Hnd Hf; cbn; [by exists n|].
  apply NoDup_cons in Hnd as [Hne Hnd]. unfold MakeEnd.
  rewrite decide_False by (apply Hf; by left). cbn. set (n1 := Connect _ _ _).
  destruct (IH (j + 1) n1 Hnd) as (n' & Hn' & Hs & He).
  { intros e' He'. subst n1. cbn. apply not_elem_of_union. split; [|apply Hf; by right].
    rewrite elem_of_singleton. intros [= ->]. done. }
  exists n'. split; [exact Hn'|]. split; [done|]. intros e'. rewrite He.
  destruct (decide (e' ∈ names)) as [Hin|Hin]; [by rewrite decide_True by (by right)|].
  subst n1. unfold enabled. cbn. destruct (decide (e' = e)) as [->|Hee].
  - rewrite lookup_insert_eq, decide_True by (by left). done.
  - rewrite lookup_insert_ne by congruence. rewrite decide_False by (by apply not_elem_of_cons). done.
Qed.

(** New end names for a disconnected server. *)
Lemma wired_rename i names cf n' :
  wired cf → (i < cf_n cf)%nat → conn cf i = false → NoDup names → length names = cf_n cf →
  (∀ a b e, endname_at cf a b = Done e → e ∉ names) →
  (∀ e, enabled n' e = if decide (e ∈ names) then false else enabled (cf_net cf) e) →
  wired (set_net n' (set_endnames (<[i := Some names]> (cf_endnames cf)) cf)).
Proof.
  intros [H1 H2 H3 H4 H5 H6] Hi Hc Hnd Hlen Hnew He. set (cf' := set_net _ _).
  assert (∀ a b e, endname_at cf' a b = Done e →
    a = i ∧ names !! b = Some e ∨ a ≠ i ∧ endname_at cf a b = Done e) as Hat.
  { intros a b e. unfold endname_at. cbn. destruct (decide (a = i)) as [->|Ha].
    - rewrite list_lookup_insert_eq by lia. cbn. destruct (names !! b) eqn:E; [|done]. intros [= ->]. auto.
    - rewrite list_lookup_insert_ne by done. auto. }
  split; try done.
  - cbn. by rewrite length_insert.
  - intros a row. cbn. intros [(<- & [= <-] & _)|[_ ?]]%list_lookup_insert_Some; [done|eauto].
  - intros a b a' b' e [[-> Hb]|[Ha Hb]]%Hat [[-> Hb']|[Ha' Hb']]%Hat.
    + split; [done|]. by eapply NoDup_lookup.
    + exfalso. apply (Hnew _ _ _ Hb'). by eapply list_elem_of_lookup_2.
    + exfalso. apply (Hnew _ _ _ Hb). by eapply list_elem_of_lookup_2.
    + by eapply H4.
  - intros a Ha. change (conn cf a = true) in Ha. cbn. destruct (decide (a = i)) as [->|Hai]; [congruence|].
    rewrite list_lookup_insert_ne by done. auto.
  - intros a b e Hab. change (enabled n' e = conn cf a && conn cf b). rewrite He.
    destruct (Hat _ _ _ Hab) as [[-> Hb]|[Ha Hb]].
    + rewrite decide_True by (by eapply list_elem_of_lookup_2). by rewrite Hc.
    + rewrite decide_False by (by eapply Hnew). by apply H6.
Qed.

(** Only names, connections and the network matter. *)
Lemma wired_ext cf cf' :
  wired cf → cf_n cf' = cf_n cf → cf_connected cf' = cf_connected cf → cf_endnames cf' = cf_endnames cf →
  net_enabled (cf_net cf') = net_enabled (cf_net cf) → wired cf'.
Proof.
  intros [H1 H2 H3 H4 H5 H6] E1 E2 E3 E4.
  assert (∀ a b, endname_at cf' a b = endname_at cf a b) as Hat by (intros; unfold endname_at; by rewrite E3).
  assert (∀ a, conn cf' a = conn cf a) as Hc by (intros; unfold conn; by rewrite E2).
  split; rewrite ?E1, ?E2, ?E3; try done.
  - intros a b a' b' e. rewrite !Hat. apply H4.
  - intros a. rewrite Hc. apply H5.
  - intros a b e. rewrite Hat, !Hc. unfold enabled. rewrite E4. apply H6.
Qed.

Lemma resaved ps :
  SaveStateAndSnapshot MakePersister (ReadRaftState (Copy ps)) (ReadSnapshot (Copy ps)) = ps.
Proof. unfold SaveStateAndSnapshot, ReadRaftState, ReadSnapshot. rewrite !clone_id. by destruct ps. Qed.

(** [crash1] saves what the peer has persisted and takes it off the net. *)
Lemma crash1_spec i cf rf :
  wired cf → (i < cf_n cf)%nat → cf_rafts cf !! i = Some (Some rf) → (i < length (cf_saved cf))%nat →
  ∃ cf', crash1 i cf = Done cf' ∧ wired cf' ∧ (∀ j, conn cf' j = if decide (j = i) then false else conn cf j) ∧
    held cf' i = Some (persister rf) ∧ (∀ j, j ≠ i → cf_rafts cf' !! j = cf_rafts cf !! j) ∧
    cf_n cf' = cf_n cf ∧ cf_endnames cf' = cf_endnames cf ∧ length (cf_rafts cf') = length (cf_rafts cf) ∧
    net_ends (cf_net cf') = net_ends (cf_net cf) ∧ net_srvs (cf_net cf') = net_srvs (cf_net cf).
Proof.
  intros Hw Hi Hrf Hs. destruct (disconnect_wired i cf Hw Hi) as (cf1 & H1 & Hw1 & Hc1).
  destruct (disconnect_frame _ _ _ H1) as (En & Er & Es & Ee & _ & _ & Ends & Esrv & _ & _).
  unfold crash1. rewrite H1. cbn [mbind outcome_bind]. eexists. split; [reflexivity|].
  split; [by eapply (wired_ext cf1)|]. split; [exact Hc1|].
  split; [|split].
  - unfold held. cbn -[SaveStateAndSnapshot ReadRaftState ReadSnapshot Copy]. rewrite Er, Es, Hrf. cbn -[SaveStateAndSnapshot ReadRaftState ReadSnapshot Copy].
    rewrite list_lookup_insert_eq by (by eapply lookup_lt_Some). cbn -[SaveStateAndSnapshot ReadRaftState ReadSnapshot Copy].
    rewrite list_lookup_insert_eq by done. cbn -[SaveStateAndSnapshot ReadRaftState ReadSnapshot Copy].
    by rewrite resaved.
  - intros j Hj. cbn. rewrite list_lookup_insert_ne by done. by rewrite Er.
  - cbn. rewrite length_insert, Er. done.
Qed.

Lemma start1_spec i names srv c cf rf :
  wired cf → (i < cf_n cf)%nat → cf_rafts cf !! i = Some (Some rf) → (i < length (cf_saved cf))%nat →
  stable rf → me rf = Z.of_nat i → NoDup names → length names = cf_n cf →
  (∀ e, e ∈ names → inl e ∉ net_ends (cf_net cf)) →
  (∀ a b e, endname_at cf a b = Done e → inl e ∈ net_ends (cf_net cf)) →
  (snapshot (persister rf) = [] ∨ ∃ x, snap_decode (snapshot (persister rf)) = Some x) →
  ∃ cf' rf', start1 i names srv c cf = Done cf' ∧ wired cf' ∧
    (∀ j, conn cf' j = if decide (j = i) then false else conn cf j) ∧
    (∀ j, j ≠ i → cf_rafts cf' !! j = cf_rafts cf !! j) ∧
    cf_rafts cf' !! i = Some (Some rf') ∧ currentTerm rf' = currentTerm rf ∧ votedFor rf' = votedFor rf ∧
    log rf' = log rf ∧ state rf' = Follower ∧
    net_servers (cf_net cf') !! inr (Z.of_nat i) = Some (Some (length (net_srvs (cf_net cf)))).
Proof.
  intros Hw Hi Hrf Hs Hst Hme Hnd Hlen Hfresh Hknown Hsnap.
  destruct (crash1_spec i cf rf Hw Hi Hrf Hs) as (cf1 & H1 & Hw1 & Hc1 & Hh1 & Hr1 & En & Ee & El & Ends & Esrv).
  unfold start1. rewrite H1. cbn [mbind outcome_bind].
  destruct (makeEnds_spec names 0 (cf_net cf1) Hnd) as (n2 & H2 & Es2 & He2); [by rewrite Ends|].
  change (cf_net (set_endnames _ cf1)) with (cf_net cf1). rewrite H2. cbn [mbind outcome_bind].
  assert (wired (set_net n2 (set_endnames (<[i := Some names]> (cf_endnames cf1)) cf1))) as Hw2.
  { apply wired_rename; try done; [lia|by rewrite Hc1, decide_True|lia|]. intros a b e Hab Hin.
    apply (Hfresh _ Hin), (Hknown a b). unfold endname_at in Hab |- *. by rewrite Ee in Hab. }
  set (cf2 := set_logs _ _ _ _). assert (held cf2 i = Some (persister rf)) as Hh2 by exact Hh1.
  rewrite Hh2. replace (Copy (persister rf)) with (persister rf) by (by destruct (persister rf)).
  assert (∃ cf3, (if bool_decide (ReadSnapshot (persister rf) = []) then mret (persister rf, cf2)
     else '(err, cf) ← ingestSnap i (ReadSnapshot (persister rf)) (-1) cf2;
          if err : bool then Panicked else mret (persister rf, cf)) = Done (persister rf, cf3) ∧
    cf_n cf3 = cf_n cf1 ∧ cf_connected cf3 = cf_connected cf1 ∧ cf_rafts cf3 = cf_rafts cf1 ∧
    cf_endnames cf3 = cf_endnames cf2 ∧ cf_net cf3 = n2) as (cf3 & -> & E1 & E2 & E3 & E4 & E5).
  { unfold ReadSnapshot. rewrite clone_id. destruct Hsnap as [->|[[li xlog] Hx]]; [by eexists|].
    destruct (bool_decide_reflect (snapshot (persister rf) = [])) as [_|Hne]; [by eexists|].
    unfold ingestSnap. rewrite bool_decide_eq_false_2, Hx by done. cbn. by eexists. }
  cbn [mbind outcome_bind]. rewrite E1, En.
  destruct (Make_recovers (Z.of_nat (cf_n cf)) c rf Hst) as (rf' & Hmk & _ & _ & _ & Ht & Hv & Hl & Hf & _).
  rewrite Hme in Hmk. rewrite Hmk. cbn [mbind outcome_bind]. eexists _, rf'. split; [reflexivity|].
  split; [|split; [|split; [|split; [|split_and!; try done]]]].
  - eapply wired_ext; [exact Hw2|done|done|done|]. cbn. by rewrite E5.
  - intros j. unfold conn at 1. cbn. rewrite E2. apply Hc1.
  - intros j Hj. cbn. rewrite list_lookup_insert_ne, E3 by done. by apply Hr1.
  - cbn. apply list_lookup_insert_eq. rewrite E3, El. by eapply lookup_lt_Some.
  - cbn. rewrite lookup_insert_eq, E5, Es2, Esrv. done.
Qed.

End restart.

(** ** Leaders *)

Section leaders.
Implicit Types obs : list (nat * Z * bool).

Definition leads (t : Z) (x : nat * Z * bool) : Prop := x.2 = true ∧ x.1.2 = t.

#[export] Instance leads_dec t x : Decision (leads t x).
Proof. unfold leads. apply _. Defined.

Lemma leadersByTerm_lookup obs t :
  leadersByTerm obs !! t =
    if decide (filter (leads t) obs = []) then None else Some ((filter (leads t) obs).*1.*1).
Proof.
  unfold leadersByTerm. induction obs as [|[[i t'] b] obs IH] using rev_ind; [done|].
  rewrite foldl_app. cbn [foldl]. rewrite filter_app. destruct (decide (leads t (i, t', b))) as [[Hb Ht]|Hn].
  - cbn in Hb, Ht. subst. rewrite lookup_insert_eq, IH. rewrite filter_cons_True, filter_nil by done.
    rewrite (decide_False (P := _ ++ [(i, t, true)] = [])) by (by intros [_ ?]%app_eq_nil).
    rewrite !fmap_app. case_decide as E; [by rewrite E|done].
  - rewrite filter_cons_False, filter_nil, app_nil_r by done. destruct b; [|done].
    rewrite lookup_insert_ne; [done|]. intros ->. apply Hn. done.
Qed.

Lemma max_term (xs : list (Z * list nat)) :
  let top := foldr (λ x t, if t <? x.1 then x.1 else t) (-1) xs in
  (∀ x, x ∈ xs → x.1 <= top) ∧ (top = -1 ∨ ∃ x, x ∈ xs ∧ x.1 = top).
Proof.
  induction xs as [|x xs [IH1 IH2]]; cbn; [split; [by intros x ?%not_elem_of_nil|by left]|].
  set (t := foldr _ _ xs) in *. destruct (Z.ltb_spec t x.1) as [Hlt|Hge].
  - split; [|right; exists x; split; [by left|done]]. intros y [->|Hy]%elem_of_cons; [lia|].
    specialize (IH1 _ Hy). lia.
  - split; [intros y [->|Hy]%elem_of_cons; [lia|auto]|].
    destruct IH2 as [?|(y & ? & ?)]; [by left|]. right. exists y. split; [by right|done].
Qed.

Abbreviation twice := (λ x : Z * list nat, 1 <? Z.of_nat (length x.2)).

Lemma some_term_twice obs :
  existsb twice (map_to_list (leadersByTerm obs)) = true → ∃ t, (1 < length (filter (leads t) obs))%nat.
Proof.
  intros ([t l] & Hin%list_elem_of_In%elem_of_map_to_list & Hlen%Z.ltb_lt)%existsb_exists.
  exists t. rewrite leadersByTerm_lookup in Hin. case_decide; [done|]. injection Hin as <-. cbn in Hlen.
  rewrite !length_fmap in Hlen. lia.
Qed.

Lemma no_term_twice obs :
  existsb twice (map_to_list (leadersByTerm obs)) = false → ∀ t, (length (filter (leads t) obs) <= 1)%nat.
Proof.
  intros Hex t. destruct (leadersByTerm obs !! t) as [l|] eqn:El.
  - destruct (decide (1 < Z.of_nat (length l))) as [Hl|Hl].
    + assert (existsb twice (map_to_list (leadersByTerm obs)) = true); [|congruence].
      apply existsb_exists. exists (t, l). split; [by apply list_elem_of_In, elem_of_map_to_list|by apply Z.ltb_lt].
    + rewrite leadersByTerm_lookup in El. case_decide; [done|]. injection El as <-. rewrite !length_fmap in Hl. lia.
  - rewrite leadersByTerm_lookup in El. case_decide as E; [|done]. rewrite E. cbn. lia.
Qed.

Lemma filter_single (P : nat * Z * bool → Prop) `{!∀ x, Decision (P x)} obs x y :
  (length (filter P obs) <= 1)%nat → x ∈ obs → y ∈ obs → P x → P y → x = y.
Proof.
  intros Hl Hx Hy Px Py. assert (x ∈ filter P obs ∧ y ∈ filter P obs) as [Hx' Hy'].
  { rewrite !list_elem_of_filter. done. }
  destruct (filter P obs) as [|z [|z' l]]; cbn in Hl; [by apply not_elem_of_nil in Hx'| |lia].
  apply list_elem_of_singleton in Hx', Hy'. congruence.
Qed.

Context {T V App : Type}.

Lemma oneLeader_spec (cf : @config T V App) obs :
  observe cf = Done obs → (∀ x, x ∈ obs → 0 <= x.1.2) →
  match oneLeader cf with
  | Panicked => ∃ t, (1 < length (filter (leads t) obs))%nat
  | Done None => ∀ i t, (i, t, true) ∉ obs
  | Done (Some i) => ∃ t, (i, t, true) ∈ obs ∧
      ∀ j t', (j, t', true) ∈ obs → t' <= t ∧ (t' = t → j = i)
  | Blocked => False
  end.
Proof.
  intros Hobs Hpos. unfold oneLeader. rewrite Hobs. cbn [mbind outcome_bind].
  set (ls := leadersByTerm obs). pose proof (leadersByTerm_lookup obs) as Hls. fold ls in Hls.
  destruct (existsb _ (map_to_list ls)) eqn:Eex; [by apply some_term_twice|].
  pose proof (no_term_twice obs Eex) as Hone.
  assert (∀ i t, (i, t, true) ∈ obs → is_Some (ls !! t)) as Hin.
  { intros i t Hi. rewrite Hls. case_decide as E; [|done]. exfalso.
    assert ((i, t, true) ∈ filter (leads t) obs) as H by (by apply list_elem_of_filter).
    rewrite E in H. by apply not_elem_of_nil in H. }
  destruct (bool_decide_reflect (ls = ∅)) as [E|Hne].
  { intros i t [l Hl]%Hin. by rewrite E in Hl. }
  destruct (max_term (map_to_list ls)) as [Hmax Htop]. set (top := foldr _ _ _) in *.
  destruct Htop as [Htop|([t l] & Hx & Et)].
  { exfalso. apply map_choose in Hne as (t & l & Hl). pose proof (Hmax (t, l)) as Hm.
    rewrite elem_of_map_to_list in Hm. specialize (Hm Hl). cbn in Hm. rewrite Hls in Hl. case_decide as E; [done|].
    destruct (filter (leads t) obs) as [|x f] eqn:Ef; [done|].
    assert (x ∈ filter (leads t) obs) as [[_ Hxt] Hxo]%list_elem_of_filter by (rewrite Ef; by left).
    specialize (Hpos _ Hxo). lia. }
  cbn in Et. apply elem_of_map_to_list in Hx. rewrite <- Et, Hx. cbn. rewrite Hls in Hx.
  case_decide as E; [done|]. injection Hx as <-.
  destruct (filter (leads t) obs) as [|[[i t0] b] f] eqn:Ef; [done|]. cbn.
  assert ((i, t0, b) ∈ filter (leads t) obs) as [[Hb Ht0] Hio]%list_elem_of_filter by (rewrite Ef; by left).
  cbn in Hb, Ht0. subst b t0. exists t. split; [done|]. intros j t' Hj. split.
  - destruct (Hin _ _ Hj) as [l' Hl']. rewrite Et. apply (Hmax (t', l')). by apply elem_of_map_to_list.
  - intros ->. assert ((j, t, true) = (i, t, true)) as [= ->]; [|done].
    by eapply (filter_single (leads t) obs).
Qed.

End leaders.

(** ** The theorems *)

Section theorems.
Context {T V App : Type}.

(** C27. Started on empty logs, the appliers accept a sequence of deliveries exactly
    if no two servers ever apply different commands at one index and every server
    applies an index only after the one before it; on anything else the process
    ends with an error. *)
Theorem appliers_accept_iff (cf0 : @config T V App) ds :
  (∀ i li, cf_logs cf0 !! i = Some li → li = ∅) → (∀ d, d ∈ ds → (d.1 < length (cf_logs cf0))%nat) →
  ((∃ cf, deliverAll ds cf0 = Done cf) ↔ agreeing ds ∧ in_order ds) ∧
  (deliverAll ds cf0 = Panicked ↔ ¬ (agreeing ds ∧ in_order ds)).
Proof.
  intros H0 Hr. destruct (deliverAll_spec ds cf0 H0 Hr) as [(Ha & Ho & cf & E & _)|[Hbad E]]; rewrite E.
  - split; split; [done|eauto|done|intros Hn; by destruct Hn].
  - split; split; [by intros [cf ?]|done|done|done].
Qed.

(** A sequence of [connect]s (true) and [disconnect]s. *)
Fixpoint switchAll (ops : list (bool * nat)) (cf : @config T V App) : outcome (@config T V App) :=
  match ops with
  | [] => mret cf
  | (b, i) :: ops' => cf ← (if b : bool then connect i cf else disconnect i cf); switchAll ops' cf
  end.

(** [connect] and [disconnect] keep the network in step with the table of
    connected servers: whatever sequence of them is executed, the end from [i] to
    [j] is enabled exactly if both [i] and [j] are connected, and the calls never
    panic. *)
Theorem connections_in_step (cf : @config T V App) (ops : list (bool * nat)) :
  wired cf → (∀ i, (i < cf_n cf)%nat → is_Some (mjoin (cf_endnames cf !! i))) →
  (∀ o, o ∈ ops → (o.2 < cf_n cf)%nat) →
  ∃ cf', switchAll ops cf = Done cf' ∧ wired cf'.
Proof.
  intros Hw Hn Hr. revert cf Hw Hn Hr. induction ops as [|[b i] ops IH]; intros cf Hw Hn Hr; cbn [switchAll]; [by exists cf|].
  assert (i < cf_n cf)%nat as Hi by (apply (Hr (b, i)); by left).
  assert (∃ cf1, (if b then connect i cf else disconnect i cf) = Done cf1 ∧ wired cf1 ∧ cf_n cf1 = cf_n cf ∧
    cf_endnames cf1 = cf_endnames cf) as (cf1 & -> & Hw1 & En & Ee).
  { destruct b.
    - destruct (connect_wired i cf Hw Hi (Hn i Hi)) as (cf1 & H & ? & _). exists cf1. split_and!; [done|done|..];
        unfold connect in H; apply bind_Done in H as (was & _ & H); apply bind_Done in H as (n1 & _ & H); apply bind_Done in H as (n2 & _ & H);
        by injection H as <-.
    - destruct (disconnect_wired i cf Hw Hi) as (cf1 & H & ? & _). exists cf1. split_and!; [done|done|..];
        unfold disconnect in H; apply bind_Done in H as (was & _ & H); apply bind_Done in H as (n1 & _ & H); apply bind_Done in H as (n2 & _ & H);
        by injection H as <-. }
  apply IH; [done|by rewrite En, Ee|]. intros o Ho. rewrite En. apply Hr. by right.
Qed.

(** A round of [checkOneLeader] fails exactly when two connected peers lead the
    same term, finds nobody exactly when no connected peer leads, and otherwise
    returns the leader of the highest term, the only one of that term. *)
Theorem checkOneLeader_round (cf : @config T V App) obs :
  observe cf = Done obs → (∀ x, x ∈ obs → 0 <= x.1.2) →
  match oneLeader cf with
  | Panicked => ∃ t, (1 < length (filter (leads t) obs))%nat
  | Done None => ∀ i t, (i, t, true) ∉ obs
  | Done (Some i) => ∃ t, (i, t, true) ∈ obs ∧
      ∀ j t', (j, t', true) ∈ obs → t' <= t ∧ (t' = t → j = i)
  | Blocked => False
  end.
Proof. apply oneLeader_spec. Qed.

(** Restarting a server, with fresh names for its ends: [start1] returns, the new
    peer has the term, the vote and the log of the old one and is a follower, the
    network leads to the new server, only this server is disconnected, the other
    peers are not touched, and the ends stay in step with the connections. *)
Theorem start1_recovers `{codec : RaftCodec, snaps : SnapCodec} (cf : @config T V App) i names srv c rf :
  wired cf → (i < cf_n cf)%nat → cf_rafts cf !! i = Some (Some rf) → (i < length (cf_saved cf))%nat →
  stable rf → me rf = Z.of_nat i → NoDup names → length names = cf_n cf →
  (∀ e, e ∈ names → inl e ∉ net_ends (cf_net cf)) →
  (∀ a b e, endname_at cf a b = Done e → inl e ∈ net_ends (cf_net cf)) →
  (snapshot (persister rf) = [] ∨ ∃ x, snap_decode (snapshot (persister rf)) = Some x) →
  ∃ cf' rf', start1 i names srv c cf = Done cf' ∧ wired cf' ∧
    (∀ j, conn cf' j = if decide (j = i) then false else conn cf j) ∧
    (∀ j, j ≠ i → cf_rafts cf' !! j = cf_rafts cf !! j) ∧
    cf_rafts cf' !! i = Some (Some rf') ∧ currentTerm rf' = currentTerm rf ∧ votedFor rf' = votedFor rf ∧
    log rf' = log rf ∧ state rf' = Follower ∧
    net_servers (cf_net cf') !! inr (Z.of_nat i) = Some (Some (length (net_srvs (cf_net cf)))).
Proof. apply start1_spec. Qed.

End theorems.

(** ** A tester of two servers for the witnesses *)

Definition unit_gob : Gob unit unit := Build_Gob _ _ (λ _, tt) (λ _, tt) (λ _, None) (λ _ _, None).

Definition two_net : @net name _ _ unit unit unit :=
  match happens (G := unit_gob) [EMakeEnd (inl "00"); EMakeEnd (inl "01"); EMakeEnd (inl "10"); EMakeEnd (inl "11")]
          (MakeNetwork [] tt) with
  | Done n => n
  | _ => MakeNetwork [] tt
  end.

(** A peer in a term, leader or not. *)
Definition peer (i term : Z) (st : RaftState) : Raft :=
  mkRaft i 2 0 0 0 0 st term (-1) 0 0 [] [] makeEmptyLog 0 0 false MakePersister.

Definition two_servers : @config unit unit unit :=
  mkConfig two_net 2 [Some (peer 0 4 Leader); Some (peer 1 6 Leader)] [false; false] [None; None]
    [Some ["00"; "01"]; Some ["10"; "11"]] [∅; ∅] [0; 0] 0 0 0 0 0 0.

(** A snapshot format: the bits of a numbering. *)
#[export] Instance bit_snaps : SnapCodec := {|
  snap_encode i xlog := pos_bytes (encode (i, xlog));
  snap_decode bs := bytes_pos bs ≫= decode;
|}.

#[export] Instance bit_snaps_laws : SnapCodecLaws bit_snaps.
Proof.
  split; cbn.
  - intros. rewrite bytes_pos_bytes. apply decode_encode.
  - intros i xlog. by destruct (pos_bytes_cons (encode (i, xlog))) as (b & bs & ->).
Qed.

Definition command_msg (index : Z) (v : Iface) : ApplyMsg := mkApplyMsg true v index false [] 0 0.

(** Both servers apply the same two commands, the second a little later. *)
Definition two_deliveries : list (nat * ApplyMsg) :=
  [(0%nat, command_msg 1 (IInt 7)); (0%nat, command_msg 2 (IInt 8)); (1%nat, command_msg 1 (IInt 7));
   (1%nat, command_msg 2 (IInt 8))].

Lemma appliers_accept_iff_witness : agreeing two_deliveries ∧ in_order two_deliveries.
Proof.
  refine (proj1 (proj1 (appliers_accept_iff two_servers two_deliveries _ _)) _).
  - intros [|[|i]] li Hi; cbn in Hi; by simplify_eq.
  - intros d Hd. unfold two_deliveries in Hd. repeat (apply elem_of_cons in Hd as [->|Hd]; [cbn; lia|]).
    by apply not_elem_of_nil in Hd.
  - eexists. vm_compute. reflexivity.
Defined.

Lemma two_names i j e :
  endname_at two_servers i j = Done e →
  (i, j, e) ∈ [(0, 0, "00"); (0, 1, "01"); (1, 0, "10"); (1, 1, "11")]%nat.
Proof.
  intros H. destruct i as [|[|i]]; [| |done]; (destruct j as [|[|j]]; [| |done]);
    vm_compute in H; injection H as <-; set_solver.
Qed.

Lemma two_servers_wired : wired two_servers.
Proof.
  split; try done.
  - intros [|[|i]] row Hi; cbn in Hi; by simplify_eq.
  - intros i j i' j' e H%two_names H'%two_names.
    repeat (apply elem_of_cons in H as [H|H]; [simplify_eq|]); try by apply not_elem_of_nil in H.
    all: repeat (apply elem_of_cons in H' as [H'|H']; [by simplify_eq|]); by apply not_elem_of_nil in H'.
  - intros [|[|i]] Hi; done.
  - intros i j e H%two_names. repeat (apply elem_of_cons in H as [H|H]; [simplify_eq; vm_compute; reflexivity|]).
    by apply not_elem_of_nil in H.
Qed.

Lemma connections_in_step_witness :
  ∃ cf', switchAll [(true, 0%nat); (true, 1%nat); (false, 0%nat)] two_servers = Done cf' ∧ wired cf'.
Proof.
  apply (connections_in_step two_servers [(true, 0%nat); (true, 1%nat); (false, 0%nat)] two_servers_wired).
  - intros [|[|i]] Hi; [by eexists|by eexists|cbn in Hi; lia].
  - intros o Ho. repeat (apply elem_of_cons in Ho as [->|Ho]; [cbn; lia|]). by apply not_elem_of_nil in Ho.
Defined.

(** The first server has persisted its term and a snapshot of two entries. *)
Definition two_persisted : @config unit unit unit :=
  set_rafts [Some (persist (set_persister (mkPersister [] (snap_encode 1 [IInt (-1); IInt 7])) (peer 0 4 Leader)));
             Some (peer 1 6 Leader)] [None; None] two_servers.

Lemma start1_recovers_witness :
  ∃ cf' rf', start1 0 ["20"; "21"] (mkServer ∅ 0) (mkClock 5 6) two_persisted = Done cf' ∧
    cf_rafts cf' !! 0%nat = Some (Some rf') ∧ currentTerm rf' = 4 ∧ state rf' = Follower.
Proof.
  destruct (start1_recovers two_persisted 0 ["20"; "21"] (mkServer ∅ 0) (mkClock 5 6)
    (persist (set_persister (mkPersister [] (snap_encode 1 [IInt (-1); IInt 7])) (peer 0 4 Leader))))
    as (cf' & rf' & H1 & _ & _ & _ & H2 & H3 & _ & _ & H4 & _).
  - by eapply (wired_ext two_servers two_persisted two_servers_wired).
  - cbn. lia.
  - done.
  - cbn. lia.
  - apply persist_stable.
  - done.
  - by apply (bool_decide_unpack _).
  - done.
  - intros e He. repeat (apply elem_of_cons in He as [->|He]; [by apply (bool_decide_unpack _)|]).
    by apply not_elem_of_nil in He.
  - intros a b e H%two_names. repeat (apply elem_of_cons in H as [H|H]; [simplify_eq; by apply (bool_decide_unpack _)|]).
    by apply not_elem_of_nil in H.
  - right. exists (1, [IInt (-1); IInt 7]). vm_compute. reflexivity.
  - exists cf', rf'. split; [exact H1|]. split; [exact H2|]. split; [exact H3|exact H4].
Defined.

Definition two_connected : @config unit unit unit := set_connected [true; true] two_servers.

Lemma checkOneLeader_round_witness :
  oneLeader two_connected = Done (Some 1%nat) ∧
  ∃ t, (1%nat, t, true) ∈ [(0%nat, 4, true); (1%nat, 6, true)] ∧
    ∀ j t', (j, t', true) ∈ [(0%nat, 4, true); (1%nat, 6, true)] → t' <= t ∧ (t' = t → j = 1%nat).
Proof.
  split; [vm_compute; reflexivity|].
  pose proof (checkOneLeader_round two_connected [(0%nat, 4, true); (1%nat, 6, true)]) as H.
  assert (oneLeader two_connected = Done (Some 1%nat)) as E by (vm_compute; reflexivity).
  rewrite E in H. apply H; [vm_compute; reflexivity|].
  intros x Hx. repeat (apply elem_of_cons in Hx as [->|Hx]; [cbn; lia|]). by apply not_elem_of_nil in Hx.
Defined.
