(* ===== verification/RaftTested.v ===== *)
(** * A Raft cluster in its test

    The deliveries of a cluster, given to the appliers of the test harness: in the
    runs of RaftAgree.v they are accepted, so that the test never ends with an
    apply error. *)

From stdpp Require Import base list numbers gmap strings.
From Stdlib Require Import Lia.
From S2P Require Import Prelude RaftLog Persister RaftCore RaftLocal RaftCluster RaftElection RaftTotal RaftMatching.
From S2P Require Import RaftCommit RaftCommitted RaftAgree RaftRuns Labrpc RaftTester TesterSafety.

(** What the appliers get, with servers as positions of the tester's tables. *)
Definition deliveries (ms : list (Z * ApplyMsg)) : list (nat * ApplyMsg) :=
  (λ p, (Z.to_nat p.1, p.2)) <$> ms.

Section tested.
Context `{laws : !RaftCodecLaws codec}.

(** Every server has delivered everything up to [lastApplied], each index behind
    the one before. *)
Record ordered (g : Cluster) : Prop := {
  od_servers s rf : servers g !! s = Some rf → 0 <= s < size g;
  od_applied s m : (s, m) ∈ applied g → 0 <= s < size g;
  od_done s rf i : servers g !! s = Some rf → 1 <= i <= lastApplied rf →
    ∃ m, (s, m) ∈ applied g ∧ CommandValid m = true ∧ CommandIndex m = i;
  od_before k s m : applied g !! k = Some (s, m) → 1 < CommandIndex m →
    ∃ l m', (l < k)%nat ∧ applied g !! l = Some (s, m') ∧ CommandValid m' = true ∧
      CommandIndex m' = CommandIndex m - 1;
}.

Lemma ordered_quiet g g' s rf rf' :
  ordered g → size g' = size g → servers g !! s = Some rf → servers g' = <[s := rf']> (servers g) →
  applied g' = applied g → lastApplied rf' <= lastApplied rf → ordered g'.
Proof.
  intros [H1 H2 H3 H4] Hsz Hs Hsv Ha Hl. split; rewrite ?Hsz, ?Ha, ?Hsv; try done.
  - intros x r [[<- <-]|[_ ?]]%lookup_insert_Some; [by eapply H1|by eapply H1].
  - intros x r i [[<- <-]|[_ ?]]%lookup_insert_Some Hi; [apply (H3 s rf); [done|lia]|by eapply H3].
Qed.

Lemma ordered_deliver g g' s rf rf' m :
  ordered g → size g' = size g → servers g !! s = Some rf → servers g' = <[s := rf']> (servers g) →
  applied g' = applied g ++ [(s, m)] → CommandValid m = true →
  lastApplied rf' = lastApplied rf + 1 → CommandIndex m = lastApplied rf + 1 → ordered g'.
Proof.
  intros [H1 H2 H3 H4] Hsz Hs Hsv Ha Hv Hl Hm. split; rewrite ?Hsz, ?Ha, ?Hsv; try done.
  - intros x r [[<- <-]|[_ ?]]%lookup_insert_Some; [by eapply H1|by eapply H1].
  - intros x m' [?|[= -> ->]%list_elem_of_singleton]%elem_of_app; [by eapply H2|by eapply H1].
  - intros x r i Hx Hi.
    assert ((∃ m', (x, m') ∈ applied g ∧ CommandValid m' = true ∧ CommandIndex m' = i) ∨
            x = s ∧ i = CommandIndex m) as [(m' & ? & ? & ?)|[-> ->]].
    { apply lookup_insert_Some in Hx as [[<- <-]|[_ ?]]; [|left; by eapply H3].
      destruct (decide (i = lastApplied rf + 1)) as [->|]; [right; auto|left]. apply (H3 s rf); [done|lia]. }
    + exists m'. split_and!; [apply elem_of_app; by left|done|done].
    + exists m. split_and!; [apply elem_of_app; right; by left|done|done].
  - assert (∀ l x m', applied g !! l = Some (x, m') → (applied g ++ [(s, m)]) !! l = Some (x, m')) as Hold
      by (intros; by apply lookup_app_l_Some).
    intros k x m' [[_ Hk]|[-> [= <- <-]]]%lookup_snoc_Some Hi.
    + destruct (H4 _ _ _ Hk Hi) as (l & m1 & ? & ? & ? & ?). exists l, m1. auto.
    + destruct (H3 s rf (lastApplied rf)) as (m1 & Hin & ? & ?); [done|lia|].
      apply list_elem_of_lookup in Hin as [l Hlk]. exists l, m1.
      split_and!; [by eapply lookup_lt_Some|by apply Hold|done|lia].
Qed.

Lemma exec_ordered l g g' :
  plain l → election_inv g → ordered g → (∀ s rf, servers g !! s = Some rf → Index0 (log rf) <= lastApplied rf) →
  exec l g = Done g' → ordered g'.
Proof.
  intros Hp He Ho H0 H. pose proof (exec_size _ _ _ H) as Hsz.
  destruct (exec_applied l g g' Hp H) as (s & rf & rf' & Hs & Hsv & _ & [[Ha Hl]|(m & Ha & Hv & Hl & Hm)]).
  - apply (ordered_quiet g g' s rf rf'); try done. destruct Hl as [->|(c & _ & Hmk)]; [done|].
    destruct (ei_servers _ He _ _ Hs) as (Hme & _ & _ & Hst).
    replace (Copy (persister rf)) with (persister rf) in Hmk by (by destruct (persister rf)).
    destruct (Make_recovers (size g) c rf Hst) as (r & Hmk' & _ & _ & _ & _ & _ & _ & _ & _ & Hla & _).
    rewrite Hme in Hmk'. assert (r = rf') as -> by congruence. rewrite Hla. by eapply H0.
  - by apply (ordered_deliver g g' s rf rf' m).
Qed.

Lemma ordered_init n c g : initCluster n c = Done g → ordered g.
Proof.
  intros H. pose proof (election_inv_init _ _ _ H) as He. unfold initCluster in H. go_inv.
  assert (∀ ids m, makeServers n c ids = Done m → ∀ s rf, m !! s = Some rf → lastApplied rf = 0) as Hm.
  { induction ids as [|i ids IH]; intros m Hmk s r Hr; cbn in Hmk; go_inv; [done|].
    apply lookup_insert_Some in Hr as [[_ <-]|[_ Hr]]; [|by eapply IH].
    unfold Make, ReadRaftState in H. cbn in H. by go_inv. }
  split; cbn; try done.
  - intros s rf Hs. by destruct (ei_servers _ He _ _ Hs) as (_ & _ & ? & _).
  - by intros s m ?%not_elem_of_nil.
  - intros s rf i Hs. rewrite (Hm _ _ H0 _ _ Hs). lia.
Qed.

Lemma reach_ordered n g : reach plain n g → ordered g.
Proof.
  intros Hr. assert ((∃ G, log_inv G g) ∧ ordered g) as [_ ?]; [|done]. revert g Hr.
  apply (reach_invariant plain n (λ g, (∃ G, log_inv G g) ∧ ordered g)).
  - intros c g H. split; [eauto using log_inv_init|by eapply ordered_init].
  - intros l g g' Hl [[G Hi] Ho] H. split.
    + destruct (exec_log_inv G l g g' Hl Hi H) as (G' & _ & _ & ?). eauto.
    + eapply (exec_ordered l g g'); [done|apply Hi|done| |done].
      intros s rf Hs. apply (lv_peers _ _ Hi _ _ Hs).
Qed.

Lemma reach_size n g : reach plain n g → size g = n.
Proof.
  revert g. apply (reach_invariant plain n (λ g, size g = n)).
  - unfold initCluster. intros c g H. by go_inv.
  - intros l g g' _ <- H. by eapply exec_size.
Qed.

Lemma deliveries_ordered g : ordered g → in_order (deliveries (applied g)).
Proof.
  intros Ho k i m Hk _ Hi. unfold deliveries in *.
  apply list_lookup_fmap_Some in Hk as ([s m0] & [= -> ->] & Hk).
  destruct (od_before _ Ho _ _ _ Hk Hi) as (l & m' & ? & Hl & ? & ?).
  exists l, m'. split_and!; try done. by rewrite list_lookup_fmap, Hl.
Qed.

(** C8. The test harness accepts the cluster: given to the appliers in the order in
    which they are sent, the deliveries of all servers of a cluster never end the
    test with an error, whatever crashes, is lost or comes late; and afterwards
    every server's copy holds exactly what that server delivered. *)
Theorem cluster_passes_appliers {T W App : Type} n g (cf0 : @config T W App) :
  prompt_reach n g → (∀ i li, cf_logs cf0 !! i = Some li → li = ∅) → n <= Z.of_nat (length (cf_logs cf0)) →
  ∃ cf, deliverAll (deliveries (applied g)) cf0 = Done cf ∧ copied (deliveries (applied g)) cf.
Proof.
  intros Hr H0 Hn. pose proof (prompt_reach_plain _ _ Hr) as Hp.
  pose proof (reach_size _ _ Hp) as Hsz. pose proof (reach_ordered _ _ Hp) as Ho.
  assert (agreeing (deliveries (applied g))) as Ha.
  { intros d d' ([s m] & -> & Hd)%list_elem_of_fmap ([s' m'] & -> & Hd')%list_elem_of_fmap _ _ E. cbn in *.
    by rewrite (deliveries_agree n g s s' m m'). }
  destruct (deliverAll_spec (deliveries (applied g)) cf0) as [(_ & _ & cf & E & Hc & _)|[Hbad _]]; [done| |eauto|].
  - intros d ([s m] & -> & Hd)%list_elem_of_fmap. cbn. pose proof (od_applied _ Ho _ _ Hd). lia.
  - exfalso. apply Hbad. split; [done|by apply deliveries_ordered].
Qed.
End tested.

(** ** The run of RaftRuns.v with two leaders *)

Lemma cluster_passes_appliers_witness :
  ∃ cf, deliverAll (deliveries (applied (after 3 takeover_run)))
      (set_logs [∅; ∅; ∅] [0; 0; 0] 0 two_servers) = Done cf ∧
    copied (deliveries (applied (after 3 takeover_run))) cf.
Proof.
  apply (cluster_passes_appliers 3 (after 3 takeover_run)).
  - exact takeover_reach.
  - intros [|[|[|i]]] li Hi; cbn in Hi; by simplify_eq.
  - cbn. lia.
Defined.
