(* ===== verification/TesterAgree.v ===== *)
(** * Making a test and reaching agreement (src/src/raft/config.go)

    [make_config] builds the full mesh; [one] and [wait] return only what enough
    servers have applied, and [one] always returns. *)

From stdpp Require Import base list numbers gmap strings relations.
From Stdlib Require Import Lia.
From S2P Require Import Prelude Labrpc RaftLog Persister RaftCore RaftLocal RaftTester TesterSafety.

(** ** Counting commits *)

Section commits.
Context {T V App : Type}.
Abbreviation config := (@config T V App).
Implicit Types (cf : config) (logs : list (gmap Z Iface)).

(** The servers that have applied [cmd] at [index]. *)
Definition applied_at (index : Z) (cmd : Iface) logs : list (gmap Z Iface) :=
  filter (λ m, m !! index = Some cmd) logs.

Lemma nCommittedLoop_spec index logs count cmd nd cmd1 :
  nCommittedLoop index logs count cmd = Done (nd, cmd1) → 0 <= count →
  (nd = count + Z.of_nat (length (applied_at index cmd1 logs)) ∧ (0 < count → cmd1 = cmd)) ∧
  ∀ m v, m ∈ logs → m !! index = Some v → v = cmd1.
Proof.
  revert count cmd. induction logs as [|m logs IH]; intros count cmd H Hc; cbn in H.
  { injection H as <- <-. cbn. split; [split; [lia|done]|]. by intros m v ?%not_elem_of_nil. }
  destruct (m !! index) as [v|] eqn:Em.
  - destruct (Z.ltb_spec 0 count) as [Hpos|Hz]; cbn in H.
    + destruct (bool_decide_reflect (cmd = v)) as [<-|]; [|done]. cbn in H.
      apply IH in H as [[-> Heq] Hall]; [|lia]. pose proof (Heq ltac:(lia)) as ->.
      unfold applied_at in *. rewrite filter_cons_True by done. cbn. split; [split; [lia|done]|].
      intros m' v [->|Hin]%elem_of_cons Hv; [congruence|eauto].
    + apply IH in H as [[-> Heq] Hall]; [|lia]. pose proof (Heq ltac:(lia)) as ->.
      unfold applied_at in *. rewrite filter_cons_True by done. cbn. split; [split; [lia|lia]|].
      intros m' w [->|Hin]%elem_of_cons Hv; [congruence|eauto].
  - apply IH in H as [[-> Heq] Hall]; [|lia]. unfold applied_at in *. rewrite filter_cons_False by congruence.
    split; [done|]. intros m' v [->|Hin]%elem_of_cons Hv; [congruence|eauto].
Qed.

(** The number and the command that [nCommitted] returns, and that nobody has
    applied anything else at the index. *)
Lemma nCommitted_spec index cf nd cmd :
  nCommitted index cf = Done (nd, cmd) →
  nd = Z.of_nat (length (applied_at index cmd (cf_logs cf))) ∧
  ∀ m v, m ∈ cf_logs cf → m !! index = Some v → v = cmd.
Proof. intros H. apply nCommittedLoop_spec in H as [[-> _] ?]; [|lia]. split; [lia|done]. Qed.

Lemma nCommittedLoop_not_blocked index logs count cmd : nCommittedLoop index logs count cmd ≠ Blocked.
Proof.
  revert count cmd. induction logs as [|m logs IH]; intros count cmd; cbn; [done|].
  destruct (m !! index); [|apply IH]. destruct (_ && _); [done|apply IH].
Qed.
End commits.

(** ** one and wait *)

Section agreement.
Context {codec : RaftCodec}.
Context {T V App : Type}.
Abbreviation config := (@config T V App).
Variable world : nat → config → config.
Variable clock : nat → Z.
Implicit Types cf : config.

(** At least [n] servers have applied the command, and no server another one. *)
Definition agreed_on (index : Z) (cmd : Iface) (n : Z) cf : Prop :=
  n <= Z.of_nat (length (applied_at index cmd (cf_logs cf))) ∧
  ∀ m v, m ∈ cf_logs cf → m !! index = Some v → v = cmd.

Lemma wait_spec index n startTerm cf cmd cf' :
  wait world index n startTerm cf = Done (cmd, cf') →
  agreed_on index cmd n cf' ∨
  cmd = IInt (-1) ∧ -1 < startTerm ∧ movedOn startTerm (cf_rafts cf') = Done true.
Proof.
  unfold wait. intros ([go cf1] & Hl & H)%bind_Done. destruct go.
  - left. apply bind_Done in H as ([nd cmd1] & Hn & H). destruct (Z.ltb_spec nd n); [done|].
    injection H as <- <-. apply nCommitted_spec in Hn as [-> ?]. by split.
  - right. injection H as <- <-. split; [done|]. revert Hl. generalize 0%nat, 30%nat. intros k iters.
    revert k cf. induction iters as [|iters IH]; intros k cf; cbn; [done|].
    intros ([nd cmd1] & _ & H)%bind_Done. destruct (n <=? nd); [done|].
    destruct (Z.ltb_spec (-1) startTerm); [|by apply IH in H].
    apply bind_Done in H as (moved & Hm & H). destruct moved; [|by apply IH in H].
    injection H as <-. by split.
Qed.

(** Between two looks the peers and the network change the test. *)
Definition elapses cf cf' : Prop := ∃ k, cf' = world k cf.

(** [one] calls [Start] of a connected peer of the test, with the answer [res]. *)
Definition asks (c : Clock) (cmd : Iface) (res : Z * Z * bool) cf cf' : Prop :=
  ∃ i rf rf' out, cf_connected cf !! i = Some true ∧ cf_rafts cf !! i = Some (Some rf) ∧
    Start c cmd rf = Done (rf', res, out) ∧
    cf' = set_rafts (<[i := Some rf']> (cf_rafts cf)) (cf_saved cf) cf.

(** What [one] and its surroundings do to the test. *)
Definition proceeds (c : Clock) (cmd : Iface) cf cf' : Prop :=
  rtc (λ cf1 cf2, elapses cf1 cf2 ∨ ∃ res, asks c cmd res cf1 cf2) cf cf'.

(** On the way from [cf] to [cf'] a connected peer of the test accepted the
    command at [index], in a term in which it leads, and nobody was asked since. *)
Definition submitted (c : Clock) (cmd : Iface) (index : Z) cf cf' : Prop :=
  ∃ cf1 cf2 term, proceeds c cmd cf cf1 ∧ asks c cmd (index, term, true) cf1 cf2 ∧ rtc elapses cf2 cf'.

Lemma tryServers_spec si starts c cmd cf starts' index cf' :
  tryServers si starts c cmd cf = Done (starts', index, cf') →
  proceeds c cmd cf cf' ∧ (index = -1 ∨ submitted c cmd index cf cf').
Proof.
  revert starts cf. induction si as [|si IH]; intros starts cf; cbn.
  { intros [= _ <- <-]. split; [constructor|by left]. }
  intros (on & Hon & H)%bind_Done. apply bind_Done in H as (r & Hr & H). destruct r as [rf|]; [|by eapply IH].
  destruct on; [|done]. apply of_option_Done in Hon, Hr.
  apply bind_Done in H as ([[rf1 [[index1 term] ok]] out] & Hst & H).
  assert (asks c cmd (index1, term, ok) cf
    (set_rafts (<[((starts + 1) `mod` cf_n cf)%nat := Some rf1]> (cf_rafts cf)) (cf_saved cf) cf)) as Ha.
  { by eexists _, rf, rf1, out. }
  destruct ok.
  - injection H as <- <- <-. split; [apply rtc_once; eauto|]. right. eexists cf, _, term.
    split_and!; [constructor|exact Ha|constructor].
  - apply IH in H as [H1 H2]. split; [eapply rtc_l; eauto|].
    destruct H2 as [->|(cf1 & cf2 & term' & H2 & H3)]; [by left|right].
    exists cf1, cf2, term'. split; [|done]. eapply rtc_l; eauto.
Qed.

Lemma awaitCommit_spec fuel k t1 index cmd n cf k' ok cf' :
  awaitCommit world clock fuel k t1 index cmd n cf = Done (k', ok, cf') →
  rtc elapses cf cf' ∧
  (ok = true → 0 < Z.of_nat (length (applied_at index cmd (cf_logs cf'))) ∧ agreed_on index cmd n cf').
Proof.
  revert k cf. induction fuel as [|fuel IH]; intros k cf; cbn; [done|].
  assert (elapses cf (world k cf)) as He by (by exists k).
  destruct (_ <? _); [|intros [= _ <- <-]; split; [by apply rtc_once|done]].
  intros ([nd cmd1] & Hn & H)%bind_Done.
  destruct (_ && _) eqn:E.
  - injection H as _ <- <-. split; [by apply rtc_once|]. intros _. zbool.
    apply bool_decide_eq_true in H0 as ->. apply nCommitted_spec in Hn as [-> ?]. split; [lia|]. split; [lia|done].
  - apply IH in H as [H1 H2]. split; [by eapply rtc_l|done].
Qed.

Lemma elapses_proceeds c cmd cf cf' : rtc elapses cf cf' → proceeds c cmd cf cf'.
Proof. apply rtc_subrel. by left. Qed.

Lemma submitted_later c cmd index cf0 cf cf1 cf' :
  proceeds c cmd cf0 cf → rtc elapses cf1 cf' → submitted c cmd index cf cf1 → submitted c cmd index cf0 cf'.
Proof.
  intros H1 H2 (a & b & term & H3 & H4 & H5). exists a, b, term.
  split_and!; [by eapply rtc_trans|done|by eapply rtc_trans].
Qed.

Lemma oneLoop_spec fuel k t0 starts c cmd n retry cf index cf' :
  oneLoop world clock fuel k t0 starts c cmd n retry cf = Done (index, cf') →
  index = -1 ∧ checkFinished cf' = true ∨
  submitted c cmd index cf cf' ∧ 0 < Z.of_nat (length (applied_at index cmd (cf_logs cf'))) ∧
    agreed_on index cmd n cf'.
Proof.
  assert (∀ cf1, proceeds c cmd cf cf1 →
    oneLoop world clock fuel k t0 starts c cmd n retry cf1 = Done (index, cf') →
    index = -1 ∧ checkFinished cf' = true ∨
    submitted c cmd index cf cf' ∧ 0 < Z.of_nat (length (applied_at index cmd (cf_logs cf'))) ∧
      agreed_on index cmd n cf') as Hgen; [|apply Hgen; constructor].
  revert k starts. induction fuel as [|fuel IH]; intros k starts cf1 Hp; cbn [oneLoop]; [done|].
  assert (proceeds c cmd cf (world k cf1)) as Hp1 by (eapply rtc_r; [done|]; left; by exists k).
  destruct (_ && _).
  - intros ([[starts1 i] cf2] & Ht & H)%bind_Done. apply tryServers_spec in Ht as [Hp2 Ht].
    assert (proceeds c cmd cf cf2) as Hp3 by (by eapply rtc_trans).
    destruct (negb (i =? -1)) eqn:Ei; [|by eapply IH].
    apply bind_Done in H as ([[k1 ok] cf3] & Ha & H). apply awaitCommit_spec in Ha as [Hel Ha].
    destruct ok.
    + injection H as <- <-. right. destruct Ht as [->|Hs]; [done|]. split; [|by apply Ha].
      exact (submitted_later _ _ _ _ _ _ _ Hp1 Hel Hs).
    + destruct (negb retry); [done|]. eapply IH; [|done]. eapply rtc_trans; [done|].
      by apply elapses_proceeds.
  - destruct (checkFinished (world k cf1)) eqn:Ef; [|done]. intros [= <- <-]. by left.
Qed.

(** *** one returns *)

Lemma appendEntries_unblocked hb c rf : unblocked (appendEntries hb c rf).
Proof.
  unfold appendEntries, LastLog, at_. unblocked. generalize (peerIds rf) as peers.
  intros peers. revert rf. induction peers as [|q peers IH]; intros rf; cbn; unblocked.
  unfold appendEntriesTo, at_, Tail. unblocked.
Qed.

Lemma Start_unblocked c cmd rf : unblocked (Start c cmd rf).
Proof. unfold Start, LastLog, at_. unblocked. apply appendEntries_unblocked. Qed.

Lemma tryServers_unblocked si starts c cmd cf : unblocked (tryServers si starts c cmd cf).
Proof.
  revert starts cf. induction si as [|si IH]; intros starts cf; cbn; [done|].
  unblocked. apply Start_unblocked.
Qed.

(** The inner loop, if its fuel reaches the look [k1] from which on two seconds
    have passed. *)
Lemma awaitCommit_returns k1 fuel k t1 index cmd n cf :
  (∀ k, (k1 <= k)%nat → t1 + seconds 2 <= clock k) → (0 < fuel)%nat → (k1 < fuel + k)%nat →
  unblocked (awaitCommit world clock fuel k t1 index cmd n cf) ∧
  ∀ k' ok cf', awaitCommit world clock fuel k t1 index cmd n cf = Done (k', ok, cf') → (k < k')%nat.
Proof.
  intros Hlate. revert k cf. induction fuel as [|fuel IH]; intros k cf Hf Hk; [lia|]. cbn [awaitCommit].
  destruct (Z.ltb_spec (clock k - t1) (seconds 2)) as [Hearly|_].
  2:{ split; [done|]. intros k' ok cf' [= <- _ _]. lia. }
  assert (k < k1)%nat by (destruct (decide (k1 <= k)%nat) as [H|]; [apply Hlate in H|]; lia).
  destruct (IH (S k) (world k cf)) as [IH1 IH2]; [lia|lia|]. split.
  - unblocked. apply nCommittedLoop_not_blocked.
  - intros k' ok cf' ([nd cmd1] & _ & Hr)%bind_Done. destruct (_ && _); [injection Hr as <- _ _; lia|].
    apply IH2 in Hr. lia.
Qed.

(** From the look [k0] on ten seconds have passed, from [k1] on two more than at
    any look before. *)
Lemma oneLoop_returns k0 k1 fuel k t0 starts c cmd n retry cf :
  (∀ k, (k0 <= k)%nat → t0 + seconds 10 <= clock k) →
  (∀ j k, (j <= k0)%nat → (k1 <= k)%nat → clock j + seconds 2 <= clock k) →
  (k0 <= k1)%nat → (0 < fuel)%nat → (k1 < fuel + k)%nat →
  unblocked (oneLoop world clock fuel k t0 starts c cmd n retry cf).
Proof.
  intros H0 H1 H01. revert k starts cf. induction fuel as [|fuel IH]; intros k starts cf Hf Hk; [lia|].
  cbn [oneLoop]. destruct (Z.ltb_spec (clock k - t0) (seconds 10)) as [Hearly|_]; cbn [andb]; [|unblocked].
  assert (k < k0)%nat by (destruct (decide (k0 <= k)%nat) as [H|]; [apply H0 in H|]; lia).
  destruct (negb (checkFinished _)); [|unblocked].
  apply unblocked_bind; [apply tryServers_unblocked|]. intros [[starts' index] cf1].
  destruct (negb (index =? -1)); [|apply IH; lia].
  destruct (awaitCommit_returns k1 fuel (k + 2) (clock (k + 1)%nat) index cmd n cf1) as [Ha Hk'];
    [intros j Hj; apply H1; lia|lia|lia|].
  destruct (awaitCommit world clock fuel (k + 2) _ index cmd n cf1) as [[[k' ok] cf2]| |]; [|done|done]. cbn.
  specialize (Hk' _ _ _ eq_refl). destruct ok; [done|]. destruct (negb retry); [done|]. apply IH; lia.
Qed.

Lemma clock_bounded k0 : ∃ m, ∀ j, (j <= k0)%nat → clock j <= m.
Proof.
  induction k0 as [|k0 [m IH]].
  - exists (clock 0). intros j Hj. by replace j with 0%nat by lia.
  - exists (Z.max m (clock (S k0))). intros j Hj. destruct (decide (j = S k0)) as [->|]; [lia|].
    specialize (IH j ltac:(lia)). lia.
Qed.

Lemma one_returns_lemma c cmd n retry cf :
  (∀ t, ∃ k, ∀ k', (k <= k')%nat → t <= clock k') →
  ∃ fuel0, ∀ fuel, (fuel0 <= fuel)%nat → unblocked (one world clock fuel c cmd n retry cf).
Proof.
  intros Htick. destruct (Htick (clock 0 + seconds 10)) as [k0 H0]. destruct (clock_bounded k0) as [m Hm].
  destruct (Htick (m + seconds 2)) as [k1 H1]. exists (S (k0 + k1)). intros fuel Hf. unfold one.
  apply (oneLoop_returns k0 (k0 + k1)); [done| |lia|lia|lia].
  intros j k Hj Hk. specialize (Hm j Hj). specialize (H1 k ltac:(lia)). lia.
Qed.

End agreement.

(** ** The theorems *)

Section theorems.
Context {codec : RaftCodec}.
Context {T V App : Type}.

(** C31. If [one] returns an index, then during the call a connected peer of the
    test, in the state it had at that moment, accepted the command at this index
    as leader, and only the peers and the network changed the test after that; at
    least [expectedServers] servers and at least one have applied the command
    there, and no server has applied another command there; otherwise it returns
    -1, and only when the test was finished. *)
Theorem one_agrees (world : nat → @config T V App → config) clock fuel c cmd expectedServers retry cf index cf' :
  one world clock fuel c cmd expectedServers retry cf = Done (index, cf') →
  index = -1 ∧ checkFinished cf' = true ∨
  submitted world c cmd index cf cf' ∧ 0 < Z.of_nat (length (applied_at index cmd (cf_logs cf'))) ∧
    agreed_on index cmd expectedServers cf'.
Proof. apply oneLoop_spec. Qed.

(** Whatever the peers do, [one] ends: if the clock passes every time, there is a
    number of looks after which it has returned or failed the test. *)
Theorem one_terminates (world : nat → @config T V App → config) clock c cmd expectedServers retry cf :
  (∀ t, ∃ k, ∀ k', (k <= k')%nat → t <= clock k') →
  ∃ fuel0, ∀ fuel, (fuel0 <= fuel)%nat →
    (∃ r, one world clock fuel c cmd expectedServers retry cf = Done r) ∨
    one world clock fuel c cmd expectedServers retry cf = Panicked.
Proof.
  intros Htick. destruct (one_returns_lemma world clock c cmd expectedServers retry cf Htick) as [fuel0 H].
  exists fuel0. intros fuel Hf. specialize (H fuel Hf).
  destruct (one world clock fuel c cmd expectedServers retry cf); [left; by eexists|done|by right].
Qed.

End theorems.

(** ** A leader and a follower for the witnesses *)

Definition ready_leader : Raft :=
  mkRaft 0 2 0 0 0 0 Leader 1 0 0 0 [1; 1] [0; 0] initLog 0 0 false MakePersister.

Definition ready_servers : @config unit unit unit :=
  set_connected [true; true] (set_rafts [Some ready_leader; Some (peer 1 1 Follower)] [None; None] two_servers).

(** Both servers apply the command before the fourth look. *)
Definition applying (k : nat) (cf : @config unit unit unit) : config :=
  if (k <? 4)%nat then cf else set_logs [{[1 := IInt 7]}; {[1 := IInt 7]}] [1; 1] 1 cf.

(** A look every 20 milliseconds. *)
Definition steady (k : nat) : Z := Z.of_nat k * 20 * 10 ^ 6.

Lemma one_agrees_witness :
  ∃ cf', one applying steady 20 (mkClock 0 0) (IInt 7) 2 true ready_servers = Done (1, cf') ∧
    submitted applying (mkClock 0 0) (IInt 7) 1 ready_servers cf' ∧ agreed_on 1 (IInt 7) 2 cf'.
Proof.
  eexists. match goal with |- ?P ∧ _ => assert P as H by (vm_compute; reflexivity) end.
  split; [exact H|].
  destruct (one_agrees applying steady 20 (mkClock 0 0) (IInt 7) 2 true ready_servers _ _ H) as [[? _]|(? & _ & ?)];
    [discriminate|split; assumption].
Defined.

Lemma one_terminates_witness :
  ∃ fuel0, ∀ fuel, (fuel0 <= fuel)%nat →
    (∃ r, one applying steady fuel (mkClock 0 0) (IInt 7) 2 true ready_servers = Done r) ∨
    one applying steady fuel (mkClock 0 0) (IInt 7) 2 true ready_servers = Panicked.
Proof.
  apply one_terminates. intros t. exists (Z.to_nat t). intros k' Hk. unfold steady. lia.
Defined.
