(* ===== verification/TesterMesh.v ===== *)
(** * A fresh test (src/src/raft/config.go)

    [make_config] starts every server and connects them all: the end from [i] to
    [j] is enabled and leads to server [j]. *)

From stdpp Require Import base list numbers gmap strings.
From Stdlib Require Import Lia.
From S2P Require Import Prelude Labrpc RaftLog Persister RaftCore RaftLocal RaftTester TesterSafety.

Section mesh.
Context {codec : RaftCodec} {snaps : SnapCodec}.
Context {T V App : Type}.
Abbreviation config := (@config T V App).
Abbreviation network := (@net name _ _ T V App).
Implicit Types (cf : config) (n : network).

(** What [makeEnds] does to the tables of the network. *)
Lemma makeEnds_tables names j n n' :
  makeEnds names j n = Done n' →
  (∀ e, e ∈ net_ends n' ↔ e ∈ net_ends n ∨ ∃ x, e = inl x ∧ x ∈ names) ∧ net_servers n' = net_servers n ∧
  (∀ e, e ∉ names → net_connections n' !! inl e = net_connections n !! inl e) ∧
  (NoDup names → ∀ m e, names !! m = Some e →
     net_connections n' !! inl e = Some (Some (inr (j + Z.of_nat m)))).
Proof.
  revert j n. induction names as [|x names IH]; intros j n; cbn [makeEnds].
  { intros [= <-]. split_and!; try done. intros e. split; [by left|]. intros [?|(y & _ & Hy)]; [done|].
    by apply not_elem_of_nil in Hy. }
  unfold MakeEnd. case_decide as Hx; [done|]. cbn. intros (He & Hs & Hc & Hr)%IH. cbn in *. split_and!.
  - intros e. rewrite He, elem_of_union, elem_of_singleton. setoid_rewrite elem_of_cons. naive_solver.
  - done.
  - intros e [Hne Hin]%not_elem_of_cons. rewrite Hc, !lookup_insert_ne by congruence. done.
  - intros [Hnx Hnd]%NoDup_cons [|m] e; cbn; [intros [= <-]|intros Hm; rewrite (Hr Hnd _ _ Hm); do 3 f_equal; lia].
    rewrite Hc by done. rewrite lookup_insert_eq. do 3 f_equal. lia.
Qed.

(** A peer as [Make] leaves it when nothing was persisted. *)
Definition newborn (rf : Raft) (i : nat) : Prop :=
  me rf = Z.of_nat i ∧ state rf = Follower ∧ currentTerm rf = 0 ∧ votedFor rf = -1 ∧ log rf = initLog ∧
  commitIndex rf = 0 ∧ lastApplied rf = 0.

Lemma Make_newborn (size : Z) i c : ∃ rf, Make size (Z.of_nat i) MakePersister c = Done rf ∧ newborn rf i.
Proof. eexists. split; [reflexivity|]. done. Qed.

(** [start1] on a server that was never started. *)
Lemma start1_fresh i names srv c cf :
  wired cf → (i < cf_n cf)%nat → cf_rafts cf !! i = Some None → cf_saved cf !! i = Some None →
  conn cf i = false → NoDup names → length names = cf_n cf →
  (∀ e, e ∈ names → inl e ∉ net_ends (cf_net cf)) →
  (∀ a b e, endname_at cf a b = Done e → inl e ∈ net_ends (cf_net cf)) →
  ∃ cf' rf', start1 i names srv c cf = Done cf' ∧ wired cf' ∧ newborn rf' i ∧
    (cf_n cf' = cf_n cf ∧ (∀ j, conn cf' j = conn cf j) ∧
     cf_rafts cf' = <[i := Some rf']> (cf_rafts cf) ∧ cf_saved cf' = <[i := Some MakePersister]> (cf_saved cf) ∧
     cf_endnames cf' = <[i := Some names]> (cf_endnames cf)) ∧
    (∀ e, e ∈ net_ends (cf_net cf') ↔ e ∈ net_ends (cf_net cf) ∨ ∃ x, e = inl x ∧ x ∈ names) ∧
    (∀ e, e ∉ names → net_connections (cf_net cf') !! inl e = net_connections (cf_net cf) !! inl e) ∧
    (∀ m e, names !! m = Some e → net_connections (cf_net cf') !! inl e = Some (Some (inr (Z.of_nat m)))) ∧
    (∃ p, net_servers (cf_net cf') = <[inr (Z.of_nat i) := Some p]> (net_servers (cf_net cf))).
Proof.
  intros Hw Hi Hrf Hs Hoff Hnd Hlen Hfresh Hknown.
  destruct (disconnect_wired i cf Hw Hi) as (cf1 & H1 & Hw1 & Hc1).
  destruct (disconnect_frame _ _ _ H1) as (En & Er & Es & Ee & _ & _ & Ends & Esrv & Eserv & Econ).
  assert (∀ j, conn cf1 j = conn cf j) as Hc by (intros j; rewrite Hc1; case_decide; congruence).
  assert (held (set_net (DeleteServer (inr (Z.of_nat i)) (cf_net cf1)) cf1) i = None) as Hh.
  { unfold held. cbn. by rewrite Er, Hrf, Es, Hs. }
  unfold start1, crash1. rewrite H1. cbn [mbind outcome_bind]. rewrite Hh. cbn [fmap option_fmap option_map].
  set (cf2 := set_rafts _ _ _). cbn [mret outcome_ret mbind outcome_bind].
  destruct (makeEnds_spec names 0 (cf_net cf2) Hnd) as (n2 & H2 & Es2 & He2).
  { intros e He. subst cf2. cbn. rewrite Ends. auto. }
  change (cf_net (set_endnames _ cf2)) with (cf_net cf2). rewrite H2. cbn [mbind outcome_bind].
  destruct (makeEnds_tables _ _ _ _ H2) as (Hn2 & Hs2 & Hk2 & Hr2). subst cf2. cbn in Hn2, Hs2, Hk2, He2.
  assert (wired (set_net n2 (set_endnames (<[i := Some names]> (cf_endnames cf1)) cf1))) as Hw2.
  { apply wired_rename; try done; [lia|congruence|lia|]. intros a b e Hab Hin.
    apply (Hfresh _ Hin), (Hknown a b). unfold endname_at in Hab |- *. by rewrite Ee in Hab. }
  assert ((i < length (cf_rafts cf))%nat) as Hir by (by eapply lookup_lt_Some).
  assert ((i < length (cf_saved cf))%nat) as His by (by eapply lookup_lt_Some).
  set (cf3 := set_logs _ _ _ _). assert (held cf3 i = None) as Hh3.
  { unfold held. subst cf3. cbn. by rewrite Er, Es, !list_lookup_insert_eq by done. }
  rewrite Hh3. cbn [mbind outcome_bind mret outcome_ret]. change (cf_n cf3) with (cf_n cf1).
  destruct (Make_newborn (Z.of_nat (cf_n cf1)) i c) as (rf' & Hmk & Hnew). rewrite Hmk. cbn [mbind outcome_bind].
  eexists _, rf'. split; [reflexivity|]. subst cf3. cbn.
  split; [by eapply wired_ext; [exact Hw2|..]|]. split; [exact Hnew|].
  split; [split_and!; [done|exact Hc|by rewrite list_insert_insert_eq, Er|by rewrite list_insert_insert_eq, Es|by rewrite Ee]|].
  split; [by rewrite <- Ends|]. split; [by rewrite <- Econ|]. split; [intros m e Hm; by rewrite (Hr2 Hnd _ _ Hm)|].
  eexists. rewrite Hs2, Eserv, insert_insert_eq. done.
Qed.

(** ** The loop over the servers *)

Abbreviation starting := (@starting V App).
Implicit Types sts : list starting.

(** The first [k] of the servers are started, nothing is connected. *)
Record meshed sts (k : nat) cf : Prop := {
  m_wired : wired cf;
  m_size : cf_n cf = length sts;
  m_off j : conn cf j = false;
  m_named i st : sts !! i = Some st → cf_endnames cf !! i = Some (if decide (i < k)%nat then Some (st_names st) else None);
  m_alive i : (i < k)%nat → ∃ rf, cf_rafts cf !! i = Some (Some rf) ∧ newborn rf i;
  m_idle i : (k <= i < length sts)%nat → cf_rafts cf !! i = Some None ∧ cf_saved cf !! i = Some None;
  m_ends e : inl e ∈ net_ends (cf_net cf) ↔ ∃ i st, (i < k)%nat ∧ sts !! i = Some st ∧ e ∈ st_names st;
  m_routes i st j e : (i < k)%nat → sts !! i = Some st → st_names st !! j = Some e →
    net_connections (cf_net cf) !! inl e = Some (Some (inr (Z.of_nat j)));
  m_servers i : (i < k)%nat → ∃ p, net_servers (cf_net cf) !! inr (Z.of_nat i) = Some (Some p);
}.

(** All names differ, and every server has one for each. *)
Definition good_names sts : Prop :=
  NoDup (concat (st_names <$> sts)) ∧ ∀ st, st ∈ sts → length (st_names st) = length sts.

Lemma NoDup_concat_row {A} (rows : list (list A)) i row :
  NoDup (concat rows) → rows !! i = Some row → NoDup row.
Proof.
  revert i. induction rows as [|r rows IH]; intros i; [done|]. cbn. intros (H1 & H2 & H3)%NoDup_app.
  destruct i; cbn; [by intros [= <-]|]. by apply IH.
Qed.

Lemma NoDup_concat_other {A} (rows : list (list A)) i j ri rj x :
  NoDup (concat rows) → rows !! i = Some ri → rows !! j = Some rj → x ∈ ri → x ∈ rj → i = j.
Proof.
  assert (∀ rows i (r : list A), rows !! i = Some r → x ∈ r → x ∈ concat rows) as Hc.
  { intros rows' k r Hk Hx. apply list_elem_of_In, in_concat. exists r. split; apply list_elem_of_In; [|done].
    by eapply list_elem_of_lookup_2. }
  revert i j. induction rows as [|r rows IH]; intros i j; [done|]. cbn. intros (H1 & H2 & H3)%NoDup_app.
  destruct i as [|i], j as [|j]; cbn; intros Hi Hj Hxi Hxj; [done|..|f_equal; eauto]; exfalso.
  - injection Hi as <-. apply (H2 x Hxi). eauto.
  - injection Hj as <-. apply (H2 x Hxj). eauto.
Qed.

Lemma row_names sts i st : sts !! i = Some st → (st_names <$> sts) !! i = Some (st_names st).
Proof. intros Hi. by rewrite list_lookup_fmap, Hi. Qed.

Lemma meshed_known sts k cf a b e :
  meshed sts k cf → endname_at cf a b = Done e → inl e ∈ net_ends (cf_net cf).
Proof.
  intros [Hw Hsz Hoff Hnm Hal Hid Hen Hro Hse] Hab. apply Hen.
  destruct (endname_at_range _ _ _ _ Hw Hab) as (Ha & _ & _). unfold endname_at in Hab.
  destruct (lookup_lt_is_Some_2 sts a) as [s Hs]; [lia|]. rewrite (Hnm _ _ Hs) in Hab.
  case_decide as Hak; [|done]. cbn in Hab. exists a, s. split_and!; try done.
  destruct (st_names s !! b) eqn:Eb; [|done]. injection Hab as <-. by eapply list_elem_of_lookup_2.
Qed.

Lemma meshed_fresh sts k st cf e :
  good_names sts → meshed sts k cf → sts !! k = Some st → e ∈ st_names st → inl e ∉ net_ends (cf_net cf).
Proof.
  intros [Hnd _] Hm Hk He (i & s & Hi & His & Hes)%(m_ends _ _ _ Hm). assert (i = k); [|lia].
  eapply (NoDup_concat_other _ i k); [exact Hnd|by apply row_names|by apply row_names|done|done].
Qed.

Lemma meshed_start sts k st cf :
  good_names sts → meshed sts k cf → sts !! k = Some st →
  ∃ cf', (let cf := set_logs (<[k := ∅]> (cf_logs cf)) (cf_lastApplied cf) (cf_maxIndex cf) cf in
          start1 k (st_names st) (st_srv st) (st_clock st) cf) = Done cf' ∧ meshed sts (S k) cf'.
Proof.
  intros Hgood Hm Hk. cbv zeta. pose proof Hgood as [Hnd Hlen]. pose proof Hm as [Hw Hsz Hoff Hnm Hal Hid Hen Hro Hse].
  pose proof (lookup_lt_Some _ _ _ Hk) as Hlt. destruct (Hid k) as [Hrk Hsk]; [lia|].
  set (cf0 := set_logs _ _ _ cf).
  destruct (start1_fresh k (st_names st) (st_srv st) (st_clock st) cf0) as
    (cf' & rf' & Hst & Hw' & Hnew & (E1 & E2 & E3 & E4 & E5) & F1 & F2 & F3 & p & F4); try done.
  - by eapply wired_ext; [exact Hw|..].
  - cbn. lia.
  - apply Hoff.
  - eapply NoDup_concat_row; [exact Hnd|by apply row_names].
  - cbn. rewrite Hsz. apply Hlen. by eapply list_elem_of_lookup_2.
  - intros e. by apply (meshed_fresh sts k st cf).
  - intros a b e. by apply (meshed_known sts k cf).
  - exists cf'. split; [exact Hst|]. subst cf0. cbn in E1, E3, E4, E5, F1, F2, F4. split; try done.
    + by rewrite E1.
    + intros j. rewrite E2. apply Hoff.
    + intros i s Hi. rewrite E5. destruct (decide (i = k)) as [->|Hik].
      * rewrite list_lookup_insert_eq, decide_True by (try apply w_endnames in Hw; cbn; lia). congruence.
      * rewrite list_lookup_insert_ne by done. rewrite (Hnm _ _ Hi). repeat case_decide; (done || lia).
    + intros i Hi. rewrite E3. destruct (decide (i = k)) as [->|Hik].
      * exists rf'. split; [|done]. apply list_lookup_insert_eq. by eapply lookup_lt_Some.
      * rewrite list_lookup_insert_ne by done. apply Hal. lia.
    + intros i Hi. rewrite E3, E4, !list_lookup_insert_ne by lia. apply Hid. lia.
    + intros e. rewrite F1, Hen. split.
      * intros [(i & s & ? & ? & ?)|(x & [= <-] & Hx)]; [exists i, s|exists k, st]; split_and!; (done || lia).
      * intros (i & s & Hi & His & Hes). destruct (decide (i = k)) as [->|]; [right; exists e; split; [done|congruence]|].
        left. exists i, s. split_and!; (done || lia).
    + intros i s j e Hi His Hj. destruct (decide (i = k)) as [->|Hik]; [apply F3; congruence|].
      rewrite F2; [apply (Hro i s); [lia|done|done]|]. intros He. apply Hik.
      eapply (NoDup_concat_other _ i k); [exact Hnd|by apply row_names|by apply row_names| |exact He].
      by eapply list_elem_of_lookup_2.
    + intros i Hi. rewrite F4. destruct (decide (i = k)) as [->|Hik]; [exists p; apply lookup_insert_eq|].
      rewrite lookup_insert_ne by (intros [= ?%Nat2Z.inj]; lia). apply Hse. lia.
Qed.

Lemma startAll_meshed sts rest k cf :
  good_names sts → meshed sts k cf → drop k sts = rest →
  ∃ cf', startAll k rest cf = Done cf' ∧ meshed sts (length sts) cf'.
Proof.
  intros Hg. revert k cf. induction rest as [|st rest IH]; intros k cf Hm Hd; cbn [startAll].
  - exists cf. split; [done|]. assert (length sts <= k)%nat as Hk.
    { apply (f_equal length) in Hd. rewrite length_drop in Hd. cbn in Hd. lia. }
    destruct (decide (k = length sts)) as [<-|]; [done|].
    destruct Hm as [Hw Hsz Hoff Hnm Hal Hid Hen Hro Hse]. split; try done.
    + intros i s Hi. pose proof (lookup_lt_Some _ _ _ Hi). rewrite (Hnm _ _ Hi), !decide_True by lia. done.
    + intros i Hi. apply Hal. lia.
    + intros i Hi. lia.
    + intros e. rewrite Hen. split; intros (i & s & ? & Hs & ?); exists i, s;
        pose proof (lookup_lt_Some _ _ _ Hs); split_and!; (done || lia).
    + intros i s j e Hi. apply Hro. lia.
    + intros i Hi. apply Hse. lia.
  - assert (sts !! k = Some st) as Hk by (rewrite <- (Nat.add_0_r k), <- lookup_drop, Hd; reflexivity).
    destruct (meshed_start sts k st cf Hg Hm Hk) as (cf1 & H1 & Hm1). cbv zeta in H1. rewrite H1.
    cbn [mbind outcome_bind]. apply IH; [done|]. rewrite (drop_S _ _ _ Hk) in Hd. congruence.
Qed.

Lemma replicate_None {A} (k i : nat) : mjoin (replicate k (@None A) !! i) = None.
Proof. destruct (replicate k None !! i) eqn:E; [|done]. by apply lookup_replicate in E as [-> _]. Qed.

(** Before the first server. *)
Lemma meshed_new app unreliable sts :
  let cf := setunreliable unreliable (new_config (length sts) app) in
  meshed sts 0 (set_net (LongDelays true (cf_net cf)) cf).
Proof.
  cbv zeta. assert (∀ i : nat, default false (replicate (length sts) false !! i) = false) as Hoff.
  { intros i. destruct (replicate (length sts) false !! i) eqn:E; [|done]. by apply lookup_replicate in E as [-> _]. }
  split; cbn; try done; try lia.
  - split; cbn; try by rewrite length_replicate.
    + intros i row [? _]%lookup_replicate. done.
    + intros i j i' j' e H. unfold endname_at in H. cbn in H. by rewrite replicate_None in H.
    + intros i H. unfold conn in H. cbn in H. by rewrite Hoff in H.
    + intros i j e H. unfold endname_at in H. cbn in H. by rewrite replicate_None in H.
  - intros i st Hi%lookup_lt_Some. by apply lookup_replicate_2.
  - intros i Hi. split; apply lookup_replicate_2; lia.
  - intros e. split; [set_solver|]. intros (i & ? & ? & _). lia.
Qed.

Lemma connect_frame i cf cf' :
  connect i cf = Done cf' →
  cf_n cf' = cf_n cf ∧ cf_rafts cf' = cf_rafts cf ∧ cf_endnames cf' = cf_endnames cf ∧
  net_servers (cf_net cf') = net_servers (cf_net cf) ∧ net_connections (cf_net cf') = net_connections (cf_net cf).
Proof.
  unfold connect. intros (was & _ & H)%bind_Done. revert H. intros (n1 & H1%enableLoop_frame & H)%bind_Done.
  apply bind_Done in H as (n2 & H2%enableLoop_frame & H). injection H as <-. cbn in *.
  destruct_and!. split_and!; congruence.
Qed.

Lemma connectLoop_wired is_ cf :
  wired cf → (∀ i, i ∈ is_ → (i < cf_n cf)%nat ∧ is_Some (mjoin (cf_endnames cf !! i))) →
  ∃ cf', connectLoop is_ cf = Done cf' ∧ wired cf' ∧ (∀ j, conn cf' j = bool_decide (j ∈ is_) || conn cf j) ∧
    cf_n cf' = cf_n cf ∧ cf_rafts cf' = cf_rafts cf ∧ cf_endnames cf' = cf_endnames cf ∧
    net_servers (cf_net cf') = net_servers (cf_net cf) ∧ net_connections (cf_net cf') = net_connections (cf_net cf).
Proof.
  revert cf. induction is_ as [|i is_ IH]; intros cf Hw Hin; cbn [connectLoop]; [by exists cf|].
  destruct (Hin i) as [Hi Hn]; [by left|]. destruct (connect_wired i cf Hw Hi Hn) as (cf1 & H1 & Hw1 & Hc1).
  destruct (connect_frame _ _ _ H1) as (E1 & E2 & E3 & E4 & E5). rewrite H1. cbn [mbind outcome_bind].
  destruct (IH cf1 Hw1) as (cf' & H' & Hw' & Hc' & ? & ? & ? & ? & ?).
  { intros j Hj. rewrite E1, E3. apply Hin. by right. }
  exists cf'. split; [done|]. split; [done|]. split; [|split_and!; congruence].
  intros j. rewrite Hc', Hc1. case_decide as Hj.
  - subst. rewrite orb_true_r. symmetry. apply orb_true_iff. left. apply bool_decide_eq_true. by left.
  - f_equal. apply bool_decide_ext. rewrite elem_of_cons. naive_solver.
Qed.

(** What a finished [make_config] looks like. *)
Record full_mesh sts cf : Prop := {
  fm_wired : wired cf;
  fm_size : cf_n cf = length sts;
  fm_conn i : (i < length sts)%nat → conn cf i = true;
  fm_peer i : (i < length sts)%nat → ∃ rf, cf_rafts cf !! i = Some (Some rf) ∧ newborn rf i;
  fm_route i j : (i < length sts)%nat → (j < length sts)%nat → ∃ e p, endname_at cf i j = Done e ∧
    enabled (cf_net cf) e = true ∧ net_connections (cf_net cf) !! inl e = Some (Some (inr (Z.of_nat j))) ∧
    net_servers (cf_net cf) !! inr (Z.of_nat j) = Some (Some p);
}.

Lemma make_config_spec sts unreliable app :
  good_names sts → ∃ cf, make_config sts unreliable app = Done cf ∧ full_mesh sts cf.
Proof.
  intros Hg. unfold make_config. set (cf0 := set_net _ _).
  destruct (startAll_meshed sts sts 0 cf0 Hg) as (cf1 & -> & Hm); [apply meshed_new|done|].
  cbn [mbind outcome_bind]. pose proof Hm as [Hw Hsz _ Hnm Hal _ _ Hro Hse].
  assert (∀ i, (i < length sts)%nat → ∃ st, sts !! i = Some st ∧ cf_endnames cf1 !! i = Some (Some (st_names st))) as Hn.
  { intros i Hi. destruct (lookup_lt_is_Some_2 sts i Hi) as [st Hst]. exists st. split; [done|].
    by rewrite (Hnm _ _ Hst), decide_True. }
  destruct (connectLoop_wired (seq 0 (length sts)) cf1 Hw) as (cf & -> & Hw' & Hc & E1 & E2 & E3 & E4 & E5).
  { intros i Hi%elem_of_seq. split; [lia|]. destruct (Hn i) as (st & _ & ->); [lia|]. by eexists. }
  assert (∀ i, (i < length sts)%nat → conn cf i = true) as Hon.
  { intros i Hi. rewrite Hc, bool_decide_eq_true_2; [done|]. apply elem_of_seq. lia. }
  exists cf. split; [done|]. split; [done|congruence|done|by rewrite E2|]. intros i j Hi Hj.
  destruct (Hn i Hi) as (st & Hst & Hrow). destruct (endname_at_total cf i j Hw') as [e He]; [|lia|].
  { rewrite E3, Hrow. by eexists. }
  destruct (Hse j Hj) as [p Hp]. exists e, p. rewrite E4, E5. split; [done|].
  split; [by rewrite (w_enabled _ Hw' _ _ _ He), !Hon|]. split; [|done].
  unfold endname_at in He. rewrite E3, Hrow in He. cbn in He. apply (Hro i st); [done|done|].
  destruct (st_names st !! j); [|done]. by injection He as ->.
Qed.

End mesh.

(** C32. Given end names that all differ, [make_config] returns a test in which every
    server runs a follower in term 0 with an empty log, everybody is connected,
    and the end from [i] to [j] is enabled and leads to the server of [j]. *)
Theorem make_config_meshes `{codec : RaftCodec, snaps : SnapCodec} {T V App : Type}
    (sts : list (@starting V App)) (unreliable : bool) (app : App) :
  good_names sts → ∃ cf : @config T V App, make_config sts unreliable app = Done cf ∧ full_mesh sts cf.
Proof. apply make_config_spec. Qed.

Definition two_starts : list (@starting unit unit) :=
  [mkStarting ["00"; "01"] MakeServer (mkClock 1 2); mkStarting ["10"; "11"] MakeServer (mkClock 3 4)].

Lemma make_config_meshes_witness :
  ∃ cf : @config unit unit unit, make_config two_starts true () = Done cf ∧ full_mesh two_starts cf ∧
    conn cf 1 = true.
Proof.
  destruct (make_config_meshes (T := unit) two_starts true ()) as (cf & H & Hm).
  - split; [by apply (bool_decide_unpack _)|]. intros st Hst.
    repeat (apply elem_of_cons in Hst as [->|Hst]; [done|]). by apply not_elem_of_nil in Hst.
  - exists cf. split; [exact H|]. split; [exact Hm|]. apply (fm_conn _ _ Hm). cbn. lia.
Defined.
