(* ===== verification/Services.v ===== *)
(** * The services on top of Raft

    What the testers use of a server of kvraft, shardctrler or shardkv, as a class
    with the laws they rely on; KvRaft.v, ShardCtrler.v and ShardKV.v give the
    instances. *)

From stdpp Require Import base list numbers gmap strings.
From Stdlib Require Import Lia.
From S2P Require Import Prelude Labrpc RaftLog Persister RaftCore.

(** ** What a tester needs of a service *)

(** [rf_of] is the peer of a server, [kill_] its [Kill], [start_] the function
    that starts it, given the number of peers, its own index, its persister and
    [maxraftstate]. *)
Class Replicated (codec : RaftCodec) (S : Type) : Type := {
  rf_of : S → Raft;
  kill_ : S → S;
  start_ : Z → Z → Persister → Z → Clock → outcome S;
}.

(** A server starts exactly as its peer does, and killing it kills the peer. *)
Class ReplicatedLaws {codec : RaftCodec} {S} (R : Replicated codec S) : Prop := {
  start_rf n me ps m c : Make n me ps c = (s ← start_ n me ps m c; mret (rf_of s));
  kill_rf s : rf_of (kill_ s) = Kill (rf_of s);
}.

Lemma start_Done {codec S} {R : Replicated codec S} {laws : ReplicatedLaws R} n me ps m c rf :
  Make n me ps c = Done rf → ∃ s, start_ n me ps m c = Done s ∧ rf_of s = rf.
Proof.
  rewrite (start_rf n me ps m c). intros (s & Hs & [= <-])%bind_Done. by exists s.
Qed.
