(* ===== verification/KvRaft.v ===== *)
(** * The key-value service (src/src/kvraft/server.go, client.go, common.go)

    The server holds a Raft peer; its handlers and the operations of the clerk have
    empty bodies in this repository. *)

From stdpp Require Import base list numbers gmap strings.
From Stdlib Require Import Lia.
From S2P Require Import Prelude Labrpc RaftLog Persister RaftCore Services.

Module KvRaft.

Definition OK : string := "OK".
Definition ErrNoKey : string := "ErrNoKey".
Definition ErrWrongLeader : string := "ErrWrongLeader".

Record PutAppendArgs : Type := mkPutAppendArgs { paKey : string; paValue : string; paOp : string }.
Record PutAppendReply : Type := mkPutAppendReply { paErr : string }.
Record GetArgs : Type := mkGetArgs { gaKey : string }.
Record GetReply : Type := mkGetReply { grErr : string; grValue : string }.

Record KVServer : Type := mkKVServer {
  kv_me : Z;
  kv_rf : Raft;
  kv_dead : Z;
  kv_maxraftstate : Z;
}.

Definition Get (args : GetArgs) (reply : GetReply) (kv : KVServer) : KVServer * GetReply := (kv, reply).

Definition PutAppend (args : PutAppendArgs) (reply : PutAppendReply) (kv : KVServer)
    : KVServer * PutAppendReply := (kv, reply).

Definition Kill (kv : KVServer) : KVServer :=
  mkKVServer (kv_me kv) (RaftCore.Kill (kv_rf kv)) 1 (kv_maxraftstate kv).

Definition killed (kv : KVServer) : bool := kv_dead kv =? 1.

Definition StartKVServer {codec : RaftCodec} (n me : Z) (ps : Persister) (maxraftstate : Z) (c : Clock)
    : outcome KVServer :=
  rf ← Make n me ps c;
  mret (mkKVServer me rf 0 maxraftstate).

(** The client: a table of servers and methods that are still to be written. *)
Record Clerk : Type := mkClerk { ck_servers : list string; ck_OldLeader : Z }.

Definition MakeClerk (servers : list string) : Clerk := mkClerk servers 0.

Definition Clerk_Get (ck : Clerk) (key : string) : Clerk * string := (ck, "").

Definition Clerk_PutAppend (ck : Clerk) (key value op : string) : Clerk := ck.

Definition Clerk_Put (ck : Clerk) (key value : string) : Clerk := Clerk_PutAppend ck key value "Put".

Definition Clerk_Append (ck : Clerk) (key value : string) : Clerk := Clerk_PutAppend ck key value "Append".

#[global] Instance replicated (codec : RaftCodec) : Replicated codec KVServer := {|
  rf_of := kv_rf;
  kill_ := Kill;
  start_ := StartKVServer;
|}.

#[global] Instance replicated_laws (codec : RaftCodec) : ReplicatedLaws (replicated codec).
Proof.
  split; [|done]. intros n me ps m c. unfold start_, replicated, StartKVServer. by destruct (Make n me ps c).
Qed.

End KvRaft.
