(* ===== verification/ShardCtrler.v ===== *)
(** * The shard controller (src/src/shardctrler/server.go, common.go)

    The handlers have empty bodies in this repository; the clerk is in
    ShardClient.v. *)

From stdpp Require Import base list numbers gmap strings.
From Stdlib Require Import Lia.
From S2P Require Import Prelude Labrpc RaftLog Persister RaftCore Services.

Module ShardCtrler.

Definition NShards : Z := 10.

Definition OK : string := "OK".

(** [Shards] is an array of [NShards] group numbers; [Groups] a map that may be
    nil, which reads like an empty one. *)
Record Config : Type := mkConfig {
  Num : Z;
  Shards : list Z;
  Groups : gmap Z (list string);
}.

Definition zeroConfig : Config := mkConfig 0 (replicate (Z.to_nat NShards) 0) ∅.

Record JoinArgs : Type := mkJoinArgs { jServers : gmap Z (list string) }.
Record LeaveArgs : Type := mkLeaveArgs { lGIDs : list Z }.
Record MoveArgs : Type := mkMoveArgs { mShard : Z; mGID : Z }.
Record QueryArgs : Type := mkQueryArgs { qNum : Z }.

(** [JoinReply], [LeaveReply] and [MoveReply] have the same fields. *)
Record Reply : Type := mkReply { rWrongLeader : bool; rErr : string }.
Record QueryReply : Type := mkQueryReply { qWrongLeader : bool; qErr : string; qConfig : Config }.

Record Ctrler : Type := mkCtrler {
  sc_me : Z;
  sc_rf : Raft;
  sc_configs : list Config;
}.

Definition Join (args : JoinArgs) (reply : Reply) (sc : Ctrler) : Ctrler * Reply := (sc, reply).
Definition Leave (args : LeaveArgs) (reply : Reply) (sc : Ctrler) : Ctrler * Reply := (sc, reply).
Definition Move (args : MoveArgs) (reply : Reply) (sc : Ctrler) : Ctrler * Reply := (sc, reply).
Definition Query (args : QueryArgs) (reply : QueryReply) (sc : Ctrler) : Ctrler * QueryReply := (sc, reply).

Definition Kill (sc : Ctrler) : Ctrler := mkCtrler (sc_me sc) (RaftCore.Kill (sc_rf sc)) (sc_configs sc).

(** The method [Raft] *)
Definition Raft_ (sc : Ctrler) : Raft := sc_rf sc.

Definition StartServer {codec : RaftCodec} (n me : Z) (ps : Persister) (c : Clock) : outcome Ctrler :=
  rf ← Make n me ps c;
  mret (mkCtrler me rf [zeroConfig]).

#[global] Instance replicated (codec : RaftCodec) : Replicated codec Ctrler := {|
  rf_of := sc_rf;
  kill_ := Kill;
  start_ n me ps _ c := StartServer n me ps c;
|}.

#[global] Instance replicated_laws (codec : RaftCodec) : ReplicatedLaws (replicated codec).
Proof.
  split; [|done]. intros n me ps m c. unfold start_, replicated, StartServer. by destruct (Make n me ps c).
Qed.

End ShardCtrler.
