(* ===== verification/ShardKV.v ===== *)
(** * The sharded key-value server (src/src/shardkv/server.go, common.go)

    The handlers have empty bodies in this repository; the clerk is in
    ShardClient.v. *)

From stdpp Require Import base list numbers gmap strings.
From Stdlib Require Import Lia.
From S2P Require Import Prelude Labrpc RaftLog Persister RaftCore Services.

Module ShardKV.

Definition OK : string := "OK".
Definition ErrNoKey : string := "ErrNoKey".
Definition ErrWrongGroup : string := "ErrWrongGroup".
Definition ErrWrongLeader : string := "ErrWrongLeader".

Record PutAppendArgs : Type := mkPutAppendArgs { paKey : string; paValue : string; paOp : string }.
Record PutAppendReply : Type := mkPutAppendReply { paErr : string }.
Record GetArgs : Type := mkGetArgs { gaKey : string }.
Record GetReply : Type := mkGetReply { grErr : string; grValue : string }.

(** [ctrlers] are the ends to the controllers, by name. *)
Record Server : Type := mkServer {
  kv_me : Z;
  kv_rf : Raft;
  kv_gid : Z;
  kv_ctrlers : list string;
  kv_maxraftstate : Z;
}.

Definition Get (args : GetArgs) (reply : GetReply) (kv : Server) : Server * GetReply := (kv, reply).

Definition PutAppend (args : PutAppendArgs) (reply : PutAppendReply) (kv : Server)
    : Server * PutAppendReply := (kv, reply).

Definition Kill (kv : Server) : Server :=
  mkServer (kv_me kv) (RaftCore.Kill (kv_rf kv)) (kv_gid kv) (kv_ctrlers kv) (kv_maxraftstate kv).

Definition StartServer {codec : RaftCodec} (n me : Z) (ps : Persister) (maxraftstate gid : Z)
    (ctrlers : list string) (c : Clock) : outcome Server :=
  rf ← Make n me ps c;
  mret (mkServer me rf gid ctrlers maxraftstate).

(** A server of the group [gid], with its ends to the controllers. *)
#[global] Instance replicated (codec : RaftCodec) (gid : Z) (ctrlers : list string) : Replicated codec Server := {|
  rf_of := kv_rf;
  kill_ := Kill;
  start_ n me ps m c := StartServer n me ps m gid ctrlers c;
|}.

#[global] Instance replicated_laws (codec : RaftCodec) gid ctrlers : ReplicatedLaws (replicated codec gid ctrlers).
Proof.
  split; [|done]. intros n me ps m c. unfold start_, replicated, StartServer. by destruct (Make n me ps c).
Qed.

End ShardKV.
