(* ===== verification/ServiceTester.v ===== *)
(** * The testers of kvraft and shardctrler (src/src/kvraft/config.go, src/src/shardctrler/config.go)

    The two files are the same but for the type of the servers, which is a
    parameter here ([Replicated]), for [Leader], and for what only kvraft has:
    [maxraftstate], the snapshot sizes and the operation count.  The modules at
    the end are the two testers.

    Server numbers are natural numbers; a clerk is a pointer, that is a number
    that was not used before.  As in RaftTester.v the persister of a live server
    is the one the tester holds in [saved], and random names are arguments. *)

From stdpp Require Import base list numbers gmap strings.
From Stdlib Require Import Lia.
From S2P Require Import Prelude Labrpc RaftLog Persister RaftCore RaftTester Services KvRaft.

(** ** Random handles *)

Section handles.
Context {A : Type}.

(** [sa[i], sa[j] = sa[j], sa[i]] *)
Definition swap (i j : nat) (sa : list A) : outcome (list A) :=
  a ← of_option (sa !! i);
  b ← of_option (sa !! j);
  mret (<[j := a]> (<[i := b]> sa)).

(** The loop of [random_handles] from [i] on; [rs] are the results of [rand.Intn]. *)
Fixpoint shuffleLoop (i : nat) (rs : list nat) (sa : list A) : outcome (list A) :=
  match rs with
  | [] => mret sa
  | r :: rs' => sa ← swap i r sa; shuffleLoop (S i) rs' sa
  end.

Definition random_handles (rs : list nat) (kvh : list A) : outcome (list A) := shuffleLoop 0 rs kvh.

End handles.

(** ** Splitting the servers *)

(** [xs[i] = x] *)
Definition nupdate {A} (xs : list A) (i : nat) (x : A) : outcome (list A) :=
  if (i <? length xs)%nat then mret (<[i := x]> xs) else Panicked.

(** The loop of [make_partition]. *)
Fixpoint splitLoop (is_ : list nat) (l j : nat) (p1 p2 : list nat) : outcome (list nat * list nat) :=
  match is_ with
  | [] => mret (p1, p2)
  | i :: is' =>
      if bool_decide (i ≠ l) then
        if (j <? length p1)%nat then
          p1 ← nupdate p1 j i;
          splitLoop is' l (S j) p1 p2
        else
          p2 ← nupdate p2 (j - length p1) i;
          splitLoop is' l (S j) p1 p2
      else splitLoop is' l j p1 p2
  end.

(** [make_partition] for the leader [l] that [Leader] has found. *)
Definition split_servers (n l : nat) : outcome (list nat * list nat) :=
  let p1 := replicate (n / 2 + 1) 0%nat in
  let p2 := replicate (n / 2) 0%nat in
  '(p1, p2) ← splitLoop (seq 0 n) l 0 p1 p2;
  match length p2 with
  | O => Panicked
  | S k => mret (p1, <[k := l]> p2)
  end.

Section tester.
Context {codec : RaftCodec} {S_ : Type} {R : Replicated codec S_}.
Context {T V App : Type}.
Abbreviation network := (@net name _ _ T V App).

Record config : Type := mkCfg {
  sc_net : network;
  sc_n : nat;
  sc_servers : list (option S_);
  sc_saved : list (option Persister);
  sc_endnames : list (option (list string));
  sc_clerks : gmap nat (list string);
  sc_newClerk : nat;
  sc_nextClientId : Z;
  sc_maxraftstate : Z;
  sc_rpcs0 : Z;
  sc_ops : Z;
}.

Definition set_net (x : network) (cf : config) : config :=
  mkCfg x (sc_n cf) (sc_servers cf) (sc_saved cf) (sc_endnames cf) (sc_clerks cf) (sc_newClerk cf)
    (sc_nextClientId cf) (sc_maxraftstate cf) (sc_rpcs0 cf) (sc_ops cf).

Definition set_servers (servers : list (option S_)) (saved : list (option Persister)) (cf : config) : config :=
  mkCfg (sc_net cf) (sc_n cf) servers saved (sc_endnames cf) (sc_clerks cf) (sc_newClerk cf)
    (sc_nextClientId cf) (sc_maxraftstate cf) (sc_rpcs0 cf) (sc_ops cf).

Definition set_endnames (x : list (option (list string))) (cf : config) : config :=
  mkCfg (sc_net cf) (sc_n cf) (sc_servers cf) (sc_saved cf) x (sc_clerks cf) (sc_newClerk cf)
    (sc_nextClientId cf) (sc_maxraftstate cf) (sc_rpcs0 cf) (sc_ops cf).

Definition set_clerks (clerks : gmap nat (list string)) (newClerk : nat) (nextClientId : Z) (cf : config) : config :=
  mkCfg (sc_net cf) (sc_n cf) (sc_servers cf) (sc_saved cf) (sc_endnames cf) clerks newClerk
    nextClientId (sc_maxraftstate cf) (sc_rpcs0 cf) (sc_ops cf).

Definition set_stats (rpcs0 ops : Z) (cf : config) : config :=
  mkCfg (sc_net cf) (sc_n cf) (sc_servers cf) (sc_saved cf) (sc_endnames cf) (sc_clerks cf) (sc_newClerk cf)
    (sc_nextClientId cf) (sc_maxraftstate cf) rpcs0 ops.

(** ** Connections *)

(** [cfg.endnames[i][j]] *)
Definition endname_at (cf : config) (i j : nat) : outcome string :=
  row ← of_option (mjoin (sc_endnames cf !! i));
  of_option (row !! j).

(** [for j := 0; j < len(to); j++ { cfg.net.Enable(sel(to[j]), b) }] *)
Definition enableAll (sel : nat → outcome string) (b : bool) (to : list nat) (n : network) : outcome network :=
  enableLoop to (λ _, true) sel b n.

Definition connectUnlocked (i : nat) (to : list nat) (cf : config) : outcome config :=
  n ← enableAll (λ j, endname_at cf i j) true to (sc_net cf);
  n ← enableAll (λ j, endname_at cf j i) true to n;
  mret (set_net n cf).

(** The second loop of [disconnectUnlocked]: the guard looks at the position [j]
    in the list, not at the server there. *)
Fixpoint disableIncoming (cf : config) (i j : nat) (from : list nat) (n : network) : outcome network :=
  match from with
  | [] => mret n
  | f :: from' =>
      row ← of_option (sc_endnames cf !! j);
      n ← (match row with
           | Some _ => e ← endname_at cf f i; mret (Enable (inl e) false n)
           | None => mret n
           end);
      disableIncoming cf i (S j) from' n
  end.

Definition disconnectUnlocked (i : nat) (from : list nat) (cf : config) : outcome config :=
  row ← (if bool_decide (from = []) then mret None else of_option (sc_endnames cf !! i));
  n ← (match row with
       | Some _ => enableAll (λ j, endname_at cf i j) false from (sc_net cf)
       | None => mret (sc_net cf)
       end);
  n ← disableIncoming cf i 0 from n;
  mret (set_net n cf).

Definition connect (i : nat) (to : list nat) (cf : config) : outcome config := connectUnlocked i to cf.

Definition disconnect (i : nat) (from : list nat) (cf : config) : outcome config := disconnectUnlocked i from cf.

Definition All (cf : config) : list nat := seq 0 (sc_n cf).

Fixpoint connectEach (is_ : list nat) (to : list nat) (cf : config) : outcome config :=
  match is_ with
  | [] => mret cf
  | i :: is' => cf ← connectUnlocked i to cf; connectEach is' to cf
  end.

Definition ConnectAll (cf : config) : outcome config := connectEach (seq 0 (sc_n cf)) (All cf) cf.

(** One of the two loops of [partition]: the servers [is_] of the part [own]. *)
Fixpoint separate (is_ own other : list nat) (cf : config) : outcome config :=
  match is_ with
  | [] => mret cf
  | i :: is' =>
      cf ← disconnectUnlocked i other cf;
      cf ← connectUnlocked i own cf;
      separate is' own other cf
  end.

Definition partition (p1 p2 : list nat) (cf : config) : outcome config :=
  cf ← separate p1 p1 p2 cf;
  separate p2 p2 p1 cf.

(** ** Clients *)

(** [cfg.clerks[ck]]; a missing clerk has the nil slice. *)
Definition clerk_names (ck : nat) (cf : config) : list string := default [] (sc_clerks cf !! ck).

Definition ConnectClientUnlocked (ck : nat) (to : list nat) (cf : config) : outcome config :=
  n ← enableAll (λ j, of_option (clerk_names ck cf !! j)) true to (sc_net cf);
  mret (set_net n cf).

Definition ConnectClient (ck : nat) (to : list nat) (cf : config) : outcome config := ConnectClientUnlocked ck to cf.

Definition DisconnectClientUnlocked (ck : nat) (from : list nat) (cf : config) : outcome config :=
  n ← enableAll (λ j, of_option (clerk_names ck cf !! j)) false from (sc_net cf);
  mret (set_net n cf).

Definition DisconnectClient (ck : nat) (from : list nat) (cf : config) : outcome config :=
  DisconnectClientUnlocked ck from cf.

(** The clerk and the ends it got, in their random order. *)
Definition makeClient (to : list nat) (names : list string) (rs : list nat) (cf : config)
    : outcome (nat * list string * config) :=
  n ← makeEnds names 0 (sc_net cf);
  let cf := set_net n cf in
  servers ← random_handles rs names;
  let ck := sc_newClerk cf in
  let cf := set_clerks (<[ck := names]> (sc_clerks cf)) (ck + 1) (sc_nextClientId cf + 1) cf in
  cf ← ConnectClientUnlocked ck to cf;
  mret (ck, servers, cf).

(** [os.Remove] of the end names is left out: they are not names of files. *)
Definition deleteClient (ck : nat) (cf : config) : config :=
  set_clerks (delete ck (sc_clerks cf)) (sc_newClerk cf) (sc_nextClientId cf) cf.

(** ** Servers *)

(** The persister the tester holds for [i]. *)
Definition held (cf : config) (i : nat) : option Persister :=
  match mjoin (sc_servers cf !! i) with
  | Some s => Some (persister (rf_of s))
  | None => mjoin (sc_saved cf !! i)
  end.

(** The killed server is out of the tester's reach from here on. *)
Definition ShutdownServer (i : nat) (cf : config) : outcome config :=
  cf ← disconnectUnlocked i (All cf) cf;
  let cf := set_net (DeleteServer (inr (Z.of_nat i)) (sc_net cf)) cf in
  let saved := Copy <$> held cf i in
  mret (set_servers (<[i := None]> (sc_servers cf)) (<[i := saved]> (sc_saved cf)) cf).

(** [kvsvc] and [rfsvc] are the services of the new server and its peer. *)
Definition StartServer (i : nat) (names : list string) (kvsvc rfsvc : @Service V App) (c : Clock) (cf : config)
    : outcome config :=
  let cf := set_endnames (<[i := Some names]> (sc_endnames cf)) cf in
  n ← makeEnds names 0 (sc_net cf);
  let cf := set_net n cf in
  let ps := match held cf i with Some ps => Copy ps | None => MakePersister end in
  s ← start_ (Z.of_nat (sc_n cf)) (Z.of_nat i) ps (sc_maxraftstate cf) c;
  let cf := set_servers (<[i := Some s]> (sc_servers cf)) (<[i := Some ps]> (sc_saved cf)) cf in
  let srv := AddService rfsvc (AddService kvsvc MakeServer) in
  let n := AddServer (inr (Z.of_nat i)) (length (net_srvs (sc_net cf))) (new_srv srv (sc_net cf)) in
  mret (set_net n cf).

(** ** Making and ending a test *)

Record starting : Type := mkStart {
  st_names : list string;
  st_kvsvc : @Service V App;
  st_rfsvc : @Service V App;
  st_clock : Clock;
}.

Fixpoint startAll (i : nat) (sts : list starting) (cf : config) : outcome config :=
  match sts with
  | [] => mret cf
  | st :: sts' =>
      cf ← StartServer i (st_names st) (st_kvsvc st) (st_rfsvc st) (st_clock st) cf;
      startAll (S i) sts' cf
  end.

Definition new_config (n : nat) (maxraftstate : Z) (app : App) : config :=
  mkCfg (MakeNetwork [] app) n (replicate n None) (replicate n None) (replicate n None) ∅ 0
    (Z.of_nat n + 1000) maxraftstate 0 0.

(** One [starting] per server. *)
Definition make_config (sts : list starting) (unreliable : bool) (maxraftstate : Z) (app : App) : outcome config :=
  cf ← startAll 0 sts (new_config (length sts) maxraftstate app);
  cf ← ConnectAll cf;
  mret (set_net (Reliable (negb unreliable) (sc_net cf)) cf).

Definition cleanup (late : bool) (cf : config) : outcome config :=
  let cf := set_servers (map (option_map kill_) (sc_servers cf)) (sc_saved cf) cf in
  n ← Cleanup (sc_net cf);
  _ ← (checkTimeout late : outcome unit);
  mret (set_net n cf).

(** The largest [size] of the persisters the tester holds; a nil one panics. *)
Fixpoint sizeLoop (size : Persister → Z) (is_ : list nat) (acc : Z) (cf : config) : outcome Z :=
  match is_ with
  | [] => mret acc
  | i :: is' =>
      ps ← of_option (held cf i);
      sizeLoop size is' (if acc <? size ps then size ps else acc) cf
  end.

Definition LogSize (cf : config) : outcome Z := sizeLoop RaftStateSize (seq 0 (sc_n cf)) 0 cf.

Definition SnapshotSize (cf : config) : outcome Z := sizeLoop Persister.SnapshotSize (seq 0 (sc_n cf)) 0 cf.

Definition rpcTotal (cf : config) : Z := GetTotalCount (sc_net cf).

Definition begin (cf : config) : config := set_stats (rpcTotal cf) 0 cf.

(** [atomic.AddInt32(&cfg.ops, 1)] *)
Definition op (cf : config) : config := set_stats (sc_rpcs0 cf) (wrap 32 (sc_ops cf + 1)) cf.

(** The numbers [end] prints: peers, RPCs, operations. *)
Definition end_ (late : bool) (cf : config) : outcome (Z * Z * Z) :=
  _ ← (checkTimeout late : outcome unit);
  mret (Z.of_nat (sc_n cf), rpcTotal cf - sc_rpcs0 cf, sc_ops cf).

(** The loop of [Leader]; [skip]: servers that are down are skipped, otherwise
    the nil pointer panics. *)
Fixpoint leaderLoop (skip : bool) (is_ : list nat) (cf : config) : outcome (bool * nat) :=
  match is_ with
  | [] => mret (false, 0%nat)
  | i :: is' =>
      o ← of_option (sc_servers cf !! i);
      match o with
      | Some s => if (GetState (rf_of s)).2 then mret (true, i) else leaderLoop skip is' cf
      | None => if skip then leaderLoop skip is' cf else Panicked
      end
  end.

End tester.

Arguments config S_ T V App : clear implicits.

(** ** The tester of kvraft *)

Module KvRaftTester.
Section tester.
Context {codec : RaftCodec} {T V App : Type}.
Abbreviation config := (config KvRaft.KVServer T V App).

Definition Leader (cf : config) : outcome (bool * nat) := leaderLoop false (seq 0 (sc_n cf)) cf.

Definition make_partition (cf : config) : outcome (list nat * list nat) :=
  '(_, l) ← Leader cf;
  split_servers (sc_n cf) l.

End tester.
End KvRaftTester.
