(* ===== verification/CtrlerTester.v ===== *)
(** * The tester of the shard controller (src/src/shardctrler/config.go)

    The file repeats kvraft/config.go for the servers of shardctrler, so its
    operations are the generic ones of ServiceTester.v at that type; what differs
    is [make_config], which has no bound on the size of the Raft state, and
    [Leader], which passes over servers that are not there. *)

From stdpp Require Import base list numbers gmap strings.
From S2P Require Import Prelude Labrpc RaftLog Persister RaftCore RaftTester Services ShardCtrler ServiceTester.


Module CtrlerTester.
Section tester.
Context {codec : RaftCodec} {T V App : Type}.
Abbreviation config := (config ShardCtrler.Ctrler T V App).

Definition random_handles (rs : list nat) (kvh : list string) : outcome (list string) := random_handles rs kvh.
Definition connectUnlocked : nat → list nat → config → outcome config := connectUnlocked.
Definition disconnectUnlocked : nat → list nat → config → outcome config := disconnectUnlocked.
Definition connect : nat → list nat → config → outcome config := connect.
Definition disconnect : nat → list nat → config → outcome config := disconnect.
Definition All : config → list nat := All.
Definition ConnectAll : config → outcome config := ConnectAll.
Definition partition : list nat → list nat → config → outcome config := partition.
Definition makeClient : list nat → list string → list nat → config → outcome (nat * list string * config) := makeClient.
Definition deleteClient : nat → config → config := deleteClient.
Definition ConnectClientUnlocked : nat → list nat → config → outcome config := ConnectClientUnlocked.
Definition ConnectClient : nat → list nat → config → outcome config := ConnectClient.
Definition DisconnectClientUnlocked : nat → list nat → config → outcome config := DisconnectClientUnlocked.
Definition DisconnectClient : nat → list nat → config → outcome config := DisconnectClient.
Definition ShutdownServer : nat → config → outcome config := ShutdownServer.
Definition StartServer : nat → list string → @Service V App → @Service V App → Clock → config → outcome config :=
  StartServer.
Definition LogSize : config → outcome Z := LogSize.
Definition cleanup : bool → config → outcome config := cleanup.

(** This tester has no [maxraftstate]. *)
Definition make_config (sts : list (@starting V App)) (unreliable : bool) (app : App) : outcome config :=
  make_config sts unreliable (-1) app.

Definition Leader (cf : config) : outcome (bool * nat) := leaderLoop true (seq 0 (sc_n cf)) cf.

Definition make_partition (cf : config) : outcome (list nat * list nat) :=
  '(_, l) ← Leader cf;
  split_servers (sc_n cf) l.

End tester.
End CtrlerTester.
