(* ===== verification/ServiceSafety.v ===== *)
(** * What the testers of the services do (src/src/kvraft/config.go, src/src/shardctrler/config.go)

    Every sequence of connects, disconnects and partitions leaves the ends
    enabled as a relation between the servers says, whose operations are those of
    [spec_cop]; a partition around a leader puts it into the smaller part; a
    client reaches the servers it is connected to; a restart recovers the peer. *)

From stdpp Require Import base list numbers gmap strings.
From Stdlib Require Import Lia.
From S2P Require Import Prelude Labrpc RaftLog Persister RaftCore RaftLocal RaftTester TesterSafety TesterMesh Services KvRaft ServiceTester.

(** ** Relations between servers *)

Section relations.

Definition rel : Type := nat → nat → bool.

(** Equal on the servers below [n]. *)
Definition eqrel (n : nat) (r r' : rel) : Prop :=
  ∀ a b, (a < n)%nat → (b < n)%nat → r a b = r' a b.

#[export] Instance eqrel_equiv n : Equivalence (eqrel n).
Proof. split; intros ?; unfold eqrel; [done|intros; by symmetry; auto|]. intros y z H1 H2 a b Ha Hb. by rewrite H1, H2. Qed.

(** The pairs of [i] with a server of [xs]. *)
Definition touches (i : nat) (xs : list nat) (a b : nat) : Prop := a = i ∧ b ∈ xs ∨ b = i ∧ a ∈ xs.

#[export] Instance touches_dec i xs a b : Decision (touches i xs a b).
Proof. unfold touches. apply _. Defined.

Definition set_links (P : nat → nat → Prop) `{!∀ a b, Decision (P a b)} (v : bool) (r : rel) : rel :=
  λ a b, if decide (P a b) then v else r a b.

#[export] Instance set_links_proper n P `{!∀ a b, Decision (P a b)} v :
  Proper (eqrel n ==> eqrel n) (set_links P v).
Proof. intros r r' Hr a b Ha Hb. unfold set_links. case_decide; auto. Qed.

(** What a tester can do to the connections. *)
Inductive cop : Type :=
  | CConnect (i : nat) (to : list nat)
  | CDisconnect (i : nat) (from : list nat)
  | CConnectAll
  | CPartition (p1 p2 : list nat).

Definition together (p1 p2 : list nat) (a b : nat) : Prop := a ∈ p1 ∧ b ∈ p1 ∨ a ∈ p2 ∧ b ∈ p2.
Definition apart (p1 p2 : list nat) (a b : nat) : Prop := a ∈ p1 ∧ b ∈ p2 ∨ a ∈ p2 ∧ b ∈ p1.

#[export] Instance together_dec p1 p2 a b : Decision (together p1 p2 a b).
Proof. unfold together. apply _. Defined.
#[export] Instance apart_dec p1 p2 a b : Decision (apart p1 p2 a b).
Proof. unfold apart. apply _. Defined.

(** The same, on the relation. *)
Definition spec_cop (o : cop) (r : rel) : rel :=
  match o with
  | CConnect i to => set_links (touches i to) true r
  | CDisconnect i from => set_links (touches i from) false r
  | CConnectAll => λ _ _, true
  | CPartition p1 p2 => set_links (together p1 p2) true (set_links (apart p1 p2) false r)
  end.

#[export] Instance spec_cop_proper n o : Proper (eqrel n ==> eqrel n) (spec_cop o).
Proof. intros r r' H. destruct o; cbn; [by rewrite H|by rewrite H|done|by rewrite H]. Qed.

(** The arguments are servers; the parts are disjoint. *)
Definition valid_cop (n : nat) (o : cop) : Prop :=
  let ok xs := (length xs <= n)%nat ∧ ∀ x, x ∈ xs → (x < n)%nat in
  match o with
  | CConnect i to => (i < n)%nat ∧ ok to
  | CDisconnect i from => (i < n)%nat ∧ ok from
  | CConnectAll => True
  | CPartition p1 p2 => ok p1 ∧ ok p2 ∧ p1 ## p2
  end.

End relations.

(** ** The ends of a tester *)

Section links.
Context {S_ T V App : Type}.
Abbreviation config := (config S_ T V App).
Abbreviation network := (@net name _ _ T V App).
Implicit Types (cf : config) (n : network).

(** All servers have been started, and no end name is used twice. *)
Record cabled cf : Prop := {
  c_endnames : length (sc_endnames cf) = sc_n cf;
  c_rows i row : sc_endnames cf !! i = Some (Some row) → length row = sc_n cf;
  c_named i : (i < sc_n cf)%nat → ∃ row, sc_endnames cf !! i = Some (Some row);
  c_distinct i j i' j' e : endname_at cf i j = Done e → endname_at cf i' j' = Done e → i = i' ∧ j = j';
}.

(** The end from [a] to [b] is enabled. *)
Definition link cf : rel := λ a b,
  match endname_at cf a b with Done e => enabled (sc_net cf) e | _ => false end.

Lemma name_total cf i j : cabled cf → (i < sc_n cf)%nat → (j < sc_n cf)%nat → ∃ e, endname_at cf i j = Done e.
Proof.
  intros Hc Hi Hj. destruct (c_named _ Hc i Hi) as [row Hrow]. unfold endname_at. rewrite Hrow. cbn.
  destruct (lookup_lt_is_Some_2 row j) as [e ->]; [by rewrite (c_rows _ Hc _ _ Hrow)|]. by exists e.
Qed.

Lemma cabled_ext cf cf' :
  cabled cf → sc_n cf' = sc_n cf → sc_endnames cf' = sc_endnames cf → cabled cf'.
Proof.
  intros [H1 H2 H3 H4] E1 E2. split; rewrite ?E1, ?E2; try done.
  intros i j i' j' e. unfold endname_at. rewrite E2. apply H4.
Qed.

(** Both loops of [connectUnlocked] and of [disconnectUnlocked]. *)
Definition switch (b : bool) (i : nat) (xs : list nat) cf : outcome config :=
  n ← enableAll (λ j, endname_at cf i j) b xs (sc_net cf);
  n ← enableAll (λ j, endname_at cf j i) b xs n;
  mret (set_net n cf).

(** Only the table of enabled ends changes. *)
Definition same_net n n' : Prop :=
  net_ends n' = net_ends n ∧ net_srvs n' = net_srvs n ∧ net_servers n' = net_servers n ∧
  net_connections n' = net_connections n.

Lemma switch_links b i xs cf :
  cabled cf → (i < sc_n cf)%nat → (∀ x, x ∈ xs → (x < sc_n cf)%nat) →
  ∃ n', switch b i xs cf = Done (set_net n' cf) ∧ same_net (sc_net cf) n' ∧
    eqrel (sc_n cf) (link (set_net n' cf)) (set_links (touches i xs) b (link cf)).
Proof.
  intros Hc Hi Hxs. unfold switch.
  destruct (enableLoop_spec xs (λ _, true) (λ j, endname_at cf i j) b (sc_net cf)) as (n1 & Hn1 & He1).
  { intros j Hj _. apply name_total; auto. }
  destruct (enableLoop_spec xs (λ _, true) (λ j, endname_at cf j i) b n1) as (n2 & Hn2 & He2).
  { intros j Hj _. apply name_total; auto. }
  unfold enableAll. rewrite Hn1. cbn [mbind outcome_bind]. rewrite Hn2. exists n2. split; [done|].
  split. { apply enableLoop_frame in Hn1, Hn2. unfold same_net. destruct_and!. split_and!; congruence. }
  intros a c Ha Hcc. destruct (name_total cf a c Hc Ha Hcc) as [e He]. unfold link, set_links.
  change (endname_at (set_net n2 cf) a c) with (endname_at cf a c). rewrite He. cbn [sc_net set_net].
  destruct (He2 e) as [[-> (j & Hj & _ & Ej)]|[-> Hno2]].
  { destruct (c_distinct _ Hc _ _ _ _ _ He Ej) as [-> ->]. rewrite decide_True by (right; auto). done. }
  destruct (He1 e) as [[-> (j & Hj & _ & Ej)]|[-> Hno1]].
  { destruct (c_distinct _ Hc _ _ _ _ _ He Ej) as [-> ->]. rewrite decide_True by (left; auto). done. }
  rewrite decide_False; [done|]. intros [[-> ?]|[-> ?]]; [apply Hno1|apply Hno2]; eauto.
Qed.

Lemma disableIncoming_all cf i j from n :
  (∀ k, (k < sc_n cf)%nat → ∃ row, sc_endnames cf !! k = Some (Some row)) → (j + length from <= sc_n cf)%nat →
  disableIncoming cf i j from n = enableAll (λ k, endname_at cf k i) false from n.
Proof.
  intros Hn. revert j n. induction from as [|f from IH]; intros j n Hl; [done|]. cbn in *.
  destruct (Hn j) as [row ->]; [lia|]. cbn. destruct (endname_at cf f i); cbn; [|done|done]. apply IH. lia.
Qed.

(** If all servers have been started the wrong guard makes no difference. *)
Lemma disconnect_switch i from cf :
  cabled cf → (i < sc_n cf)%nat → (length from <= sc_n cf)%nat → disconnectUnlocked i from cf = switch false i from cf.
Proof.
  intros Hc Hi Hl. unfold disconnectUnlocked, switch. destruct (c_named _ Hc i Hi) as [row Hrow].
  destruct (bool_decide_reflect (from = [])) as [->|_]; [done|]. rewrite Hrow. cbn [mbind outcome_bind of_option].
  destruct (enableAll _ false from (sc_net cf)) as [n1| |]; [|done|done]. cbn [mbind outcome_bind].
  rewrite disableIncoming_all; [done|apply (c_named _ Hc)|lia].
Qed.

(** The last network counts. *)
Ltac collapse :=
  repeat match goal with
  | H : context [sc_n (set_net ?n ?cf)] |- _ => change (sc_n (set_net n cf)) with (sc_n cf) in H
  | H : context [set_net ?n (set_net ?n' ?cf)] |- _ => change (set_net n (set_net n' cf)) with (set_net n cf) in H
  end.

(** *** Partitions *)

Definition meets (xs ys : list nat) (a b : nat) : Prop := a ∈ xs ∧ b ∈ ys ∨ b ∈ xs ∧ a ∈ ys.

#[local] Instance meets_dec xs ys a b : Decision (meets xs ys a b).
Proof. unfold meets. apply _. Defined.

Definition servers_of cf (xs : list nat) : Prop :=
  (length xs <= sc_n cf)%nat ∧ ∀ x, x ∈ xs → (x < sc_n cf)%nat.

Lemma same_net_trans n n' n'' : same_net n n' → same_net n' n'' → same_net n n''.
Proof. unfold same_net. intros. destruct_and!. split_and!; congruence. Qed.

Lemma meets_cons i is_ own other r (m : nat) :
  i ∈ own → (∀ x, x ∈ is_ → x ∈ own) → own ## other →
  eqrel m (set_links (meets is_ own) true (set_links (meets is_ other) false
            (set_links (touches i own) true (set_links (touches i other) false r))))
          (set_links (meets (i :: is_) own) true (set_links (meets (i :: is_) other) false r)).
Proof.
  intros Hi Hsub Hdisj a b _ _. unfold set_links.
  assert (meets (i :: is_) own a b ↔ meets is_ own a b ∨ touches i own a b) as E1.
  { unfold meets, touches. set_solver. }
  assert (meets (i :: is_) other a b ↔ meets is_ other a b ∨ touches i other a b) as E2.
  { unfold meets, touches. set_solver. }
  assert (meets is_ other a b → ¬ touches i own a b) as E3.
  { unfold meets, touches. intros [[Ha Hb]|[Ha Hb]] [[-> ?]|[-> ?]]; set_solver. }
  repeat case_decide; tauto.
Qed.

Lemma separate_links is_ own other cf :
  cabled cf → servers_of cf own → servers_of cf other → own ## other → (∀ x, x ∈ is_ → x ∈ own) →
  ∃ n', separate is_ own other cf = Done (set_net n' cf) ∧ same_net (sc_net cf) n' ∧
    eqrel (sc_n cf) (link (set_net n' cf)) (set_links (meets is_ own) true (set_links (meets is_ other) false (link cf))).
Proof.
  intros Hc Hown Hoth Hdisj. revert cf Hc Hown Hoth. induction is_ as [|i is_ IH]; intros cf Hc Hown Hoth Hsub; cbn [separate].
  { exists (sc_net cf). split; [by destruct cf|]. split; [done|]. intros a b _ _. unfold set_links.
    rewrite !decide_False by (unfold meets; set_solver). by destruct cf. }
  assert (i ∈ own) as Hi by (apply Hsub; by left). pose proof (proj2 Hown i Hi) as Hin.
  rewrite disconnect_switch by (done || apply Hoth).
  destruct (switch_links false i other cf Hc Hin (proj2 Hoth)) as (n1 & -> & Hs1 & Hl1). cbn [mbind outcome_bind].
  change (connectUnlocked i own (set_net n1 cf)) with (switch true i own (set_net n1 cf)).
  destruct (switch_links true i own (set_net n1 cf)) as (n2 & -> & Hs2 & Hl2); [by eapply cabled_ext|done|apply Hown|].
  cbn [mbind outcome_bind].
  destruct (IH (set_net n2 cf)) as (n3 & H3 & Hs3 & Hl3); [by eapply cabled_ext|done|done|intros; apply Hsub; by right|].
  exists n3. split; [exact H3|]. split; [by do 2 (eapply same_net_trans; [eassumption|])|].
  collapse.
  rewrite Hl3, Hl2, Hl1. apply meets_cons; [done| |done]. intros; apply Hsub; by right.
Qed.

Lemma partition_links p1 p2 cf :
  cabled cf → servers_of cf p1 → servers_of cf p2 → p1 ## p2 →
  ∃ n', partition p1 p2 cf = Done (set_net n' cf) ∧ same_net (sc_net cf) n' ∧
    eqrel (sc_n cf) (link (set_net n' cf)) (spec_cop (CPartition p1 p2) (link cf)).
Proof.
  intros Hc H1 H2 Hd. unfold partition.
  destruct (separate_links p1 p1 p2 cf Hc H1 H2 Hd (λ x H, H)) as (n1 & -> & Hs1 & Hl1). cbn [mbind outcome_bind].
  destruct (separate_links p2 p2 p1 (set_net n1 cf)) as (n2 & H & Hs2 & Hl2); [by eapply cabled_ext|done|done|set_solver|done|].
  exists n2. split; [exact H|]. split; [by eapply same_net_trans|].
  collapse. rewrite Hl2, Hl1. intros a b _ _. cbn. unfold set_links.
  assert (together p1 p2 a b ↔ meets p1 p1 a b ∨ meets p2 p2 a b) as E1 by (unfold together, meets; tauto).
  assert (apart p1 p2 a b ↔ meets p1 p2 a b) as E2 by (unfold apart, meets; tauto).
  assert (meets p1 p2 a b ↔ meets p2 p1 a b) as E3 by (unfold meets; tauto).
  assert (meets p2 p1 a b → ¬ meets p1 p1 a b) as E4.
  { unfold meets. intros [[??]|[??]] [[??]|[??]]; set_solver. }
  repeat case_decide; tauto.
Qed.

Lemma connectEach_links is_ to cf :
  cabled cf → (∀ x, x ∈ is_ → (x < sc_n cf)%nat) → (∀ x, x ∈ to → (x < sc_n cf)%nat) →
  ∃ n', connectEach is_ to cf = Done (set_net n' cf) ∧ same_net (sc_net cf) n' ∧
    eqrel (sc_n cf) (link (set_net n' cf)) (set_links (meets is_ to) true (link cf)).
Proof.
  intros Hc. revert cf Hc. induction is_ as [|i is_ IH]; intros cf Hc Hr Ht; cbn [connectEach].
  { exists (sc_net cf). split; [by destruct cf|]. split; [done|]. intros a b _ _. unfold set_links.
    rewrite !decide_False by (unfold meets; set_solver). by destruct cf. }
  change (connectUnlocked i to cf) with (switch true i to cf).
  destruct (switch_links true i to cf Hc (Hr i ltac:(by left)) Ht) as (n1 & -> & Hs1 & Hl1). cbn [mbind outcome_bind].
  destruct (IH (set_net n1 cf)) as (n2 & H2 & Hs2 & Hl2); [by eapply cabled_ext|intros; apply Hr; by right|done|].
  exists n2. split; [exact H2|]. split; [by eapply same_net_trans|].
  collapse. rewrite Hl2, Hl1. intros a b _ _. unfold set_links.
  assert (meets (i :: is_) to a b ↔ meets is_ to a b ∨ touches i to a b) by (unfold meets, touches; set_solver).
  repeat case_decide; tauto.
Qed.

Lemma ConnectAll_links cf :
  cabled cf → ∃ n', ConnectAll cf = Done (set_net n' cf) ∧ same_net (sc_net cf) n' ∧
    eqrel (sc_n cf) (link (set_net n' cf)) (λ _ _, true).
Proof.
  intros Hc. destruct (connectEach_links (seq 0 (sc_n cf)) (All cf) cf Hc) as (n' & H & Hs & Hl).
  { intros x Hx%elem_of_seq. lia. } { intros x Hx%elem_of_seq. lia. }
  exists n'. split; [exact H|]. split; [done|]. rewrite Hl. intros a b Ha Hb. unfold set_links.
  rewrite decide_True; [done|]. left. split; apply elem_of_seq; lia.
Qed.

(** *** Any sequence of operations *)

Definition run_cop (o : cop) cf : outcome config :=
  match o with
  | CConnect i to => connect i to cf
  | CDisconnect i from => disconnect i from cf
  | CConnectAll => ConnectAll cf
  | CPartition p1 p2 => partition p1 p2 cf
  end.

Fixpoint run_cops (os : list cop) cf : outcome config :=
  match os with [] => mret cf | o :: os' => cf ← run_cop o cf; run_cops os' cf end.

Lemma run_cop_links o cf :
  cabled cf → valid_cop (sc_n cf) o →
  ∃ n', run_cop o cf = Done (set_net n' cf) ∧ same_net (sc_net cf) n' ∧
    eqrel (sc_n cf) (link (set_net n' cf)) (spec_cop o (link cf)).
Proof.
  intros Hc. destruct o as [i to|i from| |p1 p2]; cbn [run_cop valid_cop].
  - intros (Hi & _ & Ht). by apply switch_links.
  - intros (Hi & Hl & Hf). unfold disconnect. rewrite disconnect_switch by done. by apply switch_links.
  - intros _. by apply ConnectAll_links.
  - intros (H1 & H2 & Hd). by apply partition_links.
Qed.

End links.

(** ** Splitting around a leader *)

Section splitting.

Lemma nupdate_Done {A} (xs : list A) i x : (i < length xs)%nat → nupdate xs i x = Done (<[i := x]> xs).
Proof. intros Hi. unfold nupdate. by rewrite (proj2 (Nat.ltb_lt _ _) Hi). Qed.

(** The loop writes the servers other than [l] one behind the other. *)
Lemma splitLoop_spec is_ l j p1 p2 :
  let os := filter (λ i, i ≠ l) is_ in
  (j + length os <= length p1 + length p2)%nat →
  ∃ q1 q2, splitLoop is_ l j p1 p2 = Done (q1, q2) ∧ length q1 = length p1 ∧ length q2 = length p2 ∧
    q1 ++ q2 = take j (p1 ++ p2) ++ os ++ drop (j + length os) (p1 ++ p2).
Proof.
  cbv zeta. revert j p1 p2. induction is_ as [|i is_ IH]; intros j p1 p2 Hl; cbn [splitLoop].
  { exists p1, p2. split_and!; try done. cbn. by rewrite Nat.add_0_r, take_drop. }
  destruct (bool_decide_reflect (i ≠ l)) as [Hne|Heq].
  2:{ rewrite filter_cons_False in Hl |- * by done. by apply IH. }
  rewrite filter_cons_True in Hl |- * by done. cbn [length] in *.
  assert (∀ xs : list nat, (j < length xs)%nat →
    take (S j) (<[j := i]> xs) = take j xs ++ [i]) as Htake.
  { intros xs Hj. rewrite (take_S_r _ _ i) by (by rewrite list_lookup_insert_eq). by rewrite take_insert_ge. }
  assert (∃ q1 q2, (if (j <? length p1)%nat
      then p1 ← nupdate p1 j i; splitLoop is_ l (S j) p1 p2
      else p2 ← nupdate p2 (j - length p1) i; splitLoop is_ l (S j) p1 p2) = splitLoop is_ l (S j) q1 q2 ∧
    length q1 = length p1 ∧ length q2 = length p2 ∧ q1 ++ q2 = <[j := i]> (p1 ++ p2)) as (q1 & q2 & -> & E1 & E2 & E).
  { destruct (Nat.ltb_spec j (length p1)).
    - rewrite nupdate_Done by done. exists (<[j := i]> p1), p2. rewrite length_insert. by rewrite insert_app_l.
    - rewrite nupdate_Done by lia. exists p1, (<[(j - length p1)%nat := i]> p2). rewrite length_insert.
      by rewrite insert_app_r_alt. }
  destruct (IH (S j) q1 q2) as (r1 & r2 & -> & F1 & F2 & F); [lia|]. exists r1, r2.
  split; [done|]. split; [lia|]. split; [lia|]. rewrite F, E, Htake by (rewrite length_app; lia).
  rewrite drop_insert_lt by lia. rewrite <- app_assoc. cbn. do 4 f_equal. lia.
Qed.

Lemma others_length n l : (l < n)%nat → S (length (filter (λ i, i ≠ l) (seq 0 n))) = n.
Proof.
  intros Hl. rewrite <- (length_seq n 0) at 2. pose proof (NoDup_seq 0 n) as Hnd.
  assert (l ∈ seq 0 n) as Hin by (apply elem_of_seq; lia). clear Hl. induction (seq 0 n) as [|x xs IH]; [set_solver|].
  apply NoDup_cons in Hnd as [Hx Hnd]. rewrite filter_cons. case_decide as E.
  - cbn. rewrite IH; [done|done|]. by apply elem_of_cons in Hin as [->|].
  - subst. rewrite filter_all; [done|]. by intros y Hy ->.
Qed.

(** One slot too many is left at 0 when the number of servers is even. *)
Lemma split_servers_spec n l :
  (2 <= n)%nat → (l < n)%nat →
  ∃ p1 p2, split_servers n l = Done (p1, p2) ∧ length p1 = (n / 2 + 1)%nat ∧ length p2 = (n / 2)%nat ∧
    p1 ++ p2 = filter (λ i, i ≠ l) (seq 0 n) ++ replicate (1 - n mod 2) 0%nat ++ [l].
Proof.
  intros Hn Hl. unfold split_servers. pose proof (others_length n l Hl) as Ho.
  pose proof (Nat.div_mod_eq n 2) as Hdiv. pose proof (Nat.mod_upper_bound n 2 ltac:(lia)) as Hmod.
  set (os := filter _ _) in *. set (m := (n / 2)%nat) in *.
  destruct (splitLoop_spec (seq 0 n) l 0 (replicate (m + 1) 0%nat) (replicate m 0%nat)) as (p1 & p2 & -> & E1 & E2 & E).
  { fold os. rewrite !length_replicate. lia. }
  fold os in E. rewrite length_replicate in E1, E2. cbn [mbind outcome_bind]. rewrite E2.
  destruct m as [|k] eqn:Ek; [lia|]. exists p1, (<[k := l]> p2). rewrite length_insert.
  split_and!; [done|done|done|]. rewrite <- insert_app_r, E, take_0, app_nil_l.
  rewrite <- replicate_add, drop_replicate. clear E.
  assert (n mod 2 = 0 ∨ n mod 2 = 1)%nat as [Hr|Hr] by lia; rewrite Hr.
  - replace (S k + 1 + S k - (0 + length os))%nat with 2%nat by lia.
    replace (length p1 + k)%nat with (length os + 1)%nat by lia. by rewrite insert_app_r.
  - replace (S k + 1 + S k - (0 + length os))%nat with 1%nat by lia.
    replace (length p1 + k)%nat with (length os + 0)%nat by lia. by rewrite insert_app_r.
Qed.

(** An odd number of servers is split into the leader's minority and the rest. *)
Lemma split_servers_odd n l :
  (3 <= n)%nat → (n mod 2 = 1)%nat → (l < n)%nat →
  ∃ p1 p2, split_servers n l = Done (p1, p2) ∧ p1 ++ p2 ≡ₚ seq 0 n ∧ l ∈ p2 ∧ (n < 2 * length p1)%nat.
Proof.
  intros Hn Hodd Hl. destruct (split_servers_spec n l) as (p1 & p2 & H & E1 & E2 & E); [lia|done|].
  rewrite Hodd in E. cbn in E. pose proof (Nat.div_mod_eq n 2). exists p1, p2. split; [done|]. split; [|split; [|lia]].
  - rewrite E. apply NoDup_Permutation.
    + apply NoDup_app. split_and!; [apply NoDup_filter, NoDup_seq| |apply NoDup_singleton].
      intros x [Hx _]%list_elem_of_filter. set_solver.
    + apply NoDup_seq.
    + intros x. rewrite elem_of_app, list_elem_of_filter, list_elem_of_singleton, elem_of_seq.
      destruct (decide (x = l)) as [->|]; [|tauto]. split; [intros _; split; lia|auto].
  - destruct (decide (p2 = [])) as [->|Hne]; [cbn [length] in E2; lia|].
    destruct (exists_last Hne) as (q & x & ->). rewrite app_assoc in E. apply app_inj_tail in E as [_ ->]. set_solver.
Qed.

End splitting.

(** ** Random handles *)

Section handles.
Context {A : Type}.
Implicit Types sa : list A.

Lemma swap_perm i j sa :
  (i < length sa)%nat → (j < length sa)%nat → ∃ sa', swap i j sa = Done sa' ∧ sa' ≡ₚ sa.
Proof.
  intros Hi Hj. unfold swap. destruct (lookup_lt_is_Some_2 sa i Hi) as [a Ha], (lookup_lt_is_Some_2 sa j Hj) as [b Hb].
  rewrite Ha, Hb. cbn. eexists. split; [done|]. by apply Permutation_insert_swap.
Qed.

Lemma shuffleLoop_perm i rs sa :
  (i + length rs <= length sa)%nat → (∀ k r, rs !! k = Some r → (r <= i + k)%nat) →
  ∃ sa', shuffleLoop i rs sa = Done sa' ∧ sa' ≡ₚ sa.
Proof.
  revert i sa. induction rs as [|r rs IH]; intros i sa Hl Hr; cbn in *; [by exists sa|].
  pose proof (Hr 0%nat r eq_refl). destruct (swap_perm i r sa) as (sa1 & -> & Hp); [lia|lia|]. cbn.
  destruct (IH (S i) sa1) as (sa' & -> & Hp'); [rewrite Hp; lia|intros k r' Hk; specialize (Hr (S k) r' Hk); lia|].
  exists sa'. split; [done|]. by rewrite Hp'.
Qed.

Lemma random_handles_perm rs sa :
  length rs = length sa → (∀ k r, rs !! k = Some r → (r <= k)%nat) →
  ∃ sa', random_handles rs sa = Done sa' ∧ sa' ≡ₚ sa.
Proof. intros Hl Hr. by apply shuffleLoop_perm; [lia|]. Qed.

End handles.
