(* ===== verification/ServiceServers.v ===== *)
(** * Servers and clients of the service testers (src/src/kvraft/config.go, src/src/shardctrler/config.go)

    Starting, restarting and connecting servers of any service that satisfies
    [ReplicatedLaws], and the ends of clients. *)

From stdpp Require Import base list numbers gmap strings.
From Stdlib Require Import Lia.
From S2P Require Import Prelude Labrpc RaftLog Persister RaftCore RaftLocal RaftTester TesterSafety TesterMesh Services KvRaft ServiceTester ServiceSafety.

Section servers.
Context {codec : RaftCodec} {S_ : Type} {R : Replicated codec S_} {laws : ReplicatedLaws R}.
Context {T V App : Type}.
Abbreviation config := (config S_ T V App).
Abbreviation network := (@net name _ _ T V App).
Implicit Types (cf : config) (n : network).

(** New ends in the network: made, disabled, and leading to the servers in order. *)
Record new_ends (names : list string) n n' : Prop := {
  ne_ends e : inl e ∈ net_ends n' ↔ inl e ∈ net_ends n ∨ e ∈ names;
  ne_enabled e : enabled n' e = if decide (e ∈ names) then false else enabled n e;
  ne_routes m e : names !! m = Some e → net_connections n' !! inl e = Some (Some (inr (Z.of_nat m)));
  ne_others e : e ∉ names → net_connections n' !! inl e = net_connections n !! inl e;
}.

Lemma makeEnds_new names n :
  NoDup names → (∀ e, e ∈ names → inl e ∉ net_ends n) →
  ∃ n', makeEnds names 0 n = Done n' ∧ new_ends names n n' ∧ net_servers n' = net_servers n ∧ net_srvs n' = net_srvs n.
Proof.
  intros Hnd Hf. destruct (makeEnds_spec names 0 n Hnd Hf) as (n' & H & Hs & He).
  destruct (makeEnds_tables _ _ _ _ H) as (Hn & Hsv & Hc & Hr). exists n'. split; [done|].
  split; [|done]. split; [|done|by apply Hr|done]. intros e. rewrite Hn. split; [|naive_solver].
  intros [?|(x & [= <-] & ?)]; auto.
Qed.

(** [StartServer], for whatever state the persister holds. *)
Lemma StartServer_spec i names kvsvc rfsvc c cf rf :
  NoDup names → (∀ e, e ∈ names → inl e ∉ net_ends (sc_net cf)) →
  let ps := match held cf i with Some ps => Copy ps | None => MakePersister end in
  Make (Z.of_nat (sc_n cf)) (Z.of_nat i) ps c = Done rf →
  ∃ cf' s, StartServer i names kvsvc rfsvc c cf = Done cf' ∧ rf_of s = rf ∧
    (sc_n cf' = sc_n cf ∧ sc_servers cf' = <[i := Some s]> (sc_servers cf) ∧
     sc_saved cf' = <[i := Some ps]> (sc_saved cf) ∧ sc_endnames cf' = <[i := Some names]> (sc_endnames cf) ∧
     sc_clerks cf' = sc_clerks cf ∧ sc_newClerk cf' = sc_newClerk cf) ∧
    new_ends names (sc_net cf) (sc_net cf') ∧
    net_servers (sc_net cf') = <[inr (Z.of_nat i) := Some (length (net_srvs (sc_net cf)))]> (net_servers (sc_net cf)).
Proof.
  intros Hnd Hf ps Hmk. destruct (makeEnds_new names (sc_net cf) Hnd Hf) as (n1 & H1 & Hne & Hsv & Hsr).
  unfold StartServer. change (sc_net (set_endnames _ cf)) with (sc_net cf). rewrite H1. cbn [mbind outcome_bind].
  set (cf1 := set_net n1 _). change (held cf1 i) with (held cf i). fold ps.
  destruct (start_Done _ _ ps (sc_maxraftstate cf1) c rf Hmk) as (s & Hs & Hrf).
  change (sc_n cf1) with (sc_n cf). rewrite Hs. cbn [mbind outcome_bind]. eexists _, s. split; [reflexivity|].
  split; [done|]. split; [done|]. cbn. rewrite Hsv, Hsr. split; [|done]. destruct Hne. by split.
Qed.

(** ** Restarting *)

Lemma ShutdownServer_spec i cf s :
  cabled cf → (i < sc_n cf)%nat → sc_servers cf !! i = Some (Some s) →
  ∃ cf' n', ShutdownServer i cf = Done cf' ∧ same_net (sc_net cf) n' ∧
    eqrel (sc_n cf) (link (set_net n' cf)) (set_links (touches i (All cf)) false (link cf)) ∧
    cf' = set_servers (<[i := None]> (sc_servers cf)) (<[i := Some (Copy (persister (rf_of s)))]> (sc_saved cf))
            (set_net (DeleteServer (inr (Z.of_nat i)) n') cf).
Proof.
  intros Hc Hi Hs. unfold ShutdownServer. rewrite disconnect_switch; [|done|done|unfold All; by rewrite length_seq].
  destruct (switch_links false i (All cf) cf Hc Hi) as (n1 & -> & Hs1 & Hl1).
  { intros x Hx%elem_of_seq. lia. }
  cbn [mbind outcome_bind]. eexists _, n1. split; [reflexivity|]. split; [done|]. split; [done|].
  unfold held. cbn. by rewrite Hs.
Qed.

(** New names for a server: its own row changes, the others keep their names. *)
Lemma renamed_at i names cf cf' a b :
  (i < length (sc_endnames cf))%nat → sc_endnames cf' = <[i := Some names]> (sc_endnames cf) →
  endname_at cf' a b = if decide (a = i) then of_option (names !! b) else endname_at cf a b.
Proof.
  intros Hi E. unfold endname_at. rewrite E. case_decide as Ha.
  - subst. by rewrite list_lookup_insert_eq.
  - by rewrite list_lookup_insert_ne.
Qed.

Lemma cabled_rename i names cf cf' :
  cabled cf → (i < sc_n cf)%nat → NoDup names → length names = sc_n cf →
  (∀ a b e, endname_at cf a b = Done e → e ∉ names) →
  sc_n cf' = sc_n cf → sc_endnames cf' = <[i := Some names]> (sc_endnames cf) → cabled cf'.
Proof.
  intros [H1 H2 H3 H4] Hi Hnd Hlen Hnew E1 E2. split; rewrite ?E1, ?E2.
  - by rewrite length_insert.
  - intros a row. intros [(<- & [= <-] & _)|[_ ?]]%list_lookup_insert_Some; [done|eauto].
  - intros a Ha. destruct (decide (a = i)) as [->|]; [rewrite list_lookup_insert_eq by lia; eauto|].
    rewrite list_lookup_insert_ne by done. auto.
  - assert (∀ b e, of_option (names !! b) = Done e → names !! b = Some e) as Ho.
    { intros b e. destruct (names !! b); [by intros [= ->]|done]. }
    intros a b a' b' e. rewrite !(renamed_at i names cf cf') by (done || lia).
    repeat case_decide; subst.
    + intros Hb%Ho Hb'%Ho. split; [done|]. by eapply NoDup_lookup.
    + intros Hb%Ho Hb'. exfalso. apply (Hnew _ _ _ Hb'). by eapply list_elem_of_lookup_2.
    + intros Hb' Hb%Ho. exfalso. apply (Hnew _ _ _ Hb'). by eapply list_elem_of_lookup_2.
    + apply H4.
Qed.

Lemma restart_spec i names kvsvc rfsvc c cf s :
  cabled cf → (i < sc_n cf)%nat → sc_servers cf !! i = Some (Some s) → (i < length (sc_saved cf))%nat →
  stable (rf_of s) → me (rf_of s) = Z.of_nat i → NoDup names → length names = sc_n cf →
  (∀ e, e ∈ names → inl e ∉ net_ends (sc_net cf)) →
  (∀ a b e, endname_at cf a b = Done e → inl e ∈ net_ends (sc_net cf)) →
  ∃ cf1 cf' s', ShutdownServer i cf = Done cf1 ∧ StartServer i names kvsvc rfsvc c cf1 = Done cf' ∧ cabled cf' ∧
    sc_servers cf' !! i = Some (Some s') ∧ currentTerm (rf_of s') = currentTerm (rf_of s) ∧
    votedFor (rf_of s') = votedFor (rf_of s) ∧ log (rf_of s') = log (rf_of s) ∧ state (rf_of s') = Follower ∧
    eqrel (sc_n cf) (link cf') (set_links (touches i (All cf)) false (link cf)).
Proof.
  intros Hc Hi Hs Hsl Hst Hme Hnd Hlen Hfresh Hknown.
  destruct (ShutdownServer_spec i cf s Hc Hi Hs) as (cf1 & n1 & H1 & (Ends & _) & Hl1 & ->).
  set (cf1 := set_servers _ _ _) in *.
  assert (held cf1 i = Some (persister (rf_of s))) as Hh.
  { unfold held. subst cf1. cbn. rewrite !list_lookup_insert_eq by (done || by eapply lookup_lt_Some). cbn.
    f_equal. by destruct (persister (rf_of s)). }
  destruct (Make_recovers (Z.of_nat (sc_n cf)) c (rf_of s) Hst) as (rf' & Hmk & _ & _ & _ & Ht & Hv & Hlog & Hf & _).
  rewrite Hme in Hmk.
  destruct (StartServer_spec i names kvsvc rfsvc c cf1 rf' Hnd) as (cf' & s' & H2 & <- & (E1 & E2 & E3 & E4 & _) & Hne & _).
  { intros e He. subst cf1. cbn. rewrite Ends. auto. }
  { rewrite Hh. replace (Copy (persister (rf_of s))) with (persister (rf_of s)) by (by destruct (persister (rf_of s))). done. }
  assert (∀ a b e, endname_at cf a b = Done e → e ∉ names) as Hold by (intros a b e Hab Hin; by apply (Hfresh e), (Hknown a b)).
  pose proof (c_endnames _ Hc) as Hel.
  exists cf1, cf', s'. split_and!; try done.
  - by eapply (cabled_rename i names cf).
  - rewrite E2. subst cf1. cbn. apply list_lookup_insert_eq. rewrite length_insert. by eapply lookup_lt_Some.
  - intros a b Ha Hb. unfold link, set_links. rewrite (renamed_at i names cf1) by (done || (cbn; lia)).
    change (endname_at cf1 a b) with (endname_at cf a b). case_decide as Hai.
    + subst. rewrite decide_True by (left; split; [done|apply elem_of_seq; lia]).
      destruct (names !! b) as [e|] eqn:Eb; [|done]. cbn. rewrite (ne_enabled _ _ _ Hne).
      by rewrite decide_True by (by eapply list_elem_of_lookup_2).
    + specialize (Hl1 a b Ha Hb). unfold link, set_links in Hl1. rewrite <- Hl1.
      change (endname_at (set_net n1 cf) a b) with (endname_at cf a b).
      destruct (endname_at cf a b) as [e| |] eqn:Eab; [|done|done]. rewrite (ne_enabled _ _ _ Hne).
      by rewrite decide_False by (by eapply Hold).
Qed.

(** ** Clients *)

(** The end of the clerk [ck] to the server [j] is enabled. *)
Definition clink cf (ck j : nat) : bool :=
  match clerk_names ck cf !! j with Some e => enabled (sc_net cf) e | None => false end.

(** [ConnectClient] and [DisconnectClient] on one clerk. *)
Lemma switch_client b ck xs cf :
  NoDup (clerk_names ck cf) → (∀ x, x ∈ xs → (x < length (clerk_names ck cf))%nat) →
  ∃ n', (if b : bool then ConnectClient ck xs cf else DisconnectClient ck xs cf) = Done (set_net n' cf) ∧
    (∀ j, (j < length (clerk_names ck cf))%nat →
       clink (set_net n' cf) ck j = if decide (j ∈ xs) then b else clink cf ck j) ∧
    (∀ e, e ∉ clerk_names ck cf → enabled n' e = enabled (sc_net cf) e).
Proof.
  intros Hnd Hxs. set (names := clerk_names ck cf) in *.
  destruct (enableLoop_spec xs (λ _, true) (λ j, of_option (names !! j)) b (sc_net cf)) as (n1 & Hn1 & He1).
  { intros j Hj _. destruct (lookup_lt_is_Some_2 names j (Hxs j Hj)) as [e ->]. by exists e. }
  assert (∀ j e, of_option (names !! j) = Done e ↔ names !! j = Some e) as Ho by (intros; apply of_option_Done).
  exists n1. split.
  { destruct b; unfold ConnectClient, ConnectClientUnlocked, DisconnectClient, DisconnectClientUnlocked, enableAll;
      fold names; by rewrite Hn1. }
  split.
  - intros j Hj. unfold clink. change (clerk_names ck (set_net n1 cf)) with names. fold names.
    destruct (lookup_lt_is_Some_2 names j Hj) as [e Ee]. rewrite Ee. cbn.
    destruct (He1 e) as [[-> (k & Hk & _ & Ek%Ho)]|[-> Hno]].
    + assert (k = j) as -> by (by eapply NoDup_lookup). by rewrite decide_True.
    + rewrite decide_False; [done|]. intros Hin. apply Hno. exists j. by rewrite Ho.
  - intros e Hne. destruct (He1 e) as [[_ (k & Hk & _ & Ek%Ho)]|[-> _]]; [|done].
    exfalso. apply Hne. by eapply list_elem_of_lookup_2.
Qed.

Lemma makeClient_spec to names rs cf :
  NoDup names → length names = sc_n cf → (∀ e, e ∈ names → inl e ∉ net_ends (sc_net cf)) →
  length rs = sc_n cf → (∀ k r, rs !! k = Some r → (r <= k)%nat) → (∀ x, x ∈ to → (x < sc_n cf)%nat) →
  ∃ servers cf', makeClient to names rs cf = Done (sc_newClerk cf, servers, cf') ∧ servers ≡ₚ names ∧
    clerk_names (sc_newClerk cf) cf' = names ∧ sc_endnames cf' = sc_endnames cf ∧ sc_n cf' = sc_n cf ∧
    (∀ j, (j < sc_n cf)%nat → clink cf' (sc_newClerk cf) j = bool_decide (j ∈ to)) ∧
    (∀ e, e ∉ names → enabled (sc_net cf') e = enabled (sc_net cf) e).
Proof.
  intros Hnd Hlen Hf Hrs Hr Hto. destruct (makeEnds_new names (sc_net cf) Hnd Hf) as (n1 & H1 & Hne & _).
  destruct (random_handles_perm rs names) as (servers & Hsh & Hp); [lia|done|].
  unfold makeClient. rewrite H1. cbn [mbind outcome_bind]. rewrite Hsh. cbn [mbind outcome_bind].
  set (ck := sc_newClerk (set_net n1 cf)). set (cf2 := set_clerks _ _ _ _).
  assert (clerk_names ck cf2 = names) as Hck by (unfold clerk_names; subst cf2; cbn; by rewrite lookup_insert_eq).
  destruct (switch_client true ck to cf2) as (n3 & H3 & Hl3 & He3); rewrite ?Hck; [done|by rewrite Hlen|].
  change (ConnectClientUnlocked ck to cf2) with (ConnectClient ck to cf2). rewrite H3. cbn [mbind outcome_bind].
  exists servers, (set_net n3 cf2). split; [done|]. rewrite Hck in *. split_and!; try done.
  - intros j Hj. rewrite Hl3 by lia. case_decide as Hin; [by rewrite bool_decide_eq_true_2|].
    rewrite bool_decide_eq_false_2 by done. unfold clink. rewrite Hck.
    destruct (names !! j) as [e|] eqn:Ej; [|done]. change (sc_net cf2) with n1. rewrite (ne_enabled _ _ _ Hne).
    by rewrite decide_True by (by eapply list_elem_of_lookup_2).
  - intros e He. cbn. rewrite He3 by done. change (sc_net cf2) with n1. rewrite (ne_enabled _ _ _ Hne).
    by rewrite decide_False.
Qed.

(** ** Making a test *)

Abbreviation starting := (@starting V App).
Implicit Types sts : list starting.

(** The first [k] of the servers are started. *)
Record started sts (k : nat) cf : Prop := {
  s_size : sc_n cf = length sts;
  s_named i st : sts !! i = Some st → sc_endnames cf !! i = Some (if decide (i < k)%nat then Some (st_names st) else None);
  s_rows : length (sc_endnames cf) = length sts;
  s_alive i : (i < k)%nat → ∃ s, sc_servers cf !! i = Some (Some s) ∧ newborn (rf_of s) i;
  s_idle i : (k <= i < length sts)%nat → sc_servers cf !! i = Some None ∧ sc_saved cf !! i = Some None;
  s_ends e : inl e ∈ net_ends (sc_net cf) ↔ ∃ i st, (i < k)%nat ∧ sts !! i = Some st ∧ e ∈ st_names st;
  s_routes i st j e : (i < k)%nat → sts !! i = Some st → st_names st !! j = Some e →
    net_connections (sc_net cf) !! inl e = Some (Some (inr (Z.of_nat j)));
  s_servers i : (i < k)%nat → ∃ p, net_servers (sc_net cf) !! inr (Z.of_nat i) = Some (Some p);
}.

(** All names differ, and every server has one for each. *)
Definition fresh_names sts : Prop :=
  NoDup (concat (st_names <$> sts)) ∧ ∀ st, st ∈ sts → length (st_names st) = length sts.

Lemma names_row sts i st : sts !! i = Some st → (st_names <$> sts) !! i = Some (st_names st).
Proof. intros Hi. by rewrite list_lookup_fmap, Hi. Qed.

Lemma names_apart sts i j st st' e :
  fresh_names sts → sts !! i = Some st → sts !! j = Some st' → e ∈ st_names st → e ∈ st_names st' → i = j.
Proof.
  intros [Hnd _] Hi Hj He He'.
  eapply (NoDup_concat_other _ i j); [exact Hnd|by apply names_row|by apply names_row|done|done].
Qed.

Lemma started_next sts k st cf :
  fresh_names sts → started sts k cf → sts !! k = Some st →
  ∃ cf', StartServer k (st_names st) (st_kvsvc st) (st_rfsvc st) (st_clock st) cf = Done cf' ∧ started sts (S k) cf'.
Proof.
  intros Hg [Hsz Hnm Hrw Hal Hid Hen Hro Hse] Hk. pose proof (lookup_lt_Some _ _ _ Hk) as Hlt.
  destruct (Hid k) as [Hrk Hsk]; [lia|].
  assert (held cf k = None) as Hh by (unfold held; by rewrite Hrk, Hsk).
  destruct (Make_newborn (Z.of_nat (sc_n cf)) k (st_clock st)) as (rf & Hmk & Hnew).
  destruct (StartServer_spec k (st_names st) (st_kvsvc st) (st_rfsvc st) (st_clock st) cf rf)
    as (cf' & s & H & <- & (E1 & E2 & E3 & E4 & _) & [F1 F2 F3 F4] & F5).
  { destruct Hg as [Hnd _]. eapply NoDup_concat_row; [exact Hnd|by apply names_row]. }
  { intros e He (i & s & Hi & His & Hes)%Hen. assert (i = k); [by eapply (names_apart sts)|lia]. }
  { by rewrite Hh. }
  exists cf'. split; [done|]. split; rewrite ?E1; try done.
  - intros i s' Hi. rewrite E4. destruct (decide (i = k)) as [->|Hik].
    + rewrite list_lookup_insert_eq, decide_True by lia. congruence.
    + rewrite list_lookup_insert_ne, (Hnm _ _ Hi) by done. repeat case_decide; (done || lia).
  - by rewrite E4, length_insert.
  - intros i Hi. rewrite E2. destruct (decide (i = k)) as [->|Hik].
    + exists s. split; [|done]. apply list_lookup_insert_eq. by eapply lookup_lt_Some.
    + rewrite list_lookup_insert_ne by done. apply Hal. lia.
  - intros i Hi. rewrite E2, E3, !list_lookup_insert_ne by lia. apply Hid. lia.
  - intros e. rewrite F1, Hen. split.
    + intros [(i & s' & ? & ? & ?)|He]; [exists i, s'|exists k, st]; split_and!; (done || lia).
    + intros (i & s' & Hi & His & Hes). destruct (decide (i = k)) as [->|]; [right; congruence|].
      left. exists i, s'. split_and!; (done || lia).
  - intros i s' j e Hi His Hj. destruct (decide (i = k)) as [->|Hik]; [apply F3; congruence|].
    rewrite F4; [apply (Hro i s'); [lia|done|done]|]. intros He. apply Hik.
    by eapply (names_apart sts); [done..|eapply list_elem_of_lookup_2|].
  - intros i Hi. rewrite F5. destruct (decide (i = k)) as [->|Hik]; [eexists; apply lookup_insert_eq|].
    rewrite lookup_insert_ne by (intros [= ?%Nat2Z.inj]; lia). apply Hse. lia.
Qed.

Lemma startAll_started sts rest k cf :
  fresh_names sts → started sts k cf → (k <= length sts)%nat → drop k sts = rest →
  ∃ cf', startAll k rest cf = Done cf' ∧ started sts (length sts) cf'.
Proof.
  intros Hg. revert k cf. induction rest as [|st rest IH]; intros k cf Hm Hk Hd; cbn [startAll].
  - exists cf. split; [done|]. assert (k = length sts) as <-; [|done].
    apply (f_equal length) in Hd. rewrite length_drop in Hd. cbn in Hd. lia.
  - assert (sts !! k = Some st) as Hst by (rewrite <- (Nat.add_0_r k), <- lookup_drop, Hd; reflexivity).
    destruct (started_next sts k st cf Hg Hm Hst) as (cf1 & -> & Hm1). cbn [mbind outcome_bind].
    apply IH; [done|by eapply lookup_lt_Some|]. rewrite (drop_S _ _ _ Hst) in Hd. congruence.
Qed.

Lemma started_cabled sts cf : fresh_names sts → started sts (length sts) cf → cabled cf.
Proof.
  intros Hg [Hsz Hnm Hrw _ _ _ _ _].
  assert (∀ a b e, endname_at cf a b = Done e → ∃ st, sts !! a = Some st ∧ st_names st !! b = Some e) as Hat.
  { intros a b e Hab. unfold endname_at in Hab. destruct (sts !! a) as [st|] eqn:Ea.
    - rewrite (Hnm _ _ Ea), decide_True in Hab by (by eapply lookup_lt_Some). exists st. split; [done|].
      by apply of_option_Done in Hab.
    - apply lookup_ge_None in Ea. rewrite (proj2 (lookup_ge_None _ a)) in Hab by lia. done. }
  split.
  - lia.
  - intros i row Hi. destruct (lookup_lt_is_Some_2 sts i) as [st Hst]; [apply lookup_lt_Some in Hi; lia|].
    rewrite (Hnm _ _ Hst), decide_True in Hi by (by eapply lookup_lt_Some). injection Hi as <-.
    rewrite Hsz. apply Hg. by eapply list_elem_of_lookup_2.
  - intros i Hi. destruct (lookup_lt_is_Some_2 sts i) as [st Hst]; [lia|]. exists (st_names st).
    by rewrite (Hnm _ _ Hst), decide_True by lia.
  - intros i j i' j' e (st & Hi & Hj)%Hat (st' & Hi' & Hj')%Hat.
    assert (i = i') as <- by (by eapply (names_apart sts); [done..|eapply list_elem_of_lookup_2|eapply list_elem_of_lookup_2]).
    split; [done|]. assert (st' = st) as -> by congruence. destruct Hg as [Hnd _].
    eapply NoDup_lookup; [|done|done]. eapply NoDup_concat_row; [exact Hnd|by apply names_row].
Qed.

Lemma started_new m app sts : started sts 0 (new_config (length sts) m app).
Proof.
  split; cbn; try done; try lia.
  - intros i st Hi%lookup_lt_Some. by apply lookup_replicate_2.
  - by rewrite length_replicate.
  - intros i Hi. split; apply lookup_replicate_2; lia.
  - intros e. split; [set_solver|]. intros (i & ? & ? & _). lia.
Qed.

(** Everybody is started and linked to everybody. *)
Record serving sts cf : Prop := {
  sv_cabled : cabled cf;
  sv_size : sc_n cf = length sts;
  sv_links : eqrel (length sts) (link cf) (λ _ _, true);
  sv_alive i : (i < length sts)%nat → ∃ s, sc_servers cf !! i = Some (Some s) ∧ newborn (rf_of s) i;
  sv_routes i j e : endname_at cf i j = Done e → (i < length sts)%nat → (j < length sts)%nat →
    net_connections (sc_net cf) !! inl e = Some (Some (inr (Z.of_nat j))) ∧
    ∃ p, net_servers (sc_net cf) !! inr (Z.of_nat j) = Some (Some p);
}.

Lemma make_config_serving sts unreliable m app :
  fresh_names sts → ∃ cf : config, make_config sts unreliable m app = Done cf ∧ serving sts cf.
Proof.
  intros Hg. unfold make_config.
  destruct (startAll_started sts sts 0 (new_config (length sts) m app) Hg) as (cf1 & -> & Hm);
    [apply started_new|lia|done|].
  cbn [mbind outcome_bind]. pose proof (started_cabled _ _ Hg Hm) as Hc. destruct Hm as [Hsz Hnm _ Hal _ _ Hro Hse].
  destruct (ConnectAll_links cf1 Hc) as (n2 & -> & (_ & _ & Es & Er) & Hl). cbn [mbind outcome_bind].
  eexists. split; [reflexivity|]. split; try done.
  - by eapply cabled_ext.
  - by rewrite Hsz in Hl.
  - intros i j e He Hi Hj. cbn. rewrite Er, Es. split; [|auto].
    destruct (lookup_lt_is_Some_2 sts i Hi) as [st Hst]. apply (Hro i st); [done|done|].
    unfold endname_at in He. cbn in He. rewrite (Hnm _ _ Hst), decide_True in He by done. by apply of_option_Done in He.
Qed.

End servers.
