(* ===== verification/ServiceTheorems.v ===== *)
(** * The theorems on the testers of the services *)

From stdpp Require Import base list numbers gmap strings.
From Stdlib Require Import Lia.
From S2P Require Import Prelude Labrpc RaftLog Persister RaftCore RaftLocal RaftTester TesterSafety TesterMesh Services KvRaft ServiceTester ServiceSafety ServiceServers.

(** ** Connections *)

Section connections.
Context {S_ T V App : Type}.

(** The operations on the relation, one after the other. *)
Definition spec_cops (os : list cop) (r : rel) : rel := foldl (λ r o, spec_cop o r) r os.

#[export] Instance spec_cops_proper n os : Proper (eqrel n ==> eqrel n) (spec_cops os).
Proof.
  induction os as [|o os IH]; intros r r' Hr; [done|]. cbn. apply IH. by rewrite Hr.
Qed.

(** C26. In a test all of whose servers have been started, with distinct end names, every
    sequence of connects, disconnects, partitions and [ConnectAll]s returns, and the
    ends that are enabled are those of the relation to which the same operations
    were applied; provided the operations name servers of the test, in lists not
    longer than the number of servers, and the two parts of a partition are
    disjoint.  Before a server has been started [disconnect] can panic; see
    [disconnect_guards_wrong_row]. *)
Theorem connections_refine (cf : config S_ T V App) (os : list cop) :
  cabled cf → (∀ o, o ∈ os → valid_cop (sc_n cf) o) →
  ∃ cf', run_cops os cf = Done cf' ∧ cabled cf' ∧ eqrel (sc_n cf) (link cf') (spec_cops os (link cf)).
Proof.
  revert cf. induction os as [|o os IH]; intros cf Hc Hv; cbn [run_cops]; [by exists cf|].
  destruct (run_cop_links o cf Hc) as (n1 & -> & _ & Hl); [apply Hv; by left|]. cbn [mbind outcome_bind].
  destruct (IH (set_net n1 cf)) as (cf' & H & Hc' & Hl'); [by eapply cabled_ext|intros; apply Hv; by right|].
  exists cf'. split; [done|]. split; [done|]. change (sc_n (set_net n1 cf)) with (sc_n cf) in Hl'.
  rewrite Hl'. cbn. by rewrite Hl.
Qed.

End connections.

(** ** Partitions around a leader *)

Section leader.
Context {codec : RaftCodec} {S_ : Type} {R : Replicated codec S_}.
Context {T V App : Type}.

Lemma leaderLoop_spec skip is_ (cf : config S_ T V App) l :
  leaderLoop skip is_ cf = Done (true, l) →
  l ∈ is_ ∧ ∃ s, sc_servers cf !! l = Some (Some s) ∧ state (rf_of s) = Leader.
Proof.
  induction is_ as [|i is_ IH]; cbn; [done|]. intros (o & Ho%of_option_Done & H)%bind_Done.
  destruct o as [s|].
  - destruct (bool_decide_reflect (state (rf_of s) = Leader)).
    + injection H as <-. split; [by left|eauto].
    + destruct (IH H). split; [by right|done].
  - destruct skip; [|done]. destruct (IH H). split; [by right|done].
Qed.

Lemma split_isolates l (cf : config S_ T V App) :
  cabled cf → (3 <= sc_n cf)%nat → (sc_n cf mod 2 = 1)%nat → (l < sc_n cf)%nat →
  ∃ p1 p2 cf', split_servers (sc_n cf) l = Done (p1, p2) ∧ partition p1 p2 cf = Done cf' ∧
    p1 ++ p2 ≡ₚ seq 0 (sc_n cf) ∧ l ∈ p2 ∧ (sc_n cf < 2 * length p1)%nat ∧
    eqrel (sc_n cf) (link cf') (λ a b, bool_decide (a ∈ p1 ↔ b ∈ p1)).
Proof.
  intros Hc Hn Hodd Hl. destruct (split_servers_odd _ _ Hn Hodd Hl) as (p1 & p2 & H & Hp & Hl2 & Hmaj).
  assert (∀ x, x ∈ p1 ++ p2 ↔ (x < sc_n cf)%nat) as Hmem by (intros x; rewrite Hp, elem_of_seq; lia).
  setoid_rewrite elem_of_app in Hmem.
  assert (NoDup (p1 ++ p2)) as Hnd by (rewrite Hp; apply NoDup_seq). apply NoDup_app in Hnd as (_ & Hd & _).
  assert (length p1 + length p2 = sc_n cf)%nat as Hlen by (rewrite <- length_app, Hp; apply length_seq).
  destruct (partition_links p1 p2 cf Hc) as (n' & Hpart & _ & Hlk).
  { split; [lia|]. intros x Hx. apply Hmem. auto. } { split; [lia|]. intros x Hx. apply Hmem. auto. }
  { intros x Hx Hx'. by apply (Hd x). }
  exists p1, p2, (set_net n' cf). split_and!; try done. rewrite Hlk. intros a b Ha%Hmem Hb%Hmem.
  pose proof (Hd a). pose proof (Hd b). unfold spec_cop, set_links. symmetry.
  destruct (decide (together p1 p2 a b)) as [Ht|Ht]; [apply bool_decide_eq_true; unfold together in Ht; tauto|].
  destruct (decide (apart p1 p2 a b)) as [Hx|Hx]; [apply bool_decide_eq_false|exfalso]; unfold together, apart in *; tauto.
Qed.

End leader.

(** With an odd number of servers, at least three, and a leader, [make_partition]
    returns two parts that together have every server once, with the leader in the
    smaller one; [partition] with these parts then leaves exactly the ends within
    a part enabled. *)
Theorem partition_isolates_leader {codec : RaftCodec} {T V App : Type} (cf : config KvRaft.KVServer T V App) l :
  cabled cf → (3 <= sc_n cf)%nat → (sc_n cf mod 2 = 1)%nat → KvRaftTester.Leader cf = Done (true, l) →
  ∃ p1 p2 cf', KvRaftTester.make_partition cf = Done (p1, p2) ∧ partition p1 p2 cf = Done cf' ∧
    p1 ++ p2 ≡ₚ seq 0 (sc_n cf) ∧ l ∈ p2 ∧ (sc_n cf < 2 * length p1)%nat ∧
    eqrel (sc_n cf) (link cf') (λ a b, bool_decide (a ∈ p1 ↔ b ∈ p1)).
Proof.
  intros Hc Hn Hodd Hlead. destruct (leaderLoop_spec _ _ _ _ Hlead) as [Hl%elem_of_seq _].
  unfold KvRaftTester.make_partition. rewrite Hlead. cbn [mbind outcome_bind]. apply split_isolates; (done || lia).
Qed.

(** With an even number of servers [make_partition] puts server 0 into both parts. *)
Theorem even_split_overlaps :
  split_servers 4 3 = Done ([0; 1; 2], [0; 3])%nat.
Proof. reflexivity. Qed.

(** ** Servers and clients *)

Section servers.
Context {codec : RaftCodec} {S_ : Type} {R : Replicated codec S_} {laws : ReplicatedLaws R}.
Context {T V App : Type}.

(** Shutting a server down and starting it again with fresh end names gives a
    follower with the term, the vote and the log the old peer had; the server is
    linked to nobody, and all other links are as before.  This holds for every
    service that starts and stops with its peer. *)
Theorem service_restart_recovers (cf : config S_ T V App) i names kvsvc rfsvc c s :
  cabled cf → (i < sc_n cf)%nat → sc_servers cf !! i = Some (Some s) → (i < length (sc_saved cf))%nat →
  stable (rf_of s) → me (rf_of s) = Z.of_nat i → NoDup names → length names = sc_n cf →
  (∀ e, e ∈ names → inl e ∉ net_ends (sc_net cf)) →
  (∀ a b e, endname_at cf a b = Done e → inl e ∈ net_ends (sc_net cf)) →
  ∃ cf1 cf' s', ShutdownServer i cf = Done cf1 ∧ StartServer i names kvsvc rfsvc c cf1 = Done cf' ∧ cabled cf' ∧
    sc_servers cf' !! i = Some (Some s') ∧ currentTerm (rf_of s') = currentTerm (rf_of s) ∧
    votedFor (rf_of s') = votedFor (rf_of s) ∧ log (rf_of s') = log (rf_of s) ∧ state (rf_of s') = Follower ∧
    eqrel (sc_n cf) (link cf') (set_links (touches i (All cf)) false (link cf)).
Proof using laws. apply restart_spec. Qed.

(** [ConnectClient] (true) and [DisconnectClient] calls for one clerk. *)
Fixpoint switch_clients (ck : nat) (os : list (bool * list nat)) (cf : config S_ T V App) : outcome (config S_ T V App) :=
  match os with
  | [] => mret cf
  | (b, xs) :: os' =>
      cf ← (if b : bool then ConnectClient ck xs cf else DisconnectClient ck xs cf);
      switch_clients ck os' cf
  end.

Lemma switch_clients_spec ck os (cf : config S_ T V App) :
  NoDup (clerk_names ck cf) → (∀ o x, o ∈ os → x ∈ o.2 → (x < length (clerk_names ck cf))%nat) →
  ∃ cf', switch_clients ck os cf = Done cf' ∧ clerk_names ck cf' = clerk_names ck cf ∧
    (∀ j, (j < length (clerk_names ck cf))%nat →
       clink cf' ck j = foldl (λ v o, if decide (j ∈ o.2) then o.1 else v) (clink cf ck j) os) ∧
    (∀ e, e ∉ clerk_names ck cf → enabled (sc_net cf') e = enabled (sc_net cf) e).
Proof.
  revert cf. induction os as [|[b xs] os IH]; intros cf Hnd Hxs; cbn [switch_clients]; [by exists cf|].
  destruct (switch_client b ck xs cf Hnd) as (n1 & -> & Hl1 & He1); [intros x; apply (Hxs (b, xs)); by left|].
  cbn [mbind outcome_bind]. destruct (IH (set_net n1 cf)) as (cf' & H & Hck & Hl & He); [done|intros; apply (Hxs o); [by right|done]|].
  change (clerk_names ck (set_net n1 cf)) with (clerk_names ck cf) in *.
  exists cf'. split; [done|]. split; [done|]. split; [intros j Hj; by rewrite Hl, Hl1|].
  intros e Hne. rewrite He by done. by apply He1.
Qed.

(** A new client, whatever the random order of its ends, has an end to every
    server once; after any sequence of [ConnectClient] and [DisconnectClient] its
    end to [j] is enabled exactly if the last call that named [j] was a connect, or
    there was none and [j] was in the list given to [makeClient]; no other end is
    touched. *)
Theorem client_ends (cf : config S_ T V App) to names rs os :
  NoDup names → length names = sc_n cf → (∀ e, e ∈ names → inl e ∉ net_ends (sc_net cf)) →
  length rs = sc_n cf → (∀ k r, rs !! k = Some r → (r <= k)%nat) → (∀ x, x ∈ to → (x < sc_n cf)%nat) →
  (∀ o x, o ∈ os → x ∈ o.2 → (x < sc_n cf)%nat) →
  ∃ ck servers cf1 cf', makeClient to names rs cf = Done (ck, servers, cf1) ∧ servers ≡ₚ names ∧
    switch_clients ck os cf1 = Done cf' ∧
    (∀ j, (j < sc_n cf)%nat →
       clink cf' ck j = foldl (λ v o, if decide (j ∈ o.2) then o.1 else v) (bool_decide (j ∈ to)) os) ∧
    (∀ e, e ∉ names → enabled (sc_net cf') e = enabled (sc_net cf) e).
Proof.
  intros Hnd Hlen Hf Hrs Hr Hto Hos.
  destruct (makeClient_spec to names rs cf Hnd Hlen Hf Hrs Hr Hto) as (servers & cf1 & H1 & Hp & Hck & _ & _ & Hl1 & He1).
  destruct (switch_clients_spec (sc_newClerk cf) os cf1) as (cf' & H2 & _ & Hl2 & He2); rewrite ?Hck; [done|by rewrite Hlen|].
  exists (sc_newClerk cf), servers, cf1, cf'. rewrite Hck, Hlen in *. split_and!; try done.
  - intros j Hj. by rewrite Hl2, Hl1.
  - intros e He. by rewrite He2, He1.
Qed.

(** Given end names that all differ, [make_config] returns a test in which every
    server runs with a new peer, every end between servers is enabled and leads to
    the server it is for. *)
Theorem service_make_config (sts : list (@starting V App)) unreliable maxraftstate (app : App) :
  fresh_names sts → ∃ cf : config S_ T V App, make_config sts unreliable maxraftstate app = Done cf ∧ serving sts cf.
Proof using laws. apply make_config_serving. Qed.

End servers.

(** ** A server that was never started *)

(** The second server has not been started: its row of end names is nil. *)
Definition half_started : config KvRaft.KVServer unit unit unit :=
  mkCfg (MakeNetwork [] ()) 2 [None; None] [None; None] [Some ["00"; "01"]; None] ∅ 0 1002 (-1) 0 0.

(** [disconnectUnlocked] tests the row at the position in its list instead of the
    row of the server there, so disconnecting from a server that was never started
    panics although the guard is meant to skip it; where position and server
    coincide the guard works. *)
Theorem disconnect_guards_wrong_row :
  disconnectUnlocked 0 [1%nat] half_started = Panicked ∧
  ∃ cf', disconnectUnlocked 0 [0; 1]%nat half_started = Done cf'.
Proof. split; [reflexivity|]. eexists. vm_compute. reflexivity. Qed.

(** ** Three servers for the witnesses *)

Definition no_service : @Service unit unit := mkService "KVServer" ∅.

Definition three_starts : list (@starting unit unit) :=
  [mkStart ["00"; "01"; "02"] no_service no_service (mkClock 1 2);
   mkStart ["10"; "11"; "12"] no_service no_service (mkClock 3 4);
   mkStart ["20"; "21"; "22"] no_service no_service (mkClock 5 6)].

Lemma three_fresh : fresh_names three_starts.
Proof.
  split; [by apply (bool_decide_unpack _)|]. intros st Hst.
  repeat (apply elem_of_cons in Hst as [->|Hst]; [done|]). by apply not_elem_of_nil in Hst.
Qed.

Definition three_servers : config KvRaft.KVServer unit unit unit :=
  match make_config three_starts false (-1) () with Done cf => cf | _ => half_started end.

Lemma service_make_config_witness :
  ∃ cf : config KvRaft.KVServer unit unit unit, make_config three_starts false (-1) () = Done cf ∧ serving three_starts cf.
Proof. apply (service_make_config three_starts false (-1) () three_fresh). Defined.

Lemma three_cabled : cabled three_servers.
Proof.
  destruct (make_config_serving (S_ := KvRaft.KVServer) (T := unit) three_starts false (-1) () three_fresh) as (cf & E & Hs).
  unfold three_servers. rewrite E. apply (sv_cabled _ _ Hs).
Qed.

Lemma connections_refine_witness :
  ∃ cf', run_cops [CPartition [0; 1] [2]; CConnect 2 [0]]%nat three_servers = Done cf' ∧
    link cf' 2%nat 0%nat = true ∧ link cf' 1%nat 2%nat = false.
Proof.
  destruct (connections_refine three_servers [CPartition [0; 1] [2]; CConnect 2 [0]]%nat three_cabled) as (cf' & H & _ & Hl).
  - assert (sc_n three_servers = 3%nat) as -> by (vm_compute; reflexivity).
    intros o Ho. apply elem_of_cons in Ho as [->|Ho]; [|apply list_elem_of_singleton in Ho as ->].
    + split_and!; [cbn; lia|set_solver by lia|cbn; lia|set_solver by lia|]. intros x. set_solver by lia.
    + split_and!; [lia|cbn; lia|set_solver by lia].
  - exists cf'. split; [exact H|]. assert (sc_n three_servers = 3%nat) as En by (vm_compute; reflexivity).
    rewrite En in Hl. split; rewrite Hl by lia; reflexivity.
Defined.

Definition led_by_1 : config KvRaft.KVServer unit unit unit :=
  set_servers [Some (KvRaft.mkKVServer 0 (peer 0 4 Follower) 0 (-1)); Some (KvRaft.mkKVServer 1 (peer 1 4 Leader) 0 (-1));
               Some (KvRaft.mkKVServer 2 (peer 2 4 Follower) 0 (-1))] [None; None; None] three_servers.

Lemma partition_isolates_leader_witness :
  ∃ p1 p2 cf', KvRaftTester.make_partition led_by_1 = Done (p1, p2) ∧ partition p1 p2 led_by_1 = Done cf' ∧ 1%nat ∈ p2.
Proof.
  destruct (partition_isolates_leader led_by_1 1) as (p1 & p2 & cf' & H1 & H2 & _ & H3 & _).
  - unfold led_by_1. generalize three_servers three_cabled. intros cf Hc. by apply (cabled_ext cf).
  - vm_compute. lia.
  - vm_compute. reflexivity.
  - vm_compute. reflexivity.
  - exists p1, p2, cf'. split; [exact H1|]. split; [exact H2|exact H3].
Defined.

Lemma client_ends_witness :
  ∃ ck servers cf1 cf', makeClient [0; 2]%nat ["c0"; "c1"; "c2"] [0; 0; 1]%nat three_servers = Done (ck, servers, cf1) ∧
    switch_clients ck [(false, [2%nat]); (true, [1%nat])] cf1 = Done cf' ∧
    clink cf' ck 1%nat = true ∧ clink cf' ck 2%nat = false.
Proof.
  assert (sc_n three_servers = 3%nat) as En by (vm_compute; reflexivity).
  destruct (client_ends three_servers [0; 2]%nat ["c0"; "c1"; "c2"] [0; 0; 1]%nat [(false, [2%nat]); (true, [1%nat])])
    as (ck & servers & cf1 & cf' & H1 & _ & H2 & H3 & _); rewrite ?En.
  - by apply (bool_decide_unpack _).
  - reflexivity.
  - intros e He. repeat (apply elem_of_cons in He as [->|He]; [vm_compute; intros H; discriminate H|]).
    destruct (not_elem_of_nil _ He).
  - reflexivity.
  - intros [|[|[|k]]] r Hk; cbn in Hk; try injection Hk as <-; (lia || discriminate Hk).
  - clear. set_solver by lia.
  - clear. intros o x Ho Hx. repeat (apply elem_of_cons in Ho as [->|Ho]; [cbn in Hx; set_solver by lia|]). destruct (not_elem_of_nil _ Ho).
  - exists ck, servers, cf1, cf'. split; [exact H1|]. split; [exact H2|]. rewrite En in H3.
    split; rewrite H3 by lia; reflexivity.
Defined.

Lemma three_known a b e : endname_at three_servers a b = Done e → inl e ∈ net_ends (sc_net three_servers).
Proof.
  destruct a as [|[|[|a]]]; [| | |intros H; vm_compute in H; discriminate H];
    (destruct b as [|[|[|b]]]; [| | |intros H; vm_compute in H; discriminate H]);
    intros H; vm_compute in H; injection H as <-; vm_compute; reflexivity.
Qed.

Definition persisted_server : KvRaft.KVServer := KvRaft.mkKVServer 0 (persist (peer 0 4 Leader)) 0 (-1).

Lemma three_size : sc_n three_servers = 3%nat.
Proof. vm_compute. reflexivity. Qed.

Lemma three_unused e : e ∈ ["a"; "b"; "c"] → inl e ∉ net_ends (sc_net three_servers).
Proof.
  intros He. repeat (apply elem_of_cons in He as [->|He]; [vm_compute; intros H; discriminate H|]).
  destruct (not_elem_of_nil _ He).
Qed.

Lemma service_restart_recovers_witness :
  let cf := set_servers [Some persisted_server; None; None] [None; None; None] three_servers in
  ∃ cf1 cf' s', ShutdownServer 0 cf = Done cf1 ∧
    StartServer 0 ["a"; "b"; "c"] no_service no_service (mkClock 5 6) cf1 = Done cf' ∧
    sc_servers cf' !! 0%nat = Some (Some s') ∧ currentTerm (rf_of s') = 4 ∧ state (rf_of s') = Follower.
Proof.
  generalize three_servers three_cabled three_size three_known three_unused. intros cf Hc En Hk Hu. cbv zeta.
  destruct (service_restart_recovers (set_servers [Some persisted_server; None; None] [None; None; None] cf)
      0 ["a"; "b"; "c"] no_service no_service (mkClock 5 6) persisted_server)
    as (cf1 & cf' & s' & H1 & H2 & _ & H3 & H4 & _ & _ & H5 & _).
  - by apply (cabled_ext cf).
  - cbn. rewrite En. lia.
  - reflexivity.
  - cbn. lia.
  - apply persist_stable.
  - reflexivity.
  - by apply (bool_decide_unpack _).
  - cbn. by rewrite En.
  - exact Hu.
  - exact Hk.
  - exists cf1, cf', s'. split; [exact H1|]. split; [exact H2|]. split; [exact H3|]. split; [exact H4|exact H5].
Defined.
