(* ===== verification/ShardClient.v ===== *)
(** * The clients of the shard services (src/src/shardctrler/client.go, src/src/shardkv/client.go)

    A clerk sends requests until one of them is answered the way it wants.  What
    comes back is a function [ans] of the number of the call and the request;
    [Lost] is a call that returned false.  A reply of the wrong type ends the
    process ([Call] cannot decode it).  The loops have no bound of their own and
    take fuel. *)

From stdpp Require Import base list numbers gmap strings.
From Stdlib Require Import Lia Ascii.
From S2P Require Import Prelude RaftLog Persister RaftCore Services ShardCtrler ShardKV.
Import ShardCtrler.

(** ** Requests and answers *)

(** A controller is the place of its end in the clerk's table, a server of a
    group its name. *)
Inductive dest : Type := Ctrler_ (i : nat) | Member (servername : string).

Inductive body : Type :=
  | BQuery (args : QueryArgs)
  | BJoin (args : JoinArgs)
  | BLeave (args : LeaveArgs)
  | BMove (args : MoveArgs)
  | BGet (args : ShardKV.GetArgs)
  | BPutAppend (args : ShardKV.PutAppendArgs).

Definition request : Type := dest * body.

Inductive answer : Type :=
  | Lost
  | AQuery (reply : QueryReply)
  | ACtrl (reply : Reply)
  | AGet (reply : ShardKV.GetReply)
  | APutAppend (reply : ShardKV.PutAppendReply).

(** What a loop does with an answer: return, break out of the sweep, go on. *)
Inductive verdict (A : Type) : Type := VAccept (a : A) | VBreak | VNext.
Arguments VAccept {A} a.
Arguments VBreak {A}.
Arguments VNext {A}.

Definition judgeQuery (a : answer) : outcome (verdict Config) :=
  match a with
  | Lost => mret VNext
  | AQuery r => mret (if negb (qWrongLeader r) then VAccept (qConfig r) else VNext)
  | _ => Panicked
  end.

Definition judgeCtrl (a : answer) : outcome (verdict unit) :=
  match a with
  | Lost => mret VNext
  | ACtrl r => mret (if negb (rWrongLeader r) then VAccept () else VNext)
  | _ => Panicked
  end.

Definition judgeGet (a : answer) : outcome (verdict string) :=
  match a with
  | Lost => mret VNext
  | AGet r =>
      let err := ShardKV.grErr r in
      mret (if bool_decide (err = ShardKV.OK) || bool_decide (err = ShardKV.ErrNoKey) then VAccept (ShardKV.grValue r)
            else if bool_decide (err = ShardKV.ErrWrongGroup) then VBreak else VNext)
  | _ => Panicked
  end.

Definition judgePutAppend (a : answer) : outcome (verdict unit) :=
  match a with
  | Lost => mret VNext
  | APutAppend r =>
      let err := ShardKV.paErr r in
      mret (if bool_decide (err = ShardKV.OK) then VAccept ()
            else if bool_decide (err = ShardKV.ErrWrongGroup) then VBreak else VNext)
  | _ => Panicked
  end.

(** ** The clerks *)

Definition key2shard (key : string) : Z :=
  let shard := match key with EmptyString => 0 | String c _ => Z.of_nat (nat_of_ascii c) end in
  Z.rem shard NShards.

(** [ctrlers] are the ends of the controller clerk inside. *)
Record Clerk : Type := mkClerk {
  ck_ctrlers : list nat;
  ck_config : Config;
}.

Definition MakeClerk (ctrlers : list nat) : Clerk := mkClerk ctrlers zeroConfig.

Section clients.
Variable ans : nat → request → answer.

(** One sweep over servers; [sent] are the requests so far. *)
Fixpoint sweep {A} (judge : answer → outcome (verdict A)) (b : body) (to : list dest) (sent : list request)
    : outcome (option A * list request) :=
  match to with
  | [] => mret (None, sent)
  | d :: to' =>
      let a := ans (length sent) (d, b) in
      let sent := sent ++ [(d, b)] in
      v ← judge a;
      match v with
      | VAccept x => mret (Some x, sent)
      | VBreak => mret (None, sent)
      | VNext => sweep judge b to' sent
      end
  end.

(** [for { for _, srv := range ck.servers {...}; time.Sleep(...) }] *)
Fixpoint ctrlLoop {A} (judge : answer → outcome (verdict A)) (b : body) (fuel : nat) (servers : list nat)
    (sent : list request) : outcome (A * list request) :=
  match fuel with
  | O => Blocked
  | S fuel' =>
      '(o, sent) ← sweep judge b (Ctrler_ <$> servers) sent;
      match o with
      | Some x => mret (x, sent)
      | None => ctrlLoop judge b fuel' servers sent
      end
  end.

Definition Query (num : Z) : nat → list nat → list request → outcome (Config * list request) :=
  ctrlLoop judgeQuery (BQuery (mkQueryArgs num)).

Definition Join (servers : gmap Z (list string)) : nat → list nat → list request → outcome (unit * list request) :=
  ctrlLoop judgeCtrl (BJoin (mkJoinArgs servers)).

Definition Leave (gids : list Z) : nat → list nat → list request → outcome (unit * list request) :=
  ctrlLoop judgeCtrl (BLeave (mkLeaveArgs gids)).

Definition Move (shard gid : Z) : nat → list nat → list request → outcome (unit * list request) :=
  ctrlLoop judgeCtrl (BMove (mkMoveArgs shard gid)).

(** [servers, ok := ck.config.Groups[ck.config.Shards[key2shard(key)]]] *)
Definition group_of (key : string) (c : Config) : outcome (option (list string)) :=
  gid ← zlookup (Shards c) (key2shard key);
  mret (Groups c !! gid).

(** The loop of [Get] and of [PutAppend]. *)
Fixpoint shardLoop {A} (judge : answer → outcome (verdict A)) (b : body) (key : string) (fuel : nat) (ck : Clerk)
    (sent : list request) : outcome (A * Clerk * list request) :=
  match fuel with
  | O => Blocked
  | S fuel' =>
      g ← group_of key (ck_config ck);
      '(o, sent) ← (match g with
                    | Some servers => sweep judge b (Member <$> servers) sent
                    | None => mret (None, sent)
                    end);
      match o with
      | Some x => mret (x, ck, sent)
      | None =>
          '(config, sent) ← Query (-1) fuel' (ck_ctrlers ck) sent;
          shardLoop judge b key fuel' (mkClerk (ck_ctrlers ck) config) sent
      end
  end.

Definition Get (key : string) : nat → Clerk → list request → outcome (string * Clerk * list request) :=
  shardLoop judgeGet (BGet (ShardKV.mkGetArgs key)) key.

Definition PutAppend (key value op : string) : nat → Clerk → list request → outcome (unit * Clerk * list request) :=
  shardLoop judgePutAppend (BPutAppend (ShardKV.mkPutAppendArgs key value op)) key.

Definition Put (key value : string) := PutAppend key value "Put".

Definition Append (key value : string) := PutAppend key value "Append".

(** ** Lemmas *)

Implicit Types (sent : list request).

Lemma key2shard_range key : 0 <= key2shard key < NShards.
Proof.
  unfold key2shard. destruct key as [|c key]; [done|]. rewrite Z.rem_mod_nonneg by (unfold NShards; lia).
  apply Z.mod_pos_bound. done.
Qed.

(** The last request was accepted: the [k]-th one, to [d]. *)
Definition accepted {A} (judge : answer → outcome (verdict A)) (b : body) (d : dest) (x : A) sent : Prop :=
  ∃ pre, sent = pre ++ [(d, b)] ∧ judge (ans (length pre) (d, b)) = Done (VAccept x).

Lemma sweep_Done {A} (judge : answer → outcome (verdict A)) b to sent o sent' :
  sweep judge b to sent = Done (o, sent') →
  (∃ reqs, sent' = sent ++ reqs) ∧ ∀ x, o = Some x → ∃ d, d ∈ to ∧ accepted judge b d x sent'.
Proof.
  revert sent. induction to as [|d to IH]; intros sent; cbn.
  { intros [= <- <-]. split; [exists []; by rewrite app_nil_r|done]. }
  intros (v & Hv & H)%bind_Done. destruct v as [x| |].
  - injection H as <- <-. split; [by eexists|]. intros y [= <-]. exists d. split; [by left|]. by exists sent.
  - injection H as <- <-. split; [by eexists|done].
  - apply IH in H as [[reqs ->] Hx]. rewrite <- app_assoc. split; [by eexists|].
    intros y Hy. destruct (Hx y Hy) as (d' & ? & ?). exists d'. split; [by right|]. by rewrite <- app_assoc in *.
Qed.

Lemma ctrlLoop_Done {A} (judge : answer → outcome (verdict A)) b fuel servers sent x sent' :
  ctrlLoop judge b fuel servers sent = Done (x, sent') →
  (∃ reqs, sent' = sent ++ reqs) ∧ ∃ i, i ∈ servers ∧ accepted judge b (Ctrler_ i) x sent'.
Proof.
  revert sent. induction fuel as [|fuel IH]; intros sent; cbn; [done|]. intros ([o sent1] & Hs & H)%bind_Done.
  apply sweep_Done in Hs as [[reqs ->] Ho]. destruct o as [y|].
  - injection H as <- <-. destruct (Ho _ eq_refl) as (d & Hd & Hacc). split; [by eexists|].
    apply list_elem_of_fmap in Hd as (i & -> & Hi). by exists i.
  - apply IH in H as [[reqs' ->] ?]. rewrite <- app_assoc in *. split; [by eexists|done].
Qed.

(** The configuration is the clerk's first, or one a controller has answered. *)
Definition known_config (ck : Clerk) sent (c : Config) : Prop :=
  c = ck_config ck ∨ ∃ i pre post, i ∈ ck_ctrlers ck ∧ sent = pre ++ post ∧
    accepted judgeQuery (BQuery (mkQueryArgs (-1))) (Ctrler_ i) c pre.

Lemma shardLoop_Done {A} (judge : answer → outcome (verdict A)) b key fuel ck sent x ck' sent' :
  shardLoop judge b key fuel ck sent = Done (x, ck', sent') →
  (∃ reqs, sent' = sent ++ reqs) ∧ known_config ck sent' (ck_config ck') ∧
  ∃ servers s, group_of key (ck_config ck') = Done (Some servers) ∧ s ∈ servers ∧ accepted judge b (Member s) x sent'.
Proof.
  revert ck sent. induction fuel as [|fuel IH]; intros ck sent; cbn; [done|].
  intros (g & Hg & H)%bind_Done. apply bind_Done in H as ([o sent1] & Hs & H). destruct o as [y|].
  - injection H as <- <- <-. destruct g as [servers|]; [|done]. apply sweep_Done in Hs as [[reqs ->] Ho].
    destruct (Ho _ eq_refl) as (d & Hd & Hacc). apply list_elem_of_fmap in Hd as (s & -> & Hin).
    split; [by eexists|]. split; [by left|]. by exists servers, s.
  - assert (∃ reqs, sent1 = sent ++ reqs) as [reqs ->].
    { destruct g; [by apply sweep_Done in Hs as [? _]|]. injection Hs as <-. exists []. by rewrite app_nil_r. }
    apply bind_Done in H as ([c sent2] & Hq & H). apply ctrlLoop_Done in Hq as [[reqs2 ->] (i & Hi & Hacc)].
    apply IH in H as ([reqs3 ->] & Hk & Hfin). rewrite <- !app_assoc in *. split; [by eexists|]. split; [|done].
    destruct Hk as [->|(j & pre & post & ? & ? & ?)]; right; [|by exists j, pre, post].
    exists i, (sent ++ reqs ++ reqs2), reqs3. rewrite <- !app_assoc. done.
Qed.

(** *** The loops end when somebody answers *)

(** From the [n]-th call on the controllers answer with [c]. *)
Definition ctrlers_answer (n : nat) (b : body) {A} (judge : answer → outcome (verdict A)) (servers : list nat) (x : A) : Prop :=
  ∀ k i, (n <= k)%nat → i ∈ servers → judge (ans k (Ctrler_ i, b)) = Done (VAccept x).

(** Answers are of the right type. *)
Definition typed {A} (judge : answer → outcome (verdict A)) (b : body) : Prop :=
  ∀ k d, ∃ v, judge (ans k (d, b)) = Done v.

Lemma sweep_typed {A} (judge : answer → outcome (verdict A)) b to sent :
  typed judge b → ∃ o sent', sweep judge b to sent = Done (o, sent') ∧ (length sent <= length sent')%nat ∧
    (to ≠ [] → (length sent < length sent')%nat).
Proof.
  intros Ht. revert sent. induction to as [|d to IH]; intros sent; cbn.
  { exists None, sent. by split_and!. }
  destruct (Ht (length sent) d) as [v ->]. cbn. assert (length (sent ++ [(d, b)]) = S (length sent)) as Hl.
  { rewrite length_app. cbn. lia. }
  destruct v as [x| |]; [eexists _, _; split; [done|]; rewrite Hl; split; [lia|intros; lia]..|].
  destruct (IH (sent ++ [(d, b)])) as (o & sent' & -> & Hle & _). eexists _, _. split; [done|]. split; [lia|intros; lia].
Qed.

Lemma sweep_accepts {A} (judge : answer → outcome (verdict A)) b to sent x :
  to ≠ [] → (∀ k d, (length sent <= k)%nat → d ∈ to → judge (ans k (d, b)) = Done (VAccept x)) →
  ∃ sent', sweep judge b to sent = Done (Some x, sent').
Proof.
  intros Hne H. destruct to as [|d to]; [done|]. cbn. rewrite H; [|done|by left]. cbn. by eexists.
Qed.

(** The answer comes with the first call after [n], or before. *)
Lemma ctrlLoop_returns {A} (judge : answer → outcome (verdict A)) b n servers x fuel sent :
  typed judge b → servers ≠ [] → ctrlers_answer n b judge servers x → (0 < fuel)%nat → (n < fuel + length sent)%nat →
  ∃ y sent', ctrlLoop judge b fuel servers sent = Done (y, sent') ∧ (length sent < length sent')%nat ∧
    ((n < length sent')%nat → y = x).
Proof.
  intros Ht Hne Hans. revert sent. induction fuel as [|fuel IH]; intros sent Hf Hn; [lia|]. cbn [ctrlLoop].
  assert (Ctrler_ <$> servers ≠ []) as Hne' by (by destruct servers).
  destruct (sweep_typed judge b (Ctrler_ <$> servers) sent Ht) as (o & sent1 & Hs & Hle & Hlt). specialize (Hlt Hne').
  rewrite Hs. cbn [mbind outcome_bind]. destruct o as [y|].
  - exists y, sent1. split; [done|]. split; [done|]. intros Hlate. apply sweep_Done in Hs as [_ Ho].
    destruct (Ho y eq_refl) as (d & Hd & pre & -> & Hacc). apply list_elem_of_fmap in Hd as (i & -> & Hi).
    rewrite length_app in Hlate. cbn in Hlate. rewrite (Hans (length pre) i) in Hacc by (done || lia). congruence.
  - destruct (decide (n <= length sent)%nat) as [Hnow|Hlater].
    + destruct (sweep_accepts judge b (Ctrler_ <$> servers) sent x Hne') as [s' Hs']; [|congruence].
      intros k d Hk (i & -> & Hi)%list_elem_of_fmap. apply Hans; [lia|done].
    + destruct (IH sent1) as (y & sent2 & H & Hlt2 & Hy); [lia|lia|]. exists y, sent2. split; [done|]. split; [lia|done].
Qed.

Lemma group_of_total key c : length (Shards c) = 10%nat → ∃ g, group_of key c = Done g.
Proof.
  intros Hl. pose proof (key2shard_range key) as Hr. unfold NShards in Hr.
  destruct (zlookup_total (Shards c) (key2shard key)) as [gid Hg]; [lia|]. unfold group_of. rewrite Hg. by eexists.
Qed.

(** Configurations come with an array of ten groups. *)
Definition arrays : Prop :=
  ∀ k q c, judgeQuery (ans k q) = Done (VAccept c) → length (Shards c) = 10%nat.

Section liveness.
Context {A : Type}.
Variable judge : answer → outcome (verdict A).
Variable b : body.
Variable key : string.
Variable n : nat.
Variable c : Config.
Variable servers : list string.
Variable x : A.
Hypothesis Htyped : typed judge b.
Hypothesis Hquery : typed judgeQuery (BQuery (mkQueryArgs (-1))).
Hypothesis Harr : arrays.
(** From the [n]-th call on, the controllers answer with [c], in which the shard
    belongs to a group of [servers], and all of these accept. *)
Hypothesis Hgroup : group_of key c = Done (Some servers).
Hypothesis Hservers : servers ≠ [].
Hypothesis Haccept : ∀ k s, (n <= k)%nat → s ∈ servers → judge (ans k (Member s, b)) = Done (VAccept x).

Lemma shardLoop_settled fuel ck sent :
  (0 < fuel)%nat → (n <= length sent)%nat → ck_config ck = c →
  ∃ sent', shardLoop judge b key fuel ck sent = Done (x, ck, sent').
Proof using Hgroup Hservers Haccept.
  intros Hf Hn Hc. destruct fuel as [|fuel]; [lia|]. cbn [shardLoop]. rewrite Hc, Hgroup. cbn [mbind outcome_bind].
  destruct (sweep_accepts judge b (Member <$> servers) sent x) as [sent' ->]; [by destruct servers| |by eexists].
  intros k d Hk (s & -> & Hs)%list_elem_of_fmap. apply Haccept; [lia|done].
Qed.

Lemma shardLoop_returns fuel ck sent :
  ck_ctrlers ck ≠ [] → length (Shards (ck_config ck)) = 10%nat →
  ctrlers_answer n (BQuery (mkQueryArgs (-1))) judgeQuery (ck_ctrlers ck) c →
  (2 <= fuel)%nat → (n + 2 <= fuel + length sent)%nat →
  ∃ y ck' sent', shardLoop judge b key fuel ck sent = Done (y, ck', sent').
Proof using All.
  revert ck sent. induction fuel as [|fuel IH]; intros ck sent Hne Hlen Hans Hf Hn; [lia|]. cbn [shardLoop].
  destruct (group_of_total key (ck_config ck) Hlen) as [g Hg]. rewrite Hg. cbn [mbind outcome_bind].
  assert (∃ o sent1, match g with Some servers => sweep judge b (Member <$> servers) sent | None => mret (None, sent) end
    = Done (o, sent1) ∧ (length sent <= length sent1)%nat) as (o & sent1 & -> & Hle).
  { destruct g as [ss|]; [|by exists None, sent].
    destruct (sweep_typed judge b (Member <$> ss) sent Htyped) as (o & s1 & ? & ? & _). eauto. }
  cbn [mbind outcome_bind]. destruct o as [y|]; [by eexists _, _, _|].
  destruct (ctrlLoop_returns judgeQuery _ n (ck_ctrlers ck) c fuel sent1 Hquery Hne Hans) as (c' & sent2 & Hq & Hlt & Hc');
    [lia|lia|].
  unfold Query. rewrite Hq. cbn [mbind outcome_bind]. destruct (decide (n < length sent2)%nat) as [Hlate|Hearly].
  - destruct (shardLoop_settled fuel (mkClerk (ck_ctrlers ck) c') sent2) as [sent' ->]; [lia|lia|by apply Hc'|by eexists _, _, _].
  - apply IH; [done| |done|lia|lia]. apply ctrlLoop_Done in Hq as [_ (i & _ & pre & _ & Hacc)].
    by eapply Harr.
Qed.

End liveness.

(** *** No panics *)

Lemma sweep_safe {A} (judge : answer → outcome (verdict A)) b to sent :
  typed judge b → sweep judge b to sent ≠ Panicked.
Proof. intros Ht. by destruct (sweep_typed judge b to sent Ht) as (o & sent' & -> & _). Qed.

Lemma ctrlLoop_safe {A} (judge : answer → outcome (verdict A)) b fuel servers sent :
  typed judge b → ctrlLoop judge b fuel servers sent ≠ Panicked.
Proof.
  intros Ht. revert sent. induction fuel as [|fuel IH]; intros sent; cbn; [done|].
  destruct (sweep_typed judge b (Ctrler_ <$> servers) sent Ht) as (o & sent' & -> & _). cbn. by destruct o.
Qed.

Lemma shardLoop_safe {A} (judge : answer → outcome (verdict A)) b key fuel ck sent :
  typed judge b → typed judgeQuery (BQuery (mkQueryArgs (-1))) → arrays → length (Shards (ck_config ck)) = 10%nat →
  shardLoop judge b key fuel ck sent ≠ Panicked.
Proof.
  intros Ht Hq Ha. revert ck sent. induction fuel as [|fuel IH]; intros ck sent Hlen; cbn; [done|].
  destruct (group_of_total key (ck_config ck) Hlen) as [g ->]. cbn [mbind outcome_bind].
  assert (∃ o sent1, match g with Some servers => sweep judge b (Member <$> servers) sent | None => mret (None, sent) end
    = Done (o, sent1)) as (o & sent1 & ->).
  { destruct g as [ss|]; [|by exists None, sent].
    destruct (sweep_typed judge b (Member <$> ss) sent Ht) as (o & s1 & ? & _). eauto. }
  cbn [mbind outcome_bind]. destruct o as [y|]; [done|].
  destruct (Query (-1) fuel (ck_ctrlers ck) sent1) as [[c' sent2]| |] eqn:E; cbn [mbind outcome_bind]; [|done|].
  - apply IH. apply ctrlLoop_Done in E as [_ (i & _ & pre & _ & Hacc)]. by eapply Ha.
  - by apply ctrlLoop_safe in E.
Qed.

End clients.

(** ** The theorems *)

(** C20. If [Get] returns a value, its last request was the [Get] of this key to a
    server which, in the configuration that the clerk holds then, belongs to the
    group of the key's shard; that server answered OK or ErrNoKey with this value;
    and the configuration is the one the clerk started with or was the answer of a
    controller to a query. *)
Theorem Get_answer ans key fuel ck sent v ck' sent' :
  Get ans key fuel ck sent = Done (v, ck', sent') →
  ∃ pre s servers r,
    sent' = pre ++ [(Member s, BGet (ShardKV.mkGetArgs key))] ∧
    ans (length pre) (Member s, BGet (ShardKV.mkGetArgs key)) = AGet r ∧
    (ShardKV.grErr r = ShardKV.OK ∨ ShardKV.grErr r = ShardKV.ErrNoKey) ∧ v = ShardKV.grValue r ∧
    group_of key (ck_config ck') = Done (Some servers) ∧ s ∈ servers ∧ known_config ans ck sent' (ck_config ck').
Proof.
  intros (_ & Hk & servers & s & Hg & Hs & pre & -> & Hacc)%shardLoop_Done. exists pre, s, servers.
  destruct (ans (length pre) _) as [|r|r|r|r]; try done. exists r. split_and!; try done; cbn in Hacc.
  - destruct (bool_decide_reflect (ShardKV.grErr r = ShardKV.OK)); [by left|].
    destruct (bool_decide_reflect (ShardKV.grErr r = ShardKV.ErrNoKey)); [by right|]. cbn in Hacc.
    by destruct (bool_decide (ShardKV.grErr r = ShardKV.ErrWrongGroup)).
  - destruct (_ || _); [by injection Hacc|]. by destruct (bool_decide (ShardKV.grErr r = ShardKV.ErrWrongGroup)).
Qed.

(** C34. If from the [n]-th call on the controllers answer with a configuration in which
    the key's shard has a group of at least one server, and the servers of that
    group answer OK, then [Get] returns, after at most [n + 2] rounds. *)
Theorem Get_returns ans key n c servers v ck sent fuel :
  typed ans judgeGet (BGet (ShardKV.mkGetArgs key)) → typed ans judgeQuery (BQuery (mkQueryArgs (-1))) → arrays ans →
  ck_ctrlers ck ≠ [] → length (Shards (ck_config ck)) = 10%nat →
  (∀ k i, (n <= k)%nat → i ∈ ck_ctrlers ck →
     ans k (Ctrler_ i, BQuery (mkQueryArgs (-1))) = AQuery (mkQueryReply false OK c)) →
  group_of key c = Done (Some servers) → servers ≠ [] →
  (∀ k s, (n <= k)%nat → s ∈ servers →
     ans k (Member s, BGet (ShardKV.mkGetArgs key)) = AGet (ShardKV.mkGetReply ShardKV.OK v)) →
  (n + 2 <= fuel)%nat →
  ∃ w ck' sent', Get ans key fuel ck sent = Done (w, ck', sent').
Proof.
  intros Ht Hq Ha Hne Hlen Hc Hg Hs Hv Hf. apply (shardLoop_returns ans judgeGet _ key n c servers v); try done.
  - intros k s Hk Hin. by rewrite Hv.
  - intros k i Hk Hi. by rewrite Hc.
  - lia.
  - lia.
Qed.

(** C35. A key's shard lies in the array of shards, so a client never panics: neither
    [Get] nor [PutAppend], whatever is lost or refused, as long as replies have
    their types. *)
Theorem clients_never_panic ans key value op fuel ck sent :
  typed ans judgeGet (BGet (ShardKV.mkGetArgs key)) →
  typed ans judgePutAppend (BPutAppend (ShardKV.mkPutAppendArgs key value op)) →
  typed ans judgeQuery (BQuery (mkQueryArgs (-1))) → arrays ans → length (Shards (ck_config ck)) = 10%nat →
  0 <= key2shard key < NShards ∧ Get ans key fuel ck sent ≠ Panicked ∧ PutAppend ans key value op fuel ck sent ≠ Panicked.
Proof.
  intros Hg Hp Hq Ha Hl. split; [apply key2shard_range|]. split; by apply shardLoop_safe.
Qed.

(** ** With the servers of this repository *)

(** What the handlers of [sc] and [kv] answer to a call that reaches them: they get
    a zero reply and return it. *)
Definition stub_answer (sc : Ctrler) (kv : ShardKV.Server) (k : nat) (q : request) : answer :=
  match q.2 with
  | BQuery a => AQuery (ShardCtrler.Query a (mkQueryReply false "" zeroConfig) sc).2
  | BJoin a => ACtrl (ShardCtrler.Join a (mkReply false "") sc).2
  | BLeave a => ACtrl (ShardCtrler.Leave a (mkReply false "") sc).2
  | BMove a => ACtrl (ShardCtrler.Move a (mkReply false "") sc).2
  | BGet a => AGet (ShardKV.Get a (ShardKV.mkGetReply "" "") kv).2
  | BPutAppend a => APutAppend (ShardKV.PutAppend a (ShardKV.mkPutAppendReply "") kv).2
  end.

(** As long as the handlers are empty, a [Get] never returns: the controllers
    answer with a configuration without groups. *)
Lemma stub_Get_hangs sc kv key fuel i ctrlers sent :
  Get (stub_answer sc kv) key fuel (MakeClerk (i :: ctrlers)) sent = Blocked.
Proof.
  unfold MakeClerk. revert sent. induction fuel as [|fuel IH]; intros sent; [done|].
  unfold Get in *. cbn [shardLoop ck_config]. destruct (group_of_total key zeroConfig eq_refl) as [g Hg].
  assert (g = None) as ->. { unfold group_of in Hg. apply bind_Done in Hg as (gid & _ & [= <-]). apply lookup_empty. }
  rewrite Hg. cbn [mbind outcome_bind mret outcome_ret ck_ctrlers]. destruct fuel as [|fuel]; [done|].
  unfold Query. cbn [ctrlLoop fmap list_fmap sweep stub_answer snd judgeQuery mbind outcome_bind mret outcome_ret
    ShardCtrler.Query qWrongLeader negb qConfig]. apply IH.
Qed.

(** ** A group of two servers for the witnesses *)

Definition one_group : Config := mkConfig 1 (replicate 10 7) {[7 := ["s0"; "s1"]]}.

(** The first two calls are lost; then everybody answers. *)
Definition late_answers (k : nat) (q : request) : answer :=
  if (k <? 2)%nat then Lost
  else match q.2 with
       | BQuery _ => AQuery (mkQueryReply false OK one_group)
       | BJoin _ | BLeave _ | BMove _ => ACtrl (mkReply false OK)
       | BGet _ => AGet (ShardKV.mkGetReply ShardKV.OK "v")
       | BPutAppend _ => APutAppend (ShardKV.mkPutAppendReply ShardKV.OK)
       end.

Lemma late_typed_Get key : typed late_answers judgeGet (BGet (ShardKV.mkGetArgs key)).
Proof. intros k d. unfold late_answers. destruct (k <? 2)%nat; by eexists. Qed.

Lemma late_typed_Query num : typed late_answers judgeQuery (BQuery (mkQueryArgs num)).
Proof. intros k d. unfold late_answers. destruct (k <? 2)%nat; by eexists. Qed.

Lemma late_typed_Put key value op :
  typed late_answers judgePutAppend (BPutAppend (ShardKV.mkPutAppendArgs key value op)).
Proof. intros k d. unfold late_answers. destruct (k <? 2)%nat; by eexists. Qed.

Lemma late_arrays : arrays late_answers.
Proof.
  intros k [d b] c. unfold late_answers. destruct (k <? 2)%nat; [done|]. destruct b; try done. cbn. by intros [= <-].
Qed.

Lemma Get_answer_witness :
  ∃ ck' sent', Get late_answers "k" 5 (MakeClerk [0; 1]%nat) [] = Done ("v", ck', sent') ∧
    ∃ servers s, group_of "k" (ck_config ck') = Done (Some servers) ∧ s ∈ servers.
Proof.
  eexists _, _. match goal with |- ?P ∧ _ => assert P as H by (vm_compute; reflexivity) end.
  split; [exact H|]. destruct (Get_answer _ _ _ _ _ _ _ _ H) as (pre & s & servers & r & _ & _ & _ & _ & Hg & Hs & _).
  exists servers, s. split; [exact Hg|exact Hs].
Defined.

Lemma Get_returns_witness :
  ∃ w ck' sent', Get late_answers "k" 4 (MakeClerk [0; 1]%nat) [] = Done (w, ck', sent').
Proof.
  apply (Get_returns late_answers "k" 2 one_group ["s0"; "s1"] "v").
  - apply late_typed_Get.
  - apply late_typed_Query.
  - apply late_arrays.
  - discriminate.
  - reflexivity.
  - intros k i Hk _. unfold late_answers. destruct (Nat.ltb_spec k 2); [lia|reflexivity].
  - vm_compute. reflexivity.
  - discriminate.
  - intros k s Hk _. unfold late_answers. destruct (Nat.ltb_spec k 2); [lia|reflexivity].
  - lia.
Defined.

Lemma clients_never_panic_witness :
  0 <= key2shard "k" < NShards ∧ Get late_answers "k" 3 (MakeClerk [0]%nat) [] ≠ Panicked ∧
  PutAppend late_answers "k" "v" "Put" 3 (MakeClerk [0]%nat) [] ≠ Panicked.
Proof.
  apply clients_never_panic; [apply late_typed_Get|apply late_typed_Put|apply late_typed_Query|apply late_arrays|reflexivity].
Defined.
