(* ===== verification/ShardTester.v ===== *)
(** * The tester of shardkv (src/src/shardkv/config.go)

    Three controllers, three groups of servers, and clients.  Ends and servers
    have strings as names; random names are arguments.  As in the other testers
    the persister of a live server is the one held in [saved].  The calls of
    [join] and [leave] go to the controllers through the clerk of ShardClient.v. *)

From stdpp Require Import base list numbers gmap strings pretty.
From Stdlib Require Import Lia.
From S2P Require Import Prelude Labrpc RaftLog Persister RaftCore RaftTester MRWorker MRApps Services ShardCtrler ShardKV ServiceTester ShardClient.

Section tester.
Context {codec : RaftCodec}.
Context {T V App : Type}.
Abbreviation network := (@net string _ _ T V App).
Abbreviation service := (@Service V App).

Record group : Type := mkGroup {
  gg_gid : Z;
  gg_servers : list (option ShardKV.Server);
  gg_saved : list (option Persister);
  gg_endnames : list (option (list string));
  gg_mendnames : list (option (list string));
}.

Record config : Type := mkShards {
  sh_net : network;
  sh_nctrlers : nat;
  sh_ctrlers : list (option ShardCtrler.Ctrler);
  sh_mck : list string;
  sh_ngroups : nat;
  sh_n : nat;
  sh_groups : list group;
  sh_clerks : gmap nat (list string);
  sh_newClerk : nat;
  sh_nextClientId : Z;
  sh_maxraftstate : Z;
}.

Definition set_net (x : network) (cf : config) : config :=
  mkShards x (sh_nctrlers cf) (sh_ctrlers cf) (sh_mck cf) (sh_ngroups cf) (sh_n cf) (sh_groups cf) (sh_clerks cf)
    (sh_newClerk cf) (sh_nextClientId cf) (sh_maxraftstate cf).

Definition set_ctrlers (ctrlers : list (option ShardCtrler.Ctrler)) (mck : list string) (cf : config) : config :=
  mkShards (sh_net cf) (sh_nctrlers cf) ctrlers mck (sh_ngroups cf) (sh_n cf) (sh_groups cf) (sh_clerks cf)
    (sh_newClerk cf) (sh_nextClientId cf) (sh_maxraftstate cf).

Definition set_groups (x : list group) (cf : config) : config :=
  mkShards (sh_net cf) (sh_nctrlers cf) (sh_ctrlers cf) (sh_mck cf) (sh_ngroups cf) (sh_n cf) x (sh_clerks cf)
    (sh_newClerk cf) (sh_nextClientId cf) (sh_maxraftstate cf).

Definition set_clerks (clerks : gmap nat (list string)) (newClerk : nat) (nextClientId : Z) (cf : config) : config :=
  mkShards (sh_net cf) (sh_nctrlers cf) (sh_ctrlers cf) (sh_mck cf) (sh_ngroups cf) (sh_n cf) (sh_groups cf) clerks
    newClerk nextClientId (sh_maxraftstate cf).

(** ** Names *)

Definition ctrlername (i : nat) : string := "ctrler" +:+ Itoa (Z.of_nat i).

Definition servername (gid : Z) (i : nat) : string :=
  "server-" +:+ Itoa gid +:+ "-" +:+ Itoa (Z.of_nat i).

(** ** Ends *)

(** [MakeEnd], [Connect] and [Enable] of one end. *)
Definition wireEnd (name servername : string) (n : network) : outcome network :=
  n ← MakeEnd name n;
  mret (Enable name true (Connect name servername n)).

(** A loop of them, over the names from [j] on. *)
Fixpoint wireEnds (names : list string) (target : nat → string) (j : nat) (n : network) : outcome network :=
  match names with
  | [] => mret n
  | e :: names' =>
      n ← wireEnd e (target j) n;
      wireEnds names' target (S j) n
  end.

(** [for j := 0; j < len; j++ { cfg.net.Enable(row[j], false) }] *)
Fixpoint disableEach (row : list string) (js : list nat) (n : network) : outcome network :=
  match js with
  | [] => mret n
  | j :: js' => e ← of_option (row !! j); disableEach row js' (Enable e false n)
  end.

(** ** Clients *)

(** [endnames[j] = randstring(20)]: the slice has the length of a group. *)
Fixpoint storeNames (names : list string) (j : nat) (endnames : list string) : outcome (list string) :=
  match names with
  | [] => mret endnames
  | e :: names' => endnames ← nupdate endnames j e; storeNames names' (S j) endnames
  end.

(** One name for each controller; the result is the clerk and its ends. *)
Definition makeClient (names : list string) (cf : config) : outcome (nat * Clerk * config) :=
  endnames ← storeNames names 0 (replicate (sh_n cf) ""%string);
  n ← wireEnds names ctrlername 0 (sh_net cf);
  let ck := sh_newClerk cf in
  let cf := set_clerks (<[ck := endnames]> (sh_clerks cf)) (ck + 1) (sh_nextClientId cf + 1) (set_net n cf) in
  mret (ck, MakeClerk (seq 0 (length names)), cf).

Definition deleteClient (ck : nat) (cf : config) : config :=
  set_clerks (delete ck (sh_clerks cf)) (sh_newClerk cf) (sh_nextClientId cf) cf.

(** The function that turns a server name into an end, given a fresh name. *)
Definition make_end (name servername : string) (cf : config) : outcome config :=
  n ← wireEnd name servername (sh_net cf);
  mret (set_net n cf).

(** ** Servers *)

Definition gg_held (gg : group) (i : nat) : option Persister :=
  match mjoin (gg_servers gg !! i) with
  | Some s => Some (persister (ShardKV.kv_rf s))
  | None => mjoin (gg_saved gg !! i)
  end.

Definition ShutdownServer (gi i : nat) (cf : config) : outcome config :=
  gg ← of_option (sh_groups cf !! gi);
  n ← (if bool_decide (length (gg_servers gg) = 0%nat) then mret (sh_net cf)
       else row ← of_option (mjoin (gg_endnames gg !! i)); disableEach row (seq 0 (length (gg_servers gg))) (sh_net cf));
  mrow ← of_option (gg_mendnames gg !! i);
  let mrow := default [] mrow in
  n ← disableEach mrow (seq 0 (length mrow)) n;
  let n := DeleteServer (servername (gg_gid gg) i) n in
  let gg := mkGroup (gg_gid gg) (<[i := None]> (gg_servers gg)) (<[i := Copy <$> gg_held gg i]> (gg_saved gg))
    (gg_endnames gg) (gg_mendnames gg) in
  mret (set_groups (<[gi := gg]> (sh_groups cf)) (set_net n cf)).

(** What the test and the peer bring to the start of a server of a group; a
    controller has no [mnames]. *)
Record starting : Type := mkStart {
  st_names : list string;
  st_mnames : list string;
  st_svc : service;
  st_rfsvc : service;
  st_clock : Clock;
}.

(** The server with the service and the peer's service. *)
Definition two_services (st : starting) : @Server V App := AddService (st_rfsvc st) (AddService (st_svc st) MakeServer).

Definition register (servername : string) (st : starting) (n : network) : network :=
  AddServer servername (length (net_srvs n)) (new_srv (two_services st) n).

Definition StartServer (gi i : nat) (st : starting) (cf : config) : outcome config :=
  gg ← of_option (sh_groups cf !! gi);
  endnames ← nupdate (gg_endnames gg) i (Some (st_names st));
  n ← wireEnds (st_names st) (servername (gg_gid gg)) 0 (sh_net cf);
  mendnames ← nupdate (gg_mendnames gg) i (Some (st_mnames st));
  n ← wireEnds (st_mnames st) ctrlername 0 n;
  let ps := match gg_held gg i with Some ps => Copy ps | None => MakePersister end in
  saved ← nupdate (gg_saved gg) i (Some ps);
  kv ← ShardKV.StartServer (Z.of_nat (sh_n cf)) (Z.of_nat i) ps (sh_maxraftstate cf) (gg_gid gg) (st_mnames st) (st_clock st);
  servers ← nupdate (gg_servers gg) i (Some kv);
  let gg := mkGroup (gg_gid gg) servers saved endnames mendnames in
  mret (set_groups (<[gi := gg]> (sh_groups cf)) (set_net (register (servername (gg_gid gg) i) st n) cf)).

Fixpoint ShutdownLoop (gi : nat) (is_ : list nat) (cf : config) : outcome config :=
  match is_ with [] => mret cf | i :: is' => cf ← ShutdownServer gi i cf; ShutdownLoop gi is' cf end.

Definition ShutdownGroup (gi : nat) (cf : config) : outcome config := ShutdownLoop gi (seq 0 (sh_n cf)) cf.

(** The servers from [i] on. *)
Fixpoint StartLoop (gi i : nat) (sts : list starting) (cf : config) : outcome config :=
  match sts with [] => mret cf | st :: sts' => cf ← StartServer gi i st cf; StartLoop gi (S i) sts' cf end.

(** One [starting] per server. *)
Definition StartGroup (gi : nat) (sts : list starting) (cf : config) : outcome config := StartLoop gi 0 sts cf.

Definition StartCtrlerserver (i : nat) (st : starting) (cf : config) : outcome config :=
  n ← wireEnds (st_names st) ctrlername 0 (sh_net cf);
  sc ← ShardCtrler.StartServer (Z.of_nat (sh_nctrlers cf)) (Z.of_nat i) MakePersister (st_clock st);
  ctrlers ← nupdate (sh_ctrlers cf) i (Some sc);
  mret (set_ctrlers ctrlers (sh_mck cf) (set_net (register (ctrlername i) st n) cf)).

Fixpoint StartCtrlers (i : nat) (sts : list starting) (cf : config) : outcome config :=
  match sts with [] => mret cf | st :: sts' => cf ← StartCtrlerserver i st cf; StartCtrlers (S i) sts' cf end.

(** The ends of a new controller clerk. *)
Definition shardclerk (names : list string) (cf : config) : outcome (list string * config) :=
  n ← wireEnds names ctrlername 0 (sh_net cf);
  mret (names, set_net n cf).

(** ** Joining and leaving *)

Fixpoint joinMap (gis : list nat) (cf : config) (m : gmap Z (list string)) : outcome (gmap Z (list string)) :=
  match gis with
  | [] => mret m
  | g :: gis' =>
      gg ← of_option (sh_groups cf !! g);
      joinMap gis' cf (<[gg_gid gg := servername (gg_gid gg) <$> seq 0 (sh_n cf)]> m)
  end.

Fixpoint leaveGids (gis : list nat) (cf : config) : outcome (list Z) :=
  match gis with
  | [] => mret []
  | g :: gis' => gg ← of_option (sh_groups cf !! g); gids ← leaveGids gis' cf; mret (gg_gid gg :: gids)
  end.

Section calls.
Variable ans : nat → request → answer.

Definition joinm (gis : list nat) (fuel : nat) (cf : config) (sent : list request) : outcome (unit * list request) :=
  m ← joinMap gis cf ∅;
  ShardClient.Join ans m fuel (seq 0 (length (sh_mck cf))) sent.

Definition join (gi : nat) := joinm [gi].

Definition leavem (gis : list nat) (fuel : nat) (cf : config) (sent : list request) : outcome (unit * list request) :=
  gids ← leaveGids gis cf;
  ShardClient.Leave ans gids fuel (seq 0 (length (sh_mck cf))) sent.

Definition leave (gi : nat) := leavem [gi].
End calls.

(** ** Checks *)

(** The body of [checklogs] for one persister; a nil one panics. *)
Definition checklog (maxraftstate : Z) (ps : Persister) : bool :=
  negb ((0 <=? maxraftstate) && (8 * maxraftstate <? RaftStateSize ps)) &&
  negb ((maxraftstate <? 0) && (0 <? Z.of_nat (length (ReadSnapshot ps)))).

Fixpoint checkGroup (gg : group) (is_ : list nat) (cf : config) : outcome unit :=
  match is_ with
  | [] => mret ()
  | i :: is' =>
      ps ← of_option (gg_held gg i);
      if checklog (sh_maxraftstate cf) ps then checkGroup gg is' cf else Panicked
  end.

Fixpoint checkGroups (gis : list nat) (cf : config) : outcome unit :=
  match gis with
  | [] => mret ()
  | gi :: gis' =>
      gg ← of_option (sh_groups cf !! gi);
      _ ← checkGroup gg (seq 0 (sh_n cf)) cf;
      checkGroups gis' cf
  end.

Definition checklogs (cf : config) : outcome unit := checkGroups (seq 0 (sh_ngroups cf)) cf.

(** ** Making and ending a test *)

Fixpoint ShutdownGroups (gis : list nat) (cf : config) : outcome config :=
  match gis with [] => mret cf | gi :: gis' => cf ← ShutdownGroup gi cf; ShutdownGroups gis' cf end.

(** [cfg.ctrlerservers[i].Kill()]; nil panics. *)
Fixpoint killCtrlers (cs : list (option ShardCtrler.Ctrler)) : outcome (list (option ShardCtrler.Ctrler)) :=
  match cs with
  | [] => mret []
  | c :: cs' => sc ← of_option c; rest ← killCtrlers cs'; mret (Some (ShardCtrler.Kill sc) :: rest)
  end.

Definition cleanup (late : bool) (cf : config) : outcome config :=
  cf ← ShutdownGroups (seq 0 (sh_ngroups cf)) cf;
  ctrlers ← killCtrlers (sh_ctrlers cf);
  n ← Cleanup (sh_net cf);
  _ ← (checkTimeout late : outcome unit);
  mret (set_ctrlers ctrlers (sh_mck cf) (set_net n cf)).

(** The group [gi] before its servers are started: [mendnames] has the length of
    the table of controllers. *)
Definition new_group (gi n nctrlers : nat) : group :=
  mkGroup (100 + Z.of_nat gi) (replicate n None) (replicate n None) (replicate n None) (replicate nctrlers None).

Fixpoint startGroups (gi : nat) (groups : list (list starting)) (cf : config) : outcome config :=
  match groups with
  | [] => mret cf
  | sts :: groups' =>
      let cf := set_groups (sh_groups cf ++ [new_group gi (sh_n cf) (sh_nctrlers cf)]) cf in
      cf ← StartGroup gi sts cf;
      startGroups (S gi) groups' cf
  end.

(** What a test brings: the controllers, the ends of the tester's own clerk and
    the groups. *)
Record plan : Type := mkPlan {
  pl_ctrlers : list starting;
  pl_mck : list string;
  pl_n : nat;
  pl_groups : list (list starting);
}.

(** The source has three controllers and three groups of [n].  Their numbers are
    kept general here, so that it can be said which sizes its tables allow. *)
Definition make_config (p : plan) (unreliable : bool) (maxraftstate : Z) (app : App) : outcome config :=
  let nctrlers := length (pl_ctrlers p) in
  let cf := mkShards (MakeNetwork [] app) nctrlers (replicate nctrlers None) [] 0 0 [] ∅ 0 0 maxraftstate in
  cf ← StartCtrlers 0 (pl_ctrlers p) cf;
  '(mck, cf) ← shardclerk (pl_mck p) cf;
  let cf := mkShards (sh_net cf) nctrlers (sh_ctrlers cf) mck (length (pl_groups p)) (pl_n p) [] ∅ 0 0 maxraftstate in
  cf ← startGroups 0 (pl_groups p) cf;
  let cf := set_clerks ∅ 0 (Z.of_nat (sh_n cf) + 1000) cf in
  mret (set_net (Reliable (negb unreliable) (sh_net cf)) cf).

End tester.
