(* ===== verification/ShardTesterSafety.v ===== *)
(** * What the tester of shardkv builds (src/src/shardkv/config.go)

    Names of servers do not collide; [make_config] links every end to the server
    it is for, as long as a group is not larger than the table of controllers; and
    clients can be made only if it is not smaller. *)

From stdpp Require Import base list numbers gmap strings pretty.
From Stdlib Require Import Lia Ascii.
From S2P Require Import Prelude Labrpc RaftLog Persister RaftCore RaftLocal RaftTester TesterMesh MRWorker MRApps Services ShardCtrler ShardKV ServiceTester ServiceSafety ShardClient ShardTester.

(** ** Names *)

Section names.

Fixpoint no_dash (s : string) : Prop :=
  match s with EmptyString => True | String c s' => c ≠ "-"%char ∧ no_dash s' end.

Lemma no_dash_go x s : no_dash s → no_dash (pretty_N_go x s).
Proof.
  revert s. induction (N.lt_wf_0 x) as [x _ IH]; intros s Hs.
  assert (x = 0 ∨ 0 < x)%N as [->|Hx] by lia; [by rewrite pretty_N_go_0|].
  rewrite pretty_N_go_step by done. apply IH; [by apply N.div_lt|]. split; [|done].
  unfold pretty_N_char. by repeat case_match.
Qed.

Lemma no_dash_Itoa i : 0 <= i → no_dash (Itoa i).
Proof.
  intros Hi. unfold Itoa, pretty, pretty_Z. destruct i as [|p|p]; [by split| |lia].
  unfold pretty, pretty_positive, pretty, pretty_N. case_decide; [by split|]. by apply no_dash_go.
Qed.

(** Where the first dash is does not depend on what follows. *)
Lemma dash_inj a a' b b' : no_dash a → no_dash a' → a +:+ "-" +:+ b = a' +:+ "-" +:+ b' → a = a' ∧ b = b'.
Proof.
  revert a'. induction a as [|c a IH]; intros [|c' a'] Ha Ha' E; cbn in *.
  - split; [done|]. by injection E.
  - injection E as <- _. by destruct Ha'.
  - injection E as -> _. by destruct Ha.
  - injection E as -> E. destruct (IH a') as [-> ->]; [tauto|tauto|done|done].
Qed.

Lemma servername_inj gid gid' i i' :
  0 <= gid → 0 <= gid' → servername gid i = servername gid' i' → gid = gid' ∧ i = i'.
Proof.
  intros Hg Hg' E. unfold servername in E. apply (inj (String.append "server-")) in E.
  apply dash_inj in E as [E1 E2]; [|by apply no_dash_Itoa..]. apply (inj pretty) in E1, E2. lia.
Qed.

Lemma ctrlername_inj i i' : ctrlername i = ctrlername i' → i = i'.
Proof. unfold ctrlername. intros E. apply (inj (String.append "ctrler")), (inj pretty) in E. lia. Qed.

Lemma servername_ctrlername gid i j : servername gid i ≠ ctrlername j.
Proof. done. Qed.

End names.

(** ** Tables of the network *)

Section tables.
Context {T V App : Type}.
Abbreviation network := (@net string _ _ T V App).
Implicit Types (n : network) (L : list (string * string)) (SL : list string).

(** The ends that were made, each with the server it is for: all of them are
    enabled and lead there; and the servers that are registered. *)
Record tables L SL n : Prop := {
  t_distinct : NoDup L.*1;
  t_ends e : e ∈ net_ends n ↔ e ∈ L.*1;
  t_links e s : (e, s) ∈ L → net_connections n !! e = Some (Some s) ∧ net_enabled n !! e = Some true;
  t_servers s : s ∈ SL → ∃ p, net_servers n !! s = Some (Some p);
}.

Lemma wireEnd_tables e s L SL n :
  tables L SL n → e ∉ L.*1 → ∃ n', wireEnd e s n = Done n' ∧ tables (L ++ [(e, s)]) SL n'.
Proof.
  intros [H1 H2 H3 H4] He. unfold wireEnd, MakeEnd. rewrite decide_False by (by rewrite H2). cbn.
  eexists. split; [reflexivity|]. split; cbn.
  - rewrite fmap_app. apply NoDup_app. split_and!; [done| |apply NoDup_singleton].
    intros x Hx ->%list_elem_of_singleton. done.
  - intros x. rewrite fmap_app, elem_of_union, elem_of_app, elem_of_singleton, H2. cbn. rewrite list_elem_of_singleton. tauto.
  - intros x y [Hin|[= -> ->]%list_elem_of_singleton]%elem_of_app; [|by rewrite !lookup_insert_eq].
    assert (e ≠ x) by (intros ->; apply He, list_elem_of_fmap; by exists (x, y)).
    rewrite !lookup_insert_ne by done. by apply H3.
  - done.
Qed.

(** The links that a loop of [wireEnd] makes. *)
Definition links (names : list string) (target : nat → string) (j : nat) : list (string * string) :=
  zip names (target <$> seq j (length names)).

Lemma links_names names target j : (links names target j).*1 = names.
Proof. unfold links. apply fst_zip. by rewrite length_fmap, length_seq. Qed.

Lemma wireEnds_tables names target j L SL n :
  tables L SL n → NoDup (L.*1 ++ names) →
  ∃ n', wireEnds names target j n = Done n' ∧ tables (L ++ links names target j) SL n'.
Proof.
  revert j L n. induction names as [|e names IH]; intros j L n Ht Hnd; cbn [wireEnds].
  { exists n. split; [done|]. unfold links. cbn. by rewrite app_nil_r. }
  destruct (wireEnd_tables e (target j) L SL n Ht) as (n1 & -> & Ht1).
  { intros He. apply NoDup_app in Hnd as (_ & Hd & _). apply (Hd e He). by left. }
  cbn [mbind outcome_bind]. destruct (IH (S j) _ _ Ht1) as (n2 & H2 & Ht2).
  { rewrite fmap_app. cbn. by rewrite <- app_assoc. }
  exists n2. split; [done|]. by rewrite <- app_assoc in Ht2.
Qed.

Lemma register_tables s (st : @starting V App) L SL n : tables L SL n → tables L (SL ++ [s]) (register s st n).
Proof.
  intros [H1 H2 H3 H4]. split; cbn; try done. intros x Hx. destruct (decide (x = s)) as [->|Hne].
  - eexists. apply lookup_insert_eq.
  - rewrite lookup_insert_ne by done. apply H4. apply elem_of_app in Hx as [?|?%list_elem_of_singleton]; done.
Qed.

End tables.

(** ** Controllers *)

Section building.
Context {codec : RaftCodec}.
Context {T V App : Type}.
Abbreviation config := (@config T V App).
Abbreviation starting := (@starting V App).
Implicit Types (cf : config) (sts : list starting) (L : list (string * string)) (SL : list string).

Definition ctrl_links sts : list (string * string) := concat ((λ st, links (st_names st) ctrlername 0) <$> sts).

(** The end names of a list of servers. *)
Lemma NoDup_prefix {A} (a b c : list A) : NoDup (a ++ b ++ c) → NoDup (a ++ b).
Proof. rewrite app_assoc. by intros [? _]%NoDup_app. Qed.

Lemma StartCtrlers_ready sts i cf L SL :
  tables L SL (sh_net cf) → NoDup (L.*1 ++ (ctrl_links sts).*1) → (i + length sts <= length (sh_ctrlers cf))%nat →
  ∃ cf', StartCtrlers i sts cf = Done cf' ∧
    tables (L ++ ctrl_links sts) (SL ++ (ctrlername <$> seq i (length sts))) (sh_net cf') ∧
    length (sh_ctrlers cf') = length (sh_ctrlers cf) ∧
    (∀ k, (k < i)%nat → sh_ctrlers cf' !! k = sh_ctrlers cf !! k) ∧
    (∀ k, (i <= k < i + length sts)%nat → ∃ sc, sh_ctrlers cf' !! k = Some (Some sc) ∧ newborn (ShardCtrler.sc_rf sc) k).
Proof.
  revert i cf L SL. induction sts as [|st sts IH]; intros i cf L SL Ht Hnd Hl; cbn [StartCtrlers].
  { exists cf. unfold ctrl_links. cbn. rewrite !app_nil_r. split_and!; try done. intros k Hk. cbn in Hk. lia. }
  change (ctrl_links (st :: sts)) with (links (st_names st) ctrlername 0 ++ ctrl_links sts) in *.
  rewrite fmap_app, links_names in Hnd. cbn [length] in *.
  destruct (wireEnds_tables (st_names st) ctrlername 0 L SL (sh_net cf) Ht) as (n1 & H1 & Ht1); [by eapply NoDup_prefix|].
  unfold StartCtrlerserver. rewrite H1. cbn [mbind outcome_bind].
  destruct (Make_newborn (Z.of_nat (sh_nctrlers cf)) i (st_clock st)) as (rf & Hmk & Hnew).
  unfold ShardCtrler.StartServer. rewrite Hmk. cbn [mbind outcome_bind mret outcome_ret].
  rewrite nupdate_Done by lia. cbn [mbind outcome_bind].
  set (cf1 := set_ctrlers _ _ _). destruct (IH (S i) cf1 (L ++ links (st_names st) ctrlername 0) (SL ++ [ctrlername i]))
    as (cf' & H & Ht' & Hlen & Hbelow & Habove).
  - by apply register_tables.
  - rewrite fmap_app, links_names. by rewrite <- app_assoc.
  - subst cf1. cbn. rewrite length_insert. lia.
  - exists cf'. subst cf1. cbn in Hlen, Hbelow. rewrite length_insert in Hlen. rewrite <- !app_assoc in Ht'. split_and!; try done.
    + intros k Hk. rewrite Hbelow by lia. by rewrite list_lookup_insert_ne by lia.
    + intros k Hk. destruct (decide (k = i)) as [->|]; [|apply Habove; lia].
      eexists. split; [rewrite Hbelow by lia; apply list_lookup_insert_eq; lia|done].
Qed.

(** ** Groups *)

Definition group_links (gid : Z) sts : list (string * string) :=
  concat ((λ st, links (st_names st) (servername gid) 0 ++ links (st_mnames st) ctrlername 0) <$> sts).

Lemma nupdate_Panicked {A} (xs : list A) i x : (length xs <= i)%nat → nupdate xs i x = Panicked.
Proof. intros Hi. unfold nupdate. destruct (Nat.ltb_spec i (length xs)); [lia|done]. Qed.

(** The first [k] servers of a group are running. *)
Record group_ready (k : nat) sts (gg : group) : Prop := {
  gr_servers : length (gg_servers gg) = length sts;
  gr_saved : length (gg_saved gg) = length sts;
  gr_endnames : length (gg_endnames gg) = length sts;
  gr_alive i st : (i < k)%nat → sts !! i = Some st →
    gg_endnames gg !! i = Some (Some (st_names st)) ∧ gg_mendnames gg !! i = Some (Some (st_mnames st)) ∧
    ∃ kv, gg_servers gg !! i = Some (Some kv) ∧ newborn (ShardKV.kv_rf kv) i;
  gr_idle i : (k <= i < length sts)%nat → gg_servers gg !! i = Some None ∧ gg_saved gg !! i = Some None;
}.

(** One server, up to the table of its ends to the controllers. *)
Lemma StartServer_ready gi i st sts gg cf L SL :
  tables L SL (sh_net cf) → sh_groups cf !! gi = Some gg → group_ready i sts gg → sts !! i = Some st →
  NoDup (L.*1 ++ st_names st ++ st_mnames st) →
  ((i < length (gg_mendnames gg))%nat →
   ∃ cf' gg', StartServer gi i st cf = Done cf' ∧
     tables (L ++ links (st_names st) (servername (gg_gid gg)) 0 ++ links (st_mnames st) ctrlername 0)
       (SL ++ [servername (gg_gid gg) i]) (sh_net cf') ∧
     cf' = set_groups (<[gi := gg']> (sh_groups cf)) (set_net (sh_net cf') cf) ∧
     group_ready (S i) sts gg' ∧ gg_gid gg' = gg_gid gg ∧ length (gg_mendnames gg') = length (gg_mendnames gg)) ∧
  ((length (gg_mendnames gg) <= i)%nat → StartServer gi i st cf = Panicked).
Proof.
  intros Ht Hgg Hr Hst Hnd. pose proof Hr as [R1 R2 R3 R4 R5]. pose proof (lookup_lt_Some _ _ _ Hst) as Hlt.
  unfold StartServer. rewrite Hgg. cbn [of_option mbind outcome_bind].
  rewrite (nupdate_Done (gg_endnames gg) i) by lia. cbn [mbind outcome_bind].
  destruct (wireEnds_tables (st_names st) (servername (gg_gid gg)) 0 L SL (sh_net cf) Ht) as (n1 & -> & Ht1);
    [by eapply NoDup_prefix|]. cbn [mbind outcome_bind]. split.
  2:{ intros Hge. by rewrite (nupdate_Panicked (gg_mendnames gg)). }
  intros Hm. rewrite (nupdate_Done (gg_mendnames gg)) by done. cbn [mbind outcome_bind].
  destruct (wireEnds_tables (st_mnames st) ctrlername 0 _ SL n1 Ht1) as (n2 & -> & Ht2).
  { rewrite fmap_app, links_names. by rewrite <- app_assoc. }
  cbn [mbind outcome_bind]. destruct (R5 i) as [Hs Hsv]; [lia|].
  assert (gg_held gg i = None) as -> by (unfold gg_held; by rewrite Hs, Hsv).
  rewrite (nupdate_Done (gg_saved gg)) by lia. cbn [mbind outcome_bind].
  destruct (Make_newborn (Z.of_nat (sh_n cf)) i (st_clock st)) as (rf & Hmk & Hnew).
  unfold ShardKV.StartServer. rewrite Hmk. cbn [mbind outcome_bind mret outcome_ret].
  rewrite nupdate_Done by lia. cbn [mbind outcome_bind]. eexists _, _. split; [reflexivity|].
  split; [cbn [sh_net set_groups set_net gg_gid]; apply register_tables; by rewrite <- app_assoc in Ht2|]. split; [done|].
  split; [|cbn; by rewrite length_insert].
  split; cbn; rewrite ?length_insert; try done.
  - intros k st' Hk Hst'. destruct (decide (k = i)) as [->|Hne].
    + rewrite !list_lookup_insert_eq by lia. assert (st' = st) as -> by congruence. split_and!; try done. by eexists.
    + rewrite !list_lookup_insert_ne by done. apply R4; [lia|done].
  - intros k Hk. rewrite !list_lookup_insert_ne by lia. apply R5. lia.
Qed.

Lemma group_links_cons gid st sts :
  group_links gid (st :: sts) = links (st_names st) (servername gid) 0 ++ links (st_mnames st) ctrlername 0 ++ group_links gid sts.
Proof. unfold group_links. cbn. by rewrite <- app_assoc. Qed.

(** The loop over the servers of a group: it panics if there are more of them than
    places for the names of the ends to the controllers. *)
Lemma StartLoop_ready gi rest i sts gg cf L SL :
  tables L SL (sh_net cf) → sh_groups cf !! gi = Some gg → group_ready i sts gg → drop i sts = rest →
  (i <= length sts)%nat → NoDup (L.*1 ++ (group_links (gg_gid gg) rest).*1) →
  ((length sts <= length (gg_mendnames gg))%nat →
   ∃ cf' gg', StartLoop gi i rest cf = Done cf' ∧
     tables (L ++ group_links (gg_gid gg) rest) (SL ++ (servername (gg_gid gg) <$> seq i (length rest))) (sh_net cf') ∧
     cf' = set_groups (<[gi := gg']> (sh_groups cf)) (set_net (sh_net cf') cf) ∧
     group_ready (length sts) sts gg' ∧ gg_gid gg' = gg_gid gg) ∧
  ((i <= length (gg_mendnames gg))%nat → (length (gg_mendnames gg) < length sts)%nat → StartLoop gi i rest cf = Panicked).
Proof.
  revert i gg cf L SL. induction rest as [|st rest IH]; intros i gg cf L SL Ht Hgg Hr Hd Hi Hnd; cbn [StartLoop].
  { assert (i = length sts) as -> by (apply (f_equal length) in Hd; rewrite length_drop in Hd; cbn in Hd; lia).
    split; [|lia]. intros _. exists cf, gg. unfold group_links. cbn. rewrite !app_nil_r. split_and!; try done.
    rewrite list_insert_id by done. by destruct cf. }
  assert (sts !! i = Some st) as Hst by (rewrite <- (Nat.add_0_r i), <- lookup_drop, Hd; reflexivity).
  pose proof (lookup_lt_Some _ _ _ Hst) as Hlt. rewrite (drop_S _ _ _ Hst) in Hd. injection Hd as Hd.
  rewrite group_links_cons in *. rewrite !fmap_app, !links_names in Hnd.
  destruct (StartServer_ready gi i st sts gg cf L SL Ht Hgg Hr Hst) as [Hok Hbad].
  { rewrite (app_assoc (st_names st)) in Hnd. by eapply NoDup_prefix. }
  destruct (decide (length (gg_mendnames gg) <= i)%nat) as [Hfull|Hroom].
  { rewrite Hbad by done. split; [lia|done]. }
  destruct Hok as (cf1 & gg1 & -> & Ht1 & E1 & Hr1 & Eg & Em); [lia|]. cbn [mbind outcome_bind].
  destruct (IH (S i) gg1 cf1 _ _ Ht1) as [IH1 IH2]; try done.
  { rewrite E1. cbn. apply list_lookup_insert_eq. by eapply lookup_lt_Some. }
  { rewrite !fmap_app, !links_names, Eg. by rewrite <- !app_assoc. }
  split; [|intros; apply IH2; lia]. intros Hle. destruct IH1 as (cf' & gg' & H & Ht' & E' & Hr' & Eg'); [lia|].
  exists cf', gg'. split; [exact H|]. rewrite Eg in Ht'. rewrite <- !app_assoc in Ht'. cbn [length seq fmap list_fmap].
  split; [exact Ht'|]. split; [|split; [done|congruence]].
  etransitivity; [exact E'|]. rewrite E1. unfold set_groups, set_net. cbn. by rewrite list_insert_insert_eq.
Qed.

(** ** All groups *)

Abbreviation gid_of gi := (100 + Z.of_nat gi).

Fixpoint groups_links (gi : nat) (groups : list (list starting)) : list (string * string) :=
  match groups with [] => [] | sts :: gs => group_links (gid_of gi) sts ++ groups_links (S gi) gs end.

Fixpoint groups_servers (gi : nat) (groups : list (list starting)) : list string :=
  match groups with [] => [] | sts :: gs => (servername (gid_of gi) <$> seq 0 (length sts)) ++ groups_servers (S gi) gs end.

Lemma new_group_ready gi sts nctrlers : group_ready 0 sts (new_group gi (length sts) nctrlers).
Proof.
  split; cbn; rewrite ?length_replicate; [done|done|done|intros; lia|]. intros i Hi. split; apply lookup_replicate_2; lia.
Qed.

Lemma startGroups_ready groups gi cf L SL :
  tables L SL (sh_net cf) → length (sh_groups cf) = gi → (∀ sts, sts ∈ groups → length sts = sh_n cf) →
  NoDup (L.*1 ++ (groups_links gi groups).*1) →
  ((sh_n cf <= sh_nctrlers cf)%nat → ∃ cf', startGroups gi groups cf = Done cf' ∧
     tables (L ++ groups_links gi groups) (SL ++ groups_servers gi groups) (sh_net cf') ∧
     (sh_n cf' = sh_n cf ∧ sh_nctrlers cf' = sh_nctrlers cf ∧ sh_ctrlers cf' = sh_ctrlers cf ∧ sh_mck cf' = sh_mck cf) ∧
     (∀ k, (k < gi)%nat → sh_groups cf' !! k = sh_groups cf !! k) ∧
     (∀ k sts, groups !! k = Some sts → ∃ gg, sh_groups cf' !! (gi + k)%nat = Some gg ∧
        gg_gid gg = gid_of (gi + k)%nat ∧ group_ready (length sts) sts gg)) ∧
  ((sh_nctrlers cf < sh_n cf)%nat → groups ≠ [] → startGroups gi groups cf = Panicked).
Proof.
  revert gi cf L SL. induction groups as [|sts groups IH]; intros gi cf L SL Ht Hgi Hlen Hnd; cbn [startGroups].
  { split; [|done]. intros _. exists cf. cbn. rewrite !app_nil_r. by split_and!. }
  cbn [groups_links groups_servers] in *. rewrite fmap_app in Hnd.
  assert (length sts = sh_n cf) as Hsts by (apply Hlen; by left).
  set (gg0 := new_group gi (sh_n cf) (sh_nctrlers cf)). set (cf1 := set_groups (sh_groups cf ++ [gg0]) cf).
  assert (sh_groups cf1 !! gi = Some gg0) as Hgg by (subst cf1; cbn; by apply list_lookup_middle).
  assert (length (gg_mendnames gg0) = sh_nctrlers cf) as Hmen by apply length_replicate.
  destruct (StartLoop_ready gi sts 0 sts gg0 cf1 L SL) as [Hok Hbad]; try done.
  { subst gg0. rewrite <- Hsts. apply new_group_ready. } { lia. } { by eapply NoDup_prefix. }
  unfold StartGroup. split; [|intros Hlt _; rewrite Hbad; [done|lia|lia]]. clear Hbad. intros Hle.
  destruct Hok as (cf2 & gg2 & -> & Ht2 & E2 & Hr2 & Eg2); [lia|]. cbn [mbind outcome_bind].
  assert (sh_groups cf2 = sh_groups cf ++ [gg2]) as Eg.
  { rewrite E2. subst cf1. cbn. rewrite insert_app_r_alt by lia. by replace (gi - length (sh_groups cf))%nat with 0%nat by lia. }
  assert (sh_n cf2 = sh_n cf ∧ sh_nctrlers cf2 = sh_nctrlers cf ∧ sh_ctrlers cf2 = sh_ctrlers cf ∧ sh_mck cf2 = sh_mck cf)
    as (F1 & F2 & F3 & F4) by (by rewrite E2).
  destruct (IH (S gi) cf2 _ _ Ht2) as [[cf' (H & Ht' & (G1 & G2 & G3 & G4) & Hbelow & Habove)] _].
  { rewrite Eg, length_app. cbn. lia. } { intros s Hs. rewrite F1. apply Hlen. by right. }
  { rewrite fmap_app. by rewrite <- app_assoc. } { lia. }
  exists cf'. split; [exact H|]. rewrite <- !app_assoc in Ht'. split; [exact Ht'|]. split; [split_and!; congruence|]. split.
  - intros k Hk. rewrite Hbelow, Eg by lia. by apply lookup_app_l; lia.
  - intros [|k] s Hk; cbn in Hk.
    + injection Hk as <-. exists gg2. rewrite Nat.add_0_r. split; [|done]. rewrite Hbelow, Eg by lia. by apply list_lookup_middle.
    + destruct (Habove k s Hk) as (gg & Hg & ?). exists gg. by rewrite <- plus_n_Sm.
Qed.

(** ** A plan *)

Definition plan_links (p : @plan V App) : list (string * string) :=
  ctrl_links (pl_ctrlers p) ++ links (pl_mck p) ctrlername 0 ++ groups_links 0 (pl_groups p).

Definition plan_servers (p : @plan V App) : list string :=
  (ctrlername <$> seq 0 (length (pl_ctrlers p))) ++ groups_servers 0 (pl_groups p).

(** All end names differ, and every group has the same size. *)
Definition good_plan (p : @plan V App) : Prop :=
  NoDup (plan_links p).*1 ∧ ∀ sts, sts ∈ pl_groups p → length sts = pl_n p.

(** What a finished [make_config] looks like. *)
Record shards_ready (p : @plan V App) cf : Prop := {
  sr_tables : tables (plan_links p) (plan_servers p) (sh_net cf);
  sr_size : sh_n cf = pl_n p;
  sr_nctrlers : sh_nctrlers cf = length (pl_ctrlers p);
  sr_ctrlers k : (k < length (pl_ctrlers p))%nat →
    ∃ sc, sh_ctrlers cf !! k = Some (Some sc) ∧ newborn (ShardCtrler.sc_rf sc) k;
  sr_groups k sts : pl_groups p !! k = Some sts →
    ∃ gg, sh_groups cf !! k = Some gg ∧ gg_gid gg = gid_of k ∧ group_ready (length sts) sts gg;
}.

Lemma tables_empty (app : App) : tables [] [] (@MakeNetwork string _ _ T V App [] app).
Proof. split; cbn; [constructor|set_solver|set_solver|set_solver]. Qed.

Lemma make_config_shards p unreliable m (app : App) :
  good_plan p →
  ((pl_n p <= length (pl_ctrlers p))%nat → ∃ cf, make_config p unreliable m app = Done cf ∧ shards_ready p cf) ∧
  ((length (pl_ctrlers p) < pl_n p)%nat → pl_groups p ≠ [] → make_config (T := T) p unreliable m app = Panicked).
Proof.
  intros [Hnd Hlen]. unfold plan_links in Hnd. rewrite !fmap_app, links_names in Hnd. unfold make_config.
  set (cf0 := mkShards _ _ _ _ _ _ _ _ _ _ _).
  destruct (StartCtrlers_ready (pl_ctrlers p) 0 cf0 [] []) as (cf1 & -> & Ht1 & Hl1 & _ & Hc1).
  { apply tables_empty. } { by apply NoDup_app in Hnd as [? _]. } { subst cf0. cbn. rewrite length_replicate. lia. }
  cbn [mbind outcome_bind Datatypes.app] in *. unfold shardclerk.
  destruct (wireEnds_tables (pl_mck p) ctrlername 0 _ _ (sh_net cf1) Ht1) as (n2 & -> & Ht2); [by eapply NoDup_prefix|].
  cbn [mbind outcome_bind mret outcome_ret]. set (cf2 := mkShards _ _ _ _ _ _ _ _ _ _ _).
  destruct (startGroups_ready (pl_groups p) 0 cf2 _ _ Ht2) as [Hok Hbad]; try done.
  { rewrite fmap_app, links_names. by rewrite <- app_assoc. }
  split; [|intros H1 H2; by rewrite Hbad]. intros Hle.
  destruct Hok as (cf3 & -> & Ht3 & (G1 & G2 & G3 & G4) & _ & Hg); [done|]. cbn [mbind outcome_bind].
  eexists. split; [reflexivity|]. split; cbn; try done.
  - unfold plan_links, plan_servers. rewrite <- app_assoc in Ht3. destruct Ht3. by split.
  - rewrite G3. intros k Hk. apply Hc1. lia.
Qed.

(** The rows of [mendnames] are as many as the controllers. *)
Lemma new_group_mendnames gi n nctrlers i row :
  nupdate (gg_mendnames (new_group gi n nctrlers)) i row = Panicked ↔ (nctrlers <= i)%nat.
Proof.
  unfold nupdate. assert (length (gg_mendnames (new_group gi n nctrlers)) = nctrlers) as -> by apply length_replicate.
  destruct (Nat.ltb_spec i nctrlers); split; (done || lia).
Qed.

(** ** Clients *)

Lemma storeNames_spec names j xs :
  ((j + length names <= length xs)%nat → ∃ ys, storeNames names j xs = Done ys) ∧
  ((j <= length xs)%nat → (length xs < j + length names)%nat → storeNames names j xs = Panicked).
Proof.
  revert j xs. induction names as [|e names IH]; intros j xs; cbn; [split; [by eexists|lia]|].
  destruct (decide (j < length xs)%nat) as [Hj|Hj].
  - rewrite nupdate_Done by done. cbn. destruct (IH (S j) (<[j := e]> xs)) as [H1 H2]. rewrite length_insert in H1, H2.
    split; [intros; apply H1; lia|intros; apply H2; lia].
  - rewrite nupdate_Panicked by lia. split; [lia|done].
Qed.

Lemma shard_makeClient_spec names cf L SL :
  tables L SL (sh_net cf) → NoDup (L.*1 ++ names) →
  ((length names <= sh_n cf)%nat → ∃ ck cf', makeClient names cf = Done (sh_newClerk cf, ck, cf') ∧
     tables (L ++ links names ctrlername 0) SL (sh_net cf')) ∧
  ((sh_n cf < length names)%nat → makeClient names cf = Panicked).
Proof.
  intros Ht Hnd. destruct (storeNames_spec names 0 (replicate (sh_n cf) ""%string)) as [H1 H2].
  rewrite length_replicate in H1, H2. unfold makeClient. split.
  - intros Hle. destruct H1 as [ys ->]; [lia|]. cbn [mbind outcome_bind].
    destruct (wireEnds_tables names ctrlername 0 L SL (sh_net cf) Ht Hnd) as (n1 & -> & Ht1). cbn [mbind outcome_bind].
    by eexists _, _.
  - intros Hlt. by rewrite H2 by lia.
Qed.

End building.

(** ** The theorems *)

Section theorems.
Context {codec : RaftCodec}.
Context {T V App : Type}.

Lemma groups_servers_gid (groups : list (list (@starting V App))) gi s :
  s ∈ groups_servers gi groups → ∃ k i, (gi <= k)%nat ∧ s = servername (100 + Z.of_nat k) i.
Proof.
  revert gi. induction groups as [|sts groups IH]; intros gi; cbn; [by intros ?%not_elem_of_nil|].
  intros [(i & -> & _)%list_elem_of_fmap|(k & i & ? & ->)%IH]%elem_of_app; [exists gi, i|exists k, i]; split; (done || lia).
Qed.

Lemma groups_servers_NoDup (groups : list (list (@starting V App))) gi : NoDup (groups_servers gi groups).
Proof.
  revert gi. induction groups as [|sts groups IH]; intros gi; cbn; [constructor|]. apply NoDup_app. split_and!; [|..|apply IH].
  - apply (NoDup_fmap_2_strong _); [|apply NoDup_seq]. intros i j _ _ E. by apply servername_inj in E as [_ ?]; [|lia..].
  - intros s (i & -> & _)%list_elem_of_fmap (k & j & Hk & E)%groups_servers_gid.
    apply servername_inj in E as [? _]; lia.
Qed.

Lemma plan_servers_NoDup (p : @plan V App) : NoDup (plan_servers p).
Proof.
  unfold plan_servers. apply NoDup_app. split_and!; [|..|apply groups_servers_NoDup].
  - apply (NoDup_fmap_2_strong _); [|apply NoDup_seq]. intros i j _ _. apply ctrlername_inj.
  - intros s (i & -> & _)%list_elem_of_fmap (k & j & _ & E)%groups_servers_gid. symmetry in E.
    by apply servername_ctrlername in E.
Qed.

(** Given end names that all differ, and groups that are not larger than the number
    of controllers, [make_config] returns a test in which every controller and
    every server of every group runs with a new peer, no two of them are registered
    under one name, and every end that was made is enabled and leads to the server
    it is for. *)
Theorem shard_make_config (p : @plan V App) unreliable maxraftstate (app : App) :
  good_plan p → (pl_n p <= length (pl_ctrlers p))%nat →
  ∃ cf : @config T V App, make_config p unreliable maxraftstate app = Done cf ∧ shards_ready p cf ∧ NoDup (plan_servers p).
Proof.
  intros Hp Hle. destruct (make_config_shards (T := T) p unreliable maxraftstate app Hp) as [Hok _].
  destruct (Hok Hle) as (cf & H & Hr). exists cf. split; [done|]. split; [done|]. apply plan_servers_NoDup.
Qed.

(** C33. For a plan whose end names all differ and whose groups have the size it says,
    with at least one group, and fresh end names for a client: if a group has more
    servers than there are controllers, [make_config] panics, and it is the table
    [mendnames] of a group that has no row for such a server; if it has fewer,
    [make_config] returns but [makeClient] panics, filling its table of ends; if it
    has as many, both return. *)
Theorem shard_tester_sizes (p : @plan V App) unreliable maxraftstate (app : App) names :
  good_plan p → pl_groups p ≠ [] → NoDup ((plan_links p).*1 ++ names) → length names = length (pl_ctrlers p) →
  let nctrlers := length (pl_ctrlers p) in
  ((nctrlers < pl_n p)%nat →
     make_config (T := T) p unreliable maxraftstate app = Panicked ∧
     ∀ gi i row, nupdate (gg_mendnames (new_group gi (pl_n p) nctrlers)) i row = Panicked ↔ (nctrlers <= i)%nat) ∧
  ((pl_n p < nctrlers)%nat → ∃ cf : @config T V App,
     make_config p unreliable maxraftstate app = Done cf ∧
     storeNames names 0 (replicate (sh_n cf) ""%string) = Panicked ∧ makeClient names cf = Panicked) ∧
  (pl_n p = nctrlers → ∃ (cf : @config T V App) r,
     make_config p unreliable maxraftstate app = Done cf ∧ makeClient names cf = Done r).
Proof.
  intros Hp Hne Hnd Hlen nctrlers. destruct (make_config_shards (T := T) p unreliable maxraftstate app Hp) as [Hok Hbad].
  split_and!.
  - intros Hlt. split; [by apply Hbad|]. intros gi i row. apply new_group_mendnames.
  - intros Hlt. destruct Hok as (cf & H & Hready); [subst nctrlers; lia|]. exists cf. split; [done|].
    destruct (shard_makeClient_spec names cf _ _ (sr_tables _ _ Hready) Hnd) as [_ Hpan]. split.
    + apply storeNames_spec; rewrite length_replicate, (sr_size _ _ Hready); lia.
    + apply Hpan. rewrite (sr_size _ _ Hready). lia.
  - intros E. destruct Hok as (cf & H & Hready); [lia|].
    destruct (shard_makeClient_spec names cf _ _ (sr_tables _ _ Hready) Hnd) as [Hc _]. rewrite (sr_size _ _ Hready) in Hc.
    destruct Hc as (ck & cf' & Hc & _); [lia|]. by exists cf, (sh_newClerk cf, ck, cf').
Qed.

(** The servers that a [join] names are the members of the groups: all of them are
    registered in the network. *)
Lemma joinMap_registered (p : @plan V App) gis (cf : @config T V App) m :
  shards_ready p cf → (∀ sts, sts ∈ pl_groups p → length sts = pl_n p) → (∀ g, g ∈ gis → (g < length (pl_groups p))%nat) →
  (∀ gid ss s, m !! gid = Some ss → s ∈ ss → s ∈ plan_servers p) →
  ∃ m', joinMap gis cf m = Done m' ∧ ∀ gid ss s, m' !! gid = Some ss → s ∈ ss → s ∈ plan_servers p.
Proof.
  intros Hr Hlen. revert m. induction gis as [|g gis IH]; intros m Hg Hm; cbn [joinMap]; [by exists m|].
  destruct (lookup_lt_is_Some_2 (pl_groups p) g) as [sts Hsts]; [apply Hg; by left|].
  destruct (sr_groups _ _ Hr g sts Hsts) as (gg & -> & Hgid & _). cbn [of_option mbind outcome_bind].
  apply IH; [intros; apply Hg; by right|]. intros gid ss s.
  intros [(_ & <-)|[_ ?]]%lookup_insert_Some; [|by eapply Hm]. intros (i & -> & Hi)%list_elem_of_fmap. rewrite Hgid.
  unfold plan_servers. apply elem_of_app. right. rewrite (sr_size _ _ Hr) in Hi. rewrite <- (Hlen sts) in Hi by (by eapply list_elem_of_lookup_2).
  clear - Hsts Hi. change g with (0 + g)%nat. revert Hsts. generalize 0%nat as gi. revert g. induction (pl_groups p) as [|s0 gs IH]; intros g gi Hsts; [done|].
  destruct g as [|g]; cbn in Hsts |- *; apply elem_of_app.
  - injection Hsts as ->. left. rewrite Nat.add_0_r. apply list_elem_of_fmap. by exists i.
  - right. rewrite <- plus_n_Sm. by apply (IH g (S gi)).
Qed.

End theorems.

(** ** A small plan for the witnesses *)

Definition nothing : @Service unit unit := mkService "ShardKV" ∅.

Definition start_of (names mnames : list string) : @starting unit unit :=
  mkStart names mnames nothing nothing (mkClock 1 2).

(** Two controllers, and one group of two servers. *)
Definition small_plan : @plan unit unit :=
  mkPlan [start_of ["a"; "b"] []; start_of ["c"; "d"] []] ["e"; "f"] 2
    [[start_of ["g"; "h"] ["i"; "j"]; start_of ["k"; "l"] ["m"; "n"]]].

Lemma small_good : good_plan small_plan.
Proof.
  split; [apply (bool_decide_unpack _); vm_compute; exact I|]. intros sts ->%list_elem_of_singleton. reflexivity.
Qed.

Lemma shard_make_config_witness :
  ∃ cf : @config unit unit unit, make_config small_plan false (-1) () = Done cf ∧ shards_ready small_plan cf ∧
    NoDup (plan_servers small_plan).
Proof. apply (shard_make_config small_plan false (-1) () small_good). cbn. lia. Defined.

(** A group of one for two controllers, and of three. *)
Definition thin_plan : @plan unit unit :=
  mkPlan (pl_ctrlers small_plan) (pl_mck small_plan) 1 [[start_of ["g"] ["i"; "j"]]].

Definition wide_plan : @plan unit unit :=
  mkPlan (pl_ctrlers small_plan) (pl_mck small_plan) 3
    [[start_of ["g"; "h"; "h1"] ["i"; "j"]; start_of ["k"; "l"; "l1"] ["m"; "n"]; start_of ["q"; "r"; "r1"] ["s"; "t"]]].

Lemma shard_tester_sizes_witness :
  (∃ (cf : @config unit unit unit) r,
     make_config small_plan false (-1) () = Done cf ∧ makeClient ["o"; "p"] cf = Done r) ∧
  (∃ cf : @config unit unit unit, make_config thin_plan false (-1) () = Done cf ∧ makeClient ["o"; "p"] cf = Panicked) ∧
  make_config (T := unit) wide_plan false (-1) () = Panicked.
Proof.
  assert (∀ pl : @plan unit unit, pl = small_plan ∨ pl = thin_plan ∨ pl = wide_plan →
    good_plan pl ∧ pl_groups pl ≠ [] ∧ NoDup ((plan_links pl).*1 ++ ["o"; "p"]) ∧
    length ["o"; "p"] = length (pl_ctrlers pl)) as Hall.
  { intros pl Hpl. split; [split|].
    - destruct Hpl as [->|[->| ->]]; apply (bool_decide_unpack _); vm_compute; exact I.
    - destruct Hpl as [->|[->| ->]]; intros sts ->%list_elem_of_singleton; reflexivity.
    - destruct Hpl as [->|[->| ->]]; (split; [discriminate|]); (split; [|reflexivity]);
        apply (bool_decide_unpack _); vm_compute; exact I. }
  split; [|split].
  - destruct (Hall small_plan) as (H1 & H2 & H3 & H4); [tauto|].
    apply (shard_tester_sizes small_plan false (-1) () ["o"; "p"] H1 H2 H3 H4). reflexivity.
  - destruct (Hall thin_plan) as (H1 & H2 & H3 & H4); [tauto|].
    destruct (shard_tester_sizes (T := unit) thin_plan false (-1) () ["o"; "p"] H1 H2 H3 H4) as (_ & H & _).
    destruct H as (cf & Hcf & _ & Hc); [cbn; lia|]. exists cf. split; assumption.
  - destruct (Hall wide_plan) as (H1 & H2 & H3 & H4); [tauto|].
    apply (shard_tester_sizes (T := unit) wide_plan false (-1) () ["o"; "p"] H1 H2 H3 H4). cbn. lia.
Defined.
